(* ===== verification/_CoqProject ===== *)
-Q . S2P
Prelude.v
AwaiterList.v
Event.v
EventClient.v
EventExecutor.v
Latch.v
TaskGroup.v
Mutex.v
Monitor.v
Semaphore.v
Queue.v
RingBuffer.v
Task.v
Generator.v
SyncWait.v
WhenAll.v
WhenAllObjects.v
WhenAny.v
SharedMutex.v
ThreadPool.v
IoNotifier.v
IoNotifierKqueue.v
Fd.v
Net.v
Timers.v
Scheduler.v
SchedulerPool.v
SchedulerSetup.v
NetIo.v
NetObjects.v
Tls.v
Dns.v
ConditionVariable.v
ConditionVariableWait.v
Expected.v
ExpectedContract.v
Executors.v
