(* ===== verification/Prelude.v ===== *)
(** * libcoro: a verification development

    libcoro (include/coro, src/) is a C++20 coroutine library: lazily started tasks and
    generators, synchronisation primitives for coroutines, combinators, a thread pool, an
    epoll- or kqueue-driven scheduler with timers, and TCP, UDP, TLS and DNS on top of it.
    This development models
    that code as executable definitions and proves what makes each part correct, in every
    interleaving of the threads involved where the code is concurrent.

    ** How the code is modelled

    A concurrent component is a labelled transition system ([run], [reach] below): a
    [Record state] with the members of the class, the program counters of the threads or
    coroutines inside its operations and some history variables, and an executable
    [exec : label -> state -> option (state * list event)].  One step is one atomic access
    or one critical section; a label resolves what the scheduler, the caller or a weak
    compare-exchange decides; events are what an observer sees (a resumption, a returned
    value, an exception, undefined behaviour such as a use after free).  Memory orders are
    sequentially consistent.  Intrusive lists are followed through their [m_next] fields
    ([chain]).  Sequential code is a function; a loop that is not structural has fuel,
    and the theorems state the fuel that is enough.  Integers whose width matters are
    wrapped ([u64], [s64]).  Code outside the repository - the kernel's epoll, timerfd and
    sockets, kevent, inet_pton, OpenSSL, c-ares, the bodies of user coroutines - is an
    argument, a label, a class ([Epoll], [Kqueue], [Inet], [Stream], [Datagram], [Listener],
    [Ssl]) or a record of answers; the laws of a class are the documented behaviour, and a
    concrete instance shows that they can hold.  A call of the outside that may never
    return - a poll without a timeout - is an option there, and a loop around it gives an
    [answer]: a result, the wait it never comes back from, or the end of its fuel.

    ** The files

    - Prelude: point updates, counting ([occ], [sum_below]), machine integers, transition
      systems and simulations, chains, answers.
    - AwaiterList (detail/awaiter_list.hpp): push, pop, pop_all, reverse; linearizability
      with one popper at a time, and the ABA race with two.
    - Event (event.hpp, event.cpp): set, reset and awaiters with re-entrant resumption;
      EventClient: what the event promises its clients; EventExecutor: the set() that hands
      its waiters to an executor; Latch (latch.hpp) and TaskGroup (task_group.hpp, with
      spawn_joinable of the executors) are built on it.
    - Mutex (mutex.hpp, mutex.cpp): lock, try_lock, unlock, scoped_lock, with a refinement
      to an owner and a stack of waiters; Monitor: the critical sections of a coro::mutex
      used by Semaphore (semaphore.hpp), Queue (queue.hpp) and RingBuffer (ring_buffer.hpp).
    - SharedMutex (shared_mutex.hpp): refinement to a fifo readers-writer lock.
    - ConditionVariable (condition_variable.hpp, .cpp): waits, notifications with the load,
      the read of m_next and the compare-exchange of awaiter_list_pop as steps of their own,
      and the contest of notification and timeout in wait_for ([WaitFor]);
      ConditionVariableWait: what the calls wait_for and wait_until return.
    - Task (task.hpp, detail/task_self_deleting, invoke.hpp): promises, a machine of
      coroutine frames with continuations, ownership of frames ([Ownership]); Generator
      (generator.hpp); SyncWait (sync_wait.hpp, .cpp); WhenAll (when_all.hpp),
      WhenAllObjects (its awaitable before it is awaited, its tasks); WhenAny (when_any.hpp).
    - ThreadPool (thread_pool.hpp, .cpp): executors, schedule, resume, spawn_detached,
      shutdown.
    - IoNotifier (poll.hpp, poll.cpp, detail/io_notifier_epoll): statuses, the packed user
      data, the timer value, registration; IoNotifierKqueue (detail/io_notifier_kqueue): its
      counterpart for the BSDs; Timers (the multimap of src/scheduler.cpp); Scheduler
      (scheduler.hpp, scheduler.cpp, detail/poll_info.hpp): schedule, yield, poll with stop
      token and descriptor, spawn_detached and the event loop over the interest list of epoll,
      with process_tasks_inline; SchedulerPool: the same scheduler with
      process_tasks_on_thread_pool, the two counters and the way of coroutines between loop,
      pool and other threads, each access of thread_pool::resume a step; SchedulerSetup:
      construction, dispatch of events, destruction.
    - Fd (detail/pipe, poll_stop_source, net/socket): ownership and set-up of descriptors; Net
      (net/ip_address, net/socket_address.hpp, net/io_status); NetIo (net/tcp, net/udp,
      net/connect): reading, writing, accepting, connecting; NetObjects: clients, servers and
      peers as owners of sockets; Tls (net/tls): handshake, recv, send, shutdown, moves,
      contexts, servers; Dns (net/dns/resolver.hpp): lookups, the poll tasks of the sockets, the
      lifetime of the library.
    - Expected (detail/tl_expected.hpp, the fallback of expected.hpp): the union of value and
      error with the lifetimes of its members and the exceptions of their types;
      ExpectedContract: its operations against a plain sum type.
    - Executors: the default executors (default_executor.cpp), who runs the event loop of a
      scheduler (process_events, the dedicated thread), schedule(task, timeout) over WhenAny.

    ** What the theorems show

    - Safety: mutual exclusion, resumption exactly once, frames and descriptors released
      exactly once, no use of a finished operation by the event loop.
    - No lost wake-ups: a suspended coroutine is always listed where the next wake-up will
      find it, or somebody is on the way to resume it.
    - Functional and refinement results: fifo order of queue, ring buffer and thread pool,
      permits of the semaphore, results of tasks, generators, sync_wait, when_all and
      when_any, mutexes against their specifications.
    - Accounting: the size counters of task group, thread pool and scheduler, with either
      execution strategy.
    - Types: the invariants of the records, as that of a tls::client, kept by every operation.
    - Round trips, equivalences and bounds: epoll user data, socket addresses and their
      text, the expiry loop, the timer value, termination of the read and write loops of tcp
      and tls.
    - Lifetimes: tl::expected constructs and destroys its value or error exactly once, and
      survives exceptions of the value type when its error is an enumeration.
    - Negative results, each an explicit run of the model: behaviours of the code that
      contradict its intent (a lost notification of the condition variable, a lost timer,
      polls that are never watched and uses after free in the scheduler, leaks on assignment,
      a tls recv that polls for ever or past buffered data, a dedicated thread that leaves too
      early or never, and others).  Several theorems have such a run as the other side of a
      condition they state: those of the scheduler hold as long as no registration outlives
      its poll, that of the condition variable as long as no pop is stale, that of the ring
      buffer until its counters wrap.

    ** Bounds and fuel

    Numbers of threads, coroutines and operations are arbitrary.  awaiter_list_reverse
    needs as much fuel as the list is long; read_exact and write_all need one round per
    byte of the buffer, the tls loops one round per time OpenSSL asks to wait; all are shown
    to return within it, or to wait for ever in a poll that was given no timeout.  Counters
    are bounded only where the code's are, by the guards that keep 64-bit counters from
    wrapping.

    ** Not modelled

    The concepts and platform headers, the bodies of tl::expected that only C++11 compilers
    or builds without exceptions see, and weak memory orders.  Queue, RingBuffer and the
    other clients of coro::expected take it as a sum type, which is what ExpectedContract
    shows it to be, and the combinators of tl::expected are treated for element types whose
    copies and moves have no effects of their own.  OpenSSL and c-ares are interfaces.
    SharedMutex takes the executor that its waiters are handed to as accepting them: a
    refusal, which the code does not look at, would lose the waiter, as it does in
    EventExecutor. *)
From stdpp Require Import base list relations option numbers.
From Stdlib Require Import ZArith Lia.

(** ** Notations and tactics of the development *)

Declare Scope coro_scope.
Delimit Scope coro_scope with coro.

Create HintDb coro.

(** Point update of a total map: the thread tables and the [m_next] fields of
    the intrusive lists are total functions of the (address) identifier. *)
Definition upd {A} (f : nat -> A) (k : nat) (v : A) : nat -> A :=
  fun x => if decide (x = k) then v else f x.

Notation "f .[ k ↦ v ]" := (upd f k v) (at level 1, left associativity,
  format "f .[ k  ↦  v ]") : coro_scope.
Open Scope coro_scope.

Lemma upd_eq {A} (f : nat -> A) k v : f.[k ↦ v] k = v.
Proof. unfold upd. by rewrite decide_True. Qed.

Lemma upd_ne {A} (f : nat -> A) k v x : x <> k -> f.[k ↦ v] x = f x.
Proof. intros. unfold upd. by rewrite decide_False. Qed.

Create Rewrite HintDb coro.
#[export] Hint Rewrite @upd_eq : coro.
#[export] Hint Rewrite @upd_ne using (done || congruence) : coro.

(** Splits on every point update that is applied in the goal or in a hypothesis. *)
Ltac upd_cases :=
  repeat match goal with
  | H : context [upd ?f ?k ?v ?x] |- _ =>
      destruct (decide (x = k)) as [?|?];
      [ subst; rewrite ?upd_eq in H | rewrite (upd_ne f k v x) in H by done ]
  | |- context [upd ?f ?k ?v ?x] =>
      destruct (decide (x = k)) as [?|?];
      [ subst; rewrite ?upd_eq | rewrite (upd_ne f k v x) by done ]
  end.

(** Inverts an execution equation [exec l s = Some (s', ev)]: one goal per path
    of the step function that returns. *)
Ltac exec_inv := repeat (case_match; simplify_eq/=); try done.

Ltac split_and_all := repeat match goal with H : _ /\ _ |- _ => destruct H end.

Lemma elem_nil_False {A} (x : A) : x ∈ [] -> False.
Proof. apply not_elem_of_nil. Qed.

(** Closes a goal with a member of the empty list among the hypotheses. *)
Ltac no_nil :=
  intros; match goal with H : _ ∈ [] |- _ => by destruct (elem_nil_False _ H) end.

(** ** Counting occurrences in a list of identifiers *)

Fixpoint occ (x : nat) (l : list nat) : nat :=
  match l with
  | [] => 0
  | y :: l' => (if decide (x = y) then 1 else 0) + occ x l'
  end.

Lemma occ_app x l1 l2 : occ x (l1 ++ l2) = occ x l1 + occ x l2.
Proof. induction l1; simpl; lia. Qed.

Lemma occ_pos x l : 0 < occ x l -> exists l1 l2, l = l1 ++ x :: l2.
Proof.
  induction l as [|y l IH]; simpl; [lia|]. case_decide as Hxy; intros H.
  - subst. by exists [], l.
  - destruct IH as (l1 & l2 & ->); [lia|]. by exists (y :: l1), l2.
Qed.

(** A list dominated occurrence by occurrence is not longer. *)
Lemma occ_le_length l1 l2 : (forall x, occ x l1 <= occ x l2) -> length l1 <= length l2.
Proof.
  revert l2. induction l1 as [|x l1 IH]; intros l2 H; simpl; [lia|].
  destruct (occ_pos x l2) as (a & b & ->).
  { specialize (H x). simpl in H. case_decide; [lia|done]. }
  rewrite length_app. simpl. enough (length l1 <= length (a ++ b)) by (rewrite length_app in *; lia).
  apply IH. intros y. specialize (H y). rewrite occ_app in *. simpl in H. case_decide; lia.
Qed.

(** ** Sums over an initial segment of the identifiers *)

Fixpoint sum_below (f : nat -> nat) (n : nat) : nat :=
  match n with 0 => 0 | S m => f m + sum_below f m end.

Lemma sum_ext f g n : (forall i, i < n -> f i = g i) -> sum_below f n = sum_below g n.
Proof. induction n as [|n IH]; intros H; simpl; [done|]. rewrite (H n), IH by auto. done. Qed.

(** One agent moves: the sum changes by what that agent contributes. *)
Lemma sum_move {A} (g : A -> nat) (f : nat -> A) i x n : i < n ->
  sum_below (fun j => g (f.[i ↦ x] j)) n + g (f i) = sum_below (fun j => g (f j)) n + g x.
Proof.
  induction n as [|n IH]; intros Hi; simpl; [lia|]. destruct (decide (n = i)) as [->|Hne].
  - rewrite upd_eq. enough (sum_below (fun j => g (f.[i ↦ x] j)) i = sum_below (fun j => g (f j)) i) by lia.
    apply sum_ext. intros j Hj. rewrite upd_ne; [done|lia].
  - rewrite (upd_ne f i x n) by done. specialize (IH ltac:(lia)). lia.
Qed.

(** A move that changes no contribution. *)
Lemma sum_same {A} (g : A -> nat) (f : nat -> A) i x n : g x = g (f i) ->
  sum_below (fun j => g (f.[i ↦ x] j)) n = sum_below (fun j => g (f j)) n.
Proof. intros H. apply sum_ext. intros j _. destruct (decide (j = i)) as [->|]; [by rewrite upd_eq|by rewrite upd_ne]. Qed.

Lemma sum_pos f n i : i < n -> f i <= sum_below f n.
Proof. induction n as [|n IH]; intros Hi; simpl; [lia|]. destruct (decide (i = n)) as [->|]; [lia|]. specialize (IH ltac:(lia)). lia. Qed.

(** ** Machine integers *)

Definition wrapU (w z : Z) : Z := (z mod 2 ^ w)%Z.
Definition wrapS (w z : Z) : Z := ((z + 2 ^ (w - 1)) mod 2 ^ w - 2 ^ (w - 1))%Z.

(** [std::size_t] / [uint64_t] and [std::int64_t] / [std::ptrdiff_t] arithmetic. *)
Definition u64 : Z -> Z := wrapU 64.
Definition s64 : Z -> Z := wrapS 64.
Definition u64_max : Z := (2 ^ 64 - 1)%Z.
Definition s64_max : Z := (2 ^ 63 - 1)%Z.
Definition s64_min : Z := (- 2 ^ 63)%Z.

Lemma u64_small z : (0 <= z <= u64_max)%Z -> u64 z = z.
Proof. unfold u64, wrapU, u64_max. intros. apply Z.mod_small. lia. Qed.

Lemma u64_range z : (0 <= u64 z <= u64_max)%Z.
Proof.
  unfold u64, wrapU, u64_max.
  pose proof (Z.mod_pos_bound z (2 ^ 64) ltac:(lia)). lia.
Qed.

Lemma s64_small z : (s64_min <= z <= s64_max)%Z -> s64 z = z.
Proof.
  unfold s64, wrapS, s64_min, s64_max. intros.
  rewrite Z.mod_small; lia.
Qed.

Lemma s64_range z : (s64_min <= s64 z <= s64_max)%Z.
Proof.
  unfold s64, wrapS, s64_min, s64_max.
  pose proof (Z.mod_pos_bound (z + 2 ^ (64 - 1)) (2 ^ 64) ltac:(lia)). lia.
Qed.

(** ** Labelled transition systems with observable events

    A component is an executable step function [exec]: the label resolves every
    choice (which agent moves, whether a weak compare-exchange fails
    spuriously), [None] means the label is not enabled.  A schedule is a list of
    labels, so a schedule evaluates by computation, and the properties hold of
    every schedule by induction on [reach]. *)
Section lts.
Context {S L E : Type} (exec : L -> S -> option (S * list E)).

Fixpoint run (ls : list L) (s : S) : option (S * list E) :=
  match ls with
  | [] => Some (s, [])
  | l :: ls' =>
      match exec l s with
      | Some (s1, e1) =>
          match run ls' s1 with
          | Some (s2, e2) => Some (s2, e1 ++ e2)
          | None => None
          end
      | None => None
      end
  end.

Inductive reach (s0 : S) : S -> list E -> Prop :=
| reach_refl : reach s0 s0 []
| reach_step s tr l s' ev :
    reach s0 s tr -> exec l s = Some (s', ev) -> reach s0 s' (tr ++ ev).

Lemma reach_inv (I : S -> list E -> Prop) s0 :
  I s0 [] ->
  (forall s tr l s' ev, I s tr -> exec l s = Some (s', ev) -> I s' (tr ++ ev)) ->
  forall s tr, reach s0 s tr -> I s tr.
Proof. intros H0 Hstep s tr. induction 1; eauto. Qed.

(** State invariants, the common case. *)
Lemma reach_state_inv (I : S -> Prop) s0 :
  I s0 ->
  (forall s l s' ev, I s -> exec l s = Some (s', ev) -> I s') ->
  forall s tr, reach s0 s tr -> I s.
Proof. intros H0 Hstep s tr. induction 1; eauto. Qed.

Lemma reach_trans s0 s1 s2 tr1 tr2 :
  reach s0 s1 tr1 -> reach s1 s2 tr2 -> reach s0 s2 (tr1 ++ tr2).
Proof.
  intros H1. induction 1.
  - by rewrite app_nil_r.
  - rewrite app_assoc. by eapply reach_step.
Qed.

Lemma run_reach ls s s' tr : run ls s = Some (s', tr) -> reach s s' tr.
Proof.
  revert s tr. induction ls as [|l ls IH]; intros s tr H; simpl in H.
  - simplify_eq. constructor.
  - destruct (exec l s) as [[s1 e1]|] eqn:E1; [|done].
    destruct (run ls s1) as [[s2 e2]|] eqn:E2; [|done]. simplify_eq.
    eapply (reach_trans _ _ _ e1 e2); [|eauto].
    change e1 with ([] ++ e1). eapply reach_step; [constructor | done].
Qed.

Lemma run_app ls1 ls2 s s1 e1 s2 e2 :
  run ls1 s = Some (s1, e1) -> run ls2 s1 = Some (s2, e2) ->
  run (ls1 ++ ls2) s = Some (s2, e1 ++ e2).
Proof.
  revert s e1. induction ls1 as [|l ls IH]; intros s e1 H1 H2; simpl in *.
  - by simplify_eq.
  - destruct (exec l s) as [[sa ea]|]; [|done].
    destruct (run ls sa) as [[sb eb]|] eqn:Erun; [|done]. simplify_eq.
    erewrite IH; [|done..]. by rewrite app_assoc.
Qed.
End lts.

(** Forward simulation of one system by another: every concrete step is matched
    by a finite sequence of abstract steps, and related states stay related. *)
Section simulation.
Context {S1 L1 E1 S2 L2 E2 : Type}.
Context (exec1 : L1 -> S1 -> option (S1 * list E1)).
Context (exec2 : L2 -> S2 -> option (S2 * list E2)).
Context (R : S1 -> S2 -> Prop).

Definition simulates : Prop :=
  forall s1 a1 l s1' ev,
    R s1 a1 -> exec1 l s1 = Some (s1', ev) ->
    exists a1' tr, reach exec2 a1 a1' tr /\ R s1' a1'.

Lemma simulation_reach s0 a0 :
  simulates -> R s0 a0 ->
  forall s tr, reach exec1 s0 s tr ->
  exists a tr', reach exec2 a0 a tr' /\ R s a.
Proof.
  intros Hsim H0 s tr. induction 1 as [|s tr l s' ev Hr IH He].
  - exists a0, []. split; [constructor|done].
  - destruct IH as (a & tr' & Ha & HR).
    destruct (Hsim _ _ _ _ _ HR He) as (a' & tr'' & Ha' & HR').
    exists a', (tr' ++ tr''). split; [by eapply reach_trans|done].
Qed.
End simulation.

(** ** What a call comes to: it returns, or it is suspended in a poll that never returns; the
    loops have fuel, and the theorems show that it does not run out. *)
Inductive answer (A : Type) := Answer (a : A) | Waits | OutOfFuel.
Arguments Answer {A} a.
Arguments Waits {A}.
Arguments OutOfFuel {A}.

Definition then_do {A B : Type} (m : answer A) (f : A -> answer B) : answer B :=
  match m with Answer a => f a | Waits => Waits | OutOfFuel => OutOfFuel end.

Definition answered {A : Type} (m : answer A) : option A := match m with Answer a => Some a | _ => None end.

(** ** Intrusive singly linked lists

    [chain next p l]: following the [m_next] fields from the pointer [p]
    ([None] is [nullptr]) visits exactly the nodes [l] and then ends. *)
Fixpoint chain (next : nat -> option nat) (p : option nat) (l : list nat) : Prop :=
  match l with
  | [] => p = None
  | x :: l' => p = Some x /\ chain next (next x) l'
  end.

Section chain.
Implicit Types (next : nat -> option nat) (p : option nat) (l : list nat).

Lemma chain_det next p l1 l2 : chain next p l1 -> chain next p l2 -> l1 = l2.
Proof.
  revert p l2. induction l1 as [|x l1 IH]; intros p [|y l2]; simpl; [done|intros; destruct_and?; congruence..|].
  intros [-> H1] [Hy H2]. simplify_eq. f_equal. eauto.
Qed.

Lemma chain_suffix next p l1 l2 :
  chain next p (l1 ++ l2) -> exists p', chain next p' l2.
Proof.
  revert p. induction l1 as [|x l1 IH]; intros p; simpl; [eauto|].
  intros [_ H]. eauto.
Qed.

(** A list that ends visits no node twice. *)
Lemma chain_NoDup next p l : chain next p l -> NoDup l.
Proof.
  revert p. induction l as [|x l IH]; intros p; simpl; [constructor|].
  intros [-> H]. constructor; [|eauto].
  intros Hin. apply list_elem_of_split in Hin as (l1 & l2 & ->).
  destruct (chain_suffix _ _ _ _ H) as [p' H'].
  pose proof H' as [-> H2].
  assert (chain next (Some x) (x :: l1 ++ x :: l2)) as Hfull by (by split).
  pose proof (chain_det _ _ _ _ Hfull H') as Heq.
  apply (f_equal length) in Heq. simpl in Heq. rewrite length_app in Heq. simpl in Heq. lia.
Qed.

(** Only the fields of the listed nodes matter. *)
Lemma chain_ext next next' p l :
  (forall x, x ∈ l -> next' x = next x) -> chain next p l -> chain next' p l.
Proof.
  revert p. induction l as [|x l IH]; intros p Hext; simpl; [done|].
  intros [-> H]. split; [done|]. rewrite (Hext x) by (by left).
  apply IH; [|done]. intros y Hy. apply Hext. by right.
Qed.

Lemma chain_upd next p l t v : t ∉ l -> chain next p l -> chain (next.[t ↦ v]) p l.
Proof.
  revert p. induction l as [|x l IH]; intros p Hn; simpl; [done|].
  intros [-> H]. split; [done|].
  rewrite upd_ne by set_solver. apply IH; [set_solver|done].
Qed.

Lemma chain_cons next p l t :
  t ∉ l -> chain next p l -> chain (next.[t ↦ p]) (Some t) (t :: l).
Proof. intros. simpl. rewrite upd_eq. split; [done|]. by apply chain_upd. Qed.

Lemma chain_None next l : chain next None l -> l = [].
Proof. destruct l; simpl; [done|]. by intros [? ?]. Qed.

Lemma chain_Some next x l :
  chain next (Some x) l -> exists l', l = x :: l' /\ chain next (next x) l'.
Proof. destruct l as [|y l]; simpl; [done|]. intros [Heq ?]. simplify_eq. eauto. Qed.

Lemma chain_next_mem next p l x :
  chain next p l -> x ∈ l -> exists l1 l2, l = l1 ++ x :: l2 /\ chain next (next x) l2.
Proof.
  intros H Hin. apply list_elem_of_split in Hin as (l1 & l2 & ->).
  exists l1, l2. split; [done|].
  destruct (chain_suffix _ _ _ _ H) as [p' [_ ?]]. done.
Qed.
End chain.

#[export] Hint Resolve chain_upd chain_cons chain_NoDup : coro.
