(* ===== verification/AwaiterList.v ===== *)
(** * The intrusive awaiter list (include/coro/detail/awaiter_list.hpp)

    The lock-free list that the semaphore, the mutex, the condition variable and
    the scheduler keep their waiters in.  A node is identified by its address;
    [next] is the table of the [m_next] fields and [list_head] the atomic head.
    [awaiter_list_reverse] is sequential code over the table; push, pop and
    pop_all run concurrently, one atomic access per step. *)
From stdpp Require Import base list relations option numbers.
From S2P Require Import Prelude.

Module AwaiterList.

(** ** awaiter_list_reverse *)

(** The [while (curr != nullptr)] loop; the fuel bounds the iterations. *)
Fixpoint reverse_loop (fuel : nat) (next : nat -> option nat)
    (prev curr : option nat) : option ((nat -> option nat) * option nat) :=
  match curr with
  | None => Some (next, prev)
  | Some c =>
      match fuel with
      | 0 => None
      | S fuel' =>
          let nxt := next c in
          reverse_loop fuel' (next.[c ↦ prev]) curr nxt
      end
  end.

Definition awaiter_list_reverse (fuel : nat) (next : nat -> option nat)
    (curr : option nat) : option ((nat -> option nat) * option nat) :=
  match curr with
  | None => Some (next, curr)
  | Some c =>
      match next c with
      | None => Some (next, curr)
      | Some _ => reverse_loop fuel next None curr
      end
  end.

Lemma reverse_loop_spec fuel next prev curr l acc :
  chain next curr l -> chain next prev acc -> NoDup (l ++ acc) -> length l <= fuel ->
  exists next' p, reverse_loop fuel next prev curr = Some (next', p) /\
    chain next' p (rev l ++ acc) /\ forall x, x ∉ l -> next' x = next x.
Proof.
  revert fuel next prev curr acc.
  induction l as [|c l IH]; intros fuel next prev curr acc Hc Ha Hnd Hf; simpl in Hc.
  - subst. exists next, prev. by destruct fuel.
  - destruct Hc as [-> Hc]. destruct fuel as [|fuel]; simpl in *; [lia|].
    apply list.NoDup_cons in Hnd as [Hnin Hnd].
    destruct (IH fuel (next.[c ↦ prev]) (Some c) (next c) (c :: acc))
      as (next' & p & -> & Hp & Hfr).
    + apply chain_upd; [set_solver|done].
    + apply chain_cons; [set_solver|done].
    + rewrite <- Permutation_middle. by apply list.NoDup_cons.
    + lia.
    + exists next', p. split; [done|]. rewrite <- app_assoc. split; [done|].
      intros x Hx. rewrite Hfr by set_solver. apply upd_ne. set_solver.
Qed.

Lemma awaiter_list_reverse_spec fuel next curr l :
  chain next curr l -> length l <= fuel ->
  exists next' p, awaiter_list_reverse fuel next curr = Some (next', p) /\
    chain next' p (rev l) /\ forall x, x ∉ l -> next' x = next x.
Proof.
  intros Hc Hf. destruct l as [|a [|b l]]; simpl in Hc.
  - subst. by exists next, None.
  - destruct Hc as [-> Hn]. simpl. rewrite Hn. exists next, (Some a). naive_solver.
  - destruct Hc as (-> & Hn & Hc). unfold awaiter_list_reverse. rewrite Hn.
    assert (chain next (Some a) (a :: b :: l)) as Hfull by (simpl; naive_solver).
    destruct (reverse_loop_spec fuel next None (Some a) (a :: b :: l) [] Hfull)
      as (next' & p & -> & Hp & Hfr); [done| |done|].
    + rewrite app_nil_r. by eapply chain_NoDup.
    + rewrite app_nil_r in Hp. eauto.
Qed.

(** The reversal terminates (one iteration per node suffices), returns the
    reversed list and leaves every node outside the list alone. *)
Theorem awaiter_list_reverse_correct fuel next curr l :
  chain next curr l -> length l <= fuel ->
  exists next' p, awaiter_list_reverse fuel next curr = Some (next', p) /\
    chain next' p (rev l) /\ forall x, x ∉ l -> next' x = next x.
Proof. apply awaiter_list_reverse_spec. Qed.

Definition next3 (n : nat) : option nat :=
  match n with 0 => Some 1 | 1 => Some 2 | _ => None end.

Lemma awaiter_list_reverse_correct_witness :
  exists next' p, awaiter_list_reverse 3 next3 (Some 0) = Some (next', p) /\
    chain next' p (rev [0; 1; 2]) /\ forall x, x ∉ [0; 1; 2] -> next' x = next3 x.
Proof.
  apply (awaiter_list_reverse_correct 3 next3 (Some 0) [0; 1; 2]).
  - vm_compute. auto.
  - simpl. lia.
Defined.

(** ** The concurrent operations *)

(** Control states of a thread inside push ([n] is the node), pop and pop_all:
    the point after the load or after a failed exchange, with the value read. *)
Inductive pc :=
| Idle
| PushLoad (n : nat)
| PushStore (n : nat) (current : option nat)
| PushCas (n : nat) (current : option nat)
| PopLoad
| PopRead (waiter : nat)
| PopCas (waiter : nat) (waiter_next : option nat)
| PopAllLoad
| PopAllCas (head : nat).

Record state := mk_state {
  list_head : option nat;          (* the std::atomic<awaiter_type*> *)
  next : nat -> option nat;        (* m_next of every node *)
  pcs : nat -> pc;                 (* the threads *)
  content : list nat;              (* auxiliary: nodes linked, never read by the code *)
  pushing : list nat;              (* auxiliary: nodes handed to push, not yet linked *)
  consumer : option nat            (* auxiliary: thread inside pop or pop_all *)
}.

Definition init : state := mk_state None (fun _ => None) (fun _ => Idle) [] [] None.

Inductive call := Push (n : nat) | Pop | PopAll.

(** [Call t c] enters an operation; [Step t spurious] performs the next atomic
    access of [t]; [spurious] makes a weak compare-exchange fail. *)
Inductive label := Call (t : nat) (c : call) | Step (t : nat) (spurious : bool).

(** Events, at the access that decides the result of an operation. *)
Inductive event :=
| Pushed (t n : nat)
| Popped (t : nat) (r : option nat)
| PoppedAll (t : nat) (r : option nat).

Definition set_pc (s : state) (t : nat) (p : pc) : state :=
  mk_state (list_head s) (next s) ((pcs s).[t ↦ p]) (content s) (pushing s) (consumer s).

(** The awaiter_list_push steps. *)
Definition exec_push (t : nat) (spurious : bool) (s : state) : option (state * list event) :=
  match pcs s t with
  | PushLoad n => Some (set_pc s t (PushStore n (list_head s)), [])
  | PushStore n current =>
      let s' := mk_state (list_head s) ((next s).[n ↦ current]) (pcs s)
                  (content s) (pushing s) (consumer s) in
      Some (set_pc s' t (PushCas n current), [])
  | PushCas n current =>
      if negb spurious && bool_decide (list_head s = current) then
        Some (set_pc (mk_state (Some n) (next s) (pcs s) (n :: content s)
                (filter (fun x => x <> n) (pushing s)) (consumer s)) t Idle, [Pushed t n])
      else Some (set_pc s t (PushStore n (list_head s)), [])
  | _ => None
  end.

(** The awaiter_list_pop steps: [waiter->m_next] is read before the exchange. *)
Definition pop_test (t : nat) (waiter : option nat) (s : state) : state * list event :=
  match waiter with
  | None => (set_pc (mk_state (list_head s) (next s) (pcs s) (content s) (pushing s) None)
               t Idle, [Popped t None])
  | Some w => (set_pc s t (PopRead w), [])
  end.

Definition exec_pop (t : nat) (spurious : bool) (s : state) : option (state * list event) :=
  match pcs s t with
  | PopLoad => Some (pop_test t (list_head s) s)
  | PopRead w => Some (set_pc s t (PopCas w (next s w)), [])
  | PopCas w nxt =>
      if negb spurious && bool_decide (list_head s = Some w) then
        Some (set_pc (mk_state nxt (next s) (pcs s) (tail (content s)) (pushing s) None) t Idle,
              [Popped t (Some w)])
      else Some (pop_test t (list_head s) s)
  | _ => None
  end.

(** The awaiter_list_pop_all steps. *)
Definition pop_all_test (t : nat) (head : option nat) (s : state) : state * list event :=
  match head with
  | None => (set_pc (mk_state (list_head s) (next s) (pcs s) (content s) (pushing s) None)
               t Idle, [PoppedAll t None])
  | Some h => (set_pc s t (PopAllCas h), [])
  end.

Definition exec_pop_all (t : nat) (spurious : bool) (s : state) : option (state * list event) :=
  match pcs s t with
  | PopAllLoad => Some (pop_all_test t (list_head s) s)
  | PopAllCas h =>
      if negb spurious && bool_decide (list_head s = Some h) then
        Some (set_pc (mk_state None (next s) (pcs s) [] (pushing s) None) t Idle,
              [PoppedAll t (Some h)])
      else Some (pop_all_test t (list_head s) s)
  | _ => None
  end.

(** Entering an operation.  A node is pushed only when the list does not hold it
    (it is the awaiter of a coroutine about to suspend).  [excl] is the usage
    discipline of the mutex, the semaphore and the scheduler: at most one thread
    at a time removes nodes. *)
Definition exec_call (excl : bool) (t : nat) (c : call) (s : state) : option (state * list event) :=
  match pcs s t, c with
  | Idle, Push n =>
      if bool_decide (n ∈ content s) || bool_decide (n ∈ pushing s) then None
      else Some (set_pc (mk_state (list_head s) (next s) (pcs s) (content s)
                   (n :: pushing s) (consumer s)) t (PushLoad n), [])
  | Idle, Pop =>
      if excl && bool_decide (consumer s <> None) then None
      else Some (set_pc (mk_state (list_head s) (next s) (pcs s) (content s)
                   (pushing s) (Some t)) t PopLoad, [])
  | Idle, PopAll =>
      if excl && bool_decide (consumer s <> None) then None
      else Some (set_pc (mk_state (list_head s) (next s) (pcs s) (content s)
                   (pushing s) (Some t)) t PopAllLoad, [])
  | _, _ => None
  end.

Definition exec (excl : bool) (l : label) (s : state) : option (state * list event) :=
  match l with
  | Call t c => exec_call excl t c s
  | Step t spurious =>
      match pcs s t with
      | Idle => None
      | PushLoad _ | PushStore _ _ | PushCas _ _ => exec_push t spurious s
      | PopLoad | PopRead _ | PopCas _ _ => exec_pop t spurious s
      | PopAllLoad | PopAllCas _ => exec_pop_all t spurious s
      end
  end.

(** ** Specification: a sequential stack *)

Definition stack_step (e : event) (l : list nat) : option (list nat) :=
  match e with
  | Pushed _ n => Some (n :: l)
  | Popped _ r => if bool_decide (r = head l) then Some (tail l) else None
  | PoppedAll _ r => if bool_decide (r = head l) then Some [] else None
  end.

Fixpoint stack_replay (tr : list event) (l : list nat) : option (list nat) :=
  match tr with
  | [] => Some l
  | e :: tr' => match stack_step e l with Some l' => stack_replay tr' l' | None => None end
  end.

Lemma stack_replay_app tr1 tr2 l :
  stack_replay (tr1 ++ tr2) l =
  match stack_replay tr1 l with Some l' => stack_replay tr2 l' | None => None end.
Proof.
  revert l. induction tr1 as [|e tr1 IH]; intros l; simpl; [done|].
  by destruct (stack_step e l).
Qed.

(** ** The invariant *)

Definition pushes (p : pc) (n : nat) : Prop :=
  match p with PushLoad m | PushStore m _ | PushCas m _ => m = n | _ => False end.

Definition consumes (p : pc) : Prop :=
  match p with PopLoad | PopRead _ | PopCas _ _ | PopAllLoad | PopAllCas _ => True | _ => False end.

Definition pc_ok (s : state) (t : nat) : Prop :=
  match pcs s t with
  | PushCas n current => next s n = current
  | PopRead w => w ∈ content s
  | PopCas w nxt => w ∈ content s /\ next s w = nxt
  | _ => True
  end.

Record inv (s : state) : Prop := {
  inv_chain : chain (next s) (list_head s) (content s);
  inv_push : forall t n, pushes (pcs s t) n -> n ∈ pushing s /\ n ∉ content s;
  inv_push_uniq : forall t1 t2 n, pushes (pcs s t1) n -> pushes (pcs s t2) n -> t1 = t2;
  inv_consumer : forall t, consumes (pcs s t) -> consumer s = Some t;
  inv_pc : forall t, pc_ok s t
}.

Lemma al_inv_init : inv init.
Proof. by constructor; intros; simpl in *. Qed.

(** Changing only the control state of [t] keeps the invariant when the new
    control state makes no new claim. *)
Lemma al_inv_set_pc s t p :
  inv s ->
  (forall n, pushes p n -> pushes (pcs s t) n) ->
  (consumes p -> consumes (pcs s t)) ->
  pc_ok (set_pc s t p) t ->
  inv (set_pc s t p).
Proof.
  intros [Hc Hp Hu Hco Hpc] Hp1 Hc1 Hok. constructor; simpl; [done| | | |].
  - intros t' n. upd_cases; eauto.
  - intros t1 t2 n. upd_cases; eauto.
  - intros t'. upd_cases; eauto.
  - intros t'. destruct (decide (t' = t)) as [->|Hne]; [done|].
    specialize (Hpc t'). unfold pc_ok in *. simpl. by rewrite upd_ne.
Qed.

(** Leaving a consuming operation with the list and the nodes unchanged. *)
Lemma inv_leave s t :
  inv s -> consumes (pcs s t) ->
  inv (set_pc (mk_state (list_head s) (next s) (pcs s) (content s) (pushing s) None) t Idle).
Proof.
  intros [Hc Hp Hu Hco Hpc] Hct. constructor; simpl; [done| | | |].
  - intros t' n. upd_cases; [done|eauto].
  - intros t1 t2 n. upd_cases; [done..|eauto].
  - intros t'. upd_cases; [done|]. intros H'. apply Hco in H', Hct. congruence.
  - intros t'. specialize (Hpc t'). unfold pc_ok in *. simpl. upd_cases; done.
Qed.

(** A consumer that empties or shortens the list is the only consumer. *)
Lemma inv_remove s t p l :
  inv s -> consumes (pcs s t) -> chain (next s) p l -> l ⊆ content s ->
  inv (set_pc (mk_state p (next s) (pcs s) l (pushing s) None) t Idle).
Proof.
  intros [Hc Hp Hu Hco Hpc] Hct Hch Hsub. constructor; simpl; [done| | | |].
  - intros t' n. upd_cases; [done|]. intros H'. destruct (Hp _ _ H'). split; [done|set_solver].
  - intros t1 t2 n. upd_cases; [done..|eauto].
  - intros t'. upd_cases; [done|]. intros H'. apply Hco in H', Hct. congruence.
  - intros t'. specialize (Hpc t'). pose proof (Hco t') as Hco'. apply Hco in Hct.
    unfold pc_ok in *. simpl. upd_cases; [done|].
    destruct (pcs s t') eqn:Ht'; try done; specialize (Hco' I); congruence.
Qed.

Lemma inv_push_step s t sp s' ev :
  inv s -> exec_push t sp s = Some (s', ev) ->
  inv s' /\ stack_replay ev (content s) = Some (content s').
Proof.
  intros Hinv H. unfold exec_push in H. destruct (pcs s t) eqn:Ht; try done.
  - simplify_eq. split; [|done]. apply al_inv_set_pc; rewrite ?Ht; try done.
    unfold pc_ok. simpl. by rewrite upd_eq.
  - simplify_eq. split; [|done].
    destruct Hinv as [Hc Hp Hu Hco Hpc].
    assert (n ∉ content s) as Hn by (apply (Hp t n); by rewrite Ht).
    assert (forall t', pushes (pcs s t') n -> t' = t) as Hown.
    { intros t' H'. eapply Hu; [done|]. by rewrite Ht. }
    constructor; simpl.
    + by apply chain_upd.
    + intros t' m. upd_cases; [simpl; intros <-; apply (Hp t); by rewrite Ht|]. apply Hp.
    + intros t1 t2 m. upd_cases; simpl; intros; subst; try done;
        first [by eauto | symmetry; by eauto].
    + intros t'. upd_cases; [done|eauto].
    + intros t'. specialize (Hpc t'). unfold pc_ok in *. simpl.
      destruct (decide (t' = t)) as [->|Hne]; [rewrite upd_eq; by rewrite upd_eq|].
      rewrite upd_ne by done. destruct (pcs s t') eqn:Ht'; try done.
      * rewrite upd_ne; [done|]. intros ->. apply Hne, Hown. by rewrite Ht'.
      * destruct Hpc. split; [done|]. rewrite upd_ne; [done|]. by intros ->.
  - pose proof (inv_pc _ Hinv t) as Hok. unfold pc_ok in Hok. rewrite Ht in Hok.
    case_match eqn:Hg; simplify_eq/=; (split; [|done]).
    + apply andb_true_iff in Hg as [_ Hh%bool_decide_eq_true].
      destruct Hinv as [Hc Hp Hu Hco Hpc].
      assert (n ∉ content s) as Hn by (apply (Hp t n); by rewrite Ht).
      constructor; simpl.
      * split; [done|]. by rewrite <- Hh.
      * intros t' m. upd_cases; [done|]. intros H'.
        assert (m <> n) by (intros ->; eapply n0, Hu; [done|]; by rewrite Ht).
        destruct (Hp _ _ H'). split; [|set_solver].
        apply list_elem_of_filter. naive_solver.
      * intros t1 t2 m. upd_cases; [done..|eauto].
      * intros t'. upd_cases; [done|eauto].
      * intros t'. specialize (Hpc t'). unfold pc_ok in *. simpl. upd_cases; [done|].
        destruct (pcs s t'); set_solver.
    + apply al_inv_set_pc; rewrite ?Ht; try done.
      unfold pc_ok. simpl. by rewrite upd_eq.
Qed.
Lemma inv_pop_test t s :
  inv s -> consumes (pcs s t) ->
  inv (pop_test t (list_head s) s).1 /\
  stack_replay (pop_test t (list_head s) s).2 (content s) =
    Some (content (pop_test t (list_head s) s).1).
Proof.
  intros Hinv Hct. pose proof (inv_chain _ Hinv) as Hc.
  unfold pop_test. destruct (list_head s) as [w|] eqn:Hh; simpl.
  - apply chain_Some in Hc as (l & Hl & _). split; [|done].
    apply al_inv_set_pc; try done. unfold pc_ok. simpl. rewrite upd_eq, Hl. by left.
  - apply chain_None in Hc as Hl. rewrite Hl. split; [|done].
    pose proof (inv_leave s t Hinv Hct) as Hlv. by rewrite Hh, Hl in Hlv.
Qed.

Lemma inv_pop_step s t sp s' ev :
  inv s -> exec_pop t sp s = Some (s', ev) ->
  inv s' /\ stack_replay ev (content s) = Some (content s').
Proof.
  intros Hinv H. unfold exec_pop in H.
  pose proof (inv_pc _ Hinv t) as Hok. unfold pc_ok in Hok.
  pose proof (inv_pop_test t s Hinv) as Htest.
  destruct (pcs s t) eqn:Ht; try done.
  - destruct (pop_test t (list_head s) s). simplify_eq. by apply Htest.
  - simplify_eq. split; [|done]. apply al_inv_set_pc; rewrite ?Ht; try done.
    unfold pc_ok. simpl. by rewrite upd_eq.
  - case_match eqn:Hg; [|destruct (pop_test t (list_head s) s); simplify_eq; by apply Htest].
    apply andb_true_iff in Hg as [_ Hh%bool_decide_eq_true]. simplify_eq.
    pose proof (inv_chain _ Hinv) as Hc. rewrite Hh in Hc.
    apply chain_Some in Hc as (l & Hl & Hc). destruct Hok as [_ <-]. simpl. rewrite Hl. simpl.
    split; [|by rewrite bool_decide_true].
    apply inv_remove; [done| |done|rewrite Hl; intros ?; by right]. by rewrite Ht.
Qed.

Lemma inv_pop_all_step s t sp s' ev :
  inv s -> exec_pop_all t sp s = Some (s', ev) ->
  inv s' /\ stack_replay ev (content s) = Some (content s').
Proof.
  intros Hinv H. unfold exec_pop_all, pop_all_test in H.
  pose proof (inv_chain _ Hinv) as Hc.
  assert (consumes (pcs s t)) as Hct by (destruct (pcs s t); done).
  assert (list_head s = None -> content s = []) as Hnil.
  { intros Hn. rewrite Hn in Hc. by eapply chain_None. }
  assert (forall h, list_head s = Some h -> Some h = head (content s)) as Hhd.
  { intros h Hh. rewrite Hh in Hc. by apply chain_Some in Hc as (? & -> & _). }
  assert (forall h, inv (set_pc s t (PopAllCas h))) as Hgo.
  { intros h. apply al_inv_set_pc; try done. unfold pc_ok. simpl. by rewrite upd_eq. }
  pose proof (inv_leave s t Hinv Hct) as Hlv.
  destruct (pcs s t) eqn:Ht; try done.
  - destruct (list_head s) eqn:Hh; simplify_eq; simpl; (split; [|done || by rewrite Hnil]); done.
  - case_match eqn:Hg.
    + apply andb_true_iff in Hg as [_ Hh%bool_decide_eq_true]. simplify_eq. simpl.
      rewrite bool_decide_true by eauto. split; [|done].
      apply inv_remove; [done|by rewrite Ht|done|set_solver].
    + destruct (list_head s) eqn:Hh; simplify_eq; simpl; (split; [|done || by rewrite Hnil]); done.
Qed.
Lemma inv_consume_call s t p :
  inv s -> pcs s t = Idle -> consumer s = None -> (p = PopLoad \/ p = PopAllLoad) ->
  inv (set_pc (mk_state (list_head s) (next s) (pcs s) (content s) (pushing s) (Some t)) t p).
Proof.
  intros [Hc Hp Hu Hco Hpc] Ht Hno Hor. constructor; simpl; [done| | | |].
  - intros t' n. upd_cases; [by destruct Hor; subst|apply Hp].
  - intros t1 t2 n. upd_cases; try (by destruct Hor; subst). apply Hu.
  - intros t'. upd_cases; [done|]. intros H'. apply Hco in H'. congruence.
  - intros t'. specialize (Hpc t'). unfold pc_ok in *. simpl.
    upd_cases; [by destruct Hor; subst|done].
Qed.

Lemma inv_call_step s t c s' ev :
  inv s -> exec_call true t c s = Some (s', ev) ->
  inv s' /\ stack_replay ev (content s) = Some (content s').
Proof.
  intros Hinv H. unfold exec_call in H. destruct (pcs s t) eqn:Ht; try done.
  destruct c as [n| |].
  - destruct Hinv as [Hc Hp Hu Hco Hpc]. case_match eqn:Hg; [done|]. simplify_eq.
    apply orb_false_iff in Hg as [Hn1%bool_decide_eq_false Hn2%bool_decide_eq_false].
    assert (forall t', pushes (pcs s t') n -> False) as Hfresh.
    { intros t' H'. by destruct (Hp _ _ H'). }
    split; [|done]. constructor; simpl; [done| | | |].
    + intros t' m. upd_cases; simpl; [intros <-; split; [by left|done]|].
      intros H'. destruct (Hp _ _ H'). split; [by right|done].
    + intros t1 t2 m. upd_cases; simpl; intros; subst; try done; try (by exfalso; eauto).
      eauto.
    + intros t'. upd_cases; [done|apply Hco].
    + intros t'. specialize (Hpc t'). unfold pc_ok in *. simpl. upd_cases; done.
  - simpl in H. case_bool_decide; [done|]. simplify_eq. split; [|done].
    apply inv_consume_call; [done|done|done|by left].
  - simpl in H. case_bool_decide; [done|]. simplify_eq. split; [|done].
    apply inv_consume_call; [done|done|done|by right].
Qed.

Lemma al_inv_step s l s' ev :
  inv s -> exec true l s = Some (s', ev) ->
  inv s' /\ stack_replay ev (content s) = Some (content s').
Proof.
  intros Hinv H. destruct l as [t c|t sp]; simpl in H; [by eapply inv_call_step|].
  destruct (pcs s t) eqn:Ht; try done;
    first [by eapply inv_push_step | by eapply inv_pop_step | by eapply inv_pop_all_step].
Qed.

(** [C6] Linearizability under a single consumer: in every schedule, the results
    of push, pop and pop_all in the order of their deciding accesses are those of
    a sequential stack, and the memory always holds exactly that stack. *)
Theorem awaiter_list_linearizable s tr :
  reach (exec true) init s tr ->
  stack_replay tr [] = Some (content s) /\ chain (next s) (list_head s) (content s).
Proof.
  intros Hr. cut (inv s /\ stack_replay tr [] = Some (content s)).
  { intros [[] ?]. auto. }
  revert s tr Hr.
  apply (reach_inv (exec true) (fun s tr => inv s /\ stack_replay tr [] = Some (content s))).
  - split; [apply al_inv_init|done].
  - intros s tr l s' ev [Hinv Hrep] He.
    destruct (al_inv_step _ _ _ _ Hinv He) as [Hinv' Hrep']. split; [done|].
    by rewrite stack_replay_app, Hrep.
Qed.

(** Two nodes pushed by one thread while another pops. *)
Definition push_push_pop : list label :=
  [Call 0 (Push 7); Step 0 false; Step 0 false; Step 0 false;
   Call 0 (Push 8); Call 1 Pop; Step 1 false; Step 0 false; Step 0 false; Step 0 false;
   Step 1 false; Step 1 false; Step 1 false; Step 1 false].

Lemma awaiter_list_linearizable_witness :
  exists s tr, run (exec true) push_push_pop init = Some (s, tr) /\
    tr = [Pushed 0 7; Pushed 0 8; Popped 1 (Some 8)] /\
    stack_replay tr [] = Some (content s) /\ chain (next s) (list_head s) (content s).
Proof.
  destruct (run (exec true) push_push_pop init) as [[s tr]|] eqn:Hrun.
  - exists s, tr. split; [done|]. split; [by vm_compute in Hrun; simplify_eq|].
    apply (awaiter_list_linearizable s tr). exact (run_reach _ _ _ _ _ Hrun).
  - vm_compute in Hrun. discriminate.
Defined.

(** The schedule in which two threads pop: thread 1 reads [m_next] of node 8,
    thread 2 pops 8 and 7 and pushes 8 again, then the exchange of thread 1
    succeeds although the successor it read has left the list. *)
Definition aba_schedule : list label :=
  [Call 0 (Push 7); Step 0 false; Step 0 false; Step 0 false;
   Call 0 (Push 8); Step 0 false; Step 0 false; Step 0 false;
   Call 1 Pop; Step 1 false; Step 1 false;
   Call 2 Pop; Step 2 false; Step 2 false; Step 2 false;
   Call 2 Pop; Step 2 false; Step 2 false; Step 2 false;
   Call 2 (Push 8); Step 2 false; Step 2 false; Step 2 false;
   Step 1 false; Call 1 Pop; Step 1 false; Step 1 false; Step 1 false].

(** Without the single-consumer discipline awaiter_list_pop has an ABA race:
    node 7 is popped twice although it was pushed once, so the history is not
    one of a stack. *)
Theorem awaiter_list_pop_aba :
  exists s tr, run (exec false) aba_schedule init = Some (s, tr) /\
    tr = [Pushed 0 7; Pushed 0 8; Popped 2 (Some 8); Popped 2 (Some 7);
          Pushed 2 8; Popped 1 (Some 8); Popped 1 (Some 7)] /\
    stack_replay tr [] = None.
Proof. eexists _, _. split; [vm_compute; reflexivity|]. done. Qed.
End AwaiterList.
