(* ===== verification/Event.v ===== *)
(** * coro::event (include/coro/event.hpp, src/event.cpp)

    A manual-reset event.  [m_state] is [this] (set), [nullptr], or the head of
    the list of awaiters.  Coroutines are numbered below [agents]; a suspended
    coroutine's awaiter object lives in its frame, so its address is the number.
    One step is one access to [m_state] with the thread-local work that follows
    it; a resume is a step of its own, so everything the resumed coroutine does
    (also awaiting the same event again) interleaves with the rest of [set()]. *)
From stdpp Require Import base list relations option numbers.
From S2P Require Import Prelude AwaiterList.

Module Event.

Inductive resume_order_policy := lifo | fifo.

(** The [void*] in [m_state]: [this], or an [awaiter*] that may be null. *)
Inductive ev_state := StSet | StList (head : option nat).

#[export] Instance ev_state_eq_dec : EqDecision ev_state.
Proof. solve_decision. Defined.

(** Control states: inside awaiter::await_ready / await_suspend, suspended, and
    inside set(). *)
Inductive pc :=
| Idle
| AwaitReady
| AwaitLoad
| AwaitCas (old_value : option nat)
| Suspended
| SetXchg (policy : resume_order_policy)
| SetWalk (waiters : option nat)
| SetResume (waiter : nat) (nxt : option nat).

#[export] Instance resume_order_policy_eq_dec : EqDecision resume_order_policy.
Proof. solve_decision. Defined.

#[export] Instance pc_eq_dec : EqDecision pc.
Proof. solve_decision. Defined.

Record state := mk_state {
  m_state : ev_state;
  next : nat -> option nat;   (* awaiter::m_next *)
  pcs : nat -> pc
}.

(** event::event(bool initially_set) *)
Definition make (initially_set : bool) : state :=
  mk_state (if initially_set then StSet else StList None) (fun _ => None) (fun _ => Idle).

Definition is_set (s : state) : bool := bool_decide (m_state s = StSet).

Inductive call := Await | Set_ (policy : resume_order_policy) | Reset.
Inductive label := Call (t : nat) (c : call) | Step (t : nat) (spurious : bool).

Inductive event :=
| EvContinue (t : nat)             (* co_await returned without suspending *)
| EvSuspend (t : nat)
| EvResume (t w : nat)             (* set() on t resumed the suspended w *)
| EvBadResume (t w : nat).         (* resume() of a coroutine that is not suspended *)

Definition set_pc (s : state) (t : nat) (p : pc) : state :=
  mk_state (m_state s) (next s) ((pcs s).[t ↦ p]).

(** The body of the do-loop of await_suspend up to the exchange, for the value
    just read. *)
Definition await_test (t : nat) (old : ev_state) (s : state) : state * list event :=
  match old with
  | StSet => (set_pc s t Idle, [EvContinue t])
  | StList p =>
      (set_pc (mk_state (m_state s) ((next s).[t ↦ p]) (pcs s)) t (AwaitCas p), [])
  end.

(** awaiter::await_ready and awaiter::await_suspend *)
Definition exec_await (t : nat) (spurious : bool) (s : state) : option (state * list event) :=
  match pcs s t with
  | AwaitReady =>
      if is_set s then Some (set_pc s t Idle, [EvContinue t])
      else Some (set_pc s t AwaitLoad, [])
  | AwaitLoad => Some (await_test t (m_state s) s)
  | AwaitCas p =>
      if negb spurious && bool_decide (m_state s = StList p) then
        Some (set_pc (mk_state (StList (Some t)) (next s) (pcs s)) t Suspended, [EvSuspend t])
      else Some (await_test t (m_state s) s)
  | _ => None
  end.

(** event::reverse *)
Definition reverse (agents : nat) (next : nat -> option nat) (curr : option nat) :=
  AwaiterList.awaiter_list_reverse agents next curr.

(** event::set: the exchange, the optional reversal, then the walk; the next
    pointer is read before the waiter is resumed. *)
Definition exec_set (agents t : nat) (s : state) : option (state * list event) :=
  match pcs s t with
  | SetXchg policy =>
      match m_state s with
      | StSet => Some (set_pc s t Idle, [])
      | StList p =>
          match policy with
          | lifo => Some (set_pc (mk_state StSet (next s) (pcs s)) t (SetWalk p), [])
          | fifo =>
              match reverse agents (next s) p with
              | Some (next', p') => Some (set_pc (mk_state StSet next' (pcs s)) t (SetWalk p'), [])
              | None => None
              end
          end
      end
  | SetWalk None => Some (set_pc s t Idle, [])
  | SetWalk (Some w) => Some (set_pc s t (SetResume w (next s w)), [])
  | SetResume w nxt =>
      let s' := set_pc s t (SetWalk nxt) in
      if bool_decide (pcs s w = Suspended) then Some (set_pc s' w Idle, [EvResume t w])
      else Some (s', [EvBadResume t w])
  | _ => None
  end.

(** event::reset: a strong compare-exchange from [this] to [nullptr]. *)
Definition reset (s : state) : state :=
  if is_set s then mk_state (StList None) (next s) (pcs s) else s.

Definition exec (agents : nat) (l : label) (s : state) : option (state * list event) :=
  match l with
  | Call t c =>
      if bool_decide (t < agents) then
        match pcs s t, c with
        | Idle, Await => Some (set_pc s t AwaitReady, [])
        | Idle, Set_ policy => Some (set_pc s t (SetXchg policy), [])
        | Idle, Reset => Some (reset s, [])
        | _, _ => None
        end
      else None
  | Step t spurious =>
      match pcs s t with
      | AwaitReady | AwaitLoad | AwaitCas _ => exec_await t spurious s
      | SetXchg _ | SetWalk _ | SetResume _ _ => exec_set agents t s
      | Idle | Suspended => None
      end
  end.

(** ** Invariant: who holds which awaiters *)

(** [L None] is the list behind [m_state], [L (Some t)] the awaiters that a
    [set()] running on [t] has taken and not resumed yet. *)
Definition holds (s : state) (L : option nat -> list nat) : Prop :=
  match m_state s with StSet => L None = [] | StList p => chain (next s) p (L None) end /\
  forall t, match pcs s t with
            | SetWalk p => chain (next s) p (L (Some t))
            | SetResume w nxt => exists l, L (Some t) = w :: l /\ chain (next s) nxt l
            | _ => L (Some t) = []
            end.

Record inv (agents : nat) (s : state) (L : option nat -> list nat) : Prop := {
  inv_holds : holds s L;
  inv_disj : forall i j x, x ∈ L i -> x ∈ L j -> i = j;
  inv_nodup : forall i, NoDup (L i);
  inv_susp : forall x, pcs s x = Suspended <-> exists i, x ∈ L i;
  inv_agents : forall x, pcs s x <> Idle -> x < agents;
  inv_cas : forall t p, pcs s t = AwaitCas p -> next s t = p
}.

Lemma ev_inv_init agents b : inv agents (make b) (fun _ => []).
Proof.
  constructor.
  - split; [by destruct b|done].
  - intros. no_nil.
  - constructor.
  - intros x. split; [done|]. intros [i Hi]. no_nil.
  - by intros x [].
  - done.
Qed.

Lemma inv_bound agents s L i : inv agents s L -> length (L i) <= agents.
Proof.
  intros Hinv. rewrite <- (length_seq agents 0).
  apply submseteq_length, NoDup_submseteq; [apply (inv_nodup _ _ _ Hinv)|].
  intros x Hx. apply list_elem_of_In, in_seq. split; [lia|].
  apply (inv_agents _ _ _ Hinv). rewrite (proj2 (inv_susp _ _ _ Hinv x)); [done|eauto].
Qed.

Definition plain (p : pc) : Prop :=
  match p with SetWalk _ | SetResume _ _ | Suspended => False | _ => True end.

Lemma holds_plain s L t : holds s L -> plain (pcs s t) -> L (Some t) = [].
Proof. intros [_ H] Hp. specialize (H t). by destruct (pcs s t). Qed.

Lemma not_listed agents s L t i : inv agents s L -> pcs s t <> Suspended -> t ∉ L i.
Proof. intros Hinv Ht Hin. apply Ht, (inv_susp _ _ _ Hinv). eauto. Qed.

(** Steps of [t] that neither take nor give awaiters; they may write the
    [m_next] of [t]'s own awaiter, which is in no list. *)
Lemma inv_plain_step agents s L t p nx ms :
  inv agents s L -> t < agents -> plain (pcs s t) -> plain p ->
  (ms = m_state s \/ (L None = [] /\ (ms = StSet \/ ms = StList None))) ->
  (forall x, x <> t -> nx x = next s x) ->
  (forall q, p = AwaitCas q -> nx t = q) ->
  inv agents (mk_state ms nx ((pcs s).[t ↦ p])) L.
Proof.
  intros Hinv Hta Hold Hnew Hms Hnx Hcas.
  assert (pcs s t <> Suspended) as Hns by (intros Heq; by rewrite Heq in Hold).
  assert (forall i, t ∉ L i) as Hnl by (intros i; by eapply not_listed).
  assert (forall i x, x ∈ L i -> nx x = next s x) as Hin.
  { intros i x Hx. apply Hnx. intros ->. by eapply Hnl. }
  pose proof (holds_plain _ _ _ (inv_holds _ _ _ Hinv) Hold) as Hnil.
  destruct Hinv as [[Hst Hth] Hd Hnd Hs Ha Hc]. constructor; simpl; try done.
  - split; simpl.
    + destruct Hms as [->|[Hn [-> | ->]]]; [|done|by rewrite Hn].
      destruct (m_state s); [done|]. eapply chain_ext; [apply Hin|done].
    + intros t'. specialize (Hth t'). upd_cases; [by destruct p|].
      destruct (pcs s t'); try done; [eapply chain_ext; [apply Hin|done]|].
      destruct Hth as (l & Hl & Hch). exists l. split; [done|].
      eapply chain_ext; [|done]. intros x Hx. apply (Hin (Some t')). rewrite Hl. by right.
  - intros x. upd_cases; [|apply Hs]. split; [by intros ->|].
    intros [i Hi]. by destruct (Hnl i).
  - intros x. upd_cases; [done|apply Ha].
  - intros t' q. upd_cases; [apply Hcas|]. rewrite Hnx by done. apply Hc.
Qed.

Lemma inv_await_test agents s L t :
  inv agents s L -> t < agents -> plain (pcs s t) ->
  inv agents (await_test t (m_state s) s).1 L.
Proof.
  intros Hinv Ht Hp. unfold await_test. destruct (m_state s) as [|p] eqn:Hm; simpl.
  - apply inv_plain_step; auto; done.
  - unfold set_pc. simpl. apply inv_plain_step; auto; [done|..].
    + intros x Hx. by rewrite upd_ne.
    + intros q [= ->]. by rewrite upd_eq.
Qed.

(** Linking [t] at the head of the list behind [m_state]. *)
Lemma inv_suspend agents s L t p :
  inv agents s L -> t < agents -> pcs s t = AwaitCas p -> m_state s = StList p ->
  inv agents (set_pc (mk_state (StList (Some t)) (next s) (pcs s)) t Suspended)
    (fun i => match i with None => t :: L None | Some t' => L (Some t') end).
Proof.
  intros Hinv Hta Ht Hm.
  assert (forall i, t ∉ L i) as Hnl by (intros i; eapply not_listed; [done|by rewrite Ht]).
  pose proof (holds_plain _ _ t (inv_holds _ _ _ Hinv) ltac:(by rewrite Ht)) as Hnil.
  destruct Hinv as [[Hst Hth] Hd Hnd Hs Ha Hc]. rewrite Hm in Hst. constructor; simpl.
  - split; simpl; [by rewrite (Hc _ _ Ht)|].
    intros t'. specialize (Hth t'). by upd_cases.
  - intros [i|] [j|] x; rewrite ?elem_of_cons; intros; destruct_or?; subst; try done;
      try (by exfalso; eapply Hnl); eauto.
  - intros [i|]; [apply Hnd|]. by apply list.NoDup_cons.
  - intros x. upd_cases; [split; [intros _; exists None; by left|done]|].
    rewrite Hs. split; intros [[i|] Hi]; [by exists (Some i)|exists None; by right|eauto|].
    + apply elem_of_cons in Hi as [?|Hi]; [done|eauto].
  - intros x. upd_cases; [done|apply Ha].
  - intros t' q. upd_cases; [done|apply Hc].
Qed.

(** The exchange of set() moves the whole list from [m_state] to [t]; the
    reversal rewrites only the nodes it moved. *)
Lemma inv_take agents s L t policy p nx p' l :
  inv agents s L -> t < agents -> pcs s t = SetXchg policy -> m_state s = StList p ->
  chain nx p' l -> (forall x, x ∉ L None -> nx x = next s x) -> (forall x, x ∈ l <-> x ∈ L None) ->
  inv agents (set_pc (mk_state StSet nx (pcs s)) t (SetWalk p'))
    (fun i => match i with
              | None => []
              | Some t' => if decide (t' = t) then l else L (Some t')
              end).
Proof.
  intros Hinv Hta Ht Hm Hch Hnx Hl.
  assert (forall i, t ∉ L i) as Hnl by (intros i; eapply not_listed; [done|by rewrite Ht]).
  pose proof (holds_plain _ _ t (inv_holds _ _ _ Hinv) ltac:(by rewrite Ht)) as Hnil.
  destruct Hinv as [[Hst Hth] Hd Hnd Hs Ha Hc]. rewrite Hm in Hst.
  assert (forall t' x, x ∈ L (Some t') -> nx x = next s x) as Hin.
  { intros t' x Hx. apply Hnx. intros Hx'. by specialize (Hd _ _ _ Hx Hx'). }
  constructor; simpl.
  - split; simpl; [done|]. intros t'. specialize (Hth t').
    destruct (decide (t' = t)) as [->|Hne]; [by rewrite upd_eq|]. rewrite upd_ne by done.
    destruct (pcs s t'); try done; [eapply chain_ext; [apply Hin|done]|].
    destruct Hth as (l' & Hl' & Hch'). exists l'. split; [done|].
    eapply chain_ext; [|done]. intros x Hx. apply (Hin t'). rewrite Hl'. by right.
  - intros [i|] [j|] x; try (by no_nil); try done. repeat case_decide; subst; try done.
    + intros Hx Hy. apply Hl in Hx. by specialize (Hd _ _ _ Hx Hy).
    + intros Hx Hy. apply Hl in Hy. by specialize (Hd _ _ _ Hx Hy).
    + apply Hd.
  - intros [i|]; [|constructor]. case_decide; [by eapply chain_NoDup|apply Hnd].
  - intros x. upd_cases.
    + split; [done|]. intros [[i|] Hi]; [|no_nil]. case_decide; [|by destruct (Hnl (Some i))].
      apply Hl in Hi. by destruct (Hnl None).
    + rewrite Hs. split; intros [[i|] Hi]; [| | |no_nil].
      * exists (Some i). case_decide; [subst|done]. rewrite Hnil in Hi. no_nil.
      * exists (Some t). rewrite decide_True by done. by apply Hl.
      * case_decide; [exists None; by apply Hl|eauto].
  - intros x. upd_cases; [done|apply Ha].
  - intros t' q. upd_cases; [done|]. intros Hq. rewrite Hnx; [by apply Hc|].
    intros Hin'. assert (pcs s t' = Suspended) by (apply Hs; eauto). congruence.
Qed.

(** Resuming the waiter at the head of the list that [t] walks. *)
Lemma inv_resume agents s L t w nxt l :
  inv agents s L -> t < agents -> pcs s t = SetResume w nxt -> L (Some t) = w :: l ->
  chain (next s) nxt l -> pcs s w = Suspended ->
  inv agents (set_pc (set_pc s t (SetWalk nxt)) w Idle)
    (fun i => match i with
              | None => L None
              | Some t' => if decide (t' = t) then l else L (Some t')
              end).
Proof.
  intros Hinv Hta Ht HLt Hch Hw.
  assert (w <> t) as Hwt by congruence.
  pose proof (inv_nodup _ _ _ Hinv (Some t)) as Hndt. rewrite HLt in Hndt.
  apply list.NoDup_cons in Hndt as [Hwl Hndl].
  destruct Hinv as [[Hst Hth] Hd Hnd Hs Ha Hc].
  assert (forall i, w ∈ L i -> i = Some t) as Howner.
  { intros i Hi. eapply Hd; [done|]. rewrite HLt. by left. }
  constructor; simpl.
  - split; simpl; [done|]. intros t'. specialize (Hth t').
    destruct (decide (t' = w)) as [->|Hne]; [rewrite upd_eq, decide_False by done; by rewrite Hw in Hth|].
    rewrite upd_ne by done. destruct (decide (t' = t)) as [->|Hne']; [by rewrite upd_eq|].
    by rewrite upd_ne.
  - assert (forall x, x ∈ l -> x ∈ L (Some t)) as Hsub by (intros; rewrite HLt; by right).
    intros [i|] [j|] x; repeat case_decide; subst; try done; intros; try (by eapply Hd; eauto).
  - intros [i|]; [case_decide|]; auto.
  - intros x. destruct (decide (x = w)) as [->|Hne].
    + rewrite upd_eq. split; [done|]. intros [[i|] Hi].
      * case_decide; [done|]. apply Howner in Hi. congruence.
      * by apply Howner in Hi.
    + rewrite upd_ne by done. destruct (decide (x = t)) as [->|Hne'].
      * rewrite upd_eq. split; [done|]. intros [[i|] Hi].
        -- case_decide; subst; [|assert (pcs s t = Suspended) by (apply Hs; eauto); congruence].
           assert (pcs s t = Suspended); [apply Hs; exists (Some t); rewrite HLt; by right|congruence].
        -- assert (pcs s t = Suspended) by (apply Hs; eauto). congruence.
      * rewrite upd_ne by done. rewrite Hs. split; intros [[i|] Hi].
        -- exists (Some i). case_decide; [subst|done]. rewrite HLt in Hi. by apply elem_of_cons in Hi as [?|?].
        -- by exists None.
        -- case_decide; [subst; exists (Some t); rewrite HLt; by right|eauto].
        -- by exists None.
  - intros x. upd_cases; [done..|apply Ha].
  - intros t' q. upd_cases; [done..|apply Hc].
Qed.
(** ** Every schedule *)

Definition suspended (s : state) (w : nat) : nat :=
  if bool_decide (pcs s w = Suspended) then 1 else 0.

#[export] Instance event_eq_dec : EqDecision event.
Proof. solve_decision. Defined.

Definition n_suspend (w : nat) (tr : list event) : nat :=
  length (filter (fun e => e = EvSuspend w) tr).

Definition is_resume_of (w : nat) (e : event) : Prop :=
  match e with EvResume _ w' => w' = w | _ => False end.

#[export] Instance is_resume_of_dec w e : Decision (is_resume_of w e).
Proof. destruct e; simpl; apply _. Defined.

Definition n_resume (w : nat) (tr : list event) : nat :=
  length (filter (is_resume_of w) tr).

Definition is_bad (e : event) : Prop := match e with EvBadResume _ _ => True | _ => False end.

Lemma n_suspend_app w tr1 tr2 : n_suspend w (tr1 ++ tr2) = n_suspend w tr1 + n_suspend w tr2.
Proof. unfold n_suspend. by rewrite list.filter_app, length_app. Qed.

Lemma n_resume_app w tr1 tr2 : n_resume w (tr1 ++ tr2) = n_resume w tr1 + n_resume w tr2.
Proof. unfold n_resume. by rewrite list.filter_app, length_app. Qed.
Lemma n_resume_one x t w : n_resume x [EvResume t w] = if decide (x = w) then 1 else 0.
Proof.
  unfold n_resume. case_decide; subst; [by rewrite filter_cons_True|].
  by rewrite filter_cons_False by (simpl; congruence).
Qed.

(** What one step does to the set of suspended coroutines, and that it resumes
    suspended coroutines only. *)
Definition balanced (s : state) (ev : list event) (s' : state) : Prop :=
  Forall (fun e => ~ is_bad e) ev /\
  forall w, suspended s w + n_suspend w ev = n_resume w ev + suspended s' w.

Lemma balanced_other s s' t ev :
  pcs s t <> Suspended -> pcs s' t <> Suspended -> (forall x, x <> t -> pcs s' x = pcs s x) ->
  ev = [] \/ ev = [EvContinue t] -> balanced s ev s'.
Proof.
  intros H1 H2 Hx Hev. split; [destruct Hev as [-> | ->]; repeat constructor; by intros []|].
  intros w. unfold suspended.
  assert (n_suspend w ev = 0 /\ n_resume w ev = 0) as [-> ->] by (by destruct Hev; subst).
  destruct (decide (w = t)) as [->|Hne]; [|by rewrite Hx].
  by rewrite !bool_decide_false.
Qed.

Lemma pcs_set_pc_ne s t p x : x <> t -> pcs (set_pc s t p) x = pcs s x.
Proof. intros. simpl. by rewrite upd_ne. Qed.

Lemma await_test_pcs s t :
  pcs (await_test t (m_state s) s).1 t <> Suspended /\
  (forall x, x <> t -> pcs (await_test t (m_state s) s).1 x = pcs s x) /\
  ((await_test t (m_state s) s).2 = [] \/ (await_test t (m_state s) s).2 = [EvContinue t]).
Proof.
  unfold await_test. destruct (m_state s); simpl; rewrite upd_eq; repeat split; auto;
    intros; by rewrite upd_ne.
Qed.

Lemma await_step agents s L t sp s' ev :
  inv agents s L -> exec_await t sp s = Some (s', ev) ->
  (exists L', inv agents s' L') /\ balanced s ev s'.
Proof.
  intros Hinv H. unfold exec_await in H.
  assert (pcs s t <> Idle -> t < agents) as Ha by apply (inv_agents _ _ _ Hinv).
  pose proof (inv_await_test agents s L t Hinv) as Htest.
  pose proof (await_test_pcs s t) as (Hp1 & Hp2 & Hp3).
  destruct (pcs s t) eqn:Ht; try done.
  - destruct (is_set s); simplify_eq; (split;
      [exists L; apply inv_plain_step; try done; [by apply Ha|by rewrite Ht|by left]
      |apply (balanced_other _ _ t); simpl; rewrite ?Ht, ?upd_eq; try done; try (by auto);
       intros; by rewrite upd_ne]).
  - destruct (await_test t (m_state s) s) as [s1 e1]. simplify_eq. simpl in *.
    split; [exists L; apply Htest; [by apply Ha|done]|].
    apply (balanced_other _ _ t); try done. by rewrite Ht.
  - case_match eqn:Hg.
    + apply andb_true_iff in Hg as [_ Hm%bool_decide_eq_true]. simplify_eq. split.
      * eexists. eapply inv_suspend; try done. by apply Ha.
      * split; [repeat constructor; by intros []|]. intros w. unfold suspended. simpl.
        destruct (decide (w = t)) as [->|Hne].
        -- rewrite upd_eq, Ht, (bool_decide_true (Suspended = _)) by done.
           rewrite bool_decide_false by done. unfold n_suspend. simpl.
           rewrite filter_cons_True by done. done.
        -- rewrite upd_ne by done. unfold n_suspend, n_resume. simpl.
           rewrite filter_cons_False by congruence. simpl. lia.
    + destruct (await_test t (m_state s) s) as [s1 e1]. simplify_eq. simpl in *.
      split; [exists L; apply Htest; [by apply Ha|done]|].
      apply (balanced_other _ _ t); try done. by rewrite Ht.
Qed.
(** Moving within set() without resuming anybody. *)
Lemma inv_move agents s L t p :
  inv agents s L -> t < agents -> pcs s t <> Suspended -> p <> Suspended ->
  (forall q, p <> AwaitCas q) ->
  match p with
  | SetWalk p => chain (next s) p (L (Some t))
  | SetResume w nxt => exists l, L (Some t) = w :: l /\ chain (next s) nxt l
  | _ => L (Some t) = []
  end ->
  inv agents (set_pc s t p) L.
Proof.
  intros [[Hst Hth] Hd Hnd Hs Ha Hc] Hta Hold Hp Hq Hnew. constructor; simpl; try done.
  - split; [done|]. intros t'. specialize (Hth t'). simpl. by upd_cases.
  - intros x. upd_cases; [|apply Hs]. split; [done|]. intros Hx. by apply Hs in Hx.
  - intros x. upd_cases; [done|apply Ha].
  - intros t' q. upd_cases; [intros Heq; by destruct (Hq q)|apply Hc].
Qed.

Lemma xchg_step agents s L t policy s' ev :
  inv agents s L -> pcs s t = SetXchg policy -> exec_set agents t s = Some (s', ev) ->
  (exists L', inv agents s' L') /\ balanced s ev s'.
Proof.
  intros Hinv Ht H. unfold exec_set in H. rewrite Ht in H.
  assert (t < agents) as Hta by (apply (inv_agents _ _ _ Hinv); by rewrite Ht).
  assert (forall ms nx p, p <> Suspended ->
            balanced s [] (set_pc (mk_state ms nx (pcs s)) t p)) as Hbal.
  { intros ms nx p Hp. apply (balanced_other _ _ t); simpl; rewrite ?Ht, ?upd_eq; auto.
    intros; by rewrite upd_ne. }
  pose proof (proj1 (inv_holds _ _ _ Hinv)) as Hst.
  destruct (m_state s) as [|p] eqn:Hm.
  - simplify_eq. split; [exists L; apply inv_plain_step; auto; by rewrite ?Ht|].
    by apply (Hbal (m_state s) (next s) Idle).
  - destruct policy.
    + simplify_eq. split; [|by apply Hbal]. eexists. by eapply inv_take.
    + destruct (AwaiterList.awaiter_list_reverse_spec agents (next s) p (L None) Hst)
        as (nx & p' & Hrev & Hch & Hfr); [by eapply inv_bound|].
      unfold reverse in H. rewrite Hrev in H. simplify_eq. split; [|by apply Hbal].
      eexists. eapply inv_take; try done. intros x. rewrite !list_elem_of_In. symmetry. apply in_rev.
Qed.

Lemma walk_step agents s L t s' ev :
  inv agents s L -> (forall policy, pcs s t <> SetXchg policy) -> exec_set agents t s = Some (s', ev) ->
  (exists L', inv agents s' L') /\ balanced s ev s'.
Proof.
  intros Hinv Hnx H. unfold exec_set in H.
  pose proof (proj2 (inv_holds _ _ _ Hinv) t) as Hh.
  assert (pcs s t <> Idle -> t < agents) as Ha by apply (inv_agents _ _ _ Hinv).
  assert (forall p, pcs s t <> Suspended -> p <> Suspended -> balanced s [] (set_pc s t p)) as Hbal.
  { intros p Hs Hp. apply (balanced_other _ _ t); simpl; rewrite ?upd_eq; auto.
    intros; by rewrite upd_ne. }
  destruct (pcs s t) as [| | | | |pol|[w|]|w nxt] eqn:Ht; try done.
  - by destruct (Hnx pol).
  - simplify_eq. split; [|by apply Hbal]. exists L.
    apply chain_Some in Hh as (l & Hl & Hch).
    apply inv_move; rewrite ?Ht; try done; [by apply Ha|eauto].
  - simplify_eq. split; [|by apply Hbal]. exists L. apply chain_None in Hh.
    apply inv_move; rewrite ?Ht; try done. by apply Ha.
  - destruct Hh as (l & Hl & Hch).
    assert (pcs s w = Suspended) as Hw.
    { apply (inv_susp _ _ _ Hinv). exists (Some t). rewrite Hl. by left. }
    rewrite bool_decide_true in H by done. simplify_eq. split.
    + eexists. eapply inv_resume; try done. by apply Ha.
    + split; [repeat constructor; by intros []|]. intros x. unfold suspended.
      rewrite n_resume_one. change (n_suspend x [EvResume t w]) with 0. simpl.
      destruct (decide (x = w)) as [->|Hxw].
      * by rewrite upd_eq, Hw, bool_decide_true, bool_decide_false.
      * rewrite (upd_ne _ w) by done.
        destruct (decide (x = t)) as [->|Hxt]; [|by rewrite upd_ne, Nat.add_0_r].
        by rewrite upd_eq, Ht, !bool_decide_false.
Qed.

Lemma reset_step agents s L :
  inv agents s L -> inv agents (reset s) L.
Proof.
  intros Hinv. unfold reset, is_set. case_bool_decide as Hm; [|done].
  destruct Hinv as [[Hst Hth] Hd Hnd Hs Ha Hc]. rewrite Hm in Hst.
  constructor; try done. split; [|done]. simpl. by rewrite Hst.
Qed.

Lemma ev_inv_step agents s L l s' ev :
  inv agents s L -> exec agents l s = Some (s', ev) ->
  (exists L', inv agents s' L') /\ balanced s ev s'.
Proof.
  intros Hinv H. destruct l as [t c|t sp]; simpl in H.
  - case_bool_decide as Hta; [|done]. destruct (pcs s t) eqn:Ht; try done.
    destruct c as [|pol|]; simplify_eq.
    1, 2: split; [exists L; apply inv_plain_step; auto; by rewrite ?Ht|];
      apply (balanced_other _ _ t); simpl; rewrite ?Ht, ?upd_eq; auto; intros; by rewrite upd_ne.
    split; [exists L; by apply reset_step|].
    apply (balanced_other _ _ t); unfold reset; try destruct (is_set s); simpl; rewrite ?Ht; auto.
  - destruct (pcs s t) eqn:Ht; try done; try (by eapply await_step);
      [by eapply xchg_step|eapply walk_step; try done; by rewrite Ht..].
Qed.

Lemma reach_holds agents b s tr :
  reach (exec agents) (make b) s tr ->
  (exists L, inv agents s L) /\ Forall (fun e => ~ is_bad e) tr /\
  forall w, n_suspend w tr = n_resume w tr + suspended s w.
Proof.
  apply (reach_inv (exec agents) (fun s tr => (exists L, inv agents s L) /\
    Forall (fun e => ~ is_bad e) tr /\ forall w, n_suspend w tr = n_resume w tr + suspended s w)).
  - split; [eexists; apply ev_inv_init|]. split; [constructor|]. done.
  - intros s' tr' l s'' ev ([L Hinv] & Hbad & Hn) He.
    destruct (ev_inv_step _ _ _ _ _ _ Hinv He) as [Hinv' [Hb Hn']]. split; [done|].
    split; [by apply Forall_app|]. intros w. specialize (Hn w). specialize (Hn' w).
    rewrite n_suspend_app, n_resume_app. lia.
Qed.
(** [C4] Exactly-once resumption: in every schedule set() resumes only suspended
    coroutines, and every suspension of [w] is matched by one resumption of [w],
    except a last one that is still pending. *)
Theorem event_resumed_exactly_once agents b s tr :
  reach (exec agents) (make b) s tr ->
  Forall (fun e => ~ is_bad e) tr /\ forall w, n_suspend w tr = n_resume w tr + suspended s w.
Proof. intros H. apply (reach_holds _ _ _ _ H). Qed.

(** Coroutine 1 awaits, coroutine 0 sets (fifo), 1 awaits again after a reset. *)
Definition await_set_await : list label :=
  [Call 1 Await; Step 1 false; Step 1 false; Step 1 true; Step 1 false;
   Call 0 (Set_ fifo); Step 0 false; Step 0 false; Step 0 false; Call 2 Reset;
   Call 1 Await; Step 1 false; Step 1 false; Step 1 false; Step 0 false].

Lemma event_resumed_exactly_once_witness :
  exists s tr, run (exec 3) await_set_await (make false) = Some (s, tr) /\
    tr = [EvSuspend 1; EvResume 0 1; EvSuspend 1] /\
    Forall (fun e => ~ is_bad e) tr /\ forall w, n_suspend w tr = n_resume w tr + suspended s w.
Proof.
  destruct (run (exec 3) await_set_await (make false)) as [[s tr]|] eqn:Hrun.
  - exists s, tr. split; [done|]. split; [by vm_compute in Hrun; simplify_eq|].
    apply (event_resumed_exactly_once 3 false). exact (run_reach _ _ _ _ _ Hrun).
  - vm_compute in Hrun. discriminate.
Defined.

(** [t] is inside set() and still has to resume [w]. *)
Definition will_resume (s : state) (t w : nat) : Prop :=
  match pcs s t with
  | SetWalk p => exists l, chain (next s) p l /\ w ∈ l
  | SetResume w' nxt => w = w' \/ exists l, chain (next s) nxt l /\ w ∈ l
  | _ => False
  end.

(** [C5] No lost wakeup: a suspended coroutine is either in the list behind
    [m_state], where the next set() finds it, or some running set() is about to
    resume it; once the event is set only the second is possible. *)
Theorem event_no_lost_wakeup agents b s tr w :
  reach (exec agents) (make b) s tr -> pcs s w = Suspended ->
  (exists p l, m_state s = StList p /\ chain (next s) p l /\ w ∈ l) \/
  (exists t, will_resume s t w).
Proof.
  intros Hr Hw. destruct (reach_holds _ _ _ _ Hr) as [[L Hinv] _].
  destruct (inv_holds _ _ _ Hinv) as [Hst Hth].
  destruct (proj1 (inv_susp _ _ _ Hinv w) Hw) as [[t|] Hin].
  - right. exists t. specialize (Hth t). unfold will_resume.
    destruct (pcs s t); try (by rewrite Hth in Hin; no_nil); [eauto|].
    destruct Hth as (l & Hl & Hch). rewrite Hl in Hin. apply elem_of_cons in Hin as [?|?]; eauto.
  - left. destruct (m_state s) as [|p]; [by rewrite Hst in Hin; no_nil|]. eauto.
Qed.

Definition await_only : list label := [Call 1 Await; Step 1 false; Step 1 false; Step 1 false].

Lemma event_no_lost_wakeup_witness :
  exists s tr, run (exec 3) await_only (make false) = Some (s, tr) /\
  ((exists p l, m_state s = StList p /\ chain (next s) p l /\ 1 ∈ l) \/
   (exists t, will_resume s t 1)).
Proof.
  destruct (run (exec 3) await_only (make false)) as [[s tr]|] eqn:Hrun.
  - exists s, tr. split; [done|].
    apply (event_no_lost_wakeup 3 false s tr 1); [exact (run_reach _ _ _ _ _ Hrun)|].
    vm_compute in Hrun. by simplify_eq.
  - vm_compute in Hrun. discriminate.
Defined.

(** ** Resumption order *)

Lemma walk_run agents t l s p :
  pcs s t = SetWalk p -> chain (next s) p l -> t ∉ l ->
  (forall x, x ∈ l -> pcs s x = Suspended) ->
  exists s', run (exec agents) (replicate (2 * length l + 1) (Step t false)) s =
               Some (s', map (EvResume t) l) /\
    m_state s' = m_state s /\ pcs s' t = Idle /\ (forall x, x ∈ l -> pcs s' x = Idle) /\
    forall x, x ∉ l -> x <> t -> pcs s' x = pcs s x.
Proof.
  revert s p. induction l as [|w l IH]; intros s p Ht Hch Hnt Hs.
  - simpl in Hch. subst p. exists (set_pc s t Idle). simpl. rewrite Ht. unfold exec_set. rewrite Ht.
    simpl. rewrite upd_eq. repeat split; auto; [intros; no_nil|]. intros. by rewrite upd_ne.
  - pose proof (chain_NoDup _ _ _ Hch) as Hnd. apply list.NoDup_cons in Hnd as [Hwl Hnd].
    destruct Hch as [-> Hch]. apply not_elem_of_cons in Hnt as [Htw Hnt].
    pose (s2 := set_pc (set_pc (set_pc s t (SetResume w (next s w))) t (SetWalk (next s w))) w Idle).
    destruct (IH s2 (next s w)) as (s' & Hrun & Hm & Ht' & Hx & Hfr); [..|].
    + simpl. by rewrite upd_ne, upd_eq.
    + done.
    + done.
    + intros x Hx. simpl. rewrite !upd_ne; [apply Hs; by right|..]; by intros ->.
    + exists s'.
      remember (2 * length l + 1) as n eqn:Hn.
      replace (2 * length (w :: l) + 1) with (S (S n)) by (simpl; lia).
      simpl replicate. simpl run. rewrite Ht. unfold exec_set at 1. rewrite Ht. simpl pcs.
      rewrite upd_eq. unfold exec_set. simpl pcs. rewrite upd_eq.
      rewrite (upd_ne _ t _ w) by done.
      rewrite bool_decide_true by (apply Hs; by left).
      fold s2. rewrite Hrun. simpl. split; [done|]. split; [by rewrite Hm|]. split; [done|].
      split; intros x Hx'.
      * destruct (decide (x ∈ l)) as [Hl|Hl]; [by apply Hx|].
        apply elem_of_cons in Hx' as [->|?]; [|done]. rewrite Hfr by done. simpl. by rewrite upd_eq.
      * apply not_elem_of_cons in Hx' as [Hxw Hxl]. intros Hxt. rewrite Hfr by done. simpl.
        by rewrite !upd_ne.
Qed.

(** Resumption order: set() on an event with the waiting list [l] (most
    recent awaiter first) completes, leaves the event set, and resumes all of
    [l], in suspension order under [fifo] and in reverse under [lifo]. *)
Theorem event_set_order agents b s tr t policy p l :
  reach (exec agents) (make b) s tr -> t < agents -> pcs s t = Idle ->
  m_state s = StList p -> chain (next s) p l ->
  exists s', run (exec agents)
      (Call t (Set_ policy) :: Step t false :: replicate (2 * length l + 1) (Step t false)) s =
      Some (s', map (EvResume t) (match policy with lifo => l | fifo => rev l end)) /\
    is_set s' = true /\ forall x, x ∈ l -> pcs s' x = Idle.
Proof.
  intros Hr Hta Ht Hm Hch. destruct (reach_holds _ _ _ _ Hr) as [[L Hinv] _].
  pose proof (proj1 (inv_holds _ _ _ Hinv)) as Hst. rewrite Hm in Hst.
  rewrite (chain_det _ _ _ _ Hch Hst) in *. clear l Hch.
  assert (forall x, x ∈ L None -> pcs s x = Suspended) as Hs by (intros; apply (inv_susp _ _ _ Hinv); eauto).
  assert (t ∉ L None) as Hnt by (intros ?%Hs; congruence).
  destruct (AwaiterList.awaiter_list_reverse_spec agents (next s) p (L None) Hst)
    as (nx & p' & Hrev & Hch & _); [by eapply inv_bound|].
  assert (forall x, x ∈ rev (L None) <-> x ∈ L None) as Hrv
    by (intros; rewrite !list_elem_of_In; symmetry; apply in_rev).
  pose (st := fun nx q => set_pc (mk_state StSet nx ((pcs s).[t ↦ SetXchg policy])) t (SetWalk q)).
  assert (forall nx q l', chain nx q l' -> (forall x, x ∈ l' <-> x ∈ L None) ->
    exists s', run (exec agents) (replicate (2 * length l' + 1) (Step t false)) (st nx q) =
      Some (s', map (EvResume t) l') /\ is_set s' = true /\ forall x, x ∈ l' -> pcs s' x = Idle) as Hwalk.
  { intros nx' q l' Hl' Heq. destruct (walk_run agents t l' (st nx' q) q)
      as (s' & Hrun & Hm' & _ & Hx & _); [simpl; by rewrite upd_eq|done|by rewrite Heq|..].
    - intros x Hx. simpl. apply Heq in Hx. rewrite !upd_ne; [by apply Hs|..]; by intros ->.
    - exists s'. split; [done|]. split; [|done]. unfold is_set. by rewrite Hm'. }
  simpl run. rewrite bool_decide_true, Ht by done. simpl. rewrite upd_eq.
  unfold exec_set. simpl. rewrite upd_eq, Hm. destruct policy.
  - destruct (Hwalk (next s) p (L None)) as (s' & Hrun & ? & ?); [done|done|].
    unfold st in Hrun. simpl in *. rewrite Hrun. eauto.
  - unfold reverse. rewrite Hrev.
    destruct (Hwalk nx p' (rev (L None))) as (s' & Hrun & ? & Hx); [done|done|].
    rewrite length_rev in Hrun. unfold st in Hrun. simpl in *. rewrite Hrun.
    exists s'. split; [done|]. split; [done|]. intros x Hx'. apply Hx. by apply Hrv.
Qed.

Definition await_two : list label :=
  [Call 1 Await; Step 1 false; Step 1 false; Step 1 false;
   Call 2 Await; Step 2 false; Step 2 false; Step 2 false].

Lemma event_set_order_witness :
  exists s tr s', run (exec 3) await_two (make false) = Some (s, tr) /\
    run (exec 3) (Call 0 (Set_ fifo) :: Step 0 false :: replicate (2 * 2 + 1) (Step 0 false)) s =
      Some (s', [EvResume 0 1; EvResume 0 2]).
Proof.
  destruct (run (exec 3) await_two (make false)) as [[s tr]|] eqn:Hrun;
    [|vm_compute in Hrun; discriminate].
  destruct (event_set_order 3 false s tr 0 fifo (Some 2) [2; 1]) as (s' & Hset & _);
    [exact (run_reach _ _ _ _ _ Hrun)|lia|vm_compute in Hrun; by simplify_eq..|].
  exists s, tr, s'. split; [done|]. exact Hset.
Defined.
End Event.
