(* ===== verification/EventClient.v ===== *)
(** * coro::event as its clients see it

    What coro::latch and coro::task_group rely on: an event that is not set and
    that nobody is setting lets nobody pass ([closed]), and one that is set or
    about to be set stays so until reset() is called ([opened]). *)
From stdpp Require Import base list relations option numbers.
From S2P Require Import Prelude AwaiterList Event.

Module EventClient.
Definition setting (p : Event.pc) : Prop :=
  match p with Event.SetXchg _ | Event.SetWalk _ | Event.SetResume _ _ => True | _ => False end.

(** The event is not set and nobody is setting it; and its opposite. *)
Definition closed (e : Event.state) : Prop :=
  Event.m_state e <> Event.StSet /\ forall t, ~ setting (Event.pcs e t).
Definition opened (e : Event.state) : Prop :=
  Event.m_state e = Event.StSet \/ exists t policy, Event.pcs e t = Event.SetXchg policy.

Definition only_suspends (ev : list Event.event) : Prop :=
  Forall (fun e => match e with Event.EvSuspend _ => True | _ => False end) ev.

Lemma closed_set_pc e t p nx st :
  closed e -> ~ setting p -> st <> Event.StSet ->
  closed (Event.set_pc (Event.mk_state st nx (Event.pcs e)) t p).
Proof. intros [Hm Hp] Hnp Hst. split; [done|]. intros t'. simpl. by upd_cases. Qed.

Lemma await_test_closed e t :
  closed e -> closed (Event.await_test t (Event.m_state e) e).1 /\
  only_suspends (Event.await_test t (Event.m_state e) e).2.
Proof.
  intros Hc. pose proof Hc as [Hm _]. unfold Event.await_test.
  destruct (Event.m_state e) as [|p] eqn:Hst; [done|]. split; [|constructor].
  apply closed_set_pc; [done|by intros []|done].
Qed.

Lemma closed_step agents l e e' ev :
  closed e -> Event.exec agents l e = Some (e', ev) ->
  (forall t policy, l <> Event.Call t (Event.Set_ policy)) -> closed e' /\ only_suspends ev.
Proof.
  intros Hc H Hl. pose proof Hc as [Hm Hp]. pose proof (await_test_closed e) as Htest.
  assert (forall t p, ~ setting p -> closed (Event.set_pc e t p)) as Hset.
  { intros. by apply (closed_set_pc e t p (Event.next e) (Event.m_state e)). }
  destruct l as [t c|t sp]; simpl in H.
  - case_bool_decide; [|done]. destruct c as [|pol|]; destruct (Event.pcs e t); simplify_eq.
    + split; [apply Hset; by intros []|constructor].
    + by destruct (Hl t pol).
    + split; [|constructor]. unfold Event.reset, Event.is_set. by rewrite bool_decide_false.
  - specialize (Hp t). specialize (Htest t Hc). unfold Event.exec_await, Event.is_set in H.
    destruct (Event.pcs e t) eqn:Ht; try done; simpl in H.
    + rewrite bool_decide_false in H by done. simplify_eq. split; [apply Hset; by intros []|constructor].
    + by destruct (Event.await_test t (Event.m_state e) e); simplify_eq.
    + case_match; [simplify_eq; split; [apply closed_set_pc; [done|by intros []|done]|repeat constructor]|].
      by destruct (Event.await_test t (Event.m_state e) e); simplify_eq.
Qed.

Lemma opened_step agents l e e' ev :
  opened e -> Event.exec agents l e = Some (e', ev) ->
  (forall t, l <> Event.Call t Event.Reset) -> opened e'.
Proof.
  intros Ho H Hl.
  assert (forall t p nx, (forall q, Event.pcs e t <> Event.SetXchg q) ->
    opened (Event.set_pc (Event.mk_state (Event.m_state e) nx (Event.pcs e)) t p)) as Hset.
  { intros t p nx Hq. destruct Ho as [Ho|(t' & q & Ho)]; [by left|]. right. exists t', q.
    simpl. rewrite upd_ne; [done|]. intros ->. by destruct (Hq q). }
  destruct l as [t c|t sp]; simpl in H.
  - case_bool_decide; [|done]. destruct (Event.pcs e t) eqn:Ht; try done.
    destruct c; simplify_eq; [apply Hset; by rewrite Ht..|by destruct (Hl t)].
  - unfold Event.exec_await, Event.exec_set, Event.is_set, Event.await_test in H.
    destruct (Event.pcs e t) eqn:Ht; try done; simpl in H.
    + case_bool_decide; simplify_eq; apply Hset; by rewrite Ht.
    + destruct (Event.m_state e) eqn:Hm; simplify_eq; [by left|]. apply Hset. by rewrite Ht.
    + destruct (Event.m_state e) as [|q] eqn:Hm.
      * rewrite bool_decide_false, andb_false_r in H by done. simplify_eq. by left.
      * case_match; simplify_eq; [|apply Hset; by rewrite Ht].
        destruct Ho as [Ho|(t' & r & Ho)]; [congruence|]. right. exists t', r. simpl.
        rewrite upd_ne; [done|]. intros ->. congruence.
    + destruct (Event.m_state e) eqn:Hm; [by simplify_eq; left|].
      destruct policy; [by simplify_eq; left|]. case_match; [|done]. case_match. simplify_eq. by left.
    + destruct waiters; simplify_eq; apply Hset; by rewrite Ht.
    + case_bool_decide as Hw; simplify_eq; [|apply Hset; by rewrite Ht].
      destruct Ho as [Ho|(t' & q & Ho)]; [by left|]. right. exists t', q. simpl.
      rewrite !upd_ne; [done|..]; intros ->; congruence.
Qed.

(** Once the running set() calls have returned, an event that is set has no
    suspended awaiter left. *)
Lemma set_no_suspended agents b e tr :
  reach (Event.exec agents) (Event.make b) e tr -> Event.m_state e = Event.StSet ->
  (forall t, ~ setting (Event.pcs e t)) -> forall w, Event.pcs e w <> Event.Suspended.
Proof.
  intros Hr Hset Hq w Hw. destruct (Event.reach_holds _ _ _ _ Hr) as [[L Hinv] _].
  destruct (Event.inv_holds _ _ _ Hinv) as [Hst Hth]. rewrite Hset in Hst.
  destruct (proj1 (Event.inv_susp _ _ _ Hinv w) Hw) as [[t|] Hin]; [|rewrite Hst in Hin; no_nil].
  specialize (Hth t). specialize (Hq t).
  destruct (Event.pcs e t); simpl in Hq; try (rewrite Hth in Hin; no_nil); by destruct Hq.
Qed.

Lemma opened_quiet e :
  opened e -> (forall t, ~ setting (Event.pcs e t)) -> Event.m_state e = Event.StSet.
Proof. intros [?|(t & p & Hp)] Hq; [done|]. destruct (Hq t). by rewrite Hp. Qed.

(** A step of [t] leaves every other coroutine that is not suspended alone. *)
Definition agent_of (l : Event.label) : nat :=
  match l with Event.Call t _ | Event.Step t _ => t end.

Lemma event_frame agents l e e' ev x :
  Event.exec agents l e = Some (e', ev) -> x <> agent_of l -> Event.pcs e x <> Event.Suspended ->
  Event.pcs e' x = Event.pcs e x.
Proof.
  intros H Hx Hs. destruct l as [t c|t sp]; simpl in *.
  - case_bool_decide; [|done]. destruct (Event.pcs e t), c; simplify_eq; simpl; try by rewrite upd_ne.
    unfold Event.reset. by destruct (Event.is_set e).
  - unfold Event.exec_await, Event.exec_set, Event.await_test, Event.is_set in H.
    destruct (Event.pcs e t) as [| | | | | |[]|w nxt] eqn:Ht; try done.
    7: { case_bool_decide as Hw; simplify_eq; simpl; [|by rewrite upd_ne].
         rewrite !upd_ne; [done|done|]. by intros ->. }
    all: repeat (case_match; simplify_eq; simpl; try by rewrite !upd_ne by done);
      simplify_eq; simpl; by rewrite !upd_ne.
Qed.
End EventClient.
