(* ===== verification/EventExecutor.v ===== *)
(** * event::set(executor, policy) (include/coro/event.hpp)

    The overload that hands the waiters to an executor instead of resuming them: latch::count_down(executor)
    and dns::resolver wake their waiters this way.  Once handed over a
    coroutine runs on another thread, and its awaiter, which is in its frame, is gone or in
    use again: the model lets its m_next become anything. *)
From stdpp Require Import base list relations option numbers.
From Stdlib Require Import Lia.
From S2P Require Import Prelude AwaiterList Event EventClient.

Module EventExecutor.
Import Event EventClient.

Section set.
Variable accepts : nat -> bool.              (* the result of e->resume(handle), which is dropped *)
Variable reused : nat -> option nat.         (* m_next of an awaiter after it was handed over *)

(** The walk: the next pointer is read before the waiter is handed over. *)
Fixpoint post_waiters (fuel : nat) (next : nat -> option nat) (waiters : option nat) : option (list (nat * bool)) :=
  match waiters with
  | None => Some []
  | Some w =>
      match fuel with
      | 0 => None
      | S fuel =>
          let nxt := next w in
          match post_waiters fuel (next.[w ↦ reused w]) nxt with
          | Some l => Some ((w, accepts w) :: l)
          | None => None
          end
      end
  end.

(** set(e, policy): the event afterwards and the waiters handed over, each with the answer *)
Definition set_executor (agents : nat) (s : state) (policy : resume_order_policy) : option (state * list (nat * bool)) :=
  match m_state s with
  | StSet => Some (s, [])
  | StList p =>
      match (match policy with fifo => reverse agents (next s) p | lifo => Some (next s, p) end) with
      | Some (next', p') =>
          match post_waiters agents next' p' with
          | Some l => Some (mk_state StSet next' (pcs s), l)
          | None => None
          end
      | None => None
      end
  end.

Lemma post_waiters_spec l fuel nx p : chain nx p l -> length l <= fuel ->
  post_waiters fuel nx p = Some (map (fun w => (w, accepts w)) l).
Proof.
  revert fuel nx p. induction l as [|w l IH]; intros fuel nx p Hc Hf; cbn in Hc.
  - subst p. by destruct fuel.
  - pose proof (chain_NoDup nx p (w :: l) Hc) as Hn. apply list.NoDup_cons in Hn as [Hw _]. destruct Hc as [-> Hc].
    destruct fuel as [|fuel]; cbn in Hf; [lia|]. cbn. rewrite (IH fuel _ (nx w)); [done|by apply chain_upd|lia].
Qed.

(** set(executor) completes, sets the event and hands over exactly the coroutines that wait
    in it, each once, in the order of their suspension under fifo and in the opposite order
    under lifo, whatever becomes of the awaiters it has handed over; if no other set() is
    under way these are all the suspended ones. *)
Theorem event_set_executor_posts_all agents b s tr policy p :
  reach (exec agents) (make b) s tr -> m_state s = StList p ->
  exists l s', chain (next s) p l /\ NoDup l /\
    set_executor agents s policy = Some (s', map (fun w => (w, accepts w)) (match policy with lifo => l | fifo => rev l end)) /\
    is_set s' = true /\ (forall w, w ∈ l -> pcs s w = Suspended) /\
    ((forall t, ~ setting (pcs s t)) -> forall w, pcs s w = Suspended -> w ∈ l).
Proof.
  intros Hr Hm. destruct (reach_holds _ _ _ _ Hr) as [[L Hinv] _]. destruct (inv_holds _ _ _ Hinv) as [Hst Hth]. rewrite Hm in Hst.
  pose proof (inv_bound _ _ _ None Hinv) as Hb.
  destruct (AwaiterList.awaiter_list_reverse_spec agents (next s) p (L None) Hst Hb) as (nx & p' & Hrev & Hch & _).
  exists (L None). unfold set_executor. rewrite Hm. unfold reverse. rewrite Hrev.
  pose proof (post_waiters_spec (L None) _ _ _ Hst Hb) as Hp1. pose proof (post_waiters_spec _ agents _ _ Hch ltac:(by rewrite length_rev)) as Hp2.
  destruct policy; rewrite ?Hp1, ?Hp2; eexists; (split_and!; [done|apply (inv_nodup _ _ _ Hinv)|done|done|intros w Hw; apply (inv_susp _ _ _ Hinv); eauto|]).
  all: intros Hq w [[t|] Hin]%(inv_susp _ _ _ Hinv); [|done]; specialize (Hth t); specialize (Hq t);
    destruct (pcs s t); cbn in Hq; try (rewrite Hth in Hin; by apply elem_of_nil in Hin); by destruct Hq.
Qed.
End set.

Lemma event_set_executor_posts_all_witness :
  exists s tr s', run (exec 3) await_two (make false) = Some (s, tr) /\
    set_executor (fun _ => true) (fun _ => Some 7) 3 s fifo = Some (s', [(1, true); (2, true)]).
Proof.
  destruct (run (exec 3) await_two (make false)) as [[s tr]|] eqn:E; [|vm_compute in E; discriminate].
  assert (m_state s = StList (Some 2) /\ next s 2 = Some 1 /\ next s 1 = None) as (Hm & H2 & H1)
    by (vm_compute in E; injection E as <- _; by vm_compute).
  destruct (event_set_executor_posts_all (fun _ => true) (fun _ => Some 7) 3 false s tr fifo (Some 2) (run_reach _ _ _ _ _ E) Hm)
    as (l & s' & Hc & _ & Hset & _).
  exists s, tr, s'. split; [reflexivity|]. rewrite Hset.
  assert (chain (next s) (Some 2) [2; 1]) as Hc' by (cbn; rewrite H2, H1; auto).
  rewrite (chain_det _ _ _ _ Hc Hc'). reflexivity.
Defined.

(** The answer of the executor is dropped: when it is shut down the waiter stays suspended,
    in no list, and the event is set. *)
Theorem event_set_executor_refused_is_lost :
  exists s tr s', run (exec 3) await_two (make false) = Some (s, tr) /\
    set_executor (fun _ => false) (fun _ => None) 3 s lifo = Some (s', [(2, false); (1, false)]) /\
    m_state s' = StSet /\ pcs s' 1 = Suspended /\ pcs s' 2 = Suspended.
Proof. do 3 eexists. split; [vm_compute; reflexivity|]. split; [vm_compute; reflexivity|]. done. Qed.
End EventExecutor.
