(* ===== verification/Latch.v ===== *)
(** * coro::latch (include/coro/latch.hpp)

    A counter and a coro::event.  The latch's operations are the counter accesses
    composed with the operations of [Event]: count_down() continues as the set()
    of the event when it reaches zero, co_await is the event's awaiter. *)
From stdpp Require Import base list relations option numbers.
From Stdlib Require Import ZArith Lia.
From S2P Require Import Prelude AwaiterList Event EventClient.
Import EventClient.

Module Latch.
Local Open Scope Z_scope.

Record state := mk_state {
  m_count : Z;                  (* std::atomic<std::int64_t> *)
  m_event : Event.state
}.

(** latch::latch *)
Definition make (count : Z) : state := mk_state count (Event.make (count <=? 0)).

(** latch::is_ready, latch::remaining (an [std::int64_t] converted to [std::size_t]) *)
Definition is_ready (s : state) : bool := Event.is_set (m_event s).
Definition remaining (s : state) : Z := u64 (m_count s).

Inductive label :=
| CountDown (t : nat) (n : Z)
| Await (t : nat)
| Step (t : nat) (spurious : bool).

Inductive event := Counted (t : nat) (n : Z) | Ev (e : Event.event).

Definition lift (count : Z) (r : option (Event.state * list Event.event)) :
    option (state * list event) :=
  match r with
  | Some (e, ev) => Some (mk_state count e, map Ev ev)
  | None => None
  end.

(** latch::count_down: the fetch_sub, and the call of set() when the old value was
    at most [n]. *)
Definition count_down (agents t : nat) (n : Z) (s : state) : option (state * list event) :=
  let old := m_count s in
  let count := s64 (old - n) in
  match lift count (Event.exec agents (Event.Call t (Event.Set_ Event.lifo)) (m_event s)) with
  | Some (s', ev) =>
      if old <=? n then Some (s', Counted t n :: ev)
      else Some (mk_state count (m_event s), [Counted t n])
  | None => None
  end.

Definition exec (agents : nat) (l : label) (s : state) : option (state * list event) :=
  match l with
  | CountDown t n => count_down agents t n s
  | Await t => lift (m_count s) (Event.exec agents (Event.Call t Event.Await) (m_event s))
  | Step t spurious => lift (m_count s) (Event.exec agents (Event.Step t spurious) (m_event s))
  end.

(** ** Observations on traces *)

Fixpoint total (tr : list event) : Z :=
  match tr with
  | [] => 0
  | Counted _ n :: tr' => n + total tr'
  | Ev _ :: tr' => total tr'
  end.

(** A coroutine came past the latch. *)
Definition passes (e : event) : Prop :=
  match e with Ev (Event.EvContinue _) | Ev (Event.EvResume _ _) => True | _ => False end.

Definition counted_nonneg (e : event) : Prop :=
  match e with Counted _ n => 0 <= n | Ev _ => True end.

(** No count_down(n) with a negative [n], and no 64-bit wrap-around. *)
Definition in_range (count : Z) (tr : list event) : Prop :=
  Forall counted_nonneg tr /\ s64_min <= count - total tr /\ count <= s64_max.

Lemma total_app tr1 tr2 : total (tr1 ++ tr2) = total tr1 + total tr2.
Proof. induction tr1 as [|[] tr1 IH]; simpl; lia. Qed.

Lemma total_nonneg tr : Forall counted_nonneg tr -> 0 <= total tr.
Proof. induction 1 as [|[] tr]; simpl in *; lia. Qed.

Lemma total_Ev ev : total (map Ev ev) = 0.
Proof. by induction ev. Qed.

Lemma in_range_app count tr1 tr2 : in_range count (tr1 ++ tr2) -> in_range count tr1.
Proof.
  intros (Hn & Hb & Hc). apply Forall_app in Hn as [Hn1 Hn2]. rewrite total_app in Hb.
  pose proof (total_nonneg _ Hn2). repeat split; [done|lia|done].
Qed.

(** ** The invariant: the counter is exact and decides whether the event is open *)

Definition exact (count : Z) (s : state) (tr : list event) : Prop :=
  m_count s = count - total tr /\
  (count <= total tr -> opened (m_event s)) /\
  (total tr < count -> closed (m_event s) /\ Forall (fun e => ~ passes e) tr).

Lemma exact_init count : s64_min <= count <= s64_max -> exact count (make count) [].
Proof.
  intros Hc. unfold exact, make. simpl. split; [lia|]. split; intros H.
  - left. simpl. by rewrite (proj2 (Z.leb_le _ _)) by lia.
  - split; [|constructor]. split; simpl; [|by intros t []].
    by rewrite (proj2 (Z.leb_gt _ _)) by lia.
Qed.

Lemma only_suspends_passes ev : only_suspends ev -> Forall (fun e => ~ passes e) (map Ev ev).
Proof. intros H. apply List.Forall_map. eapply list.Forall_impl; [exact H|]. intros []; simpl; tauto. Qed.

(** A step of the event that is not a call of set(). *)
Lemma exact_event agents count s tr l s' ev :
  exact count s tr ->
  lift (m_count s) (Event.exec agents l (m_event s)) = Some (s', ev) ->
  (forall t policy, l <> Event.Call t (Event.Set_ policy)) ->
  (forall t, l <> Event.Call t Event.Reset) ->
  exact count s' (tr ++ ev).
Proof.
  intros (Hc & Ho & Hcl) H Hl1 Hl2. unfold lift in H.
  destruct (Event.exec agents l (m_event s)) as [[e' ev']|] eqn:He; [|done]. simplify_eq.
  unfold exact. rewrite total_app, total_Ev, Z.add_0_r. simpl. split; [done|]. split; intros Ht.
  - eapply opened_step; [by apply Ho|done|done].
  - destruct (Hcl Ht) as [Hcl' Hf]. destruct (closed_step _ _ _ _ _ Hcl' He Hl1) as [Hcl2 Hs].
    split; [done|]. apply Forall_app. split; [done|]. by apply only_suspends_passes.
Qed.

Lemma exact_count_down agents count s tr t n s' ev :
  exact count s tr -> count_down agents t n s = Some (s', ev) ->
  in_range count (tr ++ ev) -> exact count s' (tr ++ ev).
Proof.
  intros (Hc & Ho & Hcl) H (Hn & Hmin & Hmax). unfold count_down, lift in H.
  destruct (Event.exec agents _ (m_event s)) as [[e' ev']|] eqn:He; [|done].
  assert (ev' = [] /\ opened e') as [-> Hop].
  { simpl in He. case_bool_decide; [|done]. destruct (Event.pcs (m_event s) t); simplify_eq.
    split; [done|]. right. exists t, Event.lifo. simpl. by rewrite upd_eq. }
  assert (total ev = n /\ ev = [Counted t n]) as [Htot ->] by (case_match; simplify_eq/=; (split; [lia|done])).
  apply Forall_app in Hn as [Hn0 Hn1]. apply list.Forall_cons in Hn1 as [Hn1 _]. simpl in Hn1.
  rewrite total_app in Hmin. simpl in Hmin. rewrite Z.add_0_r in Hmin. unfold s64_min, s64_max in *.
  assert (0 <= total tr) by (by apply total_nonneg).
  assert (s64 (m_count s - n) = count - (total tr + n)) as Hs64 by (rewrite s64_small; unfold s64_min, s64_max; lia).
  unfold exact. rewrite total_app. simpl. rewrite Z.add_0_r.
  destruct (Z.leb_spec (m_count s) n); simplify_eq; simpl; (split; [lia|]); (split; intros Ht); try lia.
  - done.
  - destruct (Hcl ltac:(lia)) as [Hcl' Hf]. split; [done|]. apply Forall_app.
    split; [done|]. constructor; [by intros []|constructor].
Qed.

Lemma reach_exact agents count s tr :
  reach (exec agents) (make count) s tr -> s64_min <= count -> in_range count tr -> exact count s tr.
Proof.
  intros Hr Hc0. revert s tr Hr.
  apply (reach_inv (exec agents) (fun s tr => in_range count tr -> exact count s tr)).
  - intros (_ & _ & Hc). apply exact_init. lia.
  - intros s tr l s' ev IH He Hrange. specialize (IH (in_range_app _ _ _ Hrange)).
    destruct l as [t n|t|t sp]; unfold exec in He.
    + by eapply exact_count_down.
    + by apply (exact_event agents count s tr _ s' ev IH He).
    + by apply (exact_event agents count s tr _ s' ev IH He).
Qed.

(** The event inside the latch behaves as a coro::event on its own. *)
Definition ev_of (e : event) : option Event.event := match e with Ev e' => Some e' | _ => None end.

Lemma omap_ev_of_map ev : omap ev_of (map Ev ev) = ev.
Proof. induction ev as [|e ev IH]; [done|]. cbn. f_equal. exact IH. Qed.

Lemma latch_event_reach agents count s tr :
  reach (exec agents) (make count) s tr ->
  reach (Event.exec agents) (Event.make (count <=? 0)) (m_event s) (omap ev_of tr).
Proof.
  revert s tr. apply (reach_inv (exec agents) (fun s tr =>
    reach (Event.exec agents) (Event.make (count <=? 0)) (m_event s) (omap ev_of tr))); [constructor|].
  intros s tr l s' ev IH He. rewrite omap_app.
  assert (forall c l' s' ev, lift c (Event.exec agents l' (m_event s)) = Some (s', ev) ->
    reach (Event.exec agents) (Event.make (count <=? 0)) (m_event s') (omap ev_of tr ++ omap ev_of ev)) as Hlift.
  { clear s' ev He. intros c l' s' ev Hl. unfold lift in Hl.
    destruct (Event.exec agents l' (m_event s)) as [[e' ev']|] eqn:He'; [|done]. simplify_eq.
    rewrite omap_ev_of_map. by eapply reach_step. }
  destruct l as [t n|t|t sp]; unfold exec in He; [|by eapply Hlift..].
  unfold count_down in He.
  destruct (lift _ _) as [[s1 ev1]|] eqn:Hl; [|done]. case_match; simplify_eq; cbn [omap list_omap ev_of]; [by eapply Hlift|].
  simpl. by rewrite app_nil_r.
Qed.

(** The latch opens exactly at zero: while fewer than [count] have been
    counted down nobody passes it (no await returns, no waiter is resumed), and
    as soon as [count] have been counted the event is set or about to be. *)
Theorem latch_opens_exactly_at_zero agents count s tr :
  reach (exec agents) (make count) s tr -> s64_min <= count -> in_range count tr ->
  m_count s = count - total tr /\
  (count <= total tr -> opened (m_event s)) /\
  (total tr < count -> is_ready s = false /\ Forall (fun e => ~ passes e) tr).
Proof.
  intros Hr Hc Hrange. destruct (reach_exact _ _ _ _ Hr Hc Hrange) as (Hm & Ho & Hcl).
  split; [done|]. split; [done|]. intros Ht. destruct (Hcl Ht) as [[Hst _] Hf]. split; [|done].
  unfold is_ready, Event.is_set. by apply bool_decide_eq_false.
Qed.

(** One coroutine waits on a latch of two, two others count down. *)
Definition two_down : list label :=
  [Await 2%nat; Step 2%nat false; Step 2%nat false; Step 2%nat false; CountDown 0%nat 1; CountDown 1%nat 1;
   Step 1%nat false; Step 1%nat false; Step 1%nat false; Step 1%nat false].

Lemma latch_opens_exactly_at_zero_witness :
  exists s tr, run (exec 3) two_down (make 2) = Some (s, tr) /\ total tr = 2 /\
    m_count s = 2 - total tr /\ opened (m_event s).
Proof.
  destruct (run (exec 3) two_down (make 2)) as [[s tr]|] eqn:Hrun; [|vm_compute in Hrun; discriminate].
  assert (in_range 2 tr /\ total tr = 2) as [Hrange Ht].
  { vm_compute in Hrun. simplify_eq. repeat split; try (by vm_compute). repeat constructor; by vm_compute. }
  destruct (latch_opens_exactly_at_zero 3 2 s tr) as (Hm & Ho & _);
    [exact (run_reach _ _ _ _ _ Hrun)|by vm_compute|done|].
  exists s, tr. repeat split; auto. apply Ho. rewrite Ht. reflexivity.
Defined.

(** Once [count] have been counted down and the count_down calls have
    returned, the latch is ready and no coroutine is left suspended on it. *)
Theorem latch_releases_all_waiters agents count s tr :
  reach (exec agents) (make count) s tr -> s64_min <= count -> in_range count tr ->
  count <= total tr -> (forall t, ~ setting (Event.pcs (m_event s) t)) ->
  is_ready s = true /\ forall w, Event.pcs (m_event s) w <> Event.Suspended.
Proof.
  intros Hr Hc Hrange Ht Hq. destruct (reach_exact _ _ _ _ Hr Hc Hrange) as (_ & Ho & _).
  pose proof (opened_quiet _ (Ho Ht) Hq) as Hset.
  split; [unfold is_ready, Event.is_set; by apply bool_decide_eq_true|].
  apply (set_no_suspended agents (count <=? 0) (m_event s) (omap ev_of tr)); [by apply latch_event_reach|done|done].
Qed.

Lemma latch_releases_all_waiters_witness :
  exists s tr, run (exec 3) two_down (make 2) = Some (s, tr) /\
    is_ready s = true /\ forall w, Event.pcs (m_event s) w <> Event.Suspended.
Proof.
  destruct (run (exec 3) two_down (make 2)) as [[s tr]|] eqn:Hrun; [|vm_compute in Hrun; discriminate].
  assert (in_range 2 tr /\ 2 <= total tr /\ forall t, ~ setting (Event.pcs (m_event s) t)) as (Hrange & Ht & Hq).
  { vm_compute in Hrun. simplify_eq. repeat split; try (by vm_compute); [repeat constructor; by vm_compute|].
    intros [|[|[|t]]]; by vm_compute. }
  exists s, tr. split; [done|].
  apply (latch_releases_all_waiters 3 2 s tr); [exact (run_reach _ _ _ _ _ Hrun)|by vm_compute|done..].
Defined.
End Latch.
