(* ===== verification/TaskGroup.v ===== *)
(** * coro::task_group (include/coro/task_group.hpp)

    A counter of alive tasks and a coro::event that is set when it drops to
    zero.  start() is three steps (the reset of the event, the increment, the
    call of the executor), which interleave with the count_down() of tasks that
    complete on the executor's threads.  The executor is code behind the
    [concepts::executor] interface: whether [resume()] accepts the task is the
    [accepted] flag of a label. *)
From stdpp Require Import base list relations option numbers.
From Stdlib Require Import ZArith Lia.
From S2P Require Import Prelude AwaiterList Event EventClient.
Import EventClient.

Module TaskGroup.
Local Open Scope Z_scope.
#[local] Existing Instance Event.pc_eq_dec.

(** Inside start(): before the fetch_add, before [m_executor->resume]. *)
Inductive pc := Idle | StartAdd | StartKick.

#[export] Instance tg_pc_eq_dec : EqDecision pc.
Proof. solve_decision. Defined.

Record state := mk_state {
  m_size : Z;                          (* std::atomic<uint64_t> *)
  m_on_empty_event : Event.state;
  pcs : nat -> pc;
  alive : nat                          (* tasks the executor has and that have not completed *)
}.

(** The member initialisers: no task, the event set. *)
Definition init : state := mk_state 0 (Event.make true) (fun _ => Idle) 0.

Definition size (s : state) : Z := m_size s.
Definition empty (s : state) : bool := size s =? 0.

Inductive label :=
| Start (t : nat)                      (* start(): m_on_empty_event.reset() *)
| Add (t : nat)                        (* start(): m_size.fetch_add *)
| Kick (t : nat) (accepted : bool)     (* start(): m_executor->resume *)
| Complete (t : nat)                   (* a task completes on thread t *)
| Await (t : nat)
| Step (t : nat) (spurious : bool).

Inductive event :=
| Added (t : nat)
| Started (t : nat) (accepted : bool)  (* start() returned *)
| Ev (e : Event.event).

Definition lift (s : state) (r : option (Event.state * list Event.event)) : option (state * list event) :=
  match r with
  | Some (e, ev) => Some (mk_state (m_size s) e (pcs s) (alive s), map Ev ev)
  | None => None
  end.

Definition set_pc (s : state) (t : nat) (p : pc) : state :=
  mk_state (m_size s) (m_on_empty_event s) ((pcs s).[t ↦ p]) (alive s).

(** count_down(): the fetch_sub, and set() when the old value was 1. *)
Definition count_down (agents t : nat) (s : state) : option (state * list event) :=
  let old := m_size s in
  let s' := mk_state (u64 (old - 1)) (m_on_empty_event s) (pcs s) (alive s) in
  if old =? 1 then
    lift s' (Event.exec agents (Event.Call t (Event.Set_ Event.lifo)) (m_on_empty_event s'))
  else Some (s', []).

(** Thread [t] can call into the group: it is not inside another call. *)
Definition ready (agents : nat) (s : state) (t : nat) : bool :=
  bool_decide (t < agents)%nat && bool_decide (pcs s t = Idle) &&
  bool_decide (Event.pcs (m_on_empty_event s) t = Event.Idle).

(** start() *)
Definition start (agents t : nat) (l : label) (s : state) : option (state * list event) :=
  match l, pcs s t with
  | Start _, Idle =>
      if ready agents s t then
        lift (set_pc s t StartAdd) (Event.exec agents (Event.Call t Event.Reset) (m_on_empty_event s))
      else None
  | Add _, StartAdd =>
      Some (set_pc (mk_state (u64 (m_size s + 1)) (m_on_empty_event s) (pcs s) (alive s)) t StartKick,
            [Added t])
  | Kick _ true, StartKick =>
      Some (set_pc (mk_state (m_size s) (m_on_empty_event s) (pcs s) (S (alive s))) t Idle,
            [Started t true])
  | Kick _ false, StartKick =>
      match count_down agents t (set_pc s t Idle) with
      | Some (s', ev) => Some (s', ev ++ [Started t false])
      | None => None
      end
  | _, _ => None
  end.

Definition exec (agents : nat) (l : label) (s : state) : option (state * list event) :=
  match l with
  | Start t | Add t | Kick t _ => start agents t l s
  | Complete t =>
      match alive s with
      | 0%nat => None
      | S n =>
          if ready agents s t then
            count_down agents t (mk_state (m_size s) (m_on_empty_event s) (pcs s) n)
          else None
      end
  | Await t =>
      if ready agents s t then lift s (Event.exec agents (Event.Call t Event.Await) (m_on_empty_event s))
      else None
  | Step t spurious => lift s (Event.exec agents (Event.Step t spurious) (m_on_empty_event s))
  end.

(** ** Accounting *)

(** Threads inside start() between the increment and the executor. *)
Definition kicking (agents : nat) (s : state) : nat :=
  length (filter (fun t => pcs s t = StartKick) (seq 0 agents)).

Fixpoint added (tr : list event) : Z :=
  match tr with [] => 0 | Added _ :: tr' => 1 + added tr' | _ :: tr' => added tr' end.

Lemma added_app tr1 tr2 : added (tr1 ++ tr2) = added tr1 + added tr2.
Proof. induction tr1 as [|[] tr1 IH]; simpl; lia. Qed.

Lemma added_nonneg tr : 0 <= added tr.
Proof. induction tr as [|[] tr]; simpl; lia. Qed.

Lemma added_Ev ev : added (map Ev ev) = 0.
Proof. by induction ev. Qed.

(** Changing the control state of one thread changes the count by at most that
    thread. *)
Definition is_kick (p : pc) : nat := if decide (p = StartKick) then 1 else 0.

Lemma kicking_upd agents s t p sz e al :
  (t < agents)%nat ->
  (kicking agents (mk_state sz e ((pcs s).[t ↦ p]) al) + is_kick (pcs s t) =
   kicking agents s + is_kick p)%nat.
Proof.
  intros Ht. unfold kicking. simpl.
  assert (seq 0 agents = seq 0 t ++ t :: seq (S t) (agents - S t)) as ->.
  { replace agents with (t + S (agents - S t))%nat at 1 by lia. by rewrite seq_app. }
  assert (forall l : list nat, t ∉ l -> filter (fun x => (pcs s).[t ↦ p] x = StartKick) l =
                        filter (fun x => pcs s x = StartKick) l) as Hext.
  { intros l. induction l as [|x l IH]; intros Hl; [done|].
    apply not_elem_of_cons in Hl as [Hx Hl]. rewrite !filter_cons, upd_ne, IH by done. done. }
  rewrite !list.filter_app, !length_app, !filter_cons, upd_eq, !Hext;
    [|by rewrite elem_of_seq; lia..].
  unfold is_kick. repeat case_decide; simpl; lia.
Qed.

(** Agents: only threads below [agents] are ever inside start(). *)
Record acct (agents : nat) (s : state) (tr : list event) : Prop := {
  acct_size : m_size s = Z.of_nat (alive s + kicking agents s);
  acct_bound : Z.of_nat (alive s + kicking agents s) <= added tr;
  acct_agents : forall t, pcs s t <> Idle -> (t < agents)%nat;
  acct_idle : forall t, pcs s t <> Idle -> Event.pcs (m_on_empty_event s) t = Event.Idle;
  acct_empty : m_size s = 0 -> opened (m_on_empty_event s) \/ exists t, pcs s t = StartAdd
}.

Lemma acct_init agents : acct agents init [].
Proof.
  assert (kicking agents init = 0%nat) as Hk.
  { unfold kicking. simpl. induction (seq 0 agents); [done|]. by rewrite filter_cons, decide_False. }
  constructor; simpl; rewrite ?Hk; try done. intros _. left. by left.
Qed.

(** A step of the event that neither sets nor resets it. *)
Lemma acct_event agents s tr l s' ev :
  acct agents s tr -> lift s (Event.exec agents l (m_on_empty_event s)) = Some (s', ev) ->
  (forall t, l <> Event.Call t Event.Reset) -> pcs s (agent_of l) = Idle ->
  acct agents s' (tr ++ ev).
Proof.
  intros [Hs Hb Ha Hi He] H Hl Ht. unfold lift in H.
  destruct (Event.exec agents l _) as [[e' ev']|] eqn:Hex; [|done]. simplify_eq.
  constructor; simpl; try done.
  - by rewrite added_app, added_Ev, Z.add_0_r.
  - intros t' Ht'. rewrite (event_frame _ _ _ _ _ t' Hex); [by apply Hi|congruence|].
    by rewrite Hi.
  - intros H0. destruct (He H0) as [Ho|?]; [left; by eapply opened_step|by right].
Qed.

(** count_down() of a thread outside start(), one task or one kick less. *)
Lemma acct_count_down agents s tr t s' ev sz al p :
  acct agents (mk_state sz (m_on_empty_event s) p al) tr -> sz <= u64_max ->
  m_size s = sz -> pcs s t = Idle ->
  (forall t', pcs s t' <> Idle -> pcs s t' = p t') -> (forall t', p t' = StartAdd -> pcs s t' = StartAdd) ->
  (alive s + kicking agents s + 1 = al + kicking agents (mk_state sz (m_on_empty_event s) p al))%nat ->
  count_down agents t s = Some (s', ev) ->
  acct agents s' (tr ++ ev) /\ added ev = 0.
Proof.
  intros [Hs Hb Ha Hi He] Hmax Hsz Ht Hp Hp' Hk H. simpl in *. unfold count_down in H.
  rewrite Hsz in H.
  assert (u64 (sz - 1) = sz - 1) as Hu by (apply u64_small; unfold u64_max in *; lia). rewrite Hu in H.
  destruct (Z.eqb_spec sz 1) as [->|Hne].
  - unfold lift in H. destruct (Event.exec agents _ _) as [[e' ev']|] eqn:Hex; [|done].
    pose proof Hex as Hex'. simpl in Hex. case_bool_decide; [|done].
    destruct (Event.pcs (m_on_empty_event s) t) eqn:Het; simplify_eq. simpl. split; [|done].
    rewrite app_nil_r. constructor; simpl.
    + unfold kicking in *. simpl in *. lia.
    + unfold kicking in *. simpl in *. lia.
    + intros t' Ht'. apply Ha. by rewrite <- Hp.
    + intros t' Ht'. rewrite upd_ne by congruence. apply Hi. by rewrite <- Hp.
    + intros _. left. right. exists t, Event.lifo. simpl. by rewrite upd_eq.
  - simplify_eq. split; [|done]. rewrite app_nil_r. constructor; simpl.
    + unfold kicking in *. simpl in *. lia.
    + unfold kicking in *. simpl in *. lia.
    + intros t' Ht'. apply Ha. by rewrite <- Hp.
    + intros t' Ht'. apply Hi. by rewrite <- Hp.
    + intros. unfold kicking in *. simpl in *. lia.
Qed.

Lemma ready_true agents s t :
  ready agents s t = true -> (t < agents)%nat /\ pcs s t = Idle /\ Event.pcs (m_on_empty_event s) t = Event.Idle.
Proof.
  unfold ready. rewrite !andb_true_iff, !bool_decide_eq_true. tauto.
Qed.

Lemma state_eta s : mk_state (m_size s) (m_on_empty_event s) (pcs s) (alive s) = s.
Proof. by destruct s. Qed.

Lemma acct_start agents t l s tr s' ev :
  acct agents s tr -> start agents t l s = Some (s', ev) -> added (tr ++ ev) <= u64_max ->
  acct agents s' (tr ++ ev).
Proof.
  intros Hacct H Hmax. pose proof Hacct as [Hs Hb Ha Hi He]. unfold start in H.
  rewrite added_app in Hmax.
  destruct l as [?|?|? []|?|?|? ?], (pcs s t) eqn:Ht; try done.
  - destruct (ready agents s t) eqn:Hr; [|done]. apply ready_true in Hr as (Hta & _ & Het).
    simpl in H. rewrite bool_decide_true, Het in H by done. simpl in H. simplify_eq.
    rewrite app_nil_r. pose proof (kicking_upd agents s t StartAdd (m_size s)
      (Event.reset (m_on_empty_event s)) (alive s) Hta) as Hk.
    rewrite Ht in Hk. unfold is_kick in Hk. simpl in Hk.
    assert (Event.pcs (Event.reset (m_on_empty_event s)) = Event.pcs (m_on_empty_event s)) as Hpe
      by (unfold Event.reset; by destruct (Event.is_set _)).
    constructor; simpl; rewrite ?Hpe; try lia.
    + intros t'. upd_cases; [done|apply Ha].
    + intros t'. upd_cases; [done|apply Hi].
    + intros _. right. exists t. by rewrite upd_eq.
  - simplify_eq. simpl in Hmax.
    assert (t < agents)%nat as Hta by (apply Ha; congruence).
    pose proof (kicking_upd agents s t StartKick (u64 (m_size s + 1)) (m_on_empty_event s) (alive s) Hta) as Hk.
    rewrite Ht in Hk. unfold is_kick in Hk. simpl in Hk.
    assert (u64 (m_size s + 1) = m_size s + 1) as Hu by (apply u64_small; unfold u64_max in *; lia).
    constructor; unfold set_pc; simpl; rewrite ?added_app, ?Hu in *; simpl; try lia.
    + intros t'. upd_cases; [done|apply Ha].
    + intros t'. upd_cases; [intros _; apply Hi; congruence|apply Hi].
  - simplify_eq. assert (t < agents)%nat as Hta by (apply Ha; congruence).
    pose proof (kicking_upd agents s t Idle (m_size s) (m_on_empty_event s) (S (alive s)) Hta) as Hk.
    rewrite Ht in Hk. unfold is_kick in Hk. simpl in Hk.
    constructor; unfold set_pc; simpl; rewrite ?added_app; simpl; try lia.
    + intros t'. upd_cases; [done|apply Ha].
    + intros t'. upd_cases; [done|apply Hi].
  - assert (t < agents)%nat as Hta by (apply Ha; congruence).
    pose proof (kicking_upd agents s t Idle (m_size s) (m_on_empty_event s) (alive s) Hta) as Hk.
    rewrite Ht in Hk. unfold is_kick in Hk. simpl in Hk.
    destruct (count_down agents t (set_pc s t Idle)) as [[s1 ev1]|] eqn:Hcd; [|done]. simplify_eq.
    destruct (acct_count_down agents (set_pc s t Idle) tr t s' ev1 (m_size s) (alive s) (pcs s)) as [Hac Hz];
      simpl; rewrite ?state_eta; try done; try lia.
    + pose proof (added_nonneg (ev1 ++ [Started t false])). lia.
    + by rewrite upd_eq.
    + intros t'. by upd_cases.
    + intros t'. upd_cases; congruence.
    + unfold set_pc. lia.
    + rewrite app_assoc. destruct Hac as [Hs' Hb' Ha' Hi' He']. constructor; try done.
      rewrite added_app. simpl. lia.
Qed.

Lemma acct_step agents l s tr s' ev :
  acct agents s tr -> exec agents l s = Some (s', ev) -> added (tr ++ ev) <= u64_max ->
  acct agents s' (tr ++ ev).
Proof.
  intros Hacct H Hmax. pose proof Hacct as [Hs Hb Ha Hi He].
  destruct l as [t|t|t b|t|t|t sp]; unfold exec in H; try by eapply acct_start.
  - destruct (alive s) as [|n] eqn:Hal; [done|].
    destruct (ready agents s t) eqn:Hr; [|done]. apply ready_true in Hr as (Hta & Ht & Het).
    assert (kicking agents (mk_state (m_size s) (m_on_empty_event s) (pcs s) n) = kicking agents s) as Hk by done.
    rewrite added_app in Hmax.
    pose proof (added_nonneg ev).
    eapply (acct_count_down agents _ tr t s' ev (m_size s) (S n) (pcs s)); [..|exact H]; simpl;
      rewrite <- ?Hal, ?state_eta; try done; [lia|]. rewrite Hk. lia.
  - destruct (ready agents s t) eqn:Hr; [|done]. apply ready_true in Hr as (Hta & Ht & Het).
    by eapply (acct_event agents s tr _ s' ev Hacct H).
  - eapply (acct_event agents s tr _ s' ev Hacct H); [done|]. simpl.
    destruct (decide (pcs s t = Idle)) as [|Hne]; [done|]. apply Hi in Hne.
    unfold lift in H. simpl in H. by rewrite Hne in H.
Qed.

Lemma reach_acct agents s tr :
  reach (exec agents) init s tr -> added tr <= u64_max -> acct agents s tr.
Proof.
  revert s tr. apply (reach_inv (exec agents) (fun s tr => added tr <= u64_max -> acct agents s tr)).
  - intros _. apply acct_init.
  - intros s tr l s' ev IH He Hmax. eapply acct_step; [apply IH|done|done].
    rewrite added_app in Hmax. pose proof (added_nonneg ev). lia.
Qed.

(** The event inside the group is a coro::event. *)
Lemma group_event_reach agents s tr :
  reach (exec agents) init s tr ->
  exists tr', reach (Event.exec agents) (Event.make true) (m_on_empty_event s) tr'.
Proof.
  revert s tr. apply (reach_inv (exec agents) (fun s _ =>
    exists tr', reach (Event.exec agents) (Event.make true) (m_on_empty_event s) tr')).
  - exists []. constructor.
  - intros s _ l s' ev [tr' IH] He.
    assert (forall s1 l' s' ev, m_on_empty_event s1 = m_on_empty_event s ->
      lift s1 (Event.exec agents l' (m_on_empty_event s1)) = Some (s', ev) ->
      exists tr', reach (Event.exec agents) (Event.make true) (m_on_empty_event s') tr') as Hlift.
    { clear s' ev He. intros s1 l' s' ev Heq Hl. unfold lift in Hl.
      destruct (Event.exec agents l' (m_on_empty_event s1)) as [[e' ev']|] eqn:Hex; [|done].
      simplify_eq. rewrite Heq in Hex. exists (tr' ++ ev'). by eapply reach_step. }
    assert (forall s1 t s' ev, m_on_empty_event s1 = m_on_empty_event s ->
      count_down agents t s1 = Some (s', ev) ->
      exists tr', reach (Event.exec agents) (Event.make true) (m_on_empty_event s') tr') as Hcd.
    { clear s' ev He. intros s1 t s' ev Heq Hc. unfold count_down in Hc. case_match.
      - eapply Hlift; [|exact Hc]. done.
      - simplify_eq. simpl. rewrite Heq. eauto. }
    destruct l as [t|t|t b|t|t|t sp]; unfold exec, start in He.
    + destruct (pcs s t); try done. case_match; [|done].
      by apply (Hlift (set_pc s t StartAdd) _ s' ev eq_refl He).
    + destruct (pcs s t); try done. simplify_eq. eauto.
    + destruct b, (pcs s t); try done; [simplify_eq; eauto|].
      destruct (count_down _ _ _) as [[s1 ev1]|] eqn:Hc; [|done]. simplify_eq.
      by apply (Hcd (set_pc s t Idle) t s' ev1).
    + case_match; [done|]. case_match; [|done]. eapply Hcd; [|exact He]. done.
    + case_match; [|done]. by eapply Hlift.
    + by eapply Hlift.
Qed.

(** Accounting: size() is the number of tasks handed to the executor that have
    not completed, plus the start() calls that are about to hand theirs over;
    it never underflows. *)
Theorem task_group_size agents s tr :
  reach (exec agents) init s tr -> added tr <= u64_max ->
  size s = Z.of_nat (alive s + kicking agents s) /\
  (empty s = true -> alive s = 0%nat /\ kicking agents s = 0%nat).
Proof.
  intros Hr Hmax. destruct (reach_acct _ _ _ Hr Hmax) as [Hs _ _ _ _]. unfold empty, size.
  split; [done|]. intros H%Z.eqb_eq. lia.
Qed.

(** Thread 0 starts a task, 2 waits, 1 completes the task and resumes 2. *)
Definition start_wait_complete : list label :=
  [Start 0; Add 0; Kick 0 true; Await 2; Step 2 false; Step 2 false; Step 2 false;
   Complete 1; Step 1 false; Step 1 false; Step 1 false; Step 1 false]%nat.

Lemma task_group_size_witness :
  exists s tr, run (exec 3) (take 3 start_wait_complete) init = Some (s, tr) /\
    size s = Z.of_nat (1 + 0) /\ alive s = 1%nat.
Proof.
  destruct (run (exec 3) (take 3 start_wait_complete) init) as [[s tr]|] eqn:Hrun;
    [|vm_compute in Hrun; discriminate].
  destruct (task_group_size 3 s tr) as [Hs _]; [exact (run_reach _ _ _ _ _ Hrun)|vm_compute in Hrun; by simplify_eq|].
  exists s, tr. split; [done|]. rewrite Hs. vm_compute in Hrun. by simplify_eq.
Defined.

(** No lost completion: when all tasks are done and no call is in progress the
    event is set and no coroutine is left suspended on the group. *)
Theorem task_group_all_waiters_released agents s tr :
  reach (exec agents) init s tr -> added tr <= u64_max -> empty s = true ->
  (forall t, pcs s t = Idle /\ ~ setting (Event.pcs (m_on_empty_event s) t)) ->
  Event.is_set (m_on_empty_event s) = true /\
  forall w, Event.pcs (m_on_empty_event s) w <> Event.Suspended.
Proof.
  intros Hr Hmax H%Z.eqb_eq Hq. destruct (reach_acct _ _ _ Hr Hmax) as [_ _ _ _ He].
  assert (opened (m_on_empty_event s)) as Ho.
  { destruct (He H) as [?|[t Ht]]; [done|]. destruct (Hq t). congruence. }
  pose proof (opened_quiet _ Ho ltac:(intros; apply Hq)) as Hset.
  split; [unfold Event.is_set; by apply bool_decide_eq_true|].
  destruct (group_event_reach _ _ _ Hr) as [tr' Hr'].
  eapply set_no_suspended; [done|done|]. intros; apply Hq.
Qed.

Lemma task_group_all_waiters_released_witness :
  exists s tr, run (exec 3) start_wait_complete init = Some (s, tr) /\
    Ev (Event.EvResume 1 2) ∈ tr /\ Event.is_set (m_on_empty_event s) = true /\
    forall w, Event.pcs (m_on_empty_event s) w <> Event.Suspended.
Proof.
  destruct (run (exec 3) start_wait_complete init) as [[s tr]|] eqn:Hrun;
    [|vm_compute in Hrun; discriminate].
  exists s, tr. split; [done|]. split.
  - vm_compute in Hrun. simplify_eq. set_solver.
  - apply (task_group_all_waiters_released 3 s tr); [exact (run_reach _ _ _ _ _ Hrun)|vm_compute in Hrun; by simplify_eq..|].
    vm_compute in Hrun. simplify_eq. intros [|[|[|t]]]; by vm_compute.
Defined.

(** The race in start(): the event is reset before the counter is incremented,
    so a task that completes in between sets it again.  After both calls of
    start() have returned true and with the second task still running, the
    group's event is set and a co_await of the group returns at once. *)
Theorem task_group_start_race :
  exists s tr, run (exec 2)
      [Start 0; Add 0; Kick 0 true;          (* start(A) *)
       Start 0;                              (* start(B): reset *)
       Complete 1; Step 1 false; Step 1 false; (* A completes: size 1 -> 0, set() *)
       Add 0; Kick 0 true;                   (* start(B): size 0 -> 1 *)
       Await 0; Step 0 false]%nat init = Some (s, tr) /\
    tr = [Added 0; Started 0 true; Added 0; Started 0 true; Ev (Event.EvContinue 0)]%nat /\
    size s = 1 /\ alive s = 1%nat /\ Event.is_set (m_on_empty_event s) = true.
Proof. eexists _, _. split; [vm_compute; reflexivity|]. repeat split. Qed.
End TaskGroup.

(** ** thread_pool::spawn_joinable and scheduler::spawn_joinable

    A group of one task, whose constructor starts it and drops the result, and a task that
    awaits the group. *)
Module SpawnJoinable.
Import TaskGroup.
Local Open Scope Z_scope.

(** task_group(executor, task), by thread [t]; [accepted] is the executor's answer *)
Definition make_group (agents t : nat) (accepted : bool) : option (state * list event) :=
  run (exec agents) [Start t; Add t; Kick t accepted] init.

(** The wait task and the task on the executor; nobody starts another one: the group belongs
    to the wait task. *)
Definition exec_joined (agents : nat) (l : label) (s : state) : option (state * list event) :=
  match l with Start _ => None | _ => exec agents l s end.

(** ~task_group: the loop ends when size() is zero *)
Definition destructor_returns (s : state) : bool := empty s.

(** The co_await of the group has returned. *)
Definition passes (e : event) : Prop :=
  match e with Ev (Event.EvContinue _) | Ev (Event.EvResume _ _) => True | _ => False end.

(** While the task runs nobody passes. *)
Definition joined_inv (s : state) (tr : list event) : Prop :=
  (forall t, pcs s t = Idle) /\
  (alive s = 1%nat /\ m_size s = 1 /\ closed (m_on_empty_event s) /\ Forall (fun e => ~ passes e) tr \/
   alive s = 0%nat /\ m_size s = 0).

Lemma joined_event agents l s tr s' ev :
  joined_inv s tr -> lift s (Event.exec agents l (m_on_empty_event s)) = Some (s', ev) ->
  (forall t p, l <> Event.Call t (Event.Set_ p)) -> joined_inv s' (tr ++ ev).
Proof.
  intros [Hp Hi] H Hl. unfold lift in H. destruct (Event.exec agents l _) as [[e' ev']|] eqn:Hex; [|done]. simplify_eq.
  split; [done|]. destruct Hi as [(Ha & Hs & Hc & Hf)|(Ha & Hs)]; [left|by right].
  destruct (closed_step _ _ _ _ _ Hc Hex Hl) as [Hc' Ho]. split_and!; [done..|]. apply Forall_app. split; [done|].
  apply List.Forall_map. eapply list.Forall_impl; [exact Ho|]. intros []; simpl; tauto.
Qed.

Lemma joined_step agents l s tr s' ev :
  joined_inv s tr -> exec_joined agents l s = Some (s', ev) -> joined_inv s' (tr ++ ev).
Proof.
  intros Hinv H. pose proof Hinv as [Hp Hi].
  destruct l as [t|t|t b|t|t|t sp]; cbn -[lift Event.exec ready count_down] in H; rewrite ?Hp in H; try done.
  - by destruct b.
  - destruct Hi as [(Ha & Hs & Hc & Hf)|(Ha & Hs)]; rewrite Ha in H; [|done].
    destruct (ready agents s t) eqn:Hr; [|done]. unfold count_down in H. cbn in H. rewrite Hs in H. cbn in H.
    unfold lift in H. repeat (case_match; try done); simplify_eq; (split; [done|by right]).
  - destruct (ready agents s t); [|done]. by eapply joined_event.
  - by eapply joined_event.
Qed.

(** The join task completes only after the spawned task: whatever the threads do, the
    co_await of the group does not return while the executor has the task. *)
Theorem spawn_joinable_waits agents t s0 tr0 s tr :
  make_group agents t true = Some (s0, tr0) -> reach (exec_joined agents) s0 s tr ->
  (alive s <= 1)%nat /\ (Exists passes tr -> alive s = 0%nat /\ size s = 0).
Proof.
  intros H0 Hr. assert (joined_inv s0 []) as Hi0.
  { revert H0. unfold make_group. cbn. destruct (ready agents init t) eqn:Hrd; [|done].
    apply ready_true in Hrd as (Ht & _ & _). rewrite bool_decide_true by done. cbn. rewrite !upd_eq. cbn. rewrite !upd_eq. cbn.
    intros [= <- <-]. split.
    - intros x. cbn. by upd_cases.
    - left. split; [done|]. split; [done|]. split; [|done]. split; [done|]. by intros x []. }
  assert (joined_inv s tr) as [_ [(Ha & Hs & _ & Hf)|(Ha & Hs)]].
  { revert s tr Hr. apply (reach_inv (exec_joined agents) joined_inv); [done|]. intros; by eapply joined_step. }
  - split; [lia|]. intros Hx. exfalso. apply Exists_exists in Hx as (e & He & Hpe).
    rewrite Forall_forall in Hf. by apply (Hf e).
  - split; [lia|]. intros _. unfold size. lia.
Qed.

Definition join_run : list label :=
  [Await 2; Step 2 false; Step 2 false; Step 2 false; Complete 1; Step 1 false; Step 1 false; Step 1 false; Step 1 false]%nat.

Lemma spawn_joinable_waits_witness :
  exists s0 tr0 s tr, make_group 3 0 true = Some (s0, tr0) /\ run (exec_joined 3) join_run s0 = Some (s, tr) /\
    Exists passes tr /\ alive s = 0%nat.
Proof.
  destruct (make_group 3 0 true) as [[s0 tr0]|] eqn:E0; [|vm_compute in E0; discriminate].
  destruct (run (exec_joined 3) join_run s0) as [[s tr]|] eqn:E; [|vm_compute in E0; injection E0 as <- _; vm_compute in E; discriminate].
  exists s0, tr0, s, tr. split; [reflexivity|]. split; [exact E|].
  assert (Exists passes tr) as Hx.
  { vm_compute in E0. injection E0 as <- _. vm_compute in E. injection E as _ <-. repeat (first [by apply Exists_cons_hd | apply Exists_cons_tl]). }
  split; [exact Hx|]. exact (proj1 (proj2 (spawn_joinable_waits 3 0 s0 tr0 s tr E0 (run_reach _ _ _ _ _ E)) Hx)).
Defined.

(** An executor that is shut down refuses the task, and the constructor drops that: the join
    task completes although the task has never run. *)
Theorem spawn_joinable_refused_completes :
  exists s0 tr0 s tr, make_group 2 0 false = Some (s0, tr0) /\
    run (exec_joined 2) [Step 0 false; Step 0 false; Await 1; Step 1 false]%nat s0 = Some (s, tr) /\
    Exists passes tr /\ Started 0 false ∈ tr0.
Proof.
  do 4 eexists. split; [vm_compute; reflexivity|]. split; [vm_compute; reflexivity|]. split.
  - repeat (first [by apply Exists_cons_hd | apply Exists_cons_tl]).
  - set_solver.
Qed.

(** Dropping the join task runs ~task_group, which watches the counter only: it returns, and
    the event is destroyed, while the thread that counted down to zero has still to set it. *)
Theorem task_group_destructor_race :
  exists s0 tr0 s tr, make_group 2 0 true = Some (s0, tr0) /\
    run (exec_joined 2) [Complete 1]%nat s0 = Some (s, tr) /\
    destructor_returns s = true /\ setting (Event.pcs (m_on_empty_event s) 1%nat) /\
    exec_joined 2 (Step 1 false)%nat s <> None.
Proof.
  do 4 eexists. split; [vm_compute; reflexivity|]. split; [vm_compute; reflexivity|].
  split_and!; [reflexivity|vm_compute; eauto|by vm_compute].
Qed.
End SpawnJoinable.
