(* ===== verification/Mutex.v ===== *)
(** * coro::mutex and coro::scoped_lock (include/coro/mutex.hpp, src/mutex.cpp)

    [Mutex] is the code at the granularity of its atomic accesses; [AbsMutex] is
    the contract its clients rely on (an owner and a stack of waiters) and the
    class [Lock] is the interface the client components are proved against;
    [mutex_refines] shows that the code implements the contract. *)
From stdpp Require Import base list relations option numbers.
From S2P Require Import Prelude.

(** ** The contract *)

(** What a component that guards its state with a mutex uses of it.  A critical
    section is entered in two moves: the request ([lk_lock]) takes the mutex or
    queues the coroutine, and the body runs once the coroutine is the holder. *)
Class Lock (M : Type) := {
  lk_init : M;
  lk_holder : M -> option nat;
  lk_waits : nat -> M -> Prop;
  lk_lock : nat -> M -> M;            (* co_await lock(): take the mutex or queue up *)
  lk_unlock : nat -> M -> M;          (* unlock() by the holder *)
  lk_init_free : lk_holder lk_init = None;
  lk_lock_free t m : lk_holder m = None -> lk_holder (lk_lock t m) = Some t;
  lk_lock_held t m o : lk_holder m = Some o ->
    lk_holder (lk_lock t m) = Some o /\ lk_waits t (lk_lock t m);
  lk_unlock_next t m : lk_holder m = Some t ->
    match lk_holder (lk_unlock t m) with
    | None => forall w, ~ lk_waits w m
    | Some w => lk_waits w m
    end
}.

Module AbsMutex.

Record state := mk { owner : option nat; waiters : list nat }.

Definition init : state := mk None [].

Inductive label :=
| Acquire (t : nat)     (* the mutex is free, [t] takes it *)
| Enqueue (t : nat)     (* the mutex is held, [t] suspends on top of the stack *)
| Release (t : nat)     (* the owner finds no waiter *)
| Handoff (t : nat).    (* the owner passes the mutex to the top of the stack *)

Inductive event := Acquired (t : nat) | Queued (t : nat) | Released (t : nat) | Handed (t w : nat).

Definition exec (l : label) (s : state) : option (state * list event) :=
  match l, owner s with
  | Acquire t, None => Some (mk (Some t) (waiters s), [Acquired t])
  | Enqueue t, Some _ => Some (mk (owner s) (t :: waiters s), [Queued t])
  | Release t, Some o =>
      if bool_decide (o = t) && bool_decide (waiters s = []) then Some (mk None [], [Released t])
      else None
  | Handoff t, Some o =>
      if bool_decide (o = t) then
        match waiters s with w :: ws => Some (mk (Some w) ws, [Handed t w]) | [] => None end
      else None
  | _, _ => None
  end.

(** lock(): take the free mutex, or suspend on the stack of waiters. *)
Definition lock (t : nat) (s : state) : state :=
  match exec (Acquire t) s, exec (Enqueue t) s with
  | Some (s', _), _ => s'
  | None, Some (s', _) => s'
  | None, None => s
  end.

(** unlock(): hand over to the most recent waiter, or release. *)
Definition unlock (t : nat) (s : state) : state :=
  match exec (Handoff t) s, exec (Release t) s with
  | Some (s', _), _ => s'
  | None, Some (s', _) => s'
  | None, None => s
  end.

#[export] Program Instance abs_lock : Lock state := {|
  lk_init := init;
  lk_holder := owner;
  lk_waits t s := t ∈ waiters s;
  lk_lock := lock;
  lk_unlock := unlock
|}.
Next Obligation. done. Qed.
Next Obligation. intros t [[o|] ws] H; by simplify_eq/=. Qed.
Next Obligation. intros t [[o'|] ws] o H; simplify_eq/=. split; [done|by left]. Qed.
Next Obligation.
  intros t [[o|] [|w ws]] H; simplify_eq/=; unfold unlock; simpl; rewrite bool_decide_true by done; simpl.
  - intros w. apply not_elem_of_nil.
  - by left.
Qed.
End AbsMutex.

(** ** The code *)

Module Mutex.

(** The [void*] in [m_state]: [unlocked_value()] or a [lock_operation_base*]. *)
Inductive mx_state := Unlocked | Locked (head : option nat).

#[export] Instance mx_state_eq_dec : EqDecision mx_state.
Proof. solve_decision. Defined.

Inductive pc :=
| Idle
| TryLock                             (* mutex::try_lock called directly *)
| LockReady                           (* lock_operation_base::await_ready *)
| LockLoad                            (* await_suspend: the load *)
| LockCas (current : mx_state)        (* await_suspend: the exchange for [current] *)
| Waiting                             (* suspended in the waiter list *)
| Holding
| UnlockLoad                          (* mutex::unlock: the load *)
| UnlockCas                           (* no waiters seen: exchange to unlocked *)
| PopLoad                             (* awaiter_list_pop: load *)
| PopRead (w : nat)                   (* awaiter_list_pop: waiter->m_next *)
| PopCas (w : nat) (nxt : option nat) (* awaiter_list_pop: exchange *)
| Resume (w : nat)                    (* waiter->m_awaiting_coroutine.resume() *)
| Crashed.                            (* dereferenced nullptr or a bad pointer *)

#[export] Instance mx_pc_eq_dec : EqDecision pc.
Proof. solve_decision. Defined.

Record state := mk_state {
  m_state : mx_state;
  next : nat -> option nat;   (* lock_operation_base::m_next *)
  pcs : nat -> pc
}.

(** mutex::mutex() *)
Definition init : state := mk_state Unlocked (fun _ => None) (fun _ => Idle).

Inductive call := CallLock | CallTryLock | CallUnlock.
Inductive label := Call (t : nat) (c : call) | Step (t : nat) (spurious : bool).
Inductive event :=
| TryFailed (t : nat)
| Throws (t : nat)          (* std::runtime_error: already unlocked *)
| Spec (e : AbsMutex.event).

Definition set_pc (s : state) (t : nat) (p : pc) : state :=
  mk_state (m_state s) (next s) ((pcs s).[t ↦ p]).
Definition set_mx (s : state) (m : mx_state) : state := mk_state m (next s) (pcs s).
Definition set_next (s : state) (t : nat) (v : option nat) : state :=
  mk_state (m_state s) ((next s).[t ↦ v]) (pcs s).

(** mutex::try_lock (a strong exchange) *)
Definition try_lock (s : state) : state * bool :=
  if bool_decide (m_state s = Unlocked) then (set_mx s (Locked None), true) else (s, false).

(** lock_operation_base::await_ready and await_suspend.  In the loop the value of
    [current] selects the branch; a waiter writes its own [m_next] before the
    exchange that publishes it. *)
Definition exec_lock (t : nat) (spurious : bool) (s : state) : option (state * list event) :=
  match pcs s t with
  | TryLock =>
      let '(s', ok) := try_lock s in
      if ok then Some (set_pc s' t Holding, [Spec (AbsMutex.Acquired t)])
      else Some (set_pc s' t Idle, [TryFailed t])
  | LockReady =>
      let '(s', ok) := try_lock s in
      if ok then Some (set_pc s' t Holding, [Spec (AbsMutex.Acquired t)])
      else Some (set_pc s' t LockLoad, [])
  | LockLoad => Some (set_pc s t (LockCas (m_state s)), [])
  | LockCas Unlocked =>
      if negb spurious && bool_decide (m_state s = Unlocked) then
        Some (set_pc (set_mx s (Locked None)) t Holding, [Spec (AbsMutex.Acquired t)])
      else Some (set_pc s t (LockCas (m_state s)), [])
  | LockCas (Locked p) =>
      let s1 := set_next s t p in
      if negb spurious && bool_decide (m_state s = Locked p) then
        Some (set_pc (set_mx s1 (Locked (Some t))) t Waiting, [Spec (AbsMutex.Queued t)])
      else Some (set_pc s1 t (LockCas (m_state s)), [])
  | _ => None
  end.

(** The tests at the head of the loop of mutex::unlock. *)
Definition unlock_test (t : nat) (current : mx_state) (s : state) : state * list event :=
  match current with
  | Unlocked => (set_pc s t Idle, [Throws t])
  | Locked None => (set_pc s t UnlockCas, [])
  | Locked (Some _) => (set_pc s t PopLoad, [])
  end.

(** awaiter_list_pop on [m_state] reinterpreted as a list head: a null head makes
    unlock() dereference nullptr. *)
Definition pop_test (t : nat) (current : mx_state) (s : state) : state * list event :=
  match current with
  | Locked (Some w) => (set_pc s t (PopRead w), [])
  | Locked None | Unlocked => (set_pc s t Crashed, [])
  end.

(** mutex::unlock *)
Definition exec_unlock (t : nat) (spurious : bool) (s : state) : option (state * list event) :=
  match pcs s t with
  | UnlockLoad => Some (unlock_test t (m_state s) s)
  | UnlockCas =>
      if negb spurious && bool_decide (m_state s = Locked None) then
        Some (set_pc (set_mx s Unlocked) t Idle, [Spec (AbsMutex.Released t)])
      else Some (unlock_test t (m_state s) s)
  | PopLoad => Some (pop_test t (m_state s) s)
  | PopRead w => Some (set_pc s t (PopCas w (next s w)), [])
  | PopCas w nxt =>
      if negb spurious && bool_decide (m_state s = Locked (Some w)) then
        Some (set_pc (set_mx s (Locked nxt)) t (Resume w), [Spec (AbsMutex.Handed t w)])
      else Some (pop_test t (m_state s) s)
  | Resume w =>
      if bool_decide (pcs s w = Waiting) then Some (set_pc (set_pc s t Idle) w Holding, [])
      else Some (set_pc s t Crashed, [])
  | _ => None
  end.

(** [Call t CallUnlock] is enabled for the holder, who is the only one allowed to
    unlock. *)
Definition exec (l : label) (s : state) : option (state * list event) :=
  match l with
  | Call t c =>
      match pcs s t, c with
      | Idle, CallLock => Some (set_pc s t LockReady, [])
      | Idle, CallTryLock => Some (set_pc s t TryLock, [])
      | Holding, CallUnlock => Some (set_pc s t UnlockLoad, [])
      | _, _ => None
      end
  | Step t spurious =>
      match pcs s t with
      | TryLock | LockReady | LockLoad | LockCas _ => exec_lock t spurious s
      | UnlockLoad | UnlockCas | PopLoad | PopRead _ | PopCas _ _ | Resume _ =>
          exec_unlock t spurious s
      | Idle | Waiting | Holding | Crashed => None
      end
  end.

(** ** Refinement *)

Definition owns (p : pc) : Prop :=
  match p with
  | Holding | UnlockLoad | UnlockCas | PopLoad | PopRead _ | PopCas _ _ => True
  | _ => False
  end.

(** Not involved with the lock yet: such a thread may change its control state
    and its own [m_next] freely. *)
Definition plain (p : pc) : Prop :=
  match p with Idle | TryLock | LockReady | LockLoad | LockCas _ => True | _ => False end.

Definition owner_ok (s : state) (a : AbsMutex.state) : Prop :=
  match AbsMutex.owner a with
  | None => m_state s = Unlocked /\ AbsMutex.waiters a = []
  | Some o =>
      (owns (pcs s o) \/ exists t, pcs s t = Resume o) /\ (o ∉ AbsMutex.waiters a) /\
      exists p, m_state s = Locked p /\ chain (next s) p (AbsMutex.waiters a)
  end.

Definition pc_ok (s : state) (a : AbsMutex.state) (t : nat) : Prop :=
  match pcs s t with
  | PopLoad => AbsMutex.waiters a <> []
  | PopRead w => w ∈ AbsMutex.waiters a
  | PopCas w nxt => w ∈ AbsMutex.waiters a /\ next s w = nxt
  | Resume w => AbsMutex.owner a = Some w /\ pcs s w = Waiting
  | Crashed => False
  | _ => True
  end.

Record R (s : state) (a : AbsMutex.state) : Prop := {
  R_owner : owner_ok s a;
  R_owns : forall t, owns (pcs s t) -> AbsMutex.owner a = Some t;
  R_resume : forall t1 t2 w, pcs s t1 = Resume w -> pcs s t2 = Resume w -> t1 = t2;
  R_wait : forall t, pcs s t = Waiting <-> (t ∈ AbsMutex.waiters a \/ exists t', pcs s t' = Resume t);
  R_pc : forall t, pc_ok s a t
}.

Lemma R_init : R init AbsMutex.init.
Proof.
  constructor; try done. intros t. split; [done|]. intros [Hin|[? ?]]; [simpl in Hin; no_nil|done].
Qed.

(** The steps of [t] that leave [m_state] and the waiters alone, and keep [t]
    on its side of ownership. *)
Lemma R_local s a t p nx :
  R s a -> ((plain (pcs s t) /\ plain p) \/ (owns (pcs s t) /\ owns p)) ->
  (forall x, x <> t -> nx x = next s x) -> (plain p \/ nx t = next s t) ->
  pc_ok (mk_state (m_state s) nx ((pcs s).[t ↦ p])) a t ->
  R (mk_state (m_state s) nx ((pcs s).[t ↦ p])) a.
Proof.
  intros [Ho Hown Hres Hwait Hpc] Hside Hnx Hnxt Hok.
  assert (pcs s t <> Waiting /\ p <> Waiting) as [Hnw Hpw].
  { split; intros Heq; rewrite Heq in Hside; by destruct Hside as [[? ?]|[? ?]]. }
  assert (forall w, pcs s t <> Resume w /\ p <> Resume w) as Hnr.
  { intros w. split; intros Heq; rewrite Heq in Hside; by destruct Hside as [[? ?]|[? ?]]. }
  assert (t ∉ AbsMutex.waiters a) as Htw by (intros Hin; apply Hnw, Hwait; by left).
  assert (forall x, x ∈ AbsMutex.waiters a -> nx x = next s x) as Hnx'.
  { intros x Hx. apply Hnx. by intros ->. }
  constructor; simpl.
  - unfold owner_ok in *. simpl. destruct (AbsMutex.owner a) as [o|] eqn:Hoa; [|done].
    destruct Ho as (Hor & Hno & q & Hm & Hch). split; [|split; [done|]].
    + destruct Hor as [Hor|[t' Ht']].
      * left. upd_cases; [|done]. by destruct Hside as [[Hpl _]|[_ ?]]; [destruct (pcs s t)|].
      * right. exists t'. upd_cases; [|done]. by destruct (Hnr o).
    + exists q. split; [done|]. by eapply chain_ext.
  - intros t'. upd_cases; [|apply Hown]. intros Hp. apply Hown.
    destruct Hside as [[_ ?]|[? _]]; [by destruct p|done].
  - intros t1 t2 w. upd_cases; try (by intros; destruct (Hnr w)). apply Hres.
  - intros t'. assert (forall w, (exists t', (pcs s).[t ↦ p] t' = Resume w) <->
                          exists t', pcs s t' = Resume w) as Heq.
    { intros w. split; intros [x Hx]; exists x; upd_cases; try done; by destruct (Hnr w). }
    rewrite Heq. upd_cases; [|apply Hwait]. split; [done|]. intros Hin. by apply Hwait in Hin.
  - intros t'. destruct (decide (t' = t)) as [->|Hne]; [done|].
    specialize (Hpc t'). unfold pc_ok in *. simpl. rewrite upd_ne by done.
    destruct (pcs s t') eqn:Ht'; try done.
    + destruct Hpc as [? <-]. split; [done|]. by apply Hnx'.
    + destruct Hpc as [? Hw]. split; [done|]. rewrite upd_ne; [done|]. by intros ->.
Qed.

Lemma R_unlocked s a : R s a -> m_state s = Unlocked -> a = AbsMutex.mk None [].
Proof.
  intros HR Hm. pose proof (R_owner _ _ HR) as Ho. unfold owner_ok in Ho.
  destruct a as [[o|] ws]; simpl in *; [|naive_solver].
  destruct Ho as (_ & _ & p & Hp & _). congruence.
Qed.

Lemma R_locked s a p : R s a -> m_state s = Locked p ->
  chain (next s) p (AbsMutex.waiters a) /\ exists o, AbsMutex.owner a = Some o /\ o ∉ AbsMutex.waiters a.
Proof.
  intros HR Hm. pose proof (R_owner _ _ HR) as Ho. unfold owner_ok in Ho.
  destruct (AbsMutex.owner a) as [o|]; [|destruct Ho; congruence].
  destruct Ho as (_ & ? & q & Hq & ?). simplify_eq. rewrite Hm in Hq. simplify_eq. eauto.
Qed.

Lemma R_acquire s a t :
  R s a -> m_state s = Unlocked -> plain (pcs s t) ->
  a = AbsMutex.mk None [] /\
  R (set_pc (set_mx s (Locked None)) t Holding) (AbsMutex.mk (Some t) []).
Proof.
  intros HR Hm Hp. pose proof (R_unlocked _ _ HR Hm) as ->. split; [done|].
  destruct HR as [Ho Hown Hres Hwait Hpc].
  assert (forall t' w, pcs s t' <> Resume w) as Hnr.
  { intros t' w Heq. specialize (Hpc t'). unfold pc_ok in Hpc. rewrite Heq in Hpc. by destruct Hpc. }
  assert (forall t', pcs s t' <> Waiting) as Hnw.
  { intros t' Heq. apply Hwait in Heq as [Hin|[t'' Ht'']]; [simpl in Hin; no_nil|by eapply Hnr]. }
  constructor; simpl.
  - unfold owner_ok. simpl. rewrite upd_eq. split; [by left|]. split; [apply not_elem_of_nil|eauto].
  - intros t'. upd_cases; [done|]. intros H'. by apply Hown in H'.
  - intros t1 t2 w. upd_cases; try done. intros H1. by destruct (Hnr t1 w).
  - intros t'. split.
    + destruct (decide (t' = t)) as [->|Hne]; [by rewrite upd_eq|]. rewrite upd_ne by done.
      intros Heq. by destruct (Hnw t').
    + intros [?|[x Hx]]; [no_nil|]. destruct (decide (x = t)) as [->|Hne].
      * by rewrite upd_eq in Hx.
      * rewrite upd_ne in Hx by done. by destruct (Hnr x t').
  - intros t'. specialize (Hpc t'). unfold pc_ok in *. simpl. upd_cases; [done|].
    destruct (pcs s t') eqn:Ht'; try done. by destruct (Hnr t' w).
Qed.

Lemma R_enqueue s a t p :
  R s a -> m_state s = Locked p -> plain (pcs s t) ->
  (exists o, AbsMutex.owner a = Some o) /\
  R (set_pc (set_mx (set_next s t p) (Locked (Some t))) t Waiting)
    (AbsMutex.mk (AbsMutex.owner a) (t :: AbsMutex.waiters a)).
Proof.
  intros HR Hm Hp. destruct (R_locked _ _ _ HR Hm) as (Hch & o & Hoa & Hno). split; [eauto|].
  destruct HR as [Ho Hown Hres Hwait Hpc]. unfold owner_ok in Ho. rewrite Hoa in Ho.
  destruct Ho as [Hor _].
  assert (pcs s t <> Waiting /\ ~ owns (pcs s t) /\ forall w, pcs s t <> Resume w) as (Hnw & Hnot & Hnr).
  { destruct (pcs s t); simpl in Hp; split_and?; done || tauto. }
  assert (t ∉ AbsMutex.waiters a) as Htw by (intros Hin; apply Hnw, Hwait; by left).
  assert (o <> t) as Hot.
  { intros ->. destruct Hor as [?|[t' Ht']]; [done|]. apply Hnw, Hwait. right. eauto. }
  assert (forall w, (exists x, (pcs s).[t ↦ Waiting] x = Resume w) <-> exists x, pcs s x = Resume w) as Hrw.
  { intros w. split; intros [x Hx]; exists x; upd_cases; try done. by destruct (Hnr w). }
  constructor; simpl.
  - unfold owner_ok. simpl. rewrite Hoa. split.
    + destruct Hor as [?|Hor]; [left; by rewrite upd_ne|right; by apply Hrw].
    + split; [by apply not_elem_of_cons|]. exists (Some t). split; [done|]. by apply chain_cons.
  - intros t'. upd_cases; [done|apply Hown].
  - intros t1 t2 w. upd_cases; try done. apply Hres.
  - intros t'. rewrite Hrw, elem_of_cons. upd_cases; [tauto|]. rewrite Hwait. tauto.
  - intros t'. specialize (Hpc t'). unfold pc_ok in *. simpl.
    destruct (decide (t' = t)) as [->|Hne]; [by rewrite upd_eq|]. rewrite upd_ne by done.
    destruct (pcs s t') eqn:Ht'; try done.
    + by right.
    + destruct Hpc as [? <-]. split; [by right|]. rewrite upd_ne; [done|]. by intros ->.
    + destruct Hpc as [? ?]. split; [done|]. rewrite upd_ne; [done|]. by intros ->.
Qed.

(** While [t] owns the lock nobody is being resumed. *)
Lemma R_no_resume s a t : R s a -> owns (pcs s t) -> forall t' w, pcs s t' <> Resume w.
Proof.
  intros HR Ht t' w Heq. pose proof (R_pc _ _ HR t') as Hpc. unfold pc_ok in Hpc.
  rewrite Heq in Hpc. destruct Hpc as [Ho Hw]. rewrite (R_owns _ _ HR _ Ht) in Ho.
  simplify_eq. by rewrite Hw in Ht.
Qed.

(** ... and every other control state is a waiter's or uninvolved. *)
Lemma R_others s a t t' : R s a -> owns (pcs s t) -> t' <> t -> plain (pcs s t') \/ pcs s t' = Waiting.
Proof.
  intros HR Ht Hne. pose proof (R_no_resume _ _ _ HR Ht t') as Hnr.
  pose proof (R_pc _ _ HR t') as Hpc. unfold pc_ok in Hpc.
  assert (~ owns (pcs s t')) as Hno.
  { intros Ho. apply (R_owns _ _ HR) in Ho, Ht. congruence. }
  destruct (pcs s t') eqn:Ht'; simpl in *; try tauto. by destruct (Hnr w).
Qed.

Lemma pc_ok_other s s' a' t' :
  plain (pcs s t') \/ pcs s t' = Waiting -> pcs s' t' = pcs s t' -> pc_ok s' a' t'.
Proof. intros H Heq. unfold pc_ok. rewrite Heq. by destruct H as [H|H]; destruct (pcs s t'). Qed.

Lemma R_release s a t :
  R s a -> owns (pcs s t) -> m_state s = Locked None ->
  a = AbsMutex.mk (Some t) [] /\ R (set_pc (set_mx s Unlocked) t Idle) (AbsMutex.mk None []).
Proof.
  intros HR Ht Hm. destruct (R_locked _ _ _ HR Hm) as (Hch & o & Ho & _).
  pose proof (fun t' => R_others s a t t' HR Ht) as Hoth.
  pose proof (R_no_resume _ _ _ HR Ht) as Hnr.
  rewrite (R_owns _ _ HR _ Ht) in Ho. simplify_eq. apply chain_None in Hch.
  split; [destruct a; simpl in *; subst; f_equal; by apply (R_owns _ _ HR)|].
  destruct HR as [_ Hown Hres Hwait Hpc]. rewrite Hch in Hwait.
  constructor; simpl; try done.
  - intros t'. destruct (decide (t' = o)) as [->|Hne]; [by rewrite upd_eq|].
    rewrite upd_ne by done. intros H'. destruct (Hoth t' Hne) as [?|Heq]; [by destruct (pcs s t')|].
    by rewrite Heq in H'.
  - intros t1 t2 w. upd_cases; try done. apply Hres.
  - intros t'. split.
    + destruct (decide (t' = o)) as [->|Hne]; [by rewrite upd_eq|]. rewrite upd_ne by done.
      intros Hw. apply Hwait in Hw as [?|[x Hx]]; [by left|by destruct (Hnr x t')].
    + intros [?|[x Hx]]; [no_nil|]. exfalso.
      destruct (decide (x = o)) as [->|?]; [by rewrite upd_eq in Hx|].
      rewrite upd_ne in Hx by done. by destruct (Hnr x t').
  - intros t'. destruct (decide (t' = o)) as [->|Hne]; [unfold pc_ok; simpl; by rewrite upd_eq|].
    apply (pc_ok_other s); [by apply Hoth|]. simpl. by rewrite upd_ne.
Qed.

Lemma R_handoff s a t w nxt :
  R s a -> pcs s t = PopCas w nxt -> m_state s = Locked (Some w) ->
  exists ws, a = AbsMutex.mk (Some t) (w :: ws) /\
    R (set_pc (set_mx s (Locked nxt)) t (Resume w)) (AbsMutex.mk (Some w) ws).
Proof.
  intros HR Ht Hm. destruct (R_locked _ _ _ HR Hm) as (Hch & o & Ho & _).
  assert (owns (pcs s t)) as Hot by (by rewrite Ht).
  pose proof (fun t' => R_others s a t t' HR Hot) as Hoth.
  pose proof (R_no_resume _ _ _ HR Hot) as Hnr.
  pose proof (R_pc _ _ HR t) as Hok. unfold pc_ok in Hok. rewrite Ht in Hok. destruct Hok as [_ Hnx].
  pose proof (R_owns _ _ HR _ Hot) as Hoa.
  pose proof (chain_NoDup _ _ _ Hch) as Hnd. apply chain_Some in Hch as (ws & Hws & Hch).
  rewrite Hnx in Hch. rewrite Hws in Hnd. apply list.NoDup_cons in Hnd as [Hwn Hnd].
  exists ws. split; [destruct a; simpl in *; congruence|].
  destruct HR as [_ Hown Hres Hwait Hpc]. rewrite Hws in Hwait.
  assert (pcs s w = Waiting) as Hw by (apply Hwait; left; by left).
  assert (w <> t) as Hwt by congruence.
  constructor; simpl.
  - unfold owner_ok. simpl. split; [right; exists t; by rewrite upd_eq|]. split; [done|eauto].
  - intros t'. destruct (decide (t' = t)) as [->|Hne]; [by rewrite upd_eq|].
    rewrite upd_ne by done. intros H'. destruct (Hoth t' Hne) as [?|Heq]; [by destruct (pcs s t')|].
    by rewrite Heq in H'.
  - intros t1 t2 x. upd_cases; try done; intros; try (by exfalso; eapply Hnr).
  - intros t'. assert ((exists x, (pcs s).[t ↦ Resume w] x = Resume t') <-> t' = w) as ->.
    { split; [intros [x Hx]|intros ->; exists t; by rewrite upd_eq].
      destruct (decide (x = t)) as [->|?]; [rewrite upd_eq in Hx; congruence|].
      rewrite upd_ne in Hx by done. by destruct (Hnr x t'). }
    destruct (decide (t' = t)) as [->|Hne].
    + rewrite upd_eq. split; [done|]. intros [Hin|?]; [|congruence].
      assert (pcs s t = Waiting) by (apply Hwait; left; by right). congruence.
    + rewrite upd_ne, Hwait, elem_of_cons by done. split; [intros [[?|?]|[x Hx]]|intros [?|?]]; auto.
      by destruct (Hnr x t').
  - intros t'. destruct (decide (t' = t)) as [->|Hne].
    + unfold pc_ok. simpl. rewrite upd_eq. split; [done|]. by rewrite upd_ne.
    + apply (pc_ok_other s); [by apply Hoth|]. simpl. by rewrite upd_ne.
Qed.

Lemma R_resumed s a t w :
  R s a -> pcs s t = Resume w -> pcs s w = Waiting /\ R (set_pc (set_pc s t Idle) w Holding) a.
Proof.
  intros HR Ht. destruct HR as [Ho Hown Hres Hwait Hpc].
  pose proof (Hpc t) as Hok. unfold pc_ok in Hok. rewrite Ht in Hok. destruct Hok as [Hoa Hw].
  split; [done|]. assert (w <> t) as Hwt by congruence.
  unfold owner_ok in Ho. rewrite Hoa in Ho. destruct Ho as (_ & Hwn & q & Hm & Hch).
  assert (forall t', owns (pcs s t') -> False) as Hno.
  { intros t' H'. pose proof (Hown _ H') as Heq. rewrite Hoa in Heq. simplify_eq. by rewrite Hw in H'. }
  assert (forall t' w', pcs s t' = Resume w' -> t' = t /\ w' = w) as Hone.
  { intros t' w' H'. specialize (Hpc t'). unfold pc_ok in Hpc. rewrite H' in Hpc.
    destruct Hpc as [Hx _]. rewrite Hoa in Hx. simplify_eq. split; [by eapply Hres|done]. }
  assert (forall t', t' <> w -> t' <> t -> (pcs s).[t ↦ Idle].[w ↦ Holding] t' = pcs s t') as Hfr
    by (intros; by rewrite !upd_ne).
  constructor; simpl.
  - unfold owner_ok. rewrite Hoa. simpl. rewrite upd_eq. split; [by left|eauto].
  - intros t'. destruct (decide (t' = w)) as [->|H1]; [done|].
    rewrite upd_ne by done. destruct (decide (t' = t)) as [->|H2]; [by rewrite upd_eq|].
    rewrite upd_ne by done. intros H'. by destruct (Hno t').
  - intros t1 t2 x. upd_cases; try done. apply Hres.
  - intros t'. assert (~ exists x, (pcs s).[t ↦ Idle].[w ↦ Holding] x = Resume t') as Hnr.
    { intros [x Hx]. destruct (decide (x = w)) as [->|H1]; [by rewrite upd_eq in Hx|].
      rewrite upd_ne in Hx by done. destruct (decide (x = t)) as [->|H2]; [by rewrite upd_eq in Hx|].
      rewrite upd_ne in Hx by done. by destruct (Hone _ _ Hx). }
    destruct (decide (t' = w)) as [->|H1]; [rewrite upd_eq; split; [done|tauto]|].
    rewrite upd_ne by done. destruct (decide (t' = t)) as [->|H2].
    + rewrite upd_eq. split; [done|]. intros [Hin|?]; [|tauto].
      assert (pcs s t = Waiting) by (apply Hwait; by left). congruence.
    + rewrite upd_ne, Hwait by done. split; [|tauto]. intros [?|[x Hx]]; [by left|].
      by destruct (Hone _ _ Hx).
  - intros t'. specialize (Hpc t'). unfold pc_ok in *. simpl.
    destruct (decide (t' = w)) as [->|H1]; [by rewrite upd_eq|].
    destruct (decide (t' = t)) as [->|H2]; [by rewrite upd_ne, upd_eq|].
    rewrite !(upd_ne _ _ _ t') by done. destruct (pcs s t') eqn:Ht'; try done.
    by destruct (Hone _ _ Ht').
Qed.

Definition abs_events : list event -> list AbsMutex.event :=
  omap (fun e => match e with Spec e => Some e | _ => None end).

Definition throws (e : event) : Prop := match e with Throws _ => True | _ => False end.

(** One step of the code is no step or one step of the contract, with the same
    events, and never throws. *)
Definition step_ok (a : AbsMutex.state) (s' : state) (ev : list event) : Prop :=
  exists a', R s' a' /\ Forall (fun e => ~ throws e) ev /\
    ((abs_events ev = [] /\ a' = a) \/ exists la, AbsMutex.exec la a = Some (a', abs_events ev)).

Lemma step_ok_local s a t p nx ev :
  R s a -> ((plain (pcs s t) /\ plain p) \/ (owns (pcs s t) /\ owns p)) ->
  (forall x, x <> t -> nx x = next s x) -> (plain p \/ nx t = next s t) ->
  pc_ok (mk_state (m_state s) nx ((pcs s).[t ↦ p])) a t ->
  ev = [] \/ ev = [TryFailed t] ->
  step_ok a (mk_state (m_state s) nx ((pcs s).[t ↦ p])) ev.
Proof.
  intros HR Hs Hnx Hnxt Hok Hev. exists a. split; [by apply R_local|].
  destruct Hev; subst; (split; [repeat constructor; by intros []|]); by left.
Qed.

Lemma step_ok_acquire s a t :
  R s a -> m_state s = Unlocked -> plain (pcs s t) ->
  step_ok a (set_pc (set_mx s (Locked None)) t Holding) [Spec (AbsMutex.Acquired t)].
Proof.
  intros HR Hm Hp. destruct (R_acquire s a t HR Hm Hp) as [-> HR'].
  eexists. split; [done|]. split; [repeat constructor; by intros []|].
  right. by exists (AbsMutex.Acquire t).
Qed.

Lemma lock_step s a t sp s' ev : R s a -> exec_lock t sp s = Some (s', ev) -> step_ok a s' ev.
Proof.
  intros HR H. unfold exec_lock, try_lock in H.
  assert (forall p ev, plain (pcs s t) -> plain p -> ev = [] \/ ev = [TryFailed t] ->
            step_ok a (set_pc s t p) ev) as Hgo.
  { intros p ev' Hp Hp' Hev. apply step_ok_local; auto; try done.
    unfold pc_ok. simpl. rewrite upd_eq. by destruct p. }
  destruct (pcs s t) as [| | | |[|p]| | | | | | | | |] eqn:Ht; try done.
  - case_bool_decide; simplify_eq; [apply step_ok_acquire; auto; by rewrite Ht|]. apply Hgo; auto; done.
  - case_bool_decide; simplify_eq; [apply step_ok_acquire; auto; by rewrite Ht|]. apply Hgo; auto; done.
  - simplify_eq. apply Hgo; auto; done.
  - case_match eqn:Hg; simplify_eq; [|apply Hgo; auto; done].
    apply andb_true_iff in Hg as [_ Hm%bool_decide_eq_true].
    apply step_ok_acquire; auto. by rewrite Ht.
  - case_match eqn:Hg; simplify_eq.
    + apply andb_true_iff in Hg as [_ Hm%bool_decide_eq_true].
      destruct (R_enqueue s a t p HR Hm) as [[o Ho] HR']; [by rewrite Ht|].
      eexists. split; [done|]. split; [repeat constructor; by intros []|].
      right. exists (AbsMutex.Enqueue t). simpl. by rewrite Ho.
    + apply (step_ok_local s a t (LockCas (m_state s)) ((next s).[t ↦ p]));
        [done|left; by rewrite Ht| |by left| |by left].
      * intros x Hx. simpl. by rewrite upd_ne.
      * unfold pc_ok. simpl. by rewrite upd_eq.
Qed.

(** The owner that looks at [m_state] finds it locked, and non-null when there
    are waiters. *)
Lemma unlock_test_ok s a t :
  R s a -> owns (pcs s t) -> step_ok a (unlock_test t (m_state s) s).1 (unlock_test t (m_state s) s).2.
Proof.
  intros HR Ho. pose proof (R_owns _ _ HR t Ho) as Hoa.
  destruct (m_state s) as [|[w|]] eqn:Hm; simpl.
  - rewrite (R_unlocked _ _ HR Hm) in Hoa. done.
  - destruct (R_locked _ _ _ HR Hm) as [Hch _]. apply chain_Some in Hch as (ws & Hws & _).
    apply step_ok_local; [done|by right|done|by right| |by left]. unfold pc_ok. simpl. by rewrite upd_eq, Hws.
  - apply step_ok_local; [done|by right|done|by right| |by left]. unfold pc_ok. simpl. by rewrite upd_eq.
Qed.

Lemma pop_test_ok s a t :
  R s a -> owns (pcs s t) -> AbsMutex.waiters a <> [] ->
  step_ok a (pop_test t (m_state s) s).1 (pop_test t (m_state s) s).2.
Proof.
  intros HR Ho Hne. pose proof (R_owns _ _ HR t Ho) as Hoa.
  destruct (m_state s) as [|[w|]] eqn:Hm; simpl.
  - rewrite (R_unlocked _ _ HR Hm) in Hoa. done.
  - destruct (R_locked _ _ _ HR Hm) as [Hch _]. apply chain_Some in Hch as (ws & Hws & _).
    apply step_ok_local; [done|by right|done|by right| |by left]. unfold pc_ok. simpl. rewrite upd_eq, Hws. by left.
  - destruct (R_locked _ _ _ HR Hm) as [Hch _]. by apply chain_None in Hch.
Qed.

Lemma unlock_step s a t sp s' ev : R s a -> exec_unlock t sp s = Some (s', ev) -> step_ok a s' ev.
Proof.
  intros HR H. unfold exec_unlock in H.
  pose proof (unlock_test_ok s a t HR) as Hut. pose proof (pop_test_ok s a t HR) as Hpt.
  pose proof (R_pc _ _ HR t) as Hok. unfold pc_ok in Hok.
  destruct (unlock_test t (m_state s) s) as [su eu]. destruct (pop_test t (m_state s) s) as [sp' ep].
  destruct (pcs s t) as [| | | | | | | | | |w|w nxt|w|] eqn:Ht; try done; simpl in *.
  - simplify_eq. by apply Hut.
  - case_match eqn:Hg; simplify_eq; [|by apply Hut].
    apply andb_true_iff in Hg as [_ Hm%bool_decide_eq_true].
    destruct (R_release s a t HR ltac:(by rewrite Ht) Hm) as [-> HR'].
    eexists. split; [done|]. split; [repeat constructor; by intros []|].
    right. exists (AbsMutex.Release t). simpl. by rewrite !bool_decide_true.
  - simplify_eq. by apply Hpt.
  - simplify_eq. apply step_ok_local; [done|right; by rewrite Ht|done|by right| |by left].
    unfold pc_ok. simpl. rewrite upd_eq. done.
  - destruct Hok as [Hin Hnx]. case_match eqn:Hg; simplify_eq.
    + apply andb_true_iff in Hg as [_ Hm%bool_decide_eq_true].
      destruct (R_handoff s a t w (next s w) HR Ht Hm) as (ws & -> & HR').
      eexists. split; [done|]. split; [repeat constructor; by intros []|].
      right. exists (AbsMutex.Handoff t). simpl. by rewrite bool_decide_true.
    + apply Hpt; [done|]. intros Hnil. rewrite Hnil in Hin. no_nil.
  - destruct (R_resumed s a t w HR Ht) as [Hw HR']. rewrite bool_decide_true in H by done.
    simplify_eq. exists a. split; [done|]. split; [constructor|]. by left.
Qed.

Lemma step_sim s a l s' ev : R s a -> exec l s = Some (s', ev) -> step_ok a s' ev.
Proof.
  intros HR H. destruct l as [t c|t sp]; simpl in H.
  - destruct (pcs s t) eqn:Ht; try done; destruct c; try done; simplify_eq;
      (apply step_ok_local;
        [done|rewrite Ht; (by left) || (by right)|done|by right|unfold pc_ok; simpl; by rewrite upd_eq|by left]).
  - destruct (pcs s t) eqn:Ht; try done; first [by eapply lock_step|by eapply unlock_step].
Qed.

Lemma abs_events_app tr1 tr2 : abs_events (tr1 ++ tr2) = abs_events tr1 ++ abs_events tr2.
Proof. apply omap_app. Qed.

Lemma reach_R s tr :
  reach exec init s tr ->
  Forall (fun e => ~ throws e) tr /\
  exists a, reach AbsMutex.exec AbsMutex.init a (abs_events tr) /\ R s a.
Proof.
  apply (reach_inv exec (fun s tr => Forall (fun e => ~ throws e) tr /\
    exists a, reach AbsMutex.exec AbsMutex.init a (abs_events tr) /\ R s a)).
  - split; [constructor|]. exists AbsMutex.init. split; [constructor|apply R_init].
  - intros s' tr' l s'' ev (Hth & a & Hra & HR) He.
    destruct (step_sim _ _ _ _ _ HR He) as (a' & HR' & Hth' & Habs).
    split; [by apply Forall_app|]. exists a'. split; [|done]. rewrite abs_events_app.
    destruct Habs as [[-> ->]|[la Hla]]; [by rewrite app_nil_r|by eapply reach_step].
Qed.

(** [C2] Refinement: in every schedule the acquisitions, enqueuings, releases and
    hand-overs of the code, in the order of their deciding accesses, form an
    execution of the contract that ends in a related state. *)
Theorem mutex_refines s tr :
  reach exec init s tr ->
  exists a, reach AbsMutex.exec AbsMutex.init a (abs_events tr) /\ R s a.
Proof. intros H. apply (reach_R _ _ H). Qed.

(** Thread 0 locks, thread 1 queues up, thread 0 unlocks and resumes it. *)
Definition contended : list label :=
  [Call 0 CallLock; Step 0 false; Call 1 CallLock; Step 1 false; Step 1 false; Step 1 true;
   Step 1 false; Call 0 CallUnlock; Step 0 false; Step 0 false; Step 0 false; Step 0 false;
   Step 0 false].

Lemma mutex_refines_witness :
  exists s tr, run exec contended init = Some (s, tr) /\
    abs_events tr = [AbsMutex.Acquired 0; AbsMutex.Queued 1; AbsMutex.Handed 0 1] /\
    exists a, reach AbsMutex.exec AbsMutex.init a (abs_events tr) /\ R s a.
Proof.
  destruct (run exec contended init) as [[s tr]|] eqn:Hrun; [|vm_compute in Hrun; discriminate].
  exists s, tr. split; [done|]. split; [by vm_compute in Hrun; simplify_eq|].
  apply mutex_refines. exact (run_reach _ _ _ _ _ Hrun).
Defined.

(** [C1] Mutual exclusion: in every schedule at most one thread is between the
    acquisition and the end of its unlock, unlock() neither throws nor
    dereferences a null waiter, and nobody is resumed who is not waiting. *)
Theorem mutex_mutual_exclusion s tr t1 t2 :
  reach exec init s tr ->
  (owns (pcs s t1) -> owns (pcs s t2) -> t1 = t2) /\
  pcs s t1 <> Crashed /\ Forall (fun e => ~ throws e) tr.
Proof.
  intros H. destruct (reach_R _ _ H) as (Hth & a & _ & HR). split; [|split; [|done]].
  - intros H1 H2. apply (R_owns _ _ HR) in H1, H2. congruence.
  - intros Heq. pose proof (R_pc _ _ HR t1) as Hok. unfold pc_ok in Hok. by rewrite Heq in Hok.
Qed.

Lemma mutex_mutual_exclusion_witness :
  exists s tr, run exec contended init = Some (s, tr) /\ pcs s 1 = Holding /\
  forall t, (owns (pcs s 1) -> owns (pcs s t) -> 1 = t) /\
    pcs s 1 <> Crashed /\ Forall (fun e => ~ throws e) tr.
Proof.
  destruct (run exec contended init) as [[s tr]|] eqn:Hrun; [|vm_compute in Hrun; discriminate].
  exists s, tr. split; [done|]. split; [by vm_compute in Hrun; simplify_eq|].
  intros t. apply (mutex_mutual_exclusion s tr 1 t). exact (run_reach _ _ _ _ _ Hrun).
Defined.

(** [C3] No lost waiter: a suspended thread is either being resumed right now, or
    it is in the waiter list and some other thread holds the mutex (or is just
    being handed it), so that its unlock will find the list. *)
Theorem mutex_no_lost_waiter s tr w :
  reach exec init s tr -> pcs s w = Waiting ->
  (exists t, pcs s t = Resume w) \/
  exists p l o, m_state s = Locked p /\ chain (next s) p l /\ w ∈ l /\ o <> w /\
    (owns (pcs s o) \/ exists t, pcs s t = Resume o).
Proof.
  intros H Hw. destruct (reach_R _ _ H) as (_ & a & _ & HR).
  destruct (proj1 (R_wait _ _ HR w) Hw) as [Hin|?]; [|by left]. right.
  pose proof (R_owner _ _ HR) as Ho. unfold owner_ok in Ho.
  destruct (AbsMutex.owner a) as [o|]; [|destruct Ho as [_ Hn]; rewrite Hn in Hin; no_nil].
  destruct Ho as (Hor & Hno & p & Hm & Hch).
  exists p, (AbsMutex.waiters a), o. repeat split; auto. by intros ->.
Qed.

Lemma mutex_no_lost_waiter_witness :
  exists s tr, run exec (take 7 contended) init = Some (s, tr) /\
  ((exists t, pcs s t = Resume 1) \/
   exists p l o, m_state s = Locked p /\ chain (next s) p l /\ 1 ∈ l /\ o <> 1 /\
    (owns (pcs s o) \/ exists t, pcs s t = Resume o)).
Proof.
  destruct (run exec (take 7 contended) init) as [[s tr]|] eqn:Hrun; [|vm_compute in Hrun; discriminate].
  exists s, tr. split; [done|]. apply (mutex_no_lost_waiter s tr 1); [exact (run_reach _ _ _ _ _ Hrun)|].
  vm_compute in Hrun. by simplify_eq.
Defined.

(** unlock() on its own: with the waiters [l] (most recent first) it hands
    the mutex to the most recent one and leaves the rest of the list, without
    waiters it leaves the mutex unlocked. *)
Theorem mutex_unlock_functional s tr t p l :
  reach exec init s tr -> pcs s t = Holding -> m_state s = Locked p -> chain (next s) p l ->
  match l with
  | [] => exists s', run exec (Call t CallUnlock :: replicate 2 (Step t false)) s =
            Some (s', [Spec (AbsMutex.Released t)]) /\ m_state s' = Unlocked /\ pcs s' t = Idle
  | w :: ws => exists s' q, run exec (Call t CallUnlock :: replicate 5 (Step t false)) s =
            Some (s', [Spec (AbsMutex.Handed t w)]) /\ pcs s' t = Idle /\ pcs s' w = Holding /\
            m_state s' = Locked q /\ chain (next s') q ws
  end.
Proof.
  intros H Ht Hm Hch. destruct (reach_R _ _ H) as (_ & a & _ & HR).
  destruct (R_locked _ _ _ HR Hm) as [Hch' _].
  rewrite (chain_det _ _ _ _ Hch Hch') in *. clear l Hch.
  destruct (AbsMutex.waiters a) as [|w ws] eqn:Hws.
  - simpl in Hch'. subst p.
    exists (set_pc (set_mx (set_pc (set_pc s t UnlockLoad) t UnlockCas) Unlocked) t Idle). simpl.
    repeat (rewrite ?Ht, ?upd_eq, ?Hm; unfold exec_unlock; simpl). done.
  - assert (pcs s w = Waiting) as Hw by (apply (R_wait _ _ HR); left; rewrite Hws; by left).
    assert (w <> t) as Hwt by congruence. destruct Hch' as [-> Hch].
    exists (set_pc (set_pc (set_pc (set_mx (set_pc (set_pc (set_pc (set_pc s t UnlockLoad) t PopLoad)
      t (PopRead w)) t (PopCas w (next s w))) (Locked (next s w))) t (Resume w)) t Idle) w Holding),
      (next s w). simpl.
    repeat (rewrite ?Ht, ?upd_eq, ?Hm; unfold exec_unlock; simpl;
            try rewrite (bool_decide_true (Locked (Some w) = Locked (Some w))) by done).
    rewrite !(upd_ne _ t _ w) by done. rewrite Hw, bool_decide_true by done. simpl.
    by rewrite (upd_ne _ w _ t), upd_eq by done.
Qed.

Lemma mutex_unlock_functional_witness :
  exists s tr s' q, run exec (take 7 contended) init = Some (s, tr) /\
    run exec (Call 0 CallUnlock :: replicate 5 (Step 0 false)) s =
      Some (s', [Spec (AbsMutex.Handed 0 1)]) /\ pcs s' 0 = Idle /\ pcs s' 1 = Holding /\
      m_state s' = Locked q /\ chain (next s') q [].
Proof.
  destruct (run exec (take 7 contended) init) as [[s tr]|] eqn:Hrun; [|vm_compute in Hrun; discriminate].
  destruct (mutex_unlock_functional s tr 0 (Some 1) [1]) as (s' & q & Hun);
    [exact (run_reach _ _ _ _ _ Hrun)|vm_compute in Hrun; by simplify_eq..|].
  exists s, tr, s', q. split; [done|exact Hun].
Defined.

(** ** coro::scoped_lock: the mutex it will unlock, or nullptr *)
Record scoped_lock := mk_scoped { m_mutex : option nat }.

(** scoped_lock::unlock (also the destructor): which mutex is unlocked. *)
Definition scoped_unlock (l : scoped_lock) : scoped_lock * list nat :=
  match m_mutex l with
  | Some m => (mk_scoped None, [m])
  | None => (l, [])
  end.

(** The move constructor. *)
Definition scoped_move (other : scoped_lock) : scoped_lock * scoped_lock :=
  (mk_scoped (m_mutex other), mk_scoped None).

(** Move assignment between two distinct objects, and to itself. *)
Definition scoped_assign (self : scoped_lock) (other : option scoped_lock) : scoped_lock * option scoped_lock :=
  match other with
  | Some o => (mk_scoped (m_mutex o), Some (mk_scoped None))
  | None => (self, None)
  end.

(** Calling unlock() [n] times and then destroying the lock. *)
Fixpoint scoped_unlocks (n : nat) (l : scoped_lock) : list nat :=
  match n with
  | 0 => (scoped_unlock l).2
  | S n' => let '(l', ev) := scoped_unlock l in ev ++ scoped_unlocks n' l'
  end.

Lemma scoped_unlocks_null n : scoped_unlocks n (mk_scoped None) = [].
Proof. induction n; simpl; auto. Qed.

(** A scoped_lock unlocks its mutex exactly once however often unlock() is
    called before the destructor, and moving it transfers that single unlock:
    the source of the move unlocks nothing. *)
Theorem scoped_lock_unlocks_once n m :
  scoped_unlocks n (mk_scoped (Some m)) = [m] /\
  let '(new, old) := scoped_move (mk_scoped (Some m)) in
  scoped_unlocks n new = [m] /\ scoped_unlocks n old = [].
Proof.
  assert (scoped_unlocks n (mk_scoped (Some m)) = [m]) as H.
  { destruct n; simpl; [done|]. by rewrite scoped_unlocks_null. }
  simpl. by rewrite H, scoped_unlocks_null.
Qed.

(** Move assignment over a lock that is held: after both objects are gone
    only the mutex of the source has been unlocked, the mutex of the target
    stays locked forever. *)
Theorem scoped_lock_assign_leaks m1 m2 n :
  match scoped_assign (mk_scoped (Some m1)) (Some (mk_scoped (Some m2))) with
  | (self, Some other) => scoped_unlocks n self ++ scoped_unlocks n other = [m2]
  | (_, None) => False
  end.
Proof.
  simpl. destruct n; simpl; [done|]. by rewrite !scoped_unlocks_null.
Qed.
End Mutex.
