(* ===== verification/Monitor.v ===== *)
(** * Components guarded by a coro::mutex

    The queue, the ring buffer and the shared mutex follow one scheme: a critical
    section under the component's mutex decides whether a coroutine goes on or
    parks itself in a waiter list, and a coroutine that takes waiters off the
    list resumes them after unlocking.  This file holds what the scheme
    guarantees for any of them, as lemmas about the table of control states:
    [cs_ok] (who is inside the critical section) and [parking] (every parked
    coroutine is in exactly one place, from where it will be resumed once). *)
From stdpp Require Import base list relations option numbers.
From S2P Require Import Prelude Mutex.

(** ** Critical sections *)
Section critical.
Context {M : Type} `{!Lock M} {PC : Type} (cs : PC -> bool).
Implicit Types (m : M) (pcs : nat -> PC) (p : PC).

Definition cs_ok m pcs : Prop := forall t, cs (pcs t) = true -> lk_holder m = Some t.

Lemma cs_other m pcs t x : cs_ok m pcs -> lk_holder m = Some t -> x <> t -> cs (pcs x) = false.
Proof. intros H Ht Hx. destruct (cs (pcs x)) eqn:Hc; [|done]. apply H in Hc. congruence. Qed.

(** A step of [t] that keeps the mutex. *)
Lemma cs_move m pcs t p :
  cs_ok m pcs -> (cs p = true -> lk_holder m = Some t) -> cs_ok m (pcs.[t ↦ p]).
Proof. intros H Hp x. upd_cases; auto. Qed.

Lemma cs_lock m pcs t p : cs_ok m pcs -> cs p = false -> cs_ok (lk_lock t m) (pcs.[t ↦ p]).
Proof.
  intros H Hp x. upd_cases; [congruence|]. intros Hx. apply H in Hx.
  by apply (lk_lock_held t) in Hx as [? _].
Qed.

(** try_lock() on a free mutex enters the critical section at once. *)
Lemma cs_try m pcs t p : cs_ok m pcs -> lk_holder m = None -> cs_ok (lk_lock t m) (pcs.[t ↦ p]).
Proof.
  intros H Hm x. upd_cases; intros Hx; [by apply lk_lock_free|]. apply H in Hx. congruence.
Qed.

Lemma cs_unlock m pcs t p :
  cs_ok m pcs -> cs (pcs t) = true -> cs p = false -> cs_ok (lk_unlock t m) (pcs.[t ↦ p]).
Proof.
  intros H Ht Hp x. upd_cases; [congruence|]. intros Hx. apply H in Hx, Ht. congruence.
Qed.
End critical.

(** ** Parked coroutines *)

(** Outside the waiter lists; in a list but still inside its critical section;
    suspended. *)
Inductive pmode := Out | Parking | Parked.

Record parking (W : list nat) (held : nat -> list nat) (mode : nat -> pmode) : Prop := {
  pk_list : forall x, x ∈ W -> mode x <> Out;
  pk_parking : forall x, mode x = Parking -> x ∈ W;
  pk_parked : forall x, mode x = Parked -> x ∈ W \/ exists t, x ∈ held t;
  pk_held : forall t x, x ∈ held t -> mode x = Parked /\ x ∉ W;
  pk_uniq : forall t1 t2 x, x ∈ held t1 -> x ∈ held t2 -> t1 = t2;
  pk_nodup : NoDup W;
  pk_held_nodup : forall t, NoDup (held t)
}.

#[export] Instance parking_perm : Proper ((≡ₚ) ==> eq ==> eq ==> iff) parking.
Proof.
  assert (forall W W' h m, W ≡ₚ W' -> parking W h m -> parking W' h m) as Hone.
  { intros W W' h m HW [H1 H2 H3 H4 H5 H6 H7].
    constructor; try done; setoid_rewrite <- HW; try done. }
  intros W W' HW h ? <- m ? <-. split; apply Hone; [done|by symmetry].
Qed.

Section parking_lemmas.
Context {PC : Type} (mode : PC -> pmode) (held : PC -> list nat).
Implicit Types (W : list nat) (pcs : nat -> PC) (p : PC).

(** The table of control states with the waiter list [W]. *)
Definition parking_ok W pcs : Prop :=
  parking W (fun t => held (pcs t)) (fun t => mode (pcs t)).

Lemma parking_init p : held p = [] -> mode p = Out -> parking_ok [] (fun _ => p).
Proof.
  intros Hh Hm. constructor; simpl; rewrite ?Hh, ?Hm; try done; try (intros; no_nil); constructor.
Qed.

Lemma parking_ext W pcs pcs' :
  (forall x, held (pcs' x) = held (pcs x) /\ mode (pcs' x) = mode (pcs x)) ->
  parking_ok W pcs -> parking_ok W pcs'.
Proof.
  intros Heq [H1 H2 H3 H4 H5 H6 H7].
  assert (forall x, held (pcs' x) = held (pcs x)) as Hh by apply Heq.
  assert (forall x, mode (pcs' x) = mode (pcs x)) as Hm by apply Heq.
  constructor; simpl; intros *; rewrite ?Hm, ?Hh; auto.
  - intros Hx. destruct (H3 _ Hx) as [?|[t Ht]]; [by left|]. right. exists t. by rewrite Hh.
  - apply H4.
  - apply H5.
Qed.

(** A step of [t] that parks and resumes nobody. *)
Lemma parking_move W pcs t p :
  parking_ok W pcs -> held p = held (pcs t) -> mode p = mode (pcs t) -> parking_ok W (pcs.[t ↦ p]).
Proof. intros H Hh Hm. eapply parking_ext; [|exact H]. intros x. by upd_cases. Qed.

(** [t] enters the list, still holding the mutex. *)
Lemma parking_push W pcs t p :
  parking_ok W pcs -> held p = held (pcs t) -> mode (pcs t) = Out -> mode p = Parking ->
  parking_ok (t :: W) (pcs.[t ↦ p]).
Proof.
  intros [H1 H2 H3 H4 H5 H6 H7] Hh Hm Hp.
  assert (forall x, held (pcs.[t ↦ p] x) = held (pcs x)) as Hhe by (intros; by upd_cases).
  assert (t ∉ W) as Ht by (intros Hin; by apply H1 in Hin).
  constructor; simpl; intros *; rewrite ?Hhe; auto.
  - intros [->|Hx]%elem_of_cons; [by rewrite upd_eq, Hp|]. upd_cases; [by rewrite Hp|auto].
  - upd_cases; [by left|]. right. auto.
  - upd_cases; [congruence|]. intros Hx. destruct (H3 _ Hx) as [?|[t' Ht']]; [left; by right|].
    right. exists t'. by rewrite Hhe.
  - intros Hx. destruct (H4 _ _ Hx) as [Hx1 Hx2]. rewrite upd_ne by congruence. split; [done|].
    apply not_elem_of_cons. split; congruence.
  - apply H5.
  - by apply list.NoDup_cons.
Qed.

(** [t] unlocks the mutex and is suspended. *)
Lemma parking_suspend W pcs t p :
  parking_ok W pcs -> held p = held (pcs t) -> mode (pcs t) = Parking -> mode p = Parked ->
  parking_ok W (pcs.[t ↦ p]).
Proof.
  intros [H1 H2 H3 H4 H5 H6 H7] Hh Hm Hp.
  assert (forall x, held (pcs.[t ↦ p] x) = held (pcs x)) as Hhe by (intros; by upd_cases).
  constructor; simpl; intros *; rewrite ?Hhe; auto.
  - intros Hx. upd_cases; [by rewrite Hp|auto].
  - upd_cases; [congruence|auto].
  - upd_cases; [intros _; left; auto|]. intros Hx. destruct (H3 _ Hx) as [?|[t' Ht']]; [by left|].
    right. exists t'. by rewrite Hhe.
  - intros Hx. destruct (H4 _ _ Hx) as [Hx1 Hx2]. by rewrite upd_ne by congruence.
  - apply H5.
Qed.

(** [t] takes [taken] off the list; it will resume them. *)
Lemma parking_take W W' pcs t p :
  parking_ok W pcs -> W ≡ₚ held p ++ W' -> held (pcs t) = [] -> mode (pcs t) = Out -> mode p = Out ->
  (forall x, x ∈ held p -> mode (pcs x) = Parked) -> parking_ok W' (pcs.[t ↦ p]).
Proof.
  intros Hpk HW Hh Hm Hp Htk. unfold parking_ok in Hpk. rewrite HW in Hpk.
  destruct Hpk as [H1 H2 H3 H4 H5 H6 H7].
  apply list.NoDup_app in H6 as (Hnd1 & Hdisj & Hnd2).
  assert (forall x, x ∈ held (pcs t) -> False) as Hno by (intros x; rewrite Hh; intros; no_nil).
  constructor; simpl.
  - intros x Hx. specialize (H1 x ltac:(apply elem_of_app; by right)). upd_cases; [congruence|done].
  - intros x. upd_cases; [congruence|]. intros Hx. specialize (H2 _ Hx).
    apply elem_of_app in H2 as [Hin|?]; [|done]. apply Htk in Hin. congruence.
  - intros x. upd_cases; [congruence|]. intros Hx.
    destruct (H3 _ Hx) as [[Hin|?]%elem_of_app|[t' Ht']]; [right; exists t; by rewrite upd_eq|by left|].
    right. exists t'. rewrite upd_ne; [done|]. intros ->. by apply Hno in Ht'.
  - intros t' x. destruct (decide (t' = t)) as [->|Hne]; [rewrite upd_eq|rewrite upd_ne by done]; intros Hx.
    + split; [|by apply Hdisj]. pose proof (Htk _ Hx). rewrite upd_ne; [done|congruence].
    + destruct (H4 _ _ Hx) as [Hx1 Hx2]. rewrite not_elem_of_app in Hx2.
      split; [|tauto]. rewrite upd_ne; [done|congruence].
  - assert (forall t' x, x ∈ held p -> x ∈ held (pcs t') -> False) as Hsep.
    { intros t' x Hx Hx'. destruct (H4 _ _ Hx') as [_ Hn]. apply Hn, elem_of_app. by left. }
    intros t1 t2 x. destruct (decide (t1 = t)) as [->|N1], (decide (t2 = t)) as [->|N2];
      rewrite ?upd_eq, ?upd_ne by done; intros Hx Hy; [done|by destruct (Hsep t2 x)|by destruct (Hsep t1 x)|].
    by apply (H5 _ _ x).
  - done.
  - intros t'. destruct (decide (t' = t)) as [->|Hne]; [by rewrite upd_eq|by rewrite upd_ne].
Qed.

(** [t] resumes the coroutine [w] that it holds. *)
Lemma parking_resume W pcs t w p q :
  parking_ok W pcs -> held (pcs t) = w :: held p -> mode (pcs t) = Out -> mode p = Out ->
  mode q = Out -> held q = [] -> held (pcs w) = [] ->
  mode (pcs w) = Parked /\ w <> t /\ parking_ok W (pcs.[t ↦ p].[w ↦ q]).
Proof.
  intros [H1 H2 H3 H4 H5 H6 H7] Hh Hm Hp Hq Hhq Hhw.
  assert (w ∈ held (pcs t)) as Hwt by (rewrite Hh; by left).
  destruct (H4 _ _ Hwt) as [Hws Hwn]. assert (w <> t) as Hne by congruence.
  split; [done|]. split; [done|].
  pose proof (H7 t) as Hnd. simpl in Hnd. rewrite Hh in Hnd. apply list.NoDup_cons in Hnd as [Hwp Hnd].
  assert (forall x, held (pcs.[t ↦ p].[w ↦ q] x) = if decide (x = t) then held p else held (pcs x)) as Hhe.
  { intros x. destruct (decide (x = w)) as [->|]; [rewrite upd_eq, decide_False by done; congruence|].
    rewrite upd_ne by done. destruct (decide (x = t)) as [->|]; [by rewrite upd_eq|by rewrite upd_ne]. }
  assert (forall x, mode (pcs.[t ↦ p].[w ↦ q] x) = if decide (x = w) then Out else mode (pcs x)) as Hme.
  { intros x. destruct (decide (x = w)) as [->|]; [by rewrite upd_eq|].
    rewrite upd_ne by done. destruct (decide (x = t)) as [->|]; [rewrite upd_eq; congruence|by rewrite upd_ne]. }
  assert (forall x y, y ∈ held (pcs.[t ↦ p].[w ↦ q] x) -> y ∈ held (pcs x) /\ y <> w) as Hin.
  { intros x y. rewrite Hhe. case_decide as Hx; [subst x|]; intros Hy.
    - split; [rewrite Hh; by right|]. by intros ->.
    - split; [done|]. intros ->. by destruct Hx, (H5 x t w Hy Hwt). }
  constructor; simpl.
  - intros x Hx. rewrite Hme. case_decide; [by subst|auto].
  - intros x. rewrite Hme. case_decide; [done|auto].
  - intros x. rewrite Hme. case_decide as Hx; [done|]. intros Hp'. destruct (H3 _ Hp') as [?|[t' Ht']]; [by left|].
    right. exists t'. rewrite Hhe. case_decide as Htt; [|done]. subst t'. rewrite Hh in Ht'.
    by apply elem_of_cons in Ht' as [->|?].
  - intros t' x Hx. destruct (Hin _ _ Hx) as [Hx1 Hx2]. rewrite Hme, decide_False by done. by apply (H4 t').
  - intros t1 t2 x [Hx _]%Hin [Hy _]%Hin. by apply (H5 _ _ x).
  - done.
  - intros t'. rewrite Hhe. case_decide; [done|apply H7].
Qed.

(** Quiescence: when nobody holds waiters any more, a parked coroutine is listed. *)
Lemma parking_quiet W pcs x :
  parking_ok W pcs -> (forall t, held (pcs t) = []) -> mode (pcs x) = Parked -> x ∈ W.
Proof.
  intros Hpk Hq Hx. destruct (pk_parked _ _ _ Hpk x Hx) as [?|[t Ht]]; [done|].
  simpl in Ht. rewrite Hq in Ht. no_nil.
Qed.
End parking_lemmas.
