(* ===== verification/Semaphore.v ===== *)
(** * coro::semaphore (include/coro/semaphore.hpp)

    A counter, a list of suspended acquirers and a shutdown flag.  acquire(),
    release() and shutdown() run under the semaphore's coro::mutex, which enters
    the model through the interface [Lock]; try_acquire(), the first test of
    shutdown() and await_resume() do not take it, so every access to [m_counter]
    and [m_shutdown] is a step of its own.  The waiter list is only touched by
    the holder of the mutex, the discipline under which the lock-free list is a
    stack (AwaiterList), so it is a list of coroutines here. *)
From stdpp Require Import base list relations option numbers.
From Stdlib Require Import ZArith Lia.
From S2P Require Import Prelude Mutex.

#[local] Existing Instance AbsMutex.abs_lock.

Module Semaphore.
Local Open Scope Z_scope.

Inductive semaphore_acquire_result := acquired | shutdown.

#[export] Instance acquire_result_eq_dec : EqDecision semaphore_acquire_result.
Proof. solve_decision. Defined.

(** Control states.  [again] distinguishes the await_ready() of the first test
    from the one await_suspend() repeats. *)
Inductive pc :=
| Idle
| AcqReady (again : bool)                  (* await_ready: load m_shutdown *)
| AcqTryLoad (again : bool)                (* try_acquire: load m_counter *)
| AcqTryCas (again : bool) (expected : Z)  (* try_acquire: exchange *)
| AcqPush                                  (* await_suspend: awaiter_list_push *)
| AcqParkUnlock                            (* await_suspend: unlock, then suspend *)
| AcqUnlock                                (* await_ready: unlock, not suspending *)
| Suspended
| AcqResume                                (* await_resume: load m_shutdown *)
| RelCheck                                 (* release: value() == max() *)
| RelPop                                   (* release: awaiter_list_pop *)
| RelHandUnlock (waiter : nat)             (* release: unlock before the resume *)
| RelResume (waiter : nat)
| RelAdd                                   (* release: m_counter.fetch_add *)
| RelUnlock
| TryLoad                                  (* try_acquire called directly *)
| TryCas (expected : Z)
| ShLoad                                   (* shutdown: is_shutdown() *)
| ShCas                                    (* shutdown: the exchange of m_shutdown *)
| ShPopAll                                 (* shutdown: awaiter_list_pop_all *)
| ShUnlock (waiters : list nat)
| ShLose                                   (* shutdown: another call was first, ~scoped_lock *)
| ShWalk (waiters : list nat).             (* shutdown: resume the next waiter *)

#[export] Instance sem_pc_eq_dec : EqDecision pc.
Proof. solve_decision. Defined.

Inductive op := Acquire | Release | TryAcquire | Shutdown.
Inductive label := Call (t : nat) (o : op) | Step (t : nat) (spurious : bool).

Inductive event :=
| Taken (t : nat)                 (* a permit was taken off the counter *)
| Handed (t w : nat)              (* release() passed its permit to the waiter w *)
| Added (t : nat)                 (* release() put its permit on the counter *)
| Result (t : nat) (r : semaphore_acquire_result)   (* acquire() returned *)
| BadResume (t w : nat).          (* resume() of a coroutine that is not suspended *)

Section semaphore.
Context {M : Type} `{!Lock M}.
Context (max_value : Z).

Record state := mk_state {
  m_counter : Z;                       (* std::atomic<std::ptrdiff_t> *)
  m_acquire_waiters : list nat;
  m_mutex : M;
  m_shutdown : bool;
  pcs : nat -> pc
}.

(** semaphore::semaphore *)
Definition make (starting_value : Z) : state :=
  mk_state starting_value [] lk_init false (fun _ => Idle).

Definition set_pc (s : state) (t : nat) (p : pc) : state :=
  mk_state (m_counter s) (m_acquire_waiters s) (m_mutex s) (m_shutdown s) ((pcs s).[t ↦ p]).
Definition set_counter (s : state) (c : Z) : state :=
  mk_state c (m_acquire_waiters s) (m_mutex s) (m_shutdown s) (pcs s).
Definition set_waiters (s : state) (ws : list nat) : state :=
  mk_state (m_counter s) ws (m_mutex s) (m_shutdown s) (pcs s).
Definition set_mutex (s : state) (m : M) : state :=
  mk_state (m_counter s) (m_acquire_waiters s) m (m_shutdown s) (pcs s).
Definition set_shutdown (s : state) : state :=
  mk_state (m_counter s) (m_acquire_waiters s) (m_mutex s) true (pcs s).

Definition value (s : state) : Z := m_counter s.
Definition is_shutdown (s : state) : bool := m_shutdown s.

Definition holds (s : state) (t : nat) : bool := bool_decide (lk_holder (m_mutex s) = Some t).

(** m_mutex.unlock() by [t], continuing at [p]. *)
Definition unlock (s : state) (t : nat) (p : pc) : state :=
  set_pc (set_mutex s (lk_unlock t (m_mutex s))) t p.

(** try_acquire, from the value it has just read: return false, or try the exchange. *)
Definition try_test (s : state) (t : nat) (expected : Z) (fail : pc) (cas : Z -> pc) : state :=
  set_pc s t (if expected <=? 0 then fail else cas expected).

Definition try_cas (s : state) (t : nat) (spurious : bool) (expected : Z)
    (ok fail : pc) (cas : Z -> pc) : state * list event :=
  if negb spurious && (m_counter s =? expected) then
    (set_pc (set_counter s (s64 (expected - 1))) t ok, [Taken t])
  else (try_test s t (m_counter s) fail cas, []).

(** Where the acquire operation goes when try_acquire failed: the first time to
    await_suspend, the second time onto the waiter list. *)
Definition acq_fail (again : bool) : pc := if again then AcqPush else AcqReady true.

(** resume() of the suspended coroutine [w]. *)
Definition resume (s : state) (t w : nat) (p : pc) : state * list event :=
  if decide (pcs s w = Suspended) then (set_pc (set_pc s t p) w AcqResume, [])
  else (set_pc s t p, [BadResume t w]).

(** acquire(): await_ready, await_suspend and await_resume of acquire_operation *)
Definition exec_acquire (t : nat) (spurious : bool) (s : state) : option (state * list event) :=
  match pcs s t with
  | AcqReady again =>
      if m_shutdown s then Some (set_pc s t AcqUnlock, [])
      else Some (set_pc s t (AcqTryLoad again), [])
  | AcqTryLoad again =>
      Some (try_test s t (m_counter s) (acq_fail again) (AcqTryCas again), [])
  | AcqTryCas again e => Some (try_cas s t spurious e AcqUnlock (acq_fail again) (AcqTryCas again))
  | AcqPush => Some (set_pc (set_waiters s (t :: m_acquire_waiters s)) t AcqParkUnlock, [])
  | AcqParkUnlock => Some (unlock s t Suspended, [])
  | AcqUnlock => Some (unlock s t AcqResume, [])
  | AcqResume =>
      Some (set_pc s t Idle, [Result t (if m_shutdown s then shutdown else acquired)])
  | _ => None
  end.

(** release() *)
Definition exec_release (t : nat) (s : state) : option (state * list event) :=
  match pcs s t with
  | RelCheck => Some (set_pc s t (if value s =? max_value then RelUnlock else RelPop), [])
  | RelPop =>
      match m_acquire_waiters s with
      | w :: ws => Some (set_pc (set_waiters s ws) t (RelHandUnlock w), [Handed t w])
      | [] => Some (set_pc s t RelAdd, [])
      end
  | RelHandUnlock w => Some (unlock s t (RelResume w), [])
  | RelResume w => Some (resume s t w Idle)
  | RelAdd => Some (set_pc (set_counter s (s64 (m_counter s + 1))) t RelUnlock, [Added t])
  | RelUnlock => Some (unlock s t Idle, [])
  | _ => None
  end.

(** try_acquire() called by a user, without the mutex *)
Definition exec_try (t : nat) (spurious : bool) (s : state) : option (state * list event) :=
  match pcs s t with
  | TryLoad => Some (try_test s t (m_counter s) Idle TryCas, [])
  | TryCas e => Some (try_cas s t spurious e Idle Idle TryCas)
  | _ => None
  end.

(** shutdown() *)
Definition exec_shutdown (t : nat) (s : state) : option (state * list event) :=
  match pcs s t with
  | ShLoad =>
      if is_shutdown s then Some (set_pc s t Idle, [])
      else Some (set_pc (set_mutex s (lk_lock t (m_mutex s))) t ShCas, [])
  | ShCas =>
      if m_shutdown s then Some (set_pc s t ShLose, []) else Some (set_pc (set_shutdown s) t ShPopAll, [])
  | ShPopAll => Some (set_pc (set_waiters s []) t (ShUnlock (m_acquire_waiters s)), [])
  | ShUnlock ws => Some (unlock s t (ShWalk ws), [])
  | ShLose => Some (unlock s t Idle, [])
  | ShWalk [] => Some (set_pc s t Idle, [])
  | ShWalk (w :: ws) => Some (resume s t w (ShWalk ws))
  | _ => None
  end.

(** The steps of a critical section, and those that wait for the mutex first. *)
Definition entry (p : pc) : bool :=
  match p with AcqReady false | RelCheck | ShCas => true | _ => false end.
Definition cs (p : pc) : bool :=
  match p with
  | AcqReady true | AcqTryLoad _ | AcqTryCas _ _ | AcqPush | AcqParkUnlock | AcqUnlock
  | RelPop | RelHandUnlock _ | RelAdd | RelUnlock | ShPopAll | ShUnlock _ | ShLose => true
  | _ => false
  end.

Definition exec (l : label) (s : state) : option (state * list event) :=
  match l with
  | Call t o =>
      match pcs s t, o with
      | Idle, Acquire => Some (set_pc (set_mutex s (lk_lock t (m_mutex s))) t (AcqReady false), [])
      | Idle, Release => Some (set_pc (set_mutex s (lk_lock t (m_mutex s))) t RelCheck, [])
      | Idle, TryAcquire => Some (set_pc s t TryLoad, [])
      | Idle, Shutdown => Some (set_pc s t ShLoad, [])
      | _, _ => None
      end
  | Step t spurious =>
      if entry (pcs s t) && negb (holds s t) then None
      else
        match pcs s t with
        | AcqReady _ | AcqTryLoad _ | AcqTryCas _ _ | AcqPush | AcqParkUnlock | AcqUnlock | AcqResume =>
            exec_acquire t spurious s
        | RelCheck | RelPop | RelHandUnlock _ | RelResume _ | RelAdd | RelUnlock => exec_release t s
        | TryLoad | TryCas _ => exec_try t spurious s
        | ShLoad | ShCas | ShPopAll | ShUnlock _ | ShLose | ShWalk _ => exec_shutdown t s
        | Idle | Suspended => None
        end
  end.

(** ** The invariant *)

(** Coroutines that [t] has taken off the list and will resume. *)
Definition held (p : pc) : list nat :=
  match p with RelHandUnlock w | RelResume w => [w] | ShUnlock ws | ShWalk ws => ws | _ => [] end.

Definition parked (p : pc) : Prop := p = Suspended \/ p = AcqParkUnlock.

Definition pc_ok (s : state) (t : nat) : Prop :=
  match pcs s t with
  | AcqTryLoad _ => m_shutdown s = false
  | AcqTryCas _ e => m_shutdown s = false /\ 0 < e
  | TryCas e => 0 < e
  | AcqPush => m_shutdown s = false /\ m_counter s = 0
  | RelPop => m_counter s < max_value
  | RelAdd => m_counter s < max_value /\ m_acquire_waiters s = []
  | ShPopAll | ShUnlock _ | ShWalk _ => m_shutdown s = true
  | AcqParkUnlock => t ∈ m_acquire_waiters s
  | Suspended => t ∈ m_acquire_waiters s \/ exists t', t ∈ held (pcs s t')
  | _ => True
  end.

Record inv (s : state) : Prop := {
  i_cs : forall t, cs (pcs s t) = true -> lk_holder (m_mutex s) = Some t;
  i_bounds : 0 <= m_counter s <= max_value;
  i_wait0 : m_acquire_waiters s <> [] -> m_counter s = 0;
  i_shut : m_shutdown s = true -> m_acquire_waiters s = [] \/ exists t, pcs s t = ShPopAll;
  i_pc : forall t, pc_ok s t;
  i_park : forall x, x ∈ m_acquire_waiters s -> parked (pcs s x);
  i_held : forall t x, x ∈ held (pcs s t) -> pcs s x = Suspended /\ x ∉ m_acquire_waiters s;
  i_held_uniq : forall t1 t2 x, x ∈ held (pcs s t1) -> x ∈ held (pcs s t2) -> t1 = t2;
  i_nodup : NoDup (m_acquire_waiters s);
  i_held_nodup : forall t, NoDup (held (pcs s t))
}.

Lemma sem_inv_init c : 0 <= c <= max_value -> inv (make c).
Proof. intros. constructor; simpl; try done; intros; no_nil || constructor. Qed.

(** The mutex after a move of [t] still belongs to whoever is in its critical
    section. *)
Definition mutex_ok (s : state) (t : nat) (p : pc) (m : M) : Prop :=
  (forall x, x <> t -> cs (pcs s x) = true -> lk_holder m = Some x) /\
  (cs p = true -> lk_holder m = Some t).

Lemma mutex_ok_same s t p :
  inv s -> (cs p = true -> lk_holder (m_mutex s) = Some t) -> mutex_ok s t p (m_mutex s).
Proof. intros Hinv Hp. split; [intros; by apply (i_cs _ Hinv)|done]. Qed.

Lemma mutex_ok_lock s t p : inv s -> cs p = false -> mutex_ok s t p (lk_lock t (m_mutex s)).
Proof.
  intros Hinv Hp. split; [|congruence]. intros x Hx Hcs. apply (i_cs _ Hinv) in Hcs.
  by apply (lk_lock_held t) in Hcs as [? _].
Qed.

Lemma mutex_ok_unlock s t p :
  inv s -> cs (pcs s t) = true -> cs p = false -> mutex_ok s t p (lk_unlock t (m_mutex s)).
Proof.
  intros Hinv Ht Hp. split; [|congruence]. intros x Hx Hcs.
  apply (i_cs _ Hinv) in Hcs, Ht. congruence.
Qed.

(** A step of [t] that leaves the list and the flag alone and takes at most
    permits off the counter. *)
Lemma sem_inv_move s t p c m :
  inv s -> pcs s t <> Suspended -> pcs s t <> ShPopAll ->
  held p = held (pcs s t) -> (parked (pcs s t) -> parked p) -> 0 <= c <= m_counter s ->
  mutex_ok s t p m ->
  pc_ok (mk_state c (m_acquire_waiters s) m (m_shutdown s) ((pcs s).[t ↦ p])) t ->
  inv (mk_state c (m_acquire_waiters s) m (m_shutdown s) ((pcs s).[t ↦ p])).
Proof.
  intros [Hcs Hb Hw0 Hsh Hpc Hpk Hh Hu Hnd Hhn] Hns Hnp Hheld Hpark Hc [Hm1 Hm2] Hok.
  assert (forall x, held ((pcs s).[t ↦ p] x) = held (pcs s x)) as Hhe by (intros; by upd_cases).
  constructor; simpl; try done.
  - intros x. upd_cases; auto.
  - lia.
  - intros H. specialize (Hw0 H). lia.
  - intros H. destruct (Hsh H) as [?|[x Hx]]; [by left|]. right. exists x. rewrite upd_ne; congruence.
  - intros x. destruct (decide (x = t)) as [->|Hne]; [done|]. specialize (Hpc x).
    unfold pc_ok in *. simpl. rewrite upd_ne by done. destruct (pcs s x); try done; try lia.
    + destruct Hpc. split; [done|lia].
    + destruct Hpc as [?|[t' Ht']]; [by left|]. right. exists t'. by rewrite Hhe.
    + destruct Hpc. split; [lia|done].
  - intros x Hx. specialize (Hpk x Hx). upd_cases; auto.
  - intros x y. rewrite Hhe. intros Hy. destruct (Hh _ _ Hy) as [Hy1 Hy2]. split; [|done].
    rewrite upd_ne; [done|]. congruence.
  - intros t1 t2 x. rewrite !Hhe. apply Hu.
  - intros x. rewrite Hhe. apply Hhn.
Qed.

(** resume() of a coroutine that [t] holds. *)
Lemma sem_inv_resume s t w p :
  inv s -> held (pcs s t) = w :: held p -> cs p = false -> cs (pcs s t) = false ->
  pcs s t <> Suspended -> p <> Suspended -> p <> AcqParkUnlock ->
  (pc_ok (set_pc s t p) t) ->
  pcs s w = Suspended /\ inv (set_pc (set_pc s t p) w AcqResume).
Proof.
  intros [Hcs Hb Hw0 Hsh Hpc Hpk Hh Hu Hnd Hhn] Hheld Hcp Hct Hns Hps Hpp Hok.
  assert (w ∈ held (pcs s t)) as Hwt by (rewrite Hheld; by left).
  destruct (Hh _ _ Hwt) as [Hws Hwn]. split; [done|].
  assert (w <> t) as Hwne by congruence.
  assert (forall x, held ((pcs s).[t ↦ p].[w ↦ AcqResume] x) =
            if decide (x = t) then held p else held (pcs s x)) as Hhe.
  { intros x. destruct (decide (x = w)) as [->|]; [rewrite upd_eq, decide_False, Hws by done; done|].
    rewrite upd_ne by done. destruct (decide (x = t)) as [->|]; [by rewrite upd_eq|by rewrite upd_ne]. }
  assert (NoDup (w :: held p)) as Hndp by (rewrite <- Hheld; apply Hhn).
  apply list.NoDup_cons in Hndp as [Hwp Hndp].
  assert (forall x y, y ∈ held ((pcs s).[t ↦ p].[w ↦ AcqResume] x) -> y ∈ held (pcs s x) /\ y <> w) as Hin.
  { intros x y. rewrite Hhe. case_decide as Hx; [subst x|].
    - intros Hy. split; [rewrite Hheld; by right|]. by intros ->.
    - intros Hy. split; [done|]. intros ->. by destruct Hx, (Hu x t w Hy Hwt). }
  constructor; simpl; try done.
  - intros x. upd_cases; [done|congruence|auto].
  - intros H. destruct (Hsh H) as [?|[x Hx]]; [by left|]. right. exists x.
    rewrite !upd_ne; [done|..]; intros ->; [by rewrite Hx in Hct|congruence].
  - intros x. destruct (decide (x = w)) as [->|Hxw]; [unfold pc_ok; simpl; by rewrite upd_eq|].
    destruct (decide (x = t)) as [->|Hxt].
    + unfold pc_ok in *. simpl in *. rewrite upd_ne by done. rewrite upd_eq in *. by destruct p.
    + specialize (Hpc x). unfold pc_ok in *. simpl. rewrite !upd_ne by done.
      destruct (pcs s x) eqn:Hx; try done. destruct Hpc as [?|[t' Ht']]; [by left|]. right.
      exists t'. rewrite Hhe. case_decide as Htt; [|done]. subst t'. rewrite Hheld in Ht'.
      by apply elem_of_cons in Ht' as [->|?].
  - intros x Hx. specialize (Hpk x Hx). upd_cases; [done| |done].
    destruct Hpk as [?|Hpk]; [done|]. by rewrite Hpk in Hct.
  - intros x y Hy. destruct (Hin _ _ Hy) as [Hy' Hyw]. destruct (Hh _ _ Hy') as [Hys Hyn].
    split; [|done]. rewrite upd_ne by done. rewrite upd_ne; [done|]. congruence.
  - intros t1 t2 x [H1 _]%Hin [H2 _]%Hin. by eapply Hu.
  - intros x. rewrite Hhe. case_decide; [done|apply Hhn].
Qed.

(** Nobody but the holder [t] is in a critical section. *)
Lemma sem_cs_other s t x : inv s -> cs (pcs s t) = true -> x <> t -> cs (pcs s x) = false.
Proof.
  intros Hinv Ht Hx. destruct (cs (pcs s x)) eqn:Hc; [|done].
  apply (i_cs _ Hinv) in Ht, Hc. congruence.
Qed.

Lemma inv_push s t :
  inv s -> pcs s t = AcqPush ->
  inv (set_pc (set_waiters s (t :: m_acquire_waiters s)) t AcqParkUnlock).
Proof.
  intros Hinv Ht. pose proof (fun x => sem_cs_other s t x Hinv ltac:(by rewrite Ht)) as Hcso.
  destruct Hinv as [Hcs Hb Hw0 Hsh Hpc Hpk Hh Hu Hnd Hhn].
  pose proof (Hpc t) as Hok. unfold pc_ok in Hok. rewrite Ht in Hok. destruct Hok as [Hsf Hc0].
  assert (t ∉ m_acquire_waiters s) as Htn.
  { intros Hin. destruct (Hpk _ Hin) as [?|?]; congruence. }
  assert (forall x, held ((pcs s).[t ↦ AcqParkUnlock] x) = held (pcs s x)) as Hhe.
  { intros x. upd_cases; [by rewrite Ht|done]. }
  constructor; simpl; try done.
  - intros x. upd_cases; [intros _; apply Hcs; by rewrite Ht|auto].
  - congruence.
  - intros x. specialize (Hpc x). unfold pc_ok in *. simpl.
    destruct (decide (x = t)) as [->|Hne]; [rewrite upd_eq; by left|]. rewrite upd_ne by done.
    specialize (Hcso x Hne). destruct (pcs s x); try done.
    destruct Hpc as [?|[t' Ht']]; [left; by right|]. right. exists t'. by rewrite Hhe.
  - intros x [->|Hx]%elem_of_cons; [rewrite upd_eq; by right|]. specialize (Hpk _ Hx).
    upd_cases; [by right|done].
  - intros x y. rewrite Hhe. intros Hy. destruct (Hh _ _ Hy) as [Hy1 Hy2].
    rewrite upd_ne by congruence. split; [done|]. apply not_elem_of_cons. split; [congruence|done].
  - intros t1 t2 x. rewrite !Hhe. apply Hu.
  - by apply list.NoDup_cons.
  - intros x. rewrite Hhe. apply Hhn.
Qed.

(** Taking waiters off the list: [taken] are the first ones, [t] holds them now. *)
Lemma sem_inv_take s t p taken ws :
  inv s -> cs (pcs s t) = true -> cs p = true -> m_acquire_waiters s = taken ++ ws ->
  held (pcs s t) = [] -> held p = taken -> ~ parked (pcs s t) -> ~ parked p ->
  (m_shutdown s = true -> ws = []) -> p <> ShPopAll ->
  pc_ok (set_pc (set_waiters s ws) t p) t ->
  inv (set_pc (set_waiters s ws) t p).
Proof.
  intros Hinv Ht Hcp Hws Hh0 Hhp Hnpk Hpp Hsd Hnp Hok.
  pose proof (fun x => sem_cs_other s t x Hinv Ht) as Hcso.
  destruct Hinv as [Hcs Hb Hw0 Hsh Hpc Hpk Hh Hu Hnd Hhn].
  rewrite Hws in *. apply list.NoDup_app in Hnd as (Hnd1 & Hdisj & Hnd2).
  assert (forall x, x ∈ taken -> pcs s x = Suspended) as Hsusp.
  { intros x Hx. destruct (Hpk x ltac:(apply elem_of_app; by left)) as [?|Hp]; [done|].
    destruct (decide (x = t)) as [->|Hne]; [by destruct Hnpk; right|].
    specialize (Hcso x Hne). by rewrite Hp in Hcso. }
  assert (forall x, x ∈ held (pcs s t) -> False) as Hnh by (intros x; rewrite Hh0; intros; no_nil).
  constructor; simpl; try done.
  - intros x. upd_cases; [intros _; by apply Hcs|auto].
  - intros H. apply Hw0. intros [_ ?]%app_eq_nil. done.
  - intros H. left. auto.
  - intros x. destruct (decide (x = t)) as [->|Hne]; [done|]. specialize (Hpc x).
    unfold pc_ok in *. simpl. rewrite upd_ne by done. specialize (Hcso x Hne).
    destruct (pcs s x) eqn:Hx; try done. rewrite Hws in Hpc.
    destruct Hpc as [[Hin|?]%elem_of_app|[t' Ht']]; [right; exists t; by rewrite upd_eq, Hhp|by left|].
    right. exists t'. rewrite upd_ne; [done|]. intros ->. by apply Hnh in Ht'.
  - intros x Hx. specialize (Hpk x ltac:(apply elem_of_app; by right)).
    upd_cases; [done|done].
  - intros x y. destruct (decide (x = t)) as [->|Hne].
    + rewrite upd_eq, Hhp. intros Hy. split; [|by apply Hdisj]. rewrite upd_ne; [by apply Hsusp|].
      intros ->. apply Hnpk. left. by apply Hsusp.
    + rewrite upd_ne by done. intros Hy. destruct (Hh _ _ Hy) as [Hy1 Hy2].
      rewrite not_elem_of_app in Hy2. split; [|tauto]. rewrite upd_ne; [done|]. intros ->. apply Hnpk. by left.
  - intros t1 t2 x H1 H2. destruct (decide (t1 = t)) as [->|H1t], (decide (t2 = t)) as [->|H2t]; try done.
    + rewrite upd_eq, Hhp in H1. rewrite upd_ne in H2 by done. destruct (Hh _ _ H2) as [_ Hn].
      destruct Hn. apply elem_of_app. by left.
    + rewrite upd_eq, Hhp in H2. rewrite upd_ne in H1 by done. destruct (Hh _ _ H1) as [_ Hn].
      destruct Hn. apply elem_of_app. by left.
    + rewrite upd_ne in H1, H2 by done. by eapply Hu.
  - intros x. destruct (decide (x = t)) as [->|Hne]; [by rewrite upd_eq, Hhp|by rewrite upd_ne].
Qed.

Lemma inv_add s t :
  inv s -> pcs s t = RelAdd -> max_value <= s64_max ->
  s64 (m_counter s + 1) = m_counter s + 1 /\
  inv (set_pc (set_counter s (m_counter s + 1)) t RelUnlock).
Proof.
  intros Hinv Ht Hmax. pose proof (fun x => sem_cs_other s t x Hinv ltac:(by rewrite Ht)) as Hcso.
  destruct Hinv as [Hcs Hb Hw0 Hsh Hpc Hpk Hh Hu Hnd Hhn].
  pose proof (Hpc t) as Hok. unfold pc_ok in Hok. rewrite Ht in Hok. destruct Hok as [Hlt Hnil].
  split; [apply s64_small; unfold s64_min; lia|].
  assert (forall x, held ((pcs s).[t ↦ RelUnlock] x) = held (pcs s x)) as Hhe.
  { intros x. upd_cases; [by rewrite Ht|done]. }
  constructor; simpl; try done.
  - intros x. upd_cases; [intros _; apply Hcs; by rewrite Ht|auto].
  - lia.
  - intros H. left. done.
  - intros x. specialize (Hpc x). unfold pc_ok in *. simpl.
    destruct (decide (x = t)) as [->|Hne]; [by rewrite upd_eq|]. rewrite upd_ne by done.
    specialize (Hcso x Hne). destruct (pcs s x); try done.
    destruct Hpc as [?|[t' Ht']]; [by left|]. right. exists t'. by rewrite Hhe.
  - intros x Hx. rewrite Hnil in Hx. no_nil.
  - intros x y. rewrite Hhe. intros Hy. destruct (Hh _ _ Hy). split; [|done]. rewrite upd_ne by congruence. done.
  - intros t1 t2 x. rewrite !Hhe. apply Hu.
  - intros x. rewrite Hhe. apply Hhn.
Qed.

Lemma inv_set_shutdown s t :
  inv s -> pcs s t = ShCas -> holds s t = true -> inv (set_pc (set_shutdown s) t ShPopAll).
Proof.
  intros [Hcs Hb Hw0 Hsh Hpc Hpk Hh Hu Hnd Hhn] Ht Hold%bool_decide_eq_true.
  assert (forall x, held ((pcs s).[t ↦ ShPopAll] x) = held (pcs s x)) as Hhe.
  { intros x. upd_cases; [by rewrite Ht|done]. }
  assert (forall x, x <> t -> cs (pcs s x) = false) as Hcso.
  { intros x Hx. destruct (cs (pcs s x)) eqn:Hc; [|done]. apply Hcs in Hc. congruence. }
  constructor; simpl; try done.
  - intros x. upd_cases; auto.
  - intros _. right. exists t. by rewrite upd_eq.
  - intros x. specialize (Hpc x). unfold pc_ok in *. simpl.
    destruct (decide (x = t)) as [->|Hne]; [by rewrite upd_eq|]. rewrite upd_ne by done.
    specialize (Hcso x Hne). destruct (pcs s x); try done.
    destruct Hpc as [?|[t' Ht']]; [by left|]. right. exists t'. by rewrite Hhe.
  - intros x Hx. specialize (Hpk x Hx). upd_cases; [|done]. destruct Hpk; congruence.
  - intros x y. rewrite Hhe. intros Hy. destruct (Hh _ _ Hy). split; [|done]. rewrite upd_ne by congruence. done.
  - intros t1 t2 x. rewrite !Hhe. apply Hu.
  - intros x. rewrite Hhe. apply Hhn.
Qed.

(** ** Permits *)

(** The coroutines that were given a permit, and those whose acquire() returned
    [acquired]. *)
Definition grantees (tr : list event) : list nat :=
  omap (fun e => match e with Taken t => Some t | Handed _ w => Some w | _ => None end) tr.
Definition results (tr : list event) : list nat :=
  omap (fun e => match e with Result t acquired => Some t | _ => None end) tr.
Definition n_taken (tr : list event) : Z :=
  Z.of_nat (length (omap (fun e => match e with Taken t => Some t | _ => None end) tr)).
Definition n_added (tr : list event) : Z :=
  Z.of_nat (length (omap (fun e => match e with Added t => Some t | _ => None end) tr)).
Definition n_handed (tr : list event) : Z :=
  Z.of_nat (length (omap (fun e => match e with Handed t _ => Some t | _ => None end) tr)).

Definition is_bad (e : event) : Prop := match e with BadResume _ _ => True | _ => False end.

(** [x] is on its way to return from acquire(). *)
Definition due (s : state) (x : nat) : Prop :=
  pcs s x = AcqUnlock \/ pcs s x = AcqResume \/ exists t, x ∈ held (pcs s t).

Definition granted_inv (s : state) (tr : list event) : Prop :=
  forall x, (occ x (results tr) <= occ x (grantees tr))%nat /\
    (m_shutdown s = false -> due s x -> (occ x (results tr) < occ x (grantees tr))%nat).

Lemma granted_keep s s' tr ev :
  granted_inv s tr -> results ev = [] ->
  (forall x, m_shutdown s' = false -> due s' x ->
     (m_shutdown s = false /\ due s x) \/ x ∈ grantees ev) ->
  granted_inv s' (tr ++ ev).
Proof.
  intros HG Hres Hdue x. specialize (HG x) as [Hle Hlt].
  unfold results, grantees in *. rewrite !omap_app, !occ_app, Hres. simpl. split; [lia|].
  intros Hs Hd. destruct (Hdue x Hs Hd) as [[Hs' Hd']|Hin]; [specialize (Hlt Hs' Hd'); lia|].
  apply list_elem_of_split in Hin as (l1 & l2 & ->). rewrite occ_app. simpl.
  case_decide; [lia|done].
Qed.

(** Moves that give nobody a new claim to return. *)
Lemma due_move s t p x c ws m sh :
  held p = held (pcs s t) -> (p = AcqUnlock -> pcs s t = AcqUnlock) ->
  (p = AcqResume -> pcs s t = AcqUnlock) ->
  due (mk_state c ws m sh ((pcs s).[t ↦ p])) x -> due s x.
Proof.
  intros Hh H1 H2 [H|[H|[t' H]]]; simpl in H.
  - upd_cases; [left; auto|by left].
  - upd_cases; [left; auto|by right; left].
  - right. right. exists t'. upd_cases; [by rewrite <- Hh|done].
Qed.

Definition step_ok (s : state) (tr : list event) (s' : state) (ev : list event) : Prop :=
  inv s' /\ Forall (fun e => ~ is_bad e) ev /\
  m_counter s' = m_counter s + n_added ev - n_taken ev /\ granted_inv s' (tr ++ ev).

(** A silent step that only moves [t] and the mutex. *)
Lemma step_ok_move s tr t p m :
  inv s -> granted_inv s tr -> pcs s t <> Suspended -> pcs s t <> ShPopAll ->
  held p = held (pcs s t) -> (parked (pcs s t) -> parked p) -> mutex_ok s t p m ->
  pc_ok (mk_state (m_counter s) (m_acquire_waiters s) m (m_shutdown s) ((pcs s).[t ↦ p])) t ->
  (p = AcqUnlock -> m_shutdown s = true) -> (p = AcqResume -> pcs s t = AcqUnlock) ->
  step_ok s tr (set_pc (set_mutex s m) t p) [].
Proof.
  intros Hinv HG Hns Hnp Hheld Hpk Hm Hok Hau Har. split; [|split; [constructor|split]].
  - apply (sem_inv_move s t p (m_counter s) m); try done. pose proof (i_bounds _ Hinv). lia.
  - unfold n_added, n_taken. simpl. lia.
  - apply (granted_keep s); [done|done|]. intros x Hsh Hd. left. simpl in Hsh. split; [done|].
    eapply due_move; [exact Hheld| |exact Har|exact Hd]. intros ->. rewrite Hau in Hsh; done.
Qed.

(** A step of [t] without effect on the mutex. *)
Lemma sem_step_ok_local s tr t p :
  inv s -> granted_inv s tr -> pcs s t <> Suspended -> pcs s t <> ShPopAll ->
  held p = held (pcs s t) -> (parked (pcs s t) -> parked p) ->
  (cs p = true -> lk_holder (m_mutex s) = Some t) -> pc_ok (set_pc s t p) t ->
  (p = AcqUnlock -> m_shutdown s = true) -> p <> AcqResume -> step_ok s tr (set_pc s t p) [].
Proof.
  intros Hinv HG Hns Hnp Hheld Hpk Hm Hok Hau Har.
  replace (set_pc s t p) with (set_pc (set_mutex s (m_mutex s)) t p) by done.
  apply step_ok_move; try done. by apply mutex_ok_same.
Qed.

(** unlock() at the end of a critical section. *)
Lemma step_ok_unlock s tr t p :
  inv s -> granted_inv s tr -> cs (pcs s t) = true -> cs p = false -> pcs s t <> ShPopAll ->
  held p = held (pcs s t) -> (parked (pcs s t) -> parked p) ->
  pc_ok (unlock s t p) t -> (p = AcqResume -> pcs s t = AcqUnlock) ->
  step_ok s tr (unlock s t p) [].
Proof.
  intros Hinv HG Hcs Hcp Hnp Hheld Hpk Hok Har. unfold unlock.
  apply step_ok_move; try done; [by intros Heq; rewrite Heq in Hcs|by apply mutex_ok_unlock|].
  by intros ->.
Qed.

(** The two halves of try_acquire, for either caller. *)
Lemma try_test_ok s tr t fail cas :
  inv s -> granted_inv s tr -> pcs s t <> Suspended -> pcs s t <> ShPopAll ->
  held (pcs s t) = [] -> ~ parked (pcs s t) ->
  (forall p, p = fail \/ p = cas (m_counter s) -> held p = [] /\ p <> AcqResume /\ p <> AcqUnlock /\
     (cs p = true -> lk_holder (m_mutex s) = Some t)) ->
  (m_counter s <= 0 -> pc_ok (set_pc s t fail) t) ->
  (0 < m_counter s -> pc_ok (set_pc s t (cas (m_counter s))) t) ->
  step_ok s tr (try_test s t (m_counter s) fail cas) [].
Proof.
  intros Hinv HG Hns Hnp Hh Hpk Hp Hf Hc. unfold try_test.
  assert (forall p, p = fail \/ p = cas (m_counter s) -> pc_ok (set_pc s t p) t ->
            step_ok s tr (set_pc s t p) []) as Hgo.
  { intros p Hpp Hok. destruct (Hp p Hpp) as (? & ? & ? & ?).
    apply sem_step_ok_local; try done; congruence. }
  destruct (Z.leb_spec (m_counter s) 0); apply Hgo; auto.
Qed.

Lemma try_cas_ok s tr t sp e okp fail cas :
  inv s -> granted_inv s tr -> pcs s t <> Suspended -> pcs s t <> ShPopAll ->
  held (pcs s t) = [] -> ~ parked (pcs s t) -> 0 < e ->
  (forall p, p = fail \/ p = cas (m_counter s) -> held p = [] /\ p <> AcqResume /\ p <> AcqUnlock /\
     (cs p = true -> lk_holder (m_mutex s) = Some t)) ->
  (m_counter s <= 0 -> pc_ok (set_pc s t fail) t) ->
  (0 < m_counter s -> pc_ok (set_pc s t (cas (m_counter s))) t) ->
  (okp = Idle \/ (okp = AcqUnlock /\ lk_holder (m_mutex s) = Some t)) -> max_value <= s64_max ->
  step_ok s tr (try_cas s t sp e okp fail cas).1 (try_cas s t sp e okp fail cas).2.
Proof.
  intros Hinv HG Hns Hnp Hh Hpk He Hp Hf Hc Hokp Hmax. unfold try_cas.
  destruct (negb sp && (m_counter s =? e)) eqn:Hg; [|by apply try_test_ok].
  apply andb_true_iff in Hg as [_ Heq%Z.eqb_eq]. pose proof (i_bounds _ Hinv) as Hb.
  rewrite s64_small by (unfold s64_min; lia).
  assert (held okp = []) as Hho by (by destruct Hokp as [->|[-> _]]).
  assert (okp <> AcqResume) as Hokr by (by destruct Hokp as [->|[-> _]]).
  split; [|split; [by repeat constructor; intros []|split]].
  - apply (sem_inv_move s t okp (e - 1) (m_mutex s)); try done; [congruence|lia| |].
    + apply mutex_ok_same; [done|]. destruct Hokp as [->|[-> ?]]; done.
    + unfold pc_ok. simpl. rewrite upd_eq. by destruct Hokp as [->|[-> ?]].
  - unfold n_added, n_taken. simpl. lia.
  - apply (granted_keep s); [done|done|]. intros x Hsh Hd.
    destruct (decide (x = t)) as [->|Hne]; [right; by left|]. left. split; [done|].
    destruct Hd as [Hd|[Hd|[t' Hd]]]; simpl in Hd.
    + left. by rewrite upd_ne in Hd.
    + right; left. by rewrite upd_ne in Hd.
    + right; right. exists t'. upd_cases; [rewrite Hho in Hd; no_nil|done].
Qed.

Lemma resume_ok s tr t w p :
  inv s -> granted_inv s tr -> held (pcs s t) = w :: held p -> cs p = false -> cs (pcs s t) = false ->
  pcs s t <> Suspended -> p <> Suspended -> p <> AcqParkUnlock -> p <> AcqResume -> p <> AcqUnlock ->
  pc_ok (set_pc s t p) t ->
  step_ok s tr (resume s t w p).1 (resume s t w p).2.
Proof.
  intros Hinv HG Hheld Hcp Hct Hns Hps Hpp Hpr Hpu Hok.
  destruct (sem_inv_resume s t w p) as [Hw Hinv']; try done. unfold resume. rewrite decide_True by done.
  split; [done|]. split; [constructor|]. split; [unfold n_added, n_taken; simpl; lia|].
  apply (granted_keep s); [done|done|]. intros x Hsh Hd. left. split; [done|].
  destruct Hd as [Hd|[Hd|[t' Hd]]]; simpl in Hd.
  - upd_cases; [done|done|]. by left.
  - destruct (decide (x = w)) as [->|Hxw]; [right; right; exists t; rewrite Hheld; by left|].
    rewrite upd_ne in Hd by done. upd_cases; [done|]. by right; left.
  - right; right. destruct (decide (t' = w)) as [->|Htw]; [rewrite upd_eq in Hd; simpl in Hd; no_nil|].
    rewrite upd_ne in Hd by done. exists t'. upd_cases; [rewrite Hheld; by right|done].
Qed.

Ltac pcok := unfold pc_ok; simpl; rewrite upd_eq.

Lemma acquire_step s tr t sp s' ev :
  inv s -> granted_inv s tr -> max_value <= s64_max -> (entry (pcs s t) = true -> holds s t = true) ->
  exec_acquire t sp s = Some (s', ev) -> step_ok s tr s' ev.
Proof.
  intros Hinv HG Hmax Hen H. unfold exec_acquire in H.
  pose proof (i_pc _ Hinv t) as Hok. unfold pc_ok in Hok.
  pose proof (i_cs _ Hinv t) as Hcs. pose proof (i_bounds _ Hinv) as Hb.
  assert (forall again, pcs s t = AcqTryLoad again \/ (exists e, pcs s t = AcqTryCas again e) ->
    m_shutdown s = false -> lk_holder (m_mutex s) = Some t ->
    (forall p, p = acq_fail again \/ p = AcqTryCas again (m_counter s) ->
       held p = [] /\ p <> AcqResume /\ p <> AcqUnlock /\
       (cs p = true -> lk_holder (m_mutex s) = Some t)) /\
    (m_counter s <= 0 -> pc_ok (set_pc s t (acq_fail again)) t) /\
    (0 < m_counter s -> pc_ok (set_pc s t (AcqTryCas again (m_counter s))) t)) as Htry.
  { intros again Hpc Hsh Hold. split_and!.
    - intros p Hp. split_and!; try done; by destruct Hp as [->| ->]; destruct again.
    - intros Hle. pcok. destruct again; simpl; [split; [done|lia]|done].
    - intros Hlt. by pcok. }
  destruct (pcs s t) as [|again|again|again e| | | | | | | | | | | | | | | | | | |] eqn:Ht; try done.
  - assert (lk_holder (m_mutex s) = Some t) as Hold.
    { destruct again; [by apply Hcs|]. by eapply bool_decide_eq_true_1, Hen. }
    destruct (m_shutdown s) eqn:Hsh; simplify_eq; apply sem_step_ok_local; rewrite ?Ht; try done;
      try (by intros [|]); by pcok.
  - simplify_eq. destruct (Htry again) as (H1 & H2 & H3); [by left|done|by apply Hcs|].
    apply try_test_ok; rewrite ?Ht; try done; by intros [|].
  - destruct Hok as [Hsh He]. destruct (Htry again) as (H1 & H2 & H3); [by right; exists e|done|by apply Hcs|].
    destruct (try_cas s t sp e AcqUnlock (acq_fail again) (AcqTryCas again)) as [s1 ev1] eqn:Hc.
    simplify_eq. replace s' with (s', ev).1 by done. replace ev with (s', ev).2 at 2 by done. rewrite <- Hc.
    apply try_cas_ok; rewrite ?Ht; try done; [by intros [|]|]. right. split; [done|by apply Hcs].
  - simplify_eq. split; [by apply inv_push|]. split; [constructor|].
    split; [unfold n_added, n_taken; simpl; lia|].
    apply (granted_keep s); [done|done|]. intros x Hsh Hd. left. split; [done|].
    eapply due_move; [| | |exact Hd]; rewrite ?Ht; done.
  - simplify_eq. apply step_ok_unlock; rewrite ?Ht; try done; [by left|].
    pcok. by left.
  - simplify_eq. apply step_ok_unlock; rewrite ?Ht; try done; [by intros [|]|]. by pcok.
  - simplify_eq. split; [|split; [by repeat constructor; intros []|split]].
    + apply (sem_inv_move s t Idle (m_counter s) (m_mutex s)); rewrite ?Ht; try done; [by intros [|]|lia| |by pcok].
      apply mutex_ok_same; [done|]. done.
    + unfold n_added, n_taken. destruct (m_shutdown s); simpl; lia.
    + intros x. specialize (HG x) as [Hle Hlt]. unfold results, grantees in *.
      rewrite !omap_app, !occ_app. simpl. destruct (m_shutdown s) eqn:Hsh; simpl; [split; [lia|done]|].
      case_decide as Hx; [subst x|].
      * specialize (Hlt eq_refl ltac:(right; by left)). split; [lia|]. intros _.
        intros [Hd|[Hd|[t' Hd]]]; simpl in Hd; rewrite ?upd_eq in Hd; [done..|].
        upd_cases; [simpl in Hd; no_nil|]. destruct (i_held _ Hinv _ _ Hd). congruence.
      * split; [lia|]. intros _ Hd. rewrite !Nat.add_0_r. apply Hlt; [done|].
        destruct Hd as [Hd|[Hd|[t' Hd]]]; simpl in Hd.
        -- left. by rewrite upd_ne in Hd.
        -- right; left. by rewrite upd_ne in Hd.
        -- right; right. exists t'. upd_cases; [simpl in Hd; no_nil|done].
Qed.

(** The pair of a total step as its two components. *)
Lemma step_ok_pair s tr r s' ev : r = (s', ev) -> step_ok s tr r.1 r.2 -> step_ok s tr s' ev.
Proof. by intros ->. Qed.

Lemma release_step s tr t s' ev :
  inv s -> granted_inv s tr -> max_value <= s64_max -> (entry (pcs s t) = true -> holds s t = true) ->
  exec_release t s = Some (s', ev) -> step_ok s tr s' ev.
Proof.
  intros Hinv HG Hmax Hen H. unfold exec_release in H.
  pose proof (i_pc _ Hinv t) as Hok. unfold pc_ok in Hok.
  pose proof (i_cs _ Hinv t) as Hcs. pose proof (i_bounds _ Hinv) as Hb.
  destruct (pcs s t) as [| | | | | | | | | | |w|w| | | | | | | | | |] eqn:Ht; try done.
  - simplify_eq. unfold value. apply sem_step_ok_local; rewrite ?Ht; try done.
    + by case_match.
    + by intros [|].
    + intros _. by eapply bool_decide_eq_true_1, Hen.
    + pcok. destruct (Z.eqb_spec (m_counter s) max_value); [done|lia].
    + by case_match.
    + by case_match.
  - destruct (m_acquire_waiters s) as [|w ws] eqn:Hws; simplify_eq.
    + apply sem_step_ok_local; rewrite ?Ht; try done; [by intros [|]|]. pcok.
      by rewrite Hws.
    + split; [|split; [by repeat constructor; intros []|split]].
      * apply (sem_inv_take s t _ [w] ws); rewrite ?Ht; try done; try (by intros [|]); [|by pcok].
        intros Hsh. destruct (i_shut _ Hinv Hsh) as [Hnil|[x Hx]]; [by rewrite Hws in Hnil|].
        assert (x = t) as -> by (pose proof (i_cs _ Hinv x ltac:(by rewrite Hx)) as H1;
          specialize (Hcs eq_refl); congruence). congruence.
      * unfold n_added, n_taken. simpl. lia.
      * apply (granted_keep s); [done|done|]. intros x Hsh Hd. simpl.
        destruct Hd as [Hd|[Hd|[t' Hd]]]; simpl in Hd.
        -- left. split; [done|]. left. by upd_cases.
        -- left. split; [done|]. right; left. by upd_cases.
        -- destruct (decide (t' = t)) as [->|Hne]; [rewrite upd_eq in Hd; by right|].
           rewrite upd_ne in Hd by done. left. split; [done|]. right; right. by exists t'.
  - simplify_eq. apply step_ok_unlock; rewrite ?Ht; try done; [by intros [|]|]. by pcok.
  - simplify_eq. eapply step_ok_pair; [done|]. apply resume_ok; rewrite ?Ht; try done. by pcok.
  - simplify_eq. destruct (inv_add s t Hinv Ht Hmax) as [Heq Hinv']. rewrite Heq.
    split; [done|]. split; [by repeat constructor; intros []|]. split; [unfold n_added, n_taken; simpl; lia|].
    apply (granted_keep s); [done|done|]. intros x Hsh Hd. left. split; [done|].
    eapply due_move; [| | |exact Hd]; rewrite ?Ht; done.
  - simplify_eq. apply step_ok_unlock; rewrite ?Ht; try done; [by intros [|]|]. by pcok.
Qed.

Lemma try_step s tr t sp s' ev :
  inv s -> granted_inv s tr -> max_value <= s64_max ->
  exec_try t sp s = Some (s', ev) -> step_ok s tr s' ev.
Proof.
  intros Hinv HG Hmax H. unfold exec_try in H.
  pose proof (i_pc _ Hinv t) as Hok. unfold pc_ok in Hok.
  assert (forall p, p = Idle \/ p = TryCas (m_counter s) ->
    held p = [] /\ p <> AcqResume /\ p <> AcqUnlock /\
    (cs p = true -> lk_holder (m_mutex s) = Some t)) as Hp by (by intros p [->| ->]).
  destruct (pcs s t) as [| | | | | | | | | | | | | | | |e| | | | | |] eqn:Ht; try done.
  - simplify_eq. apply try_test_ok; rewrite ?Ht; try done; [by intros [|]|intros; by pcok..].
  - simplify_eq. eapply step_ok_pair; [done|].
    apply try_cas_ok; rewrite ?Ht; try done; [by intros [|]|intros; by pcok..|]. by left.
Qed.

Lemma shutdown_step s tr t s' ev :
  inv s -> granted_inv s tr -> (entry (pcs s t) = true -> holds s t = true) ->
  exec_shutdown t s = Some (s', ev) -> step_ok s tr s' ev.
Proof.
  intros Hinv HG Hen H. unfold exec_shutdown in H.
  pose proof (i_pc _ Hinv t) as Hok. unfold pc_ok in Hok.
  pose proof (i_cs _ Hinv t) as Hcs.
  destruct (pcs s t) as [| | | | | | | | | | | | | | | | | | | |ws| |[|w ws]] eqn:Ht; try done.
  - destruct (is_shutdown s); simplify_eq.
    + apply sem_step_ok_local; rewrite ?Ht; try done; [by intros [|]|by pcok].
    + apply step_ok_move; rewrite ?Ht; try done; [by intros [|]|by apply mutex_ok_lock|by pcok].
  - assert (lk_holder (m_mutex s) = Some t) as Hold by (by eapply bool_decide_eq_true_1, Hen).
    destruct (m_shutdown s) eqn:Hsh; simplify_eq.
    + apply sem_step_ok_local; rewrite ?Ht; try done; [by intros [|]|by pcok].
    + split; [apply inv_set_shutdown; auto|]. split; [constructor|].
      split; [unfold n_added, n_taken; simpl; lia|]. by apply (granted_keep s).
  - simplify_eq. split; [|split; [constructor|split]].
    + eapply (sem_inv_take s t _ (m_acquire_waiters s) []); rewrite ?Ht, ?app_nil_r; try done; try (by intros [|]).
      by pcok.
    + unfold n_added, n_taken. simpl. lia.
    + apply (granted_keep s); [done|done|]. intros x Hsh. simpl in Hsh. congruence.
  - simplify_eq. apply step_ok_unlock; rewrite ?Ht; try done; [by intros [|]|]. by pcok.
  - simplify_eq. apply step_ok_unlock; rewrite ?Ht; try done; [by intros [|]|]. by pcok.
  - simplify_eq. apply sem_step_ok_local; rewrite ?Ht; try done; [by intros [|]|by pcok].
  - simplify_eq. eapply step_ok_pair; [done|]. apply resume_ok; rewrite ?Ht; try done. by pcok.
Qed.

Lemma sem_step s tr l s' ev :
  inv s -> granted_inv s tr -> max_value <= s64_max -> exec l s = Some (s', ev) -> step_ok s tr s' ev.
Proof.
  intros Hinv HG Hmax H. destruct l as [t o|t sp]; simpl in H.
  - destruct (pcs s t) eqn:Ht; try done. destruct o; simplify_eq.
    1, 2: apply step_ok_move; rewrite ?Ht; try done; [by intros [|]|by apply mutex_ok_lock|by pcok].
    1, 2: apply sem_step_ok_local; rewrite ?Ht; try done; [by intros [|]|by pcok].
  - destruct (entry (pcs s t) && negb (holds s t)) eqn:Hen; [done|].
    assert (entry (pcs s t) = true -> holds s t = true) as Hen'.
    { intros He. rewrite He in Hen. by destruct (holds s t). }
    destruct (pcs s t) eqn:Ht; try done; rewrite <- Ht in Hen';
      first [by eapply acquire_step|by eapply release_step|by eapply try_step|by eapply shutdown_step].
Qed.

Lemma reach_sem c s tr :
  0 <= c <= max_value -> max_value <= s64_max -> reach exec (make c) s tr ->
  inv s /\ Forall (fun e => ~ is_bad e) tr /\ m_counter s = c + n_added tr - n_taken tr /\ granted_inv s tr.
Proof.
  intros Hc Hmax. revert s tr. apply (reach_inv exec (fun s tr => inv s /\
    Forall (fun e => ~ is_bad e) tr /\ m_counter s = c + n_added tr - n_taken tr /\ granted_inv s tr)).
  - split; [by apply sem_inv_init|]. split; [constructor|].
    split; [unfold n_added, n_taken; simpl; lia|]. intros x. split; [done|]. intros _.
    intros [?|[?|[t Ht]]]; [done..|]. simpl in Ht. no_nil.
  - intros s tr l s' ev (Hinv & Hb & Hm & HG) He.
    destruct (sem_step s tr l s' ev Hinv HG Hmax He) as (Hinv' & Hb' & Hm' & HG').
    split; [done|]. split; [by apply Forall_app|]. split; [|done].
    unfold n_added, n_taken in *. rewrite !omap_app, !length_app in *. lia.
Qed.

Lemma granted_total s tr : granted_inv s tr ->
  Z.of_nat (length (results tr)) <= n_taken tr + n_handed tr.
Proof.
  intros HG. assert (length (results tr) <= length (grantees tr))%nat as Hle.
  { apply occ_le_length. intros x. apply HG. }
  assert (Z.of_nat (length (grantees tr)) = n_taken tr + n_handed tr) as Heq; [|lia].
  unfold grantees, n_taken, n_handed. clear. induction tr as [|[] tr IH]; cbn [omap list_omap length] in *; lia.
Qed.

(** [C11] Permits are conserved: in every schedule the counter stays between 0 and
    max(), it is the starting value plus the releases that were put back minus
    the permits taken, and acquire() returned [acquired] at most once per
    permit, so no more coroutines hold the semaphore than it has resources. *)
Theorem semaphore_permits c s tr :
  0 <= c <= max_value -> max_value <= s64_max -> reach exec (make c) s tr ->
  0 <= value s <= max_value /\ value s = c + n_added tr - n_taken tr /\
  value s + Z.of_nat (length (results tr)) <= c + n_added tr + n_handed tr /\
  forall x, (occ x (results tr) <= occ x (grantees tr))%nat.
Proof.
  intros Hc Hmax Hr. destruct (reach_sem _ _ _ Hc Hmax Hr) as (Hinv & _ & Hm & HG).
  pose proof (granted_total _ _ HG). pose proof (i_bounds _ Hinv). unfold value.
  split_and!; try lia. intros x. apply HG.
Qed.

(** [C12] No lost permit: a suspended acquirer is in the waiter list while the
    counter is zero and the semaphore is not shut down (or its waiters are just
    being collected), or some release() or shutdown() is about to resume it. *)
Theorem semaphore_no_lost_waiter c s tr x :
  0 <= c <= max_value -> max_value <= s64_max -> reach exec (make c) s tr -> pcs s x = Suspended ->
  (x ∈ m_acquire_waiters s /\ value s = 0 /\ (is_shutdown s = false \/ exists t, pcs s t = ShPopAll)) \/
  exists t, x ∈ held (pcs s t).
Proof.
  intros Hc Hmax Hr Hx. destruct (reach_sem _ _ _ Hc Hmax Hr) as (Hinv & _).
  pose proof (i_pc _ Hinv x) as Hok. unfold pc_ok in Hok. rewrite Hx in Hok.
  destruct Hok as [Hin|?]; [left|by right]. split; [done|]. split.
  - apply (i_wait0 _ Hinv). intros Hn. rewrite Hn in Hin. no_nil.
  - unfold is_shutdown. destruct (m_shutdown s) eqn:Hsh; [right|by left].
    destruct (i_shut _ Hinv Hsh) as [Hn|?]; [rewrite Hn in Hin; no_nil|done].
Qed.

(** shutdown() wakes everybody exactly once: no resume ever hits a coroutine
    that is not suspended, and once the flag is set and the calls that were
    resuming waiters have returned, nobody is suspended on the semaphore. *)
Theorem semaphore_shutdown_wakes_all c s tr :
  0 <= c <= max_value -> max_value <= s64_max -> reach exec (make c) s tr ->
  Forall (fun e => ~ is_bad e) tr /\
  (is_shutdown s = true -> (forall t, held (pcs s t) = [] /\ pcs s t <> ShPopAll) ->
   forall x, pcs s x <> Suspended).
Proof.
  intros Hc Hmax Hr. destruct (reach_sem _ _ _ Hc Hmax Hr) as (Hinv & Hbad & _).
  split; [done|]. intros Hsh Hq x Hx. pose proof (i_pc _ Hinv x) as Hok.
  unfold pc_ok in Hok. rewrite Hx in Hok. destruct Hok as [Hin|[t Ht]].
  - destruct (i_shut _ Hinv Hsh) as [Hn|[t Ht]]; [rewrite Hn in Hin; no_nil|]. by destruct (Hq t).
  - destruct (Hq t) as [Hh _]. rewrite Hh in Ht. no_nil.
Qed.
End semaphore.

Definition steps (t n : nat) : list label := replicate n (Step t false).

(** With one permit: 0 acquires it, 1 suspends, 0 releases and hands it over. *)
Definition handover : list label :=
  Call 0 Acquire :: steps 0 5 ++ Call 1 Acquire :: steps 1 6 ++ Call 0 Release :: steps 0 4 ++ steps 1 1.

Lemma semaphore_permits_witness :
  exists s tr, run (exec (M := AbsMutex.state) 1) handover (make 1) = Some (s, tr) /\
    tr = [Taken 0; Result 0 acquired; Handed 0 1; Result 1 acquired] /\
    0 <= value s <= 1 /\ value s = 1 + n_added tr - n_taken tr /\
    value s + Z.of_nat (length (results tr)) <= 1 + n_added tr + n_handed tr.
Proof.
  destruct (run (exec (M := AbsMutex.state) 1) handover (make 1)) as [[s tr]|] eqn:Hrun;
    [|vm_compute in Hrun; discriminate].
  exists s, tr. split; [done|]. split; [vm_compute in Hrun; by simplify_eq|].
  destruct (semaphore_permits (M := AbsMutex.state) 1 1 s tr) as (H1 & H2 & H3 & _);
    [lia|by vm_compute|exact (run_reach _ _ _ _ _ Hrun)|done].
Defined.

Lemma semaphore_no_lost_waiter_witness :
  exists s tr, run (exec (M := AbsMutex.state) 1) (take 13 handover) (make 1) = Some (s, tr) /\
    pcs s 1%nat = Suspended /\
    ((1%nat ∈ m_acquire_waiters s /\ value s = 0 /\ (is_shutdown s = false \/ exists t, pcs s t = ShPopAll)) \/
     exists t, 1%nat ∈ held (pcs s t)).
Proof.
  destruct (run (exec (M := AbsMutex.state) 1) (take 13 handover) (make 1)) as [[s tr]|] eqn:Hrun;
    [|vm_compute in Hrun; discriminate].
  assert (pcs s 1%nat = Suspended) as Hp by (vm_compute in Hrun; by simplify_eq).
  exists s, tr. split; [done|]. split; [done|].
  apply (semaphore_no_lost_waiter (M := AbsMutex.state) 1 1 s tr 1%nat);
    [lia|by vm_compute|exact (run_reach _ _ _ _ _ Hrun)|done].
Defined.

(** 1 is suspended when 0 shuts the semaphore down. *)
Definition shut : list label := take 13 handover ++ Call 2 Shutdown :: steps 2 6 ++ steps 1 1.

Lemma semaphore_shutdown_wakes_all_witness :
  exists s tr, run (exec (M := AbsMutex.state) 1) shut (make 1) = Some (s, tr) /\
    tr = [Taken 0; Result 0 acquired; Result 1 shutdown] /\ Forall (fun e => ~ is_bad e) tr /\
    forall x, pcs s x <> Suspended.
Proof.
  destruct (run (exec (M := AbsMutex.state) 1) shut (make 1)) as [[s tr]|] eqn:Hrun;
    [|vm_compute in Hrun; discriminate].
  destruct (semaphore_shutdown_wakes_all (M := AbsMutex.state) 1 1 s tr) as (H1 & H2);
    [lia|by vm_compute|exact (run_reach _ _ _ _ _ Hrun)|].
  exists s, tr. split; [done|]. split; [vm_compute in Hrun; by simplify_eq|]. split; [done|]. apply H2.
  - vm_compute in Hrun. by simplify_eq.
  - vm_compute in Hrun. simplify_eq. intros [|[|[|t]]]; by vm_compute.
Defined.

(** A permit can be lost to a concurrent shutdown(): await_resume() reads the
    flag after the permit was taken, so acquire() reports [shutdown] although
    the counter went down for it. *)
Theorem semaphore_shutdown_drops_permit :
  exists s tr, run (exec (M := AbsMutex.state) 1)
      (Call 0 Acquire :: steps 0 4 ++ Call 1 Shutdown :: steps 1 5 ++ steps 0 1)%nat (make 1) = Some (s, tr) /\
    tr = [Taken 0; Result 0 shutdown]%nat /\ value s = 0.
Proof. eexists _, _. split; [vm_compute; reflexivity|]. done. Qed.
End Semaphore.
