(* ===== verification/Queue.v ===== *)
(** * coro::queue (include/coro/queue.hpp)

    An unbounded queue whose consumers park when it is empty.  [m_elements],
    [m_waiters] and the changes of [m_running_state] are guarded by the queue's
    coro::mutex (the interface [Lock]), so the body of a critical section is one
    step; what the code does outside of it (storing the element into the waiter,
    resuming it, the first load of shutdown(), the loop of shutdown_drain()) are
    steps of their own. *)
From stdpp Require Import base list relations option numbers.
From S2P Require Import Prelude Mutex Monitor.
#[local] Existing Instance AbsMutex.abs_lock.

Module Queue.

Inductive queue_produce_result := produced | push_stopped.
Inductive queue_consume_result := stopped | try_lock_failure | empty_queue.
Inductive running_state_t := running | draining | rs_stopped.

#[export] Instance q_running_eq_dec : EqDecision running_state_t.
Proof. solve_decision. Defined.

Section queue.
Context {M : Type} `{!Lock M} {A : Type}.

(** Results: an element or the reason why there is none. *)
Definition expected : Type := (A + queue_consume_result)%type.

Inductive pc :=
| Idle
| PushEnter (e : A)                     (* push/emplace: waiting for the lock, then its body *)
| PushUnlock (r : queue_produce_result) (* ~scoped_lock *)
| PushHandUnlock (w : nat) (e : A)      (* lock.unlock() before the hand-over *)
| PushStore (w : nat) (e : A)           (* waiter->m_element = element *)
| PushResume (w : nat)
| PopEnter                              (* pop: waiting for the lock, then await_ready/await_suspend *)
| PopUnlock                             (* await_ready: unlock *)
| PopParkUnlock                         (* await_suspend: unlock *)
| Suspended
| PopResume                             (* await_resume *)
| TryEnter                              (* try_pop: holding the mutex *)
| TryUnlock (r : expected)
| ShLoad (drain : bool)                 (* shutdown: load of m_running_state *)
| ShEnter (drain : bool) (exp : running_state_t)
| ShLose                                (* shutdown: the exchange failed, ~scoped_lock *)
| ShUnlock (ws : list nat)
| ShWalk (ws : list nat)
| DrEnter                               (* shutdown_drain *)
| DrLose
| DrUnlock
| DrEmpty                               (* shutdown_drain: empty() *)
| DrLoad                                (* shutdown_drain: load of m_running_state *)
| DrYield.                              (* co_await e->yield() *)

Inductive op := Push (e : A) | Pop | TryPop | Shutdown | ShutdownDrain.
Inductive label := Call (t : nat) (o : op) | Step (t : nat).

Inductive event :=
| Produced (t : nat) (e : A)                (* accepted, at the time the lock is held *)
| Consumed (t : nat) (e : A)                (* assigned to the consumer t, likewise *)
| PushResult (t : nat) (r : queue_produce_result)
| PopResult (t : nat) (r : expected)
| Stopped (t : nat) (drain : bool) (dropped : list A)
| BadResume (t w : nat).

Record state := mk_state {
  m_waiters : list nat;
  m_mutex : M;
  m_elements : list A;                      (* std::queue, front first *)
  m_running_state : running_state_t;
  m_element : nat -> option A;              (* awaiter::m_element *)
  pcs : nat -> pc
}.

Definition init : state := mk_state [] lk_init [] running (fun _ => None) (fun _ => Idle).

Definition set_pc (s : state) (t : nat) (p : pc) : state :=
  mk_state (m_waiters s) (m_mutex s) (m_elements s) (m_running_state s) (m_element s) ((pcs s).[t ↦ p]).
Definition set_waiters (s : state) (ws : list nat) : state :=
  mk_state ws (m_mutex s) (m_elements s) (m_running_state s) (m_element s) (pcs s).
Definition set_mutex (s : state) (m : M) : state :=
  mk_state (m_waiters s) m (m_elements s) (m_running_state s) (m_element s) (pcs s).
Definition set_elements (s : state) (l : list A) : state :=
  mk_state (m_waiters s) (m_mutex s) l (m_running_state s) (m_element s) (pcs s).
Definition set_running (s : state) (r : running_state_t) : state :=
  mk_state (m_waiters s) (m_mutex s) (m_elements s) r (m_element s) (pcs s).
Definition set_element (s : state) (t : nat) (e : option A) : state :=
  mk_state (m_waiters s) (m_mutex s) (m_elements s) (m_running_state s) ((m_element s).[t ↦ e]) (pcs s).

Definition size (s : state) : nat := length (m_elements s).
Definition empty (s : state) : bool := Nat.eqb (size s) 0.
Definition is_shutdown (s : state) : bool := negb (bool_decide (m_running_state s = running)).

Definition unlock (s : state) (t : nat) (p : pc) : state :=
  set_pc (set_mutex s (lk_unlock t (m_mutex s))) t p.
Definition lock (s : state) (t : nat) (p : pc) : state :=
  set_pc (set_mutex s (lk_lock t (m_mutex s))) t p.

(** push(const&), push(&&) and emplace: the critical section. *)
Definition push_body (s : state) (t : nat) (e : A) : state * list event :=
  if is_shutdown s then (set_pc s t (PushUnlock push_stopped), [])
  else
    match m_waiters s with
    | w :: ws => (set_pc (set_waiters s ws) t (PushHandUnlock w e), [Produced t e; Consumed w e])
    | [] => (set_pc (set_elements s (m_elements s ++ [e])) t (PushUnlock produced), [Produced t e])
    end.

(** awaiter::await_ready; [None] when it returns false. *)
Definition await_ready (s : state) (t : nat) : option (state * list event) :=
  if bool_decide (m_running_state s = rs_stopped) then Some (set_pc s t PopUnlock, [])
  else
    match m_elements s with
    | e :: es => Some (set_pc (set_element (set_elements s es) t (Some e)) t PopUnlock, [Consumed t e])
    | [] => None
    end.

(** awaiter::await_suspend up to the unlock *)
Definition await_suspend (s : state) (t : nat) : state :=
  set_pc (set_waiters s (t :: m_waiters s)) t PopParkUnlock.

(** awaiter::await_resume *)
Definition await_resume (s : state) (t : nat) : expected :=
  match m_element s t with Some e => inl e | None => inr stopped end.

(** try_pop once it holds the mutex *)
Definition try_pop_body (s : state) (t : nat) : state * list event :=
  if bool_decide (m_running_state s = rs_stopped) then (set_pc s t (TryUnlock (inr stopped)), [])
  else
    match m_elements s with
    | [] => (set_pc s t (TryUnlock (inr empty_queue)), [])
    | e :: es => (set_pc (set_elements s es) t (TryUnlock (inl e)), [Consumed t e])
    end.

(** shutdown: the critical section, for the value [exp] that was read before it. *)
Definition shutdown_body (s : state) (t : nat) (drain : bool) (exp : running_state_t) : state * list event :=
  if bool_decide (m_running_state s = exp) then
    (set_pc (set_waiters (set_running s rs_stopped) []) t (ShUnlock (m_waiters s)),
     [Stopped t drain (m_elements s)])
  else (set_pc s t ShLose, []).

Definition resume (s : state) (t w : nat) (p : pc) (ev : list event) : state * list event :=
  match pcs s w with
  | Suspended => (set_pc (set_pc s t p) w PopResume, ev)
  | _ => (set_pc s t p, BadResume t w :: ev)
  end.

Definition exec_push (t : nat) (s : state) : option (state * list event) :=
  match pcs s t with
  | PushEnter e => Some (push_body s t e)
  | PushUnlock r => Some (unlock s t Idle, [PushResult t r])
  | PushHandUnlock w e => Some (unlock s t (PushStore w e), [])
  | PushStore w e => Some (set_pc (set_element s w (Some e)) t (PushResume w), [])
  | PushResume w => Some (resume s t w Idle [PushResult t produced])
  | _ => None
  end.

Definition exec_pop (t : nat) (s : state) : option (state * list event) :=
  match pcs s t with
  | PopEnter =>
      match await_ready s t with
      | Some r => Some r
      | None => Some (await_suspend s t, [])
      end
  | PopUnlock => Some (unlock s t PopResume, [])
  | PopParkUnlock => Some (unlock s t Suspended, [])
  | PopResume => Some (set_pc s t Idle, [PopResult t (await_resume s t)])
  | TryEnter => Some (try_pop_body s t)
  | TryUnlock r => Some (unlock s t Idle, [PopResult t r])
  | _ => None
  end.

(** shutdown and shutdown_drain *)
Definition exec_shutdown (t : nat) (s : state) : option (state * list event) :=
  match pcs s t with
  | ShLoad drain =>
      if bool_decide (m_running_state s = rs_stopped) then Some (set_pc s t Idle, [])
      else Some (lock s t (ShEnter drain (m_running_state s)), [])
  | ShEnter drain exp => Some (shutdown_body s t drain exp)
  | ShLose => Some (unlock s t Idle, [])
  | ShUnlock ws => Some (unlock s t (ShWalk ws), [])
  | ShWalk [] => Some (set_pc s t Idle, [])
  | ShWalk (w :: ws) => Some (resume s t w (ShWalk ws) [])
  | DrEnter =>
      if bool_decide (m_running_state s = running) then
        Some (set_pc (set_running s draining) t DrUnlock, [])
      else Some (set_pc s t DrLose, [])
  | DrLose => Some (unlock s t Idle, [])
  | DrUnlock => Some (unlock s t DrEmpty, [])
  | DrEmpty => Some (set_pc s t (if empty s then ShLoad true else DrLoad), [])
  | DrLoad => Some (set_pc s t (if bool_decide (m_running_state s = draining) then DrYield else ShLoad true), [])
  | DrYield => Some (set_pc s t DrEmpty, [])
  | _ => None
  end.

Definition entry (p : pc) : bool :=
  match p with PushEnter _ | PopEnter | ShEnter _ _ | DrEnter => true | _ => false end.
Definition cs (p : pc) : bool :=
  match p with
  | PushUnlock _ | PushHandUnlock _ _ | PopUnlock | PopParkUnlock | TryEnter | TryUnlock _
  | ShLose | ShUnlock _ | DrLose | DrUnlock => true
  | _ => false
  end.

Definition holds (s : state) (t : nat) : bool := bool_decide (lk_holder (m_mutex s) = Some t).

Definition exec (l : label) (s : state) : option (state * list event) :=
  match l with
  | Call t o =>
      match pcs s t, o with
      | Idle, Push e => Some (lock s t (PushEnter e), [])
      | Idle, Pop => Some (lock (set_element s t None) t PopEnter, [])
      | Idle, TryPop =>
          match lk_holder (m_mutex s) with
          | None => Some (lock s t TryEnter, [])
          | Some _ => Some (s, [PopResult t (inr try_lock_failure)])
          end
      | Idle, Shutdown => Some (set_pc s t (ShLoad false), [])
      | Idle, ShutdownDrain => Some (lock s t DrEnter, [])
      | _, _ => None
      end
  | Step t =>
      if entry (pcs s t) && negb (holds s t) then None
      else
        match pcs s t with
        | PushEnter _ | PushUnlock _ | PushHandUnlock _ _ | PushStore _ _ | PushResume _ => exec_push t s
        | PopEnter | PopUnlock | PopParkUnlock | PopResume | TryEnter | TryUnlock _ => exec_pop t s
        | Idle | Suspended => None
        | _ => exec_shutdown t s
        end
  end.

(** ** The invariant *)

Definition mode (p : pc) : pmode :=
  match p with Suspended => Parked | PopParkUnlock => Parking | _ => Out end.
Definition held (p : pc) : list nat :=
  match p with
  | PushHandUnlock w _ | PushStore w _ | PushResume w => [w]
  | ShUnlock ws | ShWalk ws => ws
  | _ => []
  end.

(** The element on its way to the consumer [x]: stored in its awaiter, or still
    with the producer [t] that took [x] off the list. *)
Definition in_hand (p : pc) (x : nat) : option A :=
  match p with
  | PushHandUnlock w e | PushStore w e => if decide (w = x) then Some e else None
  | _ => None
  end.

(** shutdown_drain has seen the queue empty, and it stays so. *)
Definition drained (s : state) : Prop :=
  m_running_state s = rs_stopped \/ (m_running_state s = draining /\ m_elements s = []).

Definition pc_ok (s : state) (t : nat) : Prop :=
  match pcs s t with
  | ShLoad drain => drain = true -> drained s
  | ShEnter drain exp => exp <> rs_stopped /\ (drain = true -> drained s)
  | DrUnlock | DrEmpty | DrLoad | DrYield => m_running_state s <> running
  | PopEnter | PopParkUnlock => m_element s t = None
  | PushResume w => m_element s w <> None
  | PushHandUnlock w _ | PushStore w _ => m_element s w = None
  | ShUnlock ws | ShWalk ws => forall x, x ∈ ws -> m_element s x = None
  | _ => True
  end.

Record inv (s : state) : Prop := {
  q_cs : cs_ok cs (m_mutex s) (pcs s);
  q_park : parking_ok mode held (m_waiters s) (pcs s);
  q_wait : m_waiters s <> [] -> m_elements s = [] /\ m_running_state s <> rs_stopped;
  q_wait_none : forall x, x ∈ m_waiters s -> m_element s x = None;
  q_pc : forall t, pc_ok s t
}.

(** The elements of [x]: assigned to it, returned to it. *)
Definition consumed (x : nat) (tr : list event) : list A :=
  omap (fun e => match e with Consumed t a => if decide (t = x) then Some a else None | _ => None end) tr.
Definition delivered (x : nat) (tr : list event) : list A :=
  omap (fun e => match e with PopResult t (inl a) => if decide (t = x) then Some a else None | _ => None end) tr.

Definition is_bad (e : event) : Prop := match e with BadResume _ _ => True | _ => False end.

(** Specification: a first-in first-out queue. *)
Definition fifo_step (e : event) (l : list A) (l' : list A) : Prop :=
  match e with
  | Produced _ a => l' = l ++ [a]
  | Consumed _ a => l = a :: l'
  | _ => l' = l
  end.

Inductive fifo : list event -> list A -> list A -> Prop :=
| fifo_nil l : fifo [] l l
| fifo_cons e tr l l1 l2 : fifo_step e l l1 -> fifo tr l1 l2 -> fifo (e :: tr) l l2.

Lemma fifo_app tr1 tr2 l l1 l2 : fifo tr1 l l1 -> fifo tr2 l1 l2 -> fifo (tr1 ++ tr2) l l2.
Proof. induction 1; simpl; [done|]. intros. econstructor; eauto. Qed.

Lemma fifo_one e l l' : fifo_step e l l' -> fifo [e] l l'.
Proof. intros. econstructor; [done|constructor]. Qed.

(** What is on its way to [x]. *)
Definition flight (s : state) (x : nat) (o : option A) : Prop :=
  match pcs s x with
  | PopUnlock | PopResume => o = m_element s x
  | TryUnlock (inl e) => o = Some e
  | Suspended | PopParkUnlock =>
      (o = m_element s x /\ forall t, in_hand (pcs s t) x = None) \/
      exists t e, o = Some e /\ in_hand (pcs s t) x = Some e
  | _ => o = None
  end.

Definition flows (s : state) (s' : state) (ev : list event) : Prop :=
  forall x o, flight s x o -> exists o', flight s' x o' /\
    option_list o ++ consumed x ev = delivered x ev ++ option_list o'.

(** A stop that follows shutdown_drain drops nothing. *)
Definition drops_nothing (e : event) : Prop :=
  match e with Stopped _ true l => l = [] | _ => True end.

Record step_ok (s s' : state) (ev : list event) : Prop := {
  so_inv : inv s';
  so_bad : Forall (fun e => ~ is_bad e) ev;
  so_fifo : fifo ev (m_elements s) (m_elements s');
  so_flows : flows s s' ev;
  so_drop : Forall drops_nothing ev
}.

Lemma in_hand_held p x e : in_hand p x = Some e -> x ∈ held p.
Proof. destruct p; simpl; try done; case_decide; intros; simplify_eq; by left. Qed.

(** An event that neither consumes nor returns an element. *)
Definition quiet (e : event) : Prop :=
  match e with Consumed _ _ | PopResult _ (inl _) => False | _ => True end.

Lemma quiet_flow x ev : Forall quiet ev -> consumed x ev = [] /\ delivered x ev = [].
Proof.
  induction 1 as [|e ev He _ [IH1 IH2]]; [done|]. unfold consumed, delivered in *.
  destruct e as [| | |t []| |]; simpl in *; try done.
Qed.

(** Steps of [t] that move no element. *)
Lemma flows_frame s s' ev t :
  Forall quiet ev ->
  (forall x, x <> t -> pcs s' x = pcs s x) -> (forall x, x <> t -> m_element s' x = m_element s x) ->
  (forall x, in_hand (pcs s' t) x = in_hand (pcs s t) x) ->
  (forall o, flight s t o -> flight s' t o) -> flows s s' ev.
Proof.
  intros Hq Hp He Hi Ht x o Hf. exists o. destruct (quiet_flow x ev Hq) as [-> ->].
  rewrite app_nil_r. split; [|done]. destruct (decide (x = t)) as [->|Hne]; [auto|].
  assert (forall t', in_hand (pcs s' t') x = in_hand (pcs s t') x) as Hi'.
  { intros t'. destruct (decide (t' = t)) as [->|]; [apply Hi|by rewrite Hp]. }
  unfold flight in *. rewrite Hp, He by done. destruct (pcs s x); try done;
    (destruct Hf as [[-> Hf]|(t' & e & -> & Hf)]; [left; split; [done|]; intros; by rewrite Hi'|
     right; exists t', e; by rewrite Hi']).
Qed.

Lemma pc_ok_frame s s' x :
  pcs s' x = pcs s x -> (forall y, y = x \/ y ∈ held (pcs s x) -> m_element s' y = m_element s y) ->
  (drained s -> drained s') -> (m_running_state s <> running -> m_running_state s' <> running) ->
  pc_ok s x -> pc_ok s' x.
Proof.
  intros Hp He Hd Hr Hok. unfold pc_ok in *. rewrite Hp.
  destruct (pcs s x) eqn:Hx; simpl in *; try done;
    try (rewrite He; [done|by right; left]); try (rewrite He by (by left); done).
  - auto.
  - destruct Hok. auto.
  - intros y Hy. rewrite He by (by right). auto.
  - intros y Hy. rewrite He by (by right). auto.
  - auto.
  - auto.
  - auto.
  - auto.
Qed.

(** An event that only reports a result without an element. *)
Definition silent (e : event) : Prop :=
  match e with PushResult _ _ | PopResult _ (inr _) => True | _ => False end.

Lemma silent_facts ev l : Forall silent ev ->
  Forall quiet ev /\ Forall (fun e => ~ is_bad e) ev /\ fifo ev l l /\ Forall drops_nothing ev.
Proof.
  induction 1 as [|e ev He _ (IH1 & IH2 & IH3 & IH4)]; [by repeat constructor|].
  destruct e as [| | |? []| |]; simpl in He; try done; (split_and!; [by constructor|by constructor; [intros []|]| |by constructor]);
    (econstructor; [|done]; done).
Qed.

(** A step of [t] that moves no element and resumes nobody. *)
Lemma step_move s t p m ev :
  inv s -> cs_ok cs m ((pcs s).[t ↦ p]) -> held p = held (pcs s t) ->
  mode p = mode (pcs s t) \/ (mode (pcs s t) = Parking /\ mode p = Parked) ->
  (forall x, in_hand p x = in_hand (pcs s t) x) -> pc_ok (set_pc (set_mutex s m) t p) t ->
  (forall o, flight s t o -> flight (set_pc (set_mutex s m) t p) t o) -> Forall silent ev ->
  step_ok s (set_pc (set_mutex s m) t p) ev.
Proof.
  intros [Hcs Hpk Hw Hwn Hpc] Hm Hh Hmd Hi Hok Hf Hs.
  destruct (silent_facts ev (m_elements s) Hs) as (Hq & Hb & Hff & Hd). constructor; try done.
  - constructor; simpl; try done.
    + destruct Hmd as [Hmd|[H1 H2]]; [by apply parking_move|by apply parking_suspend].
    + intros x. destruct (decide (x = t)) as [->|Hne]; [done|].
      apply (pc_ok_frame s); try done. simpl. by rewrite upd_ne.
  - apply (flows_frame _ _ _ t); try done; simpl; intros; rewrite ?upd_eq; [by rewrite upd_ne|apply Hi].
Qed.

(** The same without the mutex, and with an unlock. *)
Lemma step_local s t p ev :
  inv s -> (cs p = true -> lk_holder (m_mutex s) = Some t) -> held p = held (pcs s t) ->
  mode p = mode (pcs s t) -> (forall x, in_hand p x = in_hand (pcs s t) x) -> pc_ok (set_pc s t p) t ->
  (forall o, flight s t o -> flight (set_pc s t p) t o) -> Forall silent ev -> step_ok s (set_pc s t p) ev.
Proof.
  intros Hinv Hc Hh Hmd Hi Hok Hf Hs.
  replace (set_pc s t p) with (set_pc (set_mutex s (m_mutex s)) t p) by done.
  apply step_move; try done; [|by left]. apply cs_move; [apply Hinv|done].
Qed.

Lemma step_unlock s t p ev :
  inv s -> cs (pcs s t) = true -> cs p = false -> held p = held (pcs s t) ->
  mode p = mode (pcs s t) \/ (mode (pcs s t) = Parking /\ mode p = Parked) ->
  (forall x, in_hand p x = in_hand (pcs s t) x) -> pc_ok (unlock s t p) t ->
  (forall o, flight s t o -> flight (unlock s t p) t o) -> Forall silent ev -> step_ok s (unlock s t p) ev.
Proof.
  intros Hinv Hc Hcp Hh Hmd Hi Hok Hf Hs. apply step_move; try done. apply cs_unlock; [apply Hinv|done..].
Qed.

Lemma step_lock s t p :
  inv s -> cs p = false -> held p = held (pcs s t) -> mode p = mode (pcs s t) ->
  (forall x, in_hand p x = in_hand (pcs s t) x) -> pc_ok (lock s t p) t ->
  (forall o, flight s t o -> flight (lock s t p) t o) -> step_ok s (lock s t p) [].
Proof.
  intros Hinv Hcp Hh Hmd Hi Hok Hf. apply step_move; try done; [|by left]. apply cs_lock; [apply Hinv|done].
Qed.

(** Another coroutine whose awaiter is not touched sees nothing of a step. *)
Lemma flight_frame s s' x o :
  pcs s' x = pcs s x -> m_element s' x = m_element s x ->
  (forall t, in_hand (pcs s' t) x = in_hand (pcs s t) x) -> flight s x o -> flight s' x o.
Proof.
  intros Hp He Hi Hf. unfold flight in *. rewrite Hp, He. destruct (pcs s x); try done;
    (destruct Hf as [[-> Hf]|(t' & e & -> & Hf)]; [left; split; [done|]; intros; by rewrite Hi|
     right; exists t', e; by rewrite Hi]).
Qed.

Lemma consumed_other x t (e : A) ev : x <> t -> consumed x (Consumed t e :: ev) = consumed x ev.
Proof. intros. unfold consumed. simpl. by rewrite decide_False. Qed.

(** resume() of a waiter that [t] holds. *)
Lemma step_resume s t w p ev :
  inv s -> held (pcs s t) = w :: held p -> mode p = Out -> mode (pcs s t) = Out -> cs p = false ->
  (forall x, in_hand (pcs s t) x = None /\ in_hand p x = None) -> pc_ok (set_pc s t p) t ->
  (forall o, flight s t o -> o = None) -> flight (set_pc s t p) t None ->
  Forall silent ev -> step_ok s (resume s t w p ev).1 (resume s t w p ev).2.
Proof.
  intros Hinv Hh Hmp Hmt Hcp Hi Hok Hft Hfp Hs. pose proof Hinv as [Hcs Hpk Hw Hwn Hpc].
  assert (pcs s w = Suspended) as Hws.
  { destruct (pk_held _ _ _ Hpk t w) as [Hm _]; [rewrite Hh; by left|]. simpl in Hm. by destruct (pcs s w). }
  destruct (parking_resume mode held _ _ t w p PopResume Hpk) as (_ & Hne & Hpk'); rewrite ?Hws; try done.
  unfold resume. rewrite Hws. simpl.
  destruct (silent_facts ev (m_elements s) Hs) as (Hq & Hb & Hff & Hd). constructor; try done.
  - constructor; simpl; try done.
    + intros x. upd_cases; [done|congruence|apply Hcs].
    + intros x. destruct (decide (x = w)) as [->|Hxw]; [unfold pc_ok; simpl; by rewrite upd_eq|].
      destruct (decide (x = t)) as [->|Hxt].
      * apply (pc_ok_frame (set_pc s t p)); try done. simpl. by rewrite upd_ne.
      * apply (pc_ok_frame s); try done. simpl. by rewrite !upd_ne.
  - intros x o Hf. destruct (quiet_flow x ev Hq) as [-> ->]. rewrite app_nil_r. exists o. split; [|done].
    destruct (decide (x = w)) as [->|Hxw]; [|destruct (decide (x = t)) as [->|Hxt]].
    + unfold flight in *. simpl. rewrite upd_eq. rewrite Hws in Hf.
      destruct Hf as [[-> _]|(t' & e & -> & Hf)]; [done|].
      assert (t' = t) as -> by (eapply (pk_uniq _ _ _ Hpk); [by eapply in_hand_held|rewrite Hh; by left]).
      by rewrite (proj1 (Hi w)) in Hf.
    + rewrite (Hft o Hf). eapply flight_frame; [..|exact Hfp]; simpl; [by rewrite upd_ne|done|].
      intros t'. destruct (decide (t' = w)) as [->|]; [|by rewrite upd_ne].
      rewrite upd_eq, upd_ne, Hws by done. done.
    + eapply flight_frame; [..|exact Hf]; simpl; [by rewrite !upd_ne|done|].
      intros t'. destruct (decide (t' = w)) as [->|]; [by rewrite upd_eq, Hws|].
      rewrite upd_ne by done. destruct (decide (t' = t)) as [->|]; [|by rewrite upd_ne].
      rewrite upd_eq. destruct (Hi x) as [-> ->]. done.
Qed.

Ltac pcok := unfold pc_ok; simpl; rewrite ?upd_eq.

Lemma holds_holder s t : holds s t = true -> lk_holder (m_mutex s) = Some t.
Proof. apply bool_decide_eq_true_1. Qed.

(** When [t] holds the mutex nobody is halfway into parking. *)
Lemma waiter_suspended s t x :
  inv s -> lk_holder (m_mutex s) = Some t -> pcs s t <> PopParkUnlock -> x ∈ m_waiters s -> pcs s x = Suspended.
Proof.
  intros [Hcs Hpk _ _ _] Ht Hne Hx. pose proof (pk_list _ _ _ Hpk x Hx) as Hm. simpl in Hm.
  destruct (decide (x = t)) as [->|Hxt]; [by destruct (pcs s t)|].
  pose proof (cs_other cs _ _ _ x Hcs Ht Hxt) as Hc. by destruct (pcs s x).
Qed.

Lemma push_step s t e :
  inv s -> pcs s t = PushEnter e -> holds s t = true ->
  step_ok s (push_body s t e).1 (push_body s t e).2.
Proof.
  intros Hinv Ht Hold%holds_holder. pose proof Hinv as [Hcs Hpk Hw Hwn Hpc]. unfold push_body, is_shutdown.
  case_bool_decide as Hrun; simpl;
    [|apply step_local; rewrite ?Ht; try done; [by pcok|]; unfold flight; simpl; by rewrite Ht, upd_eq].
  assert (drained s -> False) as Hnd by (intros [?|[? _]]; congruence).
  destruct (m_waiters s) as [|w ws] eqn:Hws; simpl.
  - constructor; simpl; [|by repeat constructor; intros []|by apply fifo_one| |by repeat constructor].
    + constructor; simpl; [by apply cs_move|rewrite Hws; apply parking_move; rewrite ?Ht; done|by rewrite Hws|by rewrite Hws|].
      intros x. destruct (decide (x = t)) as [->|Hne]; [by pcok|].
      apply (pc_ok_frame s); simpl; try done. by rewrite upd_ne.
    + apply (flows_frame _ _ _ t); simpl; intros; rewrite ?upd_eq, ?upd_ne, ?Ht by done; try done; [by repeat constructor|].
      unfold flight in *. simpl. rewrite Ht in *. by rewrite upd_eq.
  - destruct (Hw ltac:(done)) as [Hel _].
    assert (pcs s w = Suspended) as Hsu.
    { apply (waiter_suspended s t); try done; [by rewrite Ht|rewrite Hws; by left]. }
    assert (w <> t) as Hwt by congruence.
    assert (m_element s w = None) as Hwe by (apply Hwn; by left).
    assert (forall t', in_hand (pcs s t') w = None) as Hnh.
    { intros t'. destruct (in_hand (pcs s t') w) eqn:Hi; [|done]. apply in_hand_held in Hi.
      destruct (pk_held _ _ _ Hpk _ _ Hi) as [_ []]. by left. }
    constructor; simpl; [|by repeat constructor; intros []| | |by repeat constructor].
    + constructor; simpl; [by apply cs_move| | | |].
      * eapply (parking_take _ _ (w :: ws) ws); rewrite ?Ht; try done.
        intros x Hx. simpl in Hx. apply list_elem_of_singleton in Hx as ->. by rewrite Hsu.
      * intros _. split; [done|congruence].
      * intros x Hx. apply Hwn. by right.
      * intros x. destruct (decide (x = t)) as [->|Hne]; [by pcok|].
        apply (pc_ok_frame s); simpl; try done. by rewrite upd_ne.
    + rewrite Hel. econstructor; [done|]. by apply fifo_one.
    + intros x o Hf. destruct (decide (x = w)) as [->|Hxw].
      * exists (Some e). unfold flight in *. simpl. rewrite upd_ne by done. rewrite Hsu in *. split.
        -- right. exists t, e. rewrite upd_eq. simpl. by rewrite decide_True.
        -- destruct Hf as [[-> _]|(t' & e' & _ & Hf)]; [|by rewrite Hnh in Hf].
           rewrite Hwe. unfold consumed, delivered. simpl. by rewrite decide_True.
      * exists o. split; [|unfold consumed, delivered; simpl; rewrite decide_False by done; by rewrite app_nil_r].
        destruct (decide (x = t)) as [->|Hxt].
        -- unfold flight in *. simpl. rewrite upd_eq. by rewrite Ht in Hf.
        -- eapply flight_frame; [..|exact Hf]; simpl; [by rewrite upd_ne|done|].
           intros t'. destruct (decide (t' = t)) as [->|]; [|by rewrite upd_ne].
           rewrite upd_eq, Ht. simpl. by rewrite decide_False.
Qed.

Lemma store_step s t w e :
  inv s -> pcs s t = PushStore w e ->
  step_ok s (set_pc (set_element s w (Some e)) t (PushResume w)) [].
Proof.
  intros Hinv Ht. pose proof Hinv as [Hcs Hpk Hw Hwn Hpc].
  destruct (pk_held _ _ _ Hpk t w) as [Hm Hnw]; [rewrite Ht; by left|]. simpl in Hm, Hnw.
  assert (pcs s w = Suspended) as Hws by (by destruct (pcs s w)).
  assert (w <> t) as Hwt by congruence.
  assert (forall t', w ∈ held (pcs s t') -> t' = t) as Huniq.
  { intros t' Ht'. eapply (pk_uniq _ _ _ Hpk); [exact Ht'|rewrite Ht; by left]. }
  assert (forall t' x, t' <> t -> in_hand (pcs s t') x <> None -> x <> w) as Hih.
  { intros t' x Hne Hn ->. destruct (in_hand (pcs s t') w) eqn:Hi; [|done].
    apply Hne, Huniq. by eapply in_hand_held. }
  constructor; simpl; [|by constructor|constructor| |by constructor].
  - constructor; simpl; [by apply cs_move|by apply parking_move; rewrite ?Ht|done| |].
    + intros x Hx. rewrite upd_ne; [auto|]. by intros ->.
    + intros x. destruct (decide (x = t)) as [->|Hne]; [by pcok|].
      assert (pc_ok s x) as Hx by done.
      destruct (decide (x = w)) as [->|Hxw]; [unfold pc_ok; simpl; by rewrite upd_ne, Hws|].
      apply (pc_ok_frame s); simpl; try done; [by rewrite upd_ne|].
      intros y Hy. rewrite upd_ne; [done|]. intros ->. destruct Hy as [|Hy]; [done|]. auto.
  - intros x o Hf. exists o. split; [|unfold consumed, delivered; simpl; by rewrite app_nil_r].
    destruct (decide (x = w)) as [->|Hxw].
    + unfold flight in *. simpl. rewrite upd_ne by done. rewrite Hws in *. left. rewrite upd_eq. split.
      * destruct Hf as [[_ Hf]|(t' & e' & -> & Hf)].
        -- specialize (Hf t). rewrite Ht in Hf. simpl in Hf. by rewrite decide_True in Hf.
        -- assert (t' = t) as -> by (apply Huniq; by eapply in_hand_held).
           rewrite Ht in Hf. simpl in Hf. by rewrite decide_True in Hf.
      * intros t'. destruct (decide (t' = t)) as [->|Hne]; [by rewrite upd_eq|]. rewrite upd_ne by done.
        destruct (in_hand (pcs s t') w) eqn:Hi; [|done]. by destruct (Hih t' w Hne ltac:(by rewrite Hi)).
    + destruct (decide (x = t)) as [->|Hxt].
      * unfold flight in *. simpl. rewrite upd_eq. by rewrite Ht in Hf.
      * eapply flight_frame; [..|exact Hf]; simpl; [by rewrite upd_ne|by rewrite upd_ne|].
        intros t'. destruct (decide (t' = t)) as [->|]; [|by rewrite upd_ne].
        rewrite upd_eq, Ht. simpl. by rewrite decide_False.
Qed.

(** [t], which holds the mutex and is not parked, takes the front element. *)
Lemma take_step s t p e es m_el :
  inv s -> lk_holder (m_mutex s) = Some t -> m_elements s = e :: es -> m_running_state s <> rs_stopped ->
  mode (pcs s t) = Out -> mode p = Out -> held (pcs s t) = [] -> held p = [] ->
  (forall x, in_hand p x = None /\ in_hand (pcs s t) x = None) ->
  (forall x, x <> t -> m_el x = m_element s x) ->
  (forall o, flight s t o -> o = None) ->
  let s' := mk_state (m_waiters s) (m_mutex s) es (m_running_state s) m_el ((pcs s).[t ↦ p]) in
  pc_ok s' t -> flight s' t (Some e) -> step_ok s s' [Consumed t e].
Proof.
  intros Hinv Hold Hel Hrs Hmt Hmp Hht Hhp Hi Hme Hft s' Hok Hfl. pose proof Hinv as [Hcs Hpk Hw Hwn Hpc].
  assert (t ∉ m_waiters s) as Htw by (intros Hin; by apply (pk_list _ _ _ Hpk) in Hin).
  assert (forall t', t ∉ held (pcs s t')) as Hth.
  { intros t' Hin. destruct (pk_held _ _ _ Hpk _ _ Hin). simpl in *. congruence. }
  assert (m_waiters s = []) as Hnil.
  { destruct (m_waiters s); [done|]. destruct (Hw ltac:(done)) as [H0 _]. congruence. }
  constructor; simpl; [|by repeat constructor; intros []|apply fifo_one; by rewrite Hel| |by repeat constructor].
  - constructor; simpl; [by apply cs_move|apply parking_move; congruence|by rewrite Hnil| |].
    + intros x Hx. rewrite Hnil in Hx. no_nil.
    + intros x. destruct (decide (x = t)) as [->|Hne]; [done|].
      apply (pc_ok_frame s); simpl; try done; [by rewrite upd_ne| |].
      * intros y [->|Hy]; apply Hme; [done|]. intros ->. by apply Hth in Hy.
      * intros [?|[_ ?]]; congruence.
  - intros x o Hf. destruct (decide (x = t)) as [->|Hxt].
    + exists (Some e). split; [done|]. rewrite (Hft _ Hf). unfold consumed, delivered. simpl.
      by rewrite decide_True.
    + exists o. split; [|rewrite consumed_other by done; unfold consumed, delivered; simpl; by rewrite app_nil_r].
      eapply flight_frame; [..|exact Hf]; simpl; [by rewrite upd_ne|by apply Hme|].
      intros t'. destruct (decide (t' = t)) as [->|]; [|by rewrite upd_ne].
      rewrite upd_eq. destruct (Hi x) as [-> ->]. done.
Qed.

(** The return of an element to the caller. *)
Lemma return_step s t a m :
  inv s -> cs_ok cs m ((pcs s).[t ↦ Idle]) ->
  mode (pcs s t) = Out -> held (pcs s t) = [] -> (forall x, in_hand (pcs s t) x = None) ->
  (forall o, flight s t o -> o = Some a) ->
  step_ok s (set_pc (set_mutex s m) t Idle) [PopResult t (inl a)].
Proof.
  intros Hinv Hm Hmt Hht Hi Hft. pose proof Hinv as [Hcs Hpk Hw Hwn Hpc].
  constructor; simpl; [|by repeat constructor; intros []|by apply fifo_one| |by repeat constructor].
  - constructor; simpl; try done; [by apply parking_move|].
    intros x. destruct (decide (x = t)) as [->|Hne]; [by pcok|].
    apply (pc_ok_frame s); simpl; try done. by rewrite upd_ne.
  - intros x o Hf. destruct (decide (x = t)) as [->|Hxt].
    + exists None. rewrite (Hft _ Hf). unfold flight, consumed, delivered. simpl. rewrite upd_eq.
      by rewrite decide_True.
    + exists o. split; [|unfold consumed, delivered; simpl; rewrite decide_False by done; by rewrite app_nil_r].
      eapply flight_frame; [..|exact Hf]; simpl; [by rewrite upd_ne|done|].
      intros t'. destruct (decide (t' = t)) as [->|]; [|by rewrite upd_ne]. by rewrite upd_eq, Hi.
Qed.

Lemma park_step s t :
  inv s -> lk_holder (m_mutex s) = Some t -> pcs s t = PopEnter -> m_elements s = [] ->
  m_running_state s <> rs_stopped -> step_ok s (await_suspend s t) [].
Proof.
  intros Hinv Hold Ht Hel Hrs. pose proof Hinv as [Hcs Hpk Hw Hwn Hpc].
  pose proof (Hpc t) as Hok. unfold pc_ok in Hok. rewrite Ht in Hok.
  constructor; simpl; [|by constructor|constructor| |by constructor].
  - constructor; simpl; [by apply cs_move|by apply parking_push; rewrite ?Ht|done| |].
    + intros x [->|Hx]%elem_of_cons; auto.
    + intros x. destruct (decide (x = t)) as [->|Hne]; [by pcok|].
      apply (pc_ok_frame s); simpl; try done. by rewrite upd_ne.
  - apply (flows_frame _ _ _ t); simpl; intros; rewrite ?upd_eq, ?upd_ne, ?Ht by done; try done.
    unfold flight in *. simpl. rewrite upd_eq, Ht in *. left. split; [congruence|].
    intros t'. destruct (in_hand ((pcs s).[t ↦ PopParkUnlock] t') t) eqn:Hi; [|done].
    upd_cases; [done|]. apply in_hand_held in Hi. destruct (pk_held _ _ _ Hpk _ _ Hi) as [Hm _].
    simpl in Hm. by rewrite Ht in Hm.
Qed.

Lemma stop_step s t drain exp :
  inv s -> holds s t = true -> pcs s t = ShEnter drain exp ->
  step_ok s (shutdown_body s t drain exp).1 (shutdown_body s t drain exp).2.
Proof.
  intros Hinv Hold%holds_holder Ht. pose proof Hinv as [Hcs Hpk Hw Hwn Hpc].
  pose proof (Hpc t) as Hok. unfold pc_ok in Hok. rewrite Ht in Hok. destruct Hok as [Hexp Hdr].
  unfold shutdown_body. case_bool_decide as Hrs; simpl.
  2: { apply step_local; rewrite ?Ht; try done; [by pcok|]. intros o. unfold flight. simpl. by rewrite upd_eq, Ht. }
  constructor; simpl; [|by repeat constructor; intros []|by apply fifo_one| |].
  - constructor; simpl; [by apply cs_move| |done|intros; no_nil|].
    + eapply (parking_take _ _ (m_waiters s) []); simpl; rewrite ?Ht, ?app_nil_r; try done.
      intros x Hx. rewrite (waiter_suspended s t x); try done. by rewrite Ht.
    + intros x. destruct (decide (x = t)) as [->|Hne]; [by pcok|].
      apply (pc_ok_frame s); simpl; try done; [by rewrite upd_ne|]. intros _. by left.
  - apply (flows_frame _ _ _ t); simpl; intros; rewrite ?upd_eq, ?upd_ne, ?Ht by done; try done; [by repeat constructor|].
    unfold flight in *. simpl. rewrite upd_eq. by rewrite Ht in *.
  - repeat constructor. simpl. destruct drain; [|done]. destruct (Hdr eq_refl) as [?|[_ ?]]; [congruence|done].
Qed.

Lemma drain_step s t :
  inv s -> holds s t = true -> pcs s t = DrEnter -> m_running_state s = running ->
  step_ok s (set_pc (set_running s draining) t DrUnlock) [].
Proof.
  intros Hinv Hold%holds_holder Ht Hr. pose proof Hinv as [Hcs Hpk Hw Hwn Hpc].
  constructor; simpl; [|by constructor|constructor| |by constructor].
  - constructor; simpl; [by apply cs_move|by apply parking_move; rewrite ?Ht| |done|].
    + intros Hn. destruct (Hw Hn). split; [done|congruence].
    + intros x. destruct (decide (x = t)) as [->|Hne]; [by pcok|].
      apply (pc_ok_frame s); simpl; try done; [by rewrite upd_ne|]. intros [?|[? _]]; congruence.
  - apply (flows_frame _ _ _ t); simpl; intros; rewrite ?upd_eq, ?upd_ne, ?Ht by done; try done.
    unfold flight in *. simpl. rewrite upd_eq. by rewrite Ht in *.
Qed.

Lemma call_pop_step s t : inv s -> pcs s t = Idle -> step_ok s (lock (set_element s t None) t PopEnter) [].
Proof.
  intros Hinv Ht. pose proof Hinv as [Hcs Hpk Hw Hwn Hpc].
  assert (forall t', t ∉ held (pcs s t')) as Hth.
  { intros t' Hin. destruct (pk_held _ _ _ Hpk _ _ Hin) as [Hm _]. simpl in Hm. by rewrite Ht in Hm. }
  constructor; simpl; [|by constructor|constructor| |by constructor].
  - constructor; simpl; [by apply cs_lock|by apply parking_move; rewrite ?Ht|done| |].
    + intros x Hx. upd_cases; auto.
    + intros x. destruct (decide (x = t)) as [->|Hne]; [by pcok|].
      apply (pc_ok_frame s); simpl; try done; [by rewrite upd_ne|].
      intros y [->|Hy]; rewrite upd_ne; try done. intros ->. by apply Hth in Hy.
  - apply (flows_frame _ _ _ t); simpl; intros; rewrite ?upd_eq, ?upd_ne, ?Ht by done; try done.
    unfold flight in *. simpl. rewrite upd_eq. by rewrite Ht in *.
Qed.

Ltac fl Ht := let o := fresh in intros o; unfold flight; simpl; rewrite upd_eq, Ht.

Lemma q_push_step s t s' ev :
  inv s -> (entry (pcs s t) = true -> holds s t = true) -> exec_push t s = Some (s', ev) -> step_ok s s' ev.
Proof.
  intros Hinv Hen H. unfold exec_push in H. pose proof (q_pc _ Hinv t) as Hok. unfold pc_ok in Hok.
  destruct (pcs s t) as [|e|r|w e|w e|w| | | | | | | | | | | | | | | | | |] eqn:Ht; try done; simplify_eq.
  - pose proof (push_step s t e Hinv Ht ltac:(auto)) as Hs. by destruct (push_body s t e); simplify_eq.
  - apply step_unlock; rewrite ?Ht; try done; [by left|by pcok|by fl Ht|by repeat constructor].
  - apply step_unlock; rewrite ?Ht; try done; [by left|by pcok|by fl Ht].
  - by apply store_step.
  - pose proof (step_resume s t w Idle [PushResult t produced] Hinv) as Hs. rewrite Ht in Hs.
    destruct (resume s t w Idle _). simplify_eq. apply Hs; try done; try (by pcok);
      try (unfold flight; simpl; rewrite ?upd_eq, ?Ht; done). by repeat constructor.
Qed.

Lemma q_pop_step s t s' ev :
  inv s -> (entry (pcs s t) = true -> holds s t = true) -> exec_pop t s = Some (s', ev) -> step_ok s s' ev.
Proof.
  intros Hinv Hen H. unfold exec_pop in H. pose proof (q_cs _ Hinv t) as Hcs.
  pose proof (q_pc _ Hinv t) as Hok. unfold pc_ok in Hok.
  destruct (pcs s t) as [| | | | | | | | | | | |r| | | | | | | | | | |] eqn:Ht; try done.
  - specialize (Hen eq_refl). pose proof (holds_holder _ _ Hen) as Hold. unfold await_ready in H.
    case_bool_decide as Hst; simplify_eq.
    + apply step_local; rewrite ?Ht; try done; [by pcok|]. fl Ht. by intros ->.
    + destruct (m_elements s) as [|e es] eqn:Hel; simplify_eq; [by apply park_step|].
      apply (take_step s t PopUnlock e es ((m_element s).[t ↦ Some e])); rewrite ?Ht; try done;
        [by intros; rewrite upd_ne| |by pcok|].
      * intros o. unfold flight. by rewrite Ht.
      * unfold flight. simpl. by rewrite !upd_eq.
  - simplify_eq. apply step_unlock; rewrite ?Ht; try done; [by left|by pcok|by fl Ht].
  - simplify_eq. apply step_unlock; rewrite ?Ht; try done; [by right|by pcok|].
    intros o. unfold flight. simpl. rewrite upd_eq, Ht. intros [[-> Hf]|(t' & e & -> & Hf)].
    + left. split; [done|]. intros t'. upd_cases; [done|apply Hf].
    + right. exists t', e. split; [done|]. upd_cases; [by rewrite Ht in Hf|done].
  - simplify_eq. unfold await_resume. destruct (m_element s t) as [e|] eqn:He.
    + apply (return_step s t e (m_mutex s)); rewrite ?Ht; try done.
      * apply cs_move; [apply Hinv|done].
      * intros o. unfold flight. rewrite Ht. congruence.
    + apply step_local; rewrite ?Ht; try done; [by pcok|fl Ht; congruence|by repeat constructor].
  - simplify_eq. specialize (Hcs eq_refl).
    destruct (try_pop_body s t) as [s1 ev1] eqn:Hb. simplify_eq. unfold try_pop_body in Hb.
    case_bool_decide as Hst; simplify_eq.
    + apply step_local; rewrite ?Ht; try done; [by pcok|by fl Ht].
    + destruct (m_elements s) as [|e es] eqn:Hel; simplify_eq.
      * apply step_local; rewrite ?Ht; try done; [by pcok|by fl Ht].
      * apply (take_step s t (TryUnlock (inl e)) e es (m_element s)); rewrite ?Ht; try done;
          [|by pcok|unfold flight; simpl; by rewrite upd_eq].
        intros o. unfold flight. by rewrite Ht.
  - simplify_eq. destruct r as [e|r].
    + apply return_step; rewrite ?Ht; try done.
      * apply cs_unlock; [apply Hinv|by rewrite Ht|done].
      * intros o. unfold flight. by rewrite Ht.
    + apply step_unlock; rewrite ?Ht; try done; [by left|by pcok|by fl Ht|by repeat constructor].
Qed.

Lemma q_shutdown_step s t s' ev :
  inv s -> (entry (pcs s t) = true -> holds s t = true) -> exec_shutdown t s = Some (s', ev) -> step_ok s s' ev.
Proof.
  intros Hinv Hen H. unfold exec_shutdown in H. pose proof (q_pc _ Hinv t) as Hok. unfold pc_ok in Hok.
  destruct (pcs s t) as [| | | | | | | | | | | | |drain|drain exp| |ws|[|w ws]| | | | | |] eqn:Ht; try done.
  - case_bool_decide as Hst; simplify_eq.
    + apply step_local; rewrite ?Ht; try done; [by pcok|by fl Ht].
    + apply step_lock; rewrite ?Ht; try done; [by pcok|by fl Ht].
  - pose proof (stop_step s t drain exp Hinv ltac:(auto) Ht) as Hs.
    destruct (shutdown_body s t drain exp). by simplify_eq.
  - simplify_eq. apply step_unlock; rewrite ?Ht; try done; [by left|by pcok|by fl Ht].
  - simplify_eq. apply step_unlock; rewrite ?Ht; try done; [by left|by pcok|by fl Ht].
  - simplify_eq. apply step_local; rewrite ?Ht; try done; [by pcok|by fl Ht].
  - pose proof (step_resume s t w (ShWalk ws) [] Hinv) as Hs. rewrite Ht in Hs.
    destruct (resume s t w _ _). simplify_eq. apply Hs; try done;
      try (unfold flight; simpl; rewrite ?upd_eq, ?Ht; done). pcok. intros x Hx. apply Hok. by right.
  - case_bool_decide as Hst; simplify_eq.
    + apply drain_step; auto.
    + apply step_local; rewrite ?Ht; try done; [|by pcok|by fl Ht]. intros _. apply holds_holder. auto.
  - simplify_eq. apply step_unlock; rewrite ?Ht; try done; [by left|by pcok|by fl Ht].
  - simplify_eq. apply step_unlock; rewrite ?Ht; try done; [by left|by pcok|by fl Ht].
  - simplify_eq. unfold empty, size. apply step_local; rewrite ?Ht; try done; try (by case_match).
    + pcok. destruct (m_elements s) eqn:Hel; simpl; [|done]. intros _.
      unfold drained. simpl. rewrite Hel. destruct (m_running_state s); [done|by right|by left].
    + fl Ht. intros ->. by destruct (Nat.eqb _ _).
  - simplify_eq. apply step_local; rewrite ?Ht; try done; try (by case_match).
    + pcok. case_bool_decide as Hst; [done|]. intros _. left. simpl. by destruct (m_running_state s).
    + fl Ht. intros ->. by case_bool_decide.
  - simplify_eq. apply step_local; rewrite ?Ht; try done; [by pcok|by fl Ht].
Qed.

Lemma q_step s l s' ev : inv s -> exec l s = Some (s', ev) -> step_ok s s' ev.
Proof.
  intros Hinv H. destruct l as [t o|t]; simpl in H.
  - destruct (pcs s t) eqn:Ht; try done. destruct o as [e| | | |]; simplify_eq.
    + apply step_lock; rewrite ?Ht; try done; [by pcok|by fl Ht].
    + by apply call_pop_step.
    + destruct (lk_holder (m_mutex s)) eqn:Hm; simplify_eq.
      * constructor; [done|by repeat constructor; intros []|by apply fifo_one| |by repeat constructor].
        apply (flows_frame _ _ _ t); try done. by repeat constructor.
      * apply step_move; rewrite ?Ht; try done; [|by left|by pcok|by fl Ht].
        apply cs_try; [apply Hinv|done].
    + apply step_local; rewrite ?Ht; try done; [by pcok|by fl Ht].
    + apply step_lock; rewrite ?Ht; try done; [by pcok|by fl Ht].
  - destruct (entry (pcs s t) && negb (holds s t)) eqn:Hen; [done|].
    assert (entry (pcs s t) = true -> holds s t = true) as Hen'.
    { intros He. rewrite He in Hen. by destruct (holds s t). }
    destruct (pcs s t) eqn:Ht; try done; rewrite <- Ht in Hen';
      first [by eapply q_push_step|by eapply q_pop_step|by eapply q_shutdown_step].
Qed.

Lemma q_inv_init : inv init.
Proof.
  constructor; simpl; [by intros t|by apply parking_init|done|intros; no_nil|by intros t].
Qed.

(** The flow of every consumer, over a whole execution. *)
Definition flow_inv (s : state) (tr : list event) : Prop :=
  forall x, exists o, flight s x o /\ consumed x tr = delivered x tr ++ option_list o.

Lemma reach_queue s tr :
  reach exec init s tr ->
  inv s /\ Forall (fun e => ~ is_bad e) tr /\ fifo tr [] (m_elements s) /\ flow_inv s tr /\
  Forall drops_nothing tr.
Proof.
  revert s tr. apply (reach_inv exec (fun s tr => inv s /\ Forall (fun e => ~ is_bad e) tr /\
    fifo tr [] (m_elements s) /\ flow_inv s tr /\ Forall drops_nothing tr)).
  - split_and!; try constructor; [apply q_inv_init..|]. by exists None.
  - intros s tr l s' ev (Hinv & Hb & Hf & Hfl & Hd) He.
    destruct (q_step _ _ _ _ Hinv He) as [Hinv' Hb' Hf' Hfl' Hd'].
    split_and!; [done|by apply Forall_app|by eapply fifo_app| |by apply Forall_app].
    intros x. destruct (Hfl x) as (o & Ho & Heq). destruct (Hfl' x o Ho) as (o' & Ho' & Heq').
    exists o'. split; [done|]. unfold consumed, delivered in *.
    rewrite !omap_app, Heq, <- !app_assoc. f_equal. by rewrite Heq'.
Qed.

(** [C9] First in, first out: in every schedule the elements are assigned to
    consumers in exactly the order in which they were accepted, whether they
    went through the queue or straight to a waiting consumer, and what has been
    accepted and not assigned is the content of the queue. *)
Theorem queue_fifo s tr : reach exec init s tr -> fifo tr [] (m_elements s).
Proof. intros H. apply (reach_queue _ _ H). Qed.

(** Exactly-once delivery: the elements that pop() and try_pop() returned to a
    coroutine are the elements assigned to it, in order and without loss or
    duplication, except at most one that is still on its way to it; resume() is
    only called on suspended consumers. *)
Theorem queue_exactly_once s tr :
  reach exec init s tr ->
  Forall (fun e => ~ is_bad e) tr /\
  forall x, exists o, consumed x tr = delivered x tr ++ option_list o /\ (pcs s x = Idle -> o = None).
Proof.
  intros H. destruct (reach_queue _ _ H) as (_ & Hb & _ & Hfl & _). split; [done|]. intros x.
  destruct (Hfl x) as (o & Ho & Heq). exists o. split; [done|]. intros Hx. unfold flight in Ho.
  by rewrite Hx in Ho.
Qed.

(** [C10] No lost consumer: a suspended consumer is in the waiter list while the
    queue is empty and not stopped, or a producer or shutdown() is about to
    resume it. *)
Theorem queue_no_lost_waiter s tr x :
  reach exec init s tr -> pcs s x = Suspended ->
  (x ∈ m_waiters s /\ m_elements s = [] /\ m_running_state s <> rs_stopped) \/
  exists t, x ∈ held (pcs s t).
Proof.
  intros H Hx. destruct (reach_queue _ _ H) as ([Hcs Hpk Hw _ _] & _).
  destruct (pk_parked _ _ _ Hpk x) as [Hin|?]; [by rewrite Hx|left|by right].
  split; [done|]. apply Hw. intros Hn. rewrite Hn in Hin. no_nil.
Qed.

(** shutdown_drain() loses nothing: the queue it stops is empty. *)
Theorem queue_drain_loses_nothing s tr t l :
  reach exec init s tr -> Stopped t true l ∈ tr -> l = [].
Proof.
  intros H Hin. destruct (reach_queue _ _ H) as (_ & _ & _ & _ & Hd).
  rewrite list.Forall_forall in Hd. apply (Hd _ Hin).
Qed.
End queue.

Definition steps (t n : nat) : list (label (A := nat)) := replicate n (Step t).

Notation exec' := (exec (M := AbsMutex.state) (A := nat)).
Notation init' := (init (M := AbsMutex.state) (A := nat)).

(** 1 waits; 0 pushes 10 (handed over), 20 and 30 (queued); 2 pops 20. *)
Definition push_pop : list (label (A := nat)) :=
  Call 1 Pop :: steps 1 2 ++ Call 0 (Push 10) :: steps 0 4 ++ steps 1 1 ++
  Call 0 (Push 20) :: steps 0 2 ++ Call 0 (Push 30) :: steps 0 2 ++ Call 2 Pop :: steps 2 3.

Lemma queue_fifo_witness :
  exists s tr, run exec' push_pop init' = Some (s, tr) /\
    PopResult 1 (inl 10) ∈ tr /\ PopResult 2 (inl 20) ∈ tr /\ m_elements s = [30] /\
    fifo tr [] (m_elements s).
Proof.
  destruct (run exec' push_pop init') as [[s tr]|] eqn:Hrun; [|vm_compute in Hrun; discriminate].
  exists s, tr. split; [done|]. split_and!; [vm_compute in Hrun; simplify_eq; set_solver..|].
  apply queue_fifo. exact (run_reach _ _ _ _ _ Hrun).
Defined.

Lemma queue_exactly_once_witness :
  exists s tr, run exec' push_pop init' = Some (s, tr) /\ delivered 1 tr = [10] /\
    Forall (fun e => ~ is_bad e) tr /\
    forall x, exists o, consumed x tr = delivered x tr ++ option_list o /\ (pcs s x = Idle -> o = None).
Proof.
  destruct (run exec' push_pop init') as [[s tr]|] eqn:Hrun; [|vm_compute in Hrun; discriminate].
  exists s, tr. split; [done|]. split; [vm_compute in Hrun; by simplify_eq|].
  apply queue_exactly_once. exact (run_reach _ _ _ _ _ Hrun).
Defined.

Lemma queue_no_lost_waiter_witness :
  exists s tr, run exec' (take 3 push_pop) init' = Some (s, tr) /\
    ((1 ∈ m_waiters s /\ m_elements s = [] /\ m_running_state s <> rs_stopped) \/
     exists t, 1 ∈ held (pcs s t)).
Proof.
  destruct (run exec' (take 3 push_pop) init') as [[s tr]|] eqn:Hrun; [|vm_compute in Hrun; discriminate].
  exists s, tr. split; [done|]. apply (queue_no_lost_waiter s tr 1); [exact (run_reach _ _ _ _ _ Hrun)|].
  vm_compute in Hrun. by simplify_eq.
Defined.

(** 0 pushes 10 and drains; 1 pops 10 while 0 yields. *)
Definition drain : list (label (A := nat)) :=
  Call 0 (Push 10) :: steps 0 2 ++ Call 0 ShutdownDrain :: steps 0 4 ++ Call 1 Pop :: steps 1 3 ++ steps 0 6.

Lemma queue_drain_loses_nothing_witness :
  exists s tr, run exec' drain init' = Some (s, tr) /\ Stopped 0 true [] ∈ tr /\
    forall l, Stopped 0 true l ∈ tr -> l = [].
Proof.
  destruct (run exec' drain init') as [[s tr]|] eqn:Hrun; [|vm_compute in Hrun; discriminate].
  exists s, tr. split; [done|]. split; [vm_compute in Hrun; simplify_eq; set_solver|].
  intros l. apply (queue_drain_loses_nothing s tr 0 l). exact (run_reach _ _ _ _ _ Hrun).
Defined.

(** shutdown() can return without stopping the queue: it compares with the
    state it read before it had the lock, so when another coroutine starts
    draining in between the exchange fails and the call gives up.  The element
    is still in the queue and is still handed out afterwards. *)
Theorem queue_shutdown_stale :
  exists s tr, run exec'
      (Call 0 (Push 10) :: steps 0 2 ++
       Call 1 Shutdown :: steps 1 0 ++            (* 1 is about to load m_running_state *)
       Call 2 ShutdownDrain :: steps 1 1 ++       (* 1 reads running, queues for the lock *)
       steps 2 2 ++                               (* 2 sets draining and unlocks *)
       steps 1 2 ++                               (* 1's exchange fails, it returns *)
       Call 3 Pop :: steps 3 3) init' = Some (s, tr) /\
    pcs s 1 = Idle /\ m_running_state s = draining /\ PopResult 3 (inl 10) ∈ tr.
Proof. eexists _, _. split; [vm_compute; reflexivity|]. split; [done|]. split; [done|]. set_solver. Qed.
End Queue.
