(* ===== verification/RingBuffer.v ===== *)
(** * coro::ring_buffer (include/coro/ring_buffer.hpp)

    [Ring] is the storage: the array of optional elements with the 64-bit front
    and back counters, the slot being the counter modulo the capacity.
    [RingBuffer] is the component: producers park when it is full, consumers
    when it is empty, every operation afterwards offers what it freed to the
    other side (try_resume_producers / try_resume_consumers). *)
From stdpp Require Import base list relations option numbers.
From Stdlib Require Import ZArith Lia.
From S2P Require Import Prelude Mutex Monitor.
#[local] Existing Instance AbsMutex.abs_lock.

Module Ring.
Local Open Scope Z_scope.

Section ring.
Context {A : Type} (num_elements : nat).

Record ring := mk_ring {
  m_elements : list (option A);     (* std::array<std::optional<element>, num_elements> *)
  m_front : Z;                      (* std::atomic<size_t>, the three counters *)
  m_back : Z;
  m_used : Z
}.

Definition init : ring := mk_ring (replicate num_elements None) 0 0 0.

(** [m_front.fetch_add(1) % num_elements] and the store, used by await_ready of the
    produce operation and by try_resume_producers. *)
Definition push (e : A) (r : ring) : ring :=
  let slot := Z.to_nat (m_front r mod Z.of_nat num_elements) in
  mk_ring (<[slot := Some e]> (m_elements r)) (u64 (m_front r + 1)) (m_back r) (u64 (m_used r + 1)).

(** [m_back.fetch_add(1) % num_elements], the move out of the slot and its reset. *)
Definition pop (r : ring) : option A * ring :=
  let slot := Z.to_nat (m_back r mod Z.of_nat num_elements) in
  (mjoin (m_elements r !! slot),
   mk_ring (<[slot := None]> (m_elements r)) (m_front r) (u64 (m_back r + 1)) (u64 (m_used r - 1))).

(** The counters are exact: fewer than 2^64 elements so far, or a capacity that
    divides 2^64 (every power of two). *)
Definition wrap_ok (n : Z) : Prop := 2 ^ 64 mod Z.of_nat num_elements = 0 \/ n <= 2 ^ 64.

(** The ring holds the list [l], [B] elements having been consumed before. *)
Record holds (r : ring) (l : list A) (B : Z) : Prop := {
  h_length : length (m_elements r) = num_elements;
  h_fits : (length l <= num_elements)%nat;
  h_small : 0 < Z.of_nat num_elements <= u64_max;
  h_nonneg : 0 <= B;
  h_front : m_front r = u64 (B + Z.of_nat (length l));
  h_back : m_back r = u64 B;
  h_used : m_used r = Z.of_nat (length l);
  h_slots : forall (i : nat) e, l !! i = Some e ->
    m_elements r !! Z.to_nat ((B + Z.of_nat i) mod Z.of_nat num_elements) = Some (Some e)
}.

Lemma ring_init : 0 < Z.of_nat num_elements <= u64_max -> holds init [] 0.
Proof. intros. constructor; simpl; try done; [by rewrite length_replicate|lia]. Qed.

Lemma slot_exact n k :
  wrap_ok n -> 0 <= k < n -> 0 < Z.of_nat num_elements ->
  u64 k mod Z.of_nat num_elements = k mod Z.of_nat num_elements.
Proof.
  unfold u64, wrapU. intros [Hd|Hn] Hk HN.
  - apply Z.mod_divide in Hd as [q Hq]; [|lia]. rewrite (Z.mod_eq k (2 ^ 64)) by lia.
    rewrite Hq. rewrite <- Z.add_opp_r.
    replace (- (q * Z.of_nat num_elements * (k / (q * Z.of_nat num_elements))))
      with ((- (q * (k / (q * Z.of_nat num_elements)))) * Z.of_nat num_elements) by ring.
    apply Z_mod_plus_full.
  - by rewrite (Z.mod_small k) by lia.
Qed.

(** Slots at a distance of less than the capacity are different. *)
Lemma slot_distinct N a d : 0 < d < N -> (a + d) mod N <> a mod N.
Proof.
  intros Hd Heq.
  assert ((a + d - a) mod N = 0) as H0 by (rewrite Zminus_mod, Heq, Z.sub_diag; apply Zmod_0_l).
  replace (a + d - a) with d in H0 by lia. rewrite Z.mod_small in H0; lia.
Qed.

Lemma mod_slot_range k : 0 < Z.of_nat num_elements ->
  (Z.to_nat (k mod Z.of_nat num_elements) < num_elements)%nat.
Proof. intros H. pose proof (Z.mod_pos_bound k (Z.of_nat num_elements) H). lia. Qed.

Lemma u64_succ k : u64 (u64 k + 1) = u64 (k + 1).
Proof. unfold u64, wrapU. by rewrite Zplus_mod_idemp_l. Qed.

Lemma ring_push r l B e n :
  holds r l B -> (length l < num_elements)%nat -> wrap_ok n -> B + Z.of_nat (length l) < n ->
  holds (push e r) (l ++ [e]) B.
Proof.
  intros [Hlen Hfit Hsm Hnn Hf Hb Hu Hs] Hlt Hw Hn.
  assert (m_front r mod Z.of_nat num_elements = (B + Z.of_nat (length l)) mod Z.of_nat num_elements) as Hslot.
  { rewrite Hf. apply (slot_exact n); [done|lia|lia]. }
  constructor; simpl; try done.
  - by rewrite length_insert.
  - rewrite length_app. simpl. lia.
  - rewrite Hf, u64_succ, length_app. f_equal. simpl. lia.
  - rewrite Hu, length_app, u64_small; simpl; lia.
  - intros i x Hi. rewrite Hslot. destruct (decide (i = length l)) as [->|Hne].
    + rewrite lookup_app_r, Nat.sub_diag in Hi by lia. simpl in Hi. simplify_eq.
      apply list_lookup_insert_eq. rewrite Hlen. apply mod_slot_range. lia.
    + assert (i < length l)%nat as Hil.
      { apply lookup_lt_Some in Hi. rewrite length_app in Hi. simpl in Hi. lia. }
      rewrite lookup_app_l in Hi by done. rewrite list_lookup_insert_ne; [by apply Hs|].
      intros Heq. apply Z2Nat.inj in Heq; [|apply Z.mod_pos_bound; lia..].
      apply (slot_distinct (Z.of_nat num_elements) (B + Z.of_nat i) (Z.of_nat (length l) - Z.of_nat i)); [lia|].
      rewrite <- Heq. f_equal. lia.
Qed.

Lemma ring_pop r e l B n :
  holds r (e :: l) B -> wrap_ok n -> B < n ->
  (pop r).1 = Some e /\ holds (pop r).2 l (B + 1).
Proof.
  intros [Hlen Hfit Hsm Hnn Hf Hb Hu Hs] Hw Hn. unfold pop. simpl.
  assert (m_back r mod Z.of_nat num_elements = B mod Z.of_nat num_elements) as Hslot.
  { rewrite Hb. apply (slot_exact n); [done|lia|lia]. }
  simpl in Hfit. split.
  - rewrite Hslot. specialize (Hs 0%nat e eq_refl). rewrite Z.add_0_r in Hs. by rewrite Hs.
  - constructor; simpl; try done; try lia.
    + by rewrite length_insert.
    + rewrite Hf. f_equal. simpl. lia.
    + by rewrite Hb, u64_succ.
    + rewrite Hu. simpl length. rewrite u64_small; unfold u64_max in *; lia.
    + intros i x Hi. rewrite Hslot. rewrite list_lookup_insert_ne.
      * specialize (Hs (S i) x Hi). rewrite <- Hs. f_equal. f_equal. f_equal. lia.
      * intros Heq. apply Z2Nat.inj in Heq; [|apply Z.mod_pos_bound; lia..].
        apply lookup_lt_Some in Hi.
        apply (slot_distinct (Z.of_nat num_elements) B (1 + Z.of_nat i)); [lia|].
        rewrite Heq. f_equal. lia.
Qed.

(** [k] times one element in and out again. *)
Fixpoint cycle (k : nat) (e : A) (r : ring) : ring :=
  match k with 0%nat => r | S k' => cycle k' e (pop (push e r)).2 end.

Lemma cycle_spec k e c :
  cycle k e (mk_ring (replicate num_elements None) (u64 c) (u64 c) 0) =
  mk_ring (replicate num_elements None) (u64 (c + Z.of_nat k)) (u64 (c + Z.of_nat k)) 0.
Proof.
  revert c. induction k as [|k IH]; intros c; [by rewrite Z.add_0_r|]. simpl cycle.
  unfold push, pop. simpl. rewrite !u64_succ.
  assert (forall j (l : list (option A)) x, l = replicate num_elements None ->
            <[j := None]> (<[j := x]> l) = l) as Hins.
  { intros j l x ->. rewrite list_insert_insert_eq. apply list_eq. intros i.
    destruct (decide (j = i)) as [->|Hne]; [|by rewrite list_lookup_insert_ne].
    destruct (decide (i < num_elements)%nat) as [Hlt|Hge].
    - rewrite list_lookup_insert_eq by (by rewrite length_replicate). symmetry. by apply lookup_replicate_2.
    - by rewrite list_insert_ge by (rewrite length_replicate; lia). }
  rewrite Hins by done. change (u64 (u64 (0 + 1) - 1)) with 0. rewrite IH. f_equal; f_equal; lia.
Qed.
End ring.

Lemma ring_wrap_at k :
  Z.of_nat k = 2 ^ 64 - 1 ->
  let r := cycle 3 k 0%nat (init 3) in
  let r' := push 3 20%nat (push 3 10%nat r) in
  m_used r' = 2 /\ (pop 3 r').1 = Some 20%nat /\ (pop 3 (pop 3 r').2).1 = None.
Proof.
  intros Hk. pose proof (cycle_spec 3 k 0%nat 0) as Hc. rewrite Hk in Hc.
  assert (init 3 = mk_ring (replicate 3 None) (u64 0) (u64 0) 0 :> @ring nat) as -> by done.
  rewrite Hc. vm_compute. auto.
Qed.

(** A capacity that does not divide 2^64 breaks when the counters wrap: with
    three slots, after 2^64 - 1 elements have gone through, the next two
    elements land in the same slot, the first is lost and the second consume
    finds an empty slot. *)
Theorem ring_wrap_breaks_order :
  let r := cycle 3 (Z.to_nat (2 ^ 64 - 1)) 0%nat (init 3) in
  let r' := push 3 20%nat (push 3 10%nat r) in
  m_used r' = 2 /\ (pop 3 r').1 = Some 20%nat /\ (pop 3 (pop 3 r').2).1 = None.
Proof. apply ring_wrap_at, Z2Nat.id. lia. Qed.
End Ring.

Module RingBuffer.
Local Open Scope Z_scope.

(** ring_buffer_result::produce, ring_buffer_result::consume, running_state_t *)
Inductive produce_result := produced | p_notified | p_stopped.
Inductive consume_result := c_notified | c_stopped.
Inductive running_state_t := running | draining | stopped.

#[export] Instance rb_running_eq_dec : EqDecision running_state_t.
Proof. solve_decision. Defined.
#[export] Instance rb_produce_eq_dec : EqDecision produce_result.
Proof. solve_decision. Defined.

Section ring_buffer.
Context {M : Type} `{!Lock M} {A : Type} (num_elements : nat).

Definition expected : Type := (A + consume_result)%type.

(** [e] is the argument of the produce() call, kept to report what was produced. *)
Inductive pc :=
| Idle
| PrEnter (e : A)                  (* produce: the lock, then await_ready/await_suspend *)
| PrUnlock (e : A)                 (* await_ready: unlock *)
| PrParkUnlock (e : A)             (* await_suspend: unlock *)
| PrSuspended (e : A)
| PrResume (e : A)                 (* await_resume *)
| TcEnter (e : A) (r : produce_result)             (* try_resume_consumers *)
| TcUnlock (e : A) (r : produce_result) (w : nat)
| TcResume (e : A) (r : produce_result) (w : nat)
| TcLock (e : A) (r : produce_result)              (* the next iteration *)
| TcLeave (e : A) (r : produce_result)
| CoEnter | CoUnlock | CoParkUnlock | CoSuspended | CoResume
| TpEnter (r : expected)                           (* try_resume_producers *)
| TpUnlock (r : expected) (w : nat)
| TpResume (r : expected) (w : nat)
| TpLock (r : expected)
| TpLeave (r : expected)
| NpLoad | NpEnter | NpUnlock (ws : list nat) | NpWalk (ws : list nat)  (* notify_producers *)
| NcLoad | NcEnter | NcUnlock (ws : list nat) | NcWalk (ws : list nat)  (* notify_consumers *)
| ShLoad (drain : bool)                            (* shutdown *)
| ShEnter (drain : bool) (exp : running_state_t)
| ShLose
| ShUnlock
| ShRelock
| ShCollect                                        (* second critical section *)
| ShUnlock2 (ps cs : list nat)
| ShWalk (ps cs : list nat)
| DrEnter | DrLose                                 (* shutdown_drain *)
| DrUnlock (ws : list nat)
| DrWalk (ws : list nat)
| DrEmpty | DrLoad | DrYield.

Inductive op := Produce (e : A) | Consume | NotifyProducers | NotifyConsumers | Shutdown | ShutdownDrain.
Inductive label := Call (t : nat) (o : op) | Step (t : nat).

Inductive event :=
| Stored (t : nat) (e : A)             (* the element of producer t went into a slot *)
| Taken (t : nat) (e : A)              (* a slot was emptied for consumer t *)
| ProduceResult (t : nat) (e : A) (r : produce_result)
| ConsumeResult (t : nat) (r : expected)
| DrainStarted (t : nat)
| Stopped (t : nat) (drain : bool) (used : Z)
| BadSlot (t : nat)                    (* a slot that should hold an element is empty *)
| BadResume (t w : nat).

Record state := mk_state {
  m_mutex : M;
  m_ring : @Ring.ring A;
  m_produce_waiters : list nat;
  m_consume_waiters : list nat;
  m_running_state : running_state_t;
  p_e : nat -> option A;               (* produce_operation::m_e *)
  p_result : nat -> produce_result;    (* produce_operation::m_result *)
  c_e : nat -> option A;               (* consume_operation::m_e *)
  c_result : nat -> consume_result;    (* consume_operation::m_result *)
  pcs : nat -> pc
}.

Definition init : state :=
  mk_state lk_init (Ring.init num_elements) [] [] running (fun _ => None) (fun _ => produced)
    (fun _ => None) (fun _ => c_stopped) (fun _ => Idle).

Definition set_pc (s : state) (t : nat) (p : pc) : state :=
  mk_state (m_mutex s) (m_ring s) (m_produce_waiters s) (m_consume_waiters s) (m_running_state s)
    (p_e s) (p_result s) (c_e s) (c_result s) ((pcs s).[t ↦ p]).
Definition set_mutex (s : state) (m : M) : state :=
  mk_state m (m_ring s) (m_produce_waiters s) (m_consume_waiters s) (m_running_state s)
    (p_e s) (p_result s) (c_e s) (c_result s) (pcs s).
Definition set_ring (s : state) (r : Ring.ring) : state :=
  mk_state (m_mutex s) r (m_produce_waiters s) (m_consume_waiters s) (m_running_state s)
    (p_e s) (p_result s) (c_e s) (c_result s) (pcs s).
Definition set_waiters (s : state) (ps cs : list nat) : state :=
  mk_state (m_mutex s) (m_ring s) ps cs (m_running_state s)
    (p_e s) (p_result s) (c_e s) (c_result s) (pcs s).
Definition set_running (s : state) (r : running_state_t) : state :=
  mk_state (m_mutex s) (m_ring s) (m_produce_waiters s) (m_consume_waiters s) r
    (p_e s) (p_result s) (c_e s) (c_result s) (pcs s).
Definition set_p (s : state) (t : nat) (e : option A) (r : produce_result) : state :=
  mk_state (m_mutex s) (m_ring s) (m_produce_waiters s) (m_consume_waiters s) (m_running_state s)
    ((p_e s).[t ↦ e]) ((p_result s).[t ↦ r]) (c_e s) (c_result s) (pcs s).
Definition set_c (s : state) (t : nat) (e : option A) (r : consume_result) : state :=
  mk_state (m_mutex s) (m_ring s) (m_produce_waiters s) (m_consume_waiters s) (m_running_state s)
    (p_e s) (p_result s) ((c_e s).[t ↦ e]) ((c_result s).[t ↦ r]) (pcs s).

Definition max_size : nat := num_elements.
Definition size (s : state) : Z := Ring.m_used (m_ring s).
Definition empty (s : state) : bool := size s =? 0.
Definition full (s : state) : bool := size s =? Z.of_nat max_size.
Definition is_shutdown (s : state) : bool := negb (bool_decide (m_running_state s = running)).

Definition unlock (s : state) (t : nat) (p : pc) : state :=
  set_pc (set_mutex s (lk_unlock t (m_mutex s))) t p.
Definition lock (s : state) (t : nat) (p : pc) : state :=
  set_pc (set_mutex s (lk_lock t (m_mutex s))) t p.

(** A slot is emptied into the consume operation of [x]. *)
Definition take_for (s : state) (x : nat) (p : state -> state) : state * list event :=
  match Ring.pop num_elements (m_ring s) with
  | (Some e, r) => (p (set_c (set_ring s r) x (Some e) (c_result s x)), [Taken x e])
  | (None, r) => (p (set_c (set_ring s r) x None (c_result s x)), [BadSlot x])
  end.

(** produce_operation::await_ready, and await_suspend when it returns false *)
Definition produce_body (s : state) (t : nat) (e : A) : state * list event :=
  if is_shutdown s then (set_pc (set_p s t (p_e s t) p_stopped) t (PrUnlock e), [])
  else if size s <? Z.of_nat num_elements then
    (set_pc (set_ring s (Ring.push num_elements e (m_ring s))) t (PrUnlock e), [Stored t e])
  else (set_pc (set_waiters s (t :: m_produce_waiters s) (m_consume_waiters s)) t (PrParkUnlock e), []).

(** consume_operation::await_ready, and await_suspend when it returns false *)
Definition consume_body (s : state) (t : nat) : state * list event :=
  if bool_decide (m_running_state s = stopped) then
    (set_pc (set_c s t (c_e s t) c_stopped) t CoUnlock, [])
  else if 0 <? size s then take_for s t (fun s' => set_pc s' t CoUnlock)
  else (set_pc (set_waiters s (m_produce_waiters s) (t :: m_consume_waiters s)) t CoParkUnlock, []).

(** consume_operation::await_resume *)
Definition consume_resume (s : state) (t : nat) : expected :=
  match c_e s t with Some e => inl e | None => inr (c_result s t) end.

(** One iteration of try_resume_producers under the lock *)
Definition try_resume_producers (s : state) (t : nat) (r : expected) : state * list event :=
  if size s <? Z.of_nat num_elements then
    match m_produce_waiters s with
    | w :: ws =>
        match p_e s w with
        | Some e =>
            (set_pc (set_waiters (set_ring s (Ring.push num_elements e (m_ring s))) ws (m_consume_waiters s))
               t (TpUnlock r w), [Stored w e])
        | None => (set_pc (set_waiters s ws (m_consume_waiters s)) t (TpUnlock r w), [BadSlot w])
        end
    | [] => (set_pc s t (TpLeave r), [])
    end
  else (set_pc s t (TpLeave r), []).

(** One iteration of try_resume_consumers under the lock *)
Definition try_resume_consumers (s : state) (t : nat) (e : A) (r : produce_result) : state * list event :=
  if 0 <? size s then
    match m_consume_waiters s with
    | w :: ws => take_for (set_waiters s (m_produce_waiters s) ws) w (fun s' => set_pc s' t (TcUnlock e r w))
    | [] => (set_pc s t (TcLeave e r), [])
    end
  else (set_pc s t (TcLeave e r), []).

(** resume() of the producer or consumer [w]; [t] goes on at [p]. *)
Definition resume (s : state) (t w : nat) (p : pc) : state * list event :=
  match pcs s w with
  | PrSuspended e => (set_pc (set_pc s t p) w (PrResume e), [])
  | CoSuspended => (set_pc (set_pc s t p) w CoResume, [])
  | _ => (set_pc s t p, [BadResume t w])
  end.

Definition exec_produce (t : nat) (s : state) : option (state * list event) :=
  match pcs s t with
  | PrEnter e => Some (produce_body s t e)
  | PrUnlock e => Some (unlock s t (PrResume e), [])
  | PrParkUnlock e => Some (unlock s t (PrSuspended e), [])
  | PrResume e => Some (lock s t (TcEnter e (p_result s t)), [])
  | TcEnter e r => Some (try_resume_consumers s t e r)
  | TcUnlock e r w => Some (unlock s t (TcResume e r w), [])
  | TcResume e r w => Some (resume s t w (TcLock e r))
  | TcLock e r => Some (lock s t (TcEnter e r), [])
  | TcLeave e r => Some (unlock s t Idle, [ProduceResult t e r])
  | _ => None
  end.

Definition exec_consume (t : nat) (s : state) : option (state * list event) :=
  match pcs s t with
  | CoEnter => Some (consume_body s t)
  | CoUnlock => Some (unlock s t CoResume, [])
  | CoParkUnlock => Some (unlock s t CoSuspended, [])
  | CoResume => Some (lock s t (TpEnter (consume_resume s t)), [])
  | TpEnter r => Some (try_resume_producers s t r)
  | TpUnlock r w => Some (unlock s t (TpResume r w), [])
  | TpResume r w => Some (resume s t w (TpLock r))
  | TpLock r => Some (lock s t (TpEnter r), [])
  | TpLeave r => Some (unlock s t Idle, [ConsumeResult t r])
  | _ => None
  end.

(** notify_producers and notify_consumers *)
Definition exec_notify (t : nat) (s : state) : option (state * list event) :=
  match pcs s t with
  | NpLoad =>
      if bool_decide (m_running_state s = stopped) then Some (set_pc s t Idle, [])
      else Some (lock s t NpEnter, [])
  | NpEnter => Some (set_pc (set_waiters s [] (m_consume_waiters s)) t (NpUnlock (m_produce_waiters s)), [])
  | NpUnlock ws => Some (unlock s t (NpWalk ws), [])
  | NpWalk [] => Some (set_pc s t Idle, [])
  | NpWalk (w :: ws) => Some (resume (set_p s w (p_e s w) p_notified) t w (NpWalk ws))
  | NcLoad =>
      if bool_decide (m_running_state s = stopped) then Some (set_pc s t Idle, [])
      else Some (lock s t NcEnter, [])
  | NcEnter => Some (set_pc (set_waiters s (m_produce_waiters s) []) t (NcUnlock (m_consume_waiters s)), [])
  | NcUnlock ws => Some (unlock s t (NcWalk ws), [])
  | NcWalk [] => Some (set_pc s t Idle, [])
  | NcWalk (w :: ws) => Some (resume (set_c s w (c_e s w) c_notified) t w (NcWalk ws))
  | _ => None
  end.

(** shutdown and shutdown_drain *)
Definition exec_shutdown (t : nat) (s : state) : option (state * list event) :=
  match pcs s t with
  | ShLoad drain =>
      if bool_decide (m_running_state s = stopped) then Some (set_pc s t Idle, [])
      else Some (lock s t (ShEnter drain (m_running_state s)), [])
  | ShEnter drain exp =>
      if bool_decide (m_running_state s = exp) then
        Some (set_pc (set_running s stopped) t ShUnlock, [Stopped t drain (size s)])
      else Some (set_pc s t ShLose, [])
  | ShLose => Some (unlock s t Idle, [])
  | ShUnlock => Some (unlock s t ShRelock, [])
  | ShRelock => Some (lock s t ShCollect, [])
  | ShCollect =>
      Some (set_pc (set_waiters s [] []) t (ShUnlock2 (m_produce_waiters s) (m_consume_waiters s)), [])
  | ShUnlock2 ps cs => Some (unlock s t (ShWalk ps cs), [])
  | ShWalk [] [] => Some (set_pc s t Idle, [])
  | ShWalk (w :: ps) cs => Some (resume (set_p s w (p_e s w) p_stopped) t w (ShWalk ps cs))
  | ShWalk [] (w :: cs) => Some (resume (set_c s w (c_e s w) c_stopped) t w (ShWalk [] cs))
  | DrEnter =>
      if bool_decide (m_running_state s = running) then
        Some (set_pc (set_waiters (set_running s draining) [] (m_consume_waiters s)) t
                (DrUnlock (m_produce_waiters s)), [DrainStarted t])
      else Some (set_pc s t DrLose, [])
  | DrLose => Some (unlock s t Idle, [])
  | DrUnlock ws => Some (unlock s t (DrWalk ws), [])
  | DrWalk [] => Some (set_pc s t DrEmpty, [])
  | DrWalk (w :: ws) => Some (resume s t w (DrWalk ws))
  | DrEmpty => Some (set_pc s t (if empty s then ShLoad true else DrLoad), [])
  | DrLoad => Some (set_pc s t (if bool_decide (m_running_state s = draining) then DrYield else ShLoad true), [])
  | DrYield => Some (set_pc s t DrEmpty, [])
  | _ => None
  end.

Definition entry (p : pc) : bool :=
  match p with
  | PrEnter _ | TcEnter _ _ | CoEnter | TpEnter _ | NpEnter | NcEnter | ShEnter _ _ | ShCollect | DrEnter => true
  | _ => false
  end.
Definition cs (p : pc) : bool :=
  match p with
  | PrUnlock _ | PrParkUnlock _ | TcUnlock _ _ _ | TcLeave _ _ | CoUnlock | CoParkUnlock | TpUnlock _ _
  | TpLeave _ | NpUnlock _ | NcUnlock _ | ShLose | ShUnlock | ShUnlock2 _ _ | DrLose | DrUnlock _ => true
  | _ => false
  end.

Definition holds (s : state) (t : nat) : bool := bool_decide (lk_holder (m_mutex s) = Some t).

Definition exec (l : label) (s : state) : option (state * list event) :=
  match l with
  | Call t o =>
      match pcs s t, o with
      | Idle, Produce e => Some (lock (set_p s t (Some e) produced) t (PrEnter e), [])
      | Idle, Consume => Some (lock (set_c s t None c_stopped) t CoEnter, [])
      | Idle, NotifyProducers => Some (set_pc s t NpLoad, [])
      | Idle, NotifyConsumers => Some (set_pc s t NcLoad, [])
      | Idle, Shutdown => Some (set_pc s t (ShLoad false), [])
      | Idle, ShutdownDrain => Some (lock s t DrEnter, [])
      | _, _ => None
      end
  | Step t =>
      if entry (pcs s t) && negb (holds s t) then None
      else
        match pcs s t with
        | Idle | PrSuspended _ | CoSuspended => None
        | PrEnter _ | PrUnlock _ | PrParkUnlock _ | PrResume _ | TcEnter _ _ | TcUnlock _ _ _
        | TcResume _ _ _ | TcLock _ _ | TcLeave _ _ => exec_produce t s
        | CoEnter | CoUnlock | CoParkUnlock | CoResume | TpEnter _ | TpUnlock _ _
        | TpResume _ _ | TpLock _ | TpLeave _ => exec_consume t s
        | NpLoad | NpEnter | NpUnlock _ | NpWalk _ | NcLoad | NcEnter | NcUnlock _ | NcWalk _ => exec_notify t s
        | _ => exec_shutdown t s
        end
  end.

(** ** The invariant *)

Definition mode (p : pc) : pmode :=
  match p with
  | PrSuspended _ | CoSuspended => Parked
  | PrParkUnlock _ | CoParkUnlock => Parking
  | _ => Out
  end.

Definition held (p : pc) : list nat :=
  match p with
  | TcUnlock _ _ w | TcResume _ _ w | TpUnlock _ w | TpResume _ w => [w]
  | NpUnlock ws | NpWalk ws | NcUnlock ws | NcWalk ws | DrUnlock ws | DrWalk ws => ws
  | ShUnlock2 ps cs | ShWalk ps cs => ps ++ cs
  | _ => []
  end.

(** The parked producers among them, and the parked consumers. *)
Definition held_p (p : pc) : list nat :=
  match p with
  | TpUnlock _ w | TpResume _ w => [w]
  | NpUnlock ws | NpWalk ws | DrUnlock ws | DrWalk ws => ws
  | ShUnlock2 ps _ | ShWalk ps _ => ps
  | _ => []
  end.
Definition held_c (p : pc) : list nat :=
  match p with
  | TcUnlock _ _ w | TcResume _ _ w => [w]
  | NcUnlock ws | NcWalk ws => ws
  | ShUnlock2 _ cs | ShWalk _ cs => cs
  | _ => []
  end.

Definition parked_producer (s : state) (x : nat) : Prop :=
  exists e, (pcs s x = PrSuspended e \/ pcs s x = PrParkUnlock e) /\ p_e s x = Some e /\ p_result s x = produced.
Definition parked_consumer (s : state) (x : nat) : Prop :=
  pcs s x = CoSuspended \/ pcs s x = CoParkUnlock.

Definition drained (s : state) : Prop :=
  m_running_state s = stopped \/ (m_running_state s = draining /\ size s = 0).

Definition own_ok (s : state) (t : nat) : Prop :=
  match pcs s t with
  | PrEnter e | PrParkUnlock e => p_e s t = Some e /\ p_result s t = produced
  | CoEnter | CoParkUnlock => c_e s t = None
  | ShLoad drain => drain = true -> drained s
  | ShEnter drain exp => exp <> stopped /\ (drain = true -> drained s)
  | ShUnlock | ShRelock | ShCollect | ShUnlock2 _ _ | ShWalk _ _ => m_running_state s = stopped
  | DrUnlock _ | DrWalk _ | DrEmpty | DrLoad | DrYield => m_running_state s <> running
  | _ => True
  end.

Definition pc_ok (s : state) (t : nat) : Prop :=
  own_ok s t /\ (forall x, x ∈ held_p (pcs s t) -> parked_producer s x) /\
  (forall x, x ∈ held_c (pcs s t) -> parked_consumer s x).

(** On the way to try_resume_producers, respectively try_resume_consumers. *)
Definition frees_slot (p : pc) : bool :=
  match p with
  | CoUnlock | CoResume | TpEnter _ | TpUnlock _ _ | TpResume _ _ | TpLock _
  | TcUnlock _ _ _ | TcResume _ _ _ => true
  | _ => false
  end.
Definition fills_slot (p : pc) : bool :=
  match p with
  | PrUnlock _ | PrResume _ | TcEnter _ _ | TcUnlock _ _ _ | TcResume _ _ _ | TcLock _ _
  | TpUnlock _ _ | TpResume _ _ => true
  | _ => false
  end.

Definition live (s : state) : Prop :=
  (m_produce_waiters s <> [] -> Z.of_nat num_elements <= size s \/ exists t, frees_slot (pcs s t) = true) /\
  (m_consume_waiters s <> [] -> size s = 0 \/ exists t, fills_slot (pcs s t) = true).

Definition collecting (p : pc) : bool :=
  match p with ShUnlock | ShRelock | ShCollect => true | _ => false end.

Record inv (s : state) : Prop := {
  r_cs : cs_ok cs (m_mutex s) (pcs s);
  r_park : parking_ok mode held (m_produce_waiters s ++ m_consume_waiters s) (pcs s);
  r_pw : forall x, x ∈ m_produce_waiters s -> parked_producer s x;
  r_cw : forall x, x ∈ m_consume_waiters s -> parked_consumer s x /\ c_e s x = None;
  r_pc : forall t, pc_ok s t;
  r_live : live s;
  r_stop : m_running_state s = stopped ->
    (m_produce_waiters s = [] /\ m_consume_waiters s = []) \/ exists t, collecting (pcs s t) = true;
  r_drain : m_running_state s = draining -> m_produce_waiters s = [];
  r_size : 0 <= size s
}.

Lemma held_split p : held p = held_p p ++ held_c p.
Proof. by destruct p; simpl; rewrite ?app_nil_r. Qed.

Lemma held_parked s t x : inv s -> x ∈ held (pcs s t) -> mode (pcs s x) = Parked.
Proof. intros Hinv Hx. apply (pk_held _ _ _ (r_park _ Hinv) t x Hx). Qed.

(** What a step of [t] must leave alone for the coroutines it does not touch. *)
Record frame (s s' : state) (touched : nat -> Prop) : Prop := {
  f_pcs : forall x, ~ touched x -> pcs s' x = pcs s x;
  f_pe : forall x, ~ touched x -> p_e s' x = p_e s x;
  f_pr : forall x, ~ touched x -> p_result s' x = p_result s x;
  f_ce : forall x, ~ touched x -> c_e s' x = c_e s x;
  f_run : m_running_state s <> running -> m_running_state s' <> running;
  f_stop : m_running_state s = stopped -> m_running_state s' = stopped;
  f_drained : drained s -> drained s'
}.

Lemma parked_producer_frame s s' P x : frame s s' P -> ~ P x -> parked_producer s x -> parked_producer s' x.
Proof.
  intros Hf Hx (e & Hp & He & Hr). exists e.
  by rewrite (f_pcs _ _ _ Hf), (f_pe _ _ _ Hf), (f_pr _ _ _ Hf) by done.
Qed.

Lemma parked_consumer_frame s s' P x : frame s s' P -> ~ P x -> parked_consumer s x -> parked_consumer s' x.
Proof. intros Hf Hx Hp. unfold parked_consumer. by rewrite (f_pcs _ _ _ Hf). Qed.

Lemma rb_pc_ok_other s s' P x :
  frame s s' P -> ~ P x -> (forall y, y ∈ held (pcs s x) -> ~ P y) -> pc_ok s x -> pc_ok s' x.
Proof.
  intros Hf Hx Hh (Ho & Hp & Hc). unfold pc_ok. rewrite (f_pcs _ _ _ Hf) by done.
  rewrite held_split in Hh. split; [|split].
  - unfold own_ok in *. rewrite (f_pcs _ _ _ Hf), (f_pe _ _ _ Hf), (f_pr _ _ _ Hf), (f_ce _ _ _ Hf) by done.
    destruct (pcs s x); try done; try (by apply (f_stop _ _ _ Hf)); try (by apply (f_run _ _ _ Hf)).
    + intros Hd. by apply (f_drained _ _ _ Hf), Ho.
    + destruct Ho as [? Hd]. split; [done|]. intros ?. by apply (f_drained _ _ _ Hf), Hd.
  - intros y Hy. eapply parked_producer_frame; [done| |by apply Hp]. apply Hh, elem_of_app. by left.
  - intros y Hy. eapply parked_consumer_frame; [done| |by apply Hc]. apply Hh, elem_of_app. by right.
Qed.

(** Any step of the running coroutine [t] that resumes nobody. *)
Lemma inv_gen s s' t p :
  inv s -> mode (pcs s t) <> Parked -> frame s s' (fun x => x = t) -> pcs s' = (pcs s).[t ↦ p] ->
  cs_ok cs (m_mutex s') (pcs s') ->
  parking_ok mode held (m_produce_waiters s' ++ m_consume_waiters s') (pcs s') ->
  (forall x, x ∈ m_produce_waiters s' -> x ∈ m_produce_waiters s /\ x <> t \/ parked_producer s' x) ->
  (forall x, x ∈ m_consume_waiters s' ->
     x ∈ m_consume_waiters s /\ x <> t \/ (parked_consumer s' x /\ c_e s' x = None)) ->
  pc_ok s' t -> live s' ->
  (m_running_state s' = stopped ->
    (m_produce_waiters s' = [] /\ m_consume_waiters s' = []) \/ exists t, collecting (pcs s' t) = true) ->
  (m_running_state s' = draining -> m_produce_waiters s' = []) -> 0 <= size s' ->
  inv s'.
Proof.
  intros Hinv Hmt Hf Hpcs Hcs Hpk Hpw Hcw Hok Hlive Hst Hdr Hsz. constructor; try done.
  - intros x Hx. destruct (Hpw x Hx) as [[Hin Hne]|?]; [|done].
    eapply parked_producer_frame; [done|done|by apply (r_pw _ Hinv)].
  - intros x Hx. destruct (Hcw x Hx) as [[Hin Hne]|?]; [|done].
    destruct (r_cw _ Hinv x Hin) as [Hc He]. split; [by eapply parked_consumer_frame|].
    by rewrite (f_ce _ _ _ Hf).
  - intros x. destruct (decide (x = t)) as [->|Hne]; [done|].
    eapply rb_pc_ok_other; [done|done| |apply (r_pc _ Hinv)].
    intros y Hy ->. by apply (held_parked _ _ _ Hinv) in Hy.
Qed.

(** The liveness clause when only [t]'s control state changes. *)
Lemma live_move s s' t p :
  live s -> size s' = size s -> pcs s' = (pcs s).[t ↦ p] ->
  (m_produce_waiters s' <> [] -> m_produce_waiters s <> []) ->
  (m_consume_waiters s' <> [] -> m_consume_waiters s <> []) ->
  (frees_slot (pcs s t) = true -> frees_slot p = true \/ m_produce_waiters s' = [] \/ Z.of_nat num_elements <= size s) ->
  (fills_slot (pcs s t) = true -> fills_slot p = true \/ m_consume_waiters s' = [] \/ size s = 0) ->
  live s'.
Proof.
  intros [Hp Hc] Hsz Hpcs Hpw Hcw Hfr Hfi. unfold live. rewrite Hsz, Hpcs. split; intros Hn.
  - destruct (Hp (Hpw Hn)) as [?|[x Hx]]; [by left|]. destruct (decide (x = t)) as [->|Hne].
    + destruct (Hfr Hx) as [?|[?|?]]; [right; exists t; by rewrite upd_eq|done|by left].
    + right. exists x. by rewrite upd_ne.
  - destruct (Hc (Hcw Hn)) as [?|[x Hx]]; [by left|]. destruct (decide (x = t)) as [->|Hne].
    + destruct (Hfi Hx) as [?|[?|?]]; [right; exists t; by rewrite upd_eq|done|by left].
    + right. exists x. by rewrite upd_ne.
Qed.

Lemma stop_move s s' t p :
  inv s -> pcs s' = (pcs s).[t ↦ p] -> m_running_state s' = m_running_state s ->
  (m_produce_waiters s = [] -> m_produce_waiters s' = []) ->
  (m_consume_waiters s = [] -> m_consume_waiters s' = []) ->
  (collecting (pcs s t) = true -> collecting p = true \/ (m_produce_waiters s' = [] /\ m_consume_waiters s' = [])) ->
  m_running_state s' = stopped ->
  (m_produce_waiters s' = [] /\ m_consume_waiters s' = []) \/ exists t, collecting (pcs s' t) = true.
Proof.
  intros Hinv Hpcs Hr Hp Hc Hcol Hst. rewrite Hr in Hst.
  destruct (r_stop _ Hinv Hst) as [[? ?]|[x Hx]]; [left; auto|]. rewrite Hpcs.
  destruct (decide (x = t)) as [->|Hne]; [|right; exists x; by rewrite upd_ne].
  destruct (Hcol Hx) as [?|?]; [right; exists t; by rewrite upd_eq|by left].
Qed.

(** Steps that change the control state of [t] and the mutex only. *)
Lemma rb_inv_move s t p m :
  inv s -> mode (pcs s t) <> Parked -> cs_ok cs m ((pcs s).[t ↦ p]) ->
  held p = held (pcs s t) -> (mode p = mode (pcs s t) \/ (mode (pcs s t) = Parking /\ mode p = Parked)) ->
  pc_ok (set_pc (set_mutex s m) t p) t ->
  (forall e, pcs s t = PrParkUnlock e -> p = PrSuspended e) -> (pcs s t = CoParkUnlock -> p = CoSuspended) ->
  (frees_slot (pcs s t) = true -> frees_slot p = true \/ m_produce_waiters s = [] \/ Z.of_nat num_elements <= size s) ->
  (fills_slot (pcs s t) = true -> fills_slot p = true \/ m_consume_waiters s = [] \/ size s = 0) ->
  (collecting (pcs s t) = true -> collecting p = true) ->
  inv (set_pc (set_mutex s m) t p).
Proof.
  intros Hinv Hmt Hcs Hh Hmd Hok Hpp Hcp Hfr Hfi Hcol.
  assert (forall x, x ∈ m_produce_waiters s -> parked_producer (set_pc (set_mutex s m) t p) x) as Hpw.
  { intros x Hx. destruct (r_pw _ Hinv x Hx) as (e & Hp & He & Hr). exists e. simpl.
    split; [|done]. upd_cases; [|done]. destruct Hp as [Hp|Hp]; [by rewrite Hp in Hmt|]. left. auto. }
  apply (inv_gen s _ t p); simpl; try done.
  - constructor; simpl; try done. intros x Hx. by rewrite upd_ne.
  - destruct Hmd as [?|[? ?]]; [by apply parking_move; [apply Hinv|..]|by apply parking_suspend; [apply Hinv|..]].
  - intros x Hx. right. by apply Hpw.
  - intros x Hx. right. destruct (r_cw _ Hinv x Hx) as [Hc He]. split; [|done].
    unfold parked_consumer in *. simpl. upd_cases; [|done]. left. apply Hcp.
    destruct Hc as [Hc|?]; [by rewrite Hc in Hmt|done].
  - by apply (live_move s (set_pc (set_mutex s m) t p) t p (r_live _ Hinv)).
  - intros Hst. apply (stop_move s (set_pc (set_mutex s m) t p) t p Hinv); simpl; try done. auto.
  - apply (r_drain _ Hinv).
  - apply (r_size _ Hinv).
Qed.

(** The control state in which a parked coroutine continues. *)
Definition woken (p : pc) : pc :=
  match p with PrSuspended e => PrResume e | _ => CoResume end.

(** resume() of [w]; [s1] is [s] up to the result field that was set in [w]. *)
Lemma rb_inv_resume s s1 t w p :
  inv s -> frame s s1 (fun x => x = w) -> pcs s1 = pcs s -> m_mutex s1 = m_mutex s -> m_ring s1 = m_ring s ->
  m_produce_waiters s1 = m_produce_waiters s -> m_consume_waiters s1 = m_consume_waiters s ->
  m_running_state s1 = m_running_state s ->
  held (pcs s t) = w :: held p -> (forall x, x ∈ held_p p -> x ∈ held_p (pcs s t)) ->
  (forall x, x ∈ held_c p -> x ∈ held_c (pcs s t)) ->
  mode (pcs s t) = Out -> mode p = Out -> cs p = false -> own_ok (set_pc s t p) t ->
  (forall e, p <> PrEnter e) -> p <> CoEnter ->
  (frees_slot (pcs s t) = true -> frees_slot p = true \/ w ∈ held_c (pcs s t)) ->
  (fills_slot (pcs s t) = true -> fills_slot p = true \/ w ∈ held_p (pcs s t)) ->
  collecting (pcs s t) = false ->
  resume s1 t w p = (set_pc (set_pc s1 t p) w (woken (pcs s w)), []) /\
  inv (set_pc (set_pc s1 t p) w (woken (pcs s w))).
Proof.
  intros Hinv Hf Hpcs Hmx Hrg Hpw Hcw Hrs Hh Hhp Hhc Hmt Hmp Hcp Hown Hnp Hnc Hfr Hfi Hcol.
  assert (mode (pcs s w) = Parked) as Hmw by (apply (held_parked _ t _ Hinv); rewrite Hh; by left).
  assert (mode (woken (pcs s w)) = Out /\ held (woken (pcs s w)) = [] /\ held (pcs s w) = [] /\
          cs (woken (pcs s w)) = false) as (Hq1 & Hq2 & Hq3 & Hq4) by (by destruct (pcs s w)).
  destruct (parking_resume mode held _ _ t w p (woken (pcs s w)) (r_park _ Hinv)) as (_ & Hne & Hpk'); try done.
  split; [unfold resume; rewrite Hpcs; by destruct (pcs s w)|].
  set (s' := set_pc (set_pc s1 t p) w (woken (pcs s w))).
  assert (pcs s' = (pcs s).[t ↦ p].[w ↦ woken (pcs s w)]) as Hpcs' by (simpl; by rewrite Hpcs).
  assert (frame s s' (fun x => x = t \/ x = w)) as Hfr'.
  { destruct Hf as [F1 F2 F3 F4 F5 F6 F7]. constructor; simpl; try done.
    - intros x Hx. rewrite Hpcs, !upd_ne; tauto.
    - intros x Hx. apply F2. tauto.
    - intros x Hx. apply F3. tauto.
    - intros x Hx. apply F4. tauto. }
  assert (forall x, x ∈ m_produce_waiters s ++ m_consume_waiters s -> x <> t /\ x <> w) as Hw.
  { intros x Hx. split; intros ->.
    - by destruct (pk_list _ _ _ (r_park _ Hinv) t Hx).
    - by destruct (pk_held _ _ _ (r_park _ Hinv) t w) as [_ []]; [rewrite Hh; left|]. }
  assert (forall x, x ∈ held p -> x <> t /\ x <> w) as Hhpne.
  { intros x Hx. split; intros ->.
    - pose proof (held_parked s t t Hinv ltac:(rewrite Hh; by right)). congruence.
    - pose proof (pk_held_nodup _ _ _ (r_park _ Hinv) t) as Hnd. simpl in Hnd. rewrite Hh in Hnd.
      by apply list.NoDup_cons in Hnd as [? _]. }
  pose proof (r_pc _ Hinv t) as (_ & Htp & Htc).
  constructor; rewrite ?Hpcs'; simpl; rewrite ?Hmx, ?Hpw, ?Hcw, ?Hrs; try done.
  - intros x. upd_cases; [congruence|congruence|apply (r_cs _ Hinv)].
  - intros x Hx. destruct (Hw x ltac:(apply elem_of_app; by left)).
    eapply parked_producer_frame; [exact Hfr'|tauto|by apply (r_pw _ Hinv)].
  - intros x Hx. destruct (Hw x ltac:(apply elem_of_app; by right)). destruct (r_cw _ Hinv x Hx) as [Hc He].
    split; [eapply parked_consumer_frame; [exact Hfr'|tauto|done]|].
    rewrite <- He. apply (f_ce _ _ _ Hfr'). tauto.
  - intros x. destruct (decide (x = w)) as [->|Hxw]; [|destruct (decide (x = t)) as [->|Hxt]].
    + unfold pc_ok, own_ok. rewrite Hpcs', upd_eq. destruct (pcs s w); try done; simpl; split_and!; try done; intros; no_nil.
    + unfold pc_ok, own_ok in *. rewrite Hpcs', upd_ne, upd_eq by done. simpl in Hown. rewrite upd_eq in Hown.
      split_and!.
      * destruct p; simpl in *; try done; try (by destruct (Hnp e)); rewrite ?Hrs; try done;
          unfold drained, size in *; simpl in *; by rewrite Hrg, Hrs.
      * intros x Hx. destruct (Hhpne x) as [? ?]; [rewrite held_split; apply elem_of_app; by left|].
        eapply parked_producer_frame; [exact Hfr'|tauto|]. by apply Htp, Hhp.
      * intros x Hx. destruct (Hhpne x) as [? ?]; [rewrite held_split; apply elem_of_app; by right|].
        eapply parked_consumer_frame; [exact Hfr'|tauto|]. by apply Htc, Hhc.
    + eapply rb_pc_ok_other; [exact Hfr'|tauto| |apply (r_pc _ Hinv)]. intros y Hy [->| ->].
      * apply (held_parked _ _ _ Hinv) in Hy. congruence.
      * apply Hxt. eapply (pk_uniq _ _ _ (r_park _ Hinv)); [exact Hy|]. rewrite Hh. by left.
  - unfold live, size. simpl. rewrite Hpw, Hcw, Hrg, Hpcs.
    destruct (r_live _ Hinv) as [Hl1 Hl2]. split; intros Hn.
    + destruct (Hl1 Hn) as [?|[x Hx]]; [by left|]. right.
      destruct (decide (x = t)) as [->|Hxt].
      * destruct (Hfr Hx) as [?|Hwc]; [exists t; by rewrite upd_ne, upd_eq|]. exists w. rewrite upd_eq.
        by destruct (Htc w Hwc) as [Hp|Hp]; rewrite Hp.
      * exists x. rewrite !upd_ne; [done|done|]. intros ->. by destruct (pcs s w).
    + destruct (Hl2 Hn) as [?|[x Hx]]; [by left|]. right.
      destruct (decide (x = t)) as [->|Hxt].
      * destruct (Hfi Hx) as [?|Hwc]; [exists t; by rewrite upd_ne, upd_eq|]. exists w. rewrite upd_eq.
        destruct (Htp w Hwc) as (e & [Hp|Hp] & _); [by rewrite Hp|by rewrite Hp in Hmw].
      * exists x. rewrite !upd_ne; [done|done|]. intros ->. by destruct (pcs s w).
  - intros Hst. destruct (r_stop _ Hinv Hst) as [?|[x Hx]]; [by left|]. right. exists x.
    rewrite !upd_ne; [done|..]; intros ->; [congruence|by destruct (pcs s w)].
  - apply (r_drain _ Hinv).
  - unfold size. simpl. rewrite Hrg. apply (r_size _ Hinv).
Qed.

Lemma pc_ok_none s t : held (pcs s t) = [] -> own_ok s t -> pc_ok s t.
Proof.
  intros Hh Ho. rewrite held_split in Hh. apply app_eq_nil in Hh as [H1 H2].
  split; [done|]. rewrite H1, H2. split; intros; no_nil.
Qed.

Ltac updt := rewrite ?upd_eq; try (rewrite upd_ne by done).

Lemma rb_holds_holder s t : holds s t = true -> lk_holder (m_mutex s) = Some t.
Proof. apply bool_decide_eq_true_1. Qed.

Lemma running_false s : is_shutdown s = false -> m_running_state s = running.
Proof. unfold is_shutdown. intros H. apply negb_false_iff in H. by apply bool_decide_eq_true in H. Qed.

Lemma parked_not_in s t : inv s -> mode (pcs s t) = Out ->
  t ∉ m_produce_waiters s /\ t ∉ m_consume_waiters s.
Proof.
  intros Hinv Hm. split; intros Hin; apply (pk_list _ _ _ (r_park _ Hinv) t); simpl; try done;
    apply elem_of_app; auto.
Qed.

(** A coroutine that runs inside its critical section: the mutex, the lists and
    the flag stay, its own fields and the ring may change. *)
Lemma inv_local s s' t p :
  inv s -> mode (pcs s t) = Out -> mode p = Out -> held (pcs s t) = [] -> held p = [] ->
  frame s s' (fun x => x = t) -> pcs s' = (pcs s).[t ↦ p] -> m_mutex s' = m_mutex s ->
  (cs p = true -> lk_holder (m_mutex s) = Some t) ->
  m_produce_waiters s' = m_produce_waiters s -> m_consume_waiters s' = m_consume_waiters s ->
  m_running_state s' = m_running_state s -> own_ok s' t -> live s' ->
  (collecting (pcs s t) = true -> collecting p = true) -> 0 <= size s' -> inv s'.
Proof.
  intros Hinv Hmt Hmp Hht Hhp Hf Hpcs Hm Hcs Hpw Hcw Hrs Hown Hlive Hcol Hsz.
  destruct (parked_not_in s t Hinv Hmt) as [Hnp Hnc].
  apply (inv_gen s s' t p); rewrite ?Hpcs, ?Hm, ?Hpw, ?Hcw, ?Hrs; try done.
  - congruence.
  - apply cs_move; [apply Hinv|done].
  - apply parking_move; [apply Hinv|congruence..].
  - intros x Hx. left. split; [done|]. by intros ->.
  - intros x Hx. left. split; [done|]. by intros ->.
  - apply pc_ok_none; [by rewrite Hpcs, upd_eq|done].
  - rewrite <- Hpw, <- Hcw, <- Hpcs, <- Hrs. apply (stop_move s s' t p Hinv); try done; rewrite ?Hpw, ?Hcw; auto.
  - apply (r_drain _ Hinv).
Qed.

Lemma inv_store s t e :
  inv s -> pcs s t = PrEnter e -> holds s t = true -> is_shutdown s = false -> size s < Z.of_nat num_elements ->
  inv (set_pc (set_ring s (Ring.push num_elements e (m_ring s))) t (PrUnlock e)).
Proof.
  intros Hinv Ht Hold%rb_holds_holder Hrun%running_false Hlt.
  apply (inv_local s _ t (PrUnlock e)); rewrite ?Ht; try done.
  - constructor; simpl; try done; [intros; by updt|]. intros [?|[? _]]; congruence.
  - unfold own_ok. simpl. by updt.
  - destruct (r_live _ Hinv) as [Hl1 Hl2]. split; simpl; intros Hn.
    + right. destruct (Hl1 Hn) as [?|[x Hx]]; [lia|]. exists x. rewrite upd_ne; [done|]. intros ->. by rewrite Ht in Hx.
    + right. exists t. by updt.
  - simpl. unfold size. simpl. apply u64_range.
Qed.

Lemma inv_take_own s t c :
  inv s -> pcs s t = CoEnter -> holds s t = true -> m_running_state s <> stopped -> 0 < size s ->
  inv (set_pc (set_c (set_ring s (Ring.pop num_elements (m_ring s)).2) t c (c_result s t)) t CoUnlock).
Proof.
  intros Hinv Ht Hold%rb_holds_holder Hrs Hlt.
  apply (inv_local s _ t CoUnlock); rewrite ?Ht; try done.
  - constructor; simpl; try done; try (intros; by updt). intros [?|[_ ?]]; [congruence|lia].
  - unfold own_ok. simpl. by updt.
  - destruct (r_live _ Hinv) as [Hl1 Hl2]. split; simpl; intros Hn.
    + right. exists t. by updt.
    + right. destruct (Hl2 Hn) as [?|[x Hx]]; [lia|]. exists x. rewrite upd_ne; [done|]. intros ->. by rewrite Ht in Hx.
  - unfold size. simpl. apply u64_range.
Qed.

Lemma live_same s s' t p :
  inv s -> size s' = size s -> pcs s' = (pcs s).[t ↦ p] -> m_produce_waiters s' = m_produce_waiters s ->
  m_consume_waiters s' = m_consume_waiters s ->
  frees_slot (pcs s t) = false -> fills_slot (pcs s t) = false -> live s'.
Proof.
  intros Hinv H1 H2 H3 H4 H5 H6.
  apply (live_move s s' t p (r_live _ Hinv)); try done; rewrite ?H3, ?H4; congruence.
Qed.

Lemma inv_set_p s t e v r p :
  inv s -> mode (pcs s t) = Out -> held (pcs s t) = [] -> frees_slot (pcs s t) = false ->
  fills_slot (pcs s t) = false -> collecting (pcs s t) = false ->
  (p = PrUnlock e /\ lk_holder (m_mutex s) = Some t) \/ (p = PrEnter e /\ v = Some e /\ r = produced) ->
  inv (set_pc (set_p s t v r) t p).
Proof.
  intros Hinv Hm Hh Hfr Hfi Hcol Hp.
  apply (inv_local s _ t p); try done; try (by destruct Hp as [[-> ?]|(-> & ? & ?)]).
  - constructor; simpl; try done; intros; by updt.
  - unfold own_ok. simpl. updt. destruct Hp as [[-> ?]|(-> & -> & ->)]; [done|]. by updt.
  - by apply (live_same s _ t p).
  - congruence.
  - apply (r_size _ Hinv).
Qed.

Lemma inv_set_c s t v r p :
  inv s -> mode (pcs s t) = Out -> held (pcs s t) = [] -> frees_slot (pcs s t) = false ->
  fills_slot (pcs s t) = false -> collecting (pcs s t) = false ->
  (p = CoUnlock /\ lk_holder (m_mutex s) = Some t) \/ (p = CoEnter /\ v = None) ->
  inv (set_pc (set_c s t v r) t p).
Proof.
  intros Hinv Hm Hh Hfr Hfi Hcol Hp.
  apply (inv_local s _ t p); try done; try (by destruct Hp as [[-> ?]|[-> ?]]).
  - constructor; simpl; try done; intros; by updt.
  - unfold own_ok. simpl. updt. destruct Hp as [[-> ?]|[-> ->]]; [done|]. by updt.
  - by apply (live_same s _ t p).
  - congruence.
  - apply (r_size _ Hinv).
Qed.

Lemma inv_park_p s t e :
  inv s -> pcs s t = PrEnter e -> holds s t = true -> is_shutdown s = false -> Z.of_nat num_elements <= size s ->
  inv (set_pc (set_waiters s (t :: m_produce_waiters s) (m_consume_waiters s)) t (PrParkUnlock e)).
Proof.
  intros Hinv Ht Hold%rb_holds_holder Hrun%running_false Hge.
  pose proof (r_pc _ Hinv t) as [Hown _]. unfold own_ok in Hown. rewrite Ht in Hown.
  destruct (parked_not_in s t Hinv ltac:(by rewrite Ht)) as [Hnp Hnc].
  apply (inv_gen s _ t (PrParkUnlock e)); simpl; rewrite ?Ht; try done.
  - constructor; simpl; try done. intros; by updt.
  - apply cs_move; [apply Hinv|done].
  - apply parking_push; rewrite ?Ht; try done. apply Hinv.
  - intros x [->|Hx]%elem_of_cons.
    + right. exists e. simpl. updt. auto.
    + left. split; [done|]. by intros ->.
  - intros x Hx. left. split; [done|]. by intros ->.
  - apply pc_ok_none; [simpl; by updt|]. unfold own_ok. simpl. by updt.
  - split; simpl; intros Hn; [by left|].
    destruct (proj2 (r_live _ Hinv) Hn) as [?|[x Hx]]; [by left|]. right. exists x. rewrite upd_ne; [done|].
    intros ->. by rewrite Ht in Hx.
  - congruence.
  - congruence.
  - apply (r_size _ Hinv).
Qed.

Lemma parking_middle ps cs t pcs :
  parking_ok mode held (t :: ps ++ cs) pcs -> parking_ok mode held (ps ++ t :: cs) pcs.
Proof. unfold parking_ok. by rewrite (Permutation_middle ps cs t). Qed.

Lemma inv_park_c s t :
  inv s -> pcs s t = CoEnter -> holds s t = true -> m_running_state s <> stopped -> size s <= 0 ->
  inv (set_pc (set_waiters s (m_produce_waiters s) (t :: m_consume_waiters s)) t CoParkUnlock).
Proof.
  intros Hinv Ht Hold%rb_holds_holder Hrun Hge.
  pose proof (r_pc _ Hinv t) as [Hown _]. unfold own_ok in Hown. rewrite Ht in Hown.
  destruct (parked_not_in s t Hinv ltac:(by rewrite Ht)) as [Hnp Hnc].
  apply (inv_gen s _ t CoParkUnlock); simpl; rewrite ?Ht; try done.
  - constructor; simpl; try done. intros; by updt.
  - apply cs_move; [apply Hinv|done].
  - apply parking_middle. apply parking_push; rewrite ?Ht; try done. apply Hinv.
  - intros x Hx. left. split; [done|]. by intros ->.
  - intros x [->|Hx]%elem_of_cons.
    + right. unfold parked_consumer. simpl. updt. auto.
    + left. split; [done|]. by intros ->.
  - apply pc_ok_none; [simpl; by updt|]. unfold own_ok. simpl. by updt.
  - split; simpl; intros Hn.
    + destruct (proj1 (r_live _ Hinv) Hn) as [?|[x Hx]]; [by left|]. right. exists x. rewrite upd_ne; [done|].
      intros ->. by rewrite Ht in Hx.
    + left. unfold size in *. simpl. pose proof (r_size _ Hinv). unfold size in *. lia.
  - apply (r_drain _ Hinv).
  - apply (r_size _ Hinv).
Qed.

(** [t] takes waiters off the lists, in its critical section. *)
Lemma inv_take_waiters s s' t p :
  inv s -> mode (pcs s t) = Out -> mode p = Out -> held (pcs s t) = [] -> lk_holder (m_mutex s) = Some t ->
  frame s s' (fun x => x = t \/ x ∈ held_c p) -> pcs s' = (pcs s).[t ↦ p] -> m_mutex s' = m_mutex s ->
  m_produce_waiters s ++ m_consume_waiters s ≡ₚ held p ++ m_produce_waiters s' ++ m_consume_waiters s' ->
  (forall x, x ∈ m_produce_waiters s' \/ x ∈ held_p p -> x ∈ m_produce_waiters s) ->
  (forall x, x ∈ m_consume_waiters s' \/ x ∈ held_c p -> x ∈ m_consume_waiters s) ->
  own_ok s' t -> live s' ->
  (m_running_state s' = stopped ->
    (m_produce_waiters s' = [] /\ m_consume_waiters s' = []) \/ exists t, collecting (pcs s' t) = true) ->
  (m_running_state s' = draining -> m_produce_waiters s' = []) -> 0 <= size s' ->
  inv s'.
Proof.
  intros Hinv Hmt Hmp Hht Hold Hf Hpcs Hm HW Hpw Hcw Hown Hlive Hst Hdr Hsz.
  destruct (parked_not_in s t Hinv Hmt) as [Hnp Hnc].
  assert (NoDup (m_produce_waiters s ++ m_consume_waiters s)) as Hnd by apply (pk_nodup _ _ _ (r_park _ Hinv)).
  assert (forall x, x ∈ held p -> x ∉ m_produce_waiters s' ++ m_consume_waiters s') as Hdisj.
  { rewrite HW in Hnd. apply list.NoDup_app in Hnd as (_ & Hd & _). exact Hd. }
  assert (forall x, x ∈ held p -> x ∈ m_produce_waiters s ++ m_consume_waiters s) as Hsub.
  { intros x Hx. rewrite HW. apply elem_of_app. by left. }
  assert (forall x, x ∈ m_produce_waiters s -> x <> t -> parked_producer s' x) as Hpp.
  { intros x Hx Hne. destruct (r_pw _ Hinv x Hx) as (e & Hp & He & Hr). exists e.
    rewrite Hpcs, upd_ne by done.
    assert (~ (x = t \/ x ∈ held_c p)) as Hnt.
    { intros [?|Hxc]; [done|]. specialize (Hcw x (or_intror Hxc)).
      apply list.NoDup_app in Hnd as (_ & Hd & _). by apply (Hd x). }
    by rewrite (f_pe _ _ _ Hf), (f_pr _ _ _ Hf) by done. }
  constructor; try done.
  - rewrite Hpcs, Hm. apply cs_move; [apply Hinv|done].
  - rewrite Hpcs. eapply parking_take; [apply Hinv|exact HW|done..|].
    intros x Hx. pose proof (pk_list _ _ _ (r_park _ Hinv) x (Hsub x Hx)) as Hmx. simpl in Hmx.
    assert (x <> t) as Hne.
    { intros ->. specialize (Hsub t Hx). apply elem_of_app in Hsub. tauto. }
    pose proof (cs_other cs _ _ _ x (r_cs _ Hinv) Hold Hne) as Hc. by destruct (pcs s x).
  - intros x Hx. apply Hpp; [apply Hpw; by left|]. intros ->. apply Hnp, Hpw. by left.
  - intros x Hx. assert (x ∈ m_consume_waiters s) as Hxc by (apply Hcw; by left).
    destruct (r_cw _ Hinv x Hxc) as [Hc He].
    assert (~ (x = t \/ x ∈ held_c p)) as Hnt.
    { intros [->|Hh]; [done|]. apply (Hdisj x); [rewrite held_split|]; apply elem_of_app; by right. }
    split; [by eapply parked_consumer_frame|]. by rewrite (f_ce _ _ _ Hf).
  - intros x. destruct (decide (x = t)) as [->|Hne].
    + split; [done|]. rewrite Hpcs, upd_eq. split; intros y Hy.
      * apply Hpp; [apply Hpw; by right|]. intros ->. apply Hnp, Hpw. by right.
      * unfold parked_consumer. rewrite Hpcs.
        assert (y ∈ m_consume_waiters s) as Hyc by (apply Hcw; by right).
        rewrite upd_ne by (intros ->; done). by apply (r_cw _ Hinv).
    + destruct (decide (x ∈ held_c p)) as [Hxc|Hxc].
      * unfold pc_ok, own_ok. rewrite Hpcs, upd_ne by done.
        assert (x ∈ m_consume_waiters s) as Hin by (apply Hcw; by right).
        destruct (r_cw _ Hinv x Hin) as [[Hp|Hp] He]; rewrite Hp; simpl; (split; [|split; intros; no_nil]); [done|].
        pose proof (cs_other cs _ _ _ x (r_cs _ Hinv) Hold Hne) as Hc. by rewrite Hp in Hc.
      * eapply rb_pc_ok_other; [exact Hf|tauto| |apply (r_pc _ Hinv)]. intros y Hy [->|Hyc].
        -- apply (held_parked _ _ _ Hinv) in Hy. congruence.
        -- destruct (pk_held _ _ _ (r_park _ Hinv) x y Hy) as [_ Hn]. apply Hn, Hsub.
           rewrite held_split. apply elem_of_app. by right.
Qed.

(** ** What an execution did *)

Definition stored (tr : list event) : list A :=
  omap (fun e => match e with Stored _ a => Some a | _ => None end) tr.
Definition taken (tr : list event) : list A :=
  omap (fun e => match e with Taken _ a => Some a | _ => None end) tr.
Definition stored_by (x : nat) (tr : list event) : list A :=
  omap (fun e => match e with Stored t a => if decide (t = x) then Some a else None | _ => None end) tr.
Definition taken_by (x : nat) (tr : list event) : list A :=
  omap (fun e => match e with Taken t a => if decide (t = x) then Some a else None | _ => None end) tr.
(** The elements that produce() reported as produced, and that consume() returned. *)
Definition claimed (x : nat) (tr : list event) : list A :=
  omap (fun e => match e with ProduceResult t a produced => if decide (t = x) then Some a else None | _ => None end) tr.
Definition delivered (x : nat) (tr : list event) : list A :=
  omap (fun e => match e with ConsumeResult t (inl a) => if decide (t = x) then Some a else None | _ => None end) tr.

Definition is_bad (e : event) : Prop := match e with BadResume _ _ => True | _ => False end.
Definition is_bad_slot (e : event) : Prop := match e with BadSlot _ => True | _ => False end.
Definition is_drain (e : event) : Prop := match e with DrainStarted _ => True | _ => False end.
Definition drops_nothing (e : event) : Prop :=
  match e with Stopped _ true n => n = 0 | _ => True end.

(** The element on its way to the consumer [x]. *)
Definition res_elem (r : expected) : option A := match r with inl e => Some e | inr _ => None end.
Definition flight (s : state) (x : nat) : option A :=
  match pcs s x with
  | CoUnlock | CoParkUnlock | CoSuspended | CoResume => c_e s x
  | TpEnter r | TpUnlock r _ | TpResume r _ | TpLock r | TpLeave r => res_elem r
  | _ => None
  end.

(** The stored element whose produce() has still to report it. *)
Definition held_tp (p : pc) : list nat := match p with TpUnlock _ w | TpResume _ w => [w] | _ => [] end.
Definition if_produced (r : produce_result) (e : A) : option A :=
  match r with produced => Some e | _ => None end.
Definition pend (s : state) (x : nat) (o : option A) : Prop :=
  match pcs s x with
  | PrUnlock e | PrResume e => o = if_produced (p_result s x) e
  | TcEnter e r | TcUnlock e r _ | TcResume e r _ | TcLock e r | TcLeave e r => o = if_produced r e
  | PrSuspended e =>
      (o = Some e /\ exists t, x ∈ held_tp (pcs s t)) \/ (o = None /\ forall t, x ∉ held_tp (pcs s t))
  | _ => o = None
  end.

Definition drain_pc (p : pc) : bool := match p with DrUnlock _ | DrWalk _ => true | _ => false end.

Record step_ok (s s' : state) (ev : list event) : Prop := {
  so_inv : inv s';
  so_bad : Forall (fun e => ~ is_bad e) ev;
  so_drop : Forall drops_nothing ev;
  so_ring : forall l B n, Ring.holds num_elements (m_ring s) l B -> Ring.wrap_ok num_elements n ->
    B + Z.of_nat (length (l ++ stored ev)) <= n ->
    Forall (fun e => ~ is_bad_slot e) ev /\
    exists l', Ring.holds num_elements (m_ring s') l' (B + Z.of_nat (length (taken ev))) /\
      l ++ stored ev = taken ev ++ l';
  so_consumers : forall x, option_list (flight s x) ++ taken_by x ev = delivered x ev ++ option_list (flight s' x);
  so_producers : (forall t, drain_pc (pcs s t) = false) -> forall x o, pend s x o ->
    exists o', pend s' x o' /\ option_list o ++ stored_by x ev = claimed x ev ++ option_list o';
  so_drain : (forall t, drain_pc (pcs s t) = false) -> Forall (fun e => ~ is_drain e) ev ->
    forall t, drain_pc (pcs s' t) = false
}.

Lemma held_tp_held p x : x ∈ held_tp p -> x ∈ held p.
Proof. by destruct p; simpl; intros; try no_nil. Qed.

(** Coroutines that a step of [t] does not touch keep their pending results. *)
Lemma pend_frame s s' x o :
  pcs s' x = pcs s x -> p_result s' x = p_result s x ->
  (forall t, x ∈ held_tp (pcs s' t) <-> x ∈ held_tp (pcs s t)) -> pend s x o -> pend s' x o.
Proof.
  intros Hp Hr Hh H. unfold pend in *. rewrite Hp, Hr. destruct (pcs s x); try done.
  destruct H as [[-> [t Ht]]|[-> Ht]]; [left|right]; (split; [done|]).
  - exists t. by apply Hh.
  - intros t. rewrite Hh. apply Ht.
Qed.

Lemma rb_flight_frame s s' x : pcs s' x = pcs s x -> c_e s' x = c_e s x -> flight s' x = flight s x.
Proof. intros Hp Hc. unfold flight. by rewrite Hp, Hc. Qed.

(** A step without events that leaves the ring and everybody's fields alone. *)
Lemma step_ok_silent s s' t p :
  inv s' -> m_ring s' = m_ring s -> pcs s' = (pcs s).[t ↦ p] ->
  (forall x, x <> t -> p_result s' x = p_result s x) -> (forall x, x <> t -> c_e s' x = c_e s x) ->
  (forall x, x ∈ held_tp p <-> x ∈ held_tp (pcs s t)) -> flight s' t = flight s t ->
  (forall o, pend s t o -> pend s' t o) -> (drain_pc (pcs s t) = false -> drain_pc p = false) ->
  step_ok s s' [].
Proof.
  intros Hinv Hr Hpcs Hpr Hce Hh Hf Hp Hd. constructor; try done.
  - intros l B n Hl _ _. split; [constructor|]. exists l. rewrite Hr. simpl. rewrite app_nil_r, Z.add_0_r. done.
  - intros x. simpl. rewrite app_nil_r. destruct (decide (x = t)) as [->|Hne]; [by rewrite Hf|].
    rewrite (rb_flight_frame s s' x); [done| |auto]. by rewrite Hpcs, upd_ne.
  - intros _ x o Ho. exists o. simpl. rewrite app_nil_r. split; [|done].
    destruct (decide (x = t)) as [->|Hne]; [auto|]. apply (pend_frame s); [by rewrite Hpcs, upd_ne|auto| |done].
    intros t'. rewrite Hpcs. upd_cases; [apply Hh|done].
  - intros Hq _ t'. rewrite Hpcs. upd_cases; auto.
Qed.

(** A silent step of [t] that changes its control state and the mutex. *)
Record silent_move (s : state) (t : nat) (p : pc) (m : M) : Prop := {
  sm_run : mode (pcs s t) <> Parked;
  sm_cs : cs_ok cs m ((pcs s).[t ↦ p]);
  sm_hp : held_p p = held_p (pcs s t);
  sm_hc : held_c p = held_c (pcs s t);
  sm_mode : mode p = mode (pcs s t) \/ (mode (pcs s t) = Parking /\ mode p = Parked);
  sm_own : own_ok (set_pc (set_mutex s m) t p) t;
  sm_park_p : forall e, pcs s t = PrParkUnlock e -> p = PrSuspended e;
  sm_park_c : pcs s t = CoParkUnlock -> p = CoSuspended;
  sm_frees : frees_slot (pcs s t) = true ->
    frees_slot p = true \/ m_produce_waiters s = [] \/ Z.of_nat num_elements <= size s;
  sm_fills : fills_slot (pcs s t) = true -> fills_slot p = true \/ m_consume_waiters s = [] \/ size s = 0;
  sm_col : collecting (pcs s t) = true -> collecting p = true
}.

Lemma inv_silent s t p m : inv s -> silent_move s t p m -> inv (set_pc (set_mutex s m) t p).
Proof.
  intros Hinv [H1 H2 H3 H4 H5 H6 H7 H8 H9 H10 H11]. pose proof (r_pc _ Hinv t) as (_ & Htp & Htc).
  apply rb_inv_move; try done; [by rewrite !held_split, H3, H4|]. split; [done|]. simpl. rewrite upd_eq, H3, H4.
  assert (forall x, x ∈ held (pcs s t) -> x <> t) as Hne.
  { intros x Hx ->. by apply (held_parked _ _ _ Hinv) in Hx. }
  rewrite held_split in Hne.
  split; intros x Hx.
  - destruct (Htp x Hx) as (e & Hp & He & Hr). exists e. simpl. rewrite upd_ne; [done|].
    apply Hne, elem_of_app. by left.
  - destruct (Htc x Hx) as [Hp|Hp]; unfold parked_consumer; simpl; (rewrite upd_ne; [auto|]);
      apply Hne, elem_of_app; by right.
Qed.

Lemma rb_step_move s t p m :
  inv s -> silent_move s t p m -> (forall x, x ∈ held_tp p <-> x ∈ held_tp (pcs s t)) ->
  flight (set_pc (set_mutex s m) t p) t = flight s t ->
  (forall o, pend s t o -> pend (set_pc (set_mutex s m) t p) t o) ->
  (drain_pc (pcs s t) = false -> drain_pc p = false) ->
  step_ok s (set_pc (set_mutex s m) t p) [].
Proof.
  intros Hinv Hm Hh Hf Hp Hd. apply (step_ok_silent s _ t p); try done. by apply inv_silent.
Qed.

Lemma set_mutex_id s : set_mutex s (m_mutex s) = s.
Proof. by destruct s. Qed.

Lemma rb_step_local s t p :
  inv s -> silent_move s t p (m_mutex s) -> (forall x, x ∈ held_tp p <-> x ∈ held_tp (pcs s t)) ->
  flight (set_pc s t p) t = flight s t -> (forall o, pend s t o -> pend (set_pc s t p) t o) ->
  (drain_pc (pcs s t) = false -> drain_pc p = false) -> step_ok s (set_pc s t p) [].
Proof.
  intros Hinv Hm Hh Hf Hp Hd. pose proof (rb_step_move s t p (m_mutex s)) as H. rewrite set_mutex_id in H. auto.
Qed.

(** Proves the side conditions of a silent move out of the known control state. *)
Ltac sm Ht :=
  constructor; rewrite ?Ht; try done; try (by left); try (by right);
  try (unfold own_ok; simpl; rewrite ?upd_eq; done).
Ltac silent Ht :=
  rewrite ?Ht; try done;
  try (unfold flight; simpl; rewrite ?upd_eq, ?Ht; done);
  try (unfold pend; simpl; intros ?; rewrite ?upd_eq, ?Ht; done).

Lemma cs_ok_unlock s t p :
  inv s -> cs (pcs s t) = true -> cs p = false -> cs_ok cs (lk_unlock t (m_mutex s)) ((pcs s).[t ↦ p]).
Proof. intros Hinv H1 H2. apply cs_unlock; [apply Hinv|done..]. Qed.
Lemma cs_ok_lock s t p : inv s -> cs p = false -> cs_ok cs (lk_lock t (m_mutex s)) ((pcs s).[t ↦ p]).
Proof. intros Hinv H1. apply cs_lock; [apply Hinv|done]. Qed.
Lemma cs_ok_local s t p :
  inv s -> (cs p = true -> lk_holder (m_mutex s) = Some t) -> cs_ok cs (m_mutex s) ((pcs s).[t ↦ p]).
Proof. intros Hinv H1. apply cs_move; [apply Hinv|done]. Qed.

(** A result is reported; [ev] is that report. *)
Lemma step_report s t m ev :
  inv s -> silent_move s t Idle m -> held_tp (pcs s t) = [] -> stored ev = [] -> taken ev = [] ->
  Forall (fun e => ~ is_bad e /\ ~ is_bad_slot e /\ drops_nothing e) ev ->
  (forall x, option_list (flight s x) ++ taken_by x ev = delivered x ev ++ (if decide (x = t) then [] else option_list (flight s x))) ->
  (forall x o, pend s x o -> option_list o ++ stored_by x ev = claimed x ev ++ (if decide (x = t) then [] else option_list o)) ->
  step_ok s (set_pc (set_mutex s m) t Idle) ev.
Proof.
  intros Hinv Hm Hh Hst Htk Hb Hfl Hpe. constructor.
  - by apply inv_silent.
  - eapply list.Forall_impl; [exact Hb|]. by intros e (? & _ & _).
  - eapply list.Forall_impl; [exact Hb|]. by intros e (_ & _ & ?).
  - intros l B n Hl _ _. split; [eapply list.Forall_impl; [exact Hb|]; by intros e (_ & ? & _)|]. exists l.
    rewrite Hst, Htk. simpl. rewrite app_nil_r, Z.add_0_r. done.
  - intros x. rewrite Hfl. f_equal. case_decide as Hx.
    + subst. unfold flight. simpl. by rewrite upd_eq.
    + f_equal. symmetry. apply rb_flight_frame; simpl; [by rewrite upd_ne|done].
  - intros _ x o Ho. specialize (Hpe x o Ho). case_decide as Hx.
    + subst. exists None. split; [|done]. unfold pend. simpl. by rewrite upd_eq.
    + exists o. split; [|done]. apply (pend_frame s); simpl; [by rewrite upd_ne|done| |done].
      intros t'. upd_cases; [by rewrite Hh|done].
  - intros Hq _ t'. simpl. upd_cases; auto.
Qed.

(** The ring part of a step that stores [e], respectively empties a slot. *)
Lemma ring_stored s e x l B n :
  size s < Z.of_nat num_elements -> Ring.holds num_elements (m_ring s) l B -> Ring.wrap_ok num_elements n ->
  B + Z.of_nat (length (l ++ stored [Stored x e])) <= n ->
  exists l', Ring.holds num_elements (Ring.push num_elements e (m_ring s)) l' (B + 0) /\ l ++ [e] = [] ++ l'.
Proof.
  intros Hsz Hl Hw Hn. exists (l ++ [e]). rewrite Z.add_0_r. split; [|done].
  rewrite length_app in Hn. simpl in Hn. pose proof (Ring.h_used _ _ _ _ Hl) as Hu. unfold size in Hsz.
  apply (Ring.ring_push num_elements _ _ _ _ n); try done; lia.
Qed.

Lemma ring_taken s l B n :
  0 < size s -> Ring.holds num_elements (m_ring s) l B -> Ring.wrap_ok num_elements n ->
  B + Z.of_nat (length l) <= n ->
  exists e l', l = e :: l' /\ (Ring.pop num_elements (m_ring s)).1 = Some e /\
    Ring.holds num_elements (Ring.pop num_elements (m_ring s)).2 l' (B + 1).
Proof.
  intros Hsz Hl Hw Hn. pose proof (Ring.h_used _ _ _ _ Hl) as Hu. unfold size in Hsz.
  destruct l as [|e l']; [simpl in Hu; lia|]. exists e, l'. split; [done|]. simpl in Hn.
  apply (Ring.ring_pop num_elements _ _ _ _ n); try done. lia.
Qed.

Lemma own_entry s t e : inv s -> pcs s t = PrEnter e -> p_e s t = Some e /\ p_result s t = produced.
Proof. intros Hinv Ht. pose proof (r_pc _ Hinv t) as [Ho _]. unfold own_ok in Ho. by rewrite Ht in Ho. Qed.

Lemma produce_body_ok s t e :
  inv s -> pcs s t = PrEnter e -> holds s t = true ->
  step_ok s (produce_body s t e).1 (produce_body s t e).2.
Proof.
  intros Hinv Ht Hold. pose proof (rb_holds_holder _ _ Hold) as Hh. destruct (own_entry _ _ _ Hinv Ht) as [He Hr].
  unfold produce_body. destruct (is_shutdown s) eqn:Hsh; simpl.
  { apply (step_ok_silent s _ t (PrUnlock e)); silent Ht; simpl.
    - apply (inv_set_p s t e); rewrite ?Ht; try done. by left.
    - intros x Hx. by rewrite upd_ne. }
  destruct (Z.ltb_spec (size s) (Z.of_nat num_elements)) as [Hlt|Hge]; simpl.
  2: { apply (step_ok_silent s _ t (PrParkUnlock e)); silent Ht; simpl.
       by apply inv_park_p. }
  constructor; simpl.
  - by apply inv_store.
  - by repeat constructor; intros [].
  - by repeat constructor.
  - intros l B n Hl Hw Hn. split; [by repeat constructor; intros []|]. by apply (ring_stored s e t l B n).
  - intros x. simpl. rewrite app_nil_r. destruct (decide (x = t)) as [->|Hne].
    + unfold flight. simpl. by rewrite upd_eq, Ht.
    + rewrite (rb_flight_frame s (set_pc _ t (PrUnlock e)) x); [done|simpl; by rewrite upd_ne|done].
  - intros _ x o Ho. unfold stored_by, claimed. simpl. destruct (decide (t = x)) as [<-|Hne].
    + exists (Some e). unfold pend in *. simpl. rewrite upd_eq, Hr. rewrite Ht in Ho. by subst.
    + exists o. simpl. rewrite app_nil_r. split; [|done].
      apply (pend_frame s); simpl; [by rewrite upd_ne|done| |done]. intros t'. upd_cases; [by rewrite Ht|done].
  - intros Hq _ t'. simpl. upd_cases; auto.
Qed.

Lemma consume_body_ok s t :
  inv s -> pcs s t = CoEnter -> holds s t = true ->
  step_ok s (consume_body s t).1 (consume_body s t).2.
Proof.
  intros Hinv Ht Hold. pose proof (rb_holds_holder _ _ Hold) as Hh.
  pose proof (r_pc _ Hinv t) as [Hc _]. unfold own_ok in Hc. rewrite Ht in Hc.
  unfold consume_body. case_bool_decide as Hst; simpl.
  { apply (step_ok_silent s _ t CoUnlock); silent Ht; simpl.
    - apply inv_set_c; rewrite ?Ht; try done. by left.
    - intros x Hx. by rewrite upd_ne. }
  destruct (Z.ltb_spec 0 (size s)) as [Hlt|Hge]; simpl.
  2: { apply (step_ok_silent s _ t CoParkUnlock); silent Ht; simpl.
       by apply inv_park_c. }
  assert (forall c, inv (set_pc (set_c (set_ring s (Ring.pop num_elements (m_ring s)).2) t c (c_result s t)) t CoUnlock))
    as Hi by (intros; by apply inv_take_own).
  assert (forall c ev, stored_by t ev = [] /\ claimed t ev = [] -> (forall x, x <> t -> stored_by x ev = [] /\ claimed x ev = []) ->
    forall x o, pend s x o -> exists o', pend (set_pc (set_c (set_ring s (Ring.pop num_elements (m_ring s)).2) t c (c_result s t)) t CoUnlock) x o' /\
      option_list o ++ stored_by x ev = claimed x ev ++ option_list o') as Hpend.
  { intros c ev [H1 H2] Hx x o Ho. exists o.
    assert (stored_by x ev = [] /\ claimed x ev = []) as [-> ->] by (destruct (decide (x = t)) as [->|]; auto).
    rewrite app_nil_r. split; [|done]. destruct (decide (x = t)) as [->|Hne].
    - unfold pend in *. simpl. rewrite upd_eq. by rewrite Ht in Ho.
    - apply (pend_frame s); simpl; [by rewrite upd_ne|done| |done]. intros t'. upd_cases; [by rewrite Ht|done]. }
  assert (forall x c, x <> t -> flight (set_pc (set_c (set_ring s (Ring.pop num_elements (m_ring s)).2) t c (c_result s t)) t CoUnlock) x = flight s x) as Hfl.
  { intros x c Hne. apply rb_flight_frame; simpl; by rewrite upd_ne. }
  unfold take_for. destruct (Ring.pop num_elements (m_ring s)) as [[e|] r] eqn:Hpop; simpl in *.
  - constructor; simpl; try done.
    + by repeat constructor; intros [].
    + by repeat constructor.
    + intros l B n Hl Hw Hn. split; [by repeat constructor; intros []|].
      rewrite app_nil_r in Hn. destruct (ring_taken s l B n) as (e' & l' & -> & H1 & H2); try done.
      rewrite Hpop in H1, H2. simpl in *. simplify_eq. exists l'. split; [done|]. by rewrite app_nil_r.
    + intros x. unfold taken_by, delivered. simpl. destruct (decide (t = x)) as [<-|Hne].
      * unfold flight. simpl. by rewrite !upd_eq, Ht.
      * rewrite Hfl by done. by rewrite app_nil_r.
    + intros _. by apply (Hpend (Some e) [Taken t e]).
    + intros Hq _ t'. upd_cases; auto.
  - constructor; simpl; try done.
    + by repeat constructor; intros [].
    + by repeat constructor.
    + intros l B n Hl Hw Hn. rewrite app_nil_r in Hn.
      destruct (ring_taken s l B n) as (e' & l' & -> & H1 & H2); try done. by rewrite Hpop in H1.
    + intros x. unfold taken_by, delivered. simpl. rewrite app_nil_r. destruct (decide (x = t)) as [->|Hne].
      * unfold flight. simpl. by rewrite !upd_eq, Ht.
      * by rewrite Hfl.
    + intros _. by apply (Hpend None [BadSlot t]).
    + intros Hq _ t'. upd_cases; auto.
Qed.

(** A parked waiter seen by the holder of the mutex is suspended. *)
Lemma rb_waiter_suspended s t x :
  inv s -> lk_holder (m_mutex s) = Some t -> mode (pcs s t) = Out ->
  x ∈ m_produce_waiters s ++ m_consume_waiters s -> mode (pcs s x) = Parked /\ x <> t /\ forall t', x ∉ held (pcs s t').
Proof.
  intros Hinv Hold Hmt Hx. pose proof (pk_list _ _ _ (r_park _ Hinv) x Hx) as Hm. simpl in Hm.
  assert (x <> t) as Hne by congruence.
  pose proof (cs_other cs _ _ _ x (r_cs _ Hinv) Hold Hne) as Hc. split_and!; [by destruct (pcs s x)|done|].
  intros t' Hin. by destruct (pk_held _ _ _ (r_park _ Hinv) t' x Hin).
Qed.

Lemma try_resume_producers_ok s t r :
  inv s -> pcs s t = TpEnter r -> holds s t = true ->
  step_ok s (try_resume_producers s t r).1 (try_resume_producers s t r).2.
Proof.
  intros Hinv Ht Hold%rb_holds_holder. unfold try_resume_producers.
  destruct (Z.ltb_spec (size s) (Z.of_nat num_elements)) as [Hlt|Hge]; simpl.
  2: { apply rb_step_local; silent Ht. sm Ht; [by apply cs_ok_local|intros _; by right; right]. }
  destruct (m_produce_waiters s) as [|w ws] eqn:Hws; simpl.
  { apply rb_step_local; silent Ht. sm Ht; [by apply cs_ok_local|intros _; right; by left]. }
  destruct (r_pw _ Hinv w) as (e & Hp & He & Hr); [rewrite Hws; by left|]. rewrite He. simpl.
  destruct (rb_waiter_suspended s t w Hinv Hold) as (Hm & Hne & Hnh); [by rewrite Ht|rewrite Hws; by left|].
  assert (pcs s w = PrSuspended e) as Hw by (destruct Hp as [?|Hp]; [done|by rewrite Hp in Hm]).
  constructor; simpl.
  - apply (inv_take_waiters s _ t (TpUnlock r w)); rewrite ?Ht; simpl; try done.
    + constructor; simpl; try done; [intros x Hx; apply upd_ne; tauto|].
      intros [?|[Hd _]]; [by left|]. by rewrite (r_drain _ Hinv Hd) in Hws.
    + by rewrite Hws.
    + intros x Hx. rewrite Hws, elem_of_cons. rewrite list_elem_of_singleton in Hx. tauto.
    + intros x [?|?]; [done|no_nil].
    + unfold own_ok. simpl. by rewrite upd_eq.
    + split; simpl; intros _; right; exists t; by rewrite upd_eq.
    + intros Hst. apply (stop_move s (set_pc (set_waiters (set_ring s (m_ring s)) ws (m_consume_waiters s)) t (TpUnlock r w)) t (TpUnlock r w) Hinv);
        simpl; rewrite ?Ht; try done. by rewrite Hws.
    + intros Hd. by rewrite (r_drain _ Hinv Hd) in Hws.
    + unfold size. simpl. apply u64_range.
  - by repeat constructor; intros [].
  - by repeat constructor.
  - intros l B n Hl Hw' Hn. split; [by repeat constructor; intros []|]. by apply (ring_stored s e w l B n).
  - intros x. simpl. rewrite app_nil_r. destruct (decide (x = t)) as [->|Hxt].
    + unfold flight. simpl. by rewrite upd_eq, Ht.
    + rewrite (rb_flight_frame s (set_pc _ t _) x); [done|simpl; by rewrite upd_ne|done].
  - intros _ x o Ho. unfold stored_by, claimed. simpl. destruct (decide (w = x)) as [<-|Hxw].
    + exists (Some e). unfold pend in *. simpl. rewrite upd_ne, Hw by done. rewrite Hw in Ho. split.
      * left. split; [done|]. exists t. rewrite upd_eq. by left.
      * destruct Ho as [[_ [t' Ht']]|[-> _]]; [by apply held_tp_held, Hnh in Ht'|done].
    + exists o. simpl. rewrite app_nil_r. split; [|done]. destruct (decide (x = t)) as [->|Hxt].
      * unfold pend in *. simpl. rewrite upd_eq. by rewrite Ht in Ho.
      * apply (pend_frame s); simpl; [by rewrite upd_ne|done| |done]. intros t'. upd_cases; [|done].
        rewrite Ht. simpl. rewrite list_elem_of_singleton. split; [congruence|intros; no_nil].
  - intros Hq _ t'. simpl. upd_cases; auto.
Qed.

Lemma pend_other s s' t p x o :
  pcs s' = (pcs s).[t ↦ p] -> (forall y, p_result s' y = p_result s y) -> held_tp p = [] -> held_tp (pcs s t) = [] ->
  (forall o, pend s t o -> pend s' t o) -> pend s x o -> pend s' x o.
Proof.
  intros Hpcs Hr Hh Hht Ht Ho. destruct (decide (x = t)) as [->|Hne]; [auto|].
  apply (pend_frame s); [by rewrite Hpcs, upd_ne|done| |done]. intros t'. rewrite Hpcs.
  upd_cases; [by rewrite Hh, Hht|done].
Qed.

Lemma try_resume_consumers_ok s t e r :
  inv s -> pcs s t = TcEnter e r -> holds s t = true ->
  step_ok s (try_resume_consumers s t e r).1 (try_resume_consumers s t e r).2.
Proof.
  intros Hinv Ht Hold%rb_holds_holder. unfold try_resume_consumers.
  destruct (Z.ltb_spec 0 (size s)) as [Hlt|Hge]; simpl.
  2: { apply rb_step_local; silent Ht. pose proof (r_size _ Hinv).
       sm Ht; [by apply cs_ok_local|intros _; right; right; lia]. }
  destruct (m_consume_waiters s) as [|w ws] eqn:Hws; simpl.
  { apply rb_step_local; silent Ht. sm Ht; [by apply cs_ok_local|intros _; right; by left]. }
  destruct (r_cw _ Hinv w) as [Hp Hce]; [rewrite Hws; by left|].
  destruct (rb_waiter_suspended s t w Hinv Hold) as (Hm & Hne & Hnh);
    [by rewrite Ht|rewrite Hws; apply elem_of_app; right; by left|].
  assert (pcs s w = CoSuspended) as Hw by (destruct Hp as [?|Hp]; [done|by rewrite Hp in Hm]).
  set (s1 := fun c => set_pc (set_c (set_ring (set_waiters s (m_produce_waiters s) ws)
               (Ring.pop num_elements (m_ring s)).2) w c (c_result s w)) t (TcUnlock e r w)).
  assert (forall c, inv (s1 c)) as Hi.
  { intros c. apply (inv_take_waiters s _ t (TcUnlock e r w)); rewrite ?Ht; simpl; try done.
    - constructor; simpl; try done.
      + intros x Hx; apply upd_ne; tauto.
      + intros x Hx. apply upd_ne. intros ->. apply Hx. right. by left.
      + intros [?|[_ ?]]; [by left|lia].
    - rewrite Hws. by rewrite (Permutation_middle (m_produce_waiters s) ws w).
    - intros x [?|?]; [done|no_nil].
    - intros x Hx. rewrite Hws, elem_of_cons. rewrite list_elem_of_singleton in Hx. tauto.
    - unfold own_ok. simpl. by rewrite upd_eq.
    - split; simpl; intros _; right; exists t; by rewrite upd_eq.
    - intros Hst. apply (stop_move s (s1 c) t (TcUnlock e r w) Hinv); simpl; rewrite ?Ht; try done. by rewrite Hws.
    - apply (r_drain _ Hinv).
    - unfold size. simpl. apply u64_range. }
  assert (forall c x o, pend s x o -> pend (s1 c) x o) as Hpend.
  { intros c x o. apply (pend_other s (s1 c) t (TcUnlock e r w)); simpl; try done; [by rewrite Ht|].
    intros o'. unfold pend. simpl. by rewrite upd_eq, Ht. }
  assert (forall c x, x <> w -> flight (s1 c) x = flight s x) as Hfl.
  { intros c x Hx. destruct (decide (x = t)) as [->|Hxt]; [unfold flight; simpl; by rewrite upd_eq, Ht|].
    apply rb_flight_frame; simpl; by rewrite upd_ne. }
  assert (forall c, flight (s1 c) w = c) as Hflw.
  { intros c. unfold flight. simpl. by rewrite upd_ne, Hw, upd_eq by done. }
  assert (flight s w = None) as Hfl0 by (unfold flight; by rewrite Hw).
  unfold take_for. cbn [m_ring set_waiters c_result].
  destruct (Ring.pop num_elements (m_ring s)) as [[e'|] rg] eqn:Hpop; simpl.
  - constructor; simpl; [apply (Hi (Some e'))|by repeat constructor; intros []|by repeat constructor| | | |].
    + intros l B n Hl Hw' Hn. split; [by repeat constructor; intros []|]. rewrite app_nil_r in Hn.
      destruct (ring_taken s l B n) as (a & l' & -> & H1 & H2); try done.
      rewrite Hpop in H1, H2. simpl in *. simplify_eq. exists l'. split; [done|]. by rewrite app_nil_r.
    + intros x. unfold taken_by, delivered. simpl. destruct (decide (w = x)) as [<-|Hx].
      * rewrite Hfl0. pose proof (Hflw (Some e')) as Hz. unfold s1 in Hz. simpl in Hz. by rewrite Hz.
      * pose proof (Hfl (Some e') x ltac:(done)) as Hz. unfold s1 in Hz. simpl in Hz. by rewrite Hz, app_nil_r.
    + intros _ x o Ho. exists o. split; [by apply (Hpend (Some e'))|]. by rewrite app_nil_r.
    + intros Hq _ t'. upd_cases; auto.
  - constructor; simpl; [apply (Hi None)|by repeat constructor; intros []|by repeat constructor| | | |].
    + intros l B n Hl Hw' Hn. rewrite app_nil_r in Hn.
      destruct (ring_taken s l B n) as (a & l' & -> & H1 & H2); try done. by rewrite Hpop in H1.
    + intros x. unfold taken_by, delivered. simpl. rewrite app_nil_r. destruct (decide (x = w)) as [->|Hx].
      * rewrite Hfl0. pose proof (Hflw None) as Hz. unfold s1 in Hz. simpl in Hz. by rewrite Hz.
      * pose proof (Hfl None x Hx) as Hz. unfold s1 in Hz. simpl in Hz. by rewrite Hz.
    + intros _ x o Ho. exists o. split; [by apply (Hpend None)|]. by rewrite app_nil_r.
    + intros Hq _ t'. upd_cases; auto.
Qed.

(** Emptying one or both lists, [t] keeping the waiters it took. *)
Lemma inv_collect s t p ps cs' rs :
  inv s -> mode (pcs s t) = Out -> mode p = Out -> held (pcs s t) = [] -> lk_holder (m_mutex s) = Some t ->
  (ps = [] /\ held_p p = m_produce_waiters s \/ ps = m_produce_waiters s /\ held_p p = []) ->
  (cs' = [] /\ held_c p = m_consume_waiters s \/ cs' = m_consume_waiters s /\ held_c p = []) ->
  (rs = m_running_state s /\ (collecting (pcs s t) = true -> ps = [] /\ cs' = []) \/
   (rs = draining /\ m_running_state s = running /\ ps = [])) ->
  frees_slot (pcs s t) = false -> fills_slot (pcs s t) = false ->
  own_ok (set_pc (set_waiters (set_running s rs) ps cs') t p) t ->
  inv (set_pc (set_waiters (set_running s rs) ps cs') t p).
Proof.
  intros Hinv Hmt Hmp Hht Hold Hps Hcs Hrs Hfr Hfi Hown.
  assert (m_running_state s <> running -> rs = m_running_state s) as Hrs'.
  { destruct Hrs as [[-> _]|(_ & ? & _)]; [done|congruence]. }
  apply (inv_take_waiters s _ t p); try done; simpl.
  - constructor; simpl; try done.
    + intros x Hx. apply upd_ne. tauto.
    + intros H. by rewrite Hrs'.
    + intros H. rewrite Hrs'; [done|congruence].
    + intros [H|[H1 H2]]; [left|right]; simpl; (rewrite Hrs'; [done|congruence]).
  - rewrite held_split. destruct Hps as [[-> ->]|[-> ->]], Hcs as [[-> ->]|[-> ->]]; simpl; rewrite ?app_nil_r; try done.
    apply Permutation_app_comm.
  - intros x Hx. destruct Hps as [[-> Hp]|[-> Hp]]; rewrite Hp in Hx; destruct Hx; try done; no_nil.
  - intros x Hx. destruct Hcs as [[-> Hp]|[-> Hp]]; rewrite Hp in Hx; destruct Hx; try done; no_nil.
  - apply (live_move s _ t p (r_live _ Hinv)); simpl; try done; try congruence.
    + destruct Hps as [[-> _]|[-> _]]; done.
    + destruct Hcs as [[-> _]|[-> _]]; done.
  - destruct Hrs as [[-> Hcol]|(-> & _ & _)]; [|done]. intros Hst.
    apply (stop_move s (set_pc (set_waiters s ps cs') t p) t p Hinv); simpl; try done.
    + intros H. destruct Hps as [[-> _]|[-> _]]; done.
    + intros H. destruct Hcs as [[-> _]|[-> _]]; done.
    + intros H. right. auto.
  - intros Hd. destruct Hps as [[-> _]|[-> _]]; [done|]. destruct Hrs as [[-> _]|(_ & _ & Hn)]; [|done].
    by apply (r_drain _ Hinv).
  - apply (r_size _ Hinv).
Qed.

Lemma set_running_id s : set_running s (m_running_state s) = s.
Proof. by destruct s. Qed.

Lemma stop_ok s t drain exp :
  inv s -> pcs s t = ShEnter drain exp -> holds s t = true -> m_running_state s = exp ->
  step_ok s (set_pc (set_running s stopped) t ShUnlock) [Stopped t drain (size s)].
Proof.
  intros Hinv Ht Hold%rb_holds_holder Hrs. pose proof (r_pc _ Hinv t) as [Hown _].
  unfold own_ok in Hown. rewrite Ht in Hown. destruct Hown as [Hexp Hdr].
  destruct (parked_not_in s t Hinv ltac:(by rewrite Ht)) as [Hnp Hnc].
  constructor; simpl.
  - apply (inv_gen s _ t ShUnlock); simpl; rewrite ?Ht; try done.
    + constructor; simpl; try done; [intros; by rewrite upd_ne|]. intros _. by left.
    + by apply cs_ok_local.
    + apply parking_move; rewrite ?Ht; try done. apply Hinv.
    + intros x Hx. left. split; [done|]. by intros ->.
    + intros x Hx. left. split; [done|]. by intros ->.
    + apply pc_ok_none; [simpl; by rewrite upd_eq|]. unfold own_ok. simpl. by rewrite upd_eq.
    + by apply (live_same s _ t ShUnlock); simpl; rewrite ?Ht.
    + intros _. right. exists t. by rewrite upd_eq.
    + apply (r_size _ Hinv).
  - by repeat constructor; intros [].
  - repeat constructor. simpl. destruct drain; [|done]. destruct (Hdr eq_refl) as [?|[_ ?]]; congruence.
  - intros l B n Hl _ _. split; [by repeat constructor; intros []|]. exists l.
    by rewrite app_nil_r, Z.add_0_r.
  - intros x. simpl. rewrite app_nil_r. destruct (decide (x = t)) as [->|Hne].
    + unfold flight. simpl. by rewrite upd_eq, Ht.
    + by rewrite (rb_flight_frame s (set_pc _ t ShUnlock) x); simpl; rewrite ?upd_ne.
  - intros _ x o Ho. exists o. split; [|by rewrite app_nil_r].
    apply (pend_other s _ t ShUnlock); simpl; try done; [by rewrite Ht|].
    intros o'. unfold pend. simpl. by rewrite upd_eq, Ht.
  - intros Hq _ t'. simpl. upd_cases; auto.
Qed.

Lemma drain_ok s t :
  inv s -> pcs s t = DrEnter -> holds s t = true -> m_running_state s = running ->
  step_ok s (set_pc (set_waiters (set_running s draining) [] (m_consume_waiters s)) t
               (DrUnlock (m_produce_waiters s))) [DrainStarted t].
Proof.
  intros Hinv Ht Hold%rb_holds_holder Hrs. constructor; simpl.
  - apply inv_collect; rewrite ?Ht; simpl; try done; try (by right); try (by left).
    unfold own_ok. simpl. by rewrite upd_eq.
  - by repeat constructor; intros [].
  - by repeat constructor.
  - intros l B n Hl _ _. split; [by repeat constructor; intros []|]. exists l. by rewrite app_nil_r, Z.add_0_r.
  - intros x. simpl. rewrite app_nil_r. destruct (decide (x = t)) as [->|Hne].
    + unfold flight. simpl. by rewrite upd_eq, Ht.
    + by rewrite (rb_flight_frame s (set_pc _ t _) x); simpl; rewrite ?upd_ne.
  - intros _ x o Ho. exists o. split; [|by rewrite app_nil_r].
    eapply (pend_other s _ t); simpl; try done; [by rewrite Ht|].
    intros o'. unfold pend. simpl. by rewrite upd_eq, Ht.
  - intros _ Hd. apply list.Forall_cons in Hd as [Hd _]. by destruct Hd.
Qed.

(** resume() of a waiter. *)
Lemma rb_step_resume s s1 t w p :
  inv s -> frame s s1 (fun x => x = w) -> pcs s1 = pcs s -> m_mutex s1 = m_mutex s -> m_ring s1 = m_ring s ->
  m_produce_waiters s1 = m_produce_waiters s -> m_consume_waiters s1 = m_consume_waiters s ->
  m_running_state s1 = m_running_state s -> c_e s1 w = c_e s w ->
  held (pcs s t) = w :: held p -> (forall x, x ∈ held_p p -> x ∈ held_p (pcs s t)) ->
  (forall x, x ∈ held_c p -> x ∈ held_c (pcs s t)) ->
  mode (pcs s t) = Out -> mode p = Out -> cs p = false -> own_ok (set_pc s t p) t ->
  (forall e, p <> PrEnter e) -> p <> CoEnter ->
  (frees_slot (pcs s t) = true -> frees_slot p = true \/ w ∈ held_c (pcs s t)) ->
  (fills_slot (pcs s t) = true -> fills_slot p = true \/ w ∈ held_p (pcs s t)) ->
  collecting (pcs s t) = false -> held_tp p = [] -> (drain_pc (pcs s t) = false -> drain_pc p = false) ->
  (w ∈ held_tp (pcs s t) -> p_result s1 w = produced) ->
  (w ∈ held_p (pcs s t) -> w ∉ held_tp (pcs s t) -> drain_pc (pcs s t) = false -> p_result s1 w <> produced) ->
  flight (set_pc s t p) t = flight s t -> (forall o, pend s t o -> pend (set_pc s t p) t o) ->
  step_ok s (resume s1 t w p).1 (resume s1 t w p).2.
Proof.
  intros Hinv Hf Hpcs Hmx Hrg Hpw Hcw Hrs Hce Hh Hhp Hhc Hmt Hmp Hcp Hown Hnp Hnc Hfr Hfi Hcol Htp Hdr Hpr Hpn Hfl Hpe.
  destruct (rb_inv_resume s s1 t w p) as [Heq Hinv']; try done. rewrite Heq. simpl.
  assert (w ∈ held (pcs s t)) as Hwt by (rewrite Hh; by left).
  assert (mode (pcs s w) = Parked) as Hmw by (by apply (held_parked _ t _ Hinv)).
  assert (w <> t) as Hne by congruence.
  assert (forall t', w ∈ held (pcs s t') -> t' = t) as Hu by (intros t' H'; by apply (pk_uniq _ _ _ (r_park _ Hinv) t' t w)).
  assert (forall x t', x <> w -> x ∈ held_tp ((pcs s).[t ↦ p].[w ↦ woken (pcs s w)] t') <-> x ∈ held_tp (pcs s t')) as Htp'.
  { intros x t' Hx. destruct (decide (t' = w)) as [->|]; [rewrite upd_eq; by destruct (pcs s w)|].
    rewrite upd_ne by done. destruct (decide (t' = t)) as [->|]; [rewrite upd_eq, Htp|by rewrite upd_ne].
    split; [intros; no_nil|]. intros Hx'. exfalso. destruct (pcs s t); simpl in *; try no_nil;
      rewrite list_elem_of_singleton in Hx'; by simplify_eq. }
  constructor; try done.
  - intros l B n Hl _ _. split; [constructor|]. exists l. simpl. by rewrite app_nil_r, Z.add_0_r, Hrg.
  - intros x. simpl. rewrite app_nil_r. f_equal.
    destruct (decide (x = w)) as [->|Hxw]; [|destruct (decide (x = t)) as [->|Hxt]].
    + unfold flight. simpl. rewrite upd_eq, Hce. by destruct (pcs s w).
    + rewrite <- Hfl. apply rb_flight_frame; simpl; [by rewrite Hpcs, (upd_ne _ w) by congruence|].
      symmetry. apply (f_ce _ _ _ Hf). congruence.
    + apply rb_flight_frame; simpl; [by rewrite Hpcs, !upd_ne|]. symmetry. by apply (f_ce _ _ _ Hf).
  - intros Hq x o Ho. exists o. simpl. rewrite app_nil_r. split; [|done].
    destruct (decide (x = w)) as [->|Hxw]; [|destruct (decide (x = t)) as [->|Hxt]].
    + unfold pend in *. simpl. rewrite upd_eq. destruct (pcs s w) eqn:Hw; try done. simpl.
      pose proof (r_pc _ Hinv t) as (_ & Htpp & Htcc).
      destruct Ho as [[-> [t' Ht']]|[-> Hno]].
      * assert (t' = t) as -> by (apply Hu; by apply held_tp_held). by rewrite Hpr.
      * assert (w ∈ held_p (pcs s t)) as Hwp.
        { rewrite held_split in Hwt. apply elem_of_app in Hwt as [?|Hc]; [done|].
          destruct (Htcc w Hc); congruence. }
        specialize (Hpn Hwp (Hno t) (Hq t)). by destruct (p_result s1 w).
    + apply (pend_frame (set_pc s t p)); simpl; [by rewrite Hpcs, (upd_ne _ w) by congruence|by apply (f_pr _ _ _ Hf); congruence| |by apply Hpe].
      intros t'. rewrite Hpcs. rewrite Htp' by congruence.
      destruct (decide (t' = t)) as [->|]; [|by rewrite upd_ne]. rewrite upd_eq, Htp.
      split; [|intros; no_nil]. intros Hx%held_tp_held. apply (held_parked _ _ _ Hinv) in Hx. congruence.
    + apply (pend_frame s); simpl; [by rewrite Hpcs, !upd_ne|by apply (f_pr _ _ _ Hf)| |done].
      intros t'. rewrite Hpcs. by apply Htp'.
  - intros Hq _ t'. simpl. rewrite Hpcs. destruct (decide (t' = w)) as [->|]; [rewrite upd_eq; by destruct (pcs s w)|].
    rewrite upd_ne by done. upd_cases; auto.
Qed.

Lemma inv_mutex s m : inv s -> cs_ok cs m (pcs s) -> inv (set_mutex s m).
Proof. intros [H1 H2 H3 H4 H5 H6 H7 H8 H9] Hm. by constructor. Qed.

Lemma call_produce_ok s t e :
  inv s -> pcs s t = Idle -> step_ok s (lock (set_p s t (Some e) produced) t (PrEnter e)) [].
Proof.
  intros Hinv Ht. apply (step_ok_silent s _ t (PrEnter e)); silent Ht; simpl.
  - apply (inv_mutex (set_pc (set_p s t (Some e) produced) t (PrEnter e))); [|by apply (cs_ok_lock s t (PrEnter e))].
    apply (inv_set_p s t e); rewrite ?Ht; try done. by right.
  - intros x Hx. by rewrite upd_ne.
Qed.

Lemma call_consume_ok s t :
  inv s -> pcs s t = Idle -> step_ok s (lock (set_c s t None c_stopped) t CoEnter) [].
Proof.
  intros Hinv Ht. apply (step_ok_silent s _ t CoEnter); silent Ht; simpl.
  - apply (inv_mutex (set_pc (set_c s t None c_stopped) t CoEnter)); [|by apply (cs_ok_lock s t CoEnter)].
    apply inv_set_c; rewrite ?Ht; try done. by right.
  - intros x Hx. by rewrite upd_ne.
Qed.

Lemma rb_step_ok_pair s r s' ev : r = (s', ev) -> step_ok s r.1 r.2 -> step_ok s s' ev.
Proof. by intros ->. Qed.

(** Leaving try_resume_consumers / try_resume_producers with the result. *)
Lemma report_produce_ok s t e r :
  inv s -> pcs s t = TcLeave e r -> step_ok s (unlock s t Idle) [ProduceResult t e r].
Proof.
  intros Hinv Ht. apply step_report; rewrite ?Ht; try done.
  - sm Ht. apply cs_ok_unlock; rewrite ?Ht; done.
  - by repeat constructor; intros [].
  - intros x. simpl. rewrite app_nil_r. case_decide as Hx; [|done]. subst. unfold flight. by rewrite Ht.
  - intros x o Ho. unfold stored_by, claimed. simpl. rewrite app_nil_r. case_decide as Hx.
    + subst. unfold pend in Ho. rewrite Ht in Ho. subst o. destruct r; simpl; rewrite ?decide_True by done; done.
    + destruct r; simpl; rewrite ?decide_False by congruence; done.
Qed.

Lemma report_consume_ok s t r :
  inv s -> pcs s t = TpLeave r -> step_ok s (unlock s t Idle) [ConsumeResult t r].
Proof.
  intros Hinv Ht. apply step_report; rewrite ?Ht; try done.
  - sm Ht. apply cs_ok_unlock; rewrite ?Ht; done.
  - by repeat constructor; intros [].
  - intros x. unfold taken_by, delivered. simpl. rewrite app_nil_r. case_decide as Hx.
    + subst. unfold flight. rewrite Ht. destruct r; simpl; rewrite ?decide_True by done; done.
    + destruct r; simpl; rewrite ?decide_False by congruence; done.
  - intros x o Ho. simpl. rewrite app_nil_r. case_decide as Hx; [|done]. subst. unfold pend in Ho. by rewrite Ht in Ho; subst.
Qed.

Lemma frame_refl s P : frame s s P.
Proof. by constructor. Qed.
Lemma frame_set_p s w v r : frame s (set_p s w v r) (fun x => x = w).
Proof. constructor; simpl; try done; intros; by rewrite upd_ne. Qed.
Lemma frame_set_c s w v r : frame s (set_c s w v r) (fun x => x = w).
Proof. constructor; simpl; try done; intros; by rewrite upd_ne. Qed.

(** The producers that [t] holds have the result [produced] until it is changed. *)
Lemma held_p_result s t w : inv s -> w ∈ held_p (pcs s t) -> p_result s w = produced.
Proof. intros Hinv Hw. pose proof (r_pc _ Hinv t) as (_ & Hp & _). by destruct (Hp w Hw) as (? & _ & _ & ?). Qed.

Lemma produce_step s t s' ev :
  inv s -> (entry (pcs s t) = true -> holds s t = true) -> exec_produce t s = Some (s', ev) -> step_ok s s' ev.
Proof.
  intros Hinv Hen H. unfold exec_produce in H.
  destruct (pcs s t) eqn:Ht; try done; simplify_eq.
  - eapply rb_step_ok_pair; [done|]. apply produce_body_ok; auto.
  - apply rb_step_move; silent Ht. sm Ht. by apply cs_ok_unlock; rewrite ?Ht.
  - apply rb_step_move; silent Ht.
    + sm Ht; [by apply cs_ok_unlock; rewrite ?Ht|]. intros e' [= ->]. done.
    + intros o. unfold pend. simpl. rewrite upd_eq, Ht. intros ->. right. split; [done|].
      intros t' Hin. upd_cases; [simpl in Hin; no_nil|]. apply held_tp_held in Hin.
      apply (held_parked _ _ _ Hinv) in Hin. by rewrite Ht in Hin.
  - apply rb_step_move; silent Ht. sm Ht. by apply cs_ok_lock.
  - eapply rb_step_ok_pair; [done|]. apply try_resume_consumers_ok; auto.
  - apply rb_step_move; silent Ht. sm Ht. by apply cs_ok_unlock; rewrite ?Ht.
  - eapply rb_step_ok_pair; [done|].
    apply (rb_step_resume s s); silent Ht; try (by apply frame_refl).
    + intros x Hx. simpl in Hx. no_nil.
    + unfold own_ok. simpl. by rewrite upd_eq.
    + intros _. right. by left.
    + intros _. by left.
    + intros Hx. simpl in Hx. no_nil.
  - apply rb_step_move; silent Ht. sm Ht. by apply cs_ok_lock.
  - by apply report_produce_ok.
Qed.

Lemma consume_step s t s' ev :
  inv s -> (entry (pcs s t) = true -> holds s t = true) -> exec_consume t s = Some (s', ev) -> step_ok s s' ev.
Proof.
  intros Hinv Hen H. unfold exec_consume in H.
  destruct (pcs s t) eqn:Ht; try done; simplify_eq.
  - eapply rb_step_ok_pair; [done|]. apply consume_body_ok; auto.
  - apply rb_step_move; silent Ht. sm Ht. by apply cs_ok_unlock; rewrite ?Ht.
  - apply rb_step_move; silent Ht. sm Ht. by apply cs_ok_unlock; rewrite ?Ht.
  - apply rb_step_move; silent Ht.
    + sm Ht. by apply cs_ok_lock.
    + unfold flight. simpl. rewrite upd_eq, Ht. unfold consume_resume. by destruct (c_e s t).
  - eapply rb_step_ok_pair; [done|]. apply try_resume_producers_ok; auto.
  - apply rb_step_move; silent Ht. sm Ht. by apply cs_ok_unlock; rewrite ?Ht.
  - eapply rb_step_ok_pair; [done|].
    apply (rb_step_resume s s); silent Ht; try (by apply frame_refl).
    + intros x Hx. simpl in Hx. no_nil.
    + unfold own_ok. simpl. by rewrite upd_eq.
    + intros _. by left.
    + intros _. right. by left.
    + intros Hx. apply (held_p_result s t); [done|]. by rewrite Ht.
  - apply rb_step_move; silent Ht. sm Ht. by apply cs_ok_lock.
  - by apply report_consume_ok.
Qed.

Ltac walk :=
  try (intros ? ?; by right); try (unfold own_ok; simpl; rewrite upd_eq; done);
  try (let Hx := fresh in intros Hx; simpl in Hx; no_nil); try (intros; simpl; by rewrite upd_eq).

Lemma notify_step s t s' ev :
  inv s -> (entry (pcs s t) = true -> holds s t = true) -> exec_notify t s = Some (s', ev) -> step_ok s s' ev.
Proof.
  intros Hinv Hen H. unfold exec_notify in H.
  destruct (pcs s t) as [] eqn:Ht; try done.
  - case_bool_decide; simplify_eq.
    + apply rb_step_local; silent Ht. sm Ht. by apply cs_ok_local.
    + apply rb_step_move; silent Ht. sm Ht. by apply cs_ok_lock.
  - simplify_eq. specialize (Hen eq_refl). apply rb_holds_holder in Hen.
    apply (step_ok_silent s _ t (NpUnlock (m_produce_waiters s))); silent Ht.
    pose proof (inv_collect s t (NpUnlock (m_produce_waiters s)) [] (m_consume_waiters s) (m_running_state s) Hinv) as Hi.
    rewrite set_running_id, Ht in Hi. apply Hi; try done; try (by left); try (by right).
    unfold own_ok. simpl. by rewrite upd_eq.
  - simplify_eq. apply rb_step_move; silent Ht. sm Ht. by apply cs_ok_unlock; rewrite ?Ht.
  - destruct ws as [|w ws]; simplify_eq.
    + apply rb_step_local; silent Ht. sm Ht. by apply cs_ok_local.
    + eapply rb_step_ok_pair; [done|].
      apply (rb_step_resume s _ t w); silent Ht; try (by apply frame_set_p); walk.
  - case_bool_decide; simplify_eq.
    + apply rb_step_local; silent Ht. sm Ht. by apply cs_ok_local.
    + apply rb_step_move; silent Ht. sm Ht. by apply cs_ok_lock.
  - simplify_eq. specialize (Hen eq_refl). apply rb_holds_holder in Hen.
    apply (step_ok_silent s _ t (NcUnlock (m_consume_waiters s))); silent Ht.
    pose proof (inv_collect s t (NcUnlock (m_consume_waiters s)) (m_produce_waiters s) [] (m_running_state s) Hinv) as Hi.
    rewrite set_running_id, Ht in Hi. apply Hi; try done; try (by left); try (by right).
    unfold own_ok. simpl. by rewrite upd_eq.
  - simplify_eq. apply rb_step_move; silent Ht. sm Ht. by apply cs_ok_unlock; rewrite ?Ht.
  - destruct ws as [|w ws]; simplify_eq.
    + apply rb_step_local; silent Ht. sm Ht. by apply cs_ok_local.
    + eapply rb_step_ok_pair; [done|].
      apply (rb_step_resume s _ t w); silent Ht; try (by apply frame_set_c); walk.
Qed.

Lemma rb_shutdown_step s t s' ev :
  inv s -> (entry (pcs s t) = true -> holds s t = true) -> exec_shutdown t s = Some (s', ev) -> step_ok s s' ev.
Proof.
  intros Hinv Hen H. unfold exec_shutdown in H.
  pose proof (r_pc _ Hinv t) as [Hown _]. unfold own_ok in Hown.
  destruct (pcs s t) as [] eqn:Ht; try done.
  - case_bool_decide; simplify_eq.
    + apply rb_step_local; silent Ht. sm Ht. by apply cs_ok_local.
    + apply rb_step_move; silent Ht. sm Ht. by apply cs_ok_lock.
  - case_bool_decide; simplify_eq.
    + apply (stop_ok s t drain (m_running_state s)); auto.
    + apply rb_step_local; silent Ht. sm Ht. apply cs_ok_local; [done|]. intros _. apply rb_holds_holder. auto.
  - simplify_eq. apply rb_step_move; silent Ht. sm Ht. by apply cs_ok_unlock; rewrite ?Ht.
  - simplify_eq. apply rb_step_move; silent Ht. sm Ht. by apply cs_ok_unlock; rewrite ?Ht.
  - simplify_eq. apply rb_step_move; silent Ht. sm Ht. by apply cs_ok_lock.
  - simplify_eq. specialize (Hen eq_refl). apply rb_holds_holder in Hen.
    apply (step_ok_silent s _ t (ShUnlock2 (m_produce_waiters s) (m_consume_waiters s))); silent Ht.
    pose proof (inv_collect s t (ShUnlock2 (m_produce_waiters s) (m_consume_waiters s)) [] [] (m_running_state s) Hinv) as Hi.
    rewrite set_running_id, Ht in Hi. apply Hi; try done; try (by left); try (by right).
    unfold own_ok. simpl. by rewrite upd_eq.
  - simplify_eq. apply rb_step_move; silent Ht. sm Ht. by apply cs_ok_unlock; rewrite ?Ht.
  - destruct ps as [|w ps]; [destruct cs0 as [|w cs0]|]; simplify_eq.
    + apply rb_step_local; silent Ht. sm Ht. by apply cs_ok_local.
    + eapply rb_step_ok_pair; [done|].
      apply (rb_step_resume s _ t w); silent Ht; try (by apply frame_set_c); walk.
    + eapply rb_step_ok_pair; [done|].
      apply (rb_step_resume s _ t w); silent Ht; try (by apply frame_set_p); walk.
  - case_bool_decide; simplify_eq.
    + apply drain_ok; auto.
    + apply rb_step_local; silent Ht. sm Ht. apply cs_ok_local; [done|]. intros _. apply rb_holds_holder. auto.
  - simplify_eq. apply rb_step_move; silent Ht. sm Ht. by apply cs_ok_unlock; rewrite ?Ht.
  - simplify_eq. apply rb_step_move; silent Ht. sm Ht. by apply cs_ok_unlock; rewrite ?Ht.
  - destruct ws as [|w ws]; simplify_eq.
    + apply rb_step_local; silent Ht. sm Ht. by apply cs_ok_local.
    + eapply rb_step_ok_pair; [done|].
      apply (rb_step_resume s s t w); silent Ht; try (by apply frame_refl); walk.
  - simplify_eq. unfold empty. destruct (Z.eqb_spec (size s) 0) as [H0|].
    + apply rb_step_local; silent Ht. sm Ht; [by apply cs_ok_local|].
      unfold own_ok. simpl. rewrite upd_eq. intros _. unfold drained, size in *. simpl.
      destruct (m_running_state s); [done|by right|by left].
    + apply rb_step_local; silent Ht. sm Ht. by apply cs_ok_local.
  - simplify_eq. case_bool_decide as Hd.
    + apply rb_step_local; silent Ht. sm Ht. by apply cs_ok_local.
    + apply rb_step_local; silent Ht. sm Ht; [by apply cs_ok_local|].
      unfold own_ok. simpl. rewrite upd_eq. intros _. unfold drained. simpl.
      destruct (m_running_state s); [done|done|by left].
  - simplify_eq. apply rb_step_local; silent Ht. sm Ht. by apply cs_ok_local.
Qed.

Lemma rb_step s l s' ev : inv s -> exec l s = Some (s', ev) -> step_ok s s' ev.
Proof.
  intros Hinv H. destruct l as [t o|t]; simpl in H.
  - destruct (pcs s t) eqn:Ht; try done. destruct o; simplify_eq.
    + by apply call_produce_ok.
    + by apply call_consume_ok.
    + apply rb_step_local; silent Ht. sm Ht. by apply cs_ok_local.
    + apply rb_step_local; silent Ht. sm Ht. by apply cs_ok_local.
    + apply rb_step_local; silent Ht. sm Ht. by apply cs_ok_local.
    + apply rb_step_move; silent Ht. sm Ht. by apply cs_ok_lock.
  - destruct (entry (pcs s t) && negb (holds s t)) eqn:Hen; [done|].
    assert (entry (pcs s t) = true -> holds s t = true) as Hen'.
    { intros He. rewrite He in Hen. by destruct (holds s t). }
    destruct (pcs s t) eqn:Ht; try done; rewrite <- Ht in Hen';
      first [by eapply produce_step|by eapply consume_step|by eapply notify_step|by eapply rb_shutdown_step].
Qed.

Lemma rb_inv_init : inv init.
Proof.
  constructor; simpl; try (intros; no_nil); [by intros t|by apply parking_init| |by split|by left|done|done].
  intros t. by apply pc_ok_none.
Qed.

Lemma wrap_ok_le n n' : n <= n' -> Ring.wrap_ok num_elements n' -> Ring.wrap_ok num_elements n.
Proof. intros Hn [?|?]; [by left|right; lia]. Qed.

Record summary (s : state) (tr : list event) : Prop := {
  su_inv : inv s;
  su_bad : Forall (fun e => ~ is_bad e) tr;
  su_drop : Forall drops_nothing tr;
  su_ring : Ring.wrap_ok num_elements (Z.of_nat (length (stored tr))) ->
    Forall (fun e => ~ is_bad_slot e) tr /\
    exists l, Ring.holds num_elements (m_ring s) l (Z.of_nat (length (taken tr))) /\ stored tr = taken tr ++ l;
  su_consumers : forall x, taken_by x tr = delivered x tr ++ option_list (flight s x);
  su_producers : Forall (fun e => ~ is_drain e) tr ->
    (forall t, drain_pc (pcs s t) = false) /\
    forall x, exists o, pend s x o /\ stored_by x tr = claimed x tr ++ option_list o
}.

Lemma summary_step s tr l s' ev : summary s tr -> exec l s = Some (s', ev) -> summary s' (tr ++ ev).
Proof.
  intros [Hinv Hb Hd Hr Hc Hp] He. destruct (rb_step _ _ _ _ Hinv He) as [Hinv' Hb' Hd' Hr' Hc' Hp' Hdr'].
  constructor; [done|by apply Forall_app|by apply Forall_app| | |].
  - unfold stored, taken in *. rewrite !omap_app, length_app, Nat2Z.inj_add. intros Hw.
    destruct Hr as (Hs & l' & Hl & Heq); [eapply wrap_ok_le; [|exact Hw]; lia|].
    destruct (Hr' l' _ _ Hl Hw) as (Hs' & l'' & Hl' & Heq').
    { rewrite length_app. apply (f_equal length) in Heq. rewrite length_app in Heq. lia. }
    split; [by apply Forall_app|]. exists l''. rewrite length_app, Nat2Z.inj_add. split; [done|].
    by rewrite Heq, <- !app_assoc, Heq'.
  - intros x. unfold taken_by, delivered in *. rewrite !omap_app, Hc, <- !app_assoc. f_equal. apply Hc'.
  - intros Hn. apply Forall_app in Hn as [Hn1 Hn2]. destruct (Hp Hn1) as [Hq Hx]. split; [by apply Hdr'|].
    intros x. destruct (Hx x) as (o & Ho & Heq). destruct (Hp' Hq x o Ho) as (o' & Ho' & Heq').
    exists o'. split; [done|]. unfold stored_by, claimed in *. rewrite !omap_app, Heq, <- !app_assoc. f_equal. done.
Qed.

Lemma reach_summary s tr :
  0 < Z.of_nat num_elements <= u64_max -> reach exec init s tr -> summary s tr.
Proof.
  intros HN. revert s tr. apply (reach_inv exec summary); [|intros; by eapply summary_step].
  constructor; try done.
  - apply rb_inv_init.
  - intros _. split; [constructor|]. exists []. split; [by apply Ring.ring_init|done].
  - intros _. split; [done|]. intros x. by exists None.
Qed.

(** [C7] First in, first out through the array: in every schedule the elements come
    out of the slots in the order they went in, no slot is overwritten or found
    empty, and size() is the number of elements inside, at most max_size().
    The counters must not have wrapped unless the capacity divides 2^64. *)
Theorem ring_buffer_fifo s tr :
  0 < Z.of_nat num_elements <= u64_max -> reach exec init s tr ->
  Ring.wrap_ok num_elements (Z.of_nat (length (stored tr))) ->
  Forall (fun e => ~ is_bad_slot e) tr /\
  exists l, stored tr = taken tr ++ l /\ size s = Z.of_nat (length l) /\ (length l <= max_size)%nat.
Proof.
  intros HN Hr Hw. destruct (su_ring _ _ (reach_summary _ _ HN Hr) Hw) as (Hs & l & Hl & Heq).
  split; [done|]. exists l. split; [done|]. split; [apply (Ring.h_used _ _ _ _ Hl)|apply (Ring.h_fits _ _ _ _ Hl)].
Qed.

(** Exactly-once delivery: what consume() returned to a coroutine is what was
    taken out of the buffer for it, in order, except one element that is still
    on its way to it; resume() is only called on suspended coroutines. *)
Theorem ring_buffer_exactly_once s tr :
  0 < Z.of_nat num_elements <= u64_max -> reach exec init s tr ->
  Forall (fun e => ~ is_bad e) tr /\
  forall x, taken_by x tr = delivered x tr ++ option_list (flight s x) /\ (pcs s x = Idle -> flight s x = None).
Proof.
  intros HN Hr. destruct (reach_summary _ _ HN Hr) as [_ Hb _ _ Hc _]. split; [done|]. intros x.
  split; [done|]. intros Hx. unfold flight. by rewrite Hx.
Qed.

(** As long as shutdown_drain() is not used, produce() reports [produced]
    exactly for the elements that went into the buffer. *)
Theorem ring_buffer_produced_is_stored s tr :
  0 < Z.of_nat num_elements <= u64_max -> reach exec init s tr -> Forall (fun e => ~ is_drain e) tr ->
  forall x, exists o, stored_by x tr = claimed x tr ++ option_list o /\ (pcs s x = Idle -> o = None).
Proof.
  intros HN Hr Hd x. destruct (su_producers _ _ (reach_summary _ _ HN Hr) Hd) as [_ Hx].
  destruct (Hx x) as (o & Ho & Heq). exists o. split; [done|]. intros Hi. unfold pend in Ho. by rewrite Hi in Ho.
Qed.

(** [C8] No lost wakeup: a suspended producer is listed while the buffer is full or
    a coroutine is on its way to try_resume_producers(), a suspended consumer is
    listed while it is empty or one is on its way to try_resume_consumers();
    otherwise somebody is about to resume it.  After a stop nobody stays listed
    once the waiters have been collected. *)
Theorem ring_buffer_no_lost_waiter s tr x :
  0 < Z.of_nat num_elements <= u64_max -> reach exec init s tr -> mode (pcs s x) = Parked ->
  (exists t, x ∈ held (pcs s t)) \/
  ((x ∈ m_produce_waiters s /\
      (Z.of_nat num_elements <= size s \/ exists t, frees_slot (pcs s t) = true)) \/
   (x ∈ m_consume_waiters s /\ (size s = 0 \/ exists t, fills_slot (pcs s t) = true))) /\
  (m_running_state s = stopped -> exists t, collecting (pcs s t) = true).
Proof.
  intros HN Hr Hx. destruct (su_inv _ _ (reach_summary _ _ HN Hr)) as [_ Hpk _ _ _ [Hl1 Hl2] Hst _ _].
  destruct (pk_parked _ _ _ Hpk x Hx) as [Hin|?]; [right|by left].
  apply elem_of_app in Hin. split.
  - destruct Hin as [Hin|Hin]; [left|right]; (split; [done|]); [apply Hl1|apply Hl2];
      intros Hn; rewrite Hn in Hin; no_nil.
  - intros Hs. destruct (Hst Hs) as [[H1 H2]|?]; [|done]. rewrite H1, H2 in Hin. destruct Hin; no_nil.
Qed.

(** shutdown_drain() stops an empty buffer: no stored element is dropped. *)
Theorem ring_buffer_drain_loses_nothing s tr t n :
  0 < Z.of_nat num_elements <= u64_max -> reach exec init s tr -> Stopped t true n ∈ tr -> n = 0.
Proof.
  intros HN Hr Hin. destruct (reach_summary _ _ HN Hr) as [_ _ Hd _ _ _].
  rewrite list.Forall_forall in Hd. apply (Hd _ Hin).
Qed.
End ring_buffer.

Local Close Scope Z_scope.
Local Open Scope nat_scope.

Definition steps (t n : nat) : list (label (A := nat)) := replicate n (Step t).
Notation exec1 := (exec (M := AbsMutex.state) (A := nat) 1).
Notation init1 := (init (M := AbsMutex.state) (A := nat) 1).

Lemma cap1 : (0 < Z.of_nat 1 <= u64_max)%Z.
Proof. by vm_compute. Qed.

(** One slot: 0 produces 10 and suspends with 20; 1 consumes both. *)
Definition produce_consume : list (label (A := nat)) :=
  Call 0 (Produce 10) :: steps 0 5 ++ Call 0 (Produce 20) :: steps 0 2 ++
  Call 1 Consume :: steps 1 9 ++ steps 0 3 ++ Call 1 Consume :: steps 1 5.

Lemma ring_buffer_fifo_witness :
  exists s tr, run exec1 produce_consume init1 = Some (s, tr) /\ stored tr = [10; 20] /\
    Forall (fun e => ~ is_bad_slot e) tr /\
    exists l, stored tr = taken tr ++ l /\ size s = Z.of_nat (length l) /\ (length l <= 1).
Proof.
  destruct (run exec1 produce_consume init1) as [[s tr]|] eqn:Hrun; [|vm_compute in Hrun; discriminate].
  exists s, tr. split; [done|]. split; [vm_compute in Hrun; by simplify_eq|].
  apply (ring_buffer_fifo (M := AbsMutex.state) 1 s tr); [exact cap1|exact (run_reach _ _ _ _ _ Hrun)|].
  left. reflexivity.
Defined.

Lemma ring_buffer_exactly_once_witness :
  exists s tr, run exec1 produce_consume init1 = Some (s, tr) /\ delivered 1 tr = [10; 20] /\
    taken_by 1 tr = delivered 1 tr ++ option_list (flight s 1).
Proof.
  destruct (run exec1 produce_consume init1) as [[s tr]|] eqn:Hrun; [|vm_compute in Hrun; discriminate].
  exists s, tr. split; [done|]. split; [vm_compute in Hrun; by simplify_eq|].
  apply (ring_buffer_exactly_once (M := AbsMutex.state) 1 s tr); [exact cap1|exact (run_reach _ _ _ _ _ Hrun)].
Defined.

Lemma ring_buffer_produced_is_stored_witness :
  exists s tr, run exec1 produce_consume init1 = Some (s, tr) /\
    exists o, stored_by 0 tr = claimed 0 tr ++ option_list o /\ (pcs s 0 = Idle -> o = None).
Proof.
  destruct (run exec1 produce_consume init1) as [[s tr]|] eqn:Hrun; [|vm_compute in Hrun; discriminate].
  exists s, tr. split; [done|].
  apply (ring_buffer_produced_is_stored (M := AbsMutex.state) 1 s tr); [exact cap1|exact (run_reach _ _ _ _ _ Hrun)|].
  vm_compute in Hrun. simplify_eq. repeat constructor; by intros [].
Defined.

Definition filled : list (label (A := nat)) :=
  Call 0 (Produce 10) :: steps 0 5 ++ Call 0 (Produce 20) :: steps 0 2.

Lemma ring_buffer_no_lost_waiter_witness :
  exists s tr, run exec1 filled init1 = Some (s, tr) /\ mode (pcs s 0) = Parked /\
  ((exists t, 0 ∈ held (pcs s t)) \/
   ((0 ∈ m_produce_waiters s /\ ((1 <= size s)%Z \/ exists t, frees_slot (pcs s t) = true)) \/
    (0 ∈ m_consume_waiters s /\ (size s = 0%Z \/ exists t, fills_slot (pcs s t) = true))) /\
   (m_running_state s = stopped -> exists t, collecting (pcs s t) = true)).
Proof.
  destruct (run exec1 filled init1) as [[s tr]|] eqn:Hrun; [|vm_compute in Hrun; discriminate].
  assert (mode (pcs s 0) = Parked) as Hp by (vm_compute in Hrun; by simplify_eq).
  exists s, tr. split; [done|]. split; [done|].
  apply (ring_buffer_no_lost_waiter (M := AbsMutex.state) 1 s tr 0); [exact cap1|exact (run_reach _ _ _ _ _ Hrun)|done].
Defined.

(** 0 produces 10 and drains; 1 consumes 10 while 0 yields. *)
Definition drain : list (label (A := nat)) :=
  Call 0 (Produce 10) :: steps 0 5 ++ Call 0 ShutdownDrain :: steps 0 5 ++ Call 1 Consume :: steps 1 5 ++ steps 0 9.

Lemma ring_buffer_drain_loses_nothing_witness :
  exists s tr, run exec1 drain init1 = Some (s, tr) /\ Stopped 0 true 0%Z ∈ tr /\
    forall n, Stopped 0 true n ∈ tr -> n = 0%Z.
Proof.
  destruct (run exec1 drain init1) as [[s tr]|] eqn:Hrun; [|vm_compute in Hrun; discriminate].
  exists s, tr. split; [done|]. split; [vm_compute in Hrun; simplify_eq; set_solver|].
  intros n. apply (ring_buffer_drain_loses_nothing (M := AbsMutex.state) 1 s tr 0 n); [exact cap1|exact (run_reach _ _ _ _ _ Hrun)].
Defined.

(** shutdown_drain() makes produce() lie: it resumes the suspended producers
    without setting their result, so the second produce() returns [produced]
    although its element was never stored. *)
Theorem ring_buffer_drain_reports_produced :
  exists s tr, run exec1 (filled ++ Call 1 ShutdownDrain :: steps 1 3 ++ steps 0 3) init1 = Some (s, tr) /\
    ProduceResult 0 20 produced ∈ tr /\ stored tr = [10].
Proof. eexists _, _. split; [vm_compute; reflexivity|]. split; [set_solver|done]. Qed.
End RingBuffer.
