(* ===== verification/Task.v ===== *)
(** * coro::task, its promise, the self-deleting task and coro::invoke
    (include/coro/task.hpp, include/coro/detail/task_self_deleting.hpp,
    src/detail/task_self_deleting.cpp, include/coro/invoke.hpp)

    [Promise] is the interface of the promise types to the coroutine machinery:
    how a result is stored and read back; [Promises] has its implementations.
    [Task] is a machine of coroutine frames: the body of a coroutine is a program
    of the user's ([prog]), everything around it (the promise with its storage and
    its continuation, the awaitable of a task, the symmetric transfer of
    final_suspend, the nested resume() of invoke, the self-deletion) is the
    library's.  [Ownership] is the move-only object that owns a coroutine frame
    (task, generator, sync_wait_task and when_all_task). *)
From stdpp Require Import base list relations option numbers.
From S2P Require Import Prelude.

(** What a promise promises to whoever awaits the coroutine. *)
Class Promise (V E : Type) := {
  storage : Type;
  p_init : storage;
  p_return : V -> storage -> storage;         (* return_value / return_void *)
  p_unhandled : E -> storage -> storage;      (* unhandled_exception *)
  p_result : storage -> V + E;                (* result(): the value, or what it throws *)
  p_result_return v : p_result (p_return v p_init) = inl v;
  p_result_unhandled e : p_result (p_unhandled e p_init) = inr e
}.

Module Promises.

Section promise.
Context {V E : Type} (never_set : E).   (* the runtime_error of result() *)

(** promise<T>::m_storage: unset_return_value, stored_type or std::exception_ptr *)
Inductive variant_type := unset_return_value | stored (v : V) | exception_ptr (e : E).

Definition return_value (v : V) (_ : variant_type) : variant_type := stored v.
Definition unhandled_exception (e : E) (_ : variant_type) : variant_type := exception_ptr e.
Definition result (s : variant_type) : V + E :=
  match s with
  | stored v => inl v
  | exception_ptr e => inr e
  | unset_return_value => inr never_set
  end.

#[refine] Instance promise : Promise V E := {|
  storage := variant_type; p_init := unset_return_value;
  p_return := return_value; p_unhandled := unhandled_exception; p_result := result |}.
Proof. all: done. Defined.
End promise.

Section promise_void.
Context {E : Type}.

(** promise<void>::m_exception_ptr *)
Definition return_void (_ : unit) (s : option E) : option E := s.
Definition void_unhandled_exception (e : E) (_ : option E) : option E := Some e.
Definition void_result (s : option E) : unit + E :=
  match s with Some e => inr e | None => inl tt end.

#[refine] Instance promise_void : Promise unit E := {|
  storage := option E; p_init := None;
  p_return := return_void; p_unhandled := void_unhandled_exception; p_result := void_result |}.
Proof. all: by repeat intros []. Defined.
End promise_void.
End Promises.

Module Task.

Section task.
Context {V E : Type} `{!Promise V E}.

(** A coroutine body up to the library: it returns, throws, awaits a task it has
    just created (its continuation sees the value or the rethrown exception),
    awaits coro::invoke of a functor, or awaits something that suspends it until
    it is resumed from outside. *)
Inductive prog :=
| Ret (v : V)
| Throw (e : E)
| Await (p : prog) (k : V + E -> prog)
| Invoke (p : prog) (k : V + E -> prog)
| Pause (k : prog).

(** What the body means. *)
Fixpoint eval (p : prog) : V + E :=
  match p with
  | Ret v => inl v
  | Throw e => inr e
  | Await p k | Invoke p k => eval (k (eval p))
  | Pause k => eval k
  end.

Definition quote (r : V + E) : prog := match r with inl v => Ret v | inr e => Throw e end.

(** Where a suspended coroutine continues: in its body, after the resume() inside
    invoke, in await_resume() of the task [child] whose result [k] gets, or
    nowhere (final suspend). *)
Inductive code :=
| Body (p : prog)
| Invoked (child : nat) (k : V + E -> prog)
| AwaitResume (child : nat) (k : V + E -> prog)
| Final.

(** A promise of coro::task, or promise_self_deleting with its m_user_final_suspend. *)
Inductive kind := KTask | KSelfDeleting (m_user_final_suspend : option nat).

Record frame := mk_frame {
  f_kind : kind;
  f_code : code;
  m_continuation : option nat;    (* promise_base::m_continuation *)
  m_storage : storage
}.

Inductive control :=
| Running (c : nat) (callers : list nat)  (* the thread runs c, inside resume() calls of callers *)
| Idle                                    (* the outermost resume() has returned *)
| Fault.                                  (* a destroyed or finished coroutine was touched *)

Record state := mk_state {
  frames : nat -> option frame;   (* None: not allocated, or destroyed *)
  fresh : nat;                    (* allocation *)
  paused : list nat;              (* handles held by outside awaitables *)
  log : list nat;                 (* user final-suspend callbacks that ran *)
  ctl : control
}.

Definition set_frame (s : state) (c : nat) (f : option frame) : state :=
  mk_state ((frames s).[c ↦ f]) (fresh s) (paused s) (log s) (ctl s).
Definition set_ctl (s : state) (k : control) : state :=
  mk_state (frames s) (fresh s) (paused s) (log s) k.
Definition set_code (f : frame) (k : code) : frame :=
  mk_frame (f_kind f) k (m_continuation f) (m_storage f).

(** Calling a coroutine function: the frame is created, initial_suspend() suspends. *)
Definition create (s : state) (k : kind) (p : prog) : nat * state :=
  (fresh s, mk_state ((frames s).[fresh s ↦ Some (mk_frame k (Body p) None p_init)])
              (S (fresh s)) (paused s) (log s) (ctl s)).

(** coroutine_handle::done(); [None] on a destroyed frame *)
Definition done (s : state) (c : nat) : option bool :=
  match frames s c with
  | Some f => Some (match f_code f with Final => true | _ => false end)
  | None => None
  end.

(** coroutine_handle::destroy(): the frame and the task it owns as a local *)
Fixpoint destroy (fuel : nat) (s : state) (c : nat) : state :=
  match fuel with
  | 0 => s
  | S fuel =>
      match frames s c with
      | Some f =>
          let s1 := set_frame s c None in
          match f_code f with
          | Invoked d _ | AwaitResume d _ => destroy fuel s1 d
          | _ => s1
          end
      | None => set_ctl s Fault
      end
  end.

(** A coroutine suspended without a transfer: the innermost resume() returns. *)
Definition return_to (callers : list nat) : control :=
  match callers with [] => Idle | d :: l => Running d l end.

(** promise_base::final_awaitable::await_suspend *)
Definition final_await_suspend (m_continuation : option nat) (callers : list nat) : control :=
  match m_continuation with
  | Some d => Running d callers
  | None => return_to callers      (* noop_coroutine *)
  end.

(** promise_self_deleting::final_suspend: the callback, then the frame deletes itself *)
Definition self_deleting_final_suspend (s : state) (c : nat) (callback : option nat) (callers : list nat) : state :=
  let s1 := match callback with
            | Some cb => mk_state (frames s) (fresh s) (paused s) (log s ++ [cb]) (ctl s)
            | None => s
            end in
  set_ctl (set_frame s1 c None) (return_to callers).

(** The body is over with result [r]: the promise stores it, then final_suspend. *)
Definition finish (s : state) (c : nat) (f : frame) (r : V + E) (callers : list nat) : state :=
  match f_kind f with
  | KTask =>
      let st := match r with inl v => p_return v (m_storage f) | inr e => p_unhandled e (m_storage f) end in
      set_ctl (set_frame s c (Some (mk_frame KTask Final (m_continuation f) st)))
        (final_await_suspend (m_continuation f) callers)
  | KSelfDeleting cb => self_deleting_final_suspend s c cb callers
  end.

(** task::awaitable_base::await_ready (a null handle does not occur here) *)
Definition await_ready (s : state) (child : nat) : option bool := done s child.

(** task::awaitable_base::await_suspend: register the continuation, transfer *)
Definition await_suspend (s : state) (child c : nat) (callers : list nat) : state :=
  match frames s child with
  | Some g =>
      set_ctl (set_frame s child (Some (mk_frame (f_kind g) (f_code g) (Some c) (m_storage g))))
        (Running child callers)
  | None => set_ctl s Fault
  end.

(** co_await of a task held by the coroutine [c] *)
Definition co_await (s : state) (c : nat) (f : frame) (child : nat) (k : V + E -> prog) (callers : list nat) : state :=
  let s1 := set_frame s c (Some (set_code f (AwaitResume child k))) in
  match await_ready s child with
  | Some true => s1
  | Some false => await_suspend s1 child c callers
  | None => set_ctl s Fault
  end.

(** detail::make_invoker_task *)
Definition make_invoker_task (functor : prog) : prog := Await functor quote.

(** One step of the thread. *)
Definition step (s : state) : state :=
  match ctl s with
  | Running c callers =>
      match frames s c with
      | None => set_ctl s Fault
      | Some f =>
          match f_code f with
          | Final => set_ctl s Fault
          | Body (Ret v) => finish s c f (inl v) callers
          | Body (Throw e) => finish s c f (inr e) callers
          | Body (Await p k) =>
              let '(child, s1) := create s KTask p in co_await s1 c f child k callers
          | Body (Invoke p k) =>     (* invoke: make_invoker_task and invoker_task.resume() *)
              let '(child, s1) := create s KTask (make_invoker_task p) in
              set_ctl (set_frame s1 c (Some (set_code f (Invoked child k)))) (Running child (c :: callers))
          | Invoked child k =>       (* resume() has returned: co_await of the returned task *)
              co_await s c f child k callers
          | Body (Pause k) =>
              let s1 := set_frame s c (Some (set_code f (Body k))) in
              mk_state (frames s1) (fresh s) (c :: paused s) (log s) (return_to callers)
          | AwaitResume child k =>   (* await_resume(): result(); the task temporary dies *)
              match frames s child with
              | Some g =>
                  set_frame (destroy (S (fresh s)) s child) c (Some (set_code f (Body (k (p_result (m_storage g))))))
              | None => set_ctl s Fault
              end
          end
      end
  | Idle =>                          (* the outside event resumes what was suspended last *)
      match paused s with
      | c :: l => mk_state (frames s) (fresh s) l (log s) (Running c [])
      | [] => s
      end
  | Fault => s
  end.

Fixpoint steps (n : nat) (s : state) : state :=
  match n with 0 => s | S n' => steps n' (step s) end.

(** task::resume() from outside any coroutine, up to the transfer; [is_ready] *)
Definition resume (s : state) (c : nat) : state :=
  match done s c with
  | Some false => set_ctl s (Running c [])
  | Some true => s
  | None => set_ctl s Fault
  end.
Definition is_ready (s : state) (m_coroutine : option nat) : option bool :=
  match m_coroutine with None => Some true | Some c => done s c end.

(** make_task_self_deleting(task) with user_final_suspend(callback), and its
    handle().resume() by an executor *)
Definition make_task_self_deleting (user_task : prog) : prog := Await user_task quote.
Definition spawn_detached (s : state) (user_task : prog) (callback : option nat) : nat * state :=
  let '(c, s1) := create s (KSelfDeleting callback) (make_task_self_deleting user_task) in
  (c, set_ctl s1 (Running c [])).

(** task_self_deleting::resume(): handle().done() is read again after resume(), whose
    [n] steps have run. *)
Definition self_deleting_resume_returns (s : state) (c : nat) : state :=
  match done s c with Some _ => s | None => set_ctl s Fault end.

(** ** A task computes its body *)

Lemma steps_add n m s : steps (n + m) s = steps m (steps n s).
Proof. revert s. induction n; intros s; simpl; auto. Qed.

(** The body never waits for an outside event. *)
Fixpoint no_pause (p : prog) : Prop :=
  match p with
  | Ret _ | Throw _ => True
  | Await p k | Invoke p k => no_pause p /\ forall r, no_pause (k r)
  | Pause _ => False
  end.

(** coro::invoke is only used on functors that run through. *)
Fixpoint invoke_ok (p : prog) : Prop :=
  match p with
  | Ret _ | Throw _ => True
  | Await p k => invoke_ok p /\ forall r, invoke_ok (k r)
  | Invoke p k => no_pause p /\ invoke_ok p /\ forall r, invoke_ok (k r)
  | Pause k => invoke_ok k
  end.

(** No frame has been allocated above [fresh]. *)
Definition clean (s : state) : Prop := forall x, fresh s <= x -> frames s x = None.

(** What a finished subcomputation of [c] leaves: the other frames are untouched,
    the temporary ones are gone, nothing stays paused. *)
Record leaves (s s' : state) (c : nat) : Prop := {
  lv_other : forall x, x < fresh s -> x <> c -> frames s' x = frames s x;
  lv_temp : forall x, fresh s <= x -> frames s' x = None;
  lv_fresh : fresh s <= fresh s';
  lv_paused : paused s' = paused s;
  lv_log : log s' = log s
}.

Lemma leaves_refl s c : clean s -> leaves s s c.
Proof. by split. Qed.

Lemma leaves_trans s1 s2 s3 c : leaves s1 s2 c -> leaves s2 s3 c -> c < fresh s1 -> leaves s1 s3 c.
Proof.
  intros [A1 B1 C1 D1 E1] [A2 B2 C2 D2 E2] Hc. split; try congruence; try lia.
  - intros x Hx Hn. rewrite A2 by lia. auto.
  - intros x Hx. destruct (decide (fresh s2 <= x)) as [|Hlt]; [auto|]. rewrite A2 by lia. auto.
Qed.

(** [s] runs [c] inside [callers], with the frame [f]. *)
Record at_frame (s : state) (c : nat) (callers : list nat) (f : frame) : Prop := {
  af_ctl : ctl s = Running c callers;
  af_lt : c < fresh s;
  af_frame : frames s c = Some f;
  af_clean : clean s
}.

Definition reaches (s s' : state) : Prop := exists n, steps n s = s'.
Lemma reaches_refl s : reaches s s. Proof. by exists 0. Qed.
Lemma reaches_step s s' : reaches (step s) s' -> reaches s s'.
Proof. intros [n Hn]. by exists (S n). Qed.
Lemma reaches_trans s1 s2 s3 : reaches s1 s2 -> reaches s2 s3 -> reaches s1 s3.
Proof. intros [n <-] [m <-]. exists (n + m). apply steps_add. Qed.

Definition runs_to (p q : prog) : Prop := forall s c callers kd cont st,
  (callers = [] \/ no_pause p) -> at_frame s c callers (mk_frame kd (Body p) cont st) ->
  exists s', reaches s s' /\ leaves s s' c /\ at_frame s' c callers (mk_frame kd (Body q) cont st).

(** The child's whole life under an await. *)
Lemma await_runs p k : runs_to p (quote (eval p)) -> (forall s c callers kd cont st,
  (callers = [] \/ no_pause p) -> at_frame s c callers (mk_frame kd (Body (Await p k)) cont st) ->
  exists s', reaches s s' /\ leaves s s' c /\ at_frame s' c callers (mk_frame kd (Body (k (eval p))) cont st)).
Proof.
  intros Hp s c callers kd cont st Hcal [Hctl Hlt Hf Hcl]. set (child := fresh s).
  assert (child <> c) as Hne by (subst child; lia).
  set (s1 := step s).
  assert (s1 = mk_state ((((frames s).[child ↦ Some (mk_frame KTask (Body p) None p_init)])
      .[c ↦ Some (mk_frame kd (AwaitResume child k) cont st)]).[child ↦ Some (mk_frame KTask (Body p) (Some c) p_init)])
      (S child) (paused s) (log s) (Running child callers)) as Hs1.
  { subst s1. unfold step. rewrite Hctl, Hf. cbn [f_code create].
    unfold co_await, await_ready, done. cbn [frames]. rewrite upd_eq. cbn [f_code].
    unfold await_suspend, set_frame. cbn [frames]. by rewrite upd_ne, upd_eq by done. }
  destruct (Hp s1 child callers KTask (Some c) p_init) as (s2 & Hr2 & L2 & [Hctl2 Hlt2 Hf2 Hcl2]).
  { done. }
  { rewrite Hs1. split; cbn; [done|lia|by rewrite upd_eq|]. intros x Hx. cbn in *. rewrite !upd_ne by lia. apply Hcl. lia. }
  assert (frames s2 c = Some (mk_frame kd (AwaitResume child k) cont st)) as Hc2.
  { rewrite (lv_other _ _ _ L2); [|rewrite Hs1; cbn; lia|done]. rewrite Hs1. cbn. by rewrite upd_ne, upd_eq by done. }
  set (st' := match eval p with inl v => p_return v p_init | inr e => p_unhandled e p_init end).
  set (s3 := step s2).
  assert (s3 = mk_state ((frames s2).[child ↦ Some (mk_frame KTask Final (Some c) st')])
      (fresh s2) (paused s2) (log s2) (Running c callers)) as Hs3.
  { subst s3 st'. unfold step. rewrite Hctl2, Hf2. cbn [f_code]. by destruct (eval p). }
  assert (p_result st' = eval p) as Hres.
  { subst st'. destruct (eval p); [apply p_result_return|apply p_result_unhandled]. }
  exists (step s3). split; [|split].
  - apply reaches_step. apply (reaches_trans _ s2); [done|]. apply reaches_step, reaches_step, reaches_refl.
  - unfold step. rewrite Hs3. cbn [ctl frames]. rewrite upd_ne, Hc2 by done. cbn [f_code].
    rewrite upd_eq. cbn [destroy frames]. rewrite upd_eq. cbn [f_code].
    destruct L2 as [A B C D F]. rewrite Hs1 in *. cbn in *. split; cbn; try done; try lia.
    + intros x Hx Hxc. rewrite !upd_ne by lia. rewrite A by lia. by rewrite !upd_ne by lia.
    + intros x Hx. rewrite upd_ne by lia. destruct (decide (x = child)) as [->|]; [by rewrite upd_eq|].
      rewrite !upd_ne by done. apply B. lia.
  - unfold step. rewrite Hs3. cbn [ctl frames]. rewrite upd_ne, Hc2 by done. cbn [f_code].
    rewrite upd_eq. cbn [destroy frames]. rewrite upd_eq. cbn [f_code m_storage]. rewrite Hres.
    pose proof (lv_fresh _ _ _ L2) as Hle. rewrite Hs1 in Hle. cbn in Hle.
    split; cbn; [done|lia|by rewrite upd_eq|].
    intros x Hx. cbn in *. rewrite !upd_ne by lia. apply Hcl2. lia.
Qed.

(** What an uninterrupted invoke does. *)
Lemma invoke_runs p k : no_pause p -> runs_to p (quote (eval p)) -> (forall s c callers kd cont st,
  at_frame s c callers (mk_frame kd (Body (Invoke p k)) cont st) ->
  exists s', reaches s s' /\ leaves s s' c /\ at_frame s' c callers (mk_frame kd (Body (k (eval p))) cont st)).
Proof.
  intros Hnp Hp s c callers kd cont st [Hctl Hlt Hf Hcl]. set (inv := fresh s).
  assert (inv <> c) as Hne by (subst inv; lia).
  set (s1 := step s).
  assert (s1 = mk_state (((frames s).[inv ↦ Some (mk_frame KTask (Body (make_invoker_task p)) None p_init)])
      .[c ↦ Some (mk_frame kd (Invoked inv k) cont st)])
      (S inv) (paused s) (log s) (Running inv (c :: callers))) as Hs1.
  { subst s1. unfold step. by rewrite Hctl, Hf. }
  destruct (await_runs p quote Hp s1 inv (c :: callers) KTask None p_init) as (s2 & Hr2 & L2 & [Hctl2 Hlt2 Hf2 Hcl2]).
  { by right. }
  { rewrite Hs1. split; cbn; [done|lia|by rewrite upd_ne, upd_eq by done|].
    intros x Hx. cbn in *. rewrite !upd_ne by lia. apply Hcl. lia. }
  assert (frames s2 c = Some (mk_frame kd (Invoked inv k) cont st)) as Hc2.
  { rewrite (lv_other _ _ _ L2); [|rewrite Hs1; cbn; lia|done]. rewrite Hs1. cbn. by rewrite upd_eq. }
  set (st' := match eval p with inl v => p_return v p_init | inr e => p_unhandled e p_init end).
  set (s3 := step s2).
  assert (s3 = mk_state ((frames s2).[inv ↦ Some (mk_frame KTask Final None st')])
      (fresh s2) (paused s2) (log s2) (Running c callers)) as Hs3.
  { subst s3 st'. unfold step. rewrite Hctl2, Hf2. cbn [f_code]. by destruct (eval p). }
  assert (p_result st' = eval p) as Hres.
  { subst st'. destruct (eval p); [apply p_result_return|apply p_result_unhandled]. }
  set (s4 := step s3).
  assert (s4 = mk_state (((frames s2).[inv ↦ Some (mk_frame KTask Final None st')])
      .[c ↦ Some (mk_frame kd (AwaitResume inv k) cont st)])
      (fresh s2) (paused s2) (log s2) (Running c callers)) as Hs4.
  { subst s4. unfold step. rewrite Hs3. cbn [ctl frames]. rewrite upd_ne, Hc2 by done. cbn [f_code].
    unfold co_await, await_ready, done. cbn [frames]. by rewrite upd_eq. }
  destruct L2 as [A B C D F]. rewrite Hs1 in *. cbn in *.
  exists (step s4). split; [|split].
  - apply reaches_step. fold s1. rewrite Hs1. apply (reaches_trans _ s2); [done|].
    apply reaches_step, reaches_step, reaches_step, reaches_refl.
  - unfold step. rewrite Hs4. cbn [ctl frames]. rewrite upd_eq. cbn [f_code].
    rewrite upd_ne, upd_eq by done. cbn [destroy frames]. rewrite upd_ne, upd_eq by done. cbn [f_code].
    split; cbn; try done; try lia.
    + intros x Hx Hxc. rewrite !upd_ne by lia. rewrite A by lia. by rewrite !upd_ne by lia.
    + intros x Hx. rewrite upd_ne by lia. destruct (decide (x = inv)) as [->|]; [by rewrite upd_eq|].
      rewrite !upd_ne by lia. apply B. lia.
  - unfold step. rewrite Hs4. cbn [ctl frames]. rewrite upd_eq. cbn [f_code].
    rewrite upd_ne, upd_eq by done. cbn [destroy frames]. rewrite upd_ne, upd_eq by done. cbn [f_code m_storage].
    rewrite Hres. split; cbn; [done|lia|by rewrite upd_eq|].
    intros x Hx. cbn in *. rewrite !upd_ne by lia. apply Hcl2. lia.
Qed.

Lemma run_body p : invoke_ok p -> runs_to p (quote (eval p)).
Proof.
  induction p as [v|e|p IHp k IHk|p IHp k IHk|k IHk]; intros Hok s c callers kd cont st Hcal Haf.
  - exists s. split_and!; [apply reaches_refl|apply leaves_refl, Haf|done].
  - exists s. split_and!; [apply reaches_refl|apply leaves_refl, Haf|done].
  - destruct Hok as [Hp Hk].
    destruct (await_runs p k (IHp Hp) s c callers kd cont st) as (s1 & R1 & L1 & A1); [|done|].
    { destruct Hcal as [|[]]; auto. }
    destruct (IHk (eval p) (Hk _) s1 c callers kd cont st) as (s2 & R2 & L2 & A2); [|done|].
    { destruct Hcal as [|[]]; auto. }
    exists s2. split_and!; [by eapply reaches_trans|eapply leaves_trans; [done..|apply Haf]|done].
  - destruct Hok as (Hnp & Hp & Hk).
    destruct (invoke_runs p k Hnp (IHp Hp) s c callers kd cont st) as (s1 & R1 & L1 & A1); [done|].
    destruct (IHk (eval p) (Hk _) s1 c callers kd cont st) as (s2 & R2 & L2 & A2); [|done|].
    { destruct Hcal as [|[]]; auto. }
    exists s2. split_and!; [by eapply reaches_trans|eapply leaves_trans; [done..|apply Haf]|done].
  - destruct Hcal as [->|[]]. destruct Haf as [Hctl Hlt Hf Hcl].
    set (s1 := step (step s)).
    assert (s1 = mk_state ((frames s).[c ↦ Some (mk_frame kd (Body k) cont st)]) (fresh s) (paused s) (log s) (Running c []))
      as Hs1.
    { subst s1. assert (step s = mk_state ((frames s).[c ↦ Some (mk_frame kd (Body k) cont st)]) (fresh s)
        (c :: paused s) (log s) Idle) as ->; [|done]. unfold step. by rewrite Hctl, Hf. }
    assert (clean s1) as Hcl1.
    { rewrite Hs1. intros x Hx. cbn in *. rewrite upd_ne by lia. by apply Hcl. }
    destruct (IHk Hok s1 c [] kd cont st) as (s2 & R2 & L2 & A2); [by left| |].
    { rewrite Hs1 in *. split; cbn; [done|done|by rewrite upd_eq|done]. }
    exists s2. split_and!; [by apply reaches_step, reaches_step| |done].
    apply (leaves_trans _ s1); [|done..]. rewrite Hs1 in *. split; cbn; [|done..].
    intros x Hx Hn. by rewrite upd_ne.
Qed.

Lemma fault_absorbs n s : ctl s = Fault -> steps n s = s.
Proof. revert s. induction n as [|n IH]; intros s H; [done|]. simpl. unfold step at 1. rewrite H. by apply IH. Qed.

Lemma no_fault_before n s : ctl (steps n s) <> Fault -> forall m, m <= n -> ctl (steps m s) <> Fault.
Proof.
  intros Hn m Hm Hf. apply Hn. replace n with (m + (n - m)) by lia. rewrite steps_add.
  by rewrite fault_absorbs.
Qed.

(** [C23] A task runs its body to the result the body means: from any machine state, a
    task created from a body [p] (whose invokes do not suspend) and resumed reaches,
    after finitely many steps and without touching a dead frame on the way, a state in
    which control is back with the caller, the task is ready, result() of its promise
    is the value the body returns or the exception it throws - through any nesting of
    awaited tasks and any number of outside suspensions - and every frame created on
    the way is destroyed, the others untouched. *)
Theorem task_runs_to_result s p c s1 :
  create s KTask p = (c, s1) -> clean s -> invoke_ok p ->
  exists n s', steps n (resume s1 c) = s' /\ ctl s' = Idle /\ is_ready s' (Some c) = Some true /\
    (exists f, frames s' c = Some f /\ p_result (m_storage f) = eval p) /\
    (forall x, x <> c -> frames s' x = frames s x) /\ paused s' = paused s /\
    (forall m, m <= n -> ctl (steps m (resume s1 c)) <> Fault).
Proof.
  intros [= <- <-] Hcl Hok.
  set (s1 := mk_state _ _ _ _ _).
  assert (resume s1 (fresh s) = set_ctl s1 (Running (fresh s) [])) as ->.
  { unfold resume, done. cbn. by rewrite upd_eq. }
  set (s2 := set_ctl s1 _).
  destruct (run_body p Hok s2 (fresh s) [] KTask None p_init) as (s3 & [n Hn] & L3 & [Hctl Hlt Hf Hcl3]).
  { by left. }
  { split; cbn; [done|lia|by rewrite upd_eq|]. intros x Hx. cbn in *. rewrite upd_ne by lia. apply Hcl. lia. }
  set (st' := match eval p with inl v => p_return v p_init | inr e => p_unhandled e p_init end).
  assert (step s3 = mk_state ((frames s3).[fresh s ↦ Some (mk_frame KTask Final None st')])
      (fresh s3) (paused s3) (log s3) Idle) as Hs4.
  { subst st'. unfold step. rewrite Hctl, Hf. cbn [f_code]. by destruct (eval p). }
  assert (steps (n + 1) s2 = step s3) as Hsteps by (rewrite steps_add, Hn; done).
  destruct L3 as [A B C D F]. cbn in *.
  exists (n + 1), (step s3). rewrite Hs4. split_and!; cbn; try done.
  - by rewrite Hsteps.
  - unfold done. cbn. by rewrite upd_eq.
  - eexists. split; [by rewrite upd_eq|]. cbn. subst st'.
    destruct (eval p); [apply p_result_return|apply p_result_unhandled].
  - intros x Hx. rewrite upd_ne by done. destruct (decide (x < fresh s)) as [Hl|Hl].
    + rewrite A by lia. by rewrite upd_ne.
    + rewrite B by lia. symmetry. apply Hcl. lia.
  - apply no_fault_before. by rewrite Hsteps, Hs4.
Qed.

Lemma spawn_detached_runs s p cb c s1 :
  spawn_detached s p cb = (c, s1) -> clean s -> invoke_ok p ->
  exists n s', steps n s1 = s' /\ ctl s' = Idle /\ (forall x, frames s' x = frames s x) /\
    log s' = log s ++ option_list cb /\ paused s' = paused s /\
    (forall m, m <= n -> ctl (steps m s1) <> Fault).
Proof.
  unfold spawn_detached, create. intros [= <- <-] Hcl Hok. cbn.
  set (s2 := set_ctl _ _).
  assert (invoke_ok (make_task_self_deleting p)) as Hok'.
  { split; [done|]. by intros []. }
  destruct (run_body _ Hok' s2 (fresh s) [] (KSelfDeleting cb) None p_init) as (s3 & [n Hn] & L3 & [Hctl Hlt Hf Hcl3]).
  { by left. }
  { split; cbn; [done|lia|by rewrite upd_eq|]. intros x Hx. cbn in *. rewrite upd_ne by lia. apply Hcl. lia. }
  assert (step s3 = mk_state ((frames s3).[fresh s ↦ None]) (fresh s3) (paused s3) (log s3 ++ option_list cb) Idle) as Hs4.
  { unfold step. rewrite Hctl, Hf. cbn [f_code]. destruct (eval (make_task_self_deleting p)); cbn;
      unfold finish, self_deleting_final_suspend; cbn; destruct cb; cbn; by rewrite ?app_nil_r. }
  assert (steps (n + 1) s2 = step s3) as Hsteps by (rewrite steps_add, Hn; done).
  destruct L3 as [A B C D F]. cbn in *.
  exists (n + 1), (step s3). rewrite Hs4. split_and!; cbn; try done.
  - by rewrite Hsteps.
  - intros x. destruct (decide (x = fresh s)) as [->|Hx]; [rewrite upd_eq; symmetry; apply Hcl; lia|].
    rewrite upd_ne by done. destruct (decide (x < fresh s)) as [Hl|Hl].
    + rewrite A by lia. by rewrite upd_ne.
    + rewrite B by lia. symmetry. apply Hcl. lia.
  - by rewrite F.
  - apply no_fault_before. by rewrite Hsteps, Hs4.
Qed.

(** A detached task: the wrapper of make_task_self_deleting runs the user's task to
    its end, then runs the callback given to user_final_suspend exactly once, and then
    its own frame and the user's are both gone, with no dead frame touched; an exception
    of the user's task is dropped, the callback still runs. *)
Theorem self_deleting_runs_callback_once s p cb c s1 :
  spawn_detached s p cb = (c, s1) -> clean s -> invoke_ok p ->
  exists n s', steps n s1 = s' /\ ctl s' = Idle /\ (forall x, frames s' x = frames s x) /\
    log s' = log s ++ option_list cb /\ paused s' = paused s /\
    (forall m, m <= n -> ctl (steps m s1) <> Fault).
Proof. apply spawn_detached_runs. Qed.

(** task_self_deleting::resume() reads done() of its handle after the resume(): when
    the coroutine has run to its end on that resume() the frame is gone. *)
Theorem self_deleting_resume_use_after_free s p cb c s1 :
  spawn_detached s p cb = (c, s1) -> clean s -> invoke_ok p ->
  exists n, ctl (steps n s1) = Idle /\ ctl (self_deleting_resume_returns (steps n s1) c) = Fault.
Proof.
  intros Hsp Hcl Hok. assert (fresh s = c) as Hc by (unfold spawn_detached, create in Hsp; congruence).
  destruct (spawn_detached_runs s p cb c s1 Hsp Hcl Hok) as (n & s' & <- & Hidle & Hfr & _).
  exists n. split; [done|]. unfold self_deleting_resume_returns, done. rewrite Hfr, Hcl; [done|lia].
Qed.



(** The child of a suspending invoke is parked and the caller is back in charge. *)
Lemma invoke_parks s c callers kd q k cont st :
  at_frame s c callers (mk_frame kd (Body (Invoke (Pause q) k)) cont st) ->
  steps 3 s = mk_state (((((((frames s).[fresh s ↦ Some (mk_frame KTask (Body (make_invoker_task (Pause q))) None p_init)])
      .[c ↦ Some (mk_frame kd (Invoked (fresh s) k) cont st)])
      .[S (fresh s) ↦ Some (mk_frame KTask (Body (Pause q)) None p_init)])
      .[fresh s ↦ Some (mk_frame KTask (AwaitResume (S (fresh s)) quote) None p_init)])
      .[S (fresh s) ↦ Some (mk_frame KTask (Body (Pause q)) (Some (fresh s)) p_init)])
      .[S (fresh s) ↦ Some (mk_frame KTask (Body q) (Some (fresh s)) p_init)])
    (S (S (fresh s))) (S (fresh s) :: paused s) (log s) (Running c callers).
Proof.
  intros [Hctl Hlt Hf Hcl]. cbn [steps]. set (i := fresh s) in *.
  assert (c <> i) as Hci by (subst i; lia).
  unfold step at 3. rewrite Hctl, Hf. cbn [f_code create]. fold i.
  unfold step at 2. cbn [ctl frames set_ctl set_frame]. rewrite upd_ne, upd_eq by lia. cbn [f_code make_invoker_task create fresh].
  unfold co_await, await_ready, done. cbn [frames fresh]. rewrite upd_eq. cbn [f_code].
  unfold await_suspend. cbn [frames set_frame].
  rewrite (upd_ne _ _ _ (S i)), upd_eq by lia.
  unfold step. cbn [ctl frames set_ctl set_frame]. rewrite upd_eq. done.
Qed.

(** coro::invoke on a functor whose coroutine suspends: invoke() has already resumed
    the invoker, which is parked on the suspended user task; the co_await of the task it
    returns resumes the invoker again, whose await_resume() then reads the user task's
    promise before it has run to its end.  The awaiting coroutine continues with the
    result of an unset promise (the runtime_error for a value, a normal return for
    void), the user task is destroyed half-way, and its handle is still held by
    whatever it waits for, so the wake-up resumes a destroyed frame. *)
Theorem invoke_suspending_functor_broken s c callers kd q k cont st :
  at_frame s c callers (mk_frame kd (Body (Invoke (Pause q) k)) cont st) ->
  exists s' d, steps 7 s = s' /\ frames s' c = Some (mk_frame kd (Body (k (p_result p_init))) cont st) /\
    paused s' = d :: paused s /\ frames s' d = None /\ ctl (step (set_ctl s' (Running d []))) = Fault.
Proof.
  intros Haf. pose proof (invoke_parks _ _ _ _ _ _ _ _ Haf) as Hs3.
  destruct Haf as [Hctl Hlt Hf Hcl]. set (i := fresh s) in *.
  assert (c <> i) as Hci by (subst i; lia). assert (c <> S i) as Hcj by (subst i; lia).
  set (s3 := mk_state _ _ _ _ _) in Hs3.
  assert (frames s3 c = Some (mk_frame kd (Invoked i k) cont st)) as F3c.
  { subst s3. cbn [frames]. by rewrite !(upd_ne _ _ _ c), upd_eq by lia. }
  assert (frames s3 i = Some (mk_frame KTask (AwaitResume (S i) quote) None p_init)) as F3i.
  { subst s3. cbn [frames]. by rewrite !(upd_ne _ _ _ i), upd_eq by lia. }
  assert (frames s3 (S i) = Some (mk_frame KTask (Body q) (Some i) p_init)) as F3j.
  { subst s3. cbn [frames]. by rewrite upd_eq. }
  assert (ctl s3 = Running c callers /\ fresh s3 = S (S i) /\ log s3 = log s /\ paused s3 = S i :: paused s)
    as (C3 & N3 & G3 & P3) by done.
  clearbody s3. set (s4 := step s3).
  assert (s4 = mk_state
    (((frames s3).[c ↦ Some (mk_frame kd (AwaitResume i k) cont st)])
       .[i ↦ Some (mk_frame KTask (AwaitResume (S i) quote) (Some c) p_init)])
    (S (S i)) (paused s3) (log s) (Running i callers)) as Hs4.
  { subst s4. unfold step. rewrite C3, F3c. cbn [f_code]. unfold co_await, await_ready, done. rewrite F3i. cbn [f_code].
    unfold await_suspend. cbn [frames set_frame]. rewrite upd_ne, F3i by lia. unfold set_ctl, set_frame. cbn.
    by rewrite N3, G3. }
  set (s5 := step s4).
  assert (s5 = mk_state (((frames s4).[S i ↦ None]).[i ↦ Some (mk_frame KTask (Body (quote (p_result p_init))) (Some c) p_init)])
    (S (S i)) (paused s3) (log s) (Running i callers)) as Hs5.
  { subst s5. unfold step. rewrite Hs4. cbn [ctl frames]. rewrite upd_eq. cbn [f_code].
    rewrite !(upd_ne _ _ _ (S i)), F3j by lia. cbn [destroy frames].
    rewrite !(upd_ne _ _ _ (S i)), F3j by lia. done. }
  set (st' := match p_result p_init with inl v => p_return v p_init | inr e => p_unhandled e p_init end).
  set (s6 := step s5).
  assert (s6 = mk_state ((frames s5).[i ↦ Some (mk_frame KTask Final (Some c) st')])
    (S (S i)) (paused s3) (log s) (Running c callers)) as Hs6.
  { subst s6 st'. unfold step. rewrite Hs5. cbn [ctl frames]. rewrite upd_eq. cbn [f_code].
    by destruct (p_result p_init). }
  assert (p_result st' = p_result p_init) as Hres.
  { subst st'. destruct (p_result p_init); [apply p_result_return|apply p_result_unhandled]. }
  exists (step s6), (S i).
  split; [change 7 with (3 + 4); by rewrite steps_add, Hs3|].
  clearbody s6 s5 s4.
  assert (step s6 = mk_state (((frames s6).[i ↦ None]).[c ↦ Some (mk_frame kd (Body (k (p_result p_init))) cont st)])
    (S (S i)) (paused s3) (log s) (Running c callers)) as ->.
  { unfold step. rewrite Hs6. cbn [ctl frames]. rewrite upd_ne by lia.
    rewrite Hs5. cbn [frames]. rewrite !(upd_ne _ _ _ c) by lia.
    rewrite Hs4. cbn [frames]. rewrite (upd_ne _ _ _ c), upd_eq by lia. cbn [f_code].
    rewrite upd_eq. cbn [destroy frames]. rewrite upd_eq. cbn [f_code m_storage]. by rewrite Hres. }
  assert (frames s6 (S i) = None) as Hd.
  { rewrite Hs6. cbn. rewrite upd_ne by lia. rewrite Hs5. cbn. by rewrite upd_ne, upd_eq by lia. }
  split_and!; cbn.
  - by rewrite upd_eq.
  - done.
  - by rewrite !upd_ne by lia.
  - unfold step. cbn. by rewrite !upd_ne, Hd by lia.
Qed.

End task.

(** *** Witnesses: values and exceptions are numbers, 99 is result()'s runtime_error *)
Section witnesses.
#[local] Instance nat_promise : Promise nat nat := Promises.promise 99.

Definition empty : state := mk_state (fun _ => None) 0 [] [] Idle.
Definition twice (r : nat + nat) : prog := match r with inl v => Ret (2 * v) | inr e => Throw e end.

(** A task that awaits a task that suspends, and then one that throws. *)
Definition nested : prog :=
  Await (Pause (Ret 21)) (fun r => Await (Throw 7) (fun _ => Invoke (quote r) twice)).

Lemma nested_ok : invoke_ok nested.
Proof. split; [exact I|]. intros r. split; [exact I|]. intros _. destruct r; split_and!; try exact I; by intros []. Qed.

Lemma task_runs_to_result_witness :
  exists n s', steps n (resume (snd (create empty KTask nested)) 0) = s' /\ ctl s' = Idle /\
    (exists f, frames s' 0 = Some f /\ p_result (m_storage f) = inl 42).
Proof.
  destruct (task_runs_to_result empty nested 0 (snd (create empty KTask nested))) as (n & s' & H1 & H2 & _ & H3 & _).
  - reflexivity.
  - intros x _. reflexivity.
  - exact nested_ok.
  - exists n, s'. exact (conj H1 (conj H2 H3)).
Defined.

Lemma self_deleting_runs_callback_once_witness :
  exists n s', steps n (snd (spawn_detached empty nested (Some 5))) = s' /\ ctl s' = Idle /\ log s' = [5] /\
    forall x, frames s' x = None.
Proof.
  destruct (self_deleting_runs_callback_once empty nested (Some 5) 0 (snd (spawn_detached empty nested (Some 5))))
    as (n & s' & H1 & H2 & H3 & H4 & _).
  - reflexivity.
  - intros x _. reflexivity.
  - exact nested_ok.
  - exists n, s'. exact (conj H1 (conj H2 (conj H4 H3))).
Defined.

Lemma self_deleting_resume_use_after_free_witness :
  exists n, ctl (self_deleting_resume_returns (steps n (snd (spawn_detached empty (Ret 1) None))) 0) = Fault.
Proof.
  destruct (self_deleting_resume_use_after_free empty (Ret 1) None 0 (snd (spawn_detached empty (Ret 1) None)))
    as (n & _ & H); [reflexivity|intros x _; reflexivity|exact I|].
  exists n. exact H.
Defined.

Definition broken : prog (V:=nat) (E:=nat) := Invoke (Pause (Ret 1)) quote.
Lemma invoke_suspending_functor_broken_witness :
  exists s', steps 7 (resume (snd (create empty KTask broken)) 0) = s' /\
    frames s' 0 = Some (mk_frame KTask (Body (Throw 99)) None p_init).
Proof.
  destruct (invoke_suspending_functor_broken (resume (snd (create empty KTask broken)) 0) 0 [] KTask (Ret 1) quote None p_init)
    as (s' & d & H1 & H2 & _).
  - split; [reflexivity|vm_compute; lia|reflexivity|]. intros x Hx. destruct x; [vm_compute in Hx; lia|reflexivity].
  - exists s'. exact (conj H1 H2).
Defined.
End witnesses.
End Task.

(** ** Who owns a coroutine frame *)
Module Ownership.

(** [obj x] is the m_coroutine of the object at [x], [None] where no object is alive. *)
Record state := mk_state {
  obj : nat -> option (option nat);
  fresh : nat;                       (* next frame *)
  destroyed : list nat               (* coroutine_handle::destroy() calls, latest first *)
}.
Definition init : state := mk_state (fun _ => None) 0 [].

Definition set_obj (s : state) (x : nat) (o : option (option nat)) : state :=
  mk_state ((obj s).[x ↦ o]) (fresh s) (destroyed s).

(** if (m_coroutine != nullptr) m_coroutine.destroy() *)
Definition destroy_handle (s : state) (h : option nat) : state :=
  match h with
  | Some c => mk_state (obj s) (fresh s) (c :: destroyed s)
  | None => s
  end.

(** The operations; [None] where the object an operation needs is not alive, or one
    would be constructed over a live one. *)
Inductive op :=
| OCall (x : nat)              (* calling a coroutine function, the result constructed at x *)
| ODefault (x : nat)
| OMove (x y : nat)            (* construct x from the rvalue y *)
| OMoveAssign (x y : nat)      (* x = std::move(y), task and generator *)
| OMoveAssignSW (x y : nat)    (* the same for sync_wait_task *)
| ODestroy (x : nat)           (* task::destroy() *)
| ODtor (x : nat).

Definition get_return_object (s : state) (x : nat) : state :=
  mk_state ((obj s).[x ↦ Some (Some (fresh s))]) (S (fresh s)) (destroyed s).

Definition move_ctor (s : state) (x y : nat) (h : option nat) : state :=
  set_obj (set_obj s y (Some None)) x (Some h).

(** task::operator=(task&&) and generator::operator=(generator&&); [hx], [hy] are the
    handles of the two objects *)
Definition move_assign (s : state) (x y : nat) (hx hy : option nat) : state :=
  if decide (x = y) then s
  else set_obj (set_obj (destroy_handle s hx) y (Some None)) x (Some hy).

(** sync_wait_task::operator=(sync_wait_task&&) *)
Definition sync_wait_move_assign (s : state) (x y : nat) (hy : option nat) : state :=
  if decide (x = y) then s else set_obj (set_obj s y (Some None)) x (Some hy).

(** task::destroy() *)
Definition destroy (s : state) (x : nat) (h : option nat) : state * bool :=
  match h with
  | Some c => (set_obj (destroy_handle s h) x (Some None), true)
  | None => (s, false)
  end.

Definition dtor (s : state) (x : nat) (h : option nat) : state := set_obj (destroy_handle s h) x None.

Definition exec (o : op) (s : state) : option state :=
  match o with
  | OCall x => match obj s x with None => Some (get_return_object s x) | _ => None end
  | ODefault x => match obj s x with None => Some (set_obj s x (Some None)) | _ => None end
  | OMove x y =>
      match obj s x, obj s y with None, Some h => Some (move_ctor s x y h) | _, _ => None end
  | OMoveAssign x y =>
      match obj s x, obj s y with Some hx, Some hy => Some (move_assign s x y hx hy) | _, _ => None end
  | OMoveAssignSW x y =>
      match obj s x, obj s y with Some _, Some hy => Some (sync_wait_move_assign s x y hy) | _, _ => None end
  | ODestroy x => match obj s x with Some h => Some (fst (destroy s x h)) | None => None end
  | ODtor x => match obj s x with Some h => Some (dtor s x h) | None => None end
  end.

Fixpoint run (l : list op) (s : state) : option state :=
  match l with
  | [] => Some s
  | o :: l => match exec o s with Some s' => run l s' | None => None end
  end.

Definition owns (s : state) (x c : nat) : Prop := obj s x = Some (Some c).

(** Nobody owns a dead frame, no frame has two owners or dies twice. *)
Record safe (s : state) : Prop := {
  sf_live x c : owns s x c -> c < fresh s /\ c ∉ destroyed s;
  sf_inj x y c : owns s x c -> owns s y c -> x = y;
  sf_nodup : NoDup (destroyed s);
  sf_range c : c ∈ destroyed s -> c < fresh s
}.
(** Every frame is destroyed or owned. *)
Definition kept (s : state) : Prop := forall c, c < fresh s -> c ∈ destroyed s \/ exists x, owns s x c.

Lemma safe_obj s x o : safe s -> (forall c, o = Some (Some c) -> c < fresh s /\ (c ∉ destroyed s) /\
  forall y, owns s y c -> y = x) -> safe (set_obj s x o).
Proof.
  intros [A B C D] Ho. split; cbn; auto; unfold owns; cbn.
  - intros y c. upd_cases; [|apply A]. intros Hc. destruct (Ho c Hc) as (? & ? & ?). done.
  - intros y z c. upd_cases; intros Hy Hz; try done; [|..].
    + symmetry. by apply (Ho c Hy).
    + by apply (Ho c Hz).
    + by apply (B y z c).
Qed.

Lemma safe_call s x : safe s -> safe (get_return_object s x).
Proof.
  intros [A B C D]. split; cbn; auto; unfold owns; cbn.
  - intros y c. upd_cases.
    + intros [= <-]. split; [lia|]. intros Hin. apply D in Hin. lia.
    + intros Hc. destruct (A y c Hc). split; [lia|done].
  - intros y z c. upd_cases; intros Hy Hz; try done.
    + injection Hy as <-. destruct (A z _ Hz). lia.
    + injection Hz as <-. destruct (A y _ Hy). lia.
    + by apply (B y z c).
  - intros c Hc. apply D in Hc. lia.
Qed.

(** Destroying the frame of [x] and taking it away from [x]. *)
Lemma safe_destroy s x h o : safe s -> obj s x = Some h -> o = None \/ o = Some None ->
  safe (set_obj (destroy_handle s h) x o).
Proof.
  intros Hs Hx Ho. destruct h as [c|]; cbn; [|apply safe_obj; [done|]; by destruct Ho as [-> | ->]].
  destruct Hs as [A B C D]. destruct (A x c Hx) as [Hlt Hnin]. split; cbn; unfold owns; cbn.
  - intros y d. upd_cases; [by destruct Ho as [-> | ->]|]. intros Hd. destruct (A y d Hd). split; [done|].
    rewrite not_elem_of_cons. split; [|done]. intros ->. by apply n, (B y x c).
  - intros y z d. upd_cases; try (by destruct Ho as [-> | ->]). apply B.
  - by apply list.NoDup_cons.
  - intros d. rewrite elem_of_cons. intros [-> |]; auto.
Qed.

Lemma safe_move s x y h : safe s -> obj s y = Some h -> x <> y ->
  safe (set_obj (set_obj s y (Some None)) x (Some h)).
Proof.
  intros Hs Hy Hne. apply safe_obj.
  - by apply safe_obj.
  - cbn. intros c [= ->]. destruct (sf_live _ Hs y c Hy). split_and!; [done..|]. unfold owns. cbn.
    intros z. upd_cases; [done|]. intros Hz. destruct n. by apply (sf_inj _ Hs z y c).
Qed.

Lemma safe_ext s s' : safe s -> (forall z, obj s' z = obj s z) -> fresh s' = fresh s ->
  destroyed s' = destroyed s -> safe s'.
Proof.
  intros [A B C D] Ho Hf Hd. split; rewrite ?Hf, ?Hd; auto; unfold owns in *; setoid_rewrite Ho; eauto.
Qed.

Lemma safe_move_assign s x y hx hy : safe s -> obj s x = Some hx -> obj s y = Some hy ->
  safe (move_assign s x y hx hy).
Proof.
  intros Hs Hx Hy. unfold move_assign. destruct (decide (x = y)) as [|Hne]; [done|].
  pose proof (safe_destroy s x hx (Some None) Hs Hx (or_intror eq_refl)) as H1.
  assert (obj (set_obj (destroy_handle s hx) x (Some None)) y = Some hy) as Hy1.
  { cbn. rewrite upd_ne by done. by destruct hx. }
  apply (safe_ext _ _ (safe_move _ x y hy H1 Hy1 Hne)); [|by destruct hx..].
  intros z. destruct hx; cbn; by upd_cases.
Qed.

Lemma exec_safe o s s' : exec o s = Some s' -> safe s -> safe s'.
Proof.
  intros H Hs. destruct o as [x|x|x y|x y|x y|x|x]; cbn in H;
    destruct (obj s x) as [hx|] eqn:Hx; try discriminate H.
  - injection H as <-. by apply safe_call.
  - injection H as <-. by apply safe_obj.
  - destruct (obj s y) as [h|] eqn:Hy; simplify_eq. apply safe_move; [done..|congruence].
  - destruct (obj s y) as [h|] eqn:Hy; simplify_eq. by apply safe_move_assign.
  - destruct (obj s y) as [h|] eqn:Hy; simplify_eq. unfold sync_wait_move_assign.
    destruct (decide (x = y)) as [|Hne]; [done|]. by apply safe_move.
  - injection H as <-. destruct hx as [c|]; [|done]. apply (safe_destroy s x (Some c)); auto.
  - injection H as <-. apply safe_destroy; auto.
Qed.

(** Everything but the assignment of a sync_wait_task keeps track of every frame. *)
Definition tracked (o : op) : bool := match o with OMoveAssignSW _ _ => false | _ => true end.

Lemma kept_step s s' : kept s -> fresh s' = fresh s ->
  (forall x c, owns s x c -> c ∈ destroyed s' \/ exists y, owns s' y c) ->
  (forall c, c ∈ destroyed s -> c ∈ destroyed s') -> kept s'.
Proof.
  intros Hk Hf Ho Hd c Hc. rewrite Hf in Hc.
  destruct (Hk c Hc) as [|[x Hx]]; [left; auto|]. by apply (Ho x).
Qed.

Lemma kept_call s x : kept s -> (forall c, ~ owns s x c) -> kept (get_return_object s x).
Proof.
  intros Hk Hx c Hc. cbn in Hc. unfold owns. cbn.
  destruct (decide (c = fresh s)) as [->|]; [right; exists x; by rewrite upd_eq|].
  destruct (Hk c) as [|[y Hy]]; [lia|by left|]. right. exists y. rewrite upd_ne; [done|].
  intros ->. by apply (Hx c).
Qed.

Lemma destroyed_keep s h c : c ∈ destroyed s -> c ∈ destroyed (destroy_handle s h).
Proof. destruct h; [|done]. intros. by apply elem_of_cons; right. Qed.

(** The handle of [x] is destroyed, [y]'s moves to [x] (or nothing does). *)
Lemma kept_take s x h o : kept s -> obj s x = Some h -> kept (set_obj (destroy_handle s h) x o).
Proof.
  intros Hk Hx. apply (kept_step s); [done|by destruct h| |cbn; intros; by apply destroyed_keep].
  intros y c Hy. destruct (decide (y = x)) as [->|Hne].
  - left. unfold owns in Hy. rewrite Hx in Hy. injection Hy as ->. apply elem_of_cons. by left.
  - right. exists y. unfold owns. cbn. rewrite upd_ne by done. by destruct h.
Qed.

Lemma kept_moved s x y hx hy : kept s -> x <> y -> obj s x = hx -> obj s y = Some hy ->
  kept (set_obj (set_obj (destroy_handle s (default None hx)) y (Some None)) x (Some hy)).
Proof.
  intros Hk Hne Hx Hy. apply (kept_step s); [done|by destruct hx as [[]|]| |].
  - intros z c Hz. unfold owns in *. destruct (decide (z = x)) as [->|Hzx]; [|right; destruct (decide (z = y)) as [->|Hzy]].
    + left. rewrite Hx in Hz. rewrite Hz. cbn. apply elem_of_cons. by left.
    + exists x. cbn. rewrite upd_eq. congruence.
    + exists z. cbn. rewrite !upd_ne by done. by destruct hx as [[]|].
  - intros c Hc. cbn. by apply destroyed_keep.
Qed.

Lemma exec_kept o s s' : exec o s = Some s' -> tracked o = true -> kept s -> kept s'.
Proof.
  intros H Ht Hk. destruct o as [x|x|x y|x y|x y|x|x]; cbn in H;
    destruct (obj s x) as [hx|] eqn:Hx; try discriminate H; try discriminate Ht.
  - injection H as <-. apply kept_call; [done|]. unfold owns. congruence.
  - injection H as <-. apply (kept_step s); try done. intros y c Hy. right. exists y. unfold owns in *. cbn.
    rewrite upd_ne; [done|congruence].
  - destruct (obj s y) as [h|] eqn:Hy; simplify_eq.
    assert (x <> y) as Hne by congruence. exact (kept_moved s x y None h Hk Hne Hx Hy).
  - destruct (obj s y) as [h|] eqn:Hy; simplify_eq. unfold move_assign.
    destruct (decide (x = y)) as [|Hne]; [done|]. exact (kept_moved s x y (Some hx) h Hk Hne Hx Hy).
  - injection H as <-. destruct hx as [c|]; [|done]. by apply (kept_take s x (Some c)).
  - injection H as <-. by apply kept_take.
Qed.

Lemma occ_nodup c l : NoDup l -> occ c l <= 1 /\ (c ∈ l -> occ c l = 1) /\ (c ∉ l -> occ c l = 0).
Proof.
  induction 1 as [|d l Hd _ (IH1 & IH2 & IH3)]; cbn; [split_and!; [lia|by intros ?%elem_of_nil|done]|].
  rewrite elem_of_cons. case_decide as Hc; [subst; rewrite (IH3 Hd); naive_solver lia|].
  split_and!; [lia|intros [|]; [done|auto]|]. intros H. apply IH3. tauto.
Qed.

Lemma run_inv l s s' : run l s = Some s' -> safe s -> safe s' /\ (forallb tracked l = true -> kept s -> kept s').
Proof.
  revert s. induction l as [|o l IH]; intros s Hrun Hs; cbn in *; [by simplify_eq|].
  destruct (exec o s) as [s1|] eqn:He; [|done].
  destruct (IH s1 Hrun (exec_safe _ _ _ He Hs)) as [Hs' Hk']. split; [done|].
  intros [Ho Hl]%andb_prop Hk. apply Hk'; [done|]. by eapply exec_kept.
Qed.

Lemma init_inv : safe init /\ kept init.
Proof. split; [|intros c Hc; cbn in Hc; lia]. split; cbn; try done; [constructor|]. by intros c ?%elem_of_nil. Qed.

(** [C24] The move-only owners of a coroutine frame: over any sequence of calls of
    coroutine functions, default and move constructions, move assignments (self
    assignment included), destroy() calls and destructors, no frame is destroyed twice,
    no live object refers to a destroyed frame and no two objects own the same one; and
    when every object is gone every frame ever created has been destroyed exactly once. *)
Theorem frames_destroyed_exactly_once l s :
  run l init = Some s -> forallb tracked l = true ->
  NoDup (destroyed s) /\ (forall x c, owns s x c -> c ∉ destroyed s) /\
  (forall x y c, owns s x c -> owns s y c -> x = y) /\
  ((forall x, obj s x = None) -> forall c, c < fresh s -> occ c (destroyed s) = 1).
Proof.
  intros Hrun Hl. destruct init_inv as [Hs0 Hk0]. destruct (run_inv _ _ _ Hrun Hs0) as [[A B C D] Hk].
  specialize (Hk Hl Hk0). split_and!; [done|by intros x c [_ ?]%A|done|].
  intros Hgone c Hc. destruct (Hk c Hc) as [Hin|[x Hx]]; [|unfold owns in Hx; congruence].
  by apply (occ_nodup c).
Qed.

(** The move assignment of sync_wait_task drops the handle it overwrites: assigning
    to an object that owns a frame leaves that frame without an owner and undestroyed,
    so it leaks, while the destructors and move constructors alone never leak. *)
Theorem sync_wait_task_assign_leaks l s x y c s' :
  run l init = Some s -> x <> y -> owns s x c -> exec (OMoveAssignSW x y) s = Some s' ->
  (c ∉ destroyed s') /\ forall z, ~ owns s' z c.
Proof.
  intros Hrun Hne Hx He. destruct (run_inv _ _ _ Hrun (proj1 init_inv)) as [[A B C D] _].
  cbn in He. rewrite Hx in He. destruct (obj s y) as [hy|] eqn:Hy; [|done]. injection He as <-.
  unfold sync_wait_move_assign. destruct (decide (x = y)) as [|_]; [done|]. cbn.
  split; [by apply (A x)|]. intros z. unfold owns. cbn. upd_cases; intros Hz.
  - injection Hz as ->. apply Hne. by apply (B x y c).
  - done.
  - by apply n, (B z x c).
Qed.

Lemma frames_destroyed_exactly_once_witness :
  let l := [OCall 0; OMove 1 0; OCall 2; OMoveAssign 2 1; ODtor 0; ODtor 1; ODestroy 2; ODtor 2] in
  exists s, run l init = Some s /\ fresh s = 2 /\ NoDup (destroyed s).
Proof.
  intros l. destruct (run l init) as [s|] eqn:Hrun; [|vm_compute in Hrun; discriminate].
  exists s. split; [done|]. split; [by vm_compute in Hrun; injection Hrun as <-|].
  apply (frames_destroyed_exactly_once l s Hrun eq_refl).
Defined.

Lemma sync_wait_task_assign_leaks_witness :
  let l := [OCall 0; OCall 1] in
  exists s s', run l init = Some s /\ exec (OMoveAssignSW 0 1) s = Some s' /\ (0 ∉ destroyed s') /\ forall z, ~ owns s' z 0.
Proof.
  intros l. destruct (run l init) as [s|] eqn:Hrun; [|vm_compute in Hrun; discriminate].
  pose proof Hrun as Hr. vm_compute in Hr. injection Hr as Hs.
  destruct (exec (OMoveAssignSW 0 1) s) as [s'|] eqn:He; [|subst s; vm_compute in He; discriminate].
  exists s, s'. split; [done|]. split; [done|].
  refine (sync_wait_task_assign_leaks l s 0 1 0 s' Hrun _ _ He); [lia|by subst s].
Defined.
End Ownership.

(** ** promise_self_deleting and task_self_deleting as objects *)

Module SelfDeletingObjects.

(** promise_self_deleting(promise_self_deleting&&): m_user_final_suspend of the new promise
    and of the one that was moved from *)
Definition promise_move (other : option nat) : option nat * option nat := (other, None).
(** operator=(promise_self_deleting&&); [same]: assigned to itself *)
Definition promise_move_assign (same : bool) (self other : option nat) : option nat * option nat :=
  if same then (self, self) else (other, None).

(** task_self_deleting(task_self_deleting&&) and its assignment: m_promise of the two *)
Definition task_move (m_promise : nat) : nat * nat := (m_promise, m_promise).
Definition task_move_assign (same : bool) (self other : nat) : nat * nat :=
  if same then (self, self) else (other, other).

(** How often the callbacks of two promises name [cb]. *)
Definition callbacks (cb : nat) (p : option nat * option nat) : nat :=
  (if decide (fst p = Some cb) then 1 else 0) + (if decide (snd p = Some cb) then 1 else 0).

(** A callback is in one promise, so that it is run once: a move takes it along, an
    assignment drops the one that was there.  A task_self_deleting, which owns nothing,
    still refers to its coroutine after it was moved from. *)
Lemma self_deleting_moves cb (self other : option nat) (t u : nat) :
  callbacks cb (promise_move (Some cb)) = 1 /\
  (self <> Some cb -> callbacks cb (promise_move_assign false self (Some cb)) = 1) /\
  (other <> Some cb -> callbacks cb (promise_move_assign false (Some cb) other) = 0) /\
  promise_move_assign true self self = (self, self) /\
  fst (task_move t) = t /\ snd (task_move t) = t /\ snd (task_move_assign false u t) = t.
Proof. unfold callbacks. cbn. split_and!; try done; intros; repeat case_decide; done || congruence. Qed.
End SelfDeletingObjects.
