(* ===== verification/Generator.v ===== *)
(** * coro::generator (include/coro/generator.hpp)

    The body of a generator is a step function of the user's ([body]) on the
    values its frame keeps between two co_yields, so endless generators are
    included; the promise, the iterator and begin()/end() are the library's.
    The iteration protocol of a range-for over a generator is shown to produce
    exactly what the body yields. *)
From stdpp Require Import base list option numbers.
From S2P Require Import Prelude.

Module Generator.

Section generator.
Context {St V E : Type}.

(** What the body does from one suspension to the next. *)
Inductive outcome := Yield (v : V) (st : St) | Return | Throw (e : E).
Context (body : St -> outcome).

Inductive code := Suspended (st : St) | Final.

(** The coroutine frame with its generator_promise. *)
Record frame := mk_frame {
  f_code : code;
  m_value : option V;        (* the object m_value points to *)
  m_exception : option E
}.

(** Results of the operations: a value, an exception, or undefined behaviour
    (resuming a finished coroutine, reading through a null m_value). *)
Inductive res (A : Type) := Ok (a : A) | Exn (e : E) (f : frame) | Fault.
Arguments Ok {A} _.
Arguments Exn {A} _ _.
Arguments Fault {A}.

(** Calling the generator function: initial_suspend() suspends. *)
Definition create (st : St) : frame := mk_frame (Suspended st) None None.

Definition yield_value (f : frame) (v : V) (st : St) : frame := mk_frame (Suspended st) (Some v) (m_exception f).
Definition unhandled_exception (f : frame) (e : E) : frame := mk_frame Final (m_value f) (Some e).
Definition return_void (f : frame) : frame := mk_frame Final (m_value f) (m_exception f).

Definition done (f : frame) : bool := match f_code f with Final => true | _ => false end.

(** coroutine_handle::resume() *)
Definition resume (f : frame) : option frame :=
  match f_code f with
  | Suspended st =>
      Some (match body st with
            | Yield v st' => yield_value f v st'
            | Return => return_void f
            | Throw e => unhandled_exception f e
            end)
  | Final => None
  end.

(** m_coroutine.resume(); if (m_coroutine.done()) promise().rethrow_if_exception() *)
Definition resume_rethrow (f : frame) : res frame :=
  match resume f with
  | None => Fault
  | Some f' =>
      if done f' then match m_exception f' with Some e => Exn e f' | None => Ok f' end
      else Ok f'
  end.

(** generator::begin(), on m_coroutine *)
Definition begin (g : option frame) : res (option frame) :=
  match g with
  | None => Ok None
  | Some f => match resume_rethrow f with Ok f' => Ok (Some f') | Exn e f' => Exn e f' | Fault => Fault end
  end.

(** generator_iterator::operator++, operator== with the sentinel, operator* *)
Definition incr (f : frame) : res frame := resume_rethrow f.
Definition at_end (it : option frame) : bool := match it with None => true | Some f => done f end.
Definition deref (f : frame) : option V := m_value f.

Inductive ending := Ended | Threw (e : E) | More | Undefined.

(** for (it = begin(); it != end(); ++it) l.push_back( *it ), at most [n] rounds *)
Fixpoint loop (n : nat) (it : option frame) : list V * ending :=
  if at_end it then ([], Ended)
  else
    match n, it with
    | S n', Some f =>
        match deref f with
        | None => ([], Undefined)
        | Some v =>
            match incr f with
            | Ok f' => let '(l, r) := loop n' (Some f') in (v :: l, r)
            | Exn e _ => ([v], Threw e)
            | Fault => ([v], Undefined)
            end
        end
    | _, _ => ([], More)
    end.

Definition for_each (n : nat) (g : option frame) : list V * ending :=
  match begin g with
  | Ok it => loop n it
  | Exn e _ => ([], Threw e)
  | Fault => ([], Undefined)
  end.

(** What the body yields, by itself. *)
Fixpoint yields (n : nat) (st : St) : list V * ending :=
  match body st with
  | Return => ([], Ended)
  | Throw e => ([], Threw e)
  | Yield v st' =>
      match n with
      | 0 => ([], More)
      | S n' => let '(l, r) := yields n' st' in (v :: l, r)
      end
  end.

Lemma loop_step n v st : loop (S n) (Some (mk_frame (Suspended st) (Some v) None)) =
  match body st with
  | Return => ([v], Ended)
  | Throw e => ([v], Threw e)
  | Yield v' st' => let '(l, r) := loop n (Some (mk_frame (Suspended st') (Some v') None)) in (v :: l, r)
  end.
Proof.
  simpl loop. unfold incr, resume_rethrow, resume. cbn [f_code].
  destruct (body st); [done| |done]. by destruct n.
Qed.

Lemma loop_yields n : forall v st,
  loop (S n) (Some (mk_frame (Suspended st) (Some v) None)) = let '(l, r) := yields n st in (v :: l, r).
Proof.
  induction n as [|n IH]; intros v st; rewrite loop_step; cbn [yields]; destruct (body st) as [v' st'| |e]; try done.
  rewrite IH. by destruct (yields n st').
Qed.

(** [C25] A range-for over a fresh generator sees exactly the values its body yields, in
    order, and ends the way the body ends: at end() when the body returns, with the
    body's exception when it throws (before the first value, or after any of them);
    the loop never reads through a null pointer nor resumes a finished coroutine.
    For an endless body every finite number of rounds agrees. *)
Theorem generator_iterates_body n st : for_each n (Some (create st)) = yields n st.
Proof.
  unfold for_each, begin, resume_rethrow, resume. cbn [f_code create].
  destruct n as [|n]; simpl yields; destruct (body st) as [v st'| |e]; try done.
  apply loop_yields.
Qed.

End generator.

(** A generator counting down to zero, which then throws. *)
Definition countdown (n : nat) : outcome (St := nat) (V := nat) (E := nat) :=
  match n with 0 => Throw 13 | S m => Yield n m end.
Example generator_example : for_each countdown 9 (Some (create 3)) = ([3; 2; 1], Threw 13).
Proof. reflexivity. Qed.
End Generator.
