(* ===== verification/SyncWait.v ===== *)
(** * coro::sync_wait (include/coro/sync_wait.hpp, src/sync_wait.cpp)

    [SyncWaitPromises] are the two promises of a sync_wait_task.  [SyncWait] is
    the whole of a sync_wait(a): the calling thread (agent 0) starts the
    coroutine, which may complete on it or be handed from thread to thread by
    what it awaits; the thread that completes it stores the result and sets the
    sync_wait_event from final_suspend; the caller waits on the event, reads the
    result and destroys the coroutine and the event, both of which live on its
    stack.  The std::mutex and std::condition_variable are modelled as the
    standard specifies them, spurious wake-ups included. *)
From stdpp Require Import base list relations option numbers.
From S2P Require Import Prelude Task.

Module SyncWaitPromises.

Section promise.
Context {V E : Type} (never_set : E).

Inductive variant_type := unset_return_value | stored (v : V) | exception_ptr (e : E).

Definition return_value (v : V) (_ : variant_type) : variant_type := stored v.
Definition unhandled_exception (e : E) (_ : variant_type) : variant_type := exception_ptr e.
Definition result (s : variant_type) : V + E :=
  match s with
  | stored v => inl v
  | exception_ptr e => inr e
  | unset_return_value => inr never_set
  end.

#[refine] Instance sync_wait_task_promise : Promise V E := {|
  storage := variant_type; p_init := unset_return_value;
  p_return := return_value; p_unhandled := unhandled_exception; p_result := result |}.
Proof. all: done. Defined.
End promise.

Section promise_void.
Context {E : Type}.

Definition return_void (_ : unit) (s : option E) : option E := s.
Definition void_unhandled_exception (e : E) (_ : option E) : option E := Some e.
Definition void_result (s : option E) : unit + E := match s with Some e => inr e | None => inl tt end.

#[refine] Instance sync_wait_task_promise_void : Promise unit E := {|
  storage := option E; p_init := None;
  p_return := return_void; p_unhandled := void_unhandled_exception; p_result := void_result |}.
Proof. all: by repeat intros []. Defined.
End promise_void.
End SyncWaitPromises.

Module SyncWait.

Section sync_wait.
Context {V E : Type} `{!Promise V E}.

(** Where the awaited coroutine is, on the thread [t]: in its body, in the
    sync_wait_event::set() of its final_suspend, or suspended for good. *)
Inductive cphase := Run | SetLock | SetBody | SetUnlock | Done.

(** Where the calling thread (0) is: inside the coroutine, or in wait() and after. *)
Inductive pc := InCoroutine | WaitLock | Check | Blocked | Relock | Return | Returned.

Record state := mk_state {
  holder : option nat;          (* sync_wait_event::m_mutex *)
  m_set : bool;                 (* sync_wait_event::m_set *)
  m_storage : storage;          (* of the coroutine's promise *)
  alive : bool;                 (* the event and the coroutine frame exist *)
  phase : cphase;
  thread : nat;
  caller : pc;
  completed : option (V + E)    (* history: how the awaited coroutine ended *)
}.

(** make_sync_wait_task and promise().start(e): the caller resumes the coroutine. *)
Definition init : state := mk_state None false p_init true Run 0 InCoroutine None.

Inductive label :=
| LHand (u : nat)               (* the coroutine suspends and is resumed on the thread u *)
| LComplete (r : V + E)
| LSetLock | LSetBody | LSetUnlock
| LWaitLock | LCheck | LSpurious | LRelock | LReturn.

Inductive event := EvComplete (r : V + E) | EvReturn (r : V + E) | EvFault.

(** The thread of the coroutine has left it: the caller goes on to e.wait(). *)
Definition leave (s : state) : pc := match thread s with 0 => WaitLock | S _ => caller s end.

(** sync_wait_task_promise::return_value / unhandled_exception, then final_suspend *)
Definition complete (s : state) (r : V + E) : state :=
  mk_state (holder s) (m_set s)
    (match r with inl v => p_return v (m_storage s) | inr e => p_unhandled e (m_storage s) end)
    (alive s) SetLock (thread s) (caller s) (Some r).

(** sync_wait_event::set(): lock; m_set.exchange(true), m_cv.notify_all(); unlock *)
Definition set_lock (s : state) : state :=
  mk_state (Some (thread s)) (m_set s) (m_storage s) (alive s) SetBody (thread s) (caller s) (completed s).
Definition set_body (s : state) : state :=
  mk_state (holder s) true (m_storage s) (alive s) SetUnlock (thread s)
    (match caller s with Blocked => Relock | p => p end) (completed s).
Definition set_unlock (s : state) : state :=
  mk_state None (m_set s) (m_storage s) (alive s) Done (thread s) (leave s) (completed s).

Definition go (s : state) (h : option nat) (p : pc) : state :=
  mk_state h (m_set s) (m_storage s) (alive s) (phase s) (thread s) p (completed s).

(** One evaluation of m_cv.wait's loop: while (!pred()) wait(lk), where releasing the
    lock and blocking are one step. *)
Definition wait_check (s : state) : state :=
  if m_set s then go s (holder s) Return else go s None Blocked.

(** wait() returns; task.promise().result(); then ~sync_wait_task and ~sync_wait_event *)
Definition wait_return (s : state) : state :=
  mk_state None (m_set s) (m_storage s) false (phase s) (thread s) Returned (completed s).

Definition exec_pc (l : label) (s : state) : option (state * list event) :=
  match l with
  | LHand u =>
      match phase s with
      | Run =>
          match u with
          | 0 => None
          | S _ => Some (mk_state (holder s) (m_set s) (m_storage s) (alive s) Run u (leave s) (completed s), [])
          end
      | _ => None
      end
  | LComplete r => match phase s with Run => Some (complete s r, [EvComplete r]) | _ => None end
  | LSetLock => match phase s, holder s with SetLock, None => Some (set_lock s, []) | _, _ => None end
  | LSetBody => match phase s with SetBody => Some (set_body s, []) | _ => None end
  | LSetUnlock => match phase s with SetUnlock => Some (set_unlock s, []) | _ => None end
  | LWaitLock => match caller s, holder s with WaitLock, None => Some (go s (Some 0) Check, []) | _, _ => None end
  | LCheck => match caller s with Check => Some (wait_check s, []) | _ => None end
  | LSpurious => match caller s with Blocked => Some (go s (holder s) Relock, []) | _ => None end
  | LRelock => match caller s, holder s with Relock, None => Some (go s (Some 0) Check, []) | _, _ => None end
  | LReturn =>
      match caller s with
      | Return => Some (wait_return s, [EvReturn (p_result (m_storage s))])
      | _ => None
      end
  end.

(** Every step touches the event or the coroutine frame. *)
Definition exec (l : label) (s : state) : option (state * list event) :=
  match exec_pc l s with
  | Some (s', ev) => if alive s then Some (s', ev) else Some (s, [EvFault])
  | None => None
  end.

(** ** Invariant *)

Definition setting (c : cphase) : bool := match c with SetBody | SetUnlock => true | _ => false end.
Definition is_set (c : cphase) : bool := match c with SetUnlock | Done => true | _ => false end.
Definition waiting (p : pc) : bool := match p with Check | Return => true | _ => false end.

(** The caller is inside the coroutine exactly while the coroutine runs on it; it
    leaves wait() only after set() is over. *)
Definition allowed (c : cphase) (t : nat) (p : pc) : bool :=
  match c, p with
  | Done, (InCoroutine | Blocked) => false
  | Done, _ => true
  | _, InCoroutine => match t with 0 => true | S _ => false end
  | _, (Return | Returned) => false
  | SetUnlock, Blocked => false
  | _, _ => match t with 0 => false | S _ => negb (setting c && waiting p) end
  end.

Record inv (s : state) : Prop := {
  i_pc : allowed (phase s) (thread s) (caller s) = true;
  i_hold : holder s = if setting (phase s) then Some (thread s) else if waiting (caller s) then Some 0 else None;
  i_set : m_set s = is_set (phase s);
  i_alive : alive s = match caller s with Returned => false | _ => true end;
  i_comp : match completed s with
           | None => phase s = Run /\ m_storage s = p_init
           | Some r => phase s <> Run /\ p_result (m_storage s) = r
           end
}.

Lemma syncwait_init_inv : inv init.
Proof. by split. Qed.

Lemma exec_alive l s s' ev : inv s -> exec_pc l s = Some (s', ev) -> alive s = true.
Proof.
  intros [A _ _ -> _] H. destruct s as [h st sto al ph th ca co]; cbn in *.
  destruct ca; try done. destruct ph; try discriminate A; by destruct l.
Qed.

Lemma result_complete (r : V + E) :
  p_result (match r with inl v => p_return v p_init | inr e => p_unhandled e p_init end) = r.
Proof. destruct r; [apply p_result_return|apply p_result_unhandled]. Qed.

Lemma exec_inv_pc l s s' ev : inv s -> exec_pc l s = Some (s', ev) -> inv s'.
Proof.
  intros [A B C D F] He. destruct s as [h st sto al ph th ca co]; cbn in *. subst h st al.
  destruct l as [[|u]|r| | | | | | | |]; cbn in He; destruct ph; try discriminate He;
    destruct ca; try discriminate He; destruct th; try discriminate A; try discriminate He;
    injection He as <- <-; (split; [done..|]); cbn; try exact F.
  all: destruct co as [r'|]; destruct F as [F1 F2]; try discriminate F1; try (by destruct F1); split; try done.
  all: by rewrite ?F2, result_complete.
Qed.

Lemma exec_ok l s s' ev : inv s -> exec l s = Some (s', ev) -> exec_pc l s = Some (s', ev) /\ inv s'.
Proof.
  unfold exec. intros I H. destruct (exec_pc l s) as [[s1 e1]|] eqn:He; [|done].
  rewrite (exec_alive _ _ _ _ I He) in H. simplify_eq. split; [done|]. by eapply exec_inv_pc.
Qed.

(** ** The theorems *)

Definition returned (p : pc) : bool := match p with Returned => true | _ => false end.

(** The whole trace, from the state. *)
Definition history (s : state) : list event :=
  match completed s with
  | None => []
  | Some r => EvComplete r :: (if returned (caller s) then [EvReturn r] else [])
  end.

Lemma reach_ok s tr : reach exec init s tr -> inv s /\ tr = history s.
Proof.
  revert s tr. apply (reach_inv exec (fun s tr => inv s /\ tr = history s)).
  - split; [apply syncwait_init_inv|done].
  - intros s tr l s' ev [I ->] He. destruct (exec_ok _ _ _ _ I He) as [Hpc I']. split; [done|].
    destruct I as [A B C D F]. destruct s as [h st sto al ph th ca co]; cbn in *. subst h st al.
    unfold history. destruct l as [[|u]|r| | | | | | | |]; cbn in Hpc; destruct ph; try discriminate Hpc;
      destruct ca; try discriminate Hpc; destruct th; try discriminate A; try discriminate Hpc;
      injection Hpc as <- <-; cbn; rewrite ?app_nil_r; try done.
    all: destruct co as [r'|]; destruct F as [F1 F2]; try done; by subst r'.
Qed.

(** [C26] What a sync_wait observes, over every interleaving of the calling thread with
    the threads the awaited coroutine runs on and every spurious wake-up: the
    coroutine completes at most once, the call returns at most once, only after the
    completion and with exactly its result (the value, or the exception, which it
    rethrows); and the event and the coroutine frame, which die when the call returns,
    are never touched afterwards - in particular the completing thread is already out
    of sync_wait_event::set(). *)
Theorem sync_wait_returns_result s tr :
  reach exec init s tr ->
  tr = [] \/ exists r, tr = [EvComplete r] \/ (tr = [EvComplete r; EvReturn r] /\ phase s = Done /\ holder s = None).
Proof.
  intros Hr. destruct (reach_ok s tr Hr) as [[A B C D F] ->]. unfold history.
  destruct (completed s) as [r|]; [right|by left]. exists r.
  destruct (caller s) eqn:Hc; cbn; auto. right. destruct (phase s); by rewrite ?B.
Qed.

(** Steps the scheduler of the program owes nothing for. *)
Definition environment (l : label) : bool := match l with LHand _ | LSpurious => true | _ => false end.

(** How far the call is from its return. *)
Definition measure (s : state) : nat :=
  match phase s with Run => 12 | SetLock => 11 | SetBody => 10 | SetUnlock => 1 | Done => 0 end +
  match caller s with
  | InCoroutine => 6
  | WaitLock | Relock => if m_set s then 3 else 5
  | Check => if m_set s then 2 else 4
  | Blocked => 3
  | Return => 1
  | Returned => 0
  end.

Lemma measure_step l s s' ev : inv s -> environment l = false -> exec_pc l s = Some (s', ev) -> measure s' < measure s.
Proof.
  intros [A B C D F] Hl Hpc. destruct s as [h st sto al ph th ca co]; cbn in *. subst h st al.
  destruct l as [[|u]|r| | | | | | | |]; try discriminate Hl; cbn in Hpc; destruct ph; try discriminate Hpc;
    destruct ca; try discriminate Hpc; destruct th; try discriminate A; try discriminate Hpc;
    injection Hpc as <- <-; cbn; lia.
Qed.

Lemma enabled s : inv s -> completed s <> None -> caller s <> Returned ->
  exists l s' ev, environment l = false /\ exec l s = Some (s', ev).
Proof.
  intros [A B C D F] Hco Hret. destruct s as [h st sto al ph th ca co]; cbn in *.
  destruct co as [r|]; [|done]. destruct F as [F1 F2]. unfold exec. subst h st al.
  destruct ph; try done; destruct ca; try discriminate A; try done; destruct th; try discriminate A;
    first [exists LSetLock; by do 2 eexists | exists LSetBody; by do 2 eexists | exists LSetUnlock; by do 2 eexists
          | exists LWaitLock; by do 2 eexists | exists LCheck; by do 2 eexists | exists LRelock; by do 2 eexists
          | exists LReturn; by do 2 eexists].
Qed.

Lemma returns_within n : forall s r, measure s <= n -> inv s -> completed s = Some r -> caller s <> Returned ->
  exists ls s', length ls <= n /\ run exec ls s = Some (s', [EvReturn r]) /\ caller s' = Returned.
Proof.
  induction n as [|n IH]; intros s r Hm I Hco Hret;
    destruct (enabled s I ltac:(congruence) Hret) as (l & s1 & ev & Hl & He);
    destruct (exec_ok _ _ _ _ I He) as [Hpc I1]; pose proof (measure_step _ _ _ _ I Hl Hpc); [lia|].
  assert (completed s1 = Some r /\ ev = (if returned (caller s1) then [EvReturn r] else [])) as [Hco1 Hev].
  { clear He I1 IH Hm. destruct I as [A B C D F]. destruct s as [h st sto al ph th ca co]; cbn in *. subst h st al co.
    destruct F as [F1 F2]. subst r.
    destruct l as [u|r0| | | | | | | |]; try discriminate Hl; cbn in Hpc; destruct ph; try done;
      destruct ca; try done; destruct th; try done; by injection Hpc as <- <-. }
  destruct (returned (caller s1)) eqn:Hr1.
  - exists [l], s1. split; [cbn; lia|]. cbn. rewrite He, Hev. split; [done|]. by destruct (caller s1).
  - destruct (IH s1 r) as (ls & s2 & Hlen & Hrun & Hc2); [lia|done..|by intros Hc; rewrite Hc in Hr1|].
    exists (l :: ls), s2. split; [cbn; lia|]. cbn. by rewrite He, Hrun, Hev.
Qed.

(** No wake-up is lost: from every reachable state in which the coroutine has
    completed and the call has not returned, some thread of the program can move, every
    such move brings the call nearer to its return (so no schedule goes on for ever
    without it, spurious wake-ups and their rechecks apart), and within at most 17
    moves it returns with the coroutine's result. *)
Theorem sync_wait_no_lost_wakeup s tr r :
  reach exec init s tr -> completed s = Some r -> caller s <> Returned ->
  (exists ls s', length ls <= 17 /\ run exec ls s = Some (s', [EvReturn r]) /\ caller s' = Returned) /\
  (forall l s' ev, environment l = false -> exec l s = Some (s', ev) -> measure s' < measure s).
Proof.
  intros Hr Hco Hret. destruct (reach_ok s tr Hr) as [I _]. split.
  - apply returns_within; [|done..]. pose proof (i_comp s I) as F. rewrite Hco in F. destruct F as [F1 _].
    unfold measure. destruct (phase s), (caller s), (m_set s); try done; lia.
  - intros l s' ev Hl He. destruct (exec_ok _ _ _ _ I He) as [Hpc _]. by eapply measure_step.
Qed.
End sync_wait.

(** *** Witnesses: the coroutine is handed to thread 3, the caller blocks, is woken
    spuriously and blocks again before the coroutine completes. *)
Section witnesses.
#[local] Instance syncwait_nat_promise : Promise nat nat := SyncWaitPromises.sync_wait_task_promise 99.

Definition schedule : list (label (V := nat) (E := nat)) :=
  [LHand 3; LWaitLock; LCheck; LSpurious; LRelock; LCheck; LComplete (inl 42); LSetLock; LSetBody].

Lemma sync_wait_returns_result_witness :
  exists s tr, run exec (schedule ++ [LSetUnlock; LRelock; LCheck; LReturn]) init = Some (s, tr) /\
    (tr = [] \/ exists r, tr = [EvComplete r] \/ (tr = [EvComplete r; EvReturn r] /\ phase s = Done /\ holder s = None)).
Proof.
  destruct (run exec (schedule ++ [LSetUnlock; LRelock; LCheck; LReturn]) init) as [[s tr]|] eqn:Hrun;
    [|vm_compute in Hrun; discriminate].
  exists s, tr. split; [reflexivity|]. apply sync_wait_returns_result. exact (run_reach _ _ _ _ _ Hrun).
Defined.

Lemma sync_wait_no_lost_wakeup_witness :
  exists s tr, run exec schedule init = Some (s, tr) /\
    exists ls s', length ls <= 17 /\ run exec ls s = Some (s', [EvReturn (inl 42)]) /\ caller s' = Returned.
Proof.
  destruct (run exec schedule init) as [[s tr]|] eqn:Hrun; [|vm_compute in Hrun; discriminate].
  exists s, tr. split; [reflexivity|].
  apply (sync_wait_no_lost_wakeup s tr (inl 42)); [exact (run_reach _ _ _ _ _ Hrun)|..];
    vm_compute in Hrun; injection Hrun as <- _; [reflexivity|discriminate].
Defined.
End witnesses.
End SyncWait.
