(* ===== verification/WhenAll.v ===== *)
(** * coro::when_all (include/coro/when_all.hpp)

    [when_all(N awaitables)] wraps each awaitable in a when_all_task; the
    awaitable it returns starts them one after the other inside its
    await_suspend and gives up one unit of a latch of N+1, every completed task
    gives up another, and whoever takes the last one resumes the awaiting
    coroutine (or does not suspend it).  The tasks run on the awaiting thread
    until they first suspend and on any thread after that.  The awaitables are
    the program's: any value or exception may come from each, at any time. *)
From stdpp Require Import base list relations option numbers.
From Stdlib Require Import ZArith Lia.
From S2P Require Import Prelude.

Module WhenAll.

(** The number of indices below [n] that satisfy [f]. *)
Fixpoint count (f : nat -> bool) (n : nat) : nat :=
  match n with 0 => 0 | S m => (if f m then 1 else 0) + count f m end.

Lemma count_ext f g n : (forall i, i < n -> f i = g i) -> count f n = count g n.
Proof. induction n as [|n IH]; intros H; cbn; [done|]. rewrite (H n), IH by (intros; auto). done. Qed.

Lemma count_clear f g n i : i < n -> f i = true -> g i = false -> (forall j, j <> i -> g j = f j) ->
  count f n = S (count g n).
Proof.
  induction n as [|n IH]; intros Hi Hf Hg Ho; cbn; [lia|]. destruct (decide (i = n)) as [->|Hne].
  - rewrite Hf, Hg. cbn. f_equal. apply count_ext. intros j Hj. symmetry. apply Ho. lia.
  - rewrite (Ho n), IH by (auto; lia). lia.
Qed.

Lemma count_zero f n : count f n = 0 -> forall i, i < n -> f i = false.
Proof.
  induction n as [|n IH]; cbn; intros H i Hi; [lia|]. destruct (f n) eqn:Hn; [lia|].
  destruct (decide (i = n)) as [->|]; [done|]. apply IH; lia.
Qed.

Lemma count_pos f n : count f n <> 0 -> exists i, i < n /\ f i = true.
Proof.
  induction n as [|n IH]; cbn; intros H; [done|]. destruct (f n) eqn:Hn; [exists n; split; [lia|done]|].
  destruct IH as (i & Hi & Hf); [lia|]. exists i. split; [lia|done].
Qed.

Lemma count_false n : count (fun _ => false) n = 0.
Proof. induction n; cbn; auto. Qed.

Lemma count_le f n : count f n <= n.
Proof. induction n; cbn; [lia|]. destruct (f n); lia. Qed.

Section when_all.
Context {V E : Type}.
Variable N : nat.                 (* std::size(tasks) *)
Hypothesis N_fits : (Z.of_nat N < u64_max)%Z.

(** A when_all_task: not started; running (or suspended somewhere) inside the user's
    awaitable; completed and about to notify from final_suspend; notified. *)
Inductive tstatus := NotStarted | TRunning | TCompleted | TNotified.

#[export] Instance tstatus_eq_dec : EqDecision tstatus.
Proof. solve_decision. Defined.

(** when_all_task_promise: m_exception_ptr and m_return_value *)
Record promise := mk_promise { m_exception_ptr : option E; m_return_value : option V }.

(** The awaiting coroutine: in try_await before task [i] is started, with the thread
    inside the start() of task [i], about to store its handle, about to decrement the
    latch, suspended, resumed. *)
Inductive apc := AStart (i : nat) | AIn (i : nat) | AStore | ASub | ASuspended | AResumed.

Record state := mk_state {
  m_count : Z;                          (* when_all_latch::m_count, a size_t *)
  m_awaiting_coroutine : bool;          (* when_all_latch::m_awaiting_coroutine != nullptr *)
  status : nat -> tstatus;
  promises : nat -> promise;
  apcs : apc;
  outcomes : nat -> option (V + E)      (* history: what each awaitable produced *)
}.

(** when_all_latch(count) *)
Definition latch_init (count : Z) : Z := u64 (count + 1).

Definition init : state :=
  mk_state (latch_init (Z.of_nat N)) false (fun _ => NotStarted) (fun _ => mk_promise None None) (AStart 0) (fun _ => None).

Inductive label :=
| LStart                          (* the next task.start(m_latch), or the end of the loop *)
| LSuspend                        (* the task being started suspends: start() returns *)
| LComplete (i : nat) (r : V + E) (* the awaitable of task i produces r *)
| LNotify (i : nat)
| LStore                          (* m_awaiting_coroutine = awaiting_coroutine *)
| LSub.                           (* m_count.fetch_sub(1) in try_await *)

Inductive event := EvResume | EvNullResume.

Definition with_apc (s : state) (p : apc) : state :=
  mk_state (m_count s) (m_awaiting_coroutine s) (status s) (promises s) p (outcomes s).

(** when_all_ready_awaitable::try_await: for (auto& task : m_tasks) task.start(m_latch) *)
Definition start (s : state) (i : nat) : state :=
  if decide (i < N) then
    mk_state (m_count s) (m_awaiting_coroutine s) ((status s).[i ↦ TRunning]) (promises s) (AIn i) (outcomes s)
  else with_apc s AStore.

(** start() of task [i] returns to the loop when the task leaves the thread. *)
Definition leave (p : apc) (i : nat) : apc :=
  match p with AIn j => if decide (i = j) then AStart (S j) else p | _ => p end.

(** yield_value(value) / return_void, or unhandled_exception, then final_suspend *)
Definition complete (s : state) (i : nat) (r : V + E) : state :=
  let p := promises s i in
  let p' := match r with
            | inl v => mk_promise (m_exception_ptr p) (Some v)
            | inr e => mk_promise (Some e) (m_return_value p)
            end in
  mk_state (m_count s) (m_awaiting_coroutine s) ((status s).[i ↦ TCompleted]) ((promises s).[i ↦ p']) (apcs s)
    ((outcomes s).[i ↦ Some r]).

(** when_all_latch::notify_awaitable_completed, from the final_suspend of task [i] *)
Definition notify_awaitable_completed (s : state) (i : nat) : state * list event :=
  let s1 := mk_state (u64 (m_count s - 1)) (m_awaiting_coroutine s) ((status s).[i ↦ TNotified]) (promises s)
              (leave (apcs s) i) (outcomes s) in
  if (m_count s =? 1)%Z then
    if m_awaiting_coroutine s then (with_apc s1 AResumed, [EvResume]) else (s1, [EvNullResume])
  else (s1, []).

(** when_all_latch::try_await: m_count.fetch_sub(1) > 1 suspends *)
Definition try_await (s : state) : state * list event :=
  let s1 := mk_state (u64 (m_count s - 1)) (m_awaiting_coroutine s) (status s) (promises s)
              (if (m_count s >? 1)%Z then ASuspended else AResumed) (outcomes s) in
  (s1, if (m_count s >? 1)%Z then [] else [EvResume]).

(** The awaiting coroutine: operator co_await, await_suspend and try_await *)
Definition exec_await (l : label) (s : state) : option (state * list event) :=
  match l with
  | LStart => match apcs s with AStart i => Some (start s i, []) | _ => None end
  | LSuspend =>
      match apcs s with
      | AIn i => match status s i with TRunning => Some (with_apc s (AStart (S i)), []) | _ => None end
      | _ => None
      end
  | LStore =>
      match apcs s with
      | AStore => Some (mk_state (m_count s) true (status s) (promises s) ASub (outcomes s), [])
      | _ => None
      end
  | LSub => match apcs s with ASub => Some (try_await s) | _ => None end
  | LComplete _ _ | LNotify _ => None
  end.

(** A when_all_task: its awaitable ends, then final_suspend notifies the latch *)
Definition exec_task (l : label) (s : state) : option (state * list event) :=
  match l with
  | LComplete i r => match status s i with TRunning => Some (complete s i r, []) | _ => None end
  | LNotify i => match status s i with TCompleted => Some (notify_awaitable_completed s i) | _ => None end
  | _ => None
  end.

Definition exec (l : label) (s : state) : option (state * list event) :=
  match l with
  | LComplete _ _ | LNotify _ => exec_task l s
  | LStart | LSuspend | LStore | LSub => exec_await l s
  end.

(** when_all_task::return_value(), after the co_await *)
Definition return_value (s : state) (i : nat) : option (V + E) :=
  match m_exception_ptr (promises s i) with
  | Some e => Some (inr e)                 (* std::rethrow_exception *)
  | None => option_map inl (m_return_value (promises s i))   (* *m_return_value; None: null *)
  end.

(** ** Invariant *)

Definition unnotified (st : tstatus) : bool := match st with TNotified => false | _ => true end.
Definition before_sub (p : apc) : bool := match p with ASuspended | AResumed => false | _ => true end.

(** How many tasks the loop has started. *)
Definition started (p : apc) : nat := match p with AStart i => i | AIn i => S i | _ => N end.

Record inv (s : state) : Prop := {
  i_count : m_count s = Z.of_nat (count (fun i => unnotified (status s i)) N + if before_sub (apcs s) then 1 else 0);
  i_started i : status s i <> NotStarted <-> i < started (apcs s);
  i_bound : started (apcs s) <= N;
  i_in i : apcs s = AIn i -> status s i = TRunning \/ status s i = TCompleted;
  i_handle : apcs s = ASub \/ apcs s = ASuspended -> m_awaiting_coroutine s = true;
  i_resumed : apcs s = AResumed -> m_count s = 0%Z;
  i_suspended : apcs s = ASuspended -> m_count s <> 0%Z;
  i_promise i : match status s i with
                | NotStarted | TRunning => promises s i = mk_promise None None /\ outcomes s i = None
                | _ => exists r, outcomes s i = Some r /\ return_value s i = Some r
                end
}.

Lemma count_true n : count (fun _ => true) n = n.
Proof. induction n; cbn; lia. Qed.

Lemma wa_init_inv : inv init.
Proof.
  split; cbn; try done; try lia.
  - rewrite count_true. unfold latch_init. rewrite u64_small; lia.
  - intros i. split; [done|lia].
  - by intros [|].
Qed.

(** Changing the status of one task without notifying it keeps the count. *)
Lemma count_status st i x : unnotified (st i) = true -> unnotified x = true ->
  count (fun j => unnotified (st.[i ↦ x] j)) N = count (fun j => unnotified (st j)) N.
Proof. intros H1 H2. apply count_ext. intros j _. upd_cases; congruence. Qed.

Lemma start_inv s i : inv s -> apcs s = AStart i -> inv (start s i).
Proof.
  intros [A B C D F G H J] Hp. rewrite Hp in *. cbn in *. unfold start. destruct (decide (i < N)) as [Hi|Hi].
  - assert (status s i = NotStarted) as Hs.
    { destruct (decide (status s i = NotStarted)) as [|Hn]; [done|]. apply B in Hn. lia. }
    split; cbn; try done.
    + rewrite count_status; [done|by rewrite Hs|done].
    + intros j. upd_cases; [split; [lia|done]|]. rewrite B. lia.
    + intros j [= ->]. rewrite upd_eq. by left.
    + by intros [|].
    + intros j. specialize (J j). unfold return_value in *. cbn. upd_cases; [by rewrite Hs in J|done].
  - assert (i = N) as -> by lia. split; cbn; try done. by intros [|].
Qed.

Lemma suspend_inv s i : inv s -> apcs s = AIn i -> inv (with_apc s (AStart (S i))).
Proof. intros [A B C D F G H J] Hp. rewrite Hp in *. cbn in *. split; cbn; try done. by intros [|]. Qed.

Lemma complete_inv s i r : inv s -> status s i = TRunning -> inv (complete s i r).
Proof.
  intros [A B C D F G H J] Hs. split; cbn; try done.
  - by rewrite count_status; [|rewrite Hs|].
  - intros j. upd_cases; [|done]. rewrite <- B, Hs. done.
  - intros j Hj. upd_cases; auto.
  - intros j. pose proof (J j) as Jj. unfold return_value in *. cbn. upd_cases; try done.
    rewrite Hs in Jj. destruct Jj as [-> _]. exists r. by destruct r.
Qed.

Lemma count_notify st i : i < N -> unnotified (st i) = true ->
  count (fun j => unnotified (st j)) N = S (count (fun j => unnotified (st.[i ↦ TNotified] j)) N).
Proof.
  intros Hi Hs. apply (count_clear _ _ N i); [done..| |].
  - by rewrite upd_eq.
  - intros j Hj. by rewrite upd_ne.
Qed.

(** The loop position does not lose started tasks when a task leaves the thread. *)
Lemma leave_facts p i : started (leave p i) = started p /\ before_sub (leave p i) = before_sub p /\
  (forall j, leave p i = AIn j -> p = AIn j /\ j <> i) /\
  (leave p i = ASub <-> p = ASub) /\ (leave p i = ASuspended <-> p = ASuspended) /\ (leave p i = AResumed <-> p = AResumed).
Proof.
  destruct p; cbn; try (split_and!; done). destruct (decide (i = i0)); cbn; split_and!; try done; try (split; done).
  by intros j [= ->].
Qed.

Lemma notify_inv s i s' ev : inv s -> status s i = TCompleted -> notify_awaitable_completed s i = (s', ev) ->
  inv s' /\ (ev = [] /\ apcs s' <> AResumed \/ ev = [EvResume] /\ apcs s = ASuspended /\ apcs s' = AResumed).
Proof.
  intros [A B C D F G H J] Hs Hn. destruct (leave_facts (apcs s) i) as (L1 & L2 & L3 & L4 & L5 & L6).
  assert (i < N) as Hi. { enough (i < started (apcs s)) by lia. apply B. by rewrite Hs. }
  pose proof (count_notify (status s) i Hi ltac:(by rewrite Hs)) as Hc.
  pose proof (count_le (fun j => unnotified (status s j)) N) as Hle.
  assert (u64 (m_count s - 1) = m_count s - 1)%Z as Hu.
  { apply u64_small. rewrite A, Hc. destruct (before_sub (apcs s)); lia. }
  assert (apcs s <> AResumed) as Hnr. { intros Hr. apply G in Hr. rewrite A, Hc in Hr. lia. }
  assert (forall j, match ((status s).[i ↦ TNotified]) j with
                | NotStarted | TRunning => promises s j = mk_promise None None /\ outcomes s j = None
                | _ => exists r, outcomes s j = Some r /\ return_value s j = Some r
                end) as J'.
  { intros j. pose proof (J j) as Jj. upd_cases; [by rewrite Hs in Jj|done]. }
  assert (forall j, ((status s).[i ↦ TNotified]) j <> NotStarted <-> j < started (apcs s)) as B'.
  { intros j. rewrite <- B. upd_cases; [by rewrite Hs|done]. }
  unfold notify_awaitable_completed in Hn. destruct (Z.eqb_spec (m_count s) 1) as [H1|H1].
  - (* the last unit: the awaiting coroutine has given up its own *)
    assert (apcs s = ASuspended) as Hsus.
    { rewrite A, Hc in H1. destruct (apcs s) eqn:Ep; cbn in H1; try lia; done. }
    rewrite (F (or_intror Hsus)) in Hn. injection Hn as <- <-. split; [|by right].
    rewrite Hsus in *. cbn in *. split; cbn; try done; try lia.
  - injection Hn as <- <-. split; [|left; split; [done|]; cbn; by rewrite L6].
    split; cbn; rewrite ?L1, ?L2; try done.
    + rewrite Hu, A, Hc. lia.
    + intros j Hj. apply L3 in Hj as [Hj Hne]. rewrite upd_ne by done. by apply D.
    + rewrite L4, L5. done.
    + rewrite L6. done.
    + rewrite L5. intros Hsus. rewrite Hu. lia.
Qed.

Lemma store_inv s : inv s -> apcs s = AStore ->
  inv (mk_state (m_count s) true (status s) (promises s) ASub (outcomes s)).
Proof. intros [A B C D F G H J] Hp. rewrite Hp in *. cbn in *. by split. Qed.

Lemma sub_inv s s' ev : inv s -> apcs s = ASub -> try_await s = (s', ev) ->
  inv s' /\ (ev = [] /\ apcs s' = ASuspended \/ ev = [EvResume] /\ apcs s' = AResumed).
Proof.
  intros [A B C D F G H J] Hp Ht. rewrite Hp in *. cbn in *. unfold try_await in Ht.
  pose proof (count_le (fun j => unnotified (status s j)) N) as Hle.
  assert (u64 (m_count s - 1) = m_count s - 1)%Z as Hu by (apply u64_small; lia).
  injection Ht as <- <-. rewrite Hu. destruct (Z.gtb_spec (m_count s) 1); (split; [|auto]); split; cbn; try done; try lia; auto.
Qed.

Lemma exec_inv l s s' ev : inv s -> exec l s = Some (s', ev) -> inv s' /\
  (ev = [] /\ (apcs s' = AResumed -> apcs s = AResumed) \/ ev = [EvResume] /\ apcs s <> AResumed /\ apcs s' = AResumed).
Proof.
  intros I He. destruct l as [| |i r|i| |]; cbn in He.
  - destruct (apcs s) eqn:Ep; try done. injection He as <- <-. split; [by apply start_inv|].
    left. split; [done|]. unfold start. by destruct (decide _).
  - destruct (apcs s) eqn:Ep; try done. destruct (status s i); try done. injection He as <- <-.
    split; [by apply suspend_inv|]. by left.
  - destruct (status s i) eqn:Ep; try done. injection He as <- <-. split; [by apply complete_inv|]. by left.
  - destruct (status s i) eqn:Ep; try done. injection He as He.
    destruct (notify_inv _ _ _ _ I Ep He) as [I' [[? ?]|(? & Hs & ?)]]; (split; [done|]); [left|right]; try done.
    by rewrite Hs.
  - destruct (apcs s) eqn:Ep; try done. injection He as <- <-. split; [by apply store_inv|]. by left.
  - destruct (apcs s) eqn:Ep; try done. assert (try_await s = (s', ev)) as He' by congruence.
    destruct (sub_inv _ _ _ I Ep He') as [I' [[? Hs]|[? ?]]]; (split; [done|]); [left|right]; try done. by rewrite Hs.
Qed.

(** A resumed coroutine is not sent back to the latch. *)
Lemma resumed_stays l s s' ev : inv s -> exec l s = Some (s', ev) -> apcs s = AResumed -> apcs s' = AResumed.
Proof.
  intros I He Hr. destruct l as [| |i r|i| |]; cbn in He; rewrite ?Hr in He; try done.
  - destruct (status s i); try done. by injection He as <- <-.
  - destruct (status s i) eqn:Ep; try done. injection He as He. unfold notify_awaitable_completed in He.
    rewrite (i_resumed s I Hr) in He. cbn in He. injection He as <- <-. cbn. by rewrite Hr.
Qed.

Lemma wa_reach_ok s tr : reach exec init s tr ->
  inv s /\ tr = (match apcs s with AResumed => [EvResume] | _ => [] end).
Proof.
  revert s tr. apply (reach_inv exec (fun s tr => inv s /\ tr = (match apcs s with AResumed => [EvResume] | _ => [] end))).
  - split; [apply wa_init_inv|done].
  - intros s tr l s' ev [I ->] He. pose proof (resumed_stays _ _ _ _ I He) as Hst.
    destruct (exec_inv _ _ _ _ I He) as [I' [[-> Hr]|(-> & Hn & ->)]]; (split; [done|]); [|by destruct (apcs s)].
    rewrite app_nil_r. destruct (apcs s), (apcs s'); try done; exfalso; naive_solver.
Qed.

(** A suspended coroutine always has a task that has still to notify. *)
Lemma suspended_has_task s : inv s -> apcs s = ASuspended -> exists i, i < N /\ status s i <> TNotified.
Proof.
  intros I Hsus. destruct (count_pos (fun i => unnotified (status s i)) N) as (i & Hi & Hu).
  - intros Hz. apply (i_suspended s I Hsus). rewrite (i_count s I), Hsus, Hz. done.
  - exists i. split; [done|]. intros Ht. by rewrite Ht in Hu.
Qed.

(** A resumed coroutine finds every task through, with its result in its promise. *)
Lemma resumed_all_notified s i : inv s -> apcs s = AResumed -> i < N ->
  status s i = TNotified /\ exists r, outcomes s i = Some r /\ return_value s i = Some r.
Proof.
  intros I Hres Hi. pose proof (i_resumed s I Hres) as H0. rewrite (i_count s I), Hres in H0. cbn [before_sub] in H0.
  assert (count (fun i => unnotified (status s i)) N = 0) as Hz by lia.
  pose proof (count_zero _ N Hz i Hi) as Hn. cbn in Hn.
  destruct (status s i) eqn:Hst; try done. split; [done|]. pose proof (i_promise s I i) as J. by rewrite Hst in J.
Qed.

(** [C27] when_all resumes the awaiting coroutine exactly once, when every task is
    through: over every interleaving of the tasks' threads with the loop that starts
    them, the awaiting coroutine never continues twice or through a null handle; when
    it continues, all N tasks have completed and have given up the latch (none will
    touch it, or the tasks, again), and return_value() of the i-th task gives what the
    i-th awaitable produced: its value, or its exception rethrown.  Conversely it does
    continue: as soon as every task has given up the latch and the awaiting coroutine
    has been through its own decrement in try_await, it has been resumed, and while it
    is suspended some task has still to notify. *)
Theorem when_all_resumes_after_all s tr :
  reach exec init s tr ->
  (tr = [] \/ tr = [EvResume]) /\
  (EvResume ∈ tr -> forall i, i < N -> status s i = TNotified /\
     exists r, outcomes s i = Some r /\ return_value s i = Some r) /\
  ((forall i, i < N -> status s i = TNotified) -> before_sub (apcs s) = false -> tr = [EvResume]) /\
  (apcs s = ASuspended -> exists i, i < N /\ status s i <> TNotified).
Proof.
  intros Hr. destruct (wa_reach_ok s tr Hr) as [I ->]. split_and!.
  - destruct (apcs s); auto.
  - intros Hin i Hi. apply resumed_all_notified; [done| |done]. destruct (apcs s); try done; by apply elem_of_nil in Hin.
  - intros Hall Hb. destruct (apcs s) eqn:Ep; try done. destruct (suspended_has_task s I Ep) as (i & Hi & Hn). by destruct Hn; apply Hall.
  - by apply suspended_has_task.
Qed.
End when_all.

(** *** Witnesses: two tasks, the first completes inside its start(), the second is
    finished by another thread before the handle is stored. *)
Definition schedule : list (label (V := nat) (E := nat)) :=
  [LStart; LComplete 0 (inl 10); LNotify 0; LStart; LSuspend; LComplete 1 (inr 7); LStart; LNotify 1; LStore].

Lemma when_all_resumes_after_all_witness :
  exists s tr, run (exec 2) (schedule ++ [LSub]) (init 2) = Some (s, tr) /\ tr = [EvResume] /\
    forall i, i < 2 -> status s i = TNotified /\ exists r, outcomes s i = Some r /\ return_value s i = Some r.
Proof.
  destruct (run (exec 2) (schedule ++ [LSub]) (init 2)) as [[s tr]|] eqn:Hrun; [|vm_compute in Hrun; discriminate].
  exists s, tr. split; [reflexivity|].
  destruct (when_all_resumes_after_all 2 ltac:(reflexivity) s tr (run_reach _ _ _ _ _ Hrun)) as (_ & Hres & Hall & _).
  assert (tr = [EvResume]) as Htr.
  { vm_compute in Hrun. injection Hrun as Hs _. apply Hall; rewrite <- Hs; [|reflexivity].
    intros i Hi. destruct i as [|[|i]]; [reflexivity..|lia]. }
  split; [exact Htr|]. apply Hres. rewrite Htr. by apply list_elem_of_singleton.
Defined.

Example schedule_trace : option_map snd (run (exec 2) (schedule ++ [LSub]) (init 2)) = Some [EvResume].
Proof. vm_compute. reflexivity. Qed.
End WhenAll.
