(* ===== verification/WhenAllObjects.v ===== *)
(** * The awaitable of when_all as an object (include/coro/when_all.hpp)

    when_all_latch and when_all_ready_awaitable are returned by value and moved before they
    are awaited; [WhenAll] starts where co_await is applied to one.  [WhenAllTasks]: the tasks
    of a range as owners of their coroutine frames, and the promise of a task that returns
    nothing. *)
From stdpp Require Import base list relations option numbers.
From Stdlib Require Import ZArith Lia.
From S2P Require Import Prelude Task WhenAll.

Module WhenAllObjects.
Import WhenAll.

(** when_all_latch; [l_awaiting]: m_awaiting_coroutine is not null *)
Record latch := mk_latch { l_count : Z; l_awaiting : bool }.
Definition new_latch (count : Z) : latch := mk_latch (latch_init count) false.
(** when_all_latch(when_all_latch&&), which operator= repeats: the new one, and what is left *)
Definition latch_move (other : latch) : latch * latch := (other, mk_latch (l_count other) false).
(** is_ready(), with done() of the awaiting coroutine *)
Definition is_ready (l : latch) (done : bool) : bool := l_awaiting l && done.

(** when_all_ready_awaitable<std::vector<when_all_task>>: the frames of its tasks *)
Record awaitable := mk_awaitable { m_latch : latch; m_tasks : list nat }.
Definition when_all (tasks : list nat) : awaitable := mk_awaitable (new_latch (Z.of_nat (length tasks))) tasks.
(** The move constructor; a std::vector that is moved from is empty. *)
Definition move (other : awaitable) : awaitable * awaitable :=
  let '(l, rest) := latch_move (m_latch other) in (mk_awaitable l (m_tasks other), mk_awaitable rest []).

(** co_await of the awaitable: try_await starts, with the latch as it is *)
Definition co_await {V E} (a : awaitable) : state (V := V) (E := E) :=
  mk_state (l_count (m_latch a)) (l_awaiting (m_latch a)) (fun _ => NotStarted) (fun _ => mk_promise None None) (AStart 0) (fun _ => None).

(** The awaitables after [n] moves in a row: the last one, and those moved from. *)
Fixpoint moves (n : nat) (a : awaitable) : awaitable * list awaitable :=
  match n with
  | 0 => (a, [])
  | S n => let '(b, from) := move a in let '(c, l) := moves n b in (c, from :: l)
  end.

(** However often it is moved, the awaitable that is awaited is the one when_all made: its
    latch counts its tasks and one more, so the theorems on [WhenAll.init] are about it; and
    no task stays with an awaitable that was moved from. *)
Theorem when_all_moves_keep {V E} tasks n :
  fst (moves n (when_all tasks)) = when_all tasks /\
  co_await (fst (moves n (when_all tasks))) = WhenAll.init (V := V) (E := E) (length tasks) /\
  Forall (fun a => m_tasks a = []) (snd (moves n (when_all tasks))).
Proof.
  assert (fst (moves n (when_all tasks)) = when_all tasks /\ Forall (fun a => m_tasks a = []) (snd (moves n (when_all tasks)))) as [H1 H2].
  { induction n as [|n IH]; cbn; [done|]. change (mk_awaitable _ tasks) with (when_all tasks).
    destruct (moves n (when_all tasks)) as [c l]. cbn in *. destruct IH as [-> IH]. split; [done|]. by constructor. }
  rewrite H1. done.
Qed.

(** Awaiting one that was moved from never returns: its latch still counts the tasks. *)
Theorem when_all_moved_from_hangs {V E} tasks :
  tasks <> [] -> (Z.of_nat (length tasks) < u64_max)%Z ->
  exists s, run (exec (V := V) (E := E) 0) [LStart; LStore; LSub] (co_await (snd (move (when_all tasks)))) = Some (s, []) /\
    apcs s = ASuspended /\ forall l, exec 0 l s = None.
Proof.
  intros Hne Hfit. assert (0 < length tasks) as Hl by (destruct tasks; cbn; [done|lia]).
  cbn -[Z.gtb u64]. unfold start. rewrite !decide_False by lia. unfold try_await. cbn -[Z.gtb u64]. unfold latch_init.
  assert (u64 (Z.of_nat (length tasks) + 1) = Z.of_nat (length tasks) + 1)%Z as -> by (apply u64_small; unfold u64_max in *; lia).
  rewrite (proj2 (Z.gtb_lt _ _)) by lia. eexists. split; [done|]. split; [done|]. by intros [].
Qed.

Lemma when_all_moved_from_hangs_witness :
  exists s, run (exec (V := nat) (E := nat) 0) [LStart; LStore; LSub] (co_await (snd (move (when_all [7; 8])))) = Some (s, []) /\
    apcs s = ASuspended /\ forall l, exec 0 l s = None.
Proof. apply (when_all_moved_from_hangs [7; 8]); [discriminate|reflexivity]. Defined.

(** A second co_await of the same awaitable is not recognised as one that is through:
    is_ready() asks whether the awaiting coroutine is done, which is running, and so
    start() resumes tasks that are at their final suspension point. *)
Theorem when_all_second_await_restarts :
  exists s tr s', run (exec 1) [LStart; LComplete 0 (inl 3); LNotify 0; LStart; LStore; LSub] (init (V := nat) (E := nat) 1) = Some (s, tr) /\
    tr = [EvResume] /\ status s 0 = TNotified /\ is_ready (mk_latch (m_count s) (m_awaiting_coroutine s)) false = false /\
    start 1 s 0 = s' /\ status s' 0 = TRunning.
Proof. do 3 eexists. split; [vm_compute; reflexivity|]. split_and!; try done. Qed.
End WhenAllObjects.

Module WhenAllTasks.
Import Ownership.

(** A when_all_task is constructed from the handle of its frame, moved with std::exchange and
    destroys its frame if it still has one: a coroutine object of [Ownership].
    output_tasks.emplace_back(make_when_all_task(std::move(a))), into slot [x] of the vector;
    [tmp] is the temporary. *)
Definition emplace_task (tmp x : nat) : list op := [OCall tmp; OMove x tmp; ODtor tmp].

(** when_all(range), with the slots reserved: the tasks of [n] awaitables *)
Definition make_tasks (n : nat) : list op := concat (map (emplace_task n) (seq 0 n)).
(** The end of the vector that the awaitable holds *)
Definition destroy_tasks (n : nat) : list op := map ODtor (seq 0 n).

Lemma run_ops_app l1 l2 s : Ownership.run (l1 ++ l2) s = match Ownership.run l1 s with Some s1 => Ownership.run l2 s1 | None => None end.
Proof. revert s. induction l1 as [|o l1 IH]; intros s; cbn; [done|]. destruct (exec o s); [apply IH|done]. Qed.

(** [k] tasks made: slot [i] owns frame [i]. *)
Record made (k : nat) (s : state) : Prop := {
  md_obj i : obj s i = if decide (i < k) then Some (Some i) else None;
  md_fresh : fresh s = k;
  md_destroyed : destroyed s = []
}.

Lemma make_tasks_made n k : k <= n -> exists s,
  Ownership.run (concat (map (emplace_task n) (seq 0 k))) Ownership.init = Some s /\ made k s.
Proof.
  induction k as [|k IH]; intros Hk; [by exists Ownership.init|].
  destruct IH as (s & Hs & [Ho Hf Hd]); [lia|].
  rewrite seq_S, map_app, concat_app, run_ops_app, Hs. cbn [concat map Ownership.run app emplace_task Ownership.exec Nat.add].
  rewrite (Ho n), decide_False by lia. cbn.
  rewrite upd_ne by lia. rewrite (Ho k), decide_False by lia. rewrite upd_eq. cbn.
  rewrite (upd_ne _ k), upd_eq by lia. eexists. split; [done|]. split; cbn; rewrite ?Hf; [|done|done].
  intros i. unfold upd. repeat case_decide; subst; try done; try lia; rewrite Ho; case_decide; done || lia.
Qed.

(** [k] tasks gone, first to last. *)
Record unmade (n k : nat) (s : state) : Prop := {
  um_obj i : obj s i = if decide (k <= i < n) then Some (Some i) else None;
  um_fresh : fresh s = n;
  um_destroyed : destroyed s = rev (seq 0 k)
}.

Lemma destroy_tasks_unmade n s k : made n s -> k <= n -> exists s',
  Ownership.run (map ODtor (seq 0 k)) s = Some s' /\ unmade n k s'.
Proof.
  intros [Ho Hf Hd]. induction k as [|k IH]; intros Hk.
  - exists s. split; [done|]. split; [|done|done]. intros i. rewrite Ho. repeat case_decide; done || lia.
  - destruct IH as (s1 & H1 & [A B C]); [lia|]. rewrite seq_S, map_app, run_ops_app, H1. cbn.
    rewrite (A k), decide_True by lia. eexists. split; [done|]. split; [|done|].
    + intros i. cbn. unfold upd. repeat case_decide; try lia; try done; rewrite A; case_decide; done || lia.
    + rewrite seq_S, rev_app_distr. cbn. by rewrite C.
Qed.

(** Of the [n] frames when_all creates for the awaitables of a range none is lost and none
    destroyed twice: at the end of the vector each has been destroyed exactly once. *)
Theorem when_all_tasks_destroyed n : exists s,
  Ownership.run (make_tasks n ++ destroy_tasks n) Ownership.init = Some s /\
  fresh s = n /\ destroyed s = rev (seq 0 n) /\ forall x, obj s x = None.
Proof.
  destruct (make_tasks_made n n ltac:(lia)) as (s & Hs & Hm).
  destruct (destroy_tasks_unmade n s n Hm ltac:(lia)) as (s' & Hs' & [A B C]).
  exists s'. unfold make_tasks, destroy_tasks. rewrite run_ops_app, Hs. split_and!; try done.
  intros x. rewrite A, decide_False by lia. done.
Qed.

(** when_all_task_promise<void>: it keeps the exception; result() rethrows it, and
    return_value() of the task is void_value otherwise. *)
Definition void_promise (E : Type) : Type := option E.
Definition void_complete {E} (r : unit + E) : void_promise E :=
  match r with inl _ => None | inr e => Some e end.
Definition void_return_value {E} (p : void_promise E) : unit + E :=
  match p with Some e => inr e | None => inl tt end.

(** The two promises agree: what a task without a value reports is what [WhenAll.return_value]
    reports for the value void_value. *)
Theorem void_task_agrees {E} (s : WhenAll.state (V := unit) (E := E)) i r :
  WhenAll.promises s i = WhenAll.mk_promise None None ->
  WhenAll.return_value (WhenAll.complete s i r) i = Some (void_return_value (void_complete r)).
Proof.
  intros Hp. unfold WhenAll.return_value, WhenAll.complete. cbn. rewrite upd_eq, Hp. by destruct r as [[]|].
Qed.

Lemma void_task_agrees_witness :
  WhenAll.return_value (WhenAll.complete (WhenAll.init (V := unit) (E := nat) 1) 0 (inr 7)) 0 = Some (inr 7).
Proof. exact (void_task_agrees (WhenAll.init 1) 0 (inr 7) eq_refl). Defined.
End WhenAllTasks.
