(* ===== verification/WhenAny.v ===== *)
(** * coro::when_any (include/coro/when_any.hpp)

    The awaiting coroutine keeps an event and an optional result in its frame and
    resumes a self-deleting controller, which starts one task per awaitable (with
    when_all); the first task whose awaitable returns wins a compare-exchange,
    stores the result and sets the event, after which the awaiting coroutine may
    return and take event and result with it.  [index] tells the awaitables apart
    (the alternative of the variant in the tuple overload). *)
From stdpp Require Import base list relations option numbers.
From S2P Require Import Prelude.

Module WhenAny.

Section when_any.
Context {V E : Type}.
Variable N : nat.                   (* the number of awaitables *)
Variable has_stop : bool.           (* the overloads with a std::stop_source *)

(** make_when_any_task / make_when_any_tuple_task *)
Inductive tstatus :=
| TNot                              (* not started *)
| TRunning                          (* in co_await a *)
| TCas (v : V)                      (* before the compare_exchange *)
| TStore (v : V)                    (* won, before return_value = ... *)
| TSet                              (* before notify.set() *)
| TExit.

(** when_any: inside controller_task.handle().resume(), before co_await notify,
    suspended there, after it, after request_stop, returned. *)
Inductive mpc := MStart (i : nat) | MIn (i : nat) | MAwait | MSuspended | MResumed | MStopped | MReturned.

Record state := mk_state {
  first_completed : bool;
  return_value : option (nat * V);
  notify_set : bool;                (* coro::event notify *)
  tasks : nat -> tstatus;
  main : mpc;
  won : option (nat * V);           (* history: who won the compare_exchange *)
  outcomes : nat -> option (V + E)  (* history: how each awaitable ended *)
}.

Definition init : state := mk_state false None false (fun _ => TNot) (MStart 0) None (fun _ => None).

Inductive label :=
| LStart | LSuspend
| LOutcome (i : nat) (r : V + E)
| LCas (i : nat) | LStore (i : nat) | LSet (i : nat)
| LAwait | LStop | LReturn.

Inductive event :=
| EvWin (i : nat) (v : V)           (* the compare_exchange of task i succeeds *)
| EvLose (i : nat)                  (* ... and fails *)
| EvStop | EvReturn (i : nat) (v : V)
| EvBadOptional                     (* return_value.value() without a value *)
| EvFault.                          (* a touch of notify or return_value after the return *)

Definition set_task (s : state) (i : nat) (t : tstatus) : state :=
  mk_state (first_completed s) (return_value s) (notify_set s) ((tasks s).[i ↦ t]) (main s) (won s) (outcomes s).
Definition set_main (s : state) (p : mpc) : state :=
  mk_state (first_completed s) (return_value s) (notify_set s) (tasks s) p (won s) (outcomes s).

(** A task that suspends or ends gives the thread back to the loop that started it. *)
Definition leave (p : mpc) (i : nat) : mpc :=
  match p with MIn j => if decide (i = j) then MStart (S j) else p | _ => p end.
Definition exit_task (s : state) (i : nat) : state :=
  set_main (set_task s i TExit) (leave (main s) i).

Definition start (s : state) (i : nat) : state :=
  if decide (i < N) then set_main (set_task s i TRunning) (MIn i) else set_main s MAwait.

(** co_await a: a result goes on to the compare_exchange, an exception leaves the task
    (the when_all_task keeps it, nobody reads it). *)
Definition outcome (s : state) (i : nat) (r : V + E) : state :=
  let s1 := mk_state (first_completed s) (return_value s) (notify_set s) (tasks s) (main s) (won s)
              ((outcomes s).[i ↦ Some r]) in
  match r with inl v => set_task s1 i (TCas v) | inr _ => exit_task s1 i end.

(** first_completed.compare_exchange_strong(expected = false, true) *)
Definition compare_exchange (s : state) (i : nat) (v : V) : state * list event :=
  if first_completed s then (exit_task s i, [EvLose i])
  else (mk_state true (return_value s) (notify_set s) ((tasks s).[i ↦ TStore v]) (main s) (Some (i, v)) (outcomes s),
        [EvWin i v]).

Definition returned (p : mpc) : bool := match p with MReturned => true | _ => false end.

(** return_value.emplace(index, result) *)
Definition store (s : state) (i : nat) (v : V) : state * list event :=
  if returned (main s) then (s, [EvFault])
  else (mk_state (first_completed s) (Some (i, v)) (notify_set s) ((tasks s).[i ↦ TSet]) (main s) (won s) (outcomes s), []).

(** notify.set() *)
Definition set_notify (s : state) (i : nat) : state * list event :=
  if returned (main s) then (s, [EvFault])
  else
    let s1 := exit_task s i in
    (mk_state (first_completed s1) (return_value s1) true (tasks s1)
       (match main s1 with MSuspended => MResumed | p => p end) (won s1) (outcomes s1), []).

(** when_any: resume() of the controller, co_await notify, request_stop, co_return *)
Definition exec_main (l : label) (s : state) : option (state * list event) :=
  match l with
  | LStart => match main s with MStart i => Some (start s i, []) | _ => None end
  | LSuspend =>
      match main s with
      | MIn i => match tasks s i with TRunning => Some (set_main s (MStart (S i)), []) | _ => None end
      | _ => None
      end
  | LAwait =>                        (* co_await notify *)
      match main s with
      | MAwait => Some (set_main s (if notify_set s then MResumed else MSuspended), [])
      | _ => None
      end
  | LStop =>                         (* stop_source.request_stop(), in the overloads that have one *)
      match main s with MResumed => Some (set_main s MStopped, if has_stop then [EvStop] else []) | _ => None end
  | LReturn =>                       (* co_return std::move(return_value.value()) *)
      match main s with
      | MStopped =>
          Some (set_main s MReturned, match return_value s with Some (i, v) => [EvReturn i v] | None => [EvBadOptional] end)
      | _ => None
      end
  | _ => None
  end.

(** The task of one awaitable: co_await, compare_exchange, return_value, notify.set() *)
Definition exec_task (l : label) (s : state) : option (state * list event) :=
  match l with
  | LOutcome i r => match tasks s i with TRunning => Some (outcome s i r, []) | _ => None end
  | LCas i => match tasks s i with TCas v => Some (compare_exchange s i v) | _ => None end
  | LStore i => match tasks s i with TStore v => Some (store s i v) | _ => None end
  | LSet i => match tasks s i with TSet => Some (set_notify s i) | _ => None end
  | _ => None
  end.

Definition exec (l : label) (s : state) : option (state * list event) :=
  match l with
  | LOutcome _ _ | LCas _ | LStore _ | LSet _ => exec_task l s
  | LStart | LSuspend | LAwait | LStop | LReturn => exec_main l s
  end.

(** ** Invariant *)

Definition idle_task (t : tstatus) : bool := match t with TStore _ | TSet => false | _ => true end.
Definition past_notify (p : mpc) : bool := match p with MResumed | MStopped | MReturned => true | _ => false end.
Definition started (p : mpc) : nat := match p with MStart i => i | MIn i => S i | _ => N end.

(** The winner's progress decides result and event. *)
Definition winner_ok (s : state) : Prop :=
  match won s with
  | None => first_completed s = false /\ return_value s = None /\ notify_set s = false /\
            forall j, idle_task (tasks s j) = true
  | Some (i, v) => first_completed s = true /\ outcomes s i = Some (inl v) /\
      (forall j, j <> i -> idle_task (tasks s j) = true) /\
      match tasks s i with
      | TStore w => w = v /\ return_value s = None /\ notify_set s = false
      | TSet => return_value s = Some (i, v) /\ notify_set s = false
      | TExit => return_value s = Some (i, v) /\ notify_set s = true
      | _ => False
      end
  end.

Definition task_ok (s : state) (j : nat) : Prop :=
  match tasks s j with
  | TNot | TRunning => outcomes s j = None
  | TCas v | TStore v => outcomes s j = Some (inl v)
  | TSet => first_completed s = true
  | TExit => (exists e, outcomes s j = Some (inr e)) \/ first_completed s = true
  end.

Record inv (s : state) : Prop := {
  i_win : winner_ok s;
  i_task j : task_ok s j;
  i_started j : tasks s j <> TNot <-> j < started (main s);
  i_bound : started (main s) <= N;
  i_past : past_notify (main s) = true -> notify_set s = true;
  i_susp : main s = MSuspended -> notify_set s = false
}.

Lemma wy_leave_facts p i : started (leave p i) = started p /\ past_notify (leave p i) = past_notify p /\
  (leave p i = MSuspended <-> p = MSuspended).
Proof. destruct p; try done. cbn. by destruct (decide (i = i0)). Qed.

Lemma wy_init_inv : inv init.
Proof. split; cbn; try done; try lia. intros j. split; [done|lia]. Qed.

(** Moving an idle task to an idle state keeps the winner where it is. *)
Lemma winner_task s s' i t :
  winner_ok s -> idle_task (tasks s i) = true -> idle_task t = true ->
  (t = TExit -> tasks s i <> TExit) -> tasks s i <> TExit ->
  first_completed s' = first_completed s -> return_value s' = return_value s -> notify_set s' = notify_set s ->
  won s' = won s -> tasks s' = (tasks s).[i ↦ t] -> (forall j, outcomes s j <> None -> outcomes s' j = outcomes s j) ->
  winner_ok s'.
Proof.
  unfold winner_ok. intros W Hi Ht Hx Hne E1 E2 E3 E4 E5 E6. rewrite E4, E1, E2, E3, E5.
  destruct (won s) as [[w v]|].
  - destruct W as (W1 & W2 & W3 & W4). split_and!; [done|rewrite E6; congruence|..].
    + intros j Hj. upd_cases; auto.
    + destruct (decide (w = i)) as [->|]; [by destruct (tasks s i)|]. by rewrite upd_ne.
  - destruct W as (W1 & W2 & W3 & W4). split_and!; try done. intros j. by upd_cases.
Qed.

Lemma task_ok_other s s' i j : task_ok s j -> j <> i -> tasks s' j = tasks s j -> outcomes s' j = outcomes s j ->
  (first_completed s = true -> first_completed s' = true) -> task_ok s' j.
Proof. unfold task_ok. intros H _ -> -> Hf. destruct (tasks s j); auto. destruct H; auto. Qed.

Lemma wy_start_inv s i : inv s -> main s = MStart i -> inv (start s i).
Proof.
  intros [W T S B P U] Hm. rewrite Hm in *. cbn in *. unfold start. destruct (decide (i < N)) as [Hi|Hi].
  - assert (tasks s i = TNot) as Ht.
    { destruct (tasks s i) eqn:Ht; try done; exfalso; assert (tasks s i <> TNot) as Hn by congruence; apply S in Hn; lia. }
    split; cbn; try done.
    + apply (winner_task s _ i TRunning); try done; by rewrite Ht.
    + intros j. destruct (decide (j = i)) as [->|Hj].
      * specialize (T i). unfold task_ok in *. cbn. rewrite upd_eq. by rewrite Ht in T.
      * apply (task_ok_other s _ i); auto. cbn. by rewrite upd_ne.
    + intros j. upd_cases; [split; [lia|done]|]. rewrite S. lia.
  - assert (i = N) as -> by lia. by split.
Qed.

Lemma wy_suspend_inv s i : inv s -> main s = MIn i -> inv (set_main s (MStart (S i))).
Proof. intros [W T S B P U] Hm. rewrite Hm in *. by split. Qed.

Lemma outcome_inv s i r : inv s -> tasks s i = TRunning -> inv (outcome s i r).
Proof.
  intros [W T S B P U] Ht. destruct (wy_leave_facts (main s) i) as (L1 & L2 & L3).
  pose proof (T i) as Ti. unfold task_ok in Ti. rewrite Ht in Ti.
  assert (forall x j, x <> TNot -> ((tasks s).[i ↦ x]) j <> TNot <-> j < started (main s)) as HS.
  { intros x j Hx. rewrite <- S. upd_cases; [by rewrite Ht|done]. }
  destruct r as [v|e]; (split; cbn; rewrite ?L1, ?L2, ?L3; try done).
  - apply (winner_task s _ i (TCas v)); try done; try (by rewrite Ht). cbn. intros j Hj. rewrite upd_ne; congruence.
  - intros j. destruct (decide (j = i)) as [->|Hj]; [unfold task_ok; cbn; by rewrite !upd_eq|].
    apply (task_ok_other s _ i); auto; cbn; by rewrite upd_ne.
  - intros j. by apply HS.
  - apply (winner_task s _ i TExit); try done; try (by rewrite Ht). cbn. intros j Hj. rewrite upd_ne; congruence.
  - intros j. destruct (decide (j = i)) as [->|Hj]; [unfold task_ok; cbn; rewrite !upd_eq; left; by exists e|].
    apply (task_ok_other s _ i); auto; cbn; by rewrite upd_ne.
  - intros j. by apply HS.
Qed.

Lemma cas_inv s i v s' ev : inv s -> tasks s i = TCas v -> compare_exchange s i v = (s', ev) ->
  inv s' /\ (ev = [EvLose i] /\ won s' = won s /\ won s <> None \/ ev = [EvWin i v] /\ won s = None /\ won s' = Some (i, v)).
Proof.
  intros [W T S B P U] Ht He. destruct (wy_leave_facts (main s) i) as (L1 & L2 & L3).
  pose proof (T i) as Ti. unfold task_ok in Ti. rewrite Ht in Ti.
  assert (forall x j, x <> TNot -> ((tasks s).[i ↦ x]) j <> TNot <-> j < started (main s)) as HS.
  { intros x j Hx. rewrite <- S. upd_cases; [by rewrite Ht|done]. }
  unfold compare_exchange in He. destruct (first_completed s) eqn:Hf; injection He as <- <-.
  - assert (won s <> None) as Hw. { intros Hw. unfold winner_ok in W. rewrite Hw in W. destruct W; congruence. }
    split; [|by left]. split; cbn; rewrite ?L1, ?L2, ?L3; try done.
    + apply (winner_task s _ i TExit); try done; by rewrite Ht.
    + intros j. destruct (decide (j = i)) as [->|Hj]; [unfold task_ok; cbn; rewrite upd_eq; by right|].
      apply (task_ok_other s _ i); auto; cbn; by rewrite upd_ne.
    + intros j. by apply HS.
  - assert (won s = None) as Hw. { unfold winner_ok in W. destruct (won s) as [[]|]; [|done]. destruct W; congruence. }
    unfold winner_ok in W. rewrite Hw in W. destruct W as (_ & W2 & W3 & W4).
    split; [|by right]. split; cbn; try done.
    + unfold winner_ok. cbn. rewrite upd_eq. split_and!; try done. intros j Hj. by rewrite upd_ne.
    + intros j. destruct (decide (j = i)) as [->|Hj]; [unfold task_ok; cbn; by rewrite upd_eq|].
      apply (task_ok_other s _ i); auto; cbn; by rewrite upd_ne.
    + intros j. by apply HS.
Qed.

(** A task past its compare_exchange is the winner. *)
Lemma winner_is s i : winner_ok s -> idle_task (tasks s i) = false -> exists v, won s = Some (i, v).
Proof.
  unfold winner_ok. intros W Hi. destruct (won s) as [[w v]|]; [|destruct W as (_ & _ & _ & W); by rewrite W in Hi].
  destruct W as (_ & _ & W & _). destruct (decide (i = w)) as [->|Hne]; [eauto|]. by rewrite W in Hi.
Qed.

Lemma wy_store_inv s i v s' ev : inv s -> tasks s i = TStore v -> store s i v = (s', ev) -> inv s' /\ ev = [] /\ won s' = won s.
Proof.
  intros [W T S B P U] Ht He. destruct (winner_is s i W ltac:(by rewrite Ht)) as [w Hw].
  unfold winner_ok in W. rewrite Hw, Ht in W. destruct W as (W1 & W2 & W3 & -> & W5 & W6).
  unfold store in He. destruct (returned (main s)) eqn:Hret.
  { destruct (main s); try done. by rewrite P in W6. }
  injection He as <- <-. split; [|done]. split; cbn; try done.
  - unfold winner_ok. cbn. rewrite Hw. cbn. rewrite upd_eq. split_and!; try done. intros j Hj. rewrite upd_ne by done. auto.
  - intros j. destruct (decide (j = i)) as [->|Hj]; [unfold task_ok; cbn; by rewrite upd_eq|].
    apply (task_ok_other s _ i); auto; cbn; by rewrite upd_ne.
  - intros j. rewrite <- S. upd_cases; [by rewrite Ht|done].
Qed.

Lemma set_inv s i s' ev : inv s -> tasks s i = TSet -> set_notify s i = (s', ev) -> inv s' /\ ev = [] /\ won s' = won s.
Proof.
  intros [W T S B P U] Ht He. destruct (winner_is s i W ltac:(by rewrite Ht)) as [w Hw].
  unfold winner_ok in W. rewrite Hw, Ht in W. destruct W as (W1 & W2 & W3 & W5 & W6).
  unfold set_notify in He. destruct (returned (main s)) eqn:Hret.
  { destruct (main s); try done. by rewrite P in W6. }
  injection He as <- <-. destruct (wy_leave_facts (main s) i) as (L1 & L2 & L3). split; [|done].
  assert (started (match leave (main s) i with MSuspended => MResumed | p => p end) = started (main s)) as HL.
  { rewrite <- L1. by destruct (leave (main s) i). }
  split; cbn; rewrite ?HL; try done.
  - unfold winner_ok. cbn. rewrite Hw. cbn. rewrite upd_eq. split_and!; try done. intros j Hj. rewrite upd_ne by done. auto.
  - intros j; destruct (decide (j = i)) as [->|Hj];
    [unfold task_ok; cbn; rewrite upd_eq; by right|apply (task_ok_other s _ i); auto; cbn; by rewrite upd_ne].
  - intros j; rewrite <- S; upd_cases; [by rewrite Ht|done].
  - by destruct (leave (main s) i).
Qed.

Lemma value_of_won s i v : winner_ok s -> notify_set s = true -> won s = Some (i, v) -> return_value s = Some (i, v).
Proof.
  unfold winner_ok. intros W Hn Hw. rewrite Hw in W. destruct W as (_ & _ & _ & W).
  destruct (tasks s i); try done; destruct_and?; congruence.
Qed.

Lemma won_of_notify s : winner_ok s -> notify_set s = true -> exists i v, won s = Some (i, v) /\ outcomes s i = Some (inl v).
Proof.
  unfold winner_ok. intros W Hn. destruct (won s) as [[i v]|]; [|destruct_and?; congruence]. destruct W as (_ & ? & _). eauto.
Qed.

(** The trace without the tasks that came too late, from the state. *)
Definition stopped (p : mpc) : bool := match p with MStopped | MReturned => true | _ => false end.
Definition history (s : state) : list event :=
  match won s with
  | None => []
  | Some (i, v) => EvWin i v :: (if has_stop && stopped (main s) then [EvStop] else []) ++
                   (if returned (main s) then [EvReturn i v] else [])
  end.

Definition is_lose (e : event) : bool := match e with EvLose _ => true | _ => false end.
Definition main_events (tr : list event) : list event := List.filter (fun e => negb (is_lose e)) tr.

Lemma main_events_app tr ev : main_events (tr ++ ev) = main_events tr ++ main_events ev.
Proof. apply List.filter_app. Qed.

Lemma main_inv s p : inv s -> started p = started (main s) -> (past_notify p = true -> notify_set s = true) ->
  (p = MSuspended -> notify_set s = false) -> inv (set_main s p).
Proof. intros [W T S B P U] Hp H1 H2. split; cbn; rewrite ?Hp; done. Qed.

(** Steps that leave the winner alone and do not take the main coroutine past a stop. *)
Lemma history_same s s' : won s' = won s -> stopped (main s') = stopped (main s) ->
  returned (main s') = returned (main s) -> history s' = history s.
Proof. unfold history. by intros -> -> ->. Qed.

Lemma leave_stopped p i : stopped (leave p i) = stopped p /\ returned (leave p i) = returned p.
Proof. destruct p; try done. cbn. by destruct (decide (i = i0)). Qed.

Lemma wy_exec_ok l s s' ev : inv s -> exec l s = Some (s', ev) -> inv s' /\
  history s' = history s ++ main_events ev.
Proof.
  intros I He. destruct l as [| |i r|i|i|i| | |]; cbn in He.
  - destruct (main s) eqn:Hm; try done. injection He as <- <-. rewrite app_nil_r. split; [by apply wy_start_inv|].
    unfold start. destruct (decide (i < N)); apply history_same; cbn; by rewrite ?Hm.
  - destruct (main s) eqn:Hm; try done. destruct (tasks s i); try done. injection He as <- <-. rewrite app_nil_r.
    split; [by apply wy_suspend_inv|]. apply history_same; cbn; by rewrite ?Hm.
  - destruct (tasks s i) eqn:Ht; try done. injection He as <- <-. rewrite app_nil_r. split; [by apply outcome_inv|].
    destruct r; apply history_same; cbn; try done; apply leave_stopped.
  - destruct (tasks s i) as [| |v| | |] eqn:Ht; try done. injection He as He.
    destruct (cas_inv s i v s' ev I Ht He) as [I' [(-> & Hw & _)|(-> & Hw & Hw')]]; (split; [done|]).
    + cbn. rewrite app_nil_r. unfold compare_exchange in He. destruct (first_completed s); [|simplify_eq].
      injection He as <-. apply history_same; cbn; try done; apply leave_stopped.
    + unfold history. rewrite Hw, Hw'. pose proof (i_past s I) as P. pose proof (i_win s I) as W.
      unfold winner_ok in W. rewrite Hw in W. destruct W as (_ & _ & W & _).
      unfold compare_exchange in He. destruct (first_completed s); [simplify_eq|]. injection He as <-. cbn.
      destruct (main s); cbn; rewrite ?andb_false_r; try done; by rewrite P in W.
  - destruct (tasks s i) as [| | |v| |] eqn:Ht; try done. injection He as He.
    destruct (wy_store_inv s i v s' ev I Ht He) as (I' & -> & Hw). split; [done|]. rewrite app_nil_r.
    unfold store in He. destruct (returned (main s)); [simplify_eq|]. injection He as <-. by apply history_same.
  - destruct (tasks s i) eqn:Ht; try done. injection He as He.
    destruct (set_inv s i s' ev I Ht He) as (I' & -> & Hw). split; [done|]. rewrite app_nil_r.
    unfold set_notify in He. destruct (returned (main s)) eqn:Hr; [simplify_eq|]. injection He as <-.
    destruct (leave_stopped (main s) i) as [L1 L2]. apply history_same; cbn; try done.
    + rewrite <- L1. by destruct (leave (main s) i).
    + rewrite <- L2, Hr in *. by destruct (leave (main s) i).
  - destruct (main s) eqn:Hm; try done. injection He as <- <-. rewrite app_nil_r. split.
    + apply main_inv; rewrite ?Hm; try done; by destruct (notify_set s).
    + apply history_same; cbn; rewrite ?Hm; by destruct (notify_set s).
  - destruct (main s) eqn:Hm; try done. injection He as <- <-.
    pose proof (i_past s I) as P. rewrite Hm in P. specialize (P eq_refl). split.
    + apply main_inv; by rewrite ?Hm.
    + destruct (won_of_notify s (i_win s I) P) as (i & v & Hw & _). unfold history. cbn. rewrite Hw, Hm. cbn.
      by destruct has_stop.
  - destruct (main s) eqn:Hm; try done. injection He as <- <-.
    pose proof (i_past s I) as P. rewrite Hm in P. specialize (P eq_refl). split.
    + apply main_inv; by rewrite ?Hm.
    + destruct (won_of_notify s (i_win s I) P) as (i & v & Hw & _).
      rewrite (value_of_won s i v (i_win s I) P Hw). unfold history. cbn. rewrite Hw, Hm. cbn.
      by rewrite !app_nil_r.
Qed.

(** A task whose awaitable returned and that is over has won or has come too late. *)
Definition decided (s : state) (tr : list event) : Prop :=
  forall j v, tasks s j = TExit -> outcomes s j = Some (inl v) ->
    (exists w, won s = Some (j, w)) \/ EvLose j ∈ tr.

Lemma decided_same s s' tr : decided s tr -> won s' = won s -> tasks s' = tasks s -> outcomes s' = outcomes s -> decided s' tr.
Proof. unfold decided. by intros Hd -> -> ->. Qed.

Lemma decided_upd s s' i t tr ev : decided s tr -> tasks s' = (tasks s).[i ↦ t] ->
  (forall j, j <> i -> outcomes s' j = outcomes s j) -> (won s' = won s \/ won s = None) ->
  (t = TExit -> forall v, outcomes s' i = Some (inl v) -> (exists w, won s' = Some (i, w)) \/ EvLose i ∈ ev) ->
  decided s' (tr ++ ev).
Proof.
  unfold decided. intros Hd Ht Ho Hw Hi j v. rewrite Ht. destruct (decide (j = i)) as [->|Hj].
  - rewrite upd_eq. intros -> Hv. rewrite elem_of_app. destruct (Hi eq_refl v Hv); auto.
  - rewrite upd_ne, Ho, elem_of_app by done. intros Hx Hv. destruct (Hd j v Hx Hv) as [[w Hjw]|]; [|auto].
    destruct Hw as [->|Hw]; [eauto|congruence].
Qed.

Lemma decided_step l s s' ev tr : inv s -> exec l s = Some (s', ev) -> decided s tr -> decided s' (tr ++ ev).
Proof.
  intros I He Hd. destruct l as [| |i r|i|i|i| | |]; cbn in He.
  - destruct (main s); try done. injection He as <- <-. unfold start. destruct (decide (i < N)).
    + by apply (decided_upd s _ i TRunning); auto.
    + rewrite app_nil_r. by apply (decided_same s).
  - destruct (main s); try done. destruct (tasks s i); try done. injection He as <- <-. rewrite app_nil_r. by apply (decided_same s).
  - destruct (tasks s i) eqn:Ht; try done. injection He as <- <-.
    destruct r as [v|e]; [apply (decided_upd s _ i (TCas v))|apply (decided_upd s _ i TExit)]; auto; cbn; try done;
      try (intros j Hj; by rewrite upd_ne); intros _ v; by rewrite upd_eq.
  - destruct (tasks s i) as [| |v| | |] eqn:Ht; try done. injection He as He.
    destruct (cas_inv s i v s' ev I Ht He) as [_ [(-> & Hw & _)|(-> & Hw & Hw')]];
      unfold compare_exchange in He; destruct (first_completed s); simplify_eq.
    + apply (decided_upd s _ i TExit); auto. right. by apply list_elem_of_singleton.
    + by apply (decided_upd s _ i (TStore v)); auto.
  - destruct (tasks s i) as [| | |v| |] eqn:Ht; try done. injection He as He. unfold store in He.
    destruct (returned (main s)); injection He as <- <-; [|by apply (decided_upd s _ i TSet); auto].
    intros j w Hx Hv. destruct (Hd j w Hx Hv); [by left|right; apply elem_of_app; by left].
  - destruct (tasks s i) eqn:Ht; try done. injection He as He.
    destruct (winner_is s i (i_win s I) ltac:(by rewrite Ht)) as [w Hw].
    destruct (set_inv s i s' ev I Ht He) as (_ & -> & Hw'). unfold set_notify in He.
    destruct (returned (main s)); [done|]. injection He as <-. apply (decided_upd s _ i TExit); auto.
    intros _ _ _. left. exists w. by rewrite Hw'.
  - destruct (main s); try done. injection He as <- <-. rewrite app_nil_r. by apply (decided_same s).
  - destruct (main s); try done. injection He as <- <-. apply (fun H => decided_same s _ _ H eq_refl eq_refl eq_refl).
    intros j w Hx Hv. destruct (Hd j w Hx Hv); [by left|right; apply elem_of_app; by left].
  - destruct (main s); try done. injection He as <- <-. apply (fun H => decided_same s _ _ H eq_refl eq_refl eq_refl).
    intros j w Hx Hv. destruct (Hd j w Hx Hv); [by left|right; apply elem_of_app; by left].
Qed.

(** Nothing happens before somebody wins, and the winning compare_exchange is the first. *)
Definition first_wins (s : state) (tr : list event) : Prop :=
  match won s with None => tr = [] | Some (i, v) => exists rest, tr = EvWin i v :: rest end.

Lemma first_wins_step l s s' ev tr : inv s -> exec l s = Some (s', ev) -> first_wins s tr -> first_wins s' (tr ++ ev).
Proof.
  intros I He Hf.
  assert (won s' = won s /\ (won s = None -> ev = []) \/ exists i v, won s = None /\ won s' = Some (i, v) /\ ev = [EvWin i v]) as H.
  { clear Hf. destruct l as [| |i r|i|i|i| | |]; cbn in He.
    - destruct (main s); try done. injection He as <- <-. left. unfold start. by destruct (decide (i < N)).
    - destruct (main s); try done. destruct (tasks s i); try done. injection He as <- <-. by left.
    - destruct (tasks s i); try done. injection He as <- <-. left. by destruct r.
    - destruct (tasks s i) as [| |v| | |] eqn:Ht; try done. injection He as He.
      destruct (cas_inv s i v s' ev I Ht He) as [_ [(-> & Hw & Hn)|(-> & Hw & Hw')]]; [by left|right; eauto].
    - destruct (tasks s i) as [| | |v| |] eqn:Ht; try done. injection He as He.
      destruct (wy_store_inv s i v s' ev I Ht He) as (_ & -> & ->). by left.
    - destruct (tasks s i) eqn:Ht; try done. injection He as He.
      destruct (set_inv s i s' ev I Ht He) as (_ & -> & ->). by left.
    - destruct (main s); try done. injection He as <- <-. by left.
    - destruct (main s) eqn:Hm; try done. injection He as <- <-. left. split; [done|]. intros Hw.
      destruct (won_of_notify s (i_win s I)) as (i & v & Hw' & _); [|congruence]. apply (i_past s I). by rewrite Hm.
    - destruct (main s) eqn:Hm; try done. injection He as <- <-. left. split; [done|]. intros Hw.
      destruct (won_of_notify s (i_win s I)) as (i & v & Hw' & _); [|congruence]. apply (i_past s I). by rewrite Hm. }
  unfold first_wins in *. destruct H as [[-> Hev]|(i & v & Hw & -> & ->)].
  - destruct (won s) as [[i v]|]; [destruct Hf as [rest ->]; by eexists|by rewrite Hf, Hev].
  - rewrite Hw in Hf. rewrite Hf. by exists [].
Qed.

Lemma wy_reach_ok s tr : reach exec init s tr ->
  inv s /\ main_events tr = history s /\ first_wins s tr /\ decided s tr.
Proof.
  revert s tr. apply (reach_inv exec (fun s tr => inv s /\ main_events tr = history s /\ first_wins s tr /\ decided s tr)).
  - split; [apply wy_init_inv|]. done.
  - intros s tr l s' ev (I & Hm & Hw & Hd) He. destruct (wy_exec_ok _ _ _ _ I He) as [I' Hh].
    split; [done|]. rewrite main_events_app, Hm, Hh. split; [done|].
    split; [by apply (first_wins_step l s)|by apply (decided_step l s)].
Qed.

(** [C28] The first task to reach the compare_exchange is the winner: until one has
    reached it nothing has happened and no task has come to its end with a value (a
    task whose awaitable throws never gets there and is skipped); from then on the
    trace starts with the win of that task, with the value its awaitable returned, and
    every other task that is over with a value lost a later compare_exchange.  Apart
    from those losses the trace is the win, then the stop request in the overloads that
    have one, then the return of the winner's index and value: never an empty optional,
    a second winner, or a touch of the frame after the return. *)
Theorem when_any_returns_the_winner s tr :
  reach exec init s tr ->
  (tr = [] /\ forall j w, tasks s j = TExit -> outcomes s j <> Some (inl w)) \/
  exists i v rest, tr = EvWin i v :: rest /\ outcomes s i = Some (inl v) /\
    (forall j w, tasks s j = TExit -> outcomes s j = Some (inl w) -> j = i \/ EvLose j ∈ rest) /\
    let stop := if has_stop then [EvStop] else [] in
    (main_events tr = [EvWin i v] \/ main_events tr = EvWin i v :: stop \/
     main_events tr = EvWin i v :: stop ++ [EvReturn i v]).
Proof.
  intros Hr. destruct (wy_reach_ok s tr Hr) as ([W T S B P U] & Hm & Hf & Hd). rewrite Hm. unfold history, first_wins, decided in *.
  unfold winner_ok in W. destruct (won s) as [[i v]|].
  - right. destruct W as (_ & Ho & _). destruct Hf as [rest ->]. exists i, v, rest. split_and!; try done.
    + intros j w Hx Hv. destruct (Hd j w Hx Hv) as [[w' ?]|Hin]; [left; congruence|right]. by apply elem_of_cons in Hin as [|].
    + destruct (main s), has_stop; cbn; auto.
  - left. split; [done|]. intros j w Hx Hv. destruct (Hd j w Hx Hv) as [[w' ?]|Hin]; [done|]. rewrite Hf in Hin.
    by apply not_elem_of_nil in Hin.
Qed.

(** When the awaiting coroutine is left suspended with every task over, every
    awaitable has thrown: one that returned would have woken it. *)
Theorem when_any_no_lost_wakeup s tr :
  reach exec init s tr -> main s = MSuspended -> (forall i, i < N -> tasks s i = TExit) ->
  forall i, i < N -> exists e, outcomes s i = Some (inr e).
Proof.
  intros Hr Hm Hall i Hi. destruct (wy_reach_ok s tr Hr) as ([W T S B P U] & _). specialize (U Hm).
  pose proof (T i) as Ti. unfold task_ok in Ti. rewrite (Hall i Hi) in Ti. destruct Ti as [|Hf]; [done|exfalso].
  unfold winner_ok in W. destruct (won s) as [[w v]|]; [|destruct_and?; congruence].
  destruct W as (_ & _ & _ & W). assert (tasks s w = TExit) as Hw.
  { apply Hall. pose proof (S w) as Sw. rewrite Hm in Sw. apply Sw. by destruct (tasks s w). }
  rewrite Hw in W. destruct_and?. congruence.
Qed.

(** When every awaitable throws (and when there is none) the event is never set: the
    call never gets past its co_await, so it neither returns nor reports the
    exceptions. *)
Theorem when_any_all_throw_hangs s tr :
  reach exec init s tr -> (forall i, i < N -> exists e, outcomes s i = Some (inr e)) ->
  notify_set s = false /\ past_notify (main s) = false /\ tr = [].
Proof.
  intros Hr Hall. destruct (wy_reach_ok s tr Hr) as ([W T S B P U] & _ & Hf & _). unfold first_wins in Hf.
  assert (won s = None) as Hw.
  { unfold winner_ok in W. destruct (won s) as [[i v]|] eqn:Hw; [exfalso|done]. destruct W as (_ & W2 & _ & W4).
    destruct (Hall i) as [e He]; [|congruence]. pose proof (S i) as Si.
    enough (i < started (main s)) by lia. apply Si. by destruct (tasks s i). }
  unfold winner_ok in W. rewrite Hw in *. destruct W as (_ & _ & W & _). split_and!; [done| |done].
  destruct (past_notify (main s)); [|done]. by rewrite P in W.
Qed.
End when_any.

(** *** Witnesses *)
Section witnesses.
Definition two_return : list (label (V := nat) (E := nat)) :=
  [LStart; LSuspend; LStart; LSuspend; LStart; LAwait; LOutcome 1 (inl 5); LOutcome 0 (inl 4); LCas 1; LCas 0;
   LStore 1; LSet 1; LStop; LReturn].
Definition two_throw : list (label (V := nat) (E := nat)) :=
  [LStart; LOutcome 0 (inr 1); LStart; LSuspend; LStart; LAwait; LOutcome 1 (inr 2)].

Example two_return_trace :
  option_map snd (run (exec 2 true) two_return init) = Some [EvWin 1 5; EvLose 0; EvStop; EvReturn 1 5].
Proof. vm_compute. reflexivity. Qed.

Lemma when_any_returns_the_winner_witness :
  exists s tr, run (exec 2 true) two_return init = Some (s, tr) /\ outcomes s 1 = Some (inl 5) /\ EvLose 0 ∈ tr.
Proof.
  destruct (run (exec 2 true) two_return init) as [[s tr]|] eqn:Hrun; [|vm_compute in Hrun; discriminate].
  exists s, tr. split; [reflexivity|].
  destruct (when_any_returns_the_winner 2 true s tr (run_reach _ _ _ _ _ Hrun)) as [[H _]|(i & v & rest & H & Ho & Hl & _)].
  - vm_compute in Hrun. injection Hrun as _ <-. discriminate.
  - assert (i = 1 /\ v = 5) as [-> ->]. { vm_compute in Hrun. injection Hrun as _ <-. by injection H as <- <- _. }
    split; [exact Ho|]. destruct (Hl 0 4); [..|done|rewrite H; by apply list_elem_of_further];
      vm_compute in Hrun; by injection Hrun as <- _.
Defined.

Lemma two_throw_end s tr : run (exec 2 false) two_throw init = Some (s, tr) ->
  main s = MSuspended /\ (forall i, i < 2 -> tasks s i = TExit) /\ (forall i, i < 2 -> exists e, outcomes s i = Some (inr e)).
Proof.
  intros Hrun. vm_compute in Hrun. injection Hrun as <- _. split; [reflexivity|].
  split; intros i Hi; (destruct i as [|[|i]]; [..|lia]); try reflexivity; by eexists.
Qed.

Lemma when_any_no_lost_wakeup_witness :
  exists s tr, run (exec 2 false) two_throw init = Some (s, tr) /\ exists e, outcomes s 1 = Some (inr e).
Proof.
  destruct (run (exec 2 false) two_throw init) as [[s tr]|] eqn:Hrun; [|vm_compute in Hrun; discriminate].
  exists s, tr. split; [reflexivity|]. destruct (two_throw_end s tr Hrun) as (H1 & H2 & _).
  refine (when_any_no_lost_wakeup 2 false s tr _ H1 H2 1 _); [exact (run_reach _ _ _ _ _ Hrun)|lia].
Defined.

Lemma when_any_all_throw_hangs_witness :
  exists s tr, run (exec 2 false) two_throw init = Some (s, tr) /\ notify_set s = false /\ past_notify (main s) = false /\ tr = [].
Proof.
  destruct (run (exec 2 false) two_throw init) as [[s tr]|] eqn:Hrun; [|vm_compute in Hrun; discriminate].
  exists s, tr. split; [reflexivity|]. destruct (two_throw_end s tr Hrun) as (_ & _ & H3).
  refine (when_any_all_throw_hangs 2 false s tr _ H3). exact (run_reach _ _ _ _ _ Hrun).
Defined.
End witnesses.
End WhenAny.
