(* ===== verification/SharedMutex.v ===== *)
(** * coro::shared_mutex (include/coro/shared_mutex.hpp)

    Every access to the fields of a shared_mutex is made while its internal
    coro::mutex is held (that the coro::mutex gives mutual exclusion is
    [Mutex.mutex_mutual_exclusion]), so each operation is one step here.
    [AbsShared] is the abstract readers/writer lock with a queue of waiters;
    [SharedMutex] is the code: the state word, the two counters and the
    intrusive list of lock operations with its head and tail pointers, where the
    loop of wake_waiters follows the list.  The code refines the abstract lock
    step by step with the same grants.  A grant is the call of resume() of the executor, taken
    to accept the coroutine: the code does not look at its answer. *)
From Stdlib Require Import ZArith Lia.
From stdpp Require Import base list relations option numbers.
From S2P Require Import Prelude.

(** What both levels do: a coroutine [t] asks for the lock ([x]: exclusive), tries
    for it ([busy]: the internal mutex was taken), or releases what it holds. *)
Inductive rw_label :=
| LLock (t : nat) (x : bool)
| LTry (t : nat) (x : bool) (busy : bool)
| LUnlockShared (t : nat)
| LUnlock (t : nat).

Inductive rw_event :=
| EvAcquire (t : nat) (x : bool)    (* at once, without suspending *)
| EvWait (t : nat) (x : bool)       (* suspended *)
| EvGrant (t : nat) (x : bool)      (* resumed, holding the lock *)
| EvTryFailed (t : nat)
| EvFault.

Module AbsShared.

Record state := mk_state {
  readers : list nat;
  writer : option nat;
  queue : list (nat * bool)
}.
Definition init : state := mk_state [] None [].

Definition free (s : state) : bool := match readers s, writer s with [], None => true | _, _ => false end.
Definition writer_waits (s : state) : bool := existsb snd (queue s).

Definition known (s : state) (t : nat) : Prop :=
  t ∈ readers s \/ writer s = Some t \/ t ∈ map fst (queue s).

(** May [t] have the lock now? *)
Definition admits (s : state) (x : bool) : bool :=
  if x then free s
  else match writer s with
       | None => free s || negb (writer_waits s)
       | Some _ => false
       end.

Definition acquire (s : state) (t : nat) (x : bool) : state :=
  if x then mk_state (readers s) (Some t) (queue s) else mk_state (t :: readers s) (writer s) (queue s).

(** The leading run of readers of a queue. *)
Fixpoint lead (q : list (nat * bool)) : list nat * list (nat * bool) :=
  match q with
  | (t, false) :: q' => let '(r, q'') := lead q' in (t :: r, q'')
  | _ => ([], q)
  end.

(** The lock is free: hand it to the first waiter, or to all readers in front. *)
Definition wake (q : list (nat * bool)) : state * list rw_event :=
  match q with
  | [] => (mk_state [] None [], [])
  | (t, true) :: q' => (mk_state [] (Some t) q', [EvGrant t true])
  | _ => let '(r, q') := lead q in (mk_state (rev r) None q', map (fun t => EvGrant t false) r)
  end.

Definition exec (l : rw_label) (s : state) : option (state * list rw_event) :=
  match l with
  | LLock t x =>
      if admits s x then Some (acquire s t x, [EvAcquire t x])
      else Some (mk_state (readers s) (writer s) (queue s ++ [(t, x)]), [EvWait t x])
  | LTry t x busy =>
      if negb busy && admits s x then Some (acquire s t x, [EvAcquire t x]) else Some (s, [EvTryFailed t])
  | LUnlockShared t =>
      match remove Nat.eq_dec t (readers s) with
      | [] => Some (wake (queue s))
      | r => Some (mk_state r (writer s) (queue s), [])
      end
  | LUnlock t => Some (wake (queue s))
  end.

(** The clients' obligations: a coroutine asks only when it neither holds nor waits
    (and fewer than 2^64 - 1 do), and releases only what it holds. *)
Definition allowed (l : rw_label) (s : state) : Prop :=
  match l with
  | LLock t _ | LTry t _ _ => ~ known s t /\ (Z.of_nat (length (readers s) + length (queue s)) < u64_max)%Z
  | LUnlockShared t => t ∈ readers s
  | LUnlock t => writer s = Some t
  end.

#[global] Instance allowed_dec l s : Decision (allowed l s).
Proof. destruct l; unfold allowed, known; apply _. Defined.

(** ** Invariant of the abstract lock *)

Record inv (s : state) : Prop := {
  i_excl t : writer s = Some t -> readers s = [];
  i_nodup : NoDup (readers s ++ map fst (queue s));
  i_writer t : writer s = Some t -> t ∉ map fst (queue s);
  i_held : queue s <> [] -> free s = false;
  i_head : writer s = None -> match queue s with (_, false) :: _ => False | _ => True end
}.

Lemma sm_init_inv : inv init.
Proof. split; cbn; try done. constructor. Qed.

Lemma acquire_inv s t x : inv s -> ~ known s t -> admits s x = true -> inv (acquire s t x).
Proof.
  intros [A B C D F] Hk Ha. unfold known in Hk. unfold admits, free in *.
  assert ((t ∉ readers s) /\ (t ∉ map fst (queue s))) as [K1 K2] by (split; intros ?; apply Hk; auto).
  unfold acquire. destruct x; cbn in *.
  - destruct (readers s) eqn:Hr; [|done]. destruct (writer s) eqn:Hw; [done|]. split; cbn; try done.
    intros u [= <-]. done.
  - destruct (writer s) eqn:Hw; [done|]. split; cbn; try done.
    + constructor; [|done]. by rewrite elem_of_app; intros [|].
Qed.

Lemma enqueue_inv s t x : inv s -> ~ known s t -> admits s x = false ->
  inv (mk_state (readers s) (writer s) (queue s ++ [(t, x)])).
Proof.
  intros [A B C D F] Hk Ha. unfold known in Hk.
  assert ((t ∉ readers s) /\ (t ∉ map fst (queue s))) as [K1 K2] by (split; intros ?; apply Hk; auto).
  assert (free s = false) as Hf. { unfold admits in Ha. destruct x; [done|]. unfold free in *. destruct (writer s); [by destruct (readers s)|]. by destruct (readers s). }
  split; cbn; try done.
  - rewrite map_app, app_assoc. apply list.NoDup_app. split; [done|]. split; [|apply NoDup_singleton].
    intros u Hu ->%list_elem_of_singleton. apply elem_of_app in Hu as [|]; done.
  - intros u Hu. rewrite map_app, elem_of_app. intros [Hin|Hin%list_elem_of_singleton]; [by apply (C u)|].
    subst. apply Hk. auto.
  - intros Hw. specialize (F Hw). destruct (queue s) as [|[u y] q] eqn:Hq; [|by destruct y]. cbn. destruct x; [done|].
    unfold admits in Ha. rewrite Hw, Hf in Ha. unfold writer_waits in Ha. rewrite Hq in Ha. done.
Qed.

Lemma lead_split q : let '(r, q') := lead q in
  map fst q = r ++ map fst q' /\ match q' with (_, false) :: _ => False | _ => True end.
Proof.
  induction q as [|[t []] q IH]; cbn; try done. destruct (lead q) as [r q']. destruct IH as [-> ?]. done.
Qed.

Lemma wake_inv q : NoDup (map fst q) -> inv (fst (wake q)).
Proof.
  intros Hq. destruct q as [|[t []] q]; cbn -[lead].
  - apply sm_init_inv.
  - cbn in Hq. apply list.NoDup_cons in Hq as [Hn Hq]. split; cbn; try done. by intros u [= <-].
  - pose proof (lead_split ((t, false) :: q)) as Hl.
    assert (exists r q', lead ((t, false) :: q) = (t :: r, q')) as (r & q' & Hlead).
    { cbn. destruct (lead q) as [r q']. eauto. }
    rewrite Hlead in *. destruct Hl as [Heq Hh]. rewrite Heq in Hq. cbn [fst]. split; cbn -[rev]; try done.
    + change (NoDup (rev (t :: r) ++ map fst q')). by rewrite <- (Permutation_rev (t :: r)).
    + intros _. unfold free. cbn -[rev]. destruct (rev (t :: r)) eqn:Hr; [|done].
      apply (f_equal length) in Hr. rewrite length_rev in Hr. done.
Qed.

Lemma remove_nodup t (l k : list nat) : NoDup (l ++ k) -> NoDup (remove Nat.eq_dec t l ++ k).
Proof.
  induction l as [|u l IH]; cbn; intros H; [done|]. apply list.NoDup_cons in H as [Hu H].
  destruct (Nat.eq_dec t u); [by apply IH|]. cbn. constructor; [|by apply IH].
  intros Hin. apply Hu. apply elem_of_app in Hin as [Hin|]; apply elem_of_app; [left|by right].
  apply list_elem_of_In in Hin. apply in_remove in Hin as [Hin _]. by apply list_elem_of_In.
Qed.

Lemma sm_exec_inv l s s' ev : inv s -> allowed l s -> exec l s = Some (s', ev) -> inv s'.
Proof.
  intros I Hal He. destruct l as [t x|t x b|t|t]; cbn in He, Hal.
  - destruct Hal as [Hk _]. destruct (admits s x) eqn:Ha; injection He as <- <-;
      [by apply acquire_inv|by apply enqueue_inv].
  - destruct Hal as [Hk _]. destruct (negb b && admits s x) eqn:Ha; injection He as <- <-; [|done].
    apply andb_true_iff in Ha as [_ Ha]. by apply acquire_inv.
  - pose proof (i_nodup s I) as B. destruct (remove Nat.eq_dec t (readers s)) as [|u r] eqn:Hr.
    + injection He as He. assert (s' = fst (wake (queue s))) as -> by (by rewrite He). apply wake_inv. by apply list.NoDup_app in B as (_ & _ & ?).
    + injection He as <- <-. apply (remove_nodup t) in B. rewrite Hr in B.
      assert (writer s = None) as Hw. { destruct (writer s) eqn:Hw; [|done]. by rewrite (i_excl s I n Hw) in Hal; apply elem_of_nil in Hal. }
      split; cbn; try done; rewrite ?Hw; try done. pose proof (i_head s I Hw). done.
  - injection He as He. assert (s' = fst (wake (queue s))) as -> by (by rewrite He). apply wake_inv. pose proof (i_nodup s I) as B.
    by apply list.NoDup_app in B as (_ & _ & ?).
Qed.
End AbsShared.

Module SharedMutex.

Inductive lstate := unlocked | locked_shared | locked_exclusive.
#[export] Instance lstate_eq_dec : EqDecision lstate.
Proof. solve_decision. Defined.

Record state := mk_state {
  m_state : lstate;
  m_shared_users : Z;                 (* uint64_t *)
  m_exclusive_waiters : Z;            (* uint64_t *)
  m_head_waiter : option nat;
  m_tail_waiter : option nat;
  m_next : nat -> option nat;         (* shared_lock_operation::m_next, by waiter *)
  m_exclusive : nat -> bool;          (* shared_lock_operation::m_exclusive *)
  waiting : nat                       (* number of suspended operations, bounds the wake loop *)
}.
Definition init : state := mk_state unlocked 0 0 None None (fun _ => None) (fun _ => false) 0.

Definition try_lock_shared_locked (s : state) : option state :=
  match m_state s with
  | unlocked => Some (mk_state locked_shared (u64 (m_shared_users s + 1)) (m_exclusive_waiters s) (m_head_waiter s)
                        (m_tail_waiter s) (m_next s) (m_exclusive s) (waiting s))
  | locked_shared =>
      if (m_exclusive_waiters s =? 0)%Z then
        Some (mk_state locked_shared (u64 (m_shared_users s + 1)) (m_exclusive_waiters s) (m_head_waiter s)
                (m_tail_waiter s) (m_next s) (m_exclusive s) (waiting s))
      else None
  | locked_exclusive => None
  end.

Definition try_lock_locked (s : state) : option state :=
  match m_state s with
  | unlocked => Some (mk_state locked_exclusive (m_shared_users s) (m_exclusive_waiters s) (m_head_waiter s)
                        (m_tail_waiter s) (m_next s) (m_exclusive s) (waiting s))
  | _ => None
  end.

(** shared_lock_operation::await_ready *)
Definition await_ready (s : state) (x : bool) : option state :=
  if x then try_lock_locked s else try_lock_shared_locked s.

(** shared_lock_operation::await_suspend, of the operation of [t] *)
Definition await_suspend (s : state) (t : nat) (x : bool) : state :=
  let next := (m_next s).[t ↦ None] in
  let '(head, next') :=
    match m_tail_waiter s with
    | None => (Some t, next)
    | Some w => (m_head_waiter s, next.[w ↦ Some t])
    end in
  mk_state (m_state s) (m_shared_users s) (if x then u64 (m_exclusive_waiters s + 1) else m_exclusive_waiters s)
    head (Some t) next' ((m_exclusive s).[t ↦ x]) (S (waiting s)).

(** Taking the first waiter [w] off the list. *)
Definition pop_waiter (s : state) (w : nat) : state :=
  let '(head, tail) := match m_next s w with None => (None, None) | Some n => (Some n, m_tail_waiter s) end in
  mk_state (m_state s) (m_shared_users s) (m_exclusive_waiters s) head tail (m_next s) (m_exclusive s) (pred (waiting s)).

Definition set_state (s : state) (m : lstate) : state :=
  mk_state m (m_shared_users s) (m_exclusive_waiters s) (m_head_waiter s) (m_tail_waiter s) (m_next s) (m_exclusive s) (waiting s).
Definition add_users (s : state) (d : Z) : state :=
  mk_state (m_state s) (u64 (m_shared_users s + d)) (m_exclusive_waiters s) (m_head_waiter s) (m_tail_waiter s)
    (m_next s) (m_exclusive s) (waiting s).

(** The while loop of wake_waiters; [None]: the fuel was not enough. *)
Fixpoint wake_shared (fuel : nat) (s : state) : option (state * list rw_event) :=
  match fuel with
  | 0 => None
  | S fuel =>
      match m_head_waiter s with
      | None => Some (s, [])
      | Some w =>
          if m_exclusive s w then Some (s, [])
          else
            match wake_shared fuel (add_users (pop_waiter s w) 1) with
            | Some (s', ev) => Some (s', EvGrant w false :: ev)
            | None => None
            end
      end
  end.

Definition wake_waiters (s : state) (head_waiter : nat) : option (state * list rw_event) :=
  if m_exclusive s head_waiter then
    let s1 := pop_waiter (set_state s locked_exclusive) head_waiter in
    Some (mk_state (m_state s1) (m_shared_users s1) (u64 (m_exclusive_waiters s1 - 1)) (m_head_waiter s1)
            (m_tail_waiter s1) (m_next s1) (m_exclusive s1) (waiting s1), [EvGrant head_waiter true])
  else wake_shared (S (waiting s)) (set_state s locked_shared).

Definition unlock (s : state) : option (state * list rw_event) :=
  match m_head_waiter s with
  | Some w => wake_waiters s w
  | None => Some (set_state s unlocked, [])
  end.

Definition unlock_shared (s : state) : option (state * list rw_event) :=
  let s1 := add_users s (-1) in
  if (m_shared_users s =? 1)%Z then unlock s1 else Some (s1, []).

(** lock() / lock_shared(); try_lock() / try_lock_shared() *)
Definition lock (s : state) (t : nat) (x : bool) : state * list rw_event :=
  match await_ready s x with
  | Some s' => (s', [EvAcquire t x])
  | None => (await_suspend s t x, [EvWait t x])
  end.
Definition try_lock (s : state) (t : nat) (x busy : bool) : state * list rw_event :=
  if busy then (s, [EvTryFailed t])
  else match await_ready s x with Some s' => (s', [EvAcquire t x]) | None => (s, [EvTryFailed t]) end.

Definition exec (l : rw_label) (s : state) : option (state * list rw_event) :=
  match l with
  | LLock t x => Some (lock s t x)
  | LTry t x busy => Some (try_lock s t x busy)
  | LUnlockShared _ => unlock_shared s
  | LUnlock _ => unlock s
  end.

(** ** Refinement of the abstract lock *)
Module A := AbsShared.

Definition writers (q : list (nat * bool)) : nat := length (List.filter snd q).

(** The intrusive list and the counter of exclusive waiters represent the queue [q]. *)
Record queue_rep (s : state) (q : list (nat * bool)) : Prop := {
  q_chain : chain (m_next s) (m_head_waiter s) (map fst q);
  q_tail : m_tail_waiter s = list.last (map fst q);
  q_excl : Forall (fun '(t, x) => m_exclusive s t = x) q;
  q_writers : m_exclusive_waiters s = Z.of_nat (writers q);
  q_waiting : waiting s = length q
}.

Definition state_word (a : A.state) : lstate :=
  match A.writer a, A.readers a with
  | Some _, _ => locked_exclusive
  | None, [] => unlocked
  | None, _ => locked_shared
  end.

Record rep (s : state) (a : A.state) : Prop := {
  r_queue : queue_rep s (A.queue a);
  r_state : m_state s = state_word a;
  r_users : m_shared_users s = Z.of_nat (length (A.readers a));
  r_bound : (Z.of_nat (length (A.readers a) + length (A.queue a)) <= u64_max)%Z
}.

Lemma writers_le q : writers q <= length q.
Proof. unfold writers. induction q as [|[t []] q IH]; cbn; lia. Qed.

Lemma writers_waits q : existsb snd q = negb (Nat.eqb (writers q) 0).
Proof. unfold writers. induction q as [|[t []] q IH]; cbn; done. Qed.

(** Only the fields of the list matter to [queue_rep]. *)
Lemma queue_rep_ext s s' q : queue_rep s q -> m_next s' = m_next s -> m_head_waiter s' = m_head_waiter s ->
  m_tail_waiter s' = m_tail_waiter s -> m_exclusive s' = m_exclusive s ->
  m_exclusive_waiters s' = m_exclusive_waiters s -> waiting s' = waiting s -> queue_rep s' q.
Proof. intros [A B C D F] E1 E2 E3 E4 E5 E6. split; rewrite ?E1, ?E2, ?E3, ?E4, ?E5, ?E6; done. Qed.

(** Taking the head off; the counter of exclusive waiters is the caller's. *)
Lemma pop_rep s w x q ew : queue_rep s ((w, x) :: q) -> ew = Z.of_nat (writers q) ->
  let s1 := pop_waiter s w in
  queue_rep (mk_state (m_state s1) (m_shared_users s1) ew (m_head_waiter s1) (m_tail_waiter s1) (m_next s1)
               (m_exclusive s1) (waiting s1)) q.
Proof.
  intros [[A1 A2] B C D F] -> s1. subst s1. unfold pop_waiter. cbn in *.
  apply list.Forall_cons in C as [C1 C2].
  destruct q as [|[w' x'] q]; cbn in *.
  - rewrite A2. cbn. split; cbn; try done. lia.
  - destruct A2 as [A2 A3]. rewrite A2. cbn. split; cbn; try done; lia.
Qed.

Lemma pop_rep_shared s w q d : queue_rep s ((w, false) :: q) -> queue_rep (add_users (pop_waiter s w) d) q.
Proof.
  intros H. pose proof (pop_rep s w false q (m_exclusive_waiters s) H (q_writers _ _ H)) as H1.
  eapply queue_rep_ext; [exact H1|..]; unfold pop_waiter; by destruct (m_next s w).
Qed.

(** The loop of wake_waiters takes exactly the leading readers. *)
Lemma wake_shared_ok q : forall s fuel, queue_rep s q -> length q < fuel ->
  (0 <= m_shared_users s)%Z -> (m_shared_users s + Z.of_nat (length q) <= u64_max)%Z ->
  exists s', wake_shared fuel s = Some (s', map (fun t => EvGrant t false) (fst (A.lead q))) /\
    queue_rep s' (snd (A.lead q)) /\ m_state s' = m_state s /\
    (m_shared_users s' = m_shared_users s + Z.of_nat (length (fst (A.lead q))))%Z.
Proof.
  induction q as [|[w x] q IH]; intros s fuel Hq Hf H0 Hu; (destruct fuel as [|fuel]; [cbn in Hf; lia|]).
  - cbn. rewrite (q_chain _ _ Hq). exists s. split_and!; try done. cbn. lia.
  - pose proof (q_chain _ _ Hq) as [Hh _]. cbn in Hh. pose proof (q_excl _ _ Hq) as Hx.
    apply list.Forall_cons in Hx as [Hx _]. cbn [wake_shared]. rewrite Hh, Hx. destruct x; cbn [A.lead].
    + exists s. cbn. split_and!; try done. lia.
    + cbn in Hf, Hu. assert (m_shared_users (pop_waiter s w) = m_shared_users s /\ m_state (pop_waiter s w) = m_state s) as [E1 E2].
      { unfold pop_waiter. by destruct (m_next s w). }
      set (s1 := add_users (pop_waiter s w) 1).
      assert (m_shared_users s1 = m_shared_users s + 1)%Z as E3. { cbn. rewrite E1. apply u64_small. lia. }
      destruct (IH s1 fuel) as (s' & Hw & Hq' & Hs' & Hu'); [by apply pop_rep_shared|lia..|].
      rewrite Hw. exists s'. destruct (A.lead q) as [r q'] eqn:Hl. cbn in *. split_and!; try done; [congruence|lia].
Qed.

Lemma await_ready_ok s a t x : rep s a -> A.inv a ->
  (Z.of_nat (length (A.readers a) + length (A.queue a)) < u64_max)%Z ->
  match await_ready s x with
  | Some s' => A.admits a x = true /\ rep s' (A.acquire a t x)
  | None => A.admits a x = false
  end.
Proof.
  intros [Q S U B] I Hb. unfold await_ready, try_lock_locked, try_lock_shared_locked, A.admits, A.free, A.acquire.
  rewrite S. unfold state_word in *. pose proof (A.i_excl a I) as Hx.
  destruct (A.writer a) as [w|] eqn:Hw; [by destruct x, (A.readers a)|].
  assert (u64 (m_shared_users s + 1) = m_shared_users s + 1)%Z as Hu by (apply u64_small; rewrite U; lia).
  destruct x; destruct (A.readers a) as [|r l] eqn:Hr; cbn in *; try done.
  - split; [done|]. split; cbn; try done; try lia; by eapply queue_rep_ext.
  - split; [done|]. split; cbn; [by eapply queue_rep_ext|done|rewrite Hu, U; cbn; lia|lia].
  - unfold A.writer_waits. rewrite writers_waits, negb_involutive. pose proof (q_writers _ _ Q) as Hq.
    destruct (Z.eqb_spec (m_exclusive_waiters s) 0) as [Hz|Hz], (Nat.eqb_spec (writers (A.queue a)) 0) as [Hn|Hn]; try lia; try done.
    split; [done|]. split; cbn; [by eapply queue_rep_ext|done|rewrite Hu, U; cbn; lia|lia].
Qed.

(** Linking a node behind the last one. *)
Lemma chain_snoc next p l t : chain next p l -> t ∉ l ->
  match list.last l with
  | None => chain (next.[t ↦ None]) (Some t) [t]
  | Some w => chain ((next.[t ↦ None]).[w ↦ Some t]) p (l ++ [t])
  end.
Proof.
  intros Hc Ht. pose proof (chain_NoDup _ _ _ Hc) as Hnd. destruct (list.last l) as [w|] eqn:Hl.
  - revert p Hc. induction l as [|u l IH]; intros p Hc; [done|]. destruct Hc as [-> Hc]. cbn in Ht.
    apply not_elem_of_cons in Ht as [Htu Htl]. apply list.NoDup_cons in Hnd as [Hu Hnd]. cbn. split; [done|].
    destruct l as [|u' l].
    + injection Hl as ->. rewrite upd_eq. cbn. split; [done|]. by rewrite upd_ne, upd_eq.
    + assert (w ∈ u' :: l) as Hw by (by apply last_Some_elem_of). rewrite (upd_ne _ w _ u) by congruence.
      rewrite upd_ne by done. by apply IH.
  - apply last_None in Hl as ->. cbn. by rewrite upd_eq.
Qed.

Lemma writers_snoc q t x : writers (q ++ [(t, x)]) = writers q + if x then 1 else 0.
Proof. unfold writers. rewrite filter_app, length_app. by destruct x. Qed.

Lemma enqueue_ok s a t x : rep s a -> t ∉ map fst (A.queue a) ->
  (Z.of_nat (length (A.readers a) + length (A.queue a)) < u64_max)%Z ->
  rep (await_suspend s t x) (A.mk_state (A.readers a) (A.writer a) (A.queue a ++ [(t, x)])).
Proof.
  intros [[Q1 Q2 Q3 Q4 Q5] S U B] Ht Hb. unfold await_suspend. pose proof (chain_snoc _ _ _ t Q1 Ht) as Hc.
  pose proof (writers_le (A.queue a)) as Hw. rewrite Q2.
  assert (Forall (fun '(u, y) => ((m_exclusive s).[t ↦ x]) u = y) (A.queue a ++ [(t, x)])) as HF.
  { apply Forall_app. split; [|constructor; [by rewrite upd_eq|constructor]].
    apply list.Forall_forall. intros [u y] Hin. rewrite list.Forall_forall in Q3. specialize (Q3 _ Hin). cbn in Q3.
    rewrite upd_ne; [done|]. intros ->. apply Ht. apply list_elem_of_In, in_map_iff. exists (t, y). by rewrite <- list_elem_of_In. }
  destruct (list.last (map fst (A.queue a))) as [w|] eqn:Hl; (split; cbn; [split; cbn|done|done|]);
    rewrite ?map_app, ?length_app, ?writers_snoc; cbn; try done; try lia.
  all: try (by rewrite last_snoc).
  all: try (destruct x; [rewrite u64_small by lia|]; lia).
  apply last_None in Hl. by rewrite Hl.
Qed.

Lemma wake_ok s q : queue_rep s q -> m_shared_users s = 0%Z -> (Z.of_nat (length q) <= u64_max)%Z ->
  exists s', unlock s = Some (s', snd (A.wake q)) /\ rep s' (fst (A.wake q)).
Proof.
  intros Q U B. unfold unlock. pose proof (q_chain _ _ Q) as Hc. destruct q as [|[w x] q].
  - cbn in Hc. rewrite Hc. eexists. split; [done|]. split; cbn; try done. by eapply queue_rep_ext.
  - destruct Hc as [Hh _]. cbn [map fst] in Hh. rewrite Hh. unfold wake_waiters. pose proof (q_excl _ _ Q) as Hx.
    apply list.Forall_cons in Hx as [Hx _]. rewrite Hx. destruct x.
    + eexists. split; [done|]. cbn [A.wake fst]. pose proof (q_writers _ _ Q) as Hw.
      change (writers ((w, true) :: q)) with (S (writers q)) in Hw. pose proof (writers_le q) as Hle. cbn in B.
      split; cbn -[pop_waiter]; [| | |lia].
      * apply (pop_rep (set_state s locked_exclusive) w true q); [by eapply queue_rep_ext|].
        unfold pop_waiter. cbn. destruct (m_next s w); cbn; rewrite Hw; rewrite u64_small; lia.
      * unfold pop_waiter. cbn. by destruct (m_next s w).
      * unfold pop_waiter. cbn. by destruct (m_next s w).
    + destruct (wake_shared_ok ((w, false) :: q) (set_state s locked_shared) (S (waiting s))) as (s' & Hw & Hq' & Hs' & Hu').
      { by eapply queue_rep_ext. }
      { rewrite (q_waiting _ _ Q). lia. }
      { cbn. lia. }
      { cbn [set_state m_shared_users]. lia. }
      exists s'. unfold A.wake. pose proof (A.lead_split ((w, false) :: q)) as Hl.
      assert (exists r q', A.lead ((w, false) :: q) = (w :: r, q')) as (r & q' & Hlead).
      { cbn. destruct (A.lead q) as [r q']. eauto. }
      rewrite Hlead in *. cbn [fst snd] in *. split; [done|]. destruct Hl as [Hl _].
      apply (f_equal length) in Hl. rewrite length_app, !length_map in Hl.
      split; cbn -[rev]; [done|..].
      * rewrite Hs'. unfold state_word. cbn -[rev]. destruct (rev (w :: r)) eqn:Hr; [|done].
        apply (f_equal length) in Hr. rewrite length_rev in Hr. done.
      * change (rev r ++ [w]) with (rev (w :: r)). rewrite length_rev, Hu'. cbn. rewrite U. lia.
      * change (rev r ++ [w]) with (rev (w :: r)). rewrite length_rev. lia.
Qed.

Lemma remove_length t (l : list nat) : NoDup l -> t ∈ l -> length l = S (length (remove Nat.eq_dec t l)).
Proof.
  induction 1 as [|u l Hu Hnd IH]; intros Hin; [by apply elem_of_nil in Hin|]. cbn.
  destruct (Nat.eq_dec t u) as [->|Hne].
  - rewrite notin_remove; [done|]. by rewrite <- list_elem_of_In.
  - apply elem_of_cons in Hin as [|Hin]; [done|]. cbn. by rewrite IH.
Qed.

Lemma exec_refines l s a : rep s a -> A.inv a -> A.allowed l a ->
  exists s' a' ev, exec l s = Some (s', ev) /\ A.exec l a = Some (a', ev) /\ rep s' a' /\ A.inv a'.
Proof.
  intros R I Hal. enough (exists s' a' ev, exec l s = Some (s', ev) /\ A.exec l a = Some (a', ev) /\ rep s' a') as
    (s' & a' & ev & H1 & H2 & H3) by (exists s', a', ev; split_and!; try done; by eapply A.sm_exec_inv).
  destruct l as [t x|t x b|t|t]; cbn in *.
  - destruct Hal as [Hk Hb]. pose proof (await_ready_ok s a t x R I Hb) as Hr. unfold lock.
    destruct (await_ready s x) as [s'|]; [destruct Hr as [-> Hr]; eauto 6|]. rewrite Hr. do 3 eexists.
    split_and!; [done..|]. apply enqueue_ok; [done| |done]. intros Hin. apply Hk. unfold A.known. auto.
  - destruct Hal as [Hk Hb]. pose proof (await_ready_ok s a t x R I Hb) as Hr. unfold try_lock.
    destruct b; cbn; [eauto 6|]. destruct (await_ready s x) as [s'|]; [destruct Hr as [-> Hr]; eauto 6|]. rewrite Hr. eauto 6.
  - destruct R as [Q S U B]. pose proof (A.i_nodup a I) as Hnd. apply list.NoDup_app in Hnd as (Hnd & _ & _).
    pose proof (remove_length t _ Hnd Hal) as Hlen. unfold unlock_shared.
    assert (u64 (m_shared_users s + -1) = Z.of_nat (length (remove Nat.eq_dec t (A.readers a)))) as Hu.
    { rewrite U, Hlen. rewrite u64_small; lia. }
    destruct (remove Nat.eq_dec t (A.readers a)) as [|u r] eqn:Hrm.
    + rewrite U, Hlen. cbn [length Z.of_nat Z.eqb Pos.of_succ_nat Pos.eqb].
      destruct (wake_ok (add_users s (-1)) (A.queue a)) as (s' & Hw & Hr); [by eapply queue_rep_ext|cbn; by rewrite Hu|lia|].
      exists s'. rewrite Hw. destruct (A.wake (A.queue a)) as [a' ev]. eauto.
    + destruct (Z.eqb_spec (m_shared_users s) 1) as [H1|_]; [rewrite U, Hlen in H1; cbn in H1; lia|].
      do 3 eexists. split_and!; [done..|]. split; cbn -[length]; [by eapply queue_rep_ext| |by rewrite Hu|].
      * rewrite S. unfold state_word. cbn. destruct (A.writer a); [done|]. by destruct (A.readers a).
      * rewrite Hlen in B. lia.
  - destruct R as [Q S U B]. rewrite (A.i_excl a I t Hal) in *. cbn in U.
    destruct (wake_ok s (A.queue a)) as (s' & Hw & Hr); [done..|cbn in B; lia|].
    exists s'. rewrite Hw. destruct (A.wake (A.queue a)) as [a' ev]. eauto.
Qed.
(** ** The lock with clients that keep their obligations

    The abstract state is the account of who holds and who waits. *)
Definition exec_client (l : rw_label) (sa : state * A.state) : option (state * A.state * list rw_event) :=
  let '(s, a) := sa in
  if decide (A.allowed l a) then
    match exec l s, A.exec l a with
    | Some (s', ev), Some (a', _) => Some ((s', a'), ev)
    | _, _ => None
    end
  else None.

Definition waits (tr : list rw_event) : list (nat * bool) :=
  omap (fun e => match e with EvWait t x => Some (t, x) | _ => None end) tr.
Definition grants (tr : list rw_event) : list (nat * bool) :=
  omap (fun e => match e with EvGrant t x => Some (t, x) | _ => None end) tr.

Lemma lead_queue q : q = map (fun t => (t, false)) (fst (A.lead q)) ++ snd (A.lead q).
Proof. induction q as [|[t []] q IH]; cbn; [done..|]. destruct (A.lead q) as [r q']. cbn in *. by rewrite <- IH. Qed.

Lemma grants_readers r : grants (map (fun t => EvGrant t false) r) = map (fun t => (t, false)) r /\
  waits (map (fun t => EvGrant t false) r) = [].
Proof. induction r as [|t r [IH1 IH2]]; [done|]. split; [exact (f_equal (cons (t, false)) IH1)|exact IH2]. Qed.

Lemma wake_grants q : grants (snd (A.wake q)) ++ A.queue (fst (A.wake q)) = q /\ waits (snd (A.wake q)) = [].
Proof.
  destruct q as [|[t []] q]; [done..|]. unfold A.wake. pose proof (lead_queue ((t, false) :: q)) as Hq.
  destruct (A.lead ((t, false) :: q)) as [r q'] eqn:Hl. cbn [fst snd A.queue] in *.
  destruct (grants_readers r) as [-> ->]. done.
Qed.

Lemma waits_app l1 l2 : waits (l1 ++ l2) = waits l1 ++ waits l2.
Proof. apply omap_app. Qed.
Lemma grants_app l1 l2 : grants (l1 ++ l2) = grants l1 ++ grants l2.
Proof. apply omap_app. Qed.

(** Who waited is who was granted since, and who still waits. *)
Lemma step_fifo l a a' ev tr : A.exec l a = Some (a', ev) -> waits tr = grants tr ++ A.queue a ->
  waits (tr ++ ev) = grants (tr ++ ev) ++ A.queue a'.
Proof.
  intros He Hq. rewrite waits_app, grants_app, Hq. destruct (wake_grants (A.queue a)) as [G W].
  destruct l as [t x|t x b|t|t]; cbn in He.
  - destruct (A.admits a x); injection He as <- <-; cbn; rewrite ?app_nil_r; [by destruct x|by rewrite app_assoc].
  - destruct (negb b && A.admits a x); injection He as <- <-; cbn; rewrite ?app_nil_r; [by destruct x|done].
  - destruct (remove Nat.eq_dec t (A.readers a)) as [|u r]; injection He as He.
    + rewrite He in *. cbn [fst snd] in *. rewrite W, app_nil_r, <- app_assoc. by rewrite G.
    + subst. cbn. by rewrite !app_nil_r.
  - injection He as He. rewrite He in *. cbn [fst snd] in *. rewrite W, app_nil_r, <- app_assoc. by rewrite G.
Qed.

Lemma client_ok s a tr : reach exec_client (init, A.init) (s, a) tr ->
  rep s a /\ A.inv a /\ reach A.exec A.init a tr /\ waits tr = grants tr ++ A.queue a.
Proof.
  set (P := fun (sa : state * A.state) tr => rep (fst sa) (snd sa) /\ A.inv (snd sa) /\
    reach A.exec A.init (snd sa) tr /\ waits tr = grants tr ++ A.queue (snd sa)).
  apply (reach_inv exec_client P); unfold P; cbn [fst snd].
  - split_and!; [|apply A.sm_init_inv|constructor|done]. by split; [split|..].
  - clear. intros [s a] tr l [s' a'] ev (R & I & Hr & Hf) He. cbn [fst snd] in *. unfold exec_client in He.
    destruct (decide (A.allowed l a)) as [Hal|]; [|done].
    destruct (exec_refines l s a R I Hal) as (s1 & a1 & ev1 & H1 & H2 & R1 & I1). rewrite H1, H2 in He. simplify_eq.
    split_and!; [done|done|by eapply reach_step|by eapply step_fifo].
Qed.

(** [C19] The code implements the abstract readers/writer lock: along every sequence of
    operations of clients that keep their obligations, each operation returns (the loop
    of wake_waiters ends within the number of waiters) with exactly the acquisitions,
    suspensions and grants of the abstract lock, and its state word, its counters and
    its linked list go on representing the abstract state. *)
Theorem shared_mutex_refines s a tr :
  reach exec_client (init, A.init) (s, a) tr ->
  reach A.exec A.init a tr /\
  forall l, A.allowed l a -> exists s' a' ev,
    exec l s = Some (s', ev) /\ A.exec l a = Some (a', ev) /\ rep s' a'.
Proof.
  intros Hr. destruct (client_ok s a tr Hr) as (R & I & Ha & _). split; [done|]. intros l Hal.
  destruct (exec_refines l s a R I Hal) as (s' & a' & ev & H1 & H2 & H3 & _). eauto 6.
Qed.

(** Exclusion: a writer has the lock alone; the state word says who holds it, and
    m_shared_users is the number of readers. *)
Theorem shared_mutex_exclusion s a tr :
  reach exec_client (init, A.init) (s, a) tr ->
  (forall t, A.writer a = Some t -> A.readers a = [] /\ m_state s = locked_exclusive) /\
  (A.readers a <> [] -> A.writer a = None /\ m_state s = locked_shared) /\
  (m_state s = unlocked <-> A.readers a = [] /\ A.writer a = None) /\
  NoDup (A.readers a) /\ m_shared_users s = Z.of_nat (length (A.readers a)).
Proof.
  intros Hr. destruct (client_ok s a tr Hr) as ([Q S U B] & I & _). pose proof (A.i_excl a I) as Hx.
  pose proof (A.i_nodup a I) as Hnd. apply list.NoDup_app in Hnd as (Hnd & _).
  rewrite S. unfold state_word. destruct (A.writer a) as [w|] eqn:Hw.
  - rewrite (Hx w eq_refl) in *. split_and!; try done. split; [done|]. by intros [].
  - destruct (A.readers a); split_and!; try done; split; try done. by intros [].
Qed.

(** [C20] Waiting: the coroutines that had to wait are granted the lock in the order in
    which they asked (readers that are granted together included), none of them is
    forgotten - while anybody waits, somebody holds the lock, and the release of its
    last holder grants at least the first waiter - and while a writer waits a new
    reader does not get in front of it. *)
Theorem shared_mutex_fifo_no_starvation s a tr :
  reach exec_client (init, A.init) (s, a) tr ->
  waits tr = grants tr ++ A.queue a /\
  (A.queue a <> [] -> m_state s <> unlocked) /\
  (forall t x q s' ev, A.queue a = (t, x) :: q -> unlock s = Some (s', ev) -> m_shared_users s = 0%Z ->
     exists ev', ev = EvGrant t x :: ev') /\
  (A.writer_waits a = true -> forall t, await_ready s false = None /\ lock s t false = (await_suspend s t false, [EvWait t false])).
Proof.
  intros Hr. destruct (client_ok s a tr Hr) as (R & I & _ & Hf). split; [done|]. split_and!.
  - intros Hq. pose proof (A.i_held a I Hq) as Hfree. rewrite (r_state s a R). unfold state_word, A.free in *.
    destruct (A.writer a); [done|]. by destruct (A.readers a).
  - intros t x q s' ev Hq Hu H0. destruct R as [Q S U B].
    destruct (wake_ok s (A.queue a)) as (s1 & Hw & _); [done..|lia|]. rewrite Hu in Hw. injection Hw as -> ->.
    rewrite Hq. destruct x; [by eexists|]. cbn. destruct (A.lead q). by eexists.
  - intros Hww t. unfold lock. assert (await_ready s false = None) as ->; [|done].
    destruct R as [Q S U B]. unfold await_ready, try_lock_shared_locked. rewrite S.
    unfold A.writer_waits in Hww. rewrite writers_waits in Hww. rewrite (q_writers _ _ Q).
    assert (A.queue a <> []) as Hq by (intros Hq; by rewrite Hq in Hww). pose proof (A.i_held a I Hq) as Hfree.
    unfold state_word, A.free in *. destruct (A.writer a); [done|]. destruct (A.readers a); [done|].
    destruct (writers (A.queue a)); [done|]. done.
Qed.

(** *** Witnesses: reader 1, writer 2 queued, readers 3 and 4 behind it, all released *)
Definition schedule : list rw_label :=
  [LLock 1 false; LLock 2 true; LLock 3 false; LLock 4 false; LTry 5 false false; LUnlockShared 1; LUnlock 2].

Example sm_schedule_trace : option_map snd (run exec_client schedule (init, A.init)) =
  Some [EvAcquire 1 false; EvWait 2 true; EvWait 3 false; EvWait 4 false; EvTryFailed 5;
        EvGrant 2 true; EvGrant 3 false; EvGrant 4 false].
Proof. vm_compute. reflexivity. Qed.

Lemma shared_mutex_refines_witness :
  exists s a tr, run exec_client schedule (init, A.init) = Some ((s, a), tr) /\ reach A.exec A.init a tr.
Proof.
  destruct (run exec_client schedule (init, A.init)) as [[[s a] tr]|] eqn:Hrun; [|vm_compute in Hrun; discriminate].
  exists s, a, tr. split; [reflexivity|]. apply (shared_mutex_refines s a tr). exact (run_reach _ _ _ _ _ Hrun).
Defined.

Lemma shared_mutex_exclusion_witness :
  exists s a tr, run exec_client schedule (init, A.init) = Some ((s, a), tr) /\
    m_shared_users s = Z.of_nat (length (A.readers a)).
Proof.
  destruct (run exec_client schedule (init, A.init)) as [[[s a] tr]|] eqn:Hrun; [|vm_compute in Hrun; discriminate].
  exists s, a, tr. split; [reflexivity|]. apply (shared_mutex_exclusion s a tr). exact (run_reach _ _ _ _ _ Hrun).
Defined.

Lemma shared_mutex_fifo_no_starvation_witness :
  exists s a tr, run exec_client schedule (init, A.init) = Some ((s, a), tr) /\ waits tr = grants tr ++ A.queue a.
Proof.
  destruct (run exec_client schedule (init, A.init)) as [[[s a] tr]|] eqn:Hrun; [|vm_compute in Hrun; discriminate].
  exists s, a, tr. split; [reflexivity|]. apply (shared_mutex_fifo_no_starvation s a tr). exact (run_reach _ _ _ _ _ Hrun).
Defined.
End SharedMutex.
