(* ===== verification/ThreadPool.v ===== *)
(** * coro::thread_pool (include/coro/thread_pool.hpp, src/thread_pool.cpp)

    [N] executor threads run thread_pool::executor, [M] client threads (or
    coroutines) call schedule(), resume(), spawn_detached() and shutdown().  A
    critical section of m_wait_mutex is one step (so is the atomic
    release-and-block of m_wait_cv.wait); the accesses to the atomics m_size and
    m_shutdown_requested, which are made outside it, are steps of their own.
    A handle is the identifier of a coroutine that is suspended and not done. *)
From stdpp Require Import base list relations option numbers.
From Stdlib Require Import ZArith Lia.
From S2P Require Import Prelude.

Module ThreadPool.

Section thread_pool.
Variables N M : nat.

(** An executor thread.  [d]: in the second loop of executor(), after the shutdown. *)
Inductive wpc :=
| WLoop                           (* while (!m_shutdown_requested) *)
| WWait                           (* locking m_wait_mutex, or woken from the wait *)
| WBlocked                        (* blocked in m_wait_cv.wait *)
| WRun (d : bool) (h : nat)       (* inside handle.resume() *)
| WSub (d : bool)                 (* m_size.fetch_sub(1) after the resume *)
| DLoop                           (* while (m_size > 0) *)
| DCheck                          (* if (m_queue.empty()) break; *)
| WExit.

(** The calling operation of a client. *)
Inductive kind := KSchedule | KResume | KSpawn.
Inductive cpc :=
| CIdle
| CEnter (h : nat)                (* spawn_detached: before the m_size of resume() *)
| CLoad (k : kind) (h : nat)      (* m_size incremented, before the load of m_shutdown_requested *)
| CUndo (k : kind) (h : nat)      (* refused, before m_size.fetch_sub *)
| CEnqueue (k : kind) (h : nat)   (* accepted, before schedule_impl *)
| CRange (hs : list (option nat)) (* resume(range): m_size incremented *)
| CNulls (nulls total : nat)      (* before m_size.fetch_sub(null_handles) *)
| CNotify (k : nat)               (* notify_one calls left *)
| CNotifyAll
| SNotify                         (* shutdown: before notify_all *)
| SJoin                           (* shutdown: joining the threads *)
.

Record state := mk_state {
  m_size : Z;                     (* std::size_t *)
  m_shutdown_requested : bool;
  m_queue : list nat;
  wpcs : nat -> wpc;
  cpcs : nat -> cpc;
  detached : nat;                 (* detached tasks whose final callback has not run *)
  leaked : nat;                   (* history: increments whose decrement can not happen any more *)
  late : list nat                 (* history: enqueued when every executor had left *)
}.

Definition init : state := mk_state 0 false [] (fun _ => WLoop) (fun _ => CIdle) 0 0 [].

Inductive label :=
| LWorker (w : nat)
| LSpurious (w : nat)             (* a spurious wake-up *)
| LReturned (w : nat)             (* handle.resume() returns *)
| LCall (c : nat) (k : kind) (h : nat)
| LResumeRange (c : nat) (hs : list (option nat))
| LClient (c : nat) (w : nat)     (* the client's next step; w: whom notify_one picks *)
| LDetachedDone                   (* user_final_suspend of a detached task *)
| LShutdown (c : nat).

Inductive event :=
| EvEnqueue (h : nat)
| EvRun (h : nat)                 (* handle.resume() *)
| EvThrow (h : nat)               (* schedule() throws *)
| EvRefused (h : nat)             (* resume() / spawn_detached() returns false *)
| EvAccepted (h : nat)            (* ... returns true *)
| EvExit (w : nat)
| EvShutdownDone (c : nat).

Definition set_w (s : state) (w : nat) (p : wpc) : state :=
  mk_state (m_size s) (m_shutdown_requested s) (m_queue s) ((wpcs s).[w ↦ p]) (cpcs s) (detached s) (leaked s) (late s).
Definition set_c (s : state) (c : nat) (p : cpc) : state :=
  mk_state (m_size s) (m_shutdown_requested s) (m_queue s) (wpcs s) ((cpcs s).[c ↦ p]) (detached s) (leaked s) (late s).
Definition add_size (s : state) (d : Z) : state :=
  mk_state (u64 (m_size s + d)) (m_shutdown_requested s) (m_queue s) (wpcs s) (cpcs s) (detached s) (leaked s) (late s).
Definition set_queue (s : state) (q : list nat) : state :=
  mk_state (m_size s) (m_shutdown_requested s) q (wpcs s) (cpcs s) (detached s) (leaked s) (late s).

Definition all_exited (s : state) : bool :=
  forallb (fun w => match wpcs s w with WExit => true | _ => false end) (seq 0 N).
Definition any_blocked (s : state) : bool :=
  existsb (fun w => match wpcs s w with WBlocked => true | _ => false end) (seq 0 N).

(** m_wait_cv.notify_one(): wakes one blocked thread if there is one. *)
Definition notify_one (s : state) (w : nat) : option state :=
  match wpcs s w with
  | WBlocked => if decide (w < N) then Some (set_w s w WWait) else None
  | _ => if any_blocked s then None else Some s
  end.
Definition notify_all (s : state) : state :=
  mk_state (m_size s) (m_shutdown_requested s) (m_queue s)
    (fun w => match wpcs s w with WBlocked => WWait | p => p end) (cpcs s) (detached s) (leaked s) (late s).

(** m_queue.emplace_back *)
Definition emplace_back (s : state) (hs : list nat) : state :=
  mk_state (m_size s) (m_shutdown_requested s) (m_queue s ++ hs) (wpcs s) (cpcs s) (detached s) (leaked s)
    (if all_exited s then late s ++ hs else late s).

(** auto handle = m_queue.front(); m_queue.pop_front(); ...; handle.resume() *)
Definition take (s : state) (w : nat) (d : bool) : option (state * list event) :=
  match m_queue s with
  | h :: q => Some (set_queue (set_w s w (WRun d h)) q, [EvRun h])
  | [] => None
  end.

(** thread_pool::executor *)
Definition exec_worker (s : state) (w : nat) : option (state * list event) :=
  match wpcs s w with
  | WLoop => Some (set_w s w (if m_shutdown_requested s then DLoop else WWait), [])
  | WWait =>
      match m_queue s with
      | [] => if m_shutdown_requested s then Some (set_w s w WLoop, []) else Some (set_w s w WBlocked, [])
      | _ => take s w false
      end
  | WSub d => Some (add_size (set_w s w (if d then DLoop else WLoop)) (-1), [])
  | DLoop => if (m_size s >? 0)%Z then Some (set_w s w DCheck, []) else Some (set_w s w WExit, [EvExit w])
  | DCheck =>
      match m_queue s with
      | [] => Some (set_w s w WExit, [EvExit w])
      | _ => take s w true
      end
  | WBlocked | WRun _ _ | WExit => None
  end.

(** ** What counts in m_size *)

Definition wsize (p : wpc) : nat := match p with WRun _ _ | WSub _ => 1 | _ => 0 end.
Definition csize (p : cpc) : nat :=
  match p with
  | CEnter _ => 1
  | CLoad k _ | CUndo k _ | CEnqueue k _ => match k with KSpawn => 2 | _ => 1 end
  | CRange hs => length hs
  | CNulls nulls _ => nulls
  | _ => 0
  end.

(** The coroutines queued, executed, on their way into the queue, and detached. *)
Definition total (s : state) : nat :=
  length (m_queue s) + sum_below (fun w => wsize (wpcs s w)) N + sum_below (fun c => csize (cpcs s c)) M +
  detached s + leaked s.

Definition fits (s : state) (n : nat) : bool := (Z.of_nat (total s + n) <=? u64_max)%Z.

(** The non-null handles of a range. *)
Definition handles (hs : list (option nat)) : list nat := omap (fun h => h) hs.

(** A detached task is under way. *)
Definition spawned (s : state) (k : kind) : state :=
  mk_state (m_size s) (m_shutdown_requested s) (m_queue s) (wpcs s) (cpcs s)
    (match k with KSpawn => S (detached s) | _ => detached s end) (leaked s) (late s).

(** resume(range), after the fetch_add: the critical section, the null handles, the
    notifications *)
Definition exec_resume_range (s : state) (c w : nat) (p : cpc) : option (state * list event) :=
  match p with
  | CRange hs =>
      let total := length (handles hs) in
      Some (emplace_back (set_c s c (CNulls (length hs - total) total)) (handles hs), map EvEnqueue (handles hs))
  | CNulls nulls total =>
      Some (add_size (set_c s c (if N <=? total then CNotifyAll else CNotify total)) (- Z.of_nat nulls), [])
  | CNotify 0 => Some (set_c s c CIdle, [])
  | CNotify (S k) =>
      match notify_one (set_c s c (CNotify k)) w with Some s1 => Some (s1, []) | None => None end
  | CNotifyAll => Some (notify_all (set_c s c CIdle), [])
  | _ => None
  end.

(** schedule(), resume(), spawn_detached(), shutdown(), and the steps of resume(range) *)
Definition exec_client (s : state) (c w : nat) : option (state * list event) :=
  match cpcs s c with
  | CIdle => None
  | CEnter h => if fits s 1 then Some (add_size (set_c s c (CLoad KSpawn h)) 1, []) else None
  | CLoad k h => Some (set_c s c (if m_shutdown_requested s then CUndo k h else CEnqueue k h), [])
  | CUndo k h =>
      let s1 := add_size (set_c s c CIdle) (-1) in
      let s2 := mk_state (m_size s1) (m_shutdown_requested s1) (m_queue s1) (wpcs s1) (cpcs s1)
                  (detached s1) (match k with KSpawn => S (leaked s1) | _ => leaked s1 end) (late s1) in
      Some (s2, match k with KSchedule => [EvThrow h] | _ => [EvRefused h] end)
  | CEnqueue k h =>               (* schedule_impl: enqueue and notify_one in one critical section *)
      match notify_one (spawned (emplace_back (set_c s c CIdle) [h]) k) w with
      | Some s1 => Some (s1, EvEnqueue h :: match k with KSchedule => [] | _ => [EvAccepted h] end)
      | None => None
      end
  | CRange _ as p | CNulls _ _ as p | CNotify _ as p | CNotifyAll as p => exec_resume_range s c w p
  | SNotify => Some (notify_all (set_c s c SJoin), [])
  | SJoin => if all_exited s then Some (set_c s c CIdle, [EvShutdownDone c]) else None
  end.

Definition exec (l : label) (s : state) : option (state * list event) :=
  match l with
  | LWorker w => if decide (w < N) then exec_worker s w else None
  | LSpurious w =>
      if decide (w < N) then match wpcs s w with WBlocked => Some (set_w s w WWait, []) | _ => None end else None
  | LReturned w =>
      if decide (w < N) then match wpcs s w with WRun d _ => Some (set_w s w (WSub d), []) | _ => None end else None
  | LCall c k h =>                (* the first m_size.fetch_add(1) of the operation *)
      if decide (c < M) then
        match cpcs s c with
        | CIdle =>
            if fits s 1 then
              Some (add_size (set_c s c (match k with KSpawn => CEnter h | _ => CLoad k h end)) 1, [])
            else None
        | _ => None
        end
      else None
  | LResumeRange c hs =>
      if decide (c < M) then
        match cpcs s c with
        | CIdle => if fits s (length hs) then Some (add_size (set_c s c (CRange hs)) (Z.of_nat (length hs)), []) else None
        | _ => None
        end
      else None
  | LClient c w => if decide (c < M) then exec_client s c w else None
  | LDetachedDone =>
      match detached s with
      | S n => Some (add_size (mk_state (m_size s) (m_shutdown_requested s) (m_queue s) (wpcs s) (cpcs s) n (leaked s) (late s)) (-1), [])
      | 0 => None
      end
  | LShutdown c =>                (* m_shutdown_requested.exchange(true): only the first one goes on *)
      if decide (c < M) then
        match cpcs s c with
        | CIdle =>
            if m_shutdown_requested s then Some (s, [])
            else Some (mk_state (m_size s) true (m_queue s) (wpcs s) ((cpcs s).[c ↦ SNotify]) (detached s) (leaked s) (late s), [])
        | _ => None
        end
      else None
  end.

(** ** Invariants *)

Definition size_ok (s : state) : Prop :=
  m_size s = Z.of_nat (total s) /\ (Z.of_nat (total s) <= u64_max)%Z.

Definition draining (p : wpc) : bool :=
  match p with WRun true _ | WSub true | DLoop | DCheck | WExit => true | _ => false end.
Definition active (p : wpc) : bool := match p with WBlocked | WExit => false | _ => true end.
Definition notifying (p : cpc) : bool :=
  match p with CNulls _ (S _) | CNotify (S _) | CNotifyAll => true | _ => false end.

Definition awake (s : state) : Prop := m_queue s <> [] -> m_shutdown_requested s = false -> 0 < N ->
  (exists w, w < N /\ active (wpcs s w) = true) \/ (exists c, c < M /\ notifying (cpcs s c) = true).

Record phases (s : state) : Prop := {
  i_drain w : w < N -> draining (wpcs s w) = true -> m_shutdown_requested s = true;
  i_shut : m_shutdown_requested s = true ->
    (exists c, c < M /\ cpcs s c = SNotify) \/ (forall w, w < N -> wpcs s w <> WBlocked);
  i_late : if all_exited s then m_queue s = late s else late s = []
}.

Record inv (s : state) : Prop := { i_size : size_ok s; i_awake : awake s; i_phases : phases s }.

(** What a moving agent adds to the sums of [total]. *)
Ltac sums :=
  unfold total in *; cbn;
  repeat match goal with
  | |- context [sum_below (fun j => ?g (upd ?f ?i ?x j)) ?n] =>
      lazymatch goal with
      | _ : sum_below (fun j => g (upd f i x j)) n + _ = _ |- _ => fail
      | _ => pose proof (sum_move g f i x n ltac:(assumption))
      end
  end.

Lemma omap_length_le (hs : list (option nat)) : length (handles hs) <= length hs.
Proof. unfold handles. induction hs as [|[h|] hs IH]; cbn; lia. Qed.

Lemma size_add s s1 d : m_size s = Z.of_nat (total s) -> (Z.of_nat (total s) <= u64_max)%Z ->
  m_size s1 = u64 (m_size s + d) -> (Z.of_nat (total s1) = Z.of_nat (total s) + d)%Z ->
  (Z.of_nat (total s1) <= u64_max)%Z -> size_ok s1.
Proof.
  intros H1 H2 H3 H4 H5. split; [|done]. rewrite H3, H1, u64_small by lia. lia.
Qed.

Lemma size_keep s s1 : size_ok s -> m_size s1 = m_size s -> total s1 = total s -> size_ok s1.
Proof. intros [H1 H2] E1 E2. split; by rewrite ?E1, E2. Qed.

Lemma fits_le s n : fits s n = true -> (Z.of_nat (total s + n) <= u64_max)%Z.
Proof. unfold fits. apply Z.leb_le. Qed.

Lemma take_size s w d s' ev : w < N -> wsize (wpcs s w) = 0 -> take s w d = Some (s', ev) -> size_ok s -> size_ok s'.
Proof.
  unfold take. intros Hw H0 He Hs. destruct (m_queue s) as [|h q] eqn:Hq; [done|]. injection He as <- <-.
  apply (size_keep s); [done..|]. sums. rewrite Hq. cbn in *. lia.
Qed.

Lemma worker_size s w s' ev : w < N -> exec_worker s w = Some (s', ev) -> size_ok s -> size_ok s'.
Proof.
  unfold exec_worker. intros Hw He Hs.
  destruct (wpcs s w) as [| | |d h|d| | |] eqn:Hp; try done.
  - injection He as <- <-. apply (size_keep s); [done..|]. sums. rewrite Hp in *. destruct (m_shutdown_requested s); cbn in *; lia.
  - destruct (m_queue s) eqn:Hq.
    + destruct (m_shutdown_requested s); injection He as <- <-; (apply (size_keep s); [done..|]); sums; rewrite Hp in *; cbn in *; lia.
    + eapply take_size; [done| |done..]. by rewrite Hp.
  - injection He as <- <-. destruct Hs as [H1 H2].
    apply (size_add s _ (-1)); [done..| |]; sums; rewrite Hp in *; destruct d; cbn in *; lia.
  - destruct (m_size s >? 0)%Z; injection He as <- <-; (apply (size_keep s); [done..|]); sums; rewrite Hp in *; cbn in *; lia.
  - destruct (m_queue s) eqn:Hq.
    + injection He as <- <-; (apply (size_keep s); [done..|]); sums; rewrite Hp in *; cbn in *; lia.
    + eapply take_size; [done| |done..]. by rewrite Hp.
Qed.

Lemma all_exited_true s : all_exited s = true <-> forall w, w < N -> wpcs s w = WExit.
Proof.
  unfold all_exited. rewrite forallb_forall. setoid_rewrite in_seq. split.
  - intros H w Hw. specialize (H w ltac:(lia)). by destruct (wpcs s w).
  - intros H w Hw. by rewrite H by lia.
Qed.

Lemma all_exited_ext s s' : (forall w, w < N -> wpcs s' w = WExit <-> wpcs s w = WExit) -> all_exited s' = all_exited s.
Proof.
  intros H. apply eq_true_iff_eq. rewrite !all_exited_true. split; intros Hw w Hn; apply H, Hw; done.
Qed.

Lemma any_blocked_false s : any_blocked s = false -> forall w, w < N -> wpcs s w <> WBlocked.
Proof.
  unfold any_blocked. intros H w Hw Hb. rewrite <- not_true_iff_false, existsb_exists in H. apply H.
  exists w. rewrite in_seq, Hb. split; [lia|done].
Qed.

(** notify_one touches one blocked thread at most, and if any is blocked it wakes one. *)
Lemma notify_one_spec s w s' : notify_one s w = Some s' ->
  (s' = s /\ forall v, v < N -> wpcs s v <> WBlocked) \/ (w < N /\ wpcs s w = WBlocked /\ s' = set_w s w WWait).
Proof.
  unfold notify_one. intros He. destruct (wpcs s w) eqn:Hp.
  3: { destruct (decide (w < N)); [|done]. injection He as <-. by right. }
  all: destruct (any_blocked s) eqn:Hb; [done|]; injection He as <-; left; split; [done|]; by apply any_blocked_false.
Qed.

Lemma notify_one_size s w s' : notify_one s w = Some s' -> size_ok s -> size_ok s'.
Proof.
  intros [[-> _]|(Hw & Hp & ->)]%notify_one_spec Hs; [done|]. apply (size_keep s); [done..|].
  sums. rewrite Hp in *. cbn in *. lia.
Qed.

Lemma notify_all_size s : size_ok s -> size_ok (notify_all s).
Proof.
  intros Hs. apply (size_keep s); [done..|]. unfold total. cbn. f_equal. f_equal. f_equal. f_equal.
  apply sum_ext. intros v _. by destruct (wpcs s v).
Qed.

Lemma client_size s c w s' ev : c < M -> exec_client s c w = Some (s', ev) -> size_ok s -> size_ok s'.
Proof.
  unfold exec_client, exec_resume_range. intros Hc He Hs.
  destruct (cpcs s c) as [|h|k h|k h|k h|hs|nulls n|[|k]| | |] eqn:Hp; try done.
  - destruct (fits s 1) eqn:Hf; [|done]. apply fits_le in Hf. injection He as <- <-. destruct Hs as [H1 H2].
    apply (size_add s _ 1); [done..| |]; sums; rewrite Hp in *; cbn in *; lia.
  - injection He as <- <-. apply (size_keep s); [done..|]. sums. rewrite Hp in *. destruct (m_shutdown_requested s); cbn in *; lia.
  - injection He as <- <-. destruct Hs as [H1 H2].
    apply (size_add s _ (-1)); [done..| |]; sums; rewrite Hp in *; destruct k; cbn in *; lia.
  - destruct (notify_one _ w) as [s1|] eqn:Hn; [|done]. injection He as <- <-.
    apply (notify_one_size _ _ _ Hn). apply (size_keep s); [done..|]. sums. rewrite length_app, Hp in *. cbn in *. destruct k; lia.
  - injection He as <- <-. apply (size_keep s); [done..|]. sums. rewrite length_app, Hp in *. cbn in *.
    pose proof (omap_length_le hs). unfold handles in *. lia.
  - injection He as <- <-. destruct Hs as [H1 H2].
    apply (size_add s _ (- Z.of_nat nulls)); [done..| |]; sums; rewrite Hp in *; destruct (N <=? n); cbn in *; lia.
  - injection He as <- <-. apply (size_keep s); [done..|]. sums. rewrite Hp in *. cbn in *. lia.
  - destruct (notify_one _ w) as [s1|] eqn:Hn; [|done]. injection He as <- <-.
    apply (notify_one_size _ _ _ Hn). apply (size_keep s); [done..|]. sums. rewrite Hp in *. cbn in *. lia.
  - injection He as <- <-. apply notify_all_size. apply (size_keep s); [done..|]. sums. rewrite Hp in *. cbn in *. lia.
  - injection He as <- <-. apply notify_all_size. apply (size_keep s); [done..|]. sums. rewrite Hp in *. cbn in *. lia.
  - destruct (all_exited s); [|done]. injection He as <- <-. apply (size_keep s); [done..|]. sums. rewrite Hp in *. cbn in *. lia.
Qed.

Lemma not_all_exited s w : w < N -> wpcs s w <> WExit -> all_exited s = false.
Proof. intros Hw Hp. apply not_true_iff_false. rewrite all_exited_true. auto. Qed.

(** An executor thread moves on. *)
Lemma worker_move s s' w p : w < N -> wpcs s w <> WExit -> wpcs s' = (wpcs s).[w ↦ p] -> cpcs s' = cpcs s ->
  m_shutdown_requested s' = m_shutdown_requested s -> late s' = late s ->
  (draining p = true -> m_shutdown_requested s = true) ->
  (p = WBlocked -> m_queue s' = [] /\ m_shutdown_requested s = false) -> (p = WExit -> m_queue s' = []) ->
  phases s -> awake s' /\ phases s'.
Proof.
  intros Hw Hne Ew Ec Es El Hd Hb Hx [D S L]. split; [|split]; unfold awake; rewrite ?Ew, ?Ec, ?Es.
  - intros Hq _ _. left. exists w. rewrite upd_eq. split; [done|]. destruct p; try done; exfalso; apply Hq; [apply Hb|apply Hx]; done.
  - intros v Hv. upd_cases; [auto|]. by apply D.
  - intros Hs. destruct (S Hs) as [|Hn]; [by left|right]. intros v Hv. upd_cases; [|auto]. intros ->. destruct (Hb eq_refl). congruence.
  - rewrite (not_all_exited s w Hw Hne) in L. rewrite El, L. destruct (all_exited s') eqn:Ha; [|done].
    apply Hx. rewrite all_exited_true in Ha. specialize (Ha w Hw). by rewrite Ew, upd_eq in Ha.
Qed.

Lemma take_move s w d s' ev : w < N -> wpcs s w <> WExit -> (d = true -> m_shutdown_requested s = true) ->
  take s w d = Some (s', ev) -> phases s -> awake s' /\ phases s'.
Proof.
  unfold take. intros Hw Hp Hd He P. destruct (m_queue s) as [|h q]; [done|]. injection He as <- <-.
  apply (worker_move s _ w (WRun d h)); try done. by destruct d.
Qed.

Lemma worker_phases s w s' ev : w < N -> exec_worker s w = Some (s', ev) -> inv s -> awake s' /\ phases s'.
Proof.
  unfold exec_worker. intros Hw He [[Z1 Z2] _ P]. pose proof (i_drain s P w Hw) as D.
  destruct (wpcs s w) as [| | |d h|d| | |] eqn:Hp; try done; cbn in D.
  - injection He as <- <-. eapply (worker_move s _ w); [done|by rewrite Hp|done..| | | |done];
      destruct (m_shutdown_requested s); done.
  - destruct (m_queue s) eqn:Hq.
    + destruct (m_shutdown_requested s) eqn:Hs; injection He as <- <-;
        (eapply (worker_move s _ w); [done|by rewrite Hp|done..]).
    + eapply take_move; [done|by rewrite Hp|..|exact He|exact P]. done.
  - injection He as <- <-. eapply (worker_move s _ w); [done|by rewrite Hp|done..| | | |done]; by destruct d.
  - assert ((m_size s >? 0)%Z = false -> m_queue s = []) as Hq.
    { intros H0. apply length_zero_iff_nil. rewrite Z.gtb_ltb in H0. apply Z.ltb_ge in H0. unfold total in Z1. lia. }
    destruct (m_size s >? 0)%Z eqn:H0; injection He as <- <-;
      (eapply (worker_move s _ w); [done|by rewrite Hp|done..| | | |done]); cbn; auto; done.
  - destruct (m_queue s) eqn:Hq.
    + injection He as <- <-. eapply (worker_move s _ w); [done|by rewrite Hp|done..| | | |done]; cbn; auto; done.
    + eapply take_move; [done|by rewrite Hp|..|exact He|exact P]. auto.
Qed.

(** A client moves on and possibly puts [hs] into the queue. *)
Lemma client_phases s s' c p hs : cpcs s c <> SNotify -> wpcs s' = wpcs s -> cpcs s' = (cpcs s).[c ↦ p] ->
  m_shutdown_requested s' = m_shutdown_requested s -> m_queue s' = m_queue s ++ hs ->
  late s' = (if all_exited s then late s ++ hs else late s) -> phases s -> phases s'.
Proof.
  intros Hc Ew Ec Es Eq El [D S L]. assert (all_exited s' = all_exited s) as Ea by (apply all_exited_ext; by rewrite Ew).
  split; rewrite ?Ew, ?Ec, ?Es.
  - done.
  - intros Hs. destruct (S Hs) as [(c' & Hc' & Hp)|]; [left|by right]. exists c'. split; [done|].
    rewrite upd_ne; [done|]. intros ->. done.
  - rewrite Ea, Eq, El. destruct (all_exited s); [by rewrite L|done].
Qed.

Lemma client_awake s s' c p : c < M -> wpcs s' = wpcs s -> cpcs s' = (cpcs s).[c ↦ p] ->
  m_shutdown_requested s' = m_shutdown_requested s -> (m_queue s' = m_queue s \/ notifying p = true) ->
  (notifying (cpcs s c) = true -> notifying p = true) -> awake s -> awake s'.
Proof.
  unfold awake. intros Hc Ew Ec Es Eq Hn A. rewrite Ew, Ec, Es. intros Hq Hs H0.
  destruct Eq as [Eq|Hp]; [|right; exists c; by rewrite upd_eq]. rewrite Eq in Hq.
  destruct (A Hq Hs H0) as [|(c' & Hc' & Hp)]; [by left|right]. exists c'. split; [done|]. upd_cases; auto.
Qed.

(** After a notification somebody is awake. *)
Lemma nobody_blocked_awake s : (forall w, w < N -> wpcs s w <> WBlocked) -> phases s -> awake s.
Proof.
  intros Hb P Hq Hs H0. left. exists 0. split; [done|]. specialize (Hb 0 H0). pose proof (i_drain s P 0 H0) as D.
  destruct (wpcs s 0); try done. by rewrite D in Hs.
Qed.

Lemma notify_one_inv s w s' : notify_one s w = Some s' -> phases s -> awake s' /\ phases s'.
Proof.
  intros [[-> Hb]|(Hw & Hp & ->)]%notify_one_spec P; [split; [by apply nobody_blocked_awake|done]|].
  apply (worker_move s _ w WWait); try done. by rewrite Hp.
Qed.

Lemma notify_all_inv s : (forall w, w < N -> draining (wpcs s w) = true -> m_shutdown_requested s = true) ->
  (if all_exited s then m_queue s = late s else late s = []) -> awake (notify_all s) /\ phases (notify_all s).
Proof.
  intros D L. assert (phases (notify_all s)) as P.
  { split; cbn.
    - intros w Hw. specialize (D w Hw). destruct (wpcs s w); done.
    - intros _. right. intros w Hw. by destruct (wpcs s w).
    - assert (all_exited (notify_all s) = all_exited s) as ->; [|done].
      apply all_exited_ext. intros w Hw. cbn. by destruct (wpcs s w). }
  split; [|done]. apply nobody_blocked_awake; [|done]. intros w Hw. cbn. by destruct (wpcs s w).
Qed.

(** A client step that leaves the queue alone: nobody falls asleep, the phases stay. *)
Ltac client_quiet s Hp := eapply (client_awake s); try done; cbn; rewrite ?Hp; try done; by left.
Ltac client_phase s c Hp := eapply (client_phases s _ c _ []); try done; cbn; rewrite ?Hp, ?app_nil_r; done.

Lemma client_step s c w s' ev : c < M -> exec_client s c w = Some (s', ev) -> inv s -> awake s' /\ phases s'.
Proof.
  unfold exec_client, exec_resume_range. intros Hc He [_ A P].
  assert (late s = if all_exited s then late s ++ [] else late s) as Hl0 by (rewrite app_nil_r; by destruct (all_exited s)).
  destruct (cpcs s c) as [|h|k h|k h|k h|hs|nulls n|[|k]| | |] eqn:Hp; try done.
  - destruct (fits s 1); [|done]. injection He as <- <-. split.
    + client_quiet s Hp.
    + client_phase s c Hp.
  - injection He as <- <-. split.
    + client_quiet s Hp.
    + client_phase s c Hp.
  - injection He as <- <-. split.
    + client_quiet s Hp.
    + client_phase s c Hp.
  - destruct (notify_one _ w) as [s1|] eqn:Hn; [|done]. injection He as <- <-. apply (notify_one_inv _ _ _ Hn).
    eapply (client_phases s _ c CIdle [h]); try done; cbn; by rewrite Hp.
  - injection He as <- <-. split.
    + destruct (handles hs) as [|h l] eqn:Hh.
      * eapply (client_awake s); try done; cbn; rewrite ?Hh, ?Hp, ?app_nil_r; try done; by left.
      * eapply (client_awake s); try done; cbn; rewrite ?Hh, ?Hp; try done; by right.
    + eapply (client_phases s _ c _ (handles hs)); try done; cbn; by rewrite Hp.
  - injection He as <- <-. split.
    + eapply (client_awake s); try done; cbn; [by left|]. rewrite Hp. destruct n; [done|]. by destruct (N <=? S n).
    + client_phase s c Hp.
  - injection He as <- <-. split.
    + client_quiet s Hp.
    + client_phase s c Hp.
  - destruct (notify_one _ w) as [s1|] eqn:Hn; [|done]. injection He as <- <-. apply (notify_one_inv _ _ _ Hn).
    client_phase s c Hp.
  - injection He as <- <-. apply notify_all_inv; apply P.
  - injection He as <- <-. apply notify_all_inv; apply P.
  - destruct (all_exited s) eqn:Ha; [|done]. injection He as <- <-. split.
    + client_quiet s Hp.
    + eapply (client_phases s _ c _ []); try done; cbn; rewrite ?Hp, ?Ha, ?app_nil_r; done.
Qed.

(** A client that starts an operation. *)
Lemma call_step s s' c p : c < M -> cpcs s c = CIdle -> wpcs s' = wpcs s -> cpcs s' = (cpcs s).[c ↦ p] ->
  m_shutdown_requested s' = m_shutdown_requested s -> m_queue s' = m_queue s -> late s' = late s ->
  awake s -> phases s -> awake s' /\ phases s'.
Proof.
  intros Hc Hp Ew Ec Es Eq El A P. split.
  - eapply client_awake; [..|done]; try done; [by left|by rewrite Hp].
  - apply (client_phases s s' c p []); try done; [by rewrite Hp|by rewrite app_nil_r|].
    rewrite app_nil_r. by destruct (all_exited s).
Qed.

Lemma tp_shutdown_step s c s' ev : c < M -> exec (LShutdown c) s = Some (s', ev) -> inv s -> inv s'.
Proof.
  cbn. intros Hc He I. rewrite decide_True in He by done. destruct (cpcs s c) eqn:Hp; try done.
  destruct (m_shutdown_requested s); injection He as <- <-; [done|]. destruct I as [Z A P]. split.
  - apply (size_keep s); [done..|]. sums. rewrite Hp in *. cbn in *. lia.
  - done.
  - destruct P as [D S L]. split; cbn; [done| |].
    + intros _. left. exists c. by rewrite upd_eq.
    + assert (all_exited (mk_state (m_size s) true (m_queue s) (wpcs s) ((cpcs s).[c ↦ SNotify]) (detached s) (leaked s) (late s))
        = all_exited s) as -> by (by apply all_exited_ext). done.
Qed.

Lemma tp_exec_inv l s s' ev : inv s -> exec l s = Some (s', ev) -> inv s'.
Proof.
  intros I He. destruct l as [w|w|w|c k h|c hs|c w| |c]; try (by eapply tp_shutdown_step; [..|done|done]; cbn in He; destruct (decide (c < M))).
  all: cbn in He; try (case_decide as Hd; [|done]).
  - destruct (worker_phases s w s' ev Hd He I). split; [|done..]. by eapply worker_size; [..|apply I].
  - destruct (wpcs s w) eqn:Hp; try done. injection He as <- <-. destruct I as [Z A P].
    destruct (worker_move s (set_w s w WWait) w WWait) as [? ?]; try done; [by rewrite Hp|]. split; [|done..].
    apply (size_keep s); [done..|]. sums. rewrite Hp in *. cbn in *. lia.
  - destruct (wpcs s w) as [| | |d h| | | |] eqn:Hp; try done. injection He as <- <-. destruct I as [Z A P].
    destruct (worker_move s (set_w s w (WSub d)) w (WSub d)) as [? ?]; try done; [by rewrite Hp| |].
    { intros Hdr. apply (i_drain s P w Hd). rewrite Hp. by destruct d. }
    split; [|done..]. apply (size_keep s); [done..|]. sums. rewrite Hp in *. cbn in *. lia.
  - destruct (cpcs s c) eqn:Hp; try done. destruct (fits s 1) eqn:Hf; [|done]. injection He as <- <-.
    destruct I as [[Z1 Z2] A P]. edestruct (call_step s) as [? ?]; [exact Hd|exact Hp|..|split; [|done..]]; try done.
    apply fits_le in Hf. apply (size_add s _ 1); [done..| |]; sums; rewrite Hp in *; destruct k; cbn in *; lia.
  - destruct (cpcs s c) eqn:Hp; try done. destruct (fits s (length hs)) eqn:Hf; [|done]. injection He as <- <-.
    destruct I as [[Z1 Z2] A P]. edestruct (call_step s) as [? ?]; [exact Hd|exact Hp|..|split; [|done..]]; try done.
    apply fits_le in Hf. apply (size_add s _ (Z.of_nat (length hs))); [done..| |]; sums; rewrite Hp in *; cbn in *; lia.
  - destruct (client_step s c w s' ev Hd He I). split; [|done..]. by eapply client_size; [..|apply I].
  - destruct (detached s) as [|n] eqn:Hn; [done|]. injection He as <- <-. destruct I as [[Z1 Z2] A [D S L]]. split.
    + apply (size_add s _ (-1)); [done..| |]; sums; rewrite ?Hn in *; cbn in *; lia.
    + done.
    + split; try done.
Qed.

Lemma tp_init_inv : inv init.
Proof.
  split; [|by intros []|].
  - split; unfold total, u64_max; cbn.
    + assert (forall n, sum_below (fun _ => 0) n = 0) as H by (intros n; induction n; done). by rewrite !H.
    + assert (forall n, sum_below (fun _ => 0) n = 0) as H by (intros n; induction n; done). rewrite !H. cbn. lia.
  - split; cbn; try done. by destruct (all_exited init).
Qed.

(** ** What is run *)

Definition enqueued (tr : list event) : list nat := omap (fun e => match e with EvEnqueue h => Some h | _ => None end) tr.
Definition runs (tr : list event) : list nat := omap (fun e => match e with EvRun h => Some h | _ => None end) tr.

Lemma enqueued_map hs : enqueued (map EvEnqueue hs) = hs /\ runs (map EvEnqueue hs) = [].
Proof. induction hs as [|h hs [IH1 IH2]]; [done|]. split; [exact (f_equal (cons h) IH1)|exact IH2]. Qed.

Lemma take_fifo s w d s' ev : take s w d = Some (s', ev) -> m_queue s ++ enqueued ev = runs ev ++ m_queue s'.
Proof. unfold take. destruct (m_queue s) as [|h q]; [done|]. intros [= <- <-]. cbn. by rewrite app_nil_r. Qed.

Lemma notify_one_queue s w s' : notify_one s w = Some s' -> m_queue s' = m_queue s.
Proof. intros [[-> _]|(_ & _ & ->)]%notify_one_spec; done. Qed.

Lemma tp_step_fifo l s s' ev : exec l s = Some (s', ev) -> m_queue s ++ enqueued ev = runs ev ++ m_queue s'.
Proof.
  intros He. destruct l as [w|w|w|c k h|c hs|c w| |c]; cbn in He; try (case_decide as Hd; [|done]).
  - unfold exec_worker in He. destruct (wpcs s w) eqn:Hp; try done.
    + injection He as <- <-. by rewrite app_nil_r.
    + destruct (m_queue s) eqn:Hq; [|rewrite <- Hq; by eapply take_fifo].
      destruct (m_shutdown_requested s); injection He as <- <-; cbn; by rewrite Hq.
    + injection He as <- <-. cbn. by rewrite app_nil_r.
    + destruct (m_size s >? 0)%Z; injection He as <- <-; cbn; by rewrite app_nil_r.
    + destruct (m_queue s) eqn:Hq; [|rewrite <- Hq; by eapply take_fifo].
      injection He as <- <-; cbn; by rewrite Hq.
  - destruct (wpcs s w); try done. injection He as <- <-. by rewrite app_nil_r.
  - destruct (wpcs s w); try done. injection He as <- <-. by rewrite app_nil_r.
  - destruct (cpcs s c); try done. destruct (fits s 1); [|done]. injection He as <- <-. by rewrite app_nil_r.
  - destruct (cpcs s c); try done. destruct (fits s (length hs)); [|done]. injection He as <- <-. by rewrite app_nil_r.
  - unfold exec_client, exec_resume_range in He. destruct (cpcs s c) as [|h|k h|k h|k h|hs|nulls n|[|k]| | |] eqn:Hp; try done.
    + destruct (fits s 1); [|done]. injection He as <- <-. by rewrite app_nil_r.
    + injection He as <- <-. by rewrite app_nil_r.
    + injection He as <- <-. destruct k; cbn; by rewrite app_nil_r.
    + destruct (notify_one _ w) as [s1|] eqn:Hn; [|done]. injection He as <- <-.
      apply notify_one_queue in Hn. rewrite Hn. by destruct k.
    + injection He as <- <-. destruct (enqueued_map (handles hs)) as [-> ->]. done.
    + injection He as <- <-. by rewrite app_nil_r.
    + injection He as <- <-. by rewrite app_nil_r.
    + destruct (notify_one _ w) as [s1|] eqn:Hn; [|done]. injection He as <- <-.
      apply notify_one_queue in Hn. rewrite Hn. by rewrite app_nil_r.
    + injection He as <- <-. by rewrite app_nil_r.
    + injection He as <- <-. by rewrite app_nil_r.
    + destruct (all_exited s); [|done]. injection He as <- <-. cbn. by rewrite app_nil_r.
  - destruct (detached s); [done|]. injection He as <- <-. by rewrite app_nil_r.
  - destruct (cpcs s c); try done. destruct (m_shutdown_requested s); injection He as <- <-; by rewrite app_nil_r.
Qed.

Lemma exited_stays l s s' ev : exec l s = Some (s', ev) -> all_exited s = true -> all_exited s' = true.
Proof.
  rewrite !all_exited_true. intros He Ha v Hv. specialize (Ha v Hv).
  assert (forall w p, wpcs s w <> WExit -> ((wpcs s).[w ↦ p]) v = WExit) as Hu.
  { intros w p Hw. rewrite upd_ne; [done|]. intros ->. done. }
  assert (forall s1 w s2, notify_one s1 w = Some s2 -> wpcs s1 v = WExit -> wpcs s2 v = WExit) as Hno.
  { intros s1 w s2 [[-> _]|(_ & Hp & ->)]%notify_one_spec Hx; [done|]. cbn. rewrite upd_ne; [done|]. intros ->. congruence. }
  destruct l as [w|w|w|c k h|c hs|c w| |c]; cbn in He; try (case_decide as Hd; [|done]).
  - unfold exec_worker, take in He. destruct (wpcs s w) eqn:Hp; try done.
    all: repeat case_match; simplify_eq; cbn; apply Hu; congruence.
  - destruct (wpcs s w) eqn:Hp; try done. injection He as <- <-. apply Hu. congruence.
  - destruct (wpcs s w) eqn:Hp; try done. injection He as <- <-. apply Hu. congruence.
  - repeat case_match; by simplify_eq.
  - repeat case_match; by simplify_eq.
  - unfold exec_client, exec_resume_range in He. destruct (cpcs s c) as [|h|k h|k h|k h|hs|nulls n|[|k]| | |] eqn:Hp; try done.
    all: repeat case_match; simplify_eq; try done.
    all: try (cbn; by rewrite Ha). all: eapply Hno; [eassumption|done].
  - repeat case_match; by simplify_eq.
  - repeat case_match; by simplify_eq.
Qed.

Lemma shutdown_done l s s' ev c : exec l s = Some (s', ev) -> EvShutdownDone c ∈ ev -> all_exited s' = true.
Proof.
  intros He Hin. assert (all_exited s = true) as Ha; [|by eapply exited_stays].
  destruct l as [w|w|w|c' k h|c' hs|c' w| |c']; cbn in He; try (case_decide as Hd; [|done]).
  2-5,7-8: repeat case_match; simplify_eq; by apply elem_of_nil in Hin.
  - exfalso. unfold exec_worker, take in He. repeat case_match; simplify_eq; try (by apply elem_of_nil in Hin); by apply list_elem_of_singleton in Hin.
  - unfold exec_client, exec_resume_range in He. destruct (cpcs s c') as [|h|k h|k h|k h|hs|nulls n|[|k]| | |] eqn:Hp; try done.
    all: try (destruct (all_exited s) eqn:Ha; [done|]; discriminate He).
    all: exfalso; repeat case_match; simplify_eq; repeat (apply elem_of_cons in Hin as [Hin|Hin]; [discriminate Hin|]);
      try (by apply elem_of_nil in Hin).
    apply list_elem_of_In, in_map_iff in Hin as (x & Hx & _). discriminate Hx.
Qed.

Lemma tp_reach_ok s tr : reach exec init s tr ->
  inv s /\ enqueued tr = runs tr ++ m_queue s /\ (forall c, EvShutdownDone c ∈ tr -> all_exited s = true).
Proof.
  revert s tr. apply (reach_inv exec (fun s tr => inv s /\ enqueued tr = runs tr ++ m_queue s /\
    (forall c, EvShutdownDone c ∈ tr -> all_exited s = true))).
  - split; [apply tp_init_inv|]. split; [done|]. intros c Hc. by apply elem_of_nil in Hc.
  - intros s tr l s' ev (I & Hf & Hsd) He. split; [by eapply tp_exec_inv|]. split.
    + unfold enqueued, runs in *. rewrite !omap_app, Hf, <- !app_assoc. f_equal. by eapply tp_step_fifo.
    + intros c [Hc|Hc]%elem_of_app; [eapply exited_stays; eauto|eapply shutdown_done; eauto].
Qed.


(** size() is exact: m_size is the number of coroutines that are queued, being
    executed, on their way into the queue, or detached and not finished, plus the
    increments leaked by refused spawn_detached() calls; it never wraps. *)
Theorem thread_pool_size s tr :
  reach exec init s tr ->
  m_size s = Z.of_nat (length (m_queue s) + sum_below (fun w => wsize (wpcs s w)) N +
                       sum_below (fun c => csize (cpcs s c)) M + detached s + leaked s).
Proof. intros Hr. by destruct (tp_reach_ok s tr Hr) as ([[? _] _ _] & _). Qed.

(** [C22] No lost wake-up: as long as the pool runs and something is queued, some executor
    is awake or some client has its notification still to make; and once shutdown() has
    made its notification no executor is left blocked. *)
Theorem thread_pool_no_lost_wakeup s tr :
  reach exec init s tr ->
  (m_queue s <> [] -> m_shutdown_requested s = false -> 0 < N ->
     (exists w, w < N /\ active (wpcs s w) = true) \/ (exists c, c < M /\ notifying (cpcs s c) = true)) /\
  (m_shutdown_requested s = true -> (forall c, c < M -> cpcs s c <> SNotify) -> forall w, w < N -> wpcs s w <> WBlocked).
Proof.
  intros Hr. destruct (tp_reach_ok s tr Hr) as ([_ A P] & _). split; [exact A|].
  intros Hs Hn. destruct (i_shut s P Hs) as [(c & Hc & Hp)|]; [by destruct (Hn c Hc)|done].
Qed.

(** Shutdown: when shutdown() has returned every executor has left, and everything
    that was put into the queue before the last one left has been resumed; what is
    still in the queue was put there afterwards. *)
Theorem thread_pool_shutdown_drains s tr c :
  reach exec init s tr -> EvShutdownDone c ∈ tr ->
  (forall w, w < N -> wpcs s w = WExit) /\ m_queue s = late s /\ enqueued tr = runs tr ++ late s.
Proof.
  intros Hr Hc. destruct (tp_reach_ok s tr Hr) as ([_ _ P] & Hf & Hsd). specialize (Hsd c Hc).
  pose proof (i_late s P) as L. rewrite Hsd in L. split; [by apply all_exited_true|]. split; [done|]. by rewrite <- L.
Qed.
End thread_pool.

(** *** Witnesses: one executor, two clients *)
Definition one_task : list label :=
  [LWorker 0; LWorker 0; LCall 0 KResume 7; LClient 0 0; LClient 0 0; LWorker 0; LReturned 0; LWorker 0;
   LShutdown 1; LWorker 0; LWorker 0; LClient 1 0; LClient 1 0].

Example one_task_trace : option_map snd (run (exec 1 2) one_task init) =
  Some [EvEnqueue 7; EvAccepted 7; EvRun 7; EvExit 0; EvShutdownDone 1].
Proof. vm_compute. reflexivity. Qed.


Lemma thread_pool_size_witness :
  exists s tr, run (exec 1 2) one_task init = Some (s, tr) /\
    m_size s = Z.of_nat (length (m_queue s) + sum_below (fun w => wsize (wpcs s w)) 1 +
                         sum_below (fun c => csize (cpcs s c)) 2 + detached s + leaked s).
Proof.
  destruct (run (exec 1 2) one_task init) as [[s tr]|] eqn:Hrun; [|vm_compute in Hrun; discriminate].
  exists s, tr. split; [reflexivity|]. apply (thread_pool_size 1 2 s tr). exact (run_reach _ _ _ _ _ Hrun).
Defined.

(** The executor is blocked; a client has put a handle into the queue with resume(range) and
    has still to notify.  Then shutdown() is called and has made its notification. *)
Definition queued_not_notified : list label := [LWorker 0; LWorker 0; LResumeRange 0 [Some 7]; LClient 0 0].
Definition blocked_shutdown : list label := [LWorker 0; LWorker 0; LShutdown 1; LClient 1 0].

Lemma thread_pool_no_lost_wakeup_witness :
  (exists s tr, run (exec 1 2) queued_not_notified init = Some (s, tr) /\
     m_queue s = [7] /\ m_shutdown_requested s = false /\ wpcs s 0 = WBlocked /\
     ((exists w, w < 1 /\ active (wpcs s w) = true) \/ (exists c, c < 2 /\ notifying (cpcs s c) = true))) /\
  (exists s tr, run (exec 1 2) blocked_shutdown init = Some (s, tr) /\ m_shutdown_requested s = true /\ wpcs s 0 <> WBlocked).
Proof.
  split.
  - destruct (run (exec 1 2) queued_not_notified init) as [[s tr]|] eqn:Hrun; [|vm_compute in Hrun; discriminate].
    exists s, tr. split; [reflexivity|].
    assert (m_queue s = [7] /\ m_shutdown_requested s = false /\ wpcs s 0 = WBlocked) as (Hq & Hs & Hw)
      by (vm_compute in Hrun; by injection Hrun as <- _).
    split_and!; [exact Hq|exact Hs|exact Hw|].
    apply (proj1 (thread_pool_no_lost_wakeup 1 2 s tr (run_reach _ _ _ _ _ Hrun))); [by rewrite Hq|exact Hs|lia].
  - destruct (run (exec 1 2) blocked_shutdown init) as [[s tr]|] eqn:Hrun; [|vm_compute in Hrun; discriminate].
    exists s, tr. split; [reflexivity|].
    assert (m_shutdown_requested s = true) as Hs by (vm_compute in Hrun; by injection Hrun as <- _).
    split; [exact Hs|]. apply (proj2 (thread_pool_no_lost_wakeup 1 2 s tr (run_reach _ _ _ _ _ Hrun))); [exact Hs| |lia].
    intros [|[|c]] Hc; [..|lia]; vm_compute in Hrun; by injection Hrun as <- _.
Defined.

Lemma one_task_done s tr : run (exec 1 2) one_task init = Some (s, tr) -> EvShutdownDone 1 ∈ tr.
Proof. intros Hrun. vm_compute in Hrun. injection Hrun as _ <-. repeat constructor. Qed.

Lemma thread_pool_shutdown_drains_witness :
  exists s tr, run (exec 1 2) one_task init = Some (s, tr) /\ m_queue s = late s /\ enqueued tr = runs tr ++ late s.
Proof.
  destruct (run (exec 1 2) one_task init) as [[s tr]|] eqn:Hrun; [|vm_compute in Hrun; discriminate].
  exists s, tr. split; [reflexivity|].
  apply (thread_pool_shutdown_drains 1 2 s tr 1 (run_reach _ _ _ _ _ Hrun) (one_task_done s tr Hrun)).
Defined.

(** A handle can be accepted and never run: resume() increments m_size and finds the
    pool running; shutdown() intervenes, and the executor, which finds m_size positive
    but the queue empty, leaves; the handle is enqueued into a pool without executors,
    and resume() returns true. *)
Theorem thread_pool_accepts_and_loses :
  exists ls s tr, run (exec 1 2) ls init = Some (s, tr) /\
    EvAccepted 7 ∈ tr /\ EvShutdownDone 1 ∈ tr /\ (7 ∉ runs tr) /\ m_queue s = [7] /\ wpcs s 0 = WExit.
Proof.
  exists [LCall 0 KResume 7; LClient 0 0; LShutdown 1; LClient 1 0; LWorker 0; LWorker 0; LWorker 0; LClient 1 0; LClient 0 0].
  destruct (run (exec 1 2) _ init) as [[s tr]|] eqn:Hrun; [|vm_compute in Hrun; discriminate].
  exists s, tr. split; [done|]. vm_compute in Hrun. injection Hrun as <- <-. cbn.
  split_and!; try done; [repeat constructor..|]. by intros ?%elem_of_nil.
Qed.

(** A refused spawn_detached() leaves m_size one too high for good: the increment is
    undone by the final callback of a task that never runs. *)
Theorem spawn_detached_refused_leaks :
  exists ls s tr, run (exec 1 2) ls init = Some (s, tr) /\
    tr = [EvRefused 7] /\ m_queue s = [] /\ detached s = 0 /\ (forall c, c < 2 -> csize (cpcs s c) = 0) /\ m_size s = 1%Z.
Proof.
  exists [LShutdown 1; LCall 0 KSpawn 7; LClient 0 0; LClient 0 0; LClient 0 0].
  destruct (run (exec 1 2) _ init) as [[s tr]|] eqn:Hrun; [|vm_compute in Hrun; discriminate].
  exists s, tr. split; [done|]. vm_compute in Hrun. injection Hrun as <- <-.
  split_and!; try done. intros [|[|c]] Hc; [done..|lia].
Qed.
End ThreadPool.
