(* ===== verification/IoNotifier.v ===== *)
(** * Polling and the epoll notifier
    (include/coro/poll.hpp, src/poll.cpp, include/coro/detail/poll_info.hpp,
    include/coro/detail/io_notifier_epoll.hpp, src/detail/io_notifier_epoll.cpp,
    include/coro/net/io_status.hpp, src/net/io_status.cpp)

    [Poll] has the enumerations and their conversions, [Udata] the packing of a
    poll_info pointer and two flags into the 64 bits epoll carries around,
    [TimerSpec] the arming of the timerfd, and [IoNotifier] the notifier over the
    kernel's interest list, of which only the documented behaviour of epoll_ctl is
    assumed (the class [Epoll]). *)
From stdpp Require Import base list option numbers gmap strings.
From Stdlib Require Import ZArith Lia.
From S2P Require Import Prelude.

Module Poll.
Local Open Scope Z_scope.

(** The bits of <sys/epoll.h>. *)
Definition EPOLLIN : Z := 0x1.
Definition EPOLLOUT : Z := 0x4.
Definition EPOLLERR : Z := 0x8.
Definition EPOLLHUP : Z := 0x10.
Definition EPOLLRDHUP : Z := 0x2000.
Definition EPOLLONESHOT : Z := 0x40000000.
Definition EPOLLET : Z := 0x80000000.

Inductive poll_op := op_read | op_write | op_read_write.
Definition op_bits (op : poll_op) : Z :=
  match op with op_read => EPOLLIN | op_write => EPOLLOUT | op_read_write => Z.lor EPOLLIN EPOLLOUT end.
Definition poll_op_readable (op : poll_op) : bool := negb (Z.land (op_bits op) (op_bits op_read) =? 0).
Definition poll_op_writeable (op : poll_op) : bool := negb (Z.land (op_bits op) (op_bits op_write) =? 0).

Inductive poll_status := read | write | timeout | error | closed | cancelled.

Definition op_to_string (op : poll_op) : string :=
  match op with op_read => "read" | op_write => "write" | op_read_write => "read_write" end.
Definition status_to_string (st : poll_status) : string :=
  match st with
  | read => "read" | write => "write" | timeout => "timeout" | error => "error" | closed => "closed"
  | _ => "unknown"
  end.

#[global] Instance poll_status_eq_dec : EqDecision poll_status.
Proof. solve_decision. Defined.

(** io_notifier_epoll::event_to_poll_status; [None]: throws *)
Definition event_to_poll_status (events : Z) : option poll_status :=
  let has bits := negb (Z.land events bits =? 0) in
  if has (op_bits op_read) then Some read
  else if has (op_bits op_write) then Some write
  else if has EPOLLERR then Some error
  else if has EPOLLRDHUP || has EPOLLHUP then Some closed
  else None.

Lemma land_lor_zero a b c : Z.land a (Z.lor b c) = 0 <-> Z.land a b = 0 /\ Z.land a c = 0.
Proof. rewrite Z.land_lor_distr_r. apply Z.lor_eq_0_iff. Qed.

(** An event with any bit that was asked for, or that epoll always reports, has a
    status; a bare error is told from a hang-up, and data to read wins. *)
Lemma event_to_poll_status_total events :
  Z.land events (Z.lor (op_bits op_read_write) (Z.lor EPOLLERR (Z.lor EPOLLRDHUP EPOLLHUP))) <> 0 <->
  event_to_poll_status events <> None.
Proof.
  unfold op_bits, event_to_poll_status. rewrite !land_lor_zero.
  cbn [op_bits].
  destruct (Z.eqb_spec (Z.land events EPOLLIN) 0), (Z.eqb_spec (Z.land events EPOLLOUT) 0),
    (Z.eqb_spec (Z.land events EPOLLERR) 0), (Z.eqb_spec (Z.land events EPOLLRDHUP) 0),
    (Z.eqb_spec (Z.land events EPOLLHUP) 0); cbn; split; try done; intros H; try (by destruct H); tauto.
Qed.

(** The names tell the statuses apart, but for cancelled, which has none. *)
Lemma status_to_string_inj a b : a <> cancelled -> b <> cancelled -> status_to_string a = status_to_string b -> a = b.
Proof. destruct a, b; done. Qed.
Lemma status_to_string_cancelled : status_to_string cancelled = "unknown".
Proof. reflexivity. Qed.
Lemma op_to_string_inj a b : op_to_string a = op_to_string b -> a = b.
Proof. destruct a, b; done. Qed.
End Poll.

Module Udata.
Local Open Scope Z_scope.

Definition b2z (b : bool) : Z := if b then 1 else 0.

(** encode_udata / decode_udata *)
Definition encode_udata (keep_registered is_cancel_event : bool) (udata : Z) : Z :=
  Z.lor (Z.lor (Z.shiftl (b2z keep_registered) 63) (Z.shiftl (b2z is_cancel_event) 62))
    (Z.land udata 0x3FFFFFFFFFFFFFFF).

Definition decode_udata (encoded : Z) : bool * bool * Z :=
  (negb (Z.shiftr encoded 63 =? 0), negb (Z.land (Z.shiftr encoded 62) 1 =? 0), Z.land encoded 0xFFFFFFFFFFFF).

(** Bits that do not overlap add up. *)
Lemma lor_shiftl_add b a n : 0 <= n -> 0 <= a < 2 ^ n -> Z.lor (Z.shiftl b n) a = b * 2 ^ n + a.
Proof.
  intros Hn Ha. rewrite <- Z.shiftl_mul_pow2 by done.
  assert (Z.land (Z.shiftl b n) a = 0) as H0.
  { apply Z.bits_inj'. intros i Hi. rewrite Z.land_spec, Z.shiftl_spec, Z.bits_0 by done.
    destruct (Z.ltb_spec i n) as [Hlt|Hge]; [by rewrite (Z.testbit_neg_r b) by lia|].
    rewrite <- (Z.mod_small a (2 ^ n)) by done. by rewrite Z.mod_pow2_bits_high, andb_false_r by lia. }
  rewrite <- Z.lxor_lor by done. by rewrite Z.add_nocarry_lxor.
Qed.

Lemma encode_arith k c p : encode_udata k c p = (2 * b2z k + b2z c) * 2 ^ 62 + p mod 2 ^ 62.
Proof.
  unfold encode_udata. change 0x3FFFFFFFFFFFFFFF with (Z.ones 62). rewrite Z.land_ones by lia.
  rewrite <- lor_shiftl_add by (try apply Z.mod_pos_bound; lia). f_equal. by destruct k, c.
Qed.

Lemma decode_encode keep cancel p : decode_udata (encode_udata keep cancel p) = (keep, cancel, p mod 2 ^ 48).
Proof.
  assert (0 <= p mod 2 ^ 62 < 2 ^ 62) as Hm by (apply Z.mod_pos_bound; lia).
  unfold decode_udata. rewrite encode_arith. set (m := p mod 2 ^ 62) in *.
  rewrite !Z.shiftr_div_pow2 by lia. change 0xFFFFFFFFFFFF with (Z.ones 48). change 1 with (Z.ones 1).
  rewrite !Z.land_ones by lia.
  assert (((2 * b2z keep + b2z cancel) * 2 ^ 62 + m) / 2 ^ 62 = 2 * b2z keep + b2z cancel) as E2.
  { rewrite Z.div_add_l by lia. rewrite Z.div_small by done. lia. }
  assert (((2 * b2z keep + b2z cancel) * 2 ^ 62 + m) / 2 ^ 63 = b2z keep) as E1.
  { change (2 ^ 63) with (2 ^ 62 * 2). rewrite <- Z.div_div, E2 by lia. by destruct keep, cancel. }
  rewrite E1, E2. f_equal; [f_equal; by destruct keep, cancel|].
  replace ((2 * b2z keep + b2z cancel) * 2 ^ 62) with ((2 * b2z keep + b2z cancel) * 2 ^ 14 * 2 ^ 48)
    by (change (2 ^ 62) with (2 ^ 14 * 2 ^ 48); lia).
  rewrite Z.add_comm, Z_mod_plus_full. subst m. apply Z.mod_mod_divide. by exists (2 ^ 14).
Qed.

(** [C29] The user data of an epoll event: decoding gives back the two flags, whatever the
    pointer, and the low 48 bits of the pointer - the pointer itself exactly when it fits
    in 48 bits, as the addresses of a 4-level page table do. *)
Theorem udata_roundtrip keep cancel p :
  0 <= p < 2 ^ 64 ->
  decode_udata (encode_udata keep cancel p) = (keep, cancel, p mod 2 ^ 48) /\
  (decode_udata (encode_udata keep cancel p) = (keep, cancel, p) <-> p < 2 ^ 48) /\
  0 <= encode_udata keep cancel p < 2 ^ 64.
Proof.
  intros Hp. assert (0 <= p mod 2 ^ 62 < 2 ^ 62) as Hm by (apply Z.mod_pos_bound; lia).
  rewrite decode_encode. split; [done|]. split.
  - split; [intros [= Hq]; rewrite <- Hq; by apply Z.mod_pos_bound|].
    intros Hq. by rewrite Z.mod_small by lia.
  - rewrite encode_arith. destruct keep, cancel; cbn [b2z]; lia.
Qed.

Lemma udata_roundtrip_witness :
  decode_udata (encode_udata true false 0x7ffd12345678) = (true, false, 0x7ffd12345678).
Proof. apply (udata_roundtrip true false 0x7ffd12345678); [lia|reflexivity]. Defined.
End Udata.

Module TimerSpec.
Local Open Scope Z_scope.

(** io_notifier_epoll::watch_timer: the itimerspec for a duration in nanoseconds
    (durations are 64-bit; duration_cast truncates towards zero) *)
Definition ns_per_s : Z := 1000000000.
Definition watch_timer (duration : Z) : Z * Z :=
  let seconds := Z.quot duration ns_per_s in
  let nanoseconds := duration - seconds * ns_per_s in
  if seconds <=? 0 then (0, if nanoseconds <=? 0 then 1 else nanoseconds)
  else (seconds, nanoseconds).

(** unwatch_timer *)
Definition unwatch_timer : Z * Z := (0, 0).

(** When a timerfd with this it_value fires, from the moment it is set; zero disarms. *)
Definition fires_after (ts : Z * Z) : option Z :=
  let ns := fst ts * ns_per_s + snd ts in if ns =? 0 then None else Some ns.

Lemma arms duration :
  let ts := watch_timer duration in
  0 <= fst ts /\ 0 <= snd ts < ns_per_s /\ fires_after ts = Some (Z.max 1 duration).
Proof.
  unfold watch_timer, fires_after. pose proof (Z.quot_rem' duration ns_per_s) as Hqr.
  pose proof (Z.rem_bound_abs duration ns_per_s ltac:(done)) as Hb.
  pose proof (Z.rem_sign_mul duration ns_per_s ltac:(done)) as Hs.
  set (q := Z.quot duration ns_per_s) in *. set (r := Z.rem duration ns_per_s) in *.
  assert (ns_per_s = 1000000000) as Hn by done.
  assert (duration - q * ns_per_s = r) as Hr by lia. rewrite Hr.
  destruct (Z.leb_spec q 0) as [Hq|Hq]; [destruct (Z.leb_spec r 0) as [Hr0|Hr0]|]; cbn [fst snd].
  - rewrite Hn, Z.max_l by lia. done.
  - assert (0 < duration) as Hd by nia. assert (q = 0) as Hq0 by nia.
    destruct (Z.eqb_spec (0 * ns_per_s + r) 0); [lia|]. rewrite Z.max_r by lia. split; [lia|]. split; [lia|]. f_equal. nia.
  - assert (0 < duration) as Hd by nia. assert (0 <= r) by nia.
    destruct (Z.eqb_spec (q * ns_per_s + r) 0); [nia|]. rewrite Z.max_r by lia. split; [lia|]. split; [lia|]. f_equal. lia.
Qed.

(** [C30] Arming the timer for any duration, also zero or in the past, gives timerfd_settime
    a valid it_value (non-negative seconds, nanoseconds below one second) which is never
    the zero that would disarm it, and which fires after exactly the duration, at least
    one nanosecond. *)
Theorem watch_timer_arms duration :
  let ts := watch_timer duration in
  0 <= fst ts /\ 0 <= snd ts < ns_per_s /\ fires_after ts = Some (Z.max 1 duration).
Proof. apply arms. Qed.
End TimerSpec.

(** What the notifier relies on of epoll_ctl(2): the interest list, EPOLL_CTL_ADD of a
    descriptor that is not in it (EEXIST otherwise), EPOLL_CTL_DEL of one that is (ENOENT
    otherwise). *)
Class Epoll := {
  ep : Type;
  ep_empty : ep;
  ep_lookup : ep -> nat -> option (Z * Z);               (* events and data.u64, by descriptor *)
  ep_ctl_add : ep -> nat -> Z -> Z -> ep * bool;
  ep_ctl_del : ep -> nat -> ep * bool;
  ep_lookup_empty fd : ep_lookup ep_empty fd = None;
  ep_add_new s fd ev u : ep_lookup s fd = None ->
    snd (ep_ctl_add s fd ev u) = true /\
    forall g, ep_lookup (fst (ep_ctl_add s fd ev u)) g = if decide (g = fd) then Some (ev, u) else ep_lookup s g;
  ep_add_old s fd ev u : ep_lookup s fd <> None -> ep_ctl_add s fd ev u = (s, false);
  ep_del_spec s fd :
    snd (ep_ctl_del s fd) = bool_decide (ep_lookup s fd <> None) /\
    forall g, ep_lookup (fst (ep_ctl_del s fd)) g = if decide (g = fd) then None else ep_lookup s g
}.

Module IoNotifier.
Import Poll Udata.

Section notifier.
Context `{!Epoll}.

(** The fields of a poll_info the notifier uses; [pi_ptr] is its address. *)
Record poll_info := mk_poll_info {
  pi_ptr : Z;
  m_fd : nat;
  m_op : poll_op;
  m_cancel_trigger : option nat
}.

(** watch(fd, op, data, keep, is_cancel_event) *)
Definition watch_fd (s : ep) (fd : nat) (op : poll_op) (data : Z) (keep is_cancel_event : bool) : ep * bool :=
  let events := Z.lor (op_bits op) EPOLLRDHUP in
  let events := if negb keep then Z.lor events EPOLLONESHOT else Z.lor events EPOLLET in
  ep_ctl_add s fd events (encode_udata keep is_cancel_event data).

(** watch(poll_info&): the results of the two registrations are dropped *)
Definition watch (s : ep) (pi : poll_info) : ep * bool :=
  let s1 := fst (watch_fd s (m_fd pi) (m_op pi) (pi_ptr pi) false false) in
  match m_cancel_trigger pi with
  | Some c => (fst (watch_fd s1 c op_read (pi_ptr pi) false true), true)
  | None => (s1, true)
  end.

Definition unwatch_fd (s : ep) (fd : nat) : ep * bool := ep_ctl_del s fd.
Definition unwatch (s : ep) (pi : poll_info) : ep * bool := unwatch_fd s (m_fd pi).

(** One round of the loop of next_events, for the event ([events], [u64]) epoll_wait
    returned; [deref] reads the poll_info behind a pointer.  [None]: the exception of
    event_to_poll_status. *)
Definition next_event (deref : Z -> option nat * nat) (s : ep) (events u64 : Z) : option (ep * (Z * poll_status)) :=
  let '(keep_registered, is_cancel_event, udata) := decode_udata u64 in
  let '(cancel_trigger, fd) := deref udata in
  if is_cancel_event then
    Some (if negb keep_registered then fst (unwatch_fd s fd) else s, (udata, cancelled))
  else
    match event_to_poll_status events with
    | None => None
    | Some st =>
        Some (match cancel_trigger with
              | Some c => if negb keep_registered then fst (unwatch_fd s c) else s
              | None => s
              end, (udata, st))
    end.

(** How the event loop ends a poll: process_event_execute for an event of the descriptor
    or of the cancellation trigger, process_timeout_execute when the time is up. *)
Inductive ending := OnEvent (events : Z) | OnCancel | OnTimeout.

Definition finish (s : ep) (pi : poll_info) (e : ending) : option (ep * poll_status) :=
  let deref (_ : Z) := (m_cancel_trigger pi, m_fd pi) in
  match e with
  | OnEvent events =>
      match next_event deref s events (encode_udata false false (pi_ptr pi)) with
      | Some (s1, (_, st)) => Some (fst (unwatch s1 pi), st)
      | None => None
      end
  | OnCancel =>
      match next_event deref s EPOLLIN (encode_udata false true (pi_ptr pi)) with
      | Some (s1, (_, st)) => Some (fst (unwatch s1 pi), st)
      | None => None
      end
  | OnTimeout => Some (fst (unwatch s pi), timeout)
  end.

Definition fresh_for (s : ep) (pi : poll_info) : Prop :=
  ep_lookup s (m_fd pi) = None /\ (forall c, m_cancel_trigger pi = Some c -> ep_lookup s c = None /\ c <> m_fd pi) /\
  (0 <= pi_ptr pi < 2 ^ 48)%Z.

Lemma del_lookup s fd g : ep_lookup (fst (unwatch_fd s fd)) g = if decide (g = fd) then None else ep_lookup s g.
Proof. apply ep_del_spec. Qed.

Lemma watch_lookup s pi : fresh_for s pi -> forall g,
  ep_lookup (fst (watch s pi)) g =
    if decide (g = m_fd pi) then
      Some (Z.lor (Z.lor (op_bits (m_op pi)) EPOLLRDHUP) EPOLLONESHOT, encode_udata false false (pi_ptr pi))
    else if decide (Some g = m_cancel_trigger pi) then
      Some (Z.lor (Z.lor EPOLLIN EPOLLRDHUP) EPOLLONESHOT, encode_udata false true (pi_ptr pi))
    else ep_lookup s g.
Proof.
  intros (H1 & H2 & _) g. unfold watch, watch_fd. cbn [negb].
  destruct (ep_add_new s (m_fd pi) (Z.lor (Z.lor (op_bits (m_op pi)) EPOLLRDHUP) EPOLLONESHOT)
    (encode_udata false false (pi_ptr pi)) H1) as [_ A1].
  destruct (m_cancel_trigger pi) as [c|].
  - destruct (H2 c eq_refl) as [H3 H4]. cbn [fst].
    match goal with |- context [ep_ctl_add ?s1 c ?ev ?u] => destruct (ep_add_new s1 c ev u) as [_ A2] end.
    { rewrite A1. by rewrite decide_False. }
    rewrite A2. destruct (decide (g = c)) as [->|Hgc].
    + rewrite decide_False by done. by rewrite decide_True.
    + rewrite A1. destruct (decide (g = m_fd pi)); [done|]. rewrite decide_False; congruence.
  - cbn [fst]. rewrite A1. destruct (decide (g = m_fd pi)); [done|]. by rewrite decide_False.
Qed.

Lemma finish_lookup s pi e s' st : fresh_for s pi -> finish (fst (watch s pi)) pi e = Some (s', st) ->
  forall g, ep_lookup s' g =
    match e with
    | OnEvent _ => ep_lookup s g
    | _ => if decide (Some g = m_cancel_trigger pi)
           then Some (Z.lor (Z.lor EPOLLIN EPOLLRDHUP) EPOLLONESHOT, encode_udata false true (pi_ptr pi))
           else ep_lookup s g
    end.
Proof.
  intros Hf He g. pose proof Hf as (H1 & H2 & H3). unfold finish, next_event, unwatch in He.
  rewrite ?decode_encode in He. destruct e as [events| |].
  - destruct (event_to_poll_status events) as [st'|]; [|done].
    destruct (m_cancel_trigger pi) as [c|] eqn:Hct; injection He as <- <-; rewrite !del_lookup, watch_lookup, Hct by done.
    + destruct (H2 c eq_refl) as [H4 H5]. destruct (decide (g = m_fd pi)) as [->|]; [done|].
      destruct (decide (g = c)) as [->|]; [done|]. rewrite decide_False; [done|congruence].
    + destruct (decide (g = m_fd pi)) as [->|]; done.
  - injection He as <- <-. rewrite !del_lookup, watch_lookup by done. destruct (decide (g = m_fd pi)) as [->|]; [|done].
    rewrite decide_False; [done|]. intros Hg. by destruct (H2 _ (eq_sym Hg)).
  - injection He as <- <-. rewrite !del_lookup, watch_lookup by done. destruct (decide (g = m_fd pi)) as [->|]; [|done].
    rewrite decide_False; [done|]. intros Hg. by destruct (H2 _ (eq_sym Hg)).
Qed.

(** A poll that ends with an event of its descriptor leaves the interest list of epoll
    exactly as it found it, its cancellation trigger included; without a trigger so do
    all polls, however they end; the descriptor is registered in no case, so it can be
    polled again at once; and the status is the event's, cancelled or timeout. *)
Theorem poll_registration_balanced s pi e s' st :
  fresh_for s pi -> finish (fst (watch s pi)) pi e = Some (s', st) ->
  (match e with OnEvent _ => True | _ => m_cancel_trigger pi = None end -> forall g, ep_lookup s' g = ep_lookup s g) /\
  ep_lookup s' (m_fd pi) = None /\
  (match e with OnEvent events => event_to_poll_status events = Some st | OnCancel => st = cancelled | OnTimeout => st = timeout end).
Proof.
  intros Hf He. pose proof (finish_lookup s pi e s' st Hf He) as Hl. pose proof Hf as (H1 & H2 & _). split_and!.
  - intros Ht g. rewrite Hl. destruct e; [done|..]; by rewrite Ht.
  - rewrite Hl. destruct e; [done|..]; (destruct (decide (Some (m_fd pi) = m_cancel_trigger pi)) as [Hg|]; [|done]);
      by destruct (H2 _ (eq_sym Hg)).
  - unfold finish, next_event in He. rewrite ?decode_encode in He. destruct e as [events| |].
    + destruct (event_to_poll_status events); [|done]. congruence.
    + congruence.
    + congruence.
Qed.

(** A poll with a cancellation trigger that is cancelled or times out leaves the trigger
    in the interest list, with the address of its poll_info - which is gone as soon as the
    polling coroutine resumes; the next poll with the same trigger does not replace that
    registration, because the EEXIST of epoll_ctl is not looked at. *)
Theorem cancel_trigger_stays_registered s pi c e s' st pi2 :
  fresh_for s pi -> m_cancel_trigger pi = Some c -> e = OnCancel \/ e = OnTimeout ->
  finish (fst (watch s pi)) pi e = Some (s', st) ->
  m_cancel_trigger pi2 = Some c -> m_fd pi2 <> c -> ep_lookup s' (m_fd pi2) = None ->
  exists ev, ep_lookup s' c = Some (ev, encode_udata false true (pi_ptr pi)) /\
             ep_lookup (fst (watch s' pi2)) c = Some (ev, encode_udata false true (pi_ptr pi)).
Proof.
  intros Hf Hc Hend He Hc2 Hne Hfd2. pose proof (finish_lookup s pi e s' st Hf He c) as Hl. rewrite Hc, decide_True in Hl by done.
  eexists. assert (ep_lookup s' c = Some (Z.lor (Z.lor EPOLLIN EPOLLRDHUP) EPOLLONESHOT, encode_udata false true (pi_ptr pi))) as Hl'
    by (by destruct Hend as [-> | ->]). split; [exact Hl'|].
  unfold watch. rewrite Hc2. unfold watch_fd at 2.
  destruct (ep_add_new s' (m_fd pi2) (if negb false then Z.lor (Z.lor (op_bits (m_op pi2)) EPOLLRDHUP) EPOLLONESHOT
    else Z.lor (Z.lor (op_bits (m_op pi2)) EPOLLRDHUP) EPOLLET) (encode_udata false false (pi_ptr pi2)) Hfd2) as [_ A1].
  cbn [fst]. unfold watch_fd at 1. rewrite ep_add_old; cbn [fst]; rewrite A1, decide_False by congruence; [|by rewrite Hl'].
  exact Hl'.
Qed.
End notifier.

(** *** A concrete interest list, and the witnesses *)
#[refine] Instance epoll_map : Epoll := {|
  ep := gmap nat (Z * Z); ep_empty := ∅; ep_lookup := fun s fd => s !! fd;
  ep_ctl_add := fun s fd ev u => match s !! fd with Some _ => (s, false) | None => (<[fd := (ev, u)]> s, true) end;
  ep_ctl_del := fun s fd => match s !! fd with Some _ => (delete fd s, true) | None => (s, false) end |}.
Proof.
  - intros fd. apply lookup_empty.
  - intros s fd ev u H. rewrite H. split; [done|]. intros g. cbn. destruct (decide (g = fd)) as [->|].
    + apply lookup_insert_eq.
    + by apply lookup_insert_ne.
  - intros s fd ev u H. by destruct (s !! fd).
  - intros s fd. destruct (s !! fd) eqn:Hf; cbn; (split; [by rewrite ?bool_decide_eq_true_2|]); intros g;
      destruct (decide (g = fd)) as [->|]; try done; [apply lookup_delete_eq|by apply lookup_delete_ne].
Defined.

Section witnesses.
#[local] Existing Instance epoll_map.
Definition pi1 : poll_info := mk_poll_info 0x7f0000001000 5 op_read (Some 9).
Definition pi2 : poll_info := mk_poll_info 0x7f0000002000 6 op_read (Some 9).

Lemma fresh_pi1 : fresh_for ep_empty pi1.
Proof. split; [apply lookup_empty|]. split; [|cbn; lia]. intros c [= <-]. split; [apply lookup_empty|done]. Qed.

Lemma poll_registration_balanced_witness :
  exists s' st, finish (fst (watch ep_empty pi1)) pi1 (OnEvent EPOLLIN) = Some (s', st) /\ ep_lookup s' 5 = None.
Proof.
  destruct (finish (fst (watch ep_empty pi1)) pi1 (OnEvent EPOLLIN)) as [[s' st]|] eqn:He; [|vm_compute in He; discriminate].
  exists s', st. split; [reflexivity|]. exact (proj1 (proj2 (poll_registration_balanced ep_empty pi1 (OnEvent EPOLLIN) s' st fresh_pi1 He))).
Defined.

Lemma cancel_trigger_stays_registered_witness :
  exists s' st ev, finish (fst (watch ep_empty pi1)) pi1 OnTimeout = Some (s', st) /\
    ep_lookup (fst (watch s' pi2)) 9 = Some (ev, encode_udata false true (pi_ptr pi1)).
Proof.
  destruct (finish (fst (watch ep_empty pi1)) pi1 OnTimeout) as [[s' st]|] eqn:He; [|vm_compute in He; discriminate].
  destruct (cancel_trigger_stays_registered ep_empty pi1 9 OnTimeout s' st pi2 fresh_pi1 eq_refl (or_intror eq_refl) He
    eq_refl ltac:(done) ltac:(vm_compute in He; injection He as <- _; reflexivity)) as (ev & _ & H).
  exists s', st, ev. split; [reflexivity|exact H].
Defined.
End witnesses.
End IoNotifier.
