(* ===== verification/IoNotifierKqueue.v ===== *)
(** * The kqueue notifier (include/coro/detail/io_notifier_kqueue.hpp,
    src/detail/io_notifier_kqueue.cpp, the BSD half of include/coro/poll.hpp and of
    src/detail/timer_handle.cpp)

    The counterpart of [IoNotifier] for the BSDs, over the documented behaviour of kevent(2)
    (the class [Kqueue]): an entry per descriptor and filter, which EV_ADD replaces and an
    EV_ONESHOT event removes. *)
From stdpp Require Import base list option numbers gmap.
From Stdlib Require Import ZArith Lia.
From S2P Require Import Prelude IoNotifier.

(** What the notifier relies on of kevent(2). *)
Class Kqueue := {
  kq : Type;
  kq_empty : kq;
  kq_lookup : kq -> Z * Z -> option (Z * Z);             (* (ident, filter) to (flags, udata) *)
  kq_valid : Z * Z -> bool;                               (* the descriptor is open *)
  kq_add : kq -> Z * Z -> Z -> Z -> kq * bool;            (* EV_ADD *)
  kq_delete : kq -> Z * Z -> kq * bool;                   (* EV_DELETE *)
  kq_lookup_empty k : kq_lookup kq_empty k = None;
  kq_add_valid s k fl u : kq_valid k = true ->
    snd (kq_add s k fl u) = true /\
    forall g, kq_lookup (fst (kq_add s k fl u)) g = if decide (g = k) then Some (fl, u) else kq_lookup s g;
  kq_add_invalid s k fl u : kq_valid k = false -> kq_add s k fl u = (s, false);
  kq_delete_spec s k :
    snd (kq_delete s k) = bool_decide (kq_lookup s k <> None) /\
    forall g, kq_lookup (fst (kq_delete s k)) g = if decide (g = k) then None else kq_lookup s g
}.

Module IoNotifierKqueue.
Import Poll.
Local Open Scope Z_scope.

(** <sys/event.h> *)
Definition EVFILT_READ : Z := -1.
Definition EVFILT_WRITE : Z := -2.
Definition EVFILT_TIMER : Z := -7.
Definition EV_ADD : Z := 0x1.
Definition EV_ENABLE : Z := 0x4.
Definition EV_ONESHOT : Z := 0x10.
Definition EV_CLEAR : Z := 0x20.
Definition EV_ERROR : Z := 0x4000.
Definition EV_EOF : Z := 0x8000.

(** enum class poll_op : int64_t of the BSDs, and the two predicates over it *)
Definition op_value (op : poll_op) : Z :=
  match op with op_read => EVFILT_READ | op_write => EVFILT_WRITE | op_read_write => -5 end.
Definition poll_op_readable (op : poll_op) : bool := negb (Z.land (op_value op) (op_value op_read) =? 0).
Definition poll_op_writeable (op : poll_op) : bool := negb (Z.land (op_value op) (op_value op_write) =? 0).

(** The filters are negative numbers, not bits: every operation is both. *)
Lemma kqueue_op_predicates_constant op : poll_op_readable op = true /\ poll_op_writeable op = true.
Proof. by destruct op. Qed.

(** event_to_poll_status, of an event's filter and flags; [None]: it throws *)
Definition event_to_poll_status (filter flags : Z) : option poll_status :=
  let known := (filter =? EVFILT_READ) || (filter =? EVFILT_WRITE) || (filter =? EVFILT_TIMER) in
  let has bits := negb (Z.land flags bits =? 0) in
  if known && has EV_EOF then Some closed
  else if known && has EV_ERROR then Some error
  else if filter =? EVFILT_READ then Some read
  else if filter =? EVFILT_WRITE then Some write
  else if filter =? EVFILT_TIMER then Some read
  else None.

(** Every event of a filter that is registered has a status; only a timer or a readable
    descriptor without EV_EOF and EV_ERROR is read. *)
Lemma kqueue_status_total filter flags :
  event_to_poll_status filter flags = None <-> filter <> EVFILT_READ /\ filter <> EVFILT_WRITE /\ filter <> EVFILT_TIMER.
Proof.
  unfold event_to_poll_status.
  destruct (Z.eqb_spec filter EVFILT_READ), (Z.eqb_spec filter EVFILT_WRITE), (Z.eqb_spec filter EVFILT_TIMER); cbn;
    repeat case_match; split; try done; tauto.
Qed.

(** The two notifiers differ on a peer that has sent data and closed: epoll reports the
    data, kqueue the end of file, and the reader returns closed with the data unread. *)
Lemma kqueue_eof_hides_data :
  event_to_poll_status EVFILT_READ (Z.lor EV_EOF (Z.lor EV_ONESHOT EV_CLEAR)) = Some closed /\
  Poll.event_to_poll_status (Z.lor EPOLLIN EPOLLRDHUP) = Some read.
Proof. done. Qed.

(** next_events: the timespec of a timeout in milliseconds *)
Definition timeout_spec (timeout : Z) : Z * Z :=
  let timeout_as_secs := Z.quot timeout 1000 in
  (timeout_as_secs, (timeout - timeout_as_secs * 1000) * 1000000).

(** kevent accepts the timespec exactly when the timeout is not negative (otherwise
    the nanoseconds are negative or, from minus a second on, the seconds): the -1 that means
    "block indefinitely" for process_events is refused with EINVAL. *)
Lemma kqueue_timeout_valid timeout :
  (0 <= fst (timeout_spec timeout) /\ 0 <= snd (timeout_spec timeout) < 1000000000) <-> 0 <= timeout.
Proof.
  unfold timeout_spec. cbn [fst snd]. pose proof (Z.quot_rem' timeout 1000) as Hq.
  pose proof (Z.rem_bound_abs timeout 1000 ltac:(done)) as Hb.
  pose proof (Z.rem_sign_mul timeout 1000 ltac:(done)) as Hs. set (q := Z.quot timeout 1000) in *. set (r := Z.rem timeout 1000) in *.
  replace (timeout - q * 1000) with r by lia. split; [nia|]. intros Ht. assert (0 <= r) by nia. assert (0 <= q) by nia. lia.
Qed.

Section notifier.
Context {kqueue : Kqueue}.

(** The fields of a poll_info the notifier uses *)
Record poll_info := mk_poll_info { pi_ptr : Z; m_fd : Z; m_op : poll_op; m_cancel_trigger : option Z }.

(** watch_timer: the registration of the EVFILT_TIMER event, and the nanoseconds given with it *)
Definition watch_timer (s : kq) (timer_fd inner duration : Z) : kq * bool * Z :=
  let duration := if duration <? 0 then 0 else duration in
  (kq_add s (timer_fd, EVFILT_TIMER) (Z.lor (Z.lor EV_ADD EV_CLEAR) EV_ONESHOT) inner, duration).
Definition unwatch_timer (s : kq) (timer_fd : Z) : kq * bool := kq_delete s (timer_fd, EVFILT_TIMER).

(** watch(fd, op, data, keep) *)
Definition watch_mode (keep : bool) : Z :=
  let mode := Z.lor (Z.lor EV_ADD EV_CLEAR) EV_ENABLE in if negb keep then Z.lor mode EV_ONESHOT else mode.
Definition watch_fd (s : kq) (fd : Z) (op : poll_op) (data : Z) (keep : bool) : kq * bool :=
  kq_add s (fd, op_value op) (watch_mode keep) data.

(** watch(poll_info&): the descriptor, with a registration per filter, then the
    cancellation trigger, the result of which is dropped *)
Definition watch_op (s : kq) (pi : poll_info) : kq * bool :=
  match m_op pi with
  | op_read_write =>
      let '(s1, ok1) := watch_fd s (m_fd pi) op_read (pi_ptr pi) false in
      if negb ok1 then (s1, false) else watch_fd s1 (m_fd pi) op_write (pi_ptr pi) false
  | op => watch_fd s (m_fd pi) op (pi_ptr pi) false
  end.
Definition watch (s : kq) (pi : poll_info) : kq * bool :=
  let '(s1, ok) := watch_op s pi in
  if negb ok then (s1, false)
  else
    match m_cancel_trigger pi with
    | Some c => (fst (watch_fd s1 c op_read (pi_ptr pi) false), true)
    | None => (s1, true)
    end.

(** unwatch(fd, op) and unwatch(poll_info&) *)
Definition unwatch_fd (s : kq) (fd : Z) (op : poll_op) : kq * bool :=
  match op with
  | op_read_write => (fst (kq_delete (fst (kq_delete s (fd, EVFILT_READ))) (fd, EVFILT_WRITE)), true)
  | op => kq_delete s (fd, op_value op)
  end.
Definition unwatch (s : kq) (pi : poll_info) : kq * bool := unwatch_fd s (m_fd pi) (m_op pi).

(** One round of the loop of next_events, for the event (ident, filter, flags) of the
    poll_info [pi] *)
Definition next_event (s : kq) (pi : poll_info) (ident filter flags : Z) : option (kq * poll_status) :=
  let keep_registered := Z.land flags EV_ONESHOT =? 0 in
  if bool_decide (m_cancel_trigger pi = Some ident) then
    Some (if negb keep_registered then fst (unwatch s pi) else s, cancelled)
  else
    match event_to_poll_status filter flags with
    | None => None
    | Some st =>
        Some (match m_cancel_trigger pi with
              | Some c => if negb keep_registered then fst (unwatch_fd s c op_read) else s
              | None => s
              end, st)
    end.

(** kevent(2) returns an event of a registration: EV_ONESHOT removes it, and the flags come
    with what the kernel adds. *)
Definition fire (s : kq) (key : Z * Z) : kq :=
  match kq_lookup s key with
  | Some (fl, _) => if Z.land fl EV_ONESHOT =? 0 then s else fst (kq_delete s key)
  | None => s
  end.

(** How a poll ends: an event of its descriptor, of its cancellation trigger, the time. *)
Inductive ending := OnEvent (filter extra : Z) | OnCancel | OnTimeout.

Definition finish (s : kq) (pi : poll_info) (e : ending) : option (kq * poll_status) :=
  match e with
  | OnEvent filter extra =>
      match next_event (fire s (m_fd pi, filter)) pi (m_fd pi) filter (Z.lor (watch_mode false) extra) with
      | Some (s1, st) => Some (fst (unwatch s1 pi), st)
      | None => None
      end
  | OnCancel =>
      match m_cancel_trigger pi with
      | Some c =>
          match next_event (fire s (c, EVFILT_READ)) pi c EVFILT_READ (watch_mode false) with
          | Some (s1, st) => Some (fst (unwatch s1 pi), st)
          | None => None
          end
      | None => None
      end
  | OnTimeout => Some (fst (unwatch s pi), timeout)
  end.

(** *** Registration *)

Definition of_poll (pi : poll_info) (k : Z * Z) : bool :=
  bool_decide (fst k = m_fd pi) &&
  match m_op pi with
  | op_read_write => bool_decide (snd k = EVFILT_READ) || bool_decide (snd k = EVFILT_WRITE)
  | op => bool_decide (snd k = op_value op)
  end.
Definition of_trigger (pi : poll_info) (k : Z * Z) : bool := bool_decide (m_cancel_trigger pi = Some (fst k) /\ snd k = EVFILT_READ).

Definition kq_fresh (s : kq) (pi : poll_info) : Prop :=
  (forall k, of_poll pi k = true \/ of_trigger pi k = true -> kq_lookup s k = None /\ kq_valid k = true) /\
  m_cancel_trigger pi <> Some (m_fd pi).

Lemma kq_del s k g : kq_lookup (fst (kq_delete s k)) g = if decide (g = k) then None else kq_lookup s g.
Proof. apply kq_delete_spec. Qed.

Lemma unwatch_lookup s pi k : kq_lookup (fst (unwatch s pi)) k = if of_poll pi k then None else kq_lookup s k.
Proof.
  unfold unwatch, unwatch_fd, of_poll. destruct k as [i f]. cbn [fst snd].
  destruct (m_op pi); cbn [fst]; rewrite !kq_del; repeat case_bool_decide; repeat case_decide; cbn; naive_solver.
Qed.

Lemma trigger_lookup s pi c k : m_cancel_trigger pi = Some c ->
  kq_lookup (fst (kq_delete s (c, EVFILT_READ))) k = if of_trigger pi k then None else kq_lookup s k.
Proof.
  intros Hc. unfold of_trigger. rewrite kq_del. destruct k as [i f]. rewrite Hc. cbn.
  repeat case_bool_decide; repeat case_decide; naive_solver.
Qed.

Lemma kq_add_lookup s k fl u : kq_valid k = true ->
  exists s', kq_add s k fl u = (s', true) /\ forall g, kq_lookup s' g = if decide (g = k) then Some (fl, u) else kq_lookup s g.
Proof. intros Hv. destruct (kq_add_valid s k fl u Hv) as [H1 H2]. destruct (kq_add s k fl u) as [s' b]. cbn in *. subst b. eauto. Qed.

Lemma watch_op_lookup s pi : (forall k, of_poll pi k = true -> kq_valid k = true) ->
  exists s1, watch_op s pi = (s1, true) /\
    forall k, kq_lookup s1 k = if of_poll pi k then Some (watch_mode false, pi_ptr pi) else kq_lookup s k.
Proof.
  intros Hv. unfold watch_op, watch_fd. unfold of_poll in *. pose proof (fun f => Hv (m_fd pi, f)) as Hv'. cbn [fst snd] in Hv'.
  pose proof (fun s f => kq_add_lookup s (m_fd pi, f) (watch_mode false) (pi_ptr pi)) as A.
  destruct (m_op pi); cbn [op_value] in *.
  - destruct (A s EVFILT_READ) as (s1 & -> & L1); [apply Hv'; rewrite andb_true_iff; by rewrite !bool_decide_eq_true|]. exists s1. split; [done|].
    intros [i f]. rewrite L1. cbn. repeat case_bool_decide; repeat case_decide; naive_solver.
  - destruct (A s EVFILT_WRITE) as (s1 & -> & L1); [apply Hv'; rewrite andb_true_iff; by rewrite !bool_decide_eq_true|]. exists s1. split; [done|].
    intros [i f]. rewrite L1. cbn. repeat case_bool_decide; repeat case_decide; naive_solver.
  - destruct (A s EVFILT_READ) as (s1 & -> & L1); [apply Hv'; rewrite andb_true_iff, orb_true_iff, !bool_decide_eq_true; auto|]. cbn [negb].
    destruct (A s1 EVFILT_WRITE) as (s2 & -> & L2); [apply Hv'; rewrite andb_true_iff, orb_true_iff, !bool_decide_eq_true; auto|].
    exists s2. split; [done|]. intros [i f]. rewrite L2, L1. cbn. repeat case_bool_decide; repeat case_decide; naive_solver.
Qed.

(** Registering on open descriptors succeeds. *)
Lemma kq_watch_lookup s pi : kq_fresh s pi ->
  snd (watch s pi) = true /\
  forall k, kq_lookup (fst (watch s pi)) k =
    if of_trigger pi k then Some (watch_mode false, pi_ptr pi)
    else if of_poll pi k then Some (watch_mode false, pi_ptr pi) else kq_lookup s k.
Proof.
  intros [Hf _]. unfold watch. destruct (watch_op_lookup s pi) as (s1 & -> & H1); [intros; apply Hf; auto|]. cbn [negb].
  unfold of_trigger in *. destruct (m_cancel_trigger pi) as [c|].
  - split; [done|]. unfold watch_fd. cbn [fst op_value]. destruct (kq_add_lookup s1 (c, EVFILT_READ) (watch_mode false) (pi_ptr pi)) as (s2 & -> & H2).
    { apply Hf. right. by rewrite bool_decide_eq_true_2. }
    intros [i f]. cbn [fst]. rewrite H2, H1. cbn [fst snd]. repeat case_bool_decide; repeat case_decide; naive_solver.
  - split; [done|]. intros k. cbn [fst]. by rewrite H1, bool_decide_eq_false_2 by (by intros []).
Qed.

Lemma fire_lookup s pi key k : kq_fresh s pi -> of_poll pi key = true \/ of_trigger pi key = true ->
  kq_lookup (fire (fst (watch s pi)) key) k = if decide (k = key) then None else kq_lookup (fst (watch s pi)) k.
Proof.
  intros Hf Hk. unfold fire. assert (kq_lookup (fst (watch s pi)) key = Some (watch_mode false, pi_ptr pi)) as ->.
  { rewrite (proj2 (kq_watch_lookup s pi Hf)). destruct (of_trigger pi key); [done|]. destruct Hk as [-> |]; done. }
  replace (Z.land (watch_mode false) EV_ONESHOT =? 0) with false by reflexivity. apply kq_delete_spec.
Qed.

Lemma oneshot_flag extra : (Z.land (Z.lor (watch_mode false) extra) EV_ONESHOT =? 0) = false.
Proof.
  apply Z.eqb_neq. intros H. apply (f_equal (fun z => Z.testbit z 4)) in H.
  rewrite Z.land_spec, Z.lor_spec, Z.bits_0 in H. cbn in H. done.
Qed.

Definition valid_ending (pi : poll_info) (e : ending) : Prop :=
  match e with OnEvent filter _ => of_poll pi (m_fd pi, filter) = true | _ => True end.

(** The entry of the cancellation trigger stays only after a timeout. *)
Lemma kq_finish_lookup s pi e s' st : kq_fresh s pi -> valid_ending pi e -> finish (fst (watch s pi)) pi e = Some (s', st) ->
  forall k, kq_lookup s' k =
    match e with
    | OnTimeout => if of_trigger pi k then Some (watch_mode false, pi_ptr pi) else kq_lookup s k
    | _ => kq_lookup s k
    end.
Proof.
  intros Hfr Hv. pose proof Hfr as [Hf0 Hne]. pose proof (proj2 (kq_watch_lookup s pi Hfr)) as Hw.
  assert (forall k, of_poll pi k = true \/ of_trigger pi k = true -> kq_lookup s k = None) as Hf by (intros k Hk; by apply Hf0). destruct e as [filter extra| |]; cbn in Hv.
  - unfold finish, next_event. rewrite bool_decide_eq_false_2 by done. rewrite oneshot_flag. cbn [negb].
    destruct (event_to_poll_status filter _) as [st'|]; [|done].
    assert (forall k, kq_lookup (fire (fst (watch s pi)) (m_fd pi, filter)) k =
      if decide (k = (m_fd pi, filter)) then None else kq_lookup (fst (watch s pi)) k) as Hfire by (intros; apply fire_lookup; auto).
    destruct (m_cancel_trigger pi) as [c|] eqn:Hc; intros [= <- <-] k; rewrite unwatch_lookup, ?(trigger_lookup _ pi c k Hc), Hfire, Hw.
    + destruct (of_poll pi k) eqn:Hp; [by rewrite Hf by auto|]. destruct (of_trigger pi k) eqn:Ht; [by rewrite Hf by auto|].
      rewrite decide_False; [done|]. intros ->. congruence.
    + assert (of_trigger pi k = false) as -> by (unfold of_trigger; apply bool_decide_eq_false_2; rewrite Hc; by intros []).
      destruct (of_poll pi k) eqn:Hp; [by rewrite Hf by auto|]. rewrite decide_False; [done|]. intros ->. congruence.
  - unfold finish, next_event. destruct (m_cancel_trigger pi) as [c|] eqn:Hc; [|done]. rewrite bool_decide_eq_true_2 by done.
    replace (Z.land (watch_mode false) EV_ONESHOT =? 0) with false by reflexivity. cbn [negb].
    assert (forall k, of_trigger pi k = true <-> k = (c, EVFILT_READ)) as Ht.
    { intros [i f]. unfold of_trigger. rewrite bool_decide_eq_true, Hc. cbn. naive_solver. }
    intros [= <- <-] k. rewrite !unwatch_lookup, fire_lookup by (try (right; by apply Ht); done). rewrite Hw.
    destruct (of_poll pi k) eqn:Hp; [by rewrite Hf by auto|]. destruct (decide (k = (c, EVFILT_READ))) as [->|Hk].
    + rewrite Hf; [done|]. right. by apply Ht.
    + destruct (of_trigger pi k) eqn:E; [|done]. by apply Ht in E.
  - intros [= <- <-] k. rewrite unwatch_lookup, Hw. destruct (of_poll pi k) eqn:Hp; [|done].
    destruct (of_trigger pi k) eqn:Ht; [|by rewrite Hf by auto].
    exfalso. apply Hne. unfold of_trigger in Ht. apply bool_decide_eq_true in Ht as [Ht _].
    unfold of_poll in Hp. apply andb_true_iff in Hp as [Hp _]. apply bool_decide_eq_true in Hp. congruence.
Qed.

(** A poll that ends with an event of its descriptor (whichever of the filters of a
    read_write poll) or by cancellation leaves the kqueue exactly as it found it; after a
    timeout only the entry of its cancellation trigger is left, and the next poll with that
    trigger makes the entry its own. *)
Theorem kqueue_poll_balanced s pi e s' st :
  kq_fresh s pi -> valid_ending pi e -> finish (fst (watch s pi)) pi e = Some (s', st) ->
  (e <> OnTimeout \/ m_cancel_trigger pi = None -> forall k, kq_lookup s' k = kq_lookup s k) /\
  (forall f, kq_lookup s' (m_fd pi, f) = kq_lookup s (m_fd pi, f)) /\
  (forall pi2 c, m_cancel_trigger pi2 = Some c -> snd (watch s' pi2) = true -> kq_valid (c, EVFILT_READ) = true ->
     kq_lookup (fst (watch s' pi2)) (c, EVFILT_READ) = Some (watch_mode false, pi_ptr pi2)).
Proof.
  intros Hf Hv He. pose proof (kq_finish_lookup s pi e s' st Hf Hv He) as Hl. split_and!.
  - intros Hor k. rewrite Hl. destruct e; try done. destruct Hor as [Hor|Hor]; [done|].
    unfold of_trigger. rewrite bool_decide_eq_false_2; [done|]. rewrite Hor. by intros [].
  - intros f. rewrite Hl. destruct e; try done. unfold of_trigger. rewrite bool_decide_eq_false_2; [done|].
    intros [Hc _]. by apply (proj2 Hf).
  - intros pi2 c Hc. unfold watch. destruct (watch_op s' pi2) as [s1 ok]. destruct ok; cbn [negb]; [|done]. rewrite Hc.
    intros _ Hvc. unfold watch_fd. cbn [op_value]. destruct (kq_add_lookup s1 (c, EVFILT_READ) (watch_mode false) (pi_ptr pi2) Hvc) as (s2 & -> & H2).
    cbn [fst]. by rewrite H2, decide_True.
Qed.
End notifier.

(** *** A kqueue, and the witness *)
#[refine] Instance kqueue_map : Kqueue := {|
  kq := gmap (Z * Z) (Z * Z); kq_empty := ∅; kq_lookup := fun s k => s !! k;
  kq_valid := fun _ => true; kq_add := fun s k fl u => (<[k := (fl, u)]> s, true);
  kq_delete := fun s k => (delete k s, bool_decide (s !! k <> None)) |}.
Proof.
  - intros k. apply lookup_empty.
  - intros s k fl u _. split; [done|]. intros g. cbn. destruct (decide (g = k)) as [->|]; [apply lookup_insert_eq|by apply lookup_insert_ne].
  - done.
  - intros s k. split; [done|]. intros g. cbn. destruct (decide (g = k)) as [->|]; [apply lookup_delete_eq|by apply lookup_delete_ne].
Defined.

Section witnesses.
#[local] Existing Instance kqueue_map.
Definition kpi : poll_info := mk_poll_info 4096 5 op_read_write (Some 9).

Lemma kqueue_poll_balanced_witness :
  exists s' st, finish (fst (watch kq_empty kpi)) kpi (OnEvent EVFILT_WRITE EV_EOF) = Some (s', st) /\
    forall k, kq_lookup s' k = kq_lookup kq_empty k.
Proof.
  destruct (finish (fst (watch kq_empty kpi)) kpi (OnEvent EVFILT_WRITE EV_EOF)) as [[s' st]|] eqn:E; [|vm_compute in E; discriminate].
  exists s', st. split; [reflexivity|]. refine (proj1 (kqueue_poll_balanced kq_empty kpi _ s' st _ _ E) _); [|reflexivity|by left].
  split; [intros k _; split; [apply kq_lookup_empty|done]|done].
Defined.
End witnesses.
End IoNotifierKqueue.
