(* ===== verification/Fd.v ===== *)
(** * File descriptors: pipe_t and net::socket
    (include/coro/detail/pipe.hpp, src/detail/pipe.cpp, include/coro/net/socket.hpp,
    src/net/socket.cpp)

    [Pipe] has the descriptors as the integers of the code, with the calls of
    ::close() each operation makes.  [Socket] is the ownership of descriptors by
    socket objects, on the same account of owners as the coroutine handles: an
    open descriptor is an identifier that is never reused, so that closing one
    twice, or closing somebody else's, would show. *)
From stdpp Require Import base list option numbers.
From Stdlib Require Import ZArith Lia.
From S2P Require Import Prelude Task IoNotifier.

Module Pipe.
Local Open Scope Z_scope.

(** m_fds *)
Definition fds : Type := Z * Z.

(** The member initialiser m_fds{-1}, and the {-1} of std::exchange: an aggregate
    initialises the elements it has no initialiser for with zero. *)
Definition minus_one : fds := (-1, 0).

(** pipe_t::close(): the descriptors that are closed, and what m_fds is afterwards *)
Definition close (p : fds) : list Z * fds :=
  ((if fst p =? -1 then [] else [fst p]) ++ (if snd p =? -1 then [] else [snd p]), (-1, -1)).

(** pipe_t::pipe_t() with the result of ::pipe(), [None]: throws *)
Definition make (res : option fds) : option fds := res.
(** pipe_t(pipe_t&&) and operator=(pipe_t&&): the new object, the moved-from one *)
Definition move (other : fds) : fds * fds := (other, minus_one).
Definition move_assign (this other : fds) (same : bool) : fds * fds :=
  if same then (this, other) else (other, minus_one).
(** pipe_t(const pipe_t&) and operator=(const pipe_t&), with what dup() returns *)
Definition copy_assign (this other : fds) (dup : Z -> Z) (same : bool) : fds :=
  if same then this else (dup (fst other), dup (snd other)).
Definition read_fd (p : fds) : Z := fst p.
Definition write_fd (p : fds) : Z := snd p.

(** A pipe that is made and destroyed closes its two descriptors, once: close() leaves
    nothing for the destructor. *)
Lemma pipe_close_once p : 0 <= fst p -> 0 <= snd p ->
  fst (close p) = [fst p; snd p] /\ fst (close (snd (close p))) = [].
Proof.
  intros H0 H1. unfold close. cbn [fst snd].
  destruct (Z.eqb_spec (fst p) (-1)); [lia|]. destruct (Z.eqb_spec (snd p) (-1)); [lia|]. done.
Qed.

(** A pipe_t that has been moved from closes descriptor 0 - the process's standard input,
    unless something else has that number - when it is destroyed. *)
Lemma pipe_move_closes_stdin p : fst (close (snd (move p))) = [0].
Proof. reflexivity. Qed.

(** Assigning over an open pipe leaves its descriptors open. *)
Lemma pipe_assign_leaks this other dup :
  fst (move_assign this other false) = other /\ copy_assign this other dup false = (dup (fst other), dup (snd other)).
Proof. done. Qed.
End Pipe.

(** poll_stop_source and poll_stop_token (include/coro/poll.hpp): a pipe nobody reads *)
Module StopSource.
Import Pipe.
Local Open Scope Z_scope.

(** poll_stop_source(poll_stop_source&&): m_pipe{} makes a pipe of its own, [fresh], which
    the assignment in the body overwrites; the closes of the assignment are none *)
Definition move_assign (this other : fds) : fds * fds := Pipe.move_assign this other false.
Definition move (fresh other : fds) : fds * fds := move_assign fresh other.
Definition get_token (p : fds) : Z := read_fd p.

(** The kernel's side of a non-blocking pipe: the bytes in it, of [cap] at most; a write of
    no more than PIPE_BUF bytes is done entirely or refused. *)
Definition signal_stop (cap : Z) (bytes : Z) : Z * bool :=
  if bytes + 4 <=? cap then (bytes + 4, true) else (bytes, false).
Definition readable (bytes : Z) : bool := 0 <? bytes.
Fixpoint signal_times (cap : Z) (n : nat) (bytes : Z) : Z :=
  match n with O => bytes | S n => signal_times cap n (fst (signal_stop cap bytes)) end.

Lemma signal_mono cap n bytes : 0 <= bytes -> bytes <= signal_times cap n bytes.
Proof.
  revert bytes. induction n as [|n IH]; intros b Hb; cbn; [lia|]. unfold signal_stop.
  destruct (b + 4 <=? cap); cbn; [specialize (IH (b + 4)); lia|by apply IH].
Qed.

(** A stop is sticky: the token is readable from the first signal on, whatever the number of
    signals (also when the pipe is full), and not before; so every poll with that token, now
    or later, is cancelled. *)
Theorem stop_source_sticky cap n : 4 <= cap -> readable (signal_times cap n 0) = negb (n =? 0)%nat.
Proof.
  intros Hc. destruct n as [|n]; [done|]. cbn. unfold signal_stop. destruct (Z.leb_spec (0 + 4) cap); [|lia].
  pose proof (signal_mono cap n (0 + 4) ltac:(lia)). unfold readable. apply Z.ltb_lt. cbn [fst] in *. lia.
Qed.
Lemma stop_source_sticky_witness : readable (signal_times 65536 20000 0) = negb (20000 =? 0)%nat.
Proof. apply (stop_source_sticky 65536 20000). lia. Defined.

(** Moving a source keeps its token; the pipe the constructor had made stays open for ever,
    and the destructor of the source that was moved from closes descriptor 0. *)
Theorem stop_source_move_leaks fresh other :
  let '(this, from) := move fresh other in
  get_token this = get_token other /\ this = other /\ fst (close from) = [0] /\
  (forall fd, fd ∈ fst (close this) ++ fst (close from) -> fd = fst other \/ fd = snd other \/ fd = 0).
Proof.
  cbn. split_and!; try done. intros fd. destruct (fst other =? -1), (snd other =? -1); cbn;
    rewrite ?list_elem_of_In; cbn; intuition auto.
Qed.
End StopSource.

Module Socket.
Import Ownership.

(** socket::close() *)
Definition close (s : state) (x : nat) (h : option nat) : state := fst (destroy s x h).

(** dup(fd) of the handle [h]: a descriptor of its own, or -1 ([ok] false, or -1 given) *)
Definition dup_into (s : state) (x : nat) (h : option nat) (ok : bool) : state :=
  match h with
  | Some _ => if ok then get_return_object s x else set_obj s x (Some None)
  | None => set_obj s x (Some None)
  end.

Inductive op :=
| SMake (x : nat)                       (* make_socket, accept, ... *)
| SDefault (x : nat)                    (* socket() *)
| SMove (x y : nat)                     (* socket(socket&&) *)
| SCopy (x y : nat) (ok : bool)         (* socket(const socket&) *)
| SMoveAssign (x y : nat)
| SCopyAssign (x y : nat) (ok : bool)
| SClose (x : nat)
| SDtor (x : nat).

(** socket::operator=(const socket&): close(), then dup(other.m_fd) *)
Definition copy_assign (s : state) (x y : nat) (hx : option nat) (ok : bool) : option state :=
  let s1 := close s x hx in
  match obj s1 y with
  | Some hy => Some (dup_into s1 x hy ok)
  | None => None
  end.

Definition exec (o : op) (s : state) : option state :=
  match o with
  | SMake x => match obj s x with None => Some (get_return_object s x) | _ => None end
  | SDefault x => match obj s x with None => Some (set_obj s x (Some None)) | _ => None end
  | SMove x y => match obj s x, obj s y with None, Some h => Some (move_ctor s x y h) | _, _ => None end
  | SCopy x y ok => match obj s x, obj s y with None, Some h => Some (dup_into s x h ok) | _, _ => None end
  | SMoveAssign x y =>
      match obj s x, obj s y with Some _, Some hy => Some (sync_wait_move_assign s x y hy) | _, _ => None end
  | SCopyAssign x y ok => match obj s x with Some hx => copy_assign s x y hx ok | None => None end
  | SClose x => match obj s x with Some h => Some (close s x h) | None => None end
  | SDtor x => match obj s x with Some h => Some (dtor s x h) | None => None end
  end.

Fixpoint run (l : list op) (s : state) : option state :=
  match l with
  | [] => Some s
  | o :: l => match exec o s with Some s' => run l s' | None => None end
  end.

(** A move assignment is harmless only over a socket that has no descriptor. *)
Definition harmless (o : op) (s : state) : bool :=
  match o with
  | SMoveAssign x y => match obj s x with Some (Some _) => bool_decide (x = y) | _ => true end
  | _ => true
  end.
Fixpoint all_harmless (l : list op) (s : state) : bool :=
  match l with
  | [] => true
  | o :: l => harmless o s && match exec o s with Some s' => all_harmless l s' | None => true end
  end.

Lemma safe_dup s x h ok : safe s -> safe (dup_into s x h ok).
Proof.
  intros Hs. unfold dup_into. destruct h; [destruct ok|]; try (by apply safe_obj). by apply safe_call.
Qed.

Lemma kept_null s x : kept s -> (forall c, ~ owns s x c) -> kept (set_obj s x (Some None)).
Proof.
  intros Hk Hx. apply (kept_step s); [done..| |done]. intros y c Hy. right. exists y. unfold owns in *. cbn.
  rewrite upd_ne; [done|]. intros ->. by apply (Hx c).
Qed.

Lemma kept_dup s x h ok : kept s -> (forall c, ~ owns s x c) -> kept (dup_into s x h ok).
Proof.
  intros Hk Hx. unfold dup_into. destruct h; [destruct ok|]; [by apply kept_call|by apply kept_null..].
Qed.

Lemma close_ok s x h : obj s x = Some h -> safe s -> safe (close s x h) /\ (kept s -> kept (close s x h)) /\
  (forall c, ~ owns (close s x h) x c).
Proof.
  intros Hx Hs. unfold close, destroy. destruct h as [c|]; cbn [fst].
  - split; [apply safe_destroy; auto|]. split; [intros; by apply kept_take|]. intros d. unfold owns. cbn. by rewrite upd_eq.
  - split; [done|]. split; [done|]. unfold owns. congruence.
Qed.

Lemma fd_exec_ok o s s' : exec o s = Some s' -> safe s -> safe s' /\ (harmless o s = true -> kept s -> kept s').
Proof.
  intros H Hs. destruct o as [x|x|x y|x y ok|x y|x y ok|x|x]; cbn in H;
    destruct (obj s x) as [hx|] eqn:Hx; try discriminate H.
  - injection H as <-. split; [by apply safe_call|]. intros _ Hk. apply kept_call; [done|]. unfold owns. congruence.
  - injection H as <-. split; [by apply safe_obj|]. intros _ Hk. apply kept_null; [done|]. unfold owns. congruence.
  - destruct (obj s y) as [h|] eqn:Hy; simplify_eq. assert (x <> y) as Hne by congruence.
    split; [by apply safe_move|]. intros _ Hk. exact (kept_moved s x y None h Hk Hne Hx Hy).
  - destruct (obj s y) as [h|] eqn:Hy; simplify_eq. split; [by apply safe_dup|]. intros _ Hk. apply kept_dup; [done|].
    unfold owns. congruence.
  - destruct (obj s y) as [h|] eqn:Hy; simplify_eq. unfold sync_wait_move_assign.
    destruct (decide (x = y)) as [->|Hne]; [done|]. split; [by apply safe_move|]. intros Hh Hk. cbn in Hh. rewrite Hx in Hh.
    destruct hx as [c|]; [by apply bool_decide_eq_true_1 in Hh|]. exact (kept_moved s x y (Some None) h Hk Hne Hx Hy).
  - unfold copy_assign in H. destruct (close_ok s x hx Hx Hs) as (H1 & H2 & H3).
    destruct (obj (close s x hx) y) as [hy|]; [|done]. injection H as <-. split; [by apply safe_dup|].
    intros _ Hk. apply kept_dup; auto.
  - injection H as <-. destruct (close_ok s x hx Hx Hs) as (H1 & H2 & _). auto.
  - injection H as <-. split; [apply safe_destroy; auto|]. intros _ Hk. by apply kept_take.
Qed.

Lemma run_ok l s s' : run l s = Some s' -> safe s -> safe s' /\ (all_harmless l s = true -> kept s -> kept s').
Proof.
  revert s. induction l as [|o l IH]; intros s Hrun Hs; cbn in *; [by simplify_eq|].
  destruct (exec o s) as [s1|] eqn:He; [|done]. destruct (fd_exec_ok _ _ _ He Hs) as [Hs1 Hk1].
  destruct (IH s1 Hrun Hs1) as [Hs' Hk']. split; [done|]. intros [Ho Hl]%andb_prop Hk. auto.
Qed.

(** Sockets and their descriptors: over any sequence of constructions, copies (each with
    a duplicate of its own, also when dup fails), moves, assignments, close() calls and
    destructors, no descriptor is closed twice, no live socket refers to a closed one, and
    no two sockets share one; if no move assignment overwrites an open socket, then every
    descriptor has been closed exactly once when all sockets are gone. *)
Theorem sockets_closed_exactly_once l s :
  run l init = Some s ->
  NoDup (destroyed s) /\ (forall x c, owns s x c -> c ∉ destroyed s) /\
  (forall x y c, owns s x c -> owns s y c -> x = y) /\
  (all_harmless l init = true -> (forall x, obj s x = None) -> forall c, c < fresh s -> occ c (destroyed s) = 1).
Proof.
  intros Hrun. destruct init_inv as [Hs0 Hk0]. destruct (run_ok _ _ _ Hrun Hs0) as [[A B C D] Hk].
  split_and!; [done|by intros x c [_ ?]%A|done|]. intros Hl Hgone c Hc. specialize (Hk Hl Hk0).
  destruct (Hk c Hc) as [Hin|[x Hx]]; [|unfold owns in Hx; congruence]. by apply (occ_nodup c).
Qed.

Lemma sockets_closed_exactly_once_witness :
  let l := [SMake 0; SCopy 1 0 true; SMove 2 0; SCopyAssign 1 2 true; SMoveAssign 0 2; SClose 0; SDtor 0; SDtor 1; SDtor 2] in
  exists s, run l init = Some s /\ fresh s = 3 /\ NoDup (destroyed s).
Proof.
  intros l. destruct (run l init) as [s|] eqn:Hrun; [|vm_compute in Hrun; discriminate].
  exists s. split; [done|]. split; [by vm_compute in Hrun; injection Hrun as <-|].
  apply (sockets_closed_exactly_once l s Hrun).
Defined.

(** A move assignment over an open socket leaves its descriptor open with nobody to close it. *)
Lemma socket_move_assign_leaks l s x y c s' :
  run l init = Some s -> x <> y -> owns s x c -> exec (SMoveAssign x y) s = Some s' ->
  (c ∉ destroyed s') /\ forall z, ~ owns s' z c.
Proof.
  intros Hrun Hne Hx He. destruct (run_ok _ _ _ Hrun (proj1 init_inv)) as [[A B C D] _].
  cbn in He. rewrite Hx in He. destruct (obj s y) as [hy|] eqn:Hy; [|done]. injection He as <-.
  unfold sync_wait_move_assign. destruct (decide (x = y)) as [|_]; [done|]. cbn.
  split; [by apply (A x)|]. intros z. unfold owns. cbn. upd_cases; intros Hz.
  - injection Hz as ->. apply Hne. by apply (B x y c).
  - done.
  - by apply n, (B z x c).
Qed.

(** Copy assignment to itself closes the socket and duplicates nothing. *)
Lemma socket_self_copy_closes s x c ok : owns s x c ->
  exists s', exec (SCopyAssign x x ok) s = Some s' /\ obj s' x = Some None /\ c ∈ destroyed s'.
Proof.
  intros Hx. unfold owns in Hx. cbn. rewrite Hx. unfold copy_assign, close, destroy. cbn. rewrite upd_eq.
  eexists. split; [done|]. cbn. rewrite upd_eq. split; [done|]. apply elem_of_cons. by left.
Qed.
End Socket.

Module SocketSetup.
Local Open Scope Z_scope.

(** <sys/socket.h> and <fcntl.h> on Linux *)
Definition SOCK_STREAM : Z := 1.
Definition SOCK_DGRAM : Z := 2.
Definition O_NONBLOCK : Z := 2048.
Definition SHUT_RD : Z := 0.
Definition SHUT_WR : Z := 1.
Definition SHUT_RDWR : Z := 2.

Inductive type_t := udp | tcp.
Inductive blocking_t := yes | no.
Definition type_to_os (t : type_t) : Z := match t with udp => SOCK_DGRAM | tcp => SOCK_STREAM end.

(** What the system answers: each call's return value. *)
Record sys := mk_sys {
  sys_socket : Z -> Z -> Z;                  (* domain, type *)
  sys_getfl : Z -> Z;                        (* fcntl(fd, F_GETFL) *)
  sys_setfl : Z -> Z -> Z;                   (* fcntl(fd, F_SETFL, flags) *)
  sys_reuseaddr : Z -> Z;
  sys_reuseport : Z -> Z;
  sys_bind : Z -> Z;
  sys_listen : Z -> Z -> Z
}.

(** socket::blocking: the flags that are set, and the result *)
Definition blocking_flags (b : blocking_t) (flags : Z) : Z :=
  match b with yes => Z.ldiff flags O_NONBLOCK | no => Z.lor flags O_NONBLOCK end.
Definition blocking (w : sys) (fd : Z) (b : blocking_t) : bool :=
  if fd <? 0 then false
  else
    let flags := sys_getfl w fd in
    if flags =? -1 then false else sys_setfl w fd (blocking_flags b flags) =? 0.

(** socket::shutdown: the argument for ::shutdown *)
Definition shutdown_how (how : IoNotifier.Poll.poll_op) : Z :=
  match how with
  | IoNotifier.Poll.op_read => SHUT_RD
  | IoNotifier.Poll.op_write => SHUT_WR
  | IoNotifier.Poll.op_read_write => SHUT_RDWR
  end.

(** A function that throws destroys the socket it has made: [Throw] carries the descriptors
    that are closed on the way out. *)
Inductive result := Return (fd : Z) | Throw (closed : list Z).

Definition make_socket (w : sys) (t : type_t) (b : blocking_t) (domain : Z) : result :=
  let fd := sys_socket w domain (type_to_os t) in
  if fd <? 0 then Throw (if fd =? -1 then [] else [fd])
  else
    match b with
    | no => if blocking w fd no then Return fd else Throw [fd]
    | yes => Return fd
    end.

Definition make_accept_socket (w : sys) (t : type_t) (b : blocking_t) (domain backlog : Z) : result :=
  match make_socket w t b domain with
  | Throw c => Throw c
  | Return fd =>
      if sys_reuseaddr w fd <? 0 then Throw [fd]
      else if sys_reuseport w fd <? 0 then Throw [fd]
      else if sys_bind w fd <? 0 then Throw [fd]
      else
        match t with
        | tcp => if sys_listen w fd backlog <? 0 then Throw [fd] else Return fd
        | udp => Return fd
        end
  end.

Lemma blocking_flags_bit b flags i : 0 <= i ->
  Z.testbit (blocking_flags b flags) i = if i =? 11 then match b with yes => false | no => true end else Z.testbit flags i.
Proof.
  intros Hi. assert (Z.testbit O_NONBLOCK i = (i =? 11)) as Hbit.
  { change O_NONBLOCK with (2 ^ 11). rewrite Z.pow2_bits_eqb by lia. apply Z.eqb_sym. }
  destruct b; cbn; [rewrite Z.ldiff_spec|rewrite Z.lor_spec]; rewrite Hbit; destruct (i =? 11); cbn; by rewrite ?andb_false_r, ?andb_true_r, ?orb_true_r, ?orb_false_r.
Qed.

Lemma make_socket_cases w t b domain : sys_socket w domain (type_to_os t) = -1 \/ 0 <= sys_socket w domain (type_to_os t) ->
  match make_socket w t b domain with
  | Return fd => fd = sys_socket w domain (type_to_os t) /\ 0 <= fd /\ (b = no -> blocking w fd no = true)
  | Throw c => c = if sys_socket w domain (type_to_os t) =? -1 then [] else [sys_socket w domain (type_to_os t)]
  end.
Proof.
  intros Hs. unfold make_socket. destruct (Z.ltb_spec (sys_socket w domain (type_to_os t)) 0) as [Hlt|Hge]; [done|].
  destruct (Z.eqb_spec (sys_socket w domain (type_to_os t)) (-1)); [lia|].
  destruct b; [split_and!; try done; lia|]. destruct (blocking w _ no) eqn:Hb; [|done]. split_and!; try done; lia.
Qed.

(** make_accept_socket leaks nothing: if it throws, on whichever of its system calls, the
    descriptor ::socket() gave it - if any - has been closed, once; if it returns, the
    socket is that descriptor, non-blocking when asked for, with the address reusable,
    bound, and listening when it is a TCP socket. *)
Theorem make_accept_socket_no_leak w t b domain backlog :
  sys_socket w domain (type_to_os t) = -1 \/ 0 <= sys_socket w domain (type_to_os t) ->
  match make_accept_socket w t b domain backlog with
  | Throw closed => closed = if sys_socket w domain (type_to_os t) =? -1 then [] else [sys_socket w domain (type_to_os t)]
  | Return fd =>
      fd = sys_socket w domain (type_to_os t) /\ 0 <= fd /\ (b = no -> blocking w fd no = true) /\
      0 <= sys_reuseaddr w fd /\ 0 <= sys_reuseport w fd /\ 0 <= sys_bind w fd /\ (t = tcp -> 0 <= sys_listen w fd backlog)
  end.
Proof.
  intros Hs. pose proof (make_socket_cases w t b domain Hs) as H. unfold make_accept_socket.
  destruct (make_socket w t b domain) as [fd|c]; [|done]. destruct H as (-> & Hge & Hb).
  destruct (Z.eqb_spec (sys_socket w domain (type_to_os t)) (-1)); [lia|].
  destruct (Z.ltb_spec (sys_reuseaddr w (sys_socket w domain (type_to_os t))) 0); [done|].
  destruct (Z.ltb_spec (sys_reuseport w (sys_socket w domain (type_to_os t))) 0); [done|].
  destruct (Z.ltb_spec (sys_bind w (sys_socket w domain (type_to_os t))) 0); [done|].
  destruct t; [by split_and!|]. destruct (Z.ltb_spec (sys_listen w (sys_socket w domain (type_to_os tcp)) backlog) 0); [done|by split_and!].
Qed.

Lemma make_accept_socket_no_leak_witness :
  let w := mk_sys (fun _ _ => 7) (fun _ => 2) (fun _ _ => 0) (fun _ => 0) (fun _ => 0) (fun _ => -1) (fun _ _ => 0) in
  make_accept_socket w tcp no 2 128 = Throw [7].
Proof.
  intros w. pose proof (make_accept_socket_no_leak w tcp no 2 128 (or_intror (proj1 (Z.leb_le 0 7) eq_refl))) as H.
  destruct (make_accept_socket w tcp no 2 128) as [fd|c] eqn:E; [vm_compute in E; discriminate|]. by rewrite H.
Defined.
End SocketSetup.
