(* ===== verification/Net.v ===== *)
(** * Addresses and statuses of the networking layer
    (include/coro/net/ip_address.hpp, src/net/ip_address.cpp,
    include/coro/net/socket_address.hpp, include/coro/net/io_status.hpp,
    src/net/io_status.cpp)

    [IpAddress] is the 16-byte address with its domain, the conversions to and
    from text being those of inet_pton/inet_ntop, of which the class [Inet] states
    what is relied on.  [SocketAddress] is the sockaddr_storage as bytes, with the
    fields at their offsets and the port in network byte order, on a
    little-endian host.  [IoStatus] is the error classification. *)
From stdpp Require Import base list option numbers strings pretty.
From Stdlib Require Import ZArith Lia.
From S2P Require Import Prelude IoNotifier.

(** The constants of <sys/socket.h> and <errno.h> on Linux. *)
Definition AF_INET : Z := 2.
Definition AF_INET6 : Z := 10.

Inductive domain_t := ipv4 | ipv6.
#[global] Instance domain_t_eq_dec : EqDecision domain_t.
Proof. solve_decision. Defined.

Definition domain_bits (d : domain_t) : Z := match d with ipv4 => AF_INET | ipv6 => AF_INET6 end.

(** uint8_t, and the length of an address in bytes. *)
Definition is_byte (x : Z) : Prop := (0 <= x < 256)%Z.
#[global] Instance is_byte_dec x : Decision (is_byte x).
Proof. unfold is_byte. apply _. Defined.
Definition binary_len (d : domain_t) : nat := match d with ipv4 => 4 | ipv6 => 16 end.

(** inet_pton(3) and inet_ntop(3): the parser accepts what the printer prints and gives
    the same bytes back, 4 for AF_INET and 16 for AF_INET6; the printer does not fail
    on a buffer of INET_ADDRSTRLEN / INET6_ADDRSTRLEN. *)
Class Inet := {
  inet_pton : domain_t -> string -> option (list Z);
  inet_ntop : domain_t -> list Z -> option string;
  inet_pton_binary d s b : inet_pton d s = Some b -> length b = binary_len d /\ Forall is_byte b;
  inet_ntop_total d b : length b = binary_len d -> Forall is_byte b -> inet_ntop d b <> None;
  inet_roundtrip d b s : inet_ntop d b = Some s -> inet_pton d s = Some b
}.

Module IpAddress.

Definition ipv4_len : nat := 4.
Definition ipv6_len : nat := 16.

Record ip_address := mk_ip { m_domain : domain_t; m_data : list Z }.

(** std::array<uint8_t, 16> m_data{}, with [bytes] copied to its front *)
Definition fill (bytes : list Z) : list Z := bytes ++ replicate (ipv6_len - length bytes) 0%Z.

(** ip_address(span, domain); [None]: throws *)
Definition make (binary_address : list Z) (domain : domain_t) : option ip_address :=
  if bool_decide (domain = ipv4) && (ipv4_len <? length binary_address) then None
  else if ipv6_len <? length binary_address then None
  else Some (mk_ip domain (fill binary_address)).

(** data() *)
Definition data (a : ip_address) : list Z :=
  match m_domain a with ipv4 => take ipv4_len (m_data a) | ipv6 => take ipv6_len (m_data a) end.

Section text.
Context `{!Inet}.
(** from_string and to_string *)
Definition from_string (address : string) (domain : domain_t) : option ip_address :=
  match inet_pton domain address with
  | Some b => Some (mk_ip domain (fill b))
  | None => None
  end.
Definition to_string (a : ip_address) : option string := inet_ntop (m_domain a) (data a).
End text.

Definition domain_to_string (d : domain_t) : string := match d with ipv4 => "ipv4" | ipv6 => "ipv6" end.

(** What the constructors establish: 16 bytes, of which an ipv4 address uses four. *)
Definition wf (a : ip_address) : Prop :=
  length (m_data a) = 16 /\ Forall is_byte (m_data a) /\
  match m_domain a with ipv4 => drop 4 (m_data a) = replicate 12 0%Z | ipv6 => True end.

Lemma fill_length b : length b <= 16 -> length (fill b) = 16.
Proof. intros H. unfold fill, ipv6_len. rewrite length_app, length_replicate. lia. Qed.

Lemma fill_bytes b : Forall is_byte b -> Forall is_byte (fill b).
Proof. intros H. apply Forall_app. split; [done|]. apply Forall_replicate. split; lia. Qed.

Lemma fill_wf b d : length b = binary_len d -> Forall is_byte b -> wf (mk_ip d (fill b)).
Proof.
  intros Hb Hf. split_and!; cbn; [apply fill_length; destruct d; cbn in *; lia|by apply fill_bytes|]. destruct d; [|done].
  cbn in Hb. unfold fill, ipv6_len. rewrite Hb, drop_app_ge, Hb by lia. done.
Qed.

Lemma data_fill b d : length b = binary_len d -> data (mk_ip d (fill b)) = b.
Proof.
  intros Hb. unfold data, fill, ipv6_len, ipv4_len. cbn [m_domain m_data]. destruct d; by rewrite take_app_length'.
Qed.

Lemma fill_data a : wf a -> fill (data a) = m_data a /\ length (data a) = binary_len (m_domain a).
Proof.
  intros (Hl & _ & Hw). unfold fill, data, ipv6_len, ipv4_len. destruct (m_domain a); cbn.
  - rewrite length_take_le by lia. split; [|done]. change (16 - 4) with 12. rewrite <- Hw. apply take_drop.
  - rewrite length_take_le by lia. split; [|done]. rewrite app_nil_r. rewrite take_ge; [done|lia].
Qed.

Lemma data_bytes a : wf a -> Forall is_byte (data a).
Proof. intros (_ & Hb & _). unfold data. destruct (m_domain a); by apply Forall_take. Qed.

(** The binary form gives the address back. *)
Lemma make_data a : wf a -> make (data a) (m_domain a) = Some a.
Proof.
  intros Hw. destruct (fill_data a Hw) as [Hf Hl]. unfold make. rewrite Hf, Hl.
  destruct a as [d b]. cbn in *. by destruct d.
Qed.

(** Longer spans are refused, shorter ones zero-extended. *)
Lemma make_spec b d : make b d = if length b <=? binary_len d then Some (mk_ip d (fill b)) else None.
Proof.
  unfold make, ipv4_len, ipv6_len. destruct d; cbn -[Nat.ltb Nat.leb]; cbn [binary_len].
  - destruct (Nat.ltb_spec 4 (length b)), (Nat.leb_spec (length b) 4); try lia; [done|].
    destruct (Nat.ltb_spec 16 (length b)); [lia|done].
  - destruct (Nat.ltb_spec 16 (length b)), (Nat.leb_spec (length b) 16); try lia; done.
Qed.

Section text_laws.
Context `{!Inet}.

Lemma to_string_total a : wf a -> to_string a <> None.
Proof. intros Ha. apply inet_ntop_total; [apply (fill_data a Ha)|by apply data_bytes]. Qed.

Lemma from_string_wf t d a : from_string t d = Some a -> wf a /\ m_domain a = d.
Proof.
  unfold from_string. destruct (inet_pton d t) as [b|] eqn:E; [|done]. intros [= <-].
  destruct (inet_pton_binary d t b E). split; [by apply fill_wf|done].
Qed.

(** Text round trip: every well-formed address prints, and parsing the text in its
    domain gives the same address back; whatever from_string accepts is well formed; text
    the system refuses makes it throw. *)
Theorem ip_address_text_roundtrip a :
  wf a ->
  (exists t, to_string a = Some t /\ from_string t (m_domain a) = Some a) /\
  (forall t d b, from_string t d = Some b -> wf b /\ m_domain b = d) /\
  (forall t d, from_string t d = None <-> inet_pton d t = None).
Proof.
  intros Ha. split_and!; [|apply from_string_wf|].
  - destruct (to_string a) as [t|] eqn:Et; [|by apply to_string_total in Et]. exists t. split; [done|].
    unfold from_string. unfold to_string in Et. rewrite (inet_roundtrip _ _ _ Et).
    destruct (fill_data a Ha) as [-> _]. by destruct a.
  - intros t d. unfold from_string. by destruct (inet_pton d t).
Qed.
End text_laws.

(** A printer and parser that satisfy the laws: one character per byte. *)
Definition raw_print (d : domain_t) (b : list Z) : option string :=
  if bool_decide (length b = binary_len d /\ Forall is_byte b)
  then Some (String.string_of_list_ascii (map (fun x => Ascii.ascii_of_N (Z.to_N x)) b)) else None.
Definition raw_parse (d : domain_t) (s : string) : option (list Z) :=
  let b := map (fun c => Z.of_N (Ascii.N_of_ascii c)) (String.list_ascii_of_string s) in
  if bool_decide (length b = binary_len d) then Some b else None.

Lemma raw_roundtrip b : Forall is_byte b ->
  map (fun c => Z.of_N (Ascii.N_of_ascii c)) (map (fun x => Ascii.ascii_of_N (Z.to_N x)) b) = b.
Proof.
  induction 1 as [|x b [H1 H2] _ IH]; [done|]. cbn. rewrite IH, Ascii.N_ascii_embedding by lia.
  f_equal. lia.
Qed.

#[export] Instance raw_inet : Inet.
Proof.
  refine {| inet_pton := raw_parse; inet_ntop := raw_print |}.
  - intros d s b. unfold raw_parse. case_bool_decide as Hl; [|done]. intros [= <-]. split; [done|].
    apply list.Forall_forall. intros x (c & -> & _)%list_elem_of_fmap.
    pose proof (Ascii.N_ascii_bounded c). unfold is_byte. lia.
  - intros d b Hl Hb. unfold raw_print. by rewrite bool_decide_eq_true_2.
  - intros d b s. unfold raw_print, raw_parse. case_bool_decide as H; [|done]. destruct H as [Hl Hb].
    intros [= <-]. rewrite String.list_ascii_of_string_of_list_ascii, raw_roundtrip by done.
    by rewrite bool_decide_eq_true_2.
Defined.

Lemma ip_address_text_roundtrip_witness :
  let a := mk_ip ipv4 ([127; 0; 0; 1] ++ replicate 12 0)%Z in
  exists t, to_string a = Some t /\ from_string t ipv4 = Some a.
Proof.
  intros a. refine (proj1 (ip_address_text_roundtrip a _)).
  split_and!; [done| |done]. repeat constructor; cbn; lia.
Defined.
End IpAddress.

Module SocketAddress.
Import IpAddress.

(** sockaddr_storage as 128 bytes, and m_len. *)
Record socket_address := mk_sa { m_storage : list Z; m_len : nat }.

Definition sockaddr_storage_size : nat := 128.
Definition sockaddr_in_size : nat := 16.
Definition sockaddr_in6_size : nat := 28.

(** Writing and reading a field at its offset. *)
Definition put (off : nat) (bytes : list Z) (s : list Z) : list Z := take off s ++ bytes ++ drop (off + length bytes) s.
Definition get (off n : nat) (s : list Z) : list Z := take n (drop off s).

(** A 16-bit integer in memory on a little-endian host, and htons/ntohs there. *)
Definition le16 (x : Z) : list Z := [x mod 256; (x / 256) mod 256]%Z.
Definition of_le16 (b : list Z) : Z := match b with [x; y] => (x + 256 * y)%Z | _ => 0%Z end.
Definition htons (x : Z) : Z := (256 * (x mod 256) + x / 256)%Z.
Definition ntohs : Z -> Z := htons.

(** socket_address(): make_uninitialised() *)
Definition make_uninitialised : socket_address := mk_sa (replicate sockaddr_storage_size 0%Z) sockaddr_storage_size.

(** socket_address(ip, port): sockaddr_in has the family at 0, the port at 2 and the address
    at 4; sockaddr_in6 has a flow label at 4 and the address at 8 *)
Definition make (ip : ip_address) (port : Z) : socket_address :=
  let st := m_storage make_uninitialised in
  match m_domain ip with
  | ipv4 => mk_sa (put 4 (take 4 (data ip)) (put 2 (le16 (htons port)) (put 0 (le16 AF_INET) st))) sockaddr_in_size
  | ipv6 => mk_sa (put 8 (take 16 (data ip)) (put 2 (le16 (htons port)) (put 0 (le16 AF_INET6) st))) sockaddr_in6_size
  end.

Definition ss_family (a : socket_address) : Z := of_le16 (get 0 2 (m_storage a)).

(** domain(), port(), ip(); [None]: throws *)
Definition domain (a : socket_address) : option domain_t :=
  if (ss_family a =? AF_INET)%Z then Some ipv4 else if (ss_family a =? AF_INET6)%Z then Some ipv6 else None.
Definition port (a : socket_address) : option Z :=
  if (ss_family a =? AF_INET)%Z then Some (ntohs (of_le16 (get 2 2 (m_storage a))))
  else if (ss_family a =? AF_INET6)%Z then Some (ntohs (of_le16 (get 2 2 (m_storage a)))) else None.
Definition ip (a : socket_address) : option ip_address :=
  match domain a with
  | Some ipv4 => IpAddress.make (get 4 4 (m_storage a)) ipv4
  | Some ipv6 => IpAddress.make (get 8 16 (m_storage a)) ipv6
  | None => None
  end.

#[global] Instance ip_address_eq_dec : EqDecision ip_address.
Proof. solve_decision. Defined.

(** operator== *)
Definition eqb (a b : socket_address) : option bool :=
  if negb (m_len a =? m_len b) then Some false
  else
    match domain a, domain b with
    | Some da, Some db =>
        if bool_decide (da = db) then
          match port a, port b with
          | Some pa, Some pb =>
              if (pa =? pb)%Z then
                match ip a, ip b with Some ia, Some ib => Some (bool_decide (ia = ib)) | _, _ => None end
              else Some false
          | _, _ => None
          end
        else Some false
    | _, _ => None
    end.

Lemma put_length off b s : off + length b <= length s -> length (put off b s) = length s.
Proof. intros H. unfold put. rewrite !length_app, length_take, length_drop. lia. Qed.

Lemma get_put_same off n b s : n = length b -> off + length b <= length s -> get off n (put off b s) = b.
Proof.
  intros -> H. unfold get, put. rewrite drop_app_length' by (rewrite length_take; lia). by rewrite take_app_length.
Qed.

Lemma get_put_below off n off' b s : off + n <= off' -> off' + length b <= length s -> get off n (put off' b s) = get off n s.
Proof.
  intros H1 H2. unfold get, put. apply list_eq. intros i. destruct (decide (i < n)) as [Hi|Hi].
  - rewrite !lookup_take_lt, !lookup_drop, lookup_app_l by (rewrite ?length_take; lia). by rewrite lookup_take_lt by lia.
  - by rewrite !lookup_take_ge by lia.
Qed.

Lemma htons_involutive x : (0 <= x < 65536)%Z -> ntohs (htons x) = x.
Proof.
  intros H. unfold ntohs, htons at 1. assert (0 <= x / 256 < 256)%Z by (split; [apply Z.div_pos|apply Z.div_lt_upper_bound]; lia).
  assert (htons x = (x / 256) + (x mod 256) * 256)%Z as -> by (unfold htons; lia).
  rewrite Z.div_add, Z_mod_plus_full by lia. rewrite (Z.mod_small (x / 256)), (Z.div_small (x / 256)) by lia.
  pose proof (Z.div_mod x 256 ltac:(lia)). lia.
Qed.

Lemma le16_roundtrip x : (0 <= x < 65536)%Z -> of_le16 (le16 x) = x.
Proof.
  intros H. unfold of_le16, le16. assert (0 <= x / 256 < 256)%Z by (split; [apply Z.div_pos|apply Z.div_lt_upper_bound]; lia).
  rewrite (Z.mod_small (x / 256)) by lia. pose proof (Z.div_mod x 256 ltac:(lia)). lia.
Qed.

Lemma htons_range x : (0 <= x < 65536)%Z -> (0 <= htons x < 65536)%Z.
Proof.
  intros H. unfold htons. pose proof (Z.mod_pos_bound x 256 ltac:(lia)).
  assert (0 <= x / 256 < 256)%Z by (split; [apply Z.div_pos|apply Z.div_lt_upper_bound]; lia). lia.
Qed.

(** What [make] leaves in the storage. *)
Lemma make_fields a p : wf a -> (0 <= p < 65536)%Z ->
  ss_family (make a p) = domain_bits (m_domain a) /\
  get 2 2 (m_storage (make a p)) = le16 (htons p) /\
  get (match m_domain a with ipv4 => 4 | ipv6 => 8 end) (binary_len (m_domain a)) (m_storage (make a p)) = data a.
Proof.
  intros Ha Hp. destruct (fill_data a Ha) as [_ Hlen]. pose proof (htons_range p Hp) as Hr.
  unfold ss_family, make. destruct (m_domain a) eqn:Ed; cbn in Hlen; cbn [m_storage binary_len domain_bits].
  all: rewrite (take_ge (data a)) by lia.
  all: assert (forall x, length (put 2 (le16 (htons p)) (put 0 (le16 x) (m_storage make_uninitialised))) = 128) as Hl2
    by (intros x; by rewrite !put_length by (cbn; try rewrite put_length; cbn; lia)).
  all: split_and!; [| |apply get_put_same; [done|rewrite Hl2; lia]].
  1, 3: rewrite !(get_put_below 0 2) by (rewrite ?Hl2, ?put_length, ?Hlen; cbn; lia);
    etrans; [apply f_equal, (get_put_same 0 2 (le16 _)); cbn; lia|by apply le16_roundtrip].
  all: rewrite (get_put_below 2 2) by (rewrite ?Hl2, ?Hlen; lia);
    apply (get_put_same 2 2 (le16 (htons p))); [done|rewrite put_length; cbn; lia].
Qed.

Lemma port_network_order a p : wf a -> (0 <= p < 65536)%Z -> get 2 2 (m_storage (make a p)) = [p / 256; p mod 256]%Z.
Proof.
  intros Ha Hp. destruct (make_fields a p Ha Hp) as (_ & -> & _). unfold le16.
  assert (0 <= p / 256 < 256)%Z by (split; [apply Z.div_pos|apply Z.div_lt_upper_bound]; lia).
  pose proof (Z.mod_pos_bound p 256 ltac:(lia)).
  assert (htons p = p / 256 + (p mod 256) * 256)%Z as -> by (unfold htons; lia).
  rewrite Z_mod_plus_full, Z.div_add, (Z.div_small (p / 256)), !Z.mod_small by lia. done.
Qed.

Lemma domain_make a p : wf a -> (0 <= p < 65536)%Z -> domain (make a p) = Some (m_domain a).
Proof. intros Ha Hp. unfold domain. destruct (make_fields a p Ha Hp) as [-> _]. by destruct (m_domain a). Qed.
Lemma port_make a p : wf a -> (0 <= p < 65536)%Z -> port (make a p) = Some p.
Proof.
  intros Ha Hp. unfold port. destruct (make_fields a p Ha Hp) as (-> & -> & _).
  rewrite le16_roundtrip, htons_involutive by (done || by apply htons_range).
  by destruct (m_domain a).
Qed.
Lemma ip_make a p : wf a -> (0 <= p < 65536)%Z -> ip (make a p) = Some a.
Proof.
  intros Ha Hp. unfold ip. rewrite domain_make by done. destruct (make_fields a p Ha Hp) as (_ & _ & Hg).
  pose proof (make_data a Ha) as Hm. destruct (m_domain a); cbn [binary_len] in Hg; by rewrite Hg.
Qed.
Lemma len_make a p : m_len (make a p) = match m_domain a with ipv4 => sockaddr_in_size | ipv6 => sockaddr_in6_size end.
Proof. unfold make. by destruct (m_domain a). Qed.

Section text.
Context `{!Inet}.
(** to_string() *)
Definition to_string (a : socket_address) : option string :=
  match ip a, port a with
  | Some i, Some p => option_map (fun t => (t +:+ ":" +:+ pretty (Z.to_N p))%string) (IpAddress.to_string i)
  | _, _ => None
  end.

(** socket_address(std::string_view ip, port, domain) *)
Definition make_from_string (text : string) (p : Z) (d : domain_t) : option socket_address :=
  option_map (fun a => make a p) (IpAddress.from_string text d).
End text.

(** A socket address gives back what it was made of: for every well-formed ip address
    and 16-bit port, domain(), ip() and port() return the domain, the address and the port,
    the length is that of the sockaddr structure of the domain, and the bytes of the port in
    memory are in network order. *)
Theorem socket_address_roundtrip a p :
  wf a -> (0 <= p < 65536)%Z ->
  domain (make a p) = Some (m_domain a) /\ ip (make a p) = Some a /\ port (make a p) = Some p /\
  m_len (make a p) = match m_domain a with ipv4 => sockaddr_in_size | ipv6 => sockaddr_in6_size end /\
  get 2 2 (m_storage (make a p)) = [p / 256; p mod 256]%Z.
Proof.
  intros Ha Hp. split_and!; [by apply domain_make|by apply ip_make|by apply port_make|apply len_make|].
  by apply port_network_order.
Qed.

Lemma socket_address_roundtrip_witness :
  let a := mk_ip ipv4 ([127; 0; 0; 1] ++ replicate 12 0)%Z in
  ip (make a 8080) = Some a /\ port (make a 8080) = Some 8080%Z /\ get 2 2 (m_storage (make a 8080)) = [31; 144]%Z.
Proof.
  intros a.
  destruct (socket_address_roundtrip a 8080) as (_ & H1 & H2 & _ & H3); [|lia|done].
  split_and!; [done| |done]. repeat constructor; cbn; lia.
Defined.

(** operator== on socket addresses decides equality of the addresses and ports they
    were made of, for every two well-formed ones; it throws on an address whose storage was
    never filled in when the lengths agree. *)
Theorem socket_address_equality a p b q :
  wf a -> wf b -> (0 <= p < 65536)%Z -> (0 <= q < 65536)%Z ->
  eqb (make a p) (make b q) = Some (bool_decide (a = b /\ p = q)) /\
  eqb make_uninitialised make_uninitialised = None.
Proof.
  intros Ha Hb Hp Hq. split; [|done]. unfold eqb. rewrite !domain_make, !port_make, !ip_make, !len_make by done.
  destruct (decide (m_domain a = m_domain b)) as [Hd|Hd].
  - rewrite Hd, Nat.eqb_refl, bool_decide_eq_true_2 by done. cbn [negb].
    destruct (Z.eqb_spec p q) as [->|Hne].
    + f_equal. apply bool_decide_ext. naive_solver.
    + rewrite bool_decide_eq_false_2; [done|naive_solver].
  - rewrite (bool_decide_eq_false_2 (a = b /\ p = q)) by naive_solver.
    by destruct (m_domain a), (m_domain b).
Qed.

Lemma socket_address_equality_witness :
  let a := mk_ip ipv4 ([127; 0; 0; 1] ++ replicate 12 0)%Z in
  let b := mk_ip ipv6 (replicate 15 0 ++ [1])%Z in
  eqb (make a 80) (make b 80) = Some false /\ eqb (make b 80) (make b 80) = Some true.
Proof.
  intros a b.
  assert (wf a) as Ha by (split_and!; [done| |done]; repeat constructor; cbn; lia).
  assert (wf b) as Hb by (split_and!; [done| |done]; repeat constructor; cbn; lia).
  split.
  - destruct (socket_address_equality a 80 b 80 Ha Hb ltac:(lia) ltac:(lia)) as [-> _]. done.
  - destruct (socket_address_equality b 80 b 80 Hb Hb ltac:(lia) ltac:(lia)) as [-> _].
    by rewrite bool_decide_eq_true_2.
Defined.

Lemma sa_to_string_total `{!Inet} a p : wf a -> (0 <= p < 65536)%Z -> to_string (make a p) <> None.
Proof.
  intros Ha Hp. unfold to_string. rewrite ip_make, port_make by done.
  destruct (IpAddress.to_string a) eqn:E; [done|]. by apply IpAddress.to_string_total in E.
Qed.
End SocketAddress.

Module IoStatus.
Local Open Scope Z_scope.

(** <errno.h> and <cstdio> on Linux *)
Definition EOF : Z := -1.
Definition EAGAIN : Z := 11.
Definition EMSGSIZE : Z := 90.
Definition ECONNRESET : Z := 104.
Definition ECONNREFUSED : Z := 111.

Inductive kind :=
| ok | closed | connection_reset | connection_refused | timeout | would_block_or_try_again | polling_error
| cancelled | udp_not_bound | message_too_big | native | unknown.
#[global] Instance kind_eq_dec : EqDecision kind.
Proof. solve_decision. Defined.

Record io_status := mk_status { type : kind; native_code : Z }.

Definition is_ok (s : io_status) : bool := bool_decide (type s = ok).
Definition is_timeout (s : io_status) : bool := bool_decide (type s = timeout).
Definition is_closed (s : io_status) : bool := bool_decide (type s = closed).
Definition try_again (s : io_status) : bool := bool_decide (type s = would_block_or_try_again).
Definition is_native (s : io_status) : bool := bool_decide (type s = native).

(** io_status{kind} *)
Definition of_kind (k : kind) : io_status := mk_status k 0.

Definition make_io_status_from_native (code : Z) : io_status :=
  mk_status
    (if code =? 0 then ok
     else if code =? EOF then closed
     else if code =? ECONNREFUSED then connection_refused
     else if code =? ECONNRESET then connection_reset
     else if code =? EAGAIN then would_block_or_try_again
     else if code =? EMSGSIZE then message_too_big
     else native) code.

Definition make_io_status_from_poll_status (st : Poll.poll_status) : io_status :=
  match st with
  | Poll.read | Poll.write => of_kind ok
  | Poll.timeout => of_kind timeout
  | Poll.error => of_kind polling_error
  | Poll.closed => of_kind closed
  | Poll.cancelled => of_kind cancelled
  end.

Definition to_string (k : kind) : string :=
  match k with
  | ok => "Success"
  | closed => "Connection closed by peer"
  | connection_reset => "Connection reset by peer"
  | connection_refused => "Connection refused by target host"
  | timeout => "Operation timed out"
  | would_block_or_try_again => "Operation would block or try again"
  | polling_error => "Polling error"
  | cancelled => "Operation cancelled"
  | udp_not_bound => "Udp socket is not bound"
  | native => "Native error code"
  | message_too_big => "Message is too big"
  | unknown => "unknown"
  end.

(** message(), std::system_category().message being [system_message] *)
Definition message (system_message : Z -> string) (s : io_status) : string :=
  if negb (is_native s) then to_string (type s)
  else if native_code s =? 0 then "Success" else system_message (native_code s).

Lemma native_kinds code :
  let s := make_io_status_from_native code in
  native_code s = code /\ (is_ok s = true <-> code = 0) /\ (is_closed s = true <-> code = EOF) /\
  (try_again s = true <-> code = EAGAIN) /\ is_timeout s = false.
Proof.
  intros s. subst s. unfold make_io_status_from_native, is_ok, is_closed, try_again, is_timeout,
    EOF, EAGAIN, EMSGSIZE, ECONNRESET, ECONNREFUSED. cbn [native_code type].
  rewrite !bool_decide_eq_true.
  repeat match goal with |- context [code =? ?x] => destruct (Z.eqb_spec code x) end; cbn;
    split_and!; try done; split; (done || lia).
Qed.

Lemma poll_status_inj a b : make_io_status_from_poll_status a = make_io_status_from_poll_status b ->
  a = b \/ (a = Poll.read /\ b = Poll.write) \/ (a = Poll.write /\ b = Poll.read).
Proof. destruct a, b; cbn; try done; intros _; auto. Qed.

(** The classification of errors loses nothing: a status made from an errno value is ok
    exactly for 0, closed exactly for EOF and "try again" exactly for EAGAIN, keeps the code,
    and two codes with the same kind other than native are the same code; a status made from
    the outcome of a poll is ok exactly when the poll reported read or write, and tells all
    other outcomes apart; the messages of two kinds differ. *)
Theorem io_status_classification :
  (forall c, native_code (make_io_status_from_native c) = c /\
     (is_ok (make_io_status_from_native c) = true <-> c = 0) /\
     (is_closed (make_io_status_from_native c) = true <-> c = EOF) /\
     (try_again (make_io_status_from_native c) = true <-> c = EAGAIN)) /\
  (forall c d, type (make_io_status_from_native c) = type (make_io_status_from_native d) ->
     is_native (make_io_status_from_native c) = false -> c = d) /\
  (forall st, is_ok (make_io_status_from_poll_status st) = true <-> st = Poll.read \/ st = Poll.write) /\
  (forall a b, make_io_status_from_poll_status a = make_io_status_from_poll_status b ->
     is_ok (make_io_status_from_poll_status a) = false -> a = b) /\
  (forall k k', to_string k = to_string k' -> k = k').
Proof.
  split_and!.
  - intros c. destruct (native_kinds c) as (? & ? & ? & ? & _). auto.
  - intros c d. unfold make_io_status_from_native, is_native. cbn.
    repeat match goal with |- context [?c =? ?x] => destruct (Z.eqb_spec c x) end; cbn; try done; congruence.
  - intros st. destruct st; cbn; naive_solver.
  - intros a b Heq. destruct (poll_status_inj a b Heq) as [->|[[-> ->]|[-> ->]]]; done.
  - intros k k'. destruct k, k'; done.
Qed.
End IoStatus.
