(* ===== verification/Timers.v ===== *)
(** * The timers of the scheduler (src/scheduler.cpp: add_timer_token,
    remove_timer_token, update_timeout, the expiry loop of process_timeout_execute,
    yield_until)

    m_timed_events is a std::multimap from time points to poll_info pointers: here the
    list of its entries in iteration order.  Time points and durations are in
    nanoseconds.  The timerfd is the instant it is armed for, computed by
    [TimerSpec.watch_timer]. *)
From stdpp Require Import base list relations option numbers sorting.
From Stdlib Require Import ZArith Lia.
From S2P Require Import Prelude IoNotifier.

Module Timers.
Local Open Scope Z_scope.

Definition timed_events := list (Z * nat).

(** std::multimap::emplace: after the entries that are not greater *)
Fixpoint emplace (tp : Z) (pi : nat) (l : timed_events) : timed_events :=
  match l with
  | [] => [(tp, pi)]
  | (t, p) :: l' => if t <=? tp then (t, p) :: emplace tp pi l' else (tp, pi) :: l
  end.

(** erase(pos), pos being the position of the entry of [pi] *)
Fixpoint erase (pi : nat) (l : timed_events) : timed_events :=
  match l with
  | [] => []
  | (t, p) :: l' => if decide (p = pi) then l' else (t, p) :: erase pi l'
  end.

(** pos == begin() *)
Definition is_first (pi : nat) (l : timed_events) : bool :=
  match l with (_, p) :: _ => bool_decide (p = pi) | [] => false end.

(** update_timeout: when the timerfd fires after it, [None] for a disarmed timer *)
Definition update_timeout (now : Z) (l : timed_events) : option Z :=
  option_map (Z.add now)
    (TimerSpec.fires_after
       (match l with
        | (tp, _) :: _ => TimerSpec.watch_timer (tp - now)
        | [] => TimerSpec.unwatch_timer
        end)).

(** add_timer_token and remove_timer_token, on the map and the armed timer *)
Definition add_timer_token (now tp : Z) (pi : nat) (l : timed_events) (armed : option Z) : timed_events * option Z :=
  let l' := emplace tp pi l in
  (l', if is_first pi l' then update_timeout now l' else armed).
Definition remove_timer_token (now : Z) (pi : nat) (l : timed_events) (armed : option Z) : timed_events * option Z :=
  let l' := erase pi l in
  (l', if is_first pi l then update_timeout now l' else armed).

(** The loop of process_timeout_execute: the expired poll_infos and what is left *)
Fixpoint pop_expired (now : Z) (l : timed_events) : list nat * timed_events :=
  match l with
  | [] => ([], [])
  | (tp, pi) :: l' => if tp <=? now then let '(e, r) := pop_expired now l' in (pi :: e, r) else ([], l)
  end.

(** The time point yield_until waits for: now + duration_cast<milliseconds>(time - now) *)
Definition ns_per_ms : Z := 1000000.
Definition yield_until_tp (now time : Z) : Z := now + Z.quot (time - now) ns_per_ms * ns_per_ms.

(** ** The map stays sorted *)

Definition sorted (l : timed_events) : Prop := Sorted (fun a b => fst a <= fst b) l.
Definition head_le (t : Z) (l : timed_events) : Prop := match l with [] => True | (t', _) :: _ => t <= t' end.

Lemma sorted_cons a l : sorted (a :: l) <-> head_le (fst a) l /\ sorted l.
Proof.
  unfold sorted. split.
  - intros H. apply Sorted_inv in H as [H1 H2]. split; [|done]. destruct l as [|[t p] l]; [done|]. by apply HdRel_inv in H2.
  - intros [H1 H2]. constructor; [done|]. destruct l as [|[t p] l]; by constructor.
Qed.

Lemma sorted_all a l : sorted (a :: l) -> forall b, b ∈ l -> fst a <= fst b.
Proof.
  revert a. induction l as [|c l IH]; intros a H b Hb; [by apply elem_of_nil in Hb|].
  apply sorted_cons in H as [H1 H2]. destruct c as [t p]. cbn in H1.
  apply elem_of_cons in Hb as [->|Hb]; [done|]. etrans; [exact H1|]. apply (IH _ H2 b Hb).
Qed.

Lemma emplace_head t tp pi l : t <= tp -> head_le t l -> head_le t (emplace tp pi l).
Proof. destruct l as [|[u p] l]; cbn; [done|]. by destruct (Z.leb_spec u tp). Qed.

Lemma emplace_sorted tp pi l : sorted l -> sorted (emplace tp pi l).
Proof.
  induction l as [|[t p] l IH]; intros H; cbn [emplace].
  - apply sorted_cons. by split.
  - destruct (Z.leb_spec t tp).
    + apply sorted_cons in H as [H1 H2]. apply sorted_cons. split; [by apply emplace_head|auto].
    + apply sorted_cons. split; [cbn; lia|done].
Qed.

Lemma erase_head t pi l : head_le t l -> sorted l -> head_le t (erase pi l).
Proof.
  destruct l as [|[u p] l]; intros H1 H2; [done|]. cbn. destruct (decide (p = pi)); [|done].
  destruct l as [|[v q] l]; [done|]. cbn in *. apply sorted_cons in H2 as [H2 _]. cbn in H2. lia.
Qed.

Lemma erase_sorted pi l : sorted l -> sorted (erase pi l).
Proof.
  induction l as [|[t p] l IH]; intros H; [done|]. cbn. pose proof H as [H1 H2]%sorted_cons.
  destruct (decide (p = pi)); [done|]. apply sorted_cons. split; [by apply erase_head|auto].
Qed.

(** ** The entries *)

Lemma occ_emplace x tp pi l : occ x (map snd (emplace tp pi l)) = ((if decide (x = pi) then 1 else 0) + occ x (map snd l))%nat.
Proof.
  induction l as [|[t p] l IH]; cbn; [done|]. destruct (Z.leb_spec t tp); cbn; [rewrite IH; lia|done].
Qed.

Lemma occ_erase x pi l : occ pi (map snd l) <> 0%nat ->
  ((if decide (x = pi) then 1 else 0) + occ x (map snd (erase pi l)) = occ x (map snd l))%nat.
Proof.
  induction l as [|[t p] l IH]; cbn; [done|]. intros H. destruct (decide (p = pi)) as [->|Hne].
  - by destruct (decide (x = pi)).
  - cbn. rewrite <- IH; [|by rewrite decide_False in H by congruence]. lia.
Qed.

Lemma occ_pop x now l : let '(e, r) := pop_expired now l in (occ x e + occ x (map snd r) = occ x (map snd l))%nat.
Proof.
  induction l as [|[t p] l IH]; [done|]. cbn. destruct (Z.leb_spec t now); [|done].
  destruct (pop_expired now l) as [e r]. cbn. rewrite <- IH. lia.
Qed.

Lemma elem_emplace b tp pi l : b ∈ emplace tp pi l <-> b = (tp, pi) \/ b ∈ l.
Proof.
  induction l as [|[t p] l IH]; cbn; [by rewrite elem_of_cons|]. destruct (Z.leb_spec t tp); [|by rewrite !elem_of_cons].
  rewrite !elem_of_cons, IH. naive_solver.
Qed.
Lemma elem_erase b pi l : b ∈ erase pi l -> b ∈ l.
Proof.
  induction l as [|[t p] l IH]; cbn; [done|]. destruct (decide (p = pi)); rewrite !elem_of_cons; [auto|]. naive_solver.
Qed.

(** The map after the expiry loop: a suffix of it. *)
Lemma pop_suffix now l : exists l1, l = l1 ++ snd (pop_expired now l) /\ fst (pop_expired now l) = map snd l1 /\
  (forall b, b ∈ l1 -> fst b <= now).
Proof.
  induction l as [|[t p] l (l1 & H1 & H2 & H3)]; cbn; [exists []; split_and!; [done..|]; no_nil|].
  destruct (Z.leb_spec t now).
  - destruct (pop_expired now l) as [e r]. cbn in *. exists ((t, p) :: l1). subst l e. split_and!; [done..|].
    intros b [->|Hb]%elem_of_cons; [done|auto].
  - exists []. split_and!; [done..|]. no_nil.
Qed.

Lemma pop_sorted now l : sorted l -> sorted (snd (pop_expired now l)).
Proof.
  induction l as [|[t p] l IH]; intros H; [done|]. cbn. destruct (Z.leb_spec t now); [|done].
  destruct (pop_expired now l) as [e r]. cbn in *. apply IH. by apply sorted_cons in H as [_ ?].
Qed.

Lemma list_filter_none {A} (f : A -> bool) l : (forall x, x ∈ l -> f x = false) -> List.filter f l = [].
Proof.
  intros H. rewrite (filter_ext_in _ (fun _ => false)); [apply filter_false|]. intros x Hx. by apply H, list_elem_of_In.
Qed.
Lemma list_filter_all {A} (f : A -> bool) l : (forall x, x ∈ l -> f x = true) -> List.filter f l = l.
Proof.
  intros H. rewrite (filter_ext_in _ (fun _ => true)); [apply filter_true|]. intros x Hx. by apply H, list_elem_of_In.
Qed.

(** The expiry loop of process_timeout_execute, which stops at the first entry that is
    not due, finds every due entry: on a sorted map it is the partition of the entries by
    their time points, in the order of the map, so an earlier timer is never overtaken. *)
Theorem pop_expired_equiv now l :
  sorted l ->
  pop_expired now l = (map snd (List.filter (fun b => fst b <=? now) l), List.filter (fun b => now <? fst b) l).
Proof.
  induction l as [|[t p] l IH]; intros H; [done|]. cbn. pose proof H as [_ H2]%sorted_cons.
  destruct (Z.leb_spec t now), (Z.ltb_spec now t); try lia.
  - by rewrite (IH H2).
  - f_equal.
    + symmetry. apply (f_equal (map snd) (y := [])). clear IH. apply list_filter_none. intros b Hb.
      pose proof (sorted_all _ _ H b Hb). cbn in *. destruct (Z.leb_spec (fst b) now); [lia|done].
    + f_equal. symmetry. apply list_filter_all. intros b Hb. pose proof (sorted_all _ _ H b Hb). cbn in *.
      destruct (Z.ltb_spec now (fst b)); [done|lia].
Qed.

Lemma pop_expired_equiv_witness : pop_expired 5 [(1, 7%nat); (5, 2%nat); (9, 4%nat)] = ([7%nat; 2%nat], [(9, 4%nat)]).
Proof. rewrite pop_expired_equiv; [done|]. repeat (constructor; cbn; try lia). Defined.

(** ** The armed timer *)

(** The timerfd fires for the earliest entry: not later than its time point, or than one
    nanosecond from now when it is due. *)
Definition armed_for (now : Z) (l : timed_events) (armed : option Z) : Prop :=
  match l with [] => True | (tp, _) :: _ => exists d, armed = Some d /\ d <= Z.max (now + 1) tp end.

Lemma update_timeout_nil now : update_timeout now [] = None.
Proof. done. Qed.
Lemma update_timeout_cons now tp p l : update_timeout now ((tp, p) :: l) = Some (Z.max (now + 1) tp).
Proof.
  unfold update_timeout. destruct (TimerSpec.arms (tp - now)) as (_ & _ & ->). cbn. f_equal. lia.
Qed.
Lemma update_timeout_armed now l : armed_for now l (update_timeout now l).
Proof. destruct l as [|[tp p] l]; [done|]. rewrite update_timeout_cons. cbn. eexists. split; [done|lia]. Qed.

Lemma armed_later now now' l armed : now <= now' -> armed_for now l armed -> armed_for now' l armed.
Proof. destruct l as [|[tp p] l]; [done|]. intros H (d & -> & Hd). exists d. split; [done|lia]. Qed.

Lemma add_armed now tp pi l armed : occ pi (map snd l) = 0%nat -> armed_for now l armed ->
  armed_for now (fst (add_timer_token now tp pi l armed)) (snd (add_timer_token now tp pi l armed)).
Proof.
  unfold add_timer_token. intros Ho H. destruct (is_first pi (emplace tp pi l)) eqn:Hf; cbn [fst snd].
  - apply update_timeout_armed.
  - destruct l as [|[t p] l]; cbn in *; [by rewrite bool_decide_eq_true_2 in Hf|].
    destruct (Z.leb_spec t tp); [done|]. cbn in Hf. by rewrite bool_decide_eq_true_2 in Hf.
Qed.

Lemma remove_armed now pi l armed : armed_for now l armed ->
  armed_for now (fst (remove_timer_token now pi l armed)) (snd (remove_timer_token now pi l armed)).
Proof.
  unfold remove_timer_token. intros H. destruct (is_first pi l) eqn:Hf; cbn [fst snd].
  - apply update_timeout_armed.
  - destruct l as [|[t p] l]; [done|]. cbn in *. destruct (decide (p = pi)); [|done]. by rewrite bool_decide_eq_true_2 in Hf.
Qed.

(** The time point yield_until waits for is not after the requested one, but up to a
    millisecond before it. *)
Lemma yield_until_early now time : now < time ->
  now <= yield_until_tp now time <= time /\ time - yield_until_tp now time < ns_per_ms.
Proof.
  intros H. unfold yield_until_tp. pose proof (Z.quot_rem' (time - now) ns_per_ms).
  pose proof (Z.rem_bound_pos (time - now) ns_per_ms ltac:(lia) ltac:(done)).
  pose proof (Z.quot_pos (time - now) ns_per_ms ltac:(lia) ltac:(done)). unfold ns_per_ms in *. lia.
Qed.
Lemma yield_until_truncates : yield_until_tp 0 1999999 = 1000000.
Proof. reflexivity. Qed.
End Timers.
