(* ===== verification/Scheduler.v ===== *)
(** * coro::scheduler (include/coro/scheduler.hpp, src/scheduler.cpp,
    include/coro/detail/poll_info.hpp)

    Coroutines start operations - schedule(), yield_for(), yield_until(), poll() - which
    are numbered in the order they start and each have a poll_info or a schedule_operation
    of their own; one thread runs the event loop.  A critical section of
    m_timed_events_mutex, an atomic access and a system call are one step each; an
    operation that is published to the event loop before it is complete (the timer is added
    before the descriptor is watched, and both before the coroutine suspends) is so in the
    model.  update_timeout is called without the mutex at the end of
    process_timeout_execute: there its reading of the map and its arming of the timer are
    two steps.

    The interest list of epoll is modelled by descriptor: EPOLL_CTL_ADD fails when the
    descriptor is there already, EPOLL_CTL_DEL removes it whoever registered it, and the
    registration of a cancellation trigger (the stop token of poll) is an entry of its own,
    which next_events removes when the descriptor reports and nobody removes when the poll
    times out.

    A poll_info lives until its coroutine is resumed.  Reading one after that is the event
    [EvUseAfterFree]; a schedule_operation that is read after it was resumed is
    [EvScheduleUseAfterFree].  The other things that can go wrong have events of their own:
    a registration after the poll is over ([EvLateWatch], [EvTriggerLeft]), one that fails
    ([EvWatchFailed]) or is removed by somebody else ([EvUnwatchedOther]), and a timer that
    is added during the unlocked update_timeout ([EvTimerRace]). *)
From stdpp Require Import base list relations option numbers.
From Stdlib Require Import ZArith Lia.
From S2P Require Import Prelude IoNotifier Timers.

Module Scheduler.
Import Poll Timers.
Local Open Scope Z_scope.

(** ** State *)

Inductive kind :=
| KSchedule                       (* schedule(), resume() *)
| KYield                          (* yield_for, yield_until *)
| KPoll (fd : nat) (m_cancel_trigger : option nat).   (* the trigger: the descriptor of a stop token *)

Inductive pc :=
| PNone                           (* not started *)
| PPush                           (* schedule_operation::await_suspend: m_size incremented *)
| PAdd (tp : Z)                   (* before add_timer_token(tp) *)
| PWatch                          (* poll: before m_io_notifier.watch: the descriptor *)
| PTrigger                        (* ... and the cancellation trigger *)
| PSuspend                        (* before poll_awaiter::await_suspend *)
| PWaiting                        (* m_awaiting_coroutine is set *)
| PResumed.                       (* resumed: the poll_info / schedule_operation is gone *)

(** Where the event loop has the operation (a history variable). *)
Inductive place :=
| AtNone                          (* not published *)
| AtPending                       (* among the timers and/or in the interest list *)
| AtExpired                       (* taken out of the timers *)
| AtSpin                          (* processed, the loop waits for m_awaiting_coroutine *)
| AtScheduled                     (* in m_scheduled_ops *)
| AtHandle                        (* in m_handles_to_resume *)
| AtDone.

Record op := mk_op {
  o_kind : kind;
  o_pc : pc;
  o_tp : option Z;                (* the time point it was added with *)
  m_timer_pos : bool;             (* has_value() *)
  m_processed : bool;
  m_poll_status : poll_status;
  o_registered : bool;            (* its descriptor is in the interest list, with this poll_info *)
  o_place : place
}.

(** The descriptor and the cancellation trigger of a poll *)
Definition o_fd (o : op) : option nat := match o_kind o with KPoll fd _ => Some fd | _ => None end.
Definition o_token (o : op) : option nat := match o_kind o with KPoll _ c => c | _ => None end.

(** Detached tasks: calls of spawn_detached between their increment of m_size and resume(),
    tasks (by their first operation) that have not ended, increments of refused calls *)
Record spawn_state := mk_spawn { spawning : nat; detached : list nat; leaked : nat }.

(** The entries of m_recent_events. *)
Inductive item := ITimer | ISchedule | IShutdown | IPoll (i : nat) (st : poll_status).

(** The event loop. *)
Inductive lpc :=
| LIdle                           (* outside process_events_execute *)
| LWait                           (* before epoll_wait *)
| LItems                          (* the loop over m_recent_events *)
| LSpinEvent (i : nat)            (* process_event_execute: while (m_awaiting_coroutine == nullptr) *)
| LPop (now : Z)                  (* process_timeout_execute: before the lock *)
| LExpired                        (* ... the loop over poll_infos *)
| LSpinTimeout (i : nat)
| LRead                           (* ... update_timeout: before reading the map *)
| LArm (first : timed_events)     (* ... before watch_timer / unwatch_timer for what was read *)
| LDrain                          (* process_scheduled_execute_inline: reading the pipe *)
| LReset                          (* before m_schedule_pipe_triggered.exchange(false) *)
| LPopAll                         (* before awaiter_list_pop_all *)
| LFlush (resumed : nat)          (* resuming m_handles_to_resume *)
| LSub (resumed : nat)            (* before m_size.fetch_sub *)
| LExit.

Record state := mk_state {
  now : Z;
  ops : nat -> op;
  next : nat;                     (* the next operation's number *)
  m_size : Z;                     (* std::size_t *)
  m_timed_events : timed_events;
  armed : option Z;               (* when the timerfd fires *)
  m_scheduled_ops : list nat;     (* newest first *)
  m_schedule_pipe_triggered : bool;
  pipe : nat;                     (* ints in m_schedule_pipe *)
  edge : bool;                    (* its edge-triggered event is pending *)
  triggering : list nat;          (* schedule_operations between the push and the compare-exchange *)
  writing : list nat;             (* ... between the compare-exchange and the write *)
  loop : lpc;
  m_recent_events : list item;
  poll_infos : list nat;          (* of process_timeout_execute *)
  m_handles_to_resume : list nat;
  m_shutdown_requested : bool;
  triggers : list (nat * nat * bool);   (* the cancellation triggers in the interest list: descriptor,
                                           operation, and whether it can still be reported *)
  spawns : spawn_state
}.

Definition op0 : op := mk_op KSchedule PNone None false false error false AtNone.
Definition init : state :=
  mk_state 0 (fun _ => op0) 0 0 [] None [] false 0 false [] [] LIdle [] [] [] false [] (mk_spawn 0 [] 0).

Inductive label :=
| LTick (d : N)                   (* time passes *)
| LSchedule                       (* co_await schedule() / yield(), process_tasks_inline *)
| LResume                         (* resume(handle), process_tasks_inline *)
| LYieldFor (amount : Z)
| LYieldUntil (time : Z)
| LPoll (fd : nat) (token : option nat) (timeout_ms : Z)
| LSpawn                          (* spawn_detached: m_size.fetch_add(1) *)
| LSpawnResume                    (* ... and resume(wrapper_task.handle()) *)
| LDetachedDone (i : nat)         (* user_final_suspend of a detached task *)
| LBadFd (i : nat)                (* watch() fails for another reason (EBADF, EPERM) *)
| LOp (i : nat)                   (* the operation's next step *)
| LTrigger (i : nat)              (* the compare-exchange on m_schedule_pipe_triggered *)
| LWrite (i : nat)                (* the write to m_schedule_pipe *)
| LCheck (pool_size : nat)        (* the condition of the dedicated thread's loop *)
| LEpoll (batch : list item)      (* epoll_wait returns *)
| LLoop                           (* the event loop's next step *)
| LShutdown.

Inductive event :=
| EvStart (i : nat)
| EvRefused                       (* resume() returns false *)
| EvResume (i : nat) (st : poll_status) (t : Z)   (* handle.resume() *)
| EvUseAfterFree (i : nat)
| EvScheduleUseAfterFree (i : nat)
| EvLateWatch (i : nat)           (* watch() of an operation that has timed out already *)
| EvTriggerLeft (i : nat)         (* the trigger of an operation that is over is in the interest list *)
| EvWatchFailed (i : nat)         (* EPOLL_CTL_ADD of the descriptor fails *)
| EvTriggerFailed (i : nat)       (* EPOLL_CTL_ADD of the trigger fails *)
| EvUnwatchedOther (i : nat)      (* EPOLL_CTL_DEL for operation i removes another one's descriptor *)
| EvTimerRace (i : nat)           (* add_timer_token during the unlocked update_timeout *)
| EvExit.

(** ** Updates *)

Definition set_ops (s : state) (f : nat -> op) : state :=
  mk_state (now s) f (next s) (m_size s) (m_timed_events s) (armed s) (m_scheduled_ops s) (m_schedule_pipe_triggered s)
    (pipe s) (edge s) (triggering s) (writing s) (loop s) (m_recent_events s) (poll_infos s) (m_handles_to_resume s)
    (m_shutdown_requested s) (triggers s) (spawns s).
Definition set_op (s : state) (i : nat) (o : op) : state := set_ops s ((ops s).[i ↦ o]).
Definition set_timers (s : state) (x : timed_events * option Z) : state :=
  mk_state (now s) (ops s) (next s) (m_size s) (fst x) (snd x) (m_scheduled_ops s) (m_schedule_pipe_triggered s)
    (pipe s) (edge s) (triggering s) (writing s) (loop s) (m_recent_events s) (poll_infos s) (m_handles_to_resume s)
    (m_shutdown_requested s) (triggers s) (spawns s).
Definition set_sched (s : state) (l : list nat) (t : bool) (p : nat) (e : bool) (tg wr : list nat) : state :=
  mk_state (now s) (ops s) (next s) (m_size s) (m_timed_events s) (armed s) l t p e tg wr
    (loop s) (m_recent_events s) (poll_infos s) (m_handles_to_resume s) (m_shutdown_requested s) (triggers s) (spawns s).
Definition set_loop (s : state) (p : lpc) (b : list item) (e h : list nat) : state :=
  mk_state (now s) (ops s) (next s) (m_size s) (m_timed_events s) (armed s) (m_scheduled_ops s) (m_schedule_pipe_triggered s)
    (pipe s) (edge s) (triggering s) (writing s) p b e h (m_shutdown_requested s) (triggers s) (spawns s).
Definition goto (s : state) (p : lpc) : state := set_loop s p (m_recent_events s) (poll_infos s) (m_handles_to_resume s).

(** m_size.fetch_add / fetch_sub *)
Definition add_size (s : state) (d : Z) : state :=
  mk_state (now s) (ops s) (next s) (u64 (m_size s + d)) (m_timed_events s) (armed s) (m_scheduled_ops s)
    (m_schedule_pipe_triggered s) (pipe s) (edge s) (triggering s) (writing s) (loop s) (m_recent_events s) (poll_infos s)
    (m_handles_to_resume s) (m_shutdown_requested s) (triggers s) (spawns s).

Definition set_triggers (s : state) (l : list (nat * nat * bool)) : state :=
  mk_state (now s) (ops s) (next s) (m_size s) (m_timed_events s) (armed s) (m_scheduled_ops s)
    (m_schedule_pipe_triggered s) (pipe s) (edge s) (triggering s) (writing s) (loop s) (m_recent_events s) (poll_infos s)
    (m_handles_to_resume s) (m_shutdown_requested s) l (spawns s).
Definition set_spawns (s : state) (x : spawn_state) : state :=
  mk_state (now s) (ops s) (next s) (m_size s) (m_timed_events s) (armed s) (m_scheduled_ops s)
    (m_schedule_pipe_triggered s) (pipe s) (edge s) (triggering s) (writing s) (loop s) (m_recent_events s) (poll_infos s)
    (m_handles_to_resume s) (m_shutdown_requested s) (triggers s) x.

Definition o_at (o : op) (p : pc) (l : place) : op :=
  mk_op (o_kind o) p (o_tp o) (m_timer_pos o) (m_processed o) (m_poll_status o) (o_registered o) l.

(** ** Starting an operation: m_size.fetch_add(1) and the poll_info *)

Definition start (s : state) (k : kind) (p : pc) : option (state * list event) :=
  if m_size s <? u64_max then
    let i := next s in
    let s1 := add_size (set_op s i (mk_op k p None false false error false AtNone)) 1 in
    Some (mk_state (now s1) (ops s1) (S i) (m_size s1) (m_timed_events s1) (armed s1) (m_scheduled_ops s1)
            (m_schedule_pipe_triggered s1) (pipe s1) (edge s1) (triggering s1) (writing s1) (loop s1) (m_recent_events s1)
            (poll_infos s1) (m_handles_to_resume s1) (m_shutdown_requested s1) (triggers s1) (spawns s1), [EvStart i])
  else None.

(** schedule_operation of schedule() and yield() *)
Definition schedule (s : state) := start s KSchedule PPush.
(** resume(handle), for a handle that is neither null nor done *)
Definition resume (s : state) := if m_shutdown_requested s then Some (s, [EvRefused]) else schedule s.
(** yield_for_internal(amount) *)
Definition yield_for_internal (s : state) (amount : Z) :=
  if amount <=? 0 then schedule s else start s KYield (PAdd (now s + amount)).
(** yield_until(time) *)
Definition yield_until (s : state) (time : Z) :=
  if time <=? now s then schedule s else start s KYield (PAdd (yield_until_tp (now s) time)).
(** poll(fd, op, timeout, cancel_trigger) *)
Definition poll (s : state) (fd : nat) (token : option nat) (timeout_ms : Z) :=
  start s (KPoll fd token) (if 0 <? timeout_ms then PAdd (now s + timeout_ms * ns_per_ms) else PWatch).

Fixpoint remove_first (i : nat) (l : list nat) : list nat :=
  match l with [] => [] | x :: l' => if decide (x = i) then l' else x :: remove_first i l' end.

(** spawn_detached(task): m_size.fetch_add(1) *)
Definition spawn_detached (s : state) : option (state * list event) :=
  if m_size s <? u64_max then
    let x := spawns s in
    Some (set_spawns (add_size s 1) (mk_spawn (S (spawning x)) (detached x) (leaked x)), [])
  else None.
(** ... return resume(wrapper_task.handle()): nothing undoes the increment of a refused one *)
Definition spawn_resume (s : state) : option (state * list event) :=
  match spawning (spawns s) with
  | O => None
  | S n =>
      let x := spawns s in
      if m_shutdown_requested s then Some (set_spawns s (mk_spawn n (detached x) (S (leaked x))), [EvRefused])
      else
        match schedule s with
        | Some (s1, ev) => Some (set_spawns s1 (mk_spawn n (next s :: detached x) (leaked x)), ev)
        | None => None
        end
  end.
(** user_final_suspend: m_size.fetch_sub(1), in a task that has been resumed *)
Definition detached_done (s : state) (i : nat) : option (state * list event) :=
  let x := spawns s in
  match o_pc (ops s i) with
  | PResumed =>
      if decide (i ∈ detached x)
      then Some (set_spawns (add_size s (-1)) (mk_spawn (spawning x) (remove_first i (detached x)) (leaked x)), [])
      else None
  | _ => None
  end.

(** ** The interest list of epoll *)

Definition registered_as (fd : nat) (o : op) : bool := o_registered o && bool_decide (o_fd o = Some fd).
Definition unreg (o : op) : op :=
  mk_op (o_kind o) (o_pc o) (o_tp o) (m_timer_pos o) (m_processed o) (m_poll_status o) false (o_place o).
Definition clear (fd : nat) (o : op) : op := if registered_as fd o then unreg o else o.

Definition in_interest (s : state) (fd : nat) : bool :=
  existsb (fun j => registered_as fd (ops s j)) (seq 0 (next s)) || existsb (fun x => (fst (fst x) =? fd)%nat) (triggers s).

(** epoll_ctl(EPOLL_CTL_DEL, fd): the entry goes, whoever made it *)
Definition unwatch_fd (s : state) (fd : nat) : state :=
  set_triggers (set_ops s (fun j => clear fd (ops s j))) (List.filter (fun x => negb (fst (fst x) =? fd)%nat) (triggers s)).
Definition steals (s : state) (i fd : nat) : list event :=
  if existsb (fun j => negb (j =? i)%nat && registered_as fd (ops s j)) (seq 0 (next s)) then [EvUnwatchedOther i] else [].
(** m_io_notifier.unwatch(pi), given a valid descriptor *)
Definition unwatch (s : state) (i : nat) : state * list event :=
  match o_fd (ops s i) with Some fd => (unwatch_fd s fd, steals s i fd) | None => (s, []) end.

(** The trigger of [i] can be reported; it is, and (EPOLLONESHOT) can not be any more. *)
Definition trigger_armed (s : state) (i : nat) : bool := existsb (fun x => (snd (fst x) =? i)%nat && snd x) (triggers s).
Definition fire (s : state) (i : nat) : state :=
  set_triggers s (map (fun x => if (snd (fst x) =? i)%nat then (fst x, false) else x) (triggers s)).
Definition reported (b : list item) (i : nat) : bool :=
  existsb (fun x => match x with IPoll j _ => (j =? i)%nat | _ => false end) b.

(** ** The rest of the operation, on the coroutine's own thread *)

(** poll_awaiter::await_suspend *)
Definition await_suspend (s : state) (i : nat) : state :=
  set_op s i (o_at (ops s i) PWaiting (o_place (ops s i))).

(** The first half of m_io_notifier.watch(pi): EPOLL_CTL_ADD of the descriptor, the result of
    which is dropped.  [ok]: there is no reason but EEXIST to fail. *)
Definition watch (s : state) (i : nat) (ok : bool) : state * list event :=
  let o := ops s i in
  let reg := ok && negb (match o_fd o with Some fd => in_interest s fd | None => true end) in
  (set_op s i (mk_op (o_kind o) (match o_token o with Some _ => PTrigger | None => PSuspend end) (o_tp o) (m_timer_pos o)
     (m_processed o) (m_poll_status o) reg (match o_place o with AtNone => AtPending | l => l end)),
   if reg then if m_processed o then [EvLateWatch i] else [] else [EvWatchFailed i]).

(** The second half: EPOLL_CTL_ADD of the trigger.  It comes too late when the loop has
    already been told of the descriptor, or has processed the timeout. *)
Definition watch_trigger (s : state) (i : nat) : state * list event :=
  let o := ops s i in
  let s1 := set_op s i (o_at o PSuspend (o_place o)) in
  match o_token o with
  | Some c =>
      if in_interest s c then (s1, [EvTriggerFailed i])
      else (set_triggers s1 ((c, i, true) :: triggers s1),
            if m_processed o || reported (m_recent_events s) i then [EvTriggerLeft i] else [])
  | None => (s1, [])
  end.

Definition exec_op (s : state) (i : nat) : option (state * list event) :=
  let o := ops s i in
  match o_pc o with
  | PPush =>                      (* m_awaiting_coroutine = ...; awaiter_list_push *)
      Some (set_sched (set_op s i (o_at o PWaiting AtScheduled)) (i :: m_scheduled_ops s) (m_schedule_pipe_triggered s)
              (pipe s) (edge s) (i :: triggering s) (writing s), [])
  | PAdd tp =>                    (* add_timer_token, and pi.m_timer_pos = its result in poll() *)
      let o' := mk_op (o_kind o) (match o_kind o with KPoll _ _ => PWatch | _ => PSuspend end) (Some tp)
                  (match o_kind o with KPoll _ _ => true | _ => false end) (m_processed o) (m_poll_status o) (o_registered o) AtPending in
      Some (set_timers (set_op s i o') (add_timer_token (now s) tp i (m_timed_events s) (armed s)),
            match loop s with LArm _ => [EvTimerRace i] | _ => [] end)
  | PWatch => Some (watch s i true)
  | PTrigger => Some (watch_trigger s i)
  | PSuspend => Some (await_suspend s i, [])
  | PNone | PWaiting | PResumed => None
  end.

(** Reading this->m_scheduler of a schedule_operation. *)
Definition read_this (s : state) (i : nat) : list event :=
  match o_pc (ops s i) with PResumed => [EvScheduleUseAfterFree i] | _ => [] end.

(** compare_exchange_strong(m_schedule_pipe_triggered, false, true) *)
Definition exec_trigger (s : state) (i : nat) : option (state * list event) :=
  if decide (i ∈ triggering s) then
    Some (set_sched s (m_scheduled_ops s) true (pipe s) (edge s) (remove_first i (triggering s))
            (if m_schedule_pipe_triggered s then writing s else i :: writing s), read_this s i)
  else None.

(** m_schedule_pipe.write *)
Definition exec_write (s : state) (i : nat) : option (state * list event) :=
  if decide (i ∈ writing s) then
    Some (set_sched s (m_scheduled_ops s) (m_schedule_pipe_triggered s) (S (pipe s)) true (triggering s)
            (remove_first i (writing s)), read_this s i)
  else None.

(** ** The event loop *)

(** What epoll_wait may report: the timer when it is due (it then stays silent), the
    schedule pipe once per edge, the shutdown pipe, and descriptors and triggers that are
    registered (a trigger with the status cancelled, as next_events reports it). *)
Definition reportable (s : state) (x : item) : bool :=
  match x with
  | ITimer => match armed s with Some d => d <=? now s | None => false end
  | ISchedule => edge s
  | IShutdown => m_shutdown_requested s
  | IPoll i st => match st with timeout => false | cancelled => trigger_armed s i | _ => o_registered (ops s i) end
  end.
Definition has (x : item) (b : list item) : bool :=
  existsb (fun y => match x, y with ITimer, ITimer | ISchedule, ISchedule => true | _, _ => false end) b.

(** ... each descriptor of the loop's own at most once. *)
Definition once (b : list item) : bool :=
  (length (List.filter (fun x => match x with ISchedule => true | _ => false end) b) <=? 1)%nat.

(** Reading a poll_info. *)
Definition read_pi (s : state) (i : nat) : list event :=
  match o_pc (ops s i) with PResumed => [EvUseAfterFree i] | _ => [] end.

(** One round of the loop of next_events: it reads the poll_info, and removes the descriptor
    of a poll that was cancelled and the trigger of one that was not *)
Definition next_event (s : state) (x : item) : state * list event :=
  match x with
  | IPoll i cancelled => let '(s1, ev) := unwatch (fire s i) i in (s1, read_pi s i ++ ev)
  | IPoll i _ => match o_token (ops s i) with
                 | Some c => (unwatch_fd s c, read_pi s i ++ steals s i c)
                 | None => (s, read_pi s i)
                 end
  | _ => (s, [])
  end.
Fixpoint next_events (s : state) (b : list item) : state * list event :=
  match b with
  | [] => (s, [])
  | x :: b => let '(s1, ev1) := next_event s x in let '(s2, ev2) := next_events s1 b in (s2, ev1 ++ ev2)
  end.

Definition exec_epoll (s : state) (b : list item) : option (state * list event) :=
  match loop s with
  | LWait =>
      if forallb (reportable s) b && once b then
        let s1 := set_timers s (m_timed_events s, if has ITimer b then None else armed s) in
        let s2 := set_sched s1 (m_scheduled_ops s1) (m_schedule_pipe_triggered s1) (pipe s1)
                    (if has ISchedule b then false else edge s1) (triggering s1) (writing s1) in
        let '(s3, ev) := next_events s2 b in
        Some (set_loop s3 LItems b (poll_infos s3) (m_handles_to_resume s3), ev)
      else None
  | _ => None
  end.

(** process_event_execute(pi, status), up to the wait for m_awaiting_coroutine *)
Definition process_event_execute (s : state) (i : nat) (st : poll_status) : state * list event :=
  if m_processed (ops s i) then (s, read_pi s i)
  else
    let '(s0, ev) := unwatch s i in
    let o := ops s0 i in
    let s1 := set_op s0 i (mk_op (o_kind o) (o_pc o) (o_tp o) (m_timer_pos o) true st (o_registered o) AtSpin) in
    let s2 := if m_timer_pos o then set_timers s1 (remove_timer_token (now s1) i (m_timed_events s1) (armed s1)) else s1 in
    (goto s2 (LSpinEvent i), read_pi s i ++ ev).

(** One round of the second loop of process_timeout_execute, up to that wait *)
Definition process_timeout_one (s : state) (i : nat) : state * list event :=
  if m_processed (ops s i) then (s, read_pi s i)
  else
    let '(s0, ev) := unwatch s i in
    let o := ops s0 i in
    let s1 := set_op s0 i (mk_op (o_kind o) (o_pc o) (o_tp o) (m_timer_pos o) true (m_poll_status o) (o_registered o) AtSpin) in
    (goto s1 (LSpinTimeout i), read_pi s i ++ ev ++ if trigger_armed s0 i then [EvTriggerLeft i] else []).

(** m_handles_to_resume.emplace_back(pi->m_awaiting_coroutine) *)
Definition to_handles (s : state) (i : nat) (o : op) (p : lpc) : state :=
  set_loop (set_op s i (o_at o (o_pc o) AtHandle)) p (m_recent_events s) (poll_infos s) (m_handles_to_resume s ++ [i]).

(** process_timeout_execute *)
Definition process_timeout_execute (s : state) (p : lpc) : option (state * list event) :=
  match p with
  | LPop t =>
      let '(e, r) := pop_expired t (m_timed_events s) in
      let s1 := set_ops s (fun j => if decide (j ∈ e) then o_at (ops s j) (o_pc (ops s j)) AtExpired else ops s j) in
      Some (set_loop (set_timers s1 (r, armed s)) LExpired (m_recent_events s) (poll_infos s ++ e) (m_handles_to_resume s), [])
  | LExpired =>
      match poll_infos s with
      | [] => Some (goto s LRead, [])
      | i :: e => Some (process_timeout_one (set_loop s LExpired (m_recent_events s) e (m_handles_to_resume s)) i)
      end
  | LSpinTimeout i =>
      match o_pc (ops s i) with
      | PWaiting =>
          let o := ops s i in
          Some (to_handles s i (mk_op (o_kind o) (o_pc o) (o_tp o) (m_timer_pos o) (m_processed o) timeout
                                  (o_registered o) (o_place o)) LExpired, [])
      | _ => None
      end
  | LRead => Some (goto s (LArm (m_timed_events s)), [])
  | LArm first => Some (set_timers (goto s LItems) (m_timed_events s, update_timeout (now s) first), [])
  | _ => None
  end.

(** process_scheduled_execute_inline *)
Definition process_scheduled_execute_inline (s : state) (p : lpc) : option (state * list event) :=
  match p with
  | LDrain =>                     (* while (true) read(16 bytes): a full read continues *)
      if (4 <=? pipe s)%nat then
        Some (set_sched s (m_scheduled_ops s) (m_schedule_pipe_triggered s) (pipe s - 4) (edge s) (triggering s) (writing s), [])
      else
        Some (goto (set_sched s (m_scheduled_ops s) (m_schedule_pipe_triggered s) 0 (edge s) (triggering s) (writing s)) LReset, [])
  | LReset =>
      Some (goto (set_sched s (m_scheduled_ops s) false (pipe s) (edge s) (triggering s) (writing s)) LPopAll, [])
  | LPopAll =>                    (* pop_all, reverse, collect *)
      let l := rev (m_scheduled_ops s) in
      let s1 := set_ops s (fun j => if decide (j ∈ l) then o_at (ops s j) (o_pc (ops s j)) AtHandle else ops s j) in
      let s2 := set_sched s1 [] (m_schedule_pipe_triggered s1) (pipe s1) (edge s1) (triggering s1) (writing s1) in
      Some (set_loop s2 LItems (m_recent_events s) (poll_infos s) (m_handles_to_resume s ++ l), [])
  | _ => None
  end.

(** The end of process_events_execute: resuming the collected handles *)
Definition flush (s : state) (p : lpc) : option (state * list event) :=
  match p with
  | LFlush n =>
      match m_handles_to_resume s with
      | [] => Some (goto s (LSub n), [])
      | i :: h =>
          let o := ops s i in
          Some (set_loop (set_op s i (o_at o PResumed AtDone)) (LFlush (S n)) (m_recent_events s) (poll_infos s) h,
                [EvResume i (m_poll_status o) (now s)])
      end
  | LSub n => Some (goto (add_size s (- Z.of_nat n)) LIdle, [])
  | _ => None
  end.

(** process_events_execute *)
Definition exec_loop (s : state) : option (state * list event) :=
  match loop s with
  | LIdle | LWait | LExit => None
  | LItems =>
      match m_recent_events s with
      | [] =>
          match m_handles_to_resume s with
          | [] => Some (goto s LIdle, [])
          | _ => Some (goto s (LFlush 0), [])
          end
      | x :: b =>
          let s1 := set_loop s LItems b (poll_infos s) (m_handles_to_resume s) in
          match x with
          | ITimer => Some (goto s1 (LPop (now s)), [])
          | ISchedule => Some (goto s1 LDrain, [])
          | IShutdown => Some (s1, [])
          | IPoll i st => Some (process_event_execute s1 i st)
          end
      end
  | LSpinEvent i =>
      match o_pc (ops s i) with
      | PWaiting => Some (to_handles s i (ops s i) LItems, [])
      | _ => None
      end
  | (LPop _ | LExpired | LSpinTimeout _ | LRead | LArm _) as p => process_timeout_execute s p
  | (LDrain | LReset | LPopAll) as p => process_scheduled_execute_inline s p
  | (LFlush _ | LSub _) as p => flush s p
  end.

(** while (!m_shutdown_requested || size() > 0) process_events_execute() *)
Definition exec_check (s : state) (pool_size : nat) : option (state * list event) :=
  match loop s with
  | LIdle =>
      if m_shutdown_requested s && (m_size s + Z.of_nat pool_size <=? 0) then Some (goto s LExit, [EvExit])
      else Some (goto s LWait, [])
  | _ => None
  end.

Definition exec (l : label) (s : state) : option (state * list event) :=
  match l with
  | LTick d =>
      Some (mk_state (now s + Z.of_N d) (ops s) (next s) (m_size s) (m_timed_events s) (armed s) (m_scheduled_ops s)
              (m_schedule_pipe_triggered s) (pipe s) (edge s) (triggering s) (writing s) (loop s) (m_recent_events s)
              (poll_infos s) (m_handles_to_resume s) (m_shutdown_requested s) (triggers s) (spawns s), [])
  | LSchedule => schedule s
  | LResume => resume s
  | LYieldFor amount => yield_for_internal s amount
  | LYieldUntil time => yield_until s time
  | LPoll fd token timeout_ms => poll s fd token timeout_ms
  | LSpawn => spawn_detached s
  | LSpawnResume => spawn_resume s
  | LDetachedDone i => detached_done s i
  | LBadFd i => match o_pc (ops s i) with PWatch => Some (watch s i false) | _ => None end
  | LOp i => exec_op s i
  | LTrigger i => exec_trigger s i
  | LWrite i => exec_write s i
  | LCheck k => exec_check s k
  | LEpoll b => exec_epoll s b
  | LLoop => exec_loop s
  | LShutdown =>
      Some (mk_state (now s) (ops s) (next s) (m_size s) (m_timed_events s) (armed s) (m_scheduled_ops s)
              (m_schedule_pipe_triggered s) (pipe s) (edge s) (triggering s) (writing s) (loop s) (m_recent_events s)
              (poll_infos s) (m_handles_to_resume s) true (triggers s) (spawns s), [])
  end.

(** ** Invariants

    The states an operation can be in, given that nothing was registered after it was over. *)

Definition due (t : Z) (o : op) : bool := match o_tp o with Some tp => tp <=? t | None => false end.
Definition has_tp (o : op) : bool := match o_tp o with Some _ => true | None => false end.
Definition is_timeout (st : poll_status) : bool := match st with timeout => true | _ => false end.
Definition is_poll (o : op) : bool := match o_kind o with KPoll _ _ => true | _ => false end.

(** With the event loop: unprocessed until it spins or has the handle; [reg]: the descriptor
    may be in the interest list. *)
Definition placed (t : Z) (o : op) (reg : bool) : bool :=
  match o_place o with
  | AtPending => negb (m_processed o) && implb (o_registered o) reg && negb (is_timeout (m_poll_status o))
  | AtExpired => negb (m_processed o) && implb (o_registered o) reg && due t o && negb (is_timeout (m_poll_status o))
  | AtSpin => m_processed o && negb (o_registered o) && negb (is_timeout (m_poll_status o))
  | _ => false
  end.
Definition in_handles (t : Z) (o : op) : bool :=
  match o_place o with
  | AtHandle => m_processed o && negb (o_registered o) && (if is_timeout (m_poll_status o) then due t o else is_poll o)
  | _ => false
  end.
Definition at_none (o : op) : bool :=
  match o_place o with
  | AtNone => negb (m_processed o) && negb (o_registered o) && negb (m_timer_pos o) && negb (has_tp o) &&
              negb (is_timeout (m_poll_status o))
  | _ => false
  end.

Definition op_ok (t : Z) (o : op) : bool :=
  match o_kind o, o_pc o with
  | KSchedule, (PNone | PPush) => at_none o
  | KSchedule, PWaiting =>
      match o_place o with AtScheduled | AtHandle => true | _ => false end && negb (o_registered o) && negb (is_timeout (m_poll_status o))
  | KYield, PAdd _ => at_none o
  | KYield, PSuspend => has_tp o && negb (m_timer_pos o) && placed t o false
  | KYield, PWaiting => has_tp o && negb (m_timer_pos o) && (placed t o false || in_handles t o)
  | KPoll _ _, PAdd _ => at_none o
  | KPoll _ _, PWatch => at_none o || (has_tp o && m_timer_pos o && placed t o false)
  | KPoll _ _, (PTrigger | PSuspend) => eqb (has_tp o) (m_timer_pos o) && placed t o true
  | KPoll _ _, PWaiting => eqb (has_tp o) (m_timer_pos o) && (placed t o true || in_handles t o)
  | _, PResumed => match o_place o with AtDone => negb (o_registered o) | _ => false end
  | _, _ => false
  end.

Definition b2n (b : bool) : nat := if b then 1%nat else 0%nat.
Definition at_place (o : op) (p : place) : bool :=
  match o_place o, p with
  | AtPending, AtPending | AtExpired, AtExpired | AtSpin, AtSpin | AtScheduled, AtScheduled | AtHandle, AtHandle => true
  | _, _ => false
  end.
Definition spin_of (p : lpc) : option nat := match p with LSpinEvent i | LSpinTimeout i => Some i | _ => None end.

(** The lists of the scheduler hold exactly the operations that are there, once. *)
Record linked (s : state) (j : nat) : Prop := {
  k_ok : op_ok (now s) (ops s j) = true;
  k_timed : occ j (map snd (m_timed_events s)) = b2n (at_place (ops s j) AtPending && has_tp (ops s j));
  k_expired : occ j (poll_infos s) = b2n (at_place (ops s j) AtExpired);
  k_handle : occ j (m_handles_to_resume s) = b2n (at_place (ops s j) AtHandle);
  k_sched : occ j (m_scheduled_ops s) = b2n (at_place (ops s j) AtScheduled);
  k_spin : at_place (ops s j) AtSpin = bool_decide (spin_of (loop s) = Some j)
}.

(** What m_recent_events may hold. *)
Definition pollable (o : op) : bool :=
  is_poll o && match o_pc o with PTrigger | PSuspend | PWaiting => true | _ => false end.
Definition item_ok (f : nat -> op) (x : item) : bool :=
  match x with IPoll i st => pollable (f i) && negb (is_timeout st) | _ => true end.

Definition shape (s : state) : bool :=
  match loop s with
  | LIdle | LWait | LExit | LSub _ =>
      match m_recent_events s, poll_infos s, m_handles_to_resume s with [], [], [] => true | _, _, _ => false end
  | LFlush _ => match m_recent_events s, poll_infos s with [], [] => true | _, _ => false end
  | LExpired | LSpinTimeout _ => true
  | _ => match poll_infos s with [] => true | _ => false end
  end.

(** What the loop knows of the operation it waits for, and of its reading of the clock. *)
Definition loop_ok (s : state) : bool :=
  match loop s with
  | LSpinEvent i => is_poll (ops s i)
  | LSpinTimeout i => due (now s) (ops s i)
  | LPop t => t <=? now s
  | _ => true
  end.

Record inv (s : state) : Prop := {
  i_linked j : linked s j;
  i_items : forallb (item_ok (ops s)) (m_recent_events s) = true;
  i_shape : shape s = true;
  i_loop : loop_ok s = true;
  i_tp tp i : (tp, i) ∈ m_timed_events s -> o_tp (ops s i) = Some tp;
  i_sorted : sorted (m_timed_events s);
  i_fresh i : (next s <= i)%nat -> o_pc (ops s i) = PNone
}.

Lemma op_ok_later t t' o : t <= t' -> op_ok t o = true -> op_ok t' o = true.
Proof.
  intros Ht. unfold op_ok, placed, in_handles. assert (due t o = true -> due t' o = true) as Hd.
  { unfold due. destruct (o_tp o) as [tp|]; [|done]. intros H%Z.leb_le. apply Z.leb_le. lia. }
  destruct (o_kind o), (o_pc o), (o_place o), (is_timeout (m_poll_status o)), (due t o), (due t' o); try done;
    try (discriminate (Hd eq_refl)); rewrite ?andb_false_r, ?andb_false_l, ?orb_false_r; try done;
    destruct (at_none o), (has_tp o), (m_timer_pos o), (m_processed o), (o_registered o); done.
Qed.

Lemma items_ext f g b : (forall i, pollable (f i) = true -> pollable (g i) = true) ->
  forallb (item_ok f) b = true -> forallb (item_ok g) b = true.
Proof.
  intros H. induction b as [|x b IH]; cbn; [done|]. intros [H1 H2]%andb_true_iff. rewrite IH by done. rewrite andb_true_r.
  destruct x as [| | |i st]; [done..|]. cbn in *. apply andb_true_iff in H1 as [H1 ->]. by rewrite H.
Qed.

Lemma sch_init_inv : inv init.
Proof. split; try done; [cbn; intros; no_nil|constructor]. Qed.

(** A step that changes neither the operations nor the lists. *)
Lemma linked_same s s' j : now s <= now s' -> ops s' j = ops s j ->
  m_timed_events s' = m_timed_events s -> poll_infos s' = poll_infos s ->
  m_handles_to_resume s' = m_handles_to_resume s -> m_scheduled_ops s' = m_scheduled_ops s ->
  spin_of (loop s') = spin_of (loop s) -> linked s j -> linked s' j.
Proof.
  intros Hn E1 E2 E3 E4 E5 E6 []. split; rewrite ?E1, ?E2, ?E3, ?E4, ?E5, ?E6; try done. by eapply op_ok_later.
Qed.

Lemma sch_start_inv s k p s' ev : start s k p = Some (s', ev) ->
  match k, p with KSchedule, PPush | KYield, PAdd _ | KPoll _ _, (PAdd _ | PWatch) => True | _, _ => False end ->
  inv s -> inv s'.
Proof.
  unfold start. destruct (m_size s <? u64_max); [|done]. intros [= <- <-] Hk [H1 H2 H3 H4 H5 H6 H7].
  assert (op_ok (now s) (ops s (next s)) = true) as Hok by apply H1.
  assert (at_none (ops s (next s)) = true) as Hno.
  { unfold op_ok in Hok. rewrite H7 in Hok by done. by destruct (o_kind (ops s (next s))). }
  assert (pollable (ops s (next s)) = false) as Hnp.
  { unfold pollable. rewrite H7 by done. by rewrite andb_false_r. }
  split; cbn; try done.
  - intros j. destruct (H1 j) as [A1 A2 A3 A4 A5 A6]. unfold at_none in Hno. split; cbn; upd_cases; try done.
    1: by destruct k, p.
    all: cbn; destruct (o_place (ops s (next s))) eqn:Hp; try done; unfold at_place in *; rewrite ?Hp in *; cbn in *; congruence.
  - revert H2. apply items_ext. intros i Hi. upd_cases; [|done]. congruence.
  - unfold loop_ok in *. cbn. destruct (loop s) eqn:Hl; try done; upd_cases; try done.
    all: destruct (H1 (next s)) as [_ _ _ _ _ A6]; rewrite Hl in A6; cbn in A6; rewrite bool_decide_eq_true_2 in A6 by done;
      unfold at_none, at_place in *; by destruct (o_place (ops s (next s))).
  - intros tp i Hin. upd_cases; [|by apply H5]. apply H5 in Hin.
    unfold at_none, has_tp in Hno. rewrite Hin in Hno. destruct (o_place _); try done. by rewrite !andb_false_r in Hno.
  - intros i Hi. upd_cases; [lia|]. apply H7. lia.
Qed.

(** One operation moves: the others stay linked, and it does when the table allows it. *)
Lemma linked_others s s' i o : ops s' = (ops s).[i ↦ o] -> now s = now s' ->
  (forall j, j <> i -> occ j (map snd (m_timed_events s')) = occ j (map snd (m_timed_events s)) /\
     occ j (poll_infos s') = occ j (poll_infos s) /\ occ j (m_handles_to_resume s') = occ j (m_handles_to_resume s) /\
     occ j (m_scheduled_ops s') = occ j (m_scheduled_ops s) /\
     bool_decide (spin_of (loop s') = Some j) = bool_decide (spin_of (loop s) = Some j)) ->
  linked s' i -> (forall j, linked s j) -> forall j, linked s' j.
Proof.
  intros Ho Hn Hoth Hi H j. destruct (decide (j = i)) as [->|Hne]; [done|].
  destruct (Hoth j Hne) as (E2 & E3 & E4 & E5 & E6). destruct (H j).
  split; rewrite ?Ho, ?upd_ne, <- ?Hn, ?E2, ?E3, ?E4, ?E5, ?E6 by done; done.
Qed.

Lemma items_upd f i o b : (pollable (f i) = true -> pollable o = true) ->
  forallb (item_ok f) b = true -> forallb (item_ok (f.[i ↦ o])) b = true.
Proof. intros H. apply items_ext. intros j. upd_cases; auto. Qed.

(** A registration that outlives its poll: the descriptor's or the trigger's. *)
Definition left_over (tr : list event) : bool :=
  existsb (fun e => match e with EvLateWatch _ | EvTriggerLeft _ => true | _ => false end) tr.

(** A step of an operation on its own thread. *)
Lemma sch_inv_move s s' i o : inv s -> ops s' = (ops s).[i ↦ o] -> now s' = now s -> next s' = next s -> loop s' = loop s ->
  m_recent_events s' = m_recent_events s -> poll_infos s' = poll_infos s -> m_handles_to_resume s' = m_handles_to_resume s ->
  o_pc (ops s i) <> PNone -> o_kind o = o_kind (ops s i) ->
  (pollable (ops s i) = true -> pollable o = true) -> (due (now s) (ops s i) = true -> due (now s) o = true) ->
  (forall j, j <> i -> occ j (map snd (m_timed_events s')) = occ j (map snd (m_timed_events s)) /\
     occ j (m_scheduled_ops s') = occ j (m_scheduled_ops s)) ->
  linked s' i -> (forall tp j, (tp, j) ∈ m_timed_events s' -> o_tp (ops s' j) = Some tp) -> sorted (m_timed_events s') ->
  inv s'.
Proof.
  intros [H1 H2 H3 H4 H5 H6 H7] Eo En Ex El Eb Ei Eh Hpc Hk Hp Hd Hoth Hi Htp Hs. split; try done.
  - apply (linked_others s s' i o); try done. intros j Hne. destruct (Hoth j Hne) as [-> ->]. by rewrite Ei, Eh, El.
  - rewrite Eb, Eo. by apply items_upd.
  - unfold shape. by rewrite El, Eb, Ei, Eh.
  - unfold loop_ok in *. rewrite El, En, Eo. destruct (loop s); try done; upd_cases; auto.
    unfold is_poll in *. by rewrite Hk.
  - intros j Hj. rewrite Eo. rewrite Ex in Hj. upd_cases; [|by apply H7]. by rewrite H7 in Hpc.
Qed.

Lemma not_pollable o p : o_pc o = p -> match p with PTrigger | PSuspend | PWaiting => False | _ => True end ->
  forall o', pollable o = true -> pollable o' = true.
Proof. unfold pollable. intros -> Hp o'. destruct p; rewrite ?andb_false_r; done. Qed.

Lemma at_none_fields o : at_none o = true ->
  o_place o = AtNone /\ m_processed o = false /\ o_registered o = false /\ m_timer_pos o = false /\ o_tp o = None /\
  is_timeout (m_poll_status o) = false.
Proof.
  unfold at_none, has_tp. destruct (o_place o), (m_processed o), (o_registered o), (m_timer_pos o), (o_tp o), (is_timeout (m_poll_status o)); done.
Qed.

Lemma watch_inv s i ok s' ev : watch s i ok = (s', ev) -> o_pc (ops s i) = PWatch -> left_over ev = false -> inv s -> inv s'.
Proof.
  unfold watch. set (reg := ok && _). intros [= <- <-] Hpc Hlate Hinv. pose proof Hinv as [H1 H2 H3 H4 H5 H6 H7].
  pose proof (H1 i) as [A1 A2 A3 A4 A5 A6]. unfold op_ok in A1. rewrite Hpc in A1.
  eapply (sch_inv_move s _ i); [done|reflexivity|..]; try done; cbn; [congruence|by apply (not_pollable _ _ Hpc)|..].
  - destruct (o_kind (ops s i)) as [| |fd c] eqn:Hk; try done. unfold o_token. rewrite Hk. unfold at_place in *.
    split; cbn; rewrite ?upd_eq; unfold op_ok, at_place, placed, at_none, has_tp, due in *; cbn; rewrite ?Hk;
      destruct (o_place (ops s i)), (m_processed (ops s i)), reg, c, (o_tp (ops s i)), (m_timer_pos (ops s i)),
        (o_registered (ops s i)), (is_timeout (m_poll_status (ops s i))); try done; cbn in *;
      rewrite ?andb_true_r, ?andb_false_r in *; cbn in *; done.
  - intros tp j Hin. upd_cases; by apply H5.
Qed.

Lemma watch_trigger_inv s i s' ev : watch_trigger s i = (s', ev) -> o_pc (ops s i) = PTrigger -> inv s -> inv s'.
Proof.
  unfold watch_trigger. intros He Hpc Hinv. pose proof Hinv as [H1 H2 H3 H4 H5 H6 H7].
  assert (forall s1, s1 = set_triggers (set_op s i (o_at (ops s i) PSuspend (o_place (ops s i)))) (triggers s1) -> inv s1) as Hmv.
  { intros s1 ->. pose proof (H1 i) as [A1 A2 A3 A4 A5 A6].
    eapply (sch_inv_move s _ i); [done|reflexivity|..]; try done; cbn; [congruence|..].
    - unfold pollable. cbn. by rewrite Hpc.
    - split; cbn; rewrite ?upd_eq; try done. unfold op_ok in *. rewrite Hpc in A1. cbn. by destruct (o_kind (ops s i)).
    - intros tp j Hin. upd_cases; by apply H5. }
  destruct (o_token (ops s i)); [destruct (in_interest s n)|]; injection He as <- <-; by apply Hmv.
Qed.

Lemma exec_op_inv s i s' ev : exec_op s i = Some (s', ev) -> left_over ev = false -> inv s -> inv s'.
Proof.
  unfold exec_op, await_suspend. intros He Hlate Hinv. pose proof Hinv as [H1 H2 H3 H4 H5 H6 H7]. pose proof (H1 i) as [A1 A2 A3 A4 A5 A6].
  destruct (o_pc (ops s i)) as [| |tp| | | | |] eqn:Hpc; try done.
  3: { apply (inj Some) in He. by apply (watch_inv s i true s' ev). }
  3: { apply (inj Some) in He. by apply (watch_trigger_inv s i s' ev). }
  all: injection He as <- <-; unfold op_ok in A1; rewrite Hpc in A1.
  - eapply (sch_inv_move s _ i); [done|reflexivity|..]; try done; cbn; [congruence|by apply (not_pollable _ _ Hpc)|..].
    + intros j Hne. by rewrite decide_False.
    + destruct (o_kind (ops s i)) eqn:Hk; try done. apply at_none_fields in A1 as (E1 & E2 & E3 & E4 & E5 & E6).
      unfold at_place in *. rewrite E1 in *. split; cbn; rewrite ?upd_eq; try done.
      * unfold op_ok. cbn. by rewrite Hk, E3, E6.
      * rewrite decide_True, A5 by done. done.
    + intros tp j Hin. upd_cases; by apply H5.
  - assert (at_none (ops s i) = true) as Hn by (by destruct (o_kind (ops s i))).
    apply at_none_fields in Hn as (E1 & E2 & E3 & E4 & E5 & E6). unfold at_place in *. rewrite E1 in *.
    eapply (sch_inv_move s _ i); [done|reflexivity|..]; try done; cbn; [congruence|by apply (not_pollable _ _ Hpc)|..].
    + unfold due. by rewrite E5.
    + intros j Hne. by rewrite occ_emplace, decide_False.
    + split; cbn; rewrite ?upd_eq; try done.
      * unfold op_ok, placed, has_tp. cbn. rewrite E2, E3, E6. by destruct (o_kind (ops s i)).
      * rewrite occ_emplace, decide_True by done. cbn. rewrite A2. done.
    + intros tp' j [[= -> ->]|Hin]%elem_emplace; [by rewrite upd_eq|]. upd_cases; [|by apply H5].
      apply H5 in Hin. congruence.
    + by apply emplace_sorted.
  - eapply (sch_inv_move s _ i); [done|reflexivity|..]; try done; cbn; [congruence|..].
    + unfold pollable. cbn. by rewrite Hpc.
    + destruct (H1 i). split; cbn; rewrite ?upd_eq; try done. unfold op_ok, placed, in_handles, has_tp, due in *. cbn.
      destruct (o_kind (ops s i)); try done;
        destruct (o_place (ops s i)), (m_processed (ops s i)), (o_registered (ops s i)), (m_timer_pos (ops s i)), (o_tp (ops s i)),
          (is_timeout (m_poll_status (ops s i))); cbn in *; rewrite ?orb_true_r, ?orb_false_r; done.
    + intros tp j Hin. upd_cases; by apply H5.
Qed.

(** Steps that move no operation: time, the pipe, the shutdown flag, the timer. *)
Lemma inv_ext s s' : inv s -> now s <= now s' -> ops s' = ops s -> next s' = next s -> m_timed_events s' = m_timed_events s ->
  poll_infos s' = poll_infos s -> m_handles_to_resume s' = m_handles_to_resume s -> m_scheduled_ops s' = m_scheduled_ops s ->
  spin_of (loop s') = spin_of (loop s) -> forallb (item_ok (ops s)) (m_recent_events s') = true -> shape s' = true ->
  loop_ok s' = true -> inv s'.
Proof.
  intros [H1 H2 H3 H4 H5 H6 H7] En Eo Ex Et Ei Eh Es El Hb Hsh Hlo. split; rewrite ?Eo, ?Et, ?Ex; try done.
  intros j. apply (linked_same s); rewrite ?Eo; done.
Qed.

Lemma loop_ok_later s s' : now s <= now s' -> ops s' = ops s -> loop s' = loop s -> loop_ok s = true -> loop_ok s' = true.
Proof.
  unfold loop_ok, due. intros Hn -> ->. destruct (loop s); try done; [rewrite !Z.leb_le; lia|].
  destruct (o_tp (ops s i)); [|done]. rewrite !Z.leb_le. lia.
Qed.

Lemma registered_pollable t o : op_ok t o = true -> o_registered o = true -> pollable o = true.
Proof.
  unfold op_ok, pollable, is_poll. intros H Hr. unfold at_none, placed, in_handles in H. rewrite Hr in H.
  destruct (o_kind o), (o_pc o), (o_place o); try done; cbn in H; rewrite ?andb_false_r, ?andb_false_l in H; done.
Qed.

(** *** Removing descriptors from the interest list *)

(** Some descriptors and triggers are no longer in the interest list; nothing else changes. *)
Definition loosened (s s' : state) : Prop :=
  s' = set_triggers (set_ops s (ops s')) (triggers s') /\
  (forall j, ops s' j = ops s j \/ o_registered (ops s j) = true /\ ops s' j = unreg (ops s j)) /\
  forall c i, (c, i, true) ∈ triggers s' -> (c, i, true) ∈ triggers s.

Lemma loosened_refl s : loosened s s.
Proof. split_and!; [by destruct s|auto|done]. Qed.

Lemma loosened_trans s1 s2 s3 : loosened s1 s2 -> loosened s2 s3 -> loosened s1 s3.
Proof.
  intros (E1 & O1 & T1) (E2 & O2 & T2). split_and!; [rewrite E2, E1; by destruct s1| |auto].
  intros j. destruct (O2 j) as [->|[Hr ->]]; [apply O1|]. destruct (O1 j) as [E|[_ E]]; rewrite E in *; [auto|done].
Qed.

Lemma loosened_unwatch_fd s fd : loosened s (unwatch_fd s fd).
Proof.
  split_and!; [by destruct s|..]; cbn.
  - intros j. unfold clear, registered_as. destruct (o_registered (ops s j)); cbn; [|auto]. case_bool_decide; auto.
  - intros c i Hin. apply list_elem_of_In, filter_In in Hin as [Hin _]. by apply list_elem_of_In.
Qed.

Lemma loosened_unwatch s i : loosened s (fst (unwatch s i)).
Proof. unfold unwatch. destruct (o_fd (ops s i)); [apply loosened_unwatch_fd|apply loosened_refl]. Qed.

Lemma fire_armed s i c j : (c, j, true) ∈ triggers (fire s i) <-> (c, j, true) ∈ triggers s /\ j <> i.
Proof.
  cbn. rewrite !list_elem_of_In, in_map_iff. split.
  - intros ([[c' j'] a] & Heq & Hin). cbn in Heq. destruct (Nat.eqb_spec j' i) as [->|Hne]; [done|]. by injection Heq as -> -> ->.
  - intros [Hin Hne]. exists (c, j, true). cbn. by destruct (Nat.eqb_spec j i).
Qed.

Lemma loosened_fire s i : loosened s (fire s i).
Proof. split_and!; [by destruct s|auto|]. intros c j [? _]%fire_armed. done. Qed.

Lemma loosened_next_event s x : loosened s (fst (next_event s x)).
Proof.
  destruct x as [| | |i st]; try apply loosened_refl. unfold next_event.
  assert (loosened s (fst (match o_token (ops s i) with
    | Some c => (unwatch_fd s c, read_pi s i ++ steals s i c) | None => (s, read_pi s i) end))) as Hm
    by (destruct (o_token (ops s i)); [apply loosened_unwatch_fd|apply loosened_refl]).
  destruct st; try exact Hm. pose proof (loosened_unwatch (fire s i) i) as Hu. destruct (unwatch (fire s i) i).
  exact (loosened_trans _ _ _ (loosened_fire s i) Hu).
Qed.

Lemma loosened_next_events b : forall s, loosened s (fst (next_events s b)).
Proof.
  induction b as [|x b IH]; cbn; intros s; [apply loosened_refl|]. pose proof (loosened_next_event s x) as H.
  destruct (next_event s x) as [s1 ev1]. specialize (IH s1). destruct (next_events s1 b). by apply (loosened_trans s s1).
Qed.

Lemma op_ok_unreg t o : op_ok t o = true -> op_ok t (unreg o) = true.
Proof.
  unfold op_ok, placed, in_handles, at_none, is_poll, unreg, due, has_tp. cbn.
  destruct (o_kind o), (o_pc o), (o_place o), (o_registered o); cbn; try done;
    rewrite ?andb_false_r, ?andb_false_l, ?orb_false_r; try done;
    repeat match goal with |- context [if ?b then _ else _] => destruct b | |- context [implb false _] => cbn end; try done;
    destruct (m_processed o), (o_tp o), (m_timer_pos o); cbn; done.
Qed.

Lemma loosened_fields s s' j : loosened s s' ->
  o_kind (ops s' j) = o_kind (ops s j) /\ o_pc (ops s' j) = o_pc (ops s j) /\ o_tp (ops s' j) = o_tp (ops s j) /\
  m_timer_pos (ops s' j) = m_timer_pos (ops s j) /\ m_processed (ops s' j) = m_processed (ops s j) /\
  m_poll_status (ops s' j) = m_poll_status (ops s j) /\ o_place (ops s' j) = o_place (ops s j).
Proof. intros (_ & O & _). by destruct (O j) as [->|[_ ->]]. Qed.

Lemma loosened_inv s s' : loosened s s' -> inv s -> inv s'.
Proof.
  intros Hl [H1 H2 H3 H4 H5 H6 H7]. pose proof (fun j => loosened_fields s s' j Hl) as F. destruct Hl as (E & O & T).
  assert (forall j, is_poll (ops s' j) = is_poll (ops s j)) as Fp by (intros j; unfold is_poll; by destruct (F j) as (-> & _)).
  assert (forall j, has_tp (ops s' j) = has_tp (ops s j)) as Fh by (intros j; unfold has_tp; by destruct (F j) as (_ & _ & -> & _)).
  assert (forall j p, at_place (ops s' j) p = at_place (ops s j) p) as Fa
    by (intros j p; unfold at_place; by destruct (F j) as (_ & _ & _ & _ & _ & _ & ->)).
  rewrite E. split; cbn; try done.
  - intros j. destruct (H1 j) as [A1 A2 A3 A4 A5 A6]. split; cbn; rewrite ?Fa, ?Fh; try done.
    destruct (O j) as [->|[_ ->]]; [done|by apply op_ok_unreg].
  - revert H2. apply items_ext. intros j. unfold pollable. destruct (F j) as (_ & -> & _). by rewrite Fp.
  - unfold loop_ok, due in *. cbn. destruct (loop s); try done; [by rewrite Fp|]. by destruct (F i) as (_ & _ & -> & _).
  - intros tp j Hin. destruct (F j) as (_ & _ & -> & _). by apply H5.
  - intros j Hj. destruct (F j) as (_ & -> & _). by apply H7.
Qed.

(** The triggers in the interest list that can be reported are those of polls the loop has
    not heard of. *)
Definition trig_ok (s : state) : Prop := forall c i, (c, i, true) ∈ triggers s ->
  pollable (ops s i) = true /\ m_processed (ops s i) = false /\ o_token (ops s i) = Some c /\ reported (m_recent_events s) i = false.

Lemma trigger_armed_elem s i : trigger_armed s i = true -> exists c, (c, i, true) ∈ triggers s.
Proof.
  unfold trigger_armed. intros ([[c j] a] & Hin & [Hj%Nat.eqb_eq Ha]%andb_true_iff)%existsb_exists. cbn in *. subst.
  exists c. by apply list_elem_of_In.
Qed.

Lemma reportable_items s b : inv s -> trig_ok s -> forallb (reportable s) b = true -> forallb (item_ok (ops s)) b = true.
Proof.
  intros Hinv Ht. induction b as [|x b IH]; [done|]. cbn. intros [Hx Hb]%andb_true_iff. rewrite IH, andb_true_r by done.
  destruct x as [| | |i st]; [done..|]. cbn in *. destruct st; try done; cbn; rewrite andb_true_r;
    try (apply (registered_pollable (now s)); [apply Hinv|done]).
  destruct (trigger_armed_elem s i Hx) as (c & Hin). by destruct (Ht c i Hin).
Qed.

(** The steps of epoll_wait before and after next_events *)
Lemma epoll_split s b s' ev : exec_epoll s b = Some (s', ev) -> loop s = LWait /\ forallb (reportable s) b = true /\ once b = true /\
  exists a e s3, (s3, ev) = next_events (set_sched (set_timers s (m_timed_events s, a)) (m_scheduled_ops s)
                   (m_schedule_pipe_triggered s) (pipe s) e (triggering s) (writing s)) b /\
    a = (if has ITimer b then None else armed s) /\ e = (if has ISchedule b then false else edge s) /\
    s' = set_loop s3 LItems b (poll_infos s) (m_handles_to_resume s).
Proof.
  unfold exec_epoll. intros He. destruct (loop s) eqn:Hl; try done. destruct (forallb (reportable s) b && once b) eqn:Hb; [|done].
  apply andb_true_iff in Hb as [Hb1 Hb2]. split_and!; try done.
  match goal with He : (let '(_, _) := next_events ?x b in _) = _ |- _ => set (s2 := x) in * end.
  pose proof (loosened_next_events b s2) as (E & _). destruct (next_events s2 b) as [s3 ev3] eqn:Hn. injection He as <- <-.
  eexists _, _, s3. split_and!; [symmetry; exact Hn|done..|]. cbn in E. rewrite E. done.
Qed.

Lemma epoll_inv s b s' ev : exec_epoll s b = Some (s', ev) -> inv s -> trig_ok s -> inv s'.
Proof.
  intros (Hl & Hb & _ & a & e & s3 & Hn & _ & _ & ->)%epoll_split Hinv Ht. pose proof (i_shape s Hinv) as Hs. unfold shape in Hs. rewrite Hl in Hs.
  destruct (m_recent_events s) eqn:Hr, (poll_infos s) eqn:Hi, (m_handles_to_resume s) eqn:Hh; try done.
  match type of Hn with _ = next_events ?x b => set (s2 := x) in * end.
  assert (inv (set_loop s2 LItems b [] [])) as Hinv2.
  { apply (inv_ext s); cbn; try done; [by rewrite Hl|by apply reportable_items]. }
  pose proof (loosened_next_events b s2) as (E & O & T). rewrite <- Hn in E, O, T. cbn [fst] in *.
  apply (loosened_inv (set_loop s2 LItems b [] [])); [|done]. split_and!; [rewrite E; done|exact O|exact T].
Qed.

Lemma check_inv s k s' ev : exec_check s k = Some (s', ev) -> inv s -> inv s'.
Proof.
  unfold exec_check. intros He Hinv. destruct (loop s) eqn:Hl; try done. pose proof (i_shape s Hinv) as Hs. unfold shape in Hs.
  rewrite Hl in Hs. destruct (m_shutdown_requested s && _); injection He as <- <-;
    (apply (inv_ext s); cbn; try done; [by rewrite Hl|apply Hinv]).
Qed.

(** The loop takes up an operation that is pending or expired. *)
Lemma take_ok t o st : op_ok t o = true -> is_timeout st = false -> m_processed o = false -> o_kind o <> KSchedule ->
  match o_place o with AtPending | AtExpired => True | _ => False end ->
  op_ok t (mk_op (o_kind o) (o_pc o) (o_tp o) (m_timer_pos o) true st false AtSpin) = true.
Proof.
  unfold op_ok, placed, in_handles, has_tp, at_none. cbn. intros H -> Hp Hk Hpl. rewrite Hp in H.
  destruct (o_kind o), (o_pc o); try done; destruct (o_place o); try done; cbn in *;
    destruct (o_tp o), (m_timer_pos o); cbn in *; done.
Qed.

Lemma spin_none_ne s i j : spin_of (loop s) = None -> j <> i ->
  bool_decide (Some i = Some j) = bool_decide (spin_of (loop s) = Some j).
Proof. intros -> Hne. rewrite !bool_decide_eq_false_2; congruence. Qed.

(** The loop takes up an operation: it leaves the timers, the interest list and poll_infos. *)
Lemma sch_inv_take s s' i st p : inv s -> spin_of (loop s) = None -> op_ok (now s) (ops s i) = true ->
  m_processed (ops s i) = false -> o_kind (ops s i) <> KSchedule -> is_timeout st = false ->
  match o_place (ops s i) with AtPending | AtExpired => True | _ => False end ->
  let o := ops s i in
  ops s' = (ops s).[i ↦ mk_op (o_kind o) (o_pc o) (o_tp o) (m_timer_pos o) true st false AtSpin] ->
  now s' = now s -> next s' = next s -> loop s' = p -> spin_of p = Some i ->
  m_timed_events s' = (if at_place o AtPending && has_tp o then erase i (m_timed_events s) else m_timed_events s) ->
  (forall j, (if decide (j = i) then b2n (at_place o AtExpired) else 0) + occ j (poll_infos s') = occ j (poll_infos s))%nat ->
  m_handles_to_resume s' = m_handles_to_resume s -> m_scheduled_ops s' = m_scheduled_ops s ->
  forallb (item_ok (ops s)) (m_recent_events s') = true -> shape s' = true ->
  match p with LSpinEvent _ => is_poll o = true | LSpinTimeout _ => due (now s) o = true | _ => False end -> inv s'.
Proof.
  intros [H1 H2 H3 H4 H5 H6 H7] Hsp Hok Hproc Hk Hst Hpl o Eo En Ex El Hp Et Ei Eh Es Hb Hsh Hlo.
  pose proof (H1 i) as [A1 A2 A3 A4 A5 A6]. assert (sorted (m_timed_events s')) as Hs'.
  { rewrite Et. destruct (_ && _); [by apply erase_sorted|done]. }
  assert (forall b, b ∈ m_timed_events s' -> b ∈ m_timed_events s) as Hsub.
  { rewrite Et. intros b. destruct (_ && _); [apply elem_erase|done]. }
  split; try done.
  - eapply (linked_others s s' i); [done|done|..|done].
    + intros j Hne. rewrite Eh, Es, El, Hp, <- (Ei j), decide_False, (spin_none_ne s) by done. split_and!; try done.
      rewrite Et. destruct (at_place o AtPending && has_tp o) eqn:Hc; [|done].
      rewrite <- (occ_erase j i (m_timed_events s)) by (rewrite A2; unfold o in Hc; by rewrite Hc). by rewrite decide_False.
    + specialize (Ei i). rewrite decide_True in Ei by done. unfold o in *.
      assert (at_place (ops s i) AtHandle = false /\ at_place (ops s i) AtScheduled = false) as [Q1 Q2]
        by (unfold at_place; by destruct (o_place (ops s i))).
      split; rewrite ?Eo, ?En, ?upd_eq, ?Eh, ?Es, ?El, ?Hp; cbn.
      * by apply take_ok.
      * rewrite Et. destruct (at_place (ops s i) AtPending && has_tp (ops s i)) eqn:Hc; [|by rewrite A2].
        pose proof (occ_erase i i (m_timed_events s)) as Hoc. rewrite A2, decide_True in Hoc by done. cbn in Hoc. specialize (Hoc ltac:(done)). lia.
      * rewrite A3 in Ei. lia.
      * by rewrite A4, Q1.
      * by rewrite A5, Q2.
      * by rewrite bool_decide_eq_true_2.
  - rewrite Eo. apply items_upd; [|done]. done.
  - unfold loop_ok. rewrite El, En, Eo. destruct p; try done; cbn in Hp; injection Hp as ->; by rewrite upd_eq.
  - intros tp j Hin%Hsub. rewrite Eo. upd_cases; by apply H5.
  - intros j Hj. rewrite Eo. rewrite Ex in Hj. upd_cases; by apply H7.
Qed.

Lemma pollable_place s i : inv s -> poll_infos s = [] -> spin_of (loop s) = None -> pollable (ops s i) = true ->
  m_processed (ops s i) = false ->
  o_place (ops s i) = AtPending /\ has_tp (ops s i) = m_timer_pos (ops s i).
Proof.
  intros Hinv Hi Hsp Hp Hu. destruct (i_linked s Hinv i) as [A1 _ A3 _ _ A6]. rewrite Hi in A3. rewrite Hsp, bool_decide_eq_false_2 in A6 by done.
  unfold pollable, is_poll in Hp. unfold op_ok, placed, in_handles, at_place in *. rewrite Hu in A1.
  destruct (o_kind (ops s i)); try done. destruct (o_pc (ops s i)); try done; destruct (o_place (ops s i)); try done; cbn in *;
    rewrite ?andb_false_r in A1; try done; destruct (has_tp (ops s i)), (m_timer_pos (ops s i)); done.
Qed.

(** unwatch(pi) leaves [i] unregistered, whatever the loop has on its lists. *)
Lemma unwatch_set_loop s p b e h i : fst (unwatch (set_loop s p b e h) i) = set_loop (fst (unwatch s i)) p b e h.
Proof. unfold unwatch. cbn. by destruct (o_fd (ops s i)). Qed.

Lemma unwatch_own s i : inv s -> o_registered (ops (fst (unwatch s i)) i) = false.
Proof.
  intros Hinv. destruct (o_registered (ops s i)) eqn:Hr.
  - pose proof (registered_pollable (now s) _ (k_ok _ _ (i_linked s Hinv i)) Hr) as Hp. unfold unwatch, o_fd, pollable, is_poll in *.
    destruct (o_kind (ops s i)) eqn:Hk; try done. cbn. unfold clear, registered_as, o_fd. rewrite Hr, Hk, bool_decide_eq_true_2 by done. done.
  - pose proof (loosened_unwatch s i) as (_ & O & _). destruct (O i) as [->|[_ ->]]; done.
Qed.

Lemma loosened_lists s s' : loosened s s' -> loop s' = loop s /\ m_recent_events s' = m_recent_events s /\ poll_infos s' = poll_infos s /\
  m_handles_to_resume s' = m_handles_to_resume s /\ m_scheduled_ops s' = m_scheduled_ops s /\ now s' = now s /\ next s' = next s /\
  m_timed_events s' = m_timed_events s /\ armed s' = armed s.
Proof. intros (-> & _). done. Qed.

Lemma process_event_inv s s1 i st b : inv s -> loop s = LItems -> m_recent_events s = IPoll i st :: b ->
  s1 = set_loop s LItems b (poll_infos s) (m_handles_to_resume s) -> inv (fst (process_event_execute s1 i st)).
Proof.
  intros Hinv Hl Hb ->. pose proof (i_shape s Hinv) as Hs. unfold shape in Hs. rewrite Hl in Hs.
  pose proof (i_items s Hinv) as Hit. rewrite Hb in Hit. cbn in Hit. apply andb_true_iff in Hit as [[Hp Hst]%andb_true_iff Hit].
  destruct (poll_infos s) as [|] eqn:Hi; [|done]. unfold process_event_execute. cbn [ops set_loop].
  destruct (m_processed (ops s i)) eqn:Hproc; cbn [fst].
  - apply (inv_ext s); cbn; try done; by rewrite ?Hl, ?Hi.
  - destruct (pollable_place s i Hinv Hi ltac:(by rewrite Hl) Hp Hproc) as [Hpl Htp].
    assert (is_poll (ops s i) = true) as Hip by (unfold pollable in Hp; by apply andb_true_iff in Hp as [? _]).
    pose proof (unwatch_set_loop s LItems b [] (m_handles_to_resume s) i) as Eu. pose proof (loosened_unwatch s i) as Hlo.
    pose proof (unwatch_own s i Hinv) as Hreg. destruct (unwatch (set_loop s LItems b [] (m_handles_to_resume s)) i) as [u ev0].
    cbn [fst] in Eu. subst u. set (s0 := fst (unwatch s i)) in *. pose proof (loosened_inv _ _ Hlo Hinv) as Hinv0.
    destruct (loosened_fields s s0 i Hlo) as (F1 & F2 & F3 & F4 & F5 & F6 & F7). destruct (loosened_lists s s0 Hlo) as (El & Eb & Ei & Eh & Es & En & Ex & Et & Ea).
    rewrite ?Hb, ?Hi in *. cbn [fst ops set_loop].
    rewrite Hreg. apply (sch_inv_take s0 _ i st (LSpinEvent i)).
    all: try match goal with
      | |- spin_of (loop _) = None => by rewrite El, Hl
      | |- op_ok _ _ = true => apply Hinv0
      | |- forallb _ _ = true => idtac
      end; rewrite ?F1, ?F4, ?F5, ?F7, ?Hpl; try done.
    + intros Hk. unfold is_poll in Hip. by rewrite Hk in Hip.
    + by destruct st.
    + by destruct (m_timer_pos (ops s i)).
    + by destruct (m_timer_pos (ops s i)).
    + by destruct (m_timer_pos (ops s i)).
    + unfold at_place, has_tp. rewrite F7, F3, Hpl. fold (has_tp (ops s i)). rewrite Htp. cbn. by destruct (m_timer_pos (ops s i)).
    + intros j. unfold at_place. rewrite F7, Hpl, Ei. destruct (m_timer_pos (ops s i)); cbn; by destruct (decide (j = i)).
    + destruct (m_timer_pos (ops s i)); by rewrite <- Eh.
    + by destruct (m_timer_pos (ops s i)).
    + pose proof (i_items s0 Hinv0) as Hit0. rewrite Eb in Hit0. cbn in Hit0. apply andb_true_iff in Hit0 as [_ Hit0].
      by destruct (m_timer_pos (ops s i)).
    + by destruct (m_timer_pos (ops s i)).
    + unfold is_poll in *. by rewrite F1.
Qed.

Lemma expired_head s i e : inv s -> poll_infos s = i :: e ->
  o_place (ops s i) = AtExpired /\ m_processed (ops s i) = false /\ o_kind (ops s i) <> KSchedule /\
  due (now s) (ops s i) = true /\ is_timeout (m_poll_status (ops s i)) = false.
Proof.
  intros Hinv Hi. destruct (i_linked s Hinv i) as [A1 _ A3 _ _ _]. rewrite Hi in A3. cbn in A3. rewrite decide_True in A3 by done.
  unfold op_ok, placed, in_handles, at_place, at_none in *.
  destruct (o_place (ops s i)); try done. destruct (o_kind (ops s i)), (o_pc (ops s i)); try done; cbn in *;
    rewrite ?orb_false_r in A1; destruct (m_processed (ops s i)), (due (now s) (ops s i)), (is_timeout (m_poll_status (ops s i)));
    cbn in *; rewrite ?andb_false_r in A1; done.
Qed.

Lemma process_timeout_inv s i e : inv s -> loop s = LExpired -> poll_infos s = i :: e ->
  inv (fst (process_timeout_one (set_loop s LExpired (m_recent_events s) e (m_handles_to_resume s)) i)).
Proof.
  intros Hinv Hl Hi. destruct (expired_head s i e Hinv Hi) as (Hpl & Hproc & Hk & Hd & Hst).
  unfold process_timeout_one. cbn [ops set_loop]. rewrite Hproc.
  pose proof (unwatch_set_loop s LExpired (m_recent_events s) e (m_handles_to_resume s) i) as Eu. pose proof (loosened_unwatch s i) as Hlo.
  pose proof (unwatch_own s i Hinv) as Hreg. destruct (unwatch (set_loop s LExpired (m_recent_events s) e (m_handles_to_resume s)) i) as [u ev0].
  cbn [fst] in Eu. subst u. set (s0 := fst (unwatch s i)) in *. pose proof (loosened_inv _ _ Hlo Hinv) as Hinv0.
  destruct (loosened_fields s s0 i Hlo) as (F1 & F2 & F3 & F4 & F5 & F6 & F7). destruct (loosened_lists s s0 Hlo) as (El & Eb & Ei & Eh & Es & En & Ex & Et & Ea).
    rewrite ?Hb, ?Hi in *. cbn [fst ops set_loop].
  rewrite Hreg. apply (sch_inv_take s0 _ i (m_poll_status (ops s0 i)) (LSpinTimeout i)).
  all: try match goal with
    | |- spin_of (loop _) = None => by rewrite El, Hl
    | |- op_ok _ _ = true => apply Hinv0
    | |- forallb _ _ = true => idtac
    end; rewrite ?F1, ?F4, ?F5, ?F6, ?F7, ?Hpl; try done.
  - unfold at_place. by rewrite F7, Hpl.
  - intros j. unfold at_place. rewrite F7, Hpl, Ei. cbn. done.
  - cbn. rewrite <- Eb. apply Hinv0.
  - unfold due in *. by rewrite En, F3.
Qed.

(** The loop has the coroutine it waited for. *)
Lemma sch_inv_collect s i st p : inv s -> spin_of (loop s) = Some i -> o_pc (ops s i) = PWaiting ->
  (if is_timeout st then due (now s) (ops s i) else is_poll (ops s i)) = true ->
  match p with LItems => poll_infos s = [] | LExpired => True | _ => False end ->
  let o := ops s i in
  inv (to_handles s i (mk_op (o_kind o) (o_pc o) (o_tp o) (m_timer_pos o) (m_processed o) st (o_registered o) (o_place o)) p).
Proof.
  intros Hinv Hsp Hpc Hst Hp o. pose proof Hinv as [H1 H2 H3 H4 H5 H6 H7]. pose proof (H1 i) as [A1 A2 A3 A4 A5 A6].
  rewrite Hsp, bool_decide_eq_true_2 in A6 by done. unfold o, to_handles.
  assert (o_place (ops s i) = AtSpin) as Hpl by (unfold at_place in A6; by destruct (o_place (ops s i))).
  unfold at_place in *. rewrite Hpl in *. cbn in A2, A3, A4, A5.
  split; cbn; try done.
  - eapply (linked_others s _ i); [reflexivity|done|..|done]; cbn.
    + intros j Hne. rewrite occ_app. cbn. rewrite decide_False by done. split_and!; try done; try lia.
      rewrite Hsp. rewrite !bool_decide_eq_false_2; [done|congruence|destruct p; done].
    + split; cbn; rewrite ?upd_eq; cbn; try done.
      * unfold op_ok, placed, in_handles, is_poll, has_tp, due in *. cbn. rewrite Hpc in *. rewrite Hpl in A1.
        destruct (o_kind (ops s i)), (m_processed (ops s i)), (o_registered (ops s i)), (o_tp (ops s i)), (m_timer_pos (ops s i)); try done;
          cbn in *; rewrite ?Hst; rewrite ?andb_false_r in A1; done.
      * rewrite occ_app, A4. cbn. by rewrite decide_True.
      * rewrite bool_decide_eq_false_2; [done|by destruct p].
  - apply items_upd; [|done]. done.
  - unfold shape. cbn. destruct p; try done. by rewrite Hp.
  - unfold loop_ok. cbn. by destruct p.
  - intros tp j Hin. upd_cases; by apply H5.
  - intros j Hj. upd_cases; by apply H7.
Qed.

Lemma occ_elem x l : x ∈ l <-> occ x l <> 0%nat.
Proof.
  induction l as [|y l IH]; cbn; [split; [by intros ?%elem_of_nil|done]|]. rewrite elem_of_cons, IH.
  destruct (decide (x = y)); naive_solver lia.
Qed.
Lemma occ_rev x l : occ x (rev l) = occ x l.
Proof. induction l as [|y l IH]; cbn; [done|]. rewrite occ_app, IH. cbn. lia. Qed.

(** Taking the expired timers out. *)
Lemma pop_inv s t : inv s -> loop s = LPop t ->
  let '(e, r) := pop_expired t (m_timed_events s) in
  inv (set_loop (set_timers (set_ops s (fun j => if decide (j ∈ e) then o_at (ops s j) (o_pc (ops s j)) AtExpired else ops s j))
         (r, armed s)) LExpired (m_recent_events s) (poll_infos s ++ e) (m_handles_to_resume s)).
Proof.
  intros Hinv Hl. pose proof Hinv as [H1 H2 H3 H4 H5 H6 H7]. unfold shape in H3. unfold loop_ok in H4. rewrite Hl in H3, H4.
  destruct (poll_infos s) eqn:Hi; [|done]. pose proof (pop_suffix t (m_timed_events s)) as (l1 & El & Ee & Hdue).
  pose proof (pop_sorted t _ H6) as Hsr. pose proof (fun x => occ_pop x t (m_timed_events s)) as Hocc.
  destruct (pop_expired t (m_timed_events s)) as [e r]. cbn [fst snd] in *.
  assert (forall j, o_tp (if decide (j ∈ e) then o_at (ops s j) (o_pc (ops s j)) AtExpired else ops s j) = o_tp (ops s j)) as Etp
    by (intros j; by destruct (decide (j ∈ e))).
  assert (forall j, o_pc (if decide (j ∈ e) then o_at (ops s j) (o_pc (ops s j)) AtExpired else ops s j) = o_pc (ops s j)) as Epc
    by (intros j; by destruct (decide (j ∈ e))).
  split; cbn; try done.
  - intros j. destruct (H1 j) as [A1 A2 A3 A4 A5 A6]. specialize (Hocc j). rewrite Hl in A6. cbn in A6.
    rewrite bool_decide_eq_false_2 in A6 by done. destruct (decide (j ∈ e)) as [Hj|Hj].
    + assert (exists tp, o_tp (ops s j) = Some tp /\ tp <= t) as (tp & Htp & Hle).
      { subst e. apply list_elem_of_In, in_map_iff in Hj as ([tp q] & Hq & Hin). cbn in Hq. subst q. apply list_elem_of_In in Hin. exists tp.
        split; [apply H5; rewrite El; apply elem_of_app; by left|exact (Hdue _ Hin)]. }
      apply occ_elem in Hj as Hj'. rewrite A2 in Hocc. unfold at_place in *.
      assert (o_place (ops s j) = AtPending) as Hpl by (destruct (o_place (ops s j)); cbn in Hocc; try lia; done).
      rewrite Hpl in *. unfold has_tp in *. rewrite Htp in *. cbn in *.
      split; cbn; rewrite ?decide_True by done; cbn; rewrite ?Hl; try done; try lia.
      unfold op_ok, placed, in_handles, due, has_tp in *. cbn. rewrite Hpl, Htp in *.
      assert ((tp <=? now s) = true) as -> by (apply Z.leb_le; apply Z.leb_le in H4; lia).
      destruct (o_kind (ops s j)), (o_pc (ops s j)); try done; cbn in *; unfold at_none in *; cbn; rewrite ?Hpl in A1; cbn in *;
        rewrite ?orb_false_r, ?andb_true_r in *; done.
    + assert (occ j e = 0%nat) as Hz by (destruct (decide (occ j e = 0%nat)); [done|by destruct Hj; apply occ_elem]).
      split; cbn; rewrite ?decide_False by done; rewrite ?Hi, ?Hz; try done.
      * rewrite <- A2. lia.
      * by rewrite Hi in A3.
  - revert H2. apply items_ext. intros i Hp. by destruct (decide (i ∈ e)).
  - intros tp i Hin. rewrite Etp. apply H5. rewrite El. apply elem_of_app. by right.
  - intros i Hx. rewrite Epc. by apply H7.
Qed.

(** Taking all scheduled operations. *)
Lemma pop_all_inv s : inv s -> loop s = LPopAll ->
  let l := rev (m_scheduled_ops s) in
  let s1 := set_ops s (fun j => if decide (j ∈ l) then o_at (ops s j) (o_pc (ops s j)) AtHandle else ops s j) in
  let s2 := set_sched s1 [] (m_schedule_pipe_triggered s1) (pipe s1) (edge s1) (triggering s1) (writing s1) in
  inv (set_loop s2 LItems (m_recent_events s) (poll_infos s) (m_handles_to_resume s ++ l)).
Proof.
  intros Hinv Hl l s1 s2. pose proof Hinv as [H1 H2 H3 H4 H5 H6 H7]. unfold shape in H3. rewrite Hl in H3.
  assert (forall j, occ j l = occ j (m_scheduled_ops s)) as Hocc by (intros j; apply occ_rev).
  split; cbn; try done.
  - intros j. destruct (H1 j) as [A1 A2 A3 A4 A5 A6]. rewrite Hl in A6. cbn in A6. rewrite bool_decide_eq_false_2 in A6 by done.
    destruct (decide (j ∈ l)) as [Hj|Hj].
    + apply occ_elem in Hj as Hj'. rewrite Hocc, A5 in Hj'. unfold at_place in *.
      assert (o_place (ops s j) = AtScheduled) as Hpl by (by destruct (o_place (ops s j))).
      rewrite Hpl in *. split; cbn; rewrite ?decide_True by done; cbn; try done.
      * unfold op_ok, placed, in_handles, at_none in *. cbn. rewrite Hpl in *.
        destruct (o_kind (ops s j)), (o_pc (ops s j)); try done; cbn in *; rewrite ?andb_false_r in A1; done.
      * rewrite occ_app, Hocc, A4, A5. done.
    + assert (occ j l = 0%nat) as Hz by (destruct (decide (occ j l = 0%nat)); [done|by destruct Hj; apply occ_elem]).
      split; cbn; rewrite ?decide_False by done; try done.
      * rewrite occ_app, Hz. lia.
      * by rewrite <- A5, <- Hocc.
  - revert H2. apply items_ext. intros i Hp. by destruct (decide (i ∈ l)).
  - intros tp i Hin. destruct (decide (i ∈ l)); by apply H5.
  - intros i Hx. destruct (decide (i ∈ l)); by apply H7.
Qed.

(** Resuming a handle. *)
Lemma flush_inv s n i h : inv s -> loop s = LFlush n -> m_handles_to_resume s = i :: h ->
  inv (set_loop (set_op s i (o_at (ops s i) PResumed AtDone)) (LFlush (S n)) (m_recent_events s) (poll_infos s) h) /\
  o_pc (ops s i) = PWaiting /\
  (m_poll_status (ops s i) = timeout \/ o_kind (ops s i) = KYield -> m_poll_status (ops s i) = timeout /\ due (now s) (ops s i) = true).
Proof.
  intros Hinv Hl Hh. pose proof Hinv as [H1 H2 H3 H4 H5 H6 H7]. unfold shape in H3. rewrite Hl in H3.
  destruct (m_recent_events s) eqn:Hb; [|done]. destruct (poll_infos s) eqn:Hi; [|done].
  pose proof (H1 i) as [A1 A2 A3 A4 A5 A6]. rewrite Hl in A6. cbn in A6. rewrite bool_decide_eq_false_2 in A6 by done.
  rewrite Hh in A4. cbn in A4. rewrite decide_True in A4 by done. unfold at_place in *.
  assert (o_place (ops s i) = AtHandle) as Hpl by (by destruct (o_place (ops s i))). rewrite Hpl in *. cbn in A2, A4, A5.
  assert (o_pc (ops s i) = PWaiting /\ o_registered (ops s i) = false /\
          (m_poll_status (ops s i) = timeout \/ o_kind (ops s i) = KYield -> m_poll_status (ops s i) = timeout /\ due (now s) (ops s i) = true))
    as (Hpc & Hreg & Hst).
  { unfold op_ok, placed, in_handles, at_none, is_poll in A1. rewrite Hpl in A1.
    destruct (o_kind (ops s i)), (o_pc (ops s i)); try done; cbn in A1; rewrite ?andb_false_r in A1; try done;
      destruct (o_registered (ops s i)); rewrite ?andb_false_r in A1; try done; (split; [done|split; [done|]]);
      destruct (m_poll_status (ops s i)), (due (now s) (ops s i)); cbn in A1; rewrite ?andb_false_r in A1; try done; naive_solver. }
  split; [|done]. split; cbn; try done.
  - eapply (linked_others s _ i); [reflexivity|done|..|done]; cbn.
    + intros j Hne. rewrite Hh, Hl, Hi. cbn. by rewrite decide_False.
    + split; cbn; rewrite ?upd_eq; cbn; try done; [|lia]. unfold op_ok. cbn. rewrite Hreg. by destruct (o_kind (ops s i)).
  - intros tp j Hin. upd_cases; by apply H5.
  - intros j Hj. upd_cases; [|by apply H7]. by rewrite H7 in Hpc.
Qed.

Lemma loop_inv s s' ev : exec_loop s = Some (s', ev) -> inv s -> inv s'.
Proof.
  unfold exec_loop, process_timeout_execute, process_scheduled_execute_inline, flush. intros He Hinv. pose proof (i_shape s Hinv) as Hs. pose proof (i_loop s Hinv) as Hlo.
  pose proof (i_items s Hinv) as Hit. unfold shape, loop_ok in *.
  destruct (loop s) as [| | |i|t| |i| |first| | | |n|n|] eqn:Hl; try done.
  - destruct (m_recent_events s) as [|x b] eqn:Hb.
    + destruct (poll_infos s) eqn:Hi; [|done].
      destruct (m_handles_to_resume s) eqn:Hh; injection He as <- <-; apply (inv_ext s); unfold shape; cbn; rewrite ?Hl, ?Hb, ?Hi, ?Hh; done.
    + cbn in Hit. apply andb_true_iff in Hit as [Hx Hit]. destruct x as [| | |i st].
      4: { pose proof (process_event_inv s _ i st b Hinv Hl Hb eq_refl) as H. destruct (process_event_execute _ i st) as [s1 e1].
           injection He as <- <-. exact H. }
      all: injection He as <- <-; apply (inv_ext s); unfold shape, loop_ok; cbn; rewrite ?Hl; try done; apply Z.leb_le; lia.
  - destruct (o_pc (ops s i)) eqn:Hpc; try done. injection He as <- <-.
    replace (ops s i) with (mk_op (o_kind (ops s i)) (o_pc (ops s i)) (o_tp (ops s i)) (m_timer_pos (ops s i)) (m_processed (ops s i))
      (m_poll_status (ops s i)) (o_registered (ops s i)) (o_place (ops s i))) at 1 by (by destruct (ops s i)).
    apply sch_inv_collect; try done; [by rewrite Hl| |by destruct (poll_infos s)].
    destruct (i_linked s Hinv i) as [A1 _ _ _ _ A6]. rewrite Hl in A6. cbn in A6. rewrite bool_decide_eq_true_2 in A6 by done.
    unfold op_ok, placed, in_handles, at_place, is_poll in *. rewrite Hpc in A1. destruct (o_kind (ops s i)); try done.
    destruct (o_place (ops s i)); try done. destruct (is_timeout (m_poll_status (ops s i))); [|done].
    cbn in A1. rewrite !andb_false_r in A1. done.
  - pose proof (pop_inv s t Hinv Hl) as H. destruct (pop_expired t (m_timed_events s)) as [e r]. injection He as <- <-. exact H.
  - destruct (poll_infos s) as [|i e] eqn:Hi.
    + injection He as <- <-. apply (inv_ext s); unfold shape; cbn; rewrite ?Hl, ?Hi; done.
    + pose proof (process_timeout_inv s i e Hinv Hl Hi) as H. destruct (process_timeout_one _ i) as [s1 e1].
      injection He as <- <-. exact H.
  - destruct (o_pc (ops s i)) eqn:Hpc; try done. injection He as <- <-. rewrite <- Hpc.
    apply sch_inv_collect; try done. by rewrite Hl.
  - injection He as <- <-. apply (inv_ext s); unfold shape; cbn; rewrite ?Hl; done.
  - injection He as <- <-. apply (inv_ext s); unfold shape; cbn; rewrite ?Hl; done.
  - destruct (4 <=? pipe s)%nat; injection He as <- <-; apply (inv_ext s); unfold shape, loop_ok; cbn; rewrite ?Hl; done.
  - injection He as <- <-. apply (inv_ext s); unfold shape; cbn; rewrite ?Hl; done.
  - injection He as <- <-. by apply pop_all_inv.
  - destruct (m_handles_to_resume s) as [|i h] eqn:Hh.
    + injection He as <- <-. apply (inv_ext s); unfold shape; cbn; rewrite ?Hl, ?Hh; done.
    + injection He as <- <-. by apply flush_inv.
  - injection He as <- <-. apply (inv_ext s); unfold shape; cbn; rewrite ?Hl; done.
Qed.

Lemma inv_spawns s x : inv s -> inv (set_spawns s x).
Proof. intros [H1 H2 H3 H4 H5 H6 H7]. split; try done. intros j. by destruct (H1 j). Qed.

Lemma step_inv l s s' ev : exec l s = Some (s', ev) -> left_over ev = false -> inv s -> trig_ok s -> inv s'.
Proof.
  intros He Hlate Hinv Htr.
  assert (forall s1, now s <= now s1 -> ops s1 = ops s -> next s1 = next s -> m_timed_events s1 = m_timed_events s ->
    poll_infos s1 = poll_infos s -> m_handles_to_resume s1 = m_handles_to_resume s -> m_scheduled_ops s1 = m_scheduled_ops s ->
    loop s1 = loop s -> m_recent_events s1 = m_recent_events s -> inv s1) as Hext.
  { intros s1 E1 E2 E3 E4 E5 E6 E7 E8 E9. apply (inv_ext s); try done; [by rewrite E8|rewrite E9; apply Hinv| |].
    - unfold shape. rewrite E8, E9, E5, E6. apply Hinv.
    - by apply (loop_ok_later s), Hinv. }
  destruct l; cbn in He.
  - injection He as <- <-. apply Hext; cbn; try done. lia.
  - by apply (sch_start_inv _ _ _ _ _ He).
  - unfold resume in He. destruct (m_shutdown_requested s); [by injection He as <- <-|]. by apply (sch_start_inv _ _ _ _ _ He).
  - unfold yield_for_internal in He. destruct (amount <=? 0); by apply (sch_start_inv _ _ _ _ _ He).
  - unfold yield_until in He. destruct (time <=? now s); by apply (sch_start_inv _ _ _ _ _ He).
  - unfold poll in He. destruct (0 <? timeout_ms); by apply (sch_start_inv _ _ _ _ _ He).
  - unfold spawn_detached in He. destruct (m_size s <? u64_max); [|done]. injection He as <- <-. by apply Hext.
  - unfold spawn_resume in He. destruct (spawning (spawns s)); [done|].
    destruct (m_shutdown_requested s); [injection He as <- <-; by apply Hext|].
    destruct (schedule s) as [[s1 ev1]|] eqn:Hs; [|done]. injection He as <- <-.
    apply (inv_spawns s1). by apply (sch_start_inv _ _ _ _ _ Hs).
  - unfold detached_done in He. destruct (o_pc (ops s i)); try done. destruct (decide (i ∈ detached (spawns s))); [|done].
    injection He as <- <-. by apply Hext.
  - destruct (o_pc (ops s i)) eqn:Hpc; try done. apply (inj Some) in He. by apply (watch_inv s i false s' ev).
  - by apply (exec_op_inv _ _ _ _ He).
  - unfold exec_trigger in He. destruct (decide (i ∈ triggering s)); [|done]. injection He as <- <-. by apply Hext.
  - unfold exec_write in He. destruct (decide (i ∈ writing s)); [|done]. injection He as <- <-. by apply Hext.
  - by apply (check_inv _ _ _ _ He).
  - by apply (epoll_inv _ _ _ _ He).
  - by apply (loop_inv _ _ _ He).
  - injection He as <- <-. by apply Hext.
Qed.

(** ** The cancellation triggers *)

Lemma trig_keep s s' : trig_ok s ->
  (forall c i, (c, i, true) ∈ triggers s' -> (c, i, true) ∈ triggers s /\ o_kind (ops s' i) = o_kind (ops s i) /\
     (pollable (ops s i) = true -> pollable (ops s' i) = true) /\ m_processed (ops s' i) = m_processed (ops s i) /\
     (reported (m_recent_events s) i = false -> reported (m_recent_events s') i = false)) -> trig_ok s'.
Proof.
  intros Ht H c i Hin. destruct (H c i Hin) as (Hin' & Hk & Hp & Hm & Hr). destruct (Ht c i Hin') as (T1 & T2 & T3 & T4).
  split_and!; [auto|congruence| |auto]. unfold o_token in *. by rewrite Hk.
Qed.

Lemma trig_upd s s' i o : trig_ok s -> ops s' = (ops s).[i ↦ o] -> triggers s' = triggers s -> m_recent_events s' = m_recent_events s ->
  o_kind o = o_kind (ops s i) -> m_processed o = m_processed (ops s i) -> (pollable (ops s i) = true -> pollable o = true) -> trig_ok s'.
Proof.
  intros Ht Eo Et Eb Hk Hm Hp. apply (trig_keep s); [done|]. intros c j Hin. rewrite Et in Hin. rewrite Eo, Eb. by upd_cases.
Qed.

Lemma trig_same s s' : trig_ok s -> ops s' = ops s -> triggers s' = triggers s ->
  (forall i, reported (m_recent_events s) i = false -> reported (m_recent_events s') i = false) -> trig_ok s'.
Proof. intros Ht Eo Et Eb. apply (trig_keep s); [done|]. intros c j Hin. rewrite Et in Hin. rewrite Eo. split_and!; auto. Qed.

Lemma trig_start s k p s' ev : start s k p = Some (s', ev) -> inv s -> trig_ok s -> trig_ok s'.
Proof.
  unfold start. destruct (m_size s <? u64_max); [|done]. intros [= <- <-] Hinv Ht. apply (trig_keep s); [done|]. cbn. intros c i Hin.
  destruct (Ht c i Hin) as (Hp & _). upd_cases; [|done]. unfold pollable in Hp. rewrite (i_fresh s Hinv), andb_false_r in Hp by done. done.
Qed.

Lemma trig_watch s i ok s' ev : watch s i ok = (s', ev) -> o_pc (ops s i) = PWatch -> trig_ok s -> trig_ok s'.
Proof.
  unfold watch. set (reg := ok && _). intros [= <- <-] Hpc Ht. eapply (trig_upd s _ i); [done|reflexivity|done..|].
  by apply (not_pollable _ _ Hpc).
Qed.

Lemma trig_op s i s' ev : exec_op s i = Some (s', ev) -> left_over ev = false -> inv s -> trig_ok s -> trig_ok s'.
Proof.
  unfold exec_op, await_suspend. intros He Hlate Hinv Ht. destruct (o_pc (ops s i)) eqn:Hpc; try done.
  3: { apply (inj Some) in He. by apply (trig_watch s i true s' ev). }
  3: { apply (inj Some) in He. unfold watch_trigger in He. set (o := o_at (ops s i) PSuspend (o_place (ops s i))) in *.
       assert (pollable (ops s i) = true -> pollable o = true) as Hp by (unfold pollable; cbn; by rewrite Hpc).
       assert (trig_ok (set_op s i o)) as Ht1 by (eapply (trig_upd s _ i); [done|reflexivity|done..]).
       destruct (o_token (ops s i)) as [c|] eqn:Htk; [destruct (in_interest s c)|]; injection He as <- <-; [done| |done].
       assert (m_processed (ops s i) = false /\ reported (m_recent_events s) i = false) as [Hm Hr]
         by (by destruct (m_processed (ops s i)), (reported (m_recent_events s) i)).
       intros c' j Hin. cbn in Hin. apply elem_of_cons in Hin as [[= -> ->]|Hin]; [|by apply Ht1].
       cbn. rewrite upd_eq. split_and!; try done. unfold pollable. cbn. unfold o_token in Htk. unfold is_poll. cbn. by destruct (o_kind (ops s i)). }
  all: injection He as <- <-; eapply (trig_upd s _ i); [done|reflexivity|done..|].
  1, 2: by apply (not_pollable _ _ Hpc). unfold pollable. cbn. by rewrite Hpc.
Qed.

(** What next_events has reported is not in the interest list with its trigger armed. *)
Lemma next_event_unarmed s i st c : (forall c, (c, i, true) ∈ triggers s -> o_token (ops s i) = Some c) ->
  (c, i, true) ∉ triggers (fst (next_event s (IPoll i st))).
Proof.
  intros Hk Hin. unfold next_event in Hin.
  assert ((c, i, true) ∉ triggers (fst (match o_token (ops s i) with
    | Some c => (unwatch_fd s c, read_pi s i ++ steals s i c) | None => (s, read_pi s i) end))) as Hm.
  { destruct (o_token (ops s i)) as [c'|] eqn:Ht; cbn; intros Hi.
    - apply list_elem_of_In, filter_In in Hi as [Hi Hne]. cbn in Hne. apply list_elem_of_In, Hk in Hi. injection Hi as <-.
      by rewrite Nat.eqb_refl in Hne.
    - by apply Hk in Hi. }
  destruct st; try (by apply Hm). pose proof (loosened_unwatch (fire s i) i) as (_ & _ & T).
  destruct (unwatch (fire s i) i). apply T in Hin. by apply fire_armed in Hin as [_ ?].
Qed.

Lemma next_events_unarmed b : forall s i c, (forall c, (c, i, true) ∈ triggers s -> o_token (ops s i) = Some c) ->
  (c, i, true) ∈ triggers (fst (next_events s b)) -> reported b i = false.
Proof.
  induction b as [|x b IH]; [done|]. intros s i c Hk Hin. cbn in Hin. pose proof (loosened_next_event s x) as Hl.
  pose proof (fun st c => next_event_unarmed s i st c Hk) as Hun. destruct (next_event s x) as [s1 ev1] eqn:Hn. cbn [fst] in Hl.
  pose proof (loosened_next_events b s1) as (_ & _ & T). specialize (IH s1 i c). destruct (next_events s1 b) as [s2 ev2]. cbn [fst] in *.
  change (match x with IPoll j _ => (j =? i)%nat | _ => false end || reported b i = false). rewrite IH; [|intros c' Hc'|done].
  - rewrite orb_false_r. destruct x as [| | |j st]; try done. destruct (Nat.eqb_spec j i) as [->|]; [|done].
    specialize (Hun st c). rewrite Hn in Hun. by destruct Hun; apply T.
  - unfold o_token. destruct (loosened_fields s s1 i Hl) as (-> & _). destruct Hl as (_ & _ & T1). by apply Hk, T1.
Qed.

Lemma trig_epoll s b s' ev : exec_epoll s b = Some (s', ev) -> trig_ok s -> trig_ok s'.
Proof.
  intros (_ & _ & _ & a & e & s3 & Hn & _ & _ & ->)%epoll_split Ht.
  match type of Hn with _ = next_events ?x _ => set (s2 := x) in * end.
  pose proof (loosened_next_events b s2) as Hl. pose proof (next_events_unarmed b s2) as Hun. rewrite <- Hn in Hl, Hun. cbn [fst] in *.
  assert (forall c i, (c, i, true) ∈ triggers s3 -> (c, i, true) ∈ triggers s) as T by apply Hl.
  apply (trig_keep s); [done|]. cbn. intros c i Hin. destruct (loosened_fields s2 s3 i Hl) as (F1 & F2 & F3 & F4 & F5 & F6 & F7).
  unfold pollable, is_poll. rewrite F1, F2, F5. split_and!; auto. intros _. apply (Hun i c); [|done]. intros c' Hc'. by apply Ht in Hc' as (_ & _ & ? & _).
Qed.

(** An operation the loop takes up: its trigger is not armed. *)
Lemma trig_take s s0 s' i o : trig_ok s -> loosened s s0 -> ops s' = (ops s0).[i ↦ o] -> triggers s' = triggers s0 ->
  (forall j, reported (m_recent_events s) j = false -> reported (m_recent_events s') j = false) ->
  (forall c, (c, i, true) ∉ triggers s0) -> trig_ok s'.
Proof.
  intros Ht Hlo Eo Et Eb Hn. apply (trig_keep s); [done|]. intros c j Hin. rewrite Et in Hin. rewrite Eo.
  destruct (decide (j = i)) as [->|Hne]; [by destruct (Hn c)|]. rewrite upd_ne by done.
  destruct (loosened_fields s s0 j Hlo) as (F1 & F2 & F3 & F4 & F5 & F6 & F7). destruct Hlo as (_ & _ & T).
  unfold pollable, is_poll. rewrite F1, F2, F5. split_and!; auto.
Qed.

Lemma unarmed_elem s i c : trigger_armed s i = false -> (c, i, true) ∉ triggers s.
Proof.
  intros Hf Hin. enough (trigger_armed s i = true) by congruence. apply existsb_exists. exists (c, i, true). cbn.
  rewrite Nat.eqb_refl. split; [by apply list_elem_of_In|done].
Qed.

Lemma trig_event s i st b : m_recent_events s = IPoll i st :: b -> trig_ok s ->
  trig_ok (fst (process_event_execute (set_loop s LItems b (poll_infos s) (m_handles_to_resume s)) i st)).
Proof.
  intros Hb Ht. set (s1 := set_loop s LItems b (poll_infos s) (m_handles_to_resume s)).
  assert (forall j, reported (m_recent_events s) j = false -> reported b j = false) as Hrep
    by (rewrite Hb; cbn; intros j [_ ?]%orb_false_iff; done).
  assert (trig_ok s1) as Ht1 by (by apply (trig_same s)). unfold process_event_execute.
  destruct (m_processed (ops s1 i)); [done|]. pose proof (loosened_unwatch s1 i) as Hlo. destruct (unwatch s1 i) as [s0 ev0]. cbn [fst] in *.
  apply (trig_take s1 s0 _ i (mk_op (o_kind (ops s0 i)) (o_pc (ops s0 i)) (o_tp (ops s0 i)) (m_timer_pos (ops s0 i)) true st
    (o_registered (ops s0 i)) AtSpin)); try done; try (by destruct (m_timer_pos (ops s0 i))).
  - intros j Hj. destruct (loosened_lists _ _ Hlo) as (_ & Eb & _). destruct (m_timer_pos (ops s0 i)); cbn [m_recent_events goto set_loop set_timers set_op set_ops]; by rewrite Eb.
  - intros c Hin. destruct Hlo as (_ & _ & T). apply T, Ht in Hin as (_ & _ & _ & Hr). rewrite Hb in Hr. cbn in Hr.
    by rewrite Nat.eqb_refl in Hr.
Qed.

Lemma trig_timeout s i : left_over (snd (process_timeout_one s i)) = false -> trig_ok s -> trig_ok (fst (process_timeout_one s i)).
Proof.
  unfold process_timeout_one. intros Hlate Ht. destruct (m_processed (ops s i)); [done|]. pose proof (loosened_unwatch s i) as Hlo.
  destruct (unwatch s i) as [s0 ev0]. cbn [fst snd] in *. unfold left_over in Hlate. rewrite !existsb_app in Hlate.
  apply orb_false_iff in Hlate as [_ [_ Hlate]%orb_false_iff].
  eapply (trig_take s s0 _ i); [done|done|reflexivity|done|by intros j; destruct (loosened_lists _ _ Hlo) as (_ & <- & _)|].
  intros c. apply unarmed_elem. by destruct (trigger_armed s0 i).
Qed.

Lemma trig_loop s s' ev : exec_loop s = Some (s', ev) -> left_over ev = false -> inv s -> trig_ok s -> trig_ok s'.
Proof.
  unfold exec_loop, process_timeout_execute, process_scheduled_execute_inline, flush. intros He Hlate Hinv Ht.
  assert (forall s1, ops s1 = ops s -> triggers s1 = triggers s -> m_recent_events s1 = m_recent_events s -> trig_ok s1) as Hext
    by (intros s1 E1 E2 E3; apply (trig_same s); rewrite ?E3; done).
  destruct (loop s) as [| | |i|t| |i| |first| | | |n|n|] eqn:Hl; try done.
  - destruct (m_recent_events s) as [|x b] eqn:Hb; [destruct (m_handles_to_resume s); injection He as <- <-; by apply Hext|].
    assert (forall j, reported (m_recent_events s) j = false -> reported b j = false) as Hrep
      by (rewrite Hb; cbn; intros j [_ ?]%orb_false_iff; done).
    destruct x as [| | |i st]; try (injection He as <- <-; by apply (trig_same s)). apply (inj Some) in He.
    pose proof (trig_event s i st b Hb Ht) as H. by rewrite He in H.
  - destruct (o_pc (ops s i)) eqn:Hpc; try done. injection He as <- <-. by eapply (trig_upd s _ i); [done|reflexivity|..].
  - destruct (pop_expired t (m_timed_events s)) as [e r]. injection He as <- <-. apply (trig_keep s); [done|]. cbn. intros c i Hin.
    by destruct (decide (i ∈ e)).
  - destruct (poll_infos s) as [|i e]; [injection He as <- <-; by apply Hext|]. apply (inj Some) in He.
    pose proof (trig_timeout (set_loop s LExpired (m_recent_events s) e (m_handles_to_resume s)) i) as H. rewrite He in H. apply H; [done|by apply Hext].
  - destruct (o_pc (ops s i)) eqn:Hpc; try done. injection He as <- <-. eapply (trig_upd s _ i); [done|reflexivity|done..|].
    unfold pollable. cbn. by rewrite Hpc.
  - injection He as <- <-. by apply Hext.
  - injection He as <- <-. by apply Hext.
  - destruct (4 <=? pipe s)%nat; injection He as <- <-; by apply Hext.
  - injection He as <- <-. by apply Hext.
  - injection He as <- <-. apply (trig_keep s); [done|]. cbn. intros c i Hin. by destruct (decide _).
  - destruct (m_handles_to_resume s) as [|i h] eqn:Hh; injection He as <- <-; [by apply Hext|].
    apply (trig_take s s _ i (o_at (ops s i) PResumed AtDone)); try done; [apply loosened_refl|].
    intros c Hin. destruct (Ht c i Hin) as (Hp & Hm & _). destruct (i_linked s Hinv i) as [A1 _ _ A4 _ _]. rewrite Hh in A4. cbn in A4.
    rewrite decide_True in A4 by done. unfold op_ok, placed, in_handles, at_place, pollable, is_poll in *. rewrite Hm in A1.
    destruct (o_place (ops s i)); try done. destruct (o_kind (ops s i)), (o_pc (ops s i)); try done; cbn in A1; by rewrite ?andb_false_r in A1.
  - injection He as <- <-. by apply Hext.
Qed.

Lemma step_trig l s s' ev : exec l s = Some (s', ev) -> left_over ev = false -> inv s -> trig_ok s -> trig_ok s'.
Proof.
  intros He Hlate Hinv Ht. assert (forall s1, ops s1 = ops s -> triggers s1 = triggers s -> m_recent_events s1 = m_recent_events s -> trig_ok s1) as Hext
    by (intros s1 E1 E2 E3; apply (trig_same s); rewrite ?E3; done).
  destruct l; cbn in He.
  - injection He as <- <-. by apply Hext.
  - by apply (trig_start _ _ _ _ _ He).
  - unfold resume in He. destruct (m_shutdown_requested s); [injection He as <- <-; by apply Hext|]. by apply (trig_start _ _ _ _ _ He).
  - unfold yield_for_internal in He. destruct (amount <=? 0); by apply (trig_start _ _ _ _ _ He).
  - unfold yield_until in He. destruct (time <=? now s); by apply (trig_start _ _ _ _ _ He).
  - by apply (trig_start _ _ _ _ _ He).
  - unfold spawn_detached in He. destruct (m_size s <? u64_max); [|done]. injection He as <- <-. by apply Hext.
  - unfold spawn_resume in He. destruct (spawning (spawns s)); [done|].
    destruct (m_shutdown_requested s); [injection He as <- <-; by apply Hext|].
    destruct (schedule s) as [[s1 ev1]|] eqn:Hs; [|done]. injection He as <- <-. by apply (trig_start _ _ _ _ _ Hs) in Ht.
  - unfold detached_done in He. destruct (o_pc (ops s i)); try done. destruct (decide (i ∈ detached (spawns s))); [|done].
    injection He as <- <-. by apply Hext.
  - destruct (o_pc (ops s i)) eqn:Hpc; try done. apply (inj Some) in He. by apply (trig_watch s i false s' ev).
  - by apply (trig_op _ _ _ _ He).
  - unfold exec_trigger in He. destruct (decide (i ∈ triggering s)); [|done]. injection He as <- <-. by apply Hext.
  - unfold exec_write in He. destruct (decide (i ∈ writing s)); [|done]. injection He as <- <-. by apply Hext.
  - unfold exec_check in He. destruct (loop s); try done. destruct (m_shutdown_requested s && _); injection He as <- <-; by apply Hext.
  - by apply (trig_epoll _ _ _ _ He).
  - by apply (trig_loop _ _ _ He).
  - injection He as <- <-. by apply Hext.
Qed.

(** ** What a step does to the operations that have ended *)

Definition resumed_of (e : event) : option nat := match e with EvResume i _ _ => Some i | _ => None end.
Definition resumes (tr : list event) : list nat := omap resumed_of tr.
Definition ended (o : op) : bool := match o_pc o with PResumed => true | _ => false end.
Definition freed (tr : list event) : bool :=
  existsb (fun e => match e with EvUseAfterFree _ => true | _ => false end) tr.

Definition on_time (o : op) (st : poll_status) (t : Z) : Prop :=
  st = timeout \/ o_kind o = KYield -> st = timeout /\ due t o = true.

Record effect (s s' : state) (ev : list event) : Prop := {
  e_freed : freed ev = false;
  e_count i : b2n (ended (ops s' i)) = (b2n (ended (ops s i)) + occ i (resumes ev))%nat;
  e_keep i : ended (ops s i) = true -> ops s' i = ops s i;
  e_time i st t : EvResume i st t ∈ ev -> on_time (ops s' i) st t
}.

Lemma effect_quiet s s' ev : freed ev = false -> resumes ev = [] -> (forall i, ended (ops s' i) = ended (ops s i)) ->
  (forall i, ended (ops s i) = true -> ops s' i = ops s i) -> effect s s' ev.
Proof.
  intros Hf Hr He Hk. split; [done| |done|].
  - intros i. rewrite Hr, He. cbn. lia.
  - intros i st t Hin. assert (i ∈ resumes ev) as Hin' by (apply list_elem_of_omap; by exists (EvResume i st t)).
    rewrite Hr in Hin'. by apply elem_of_nil in Hin'.
Qed.

Lemma loosened_ended s s0 j : loosened s s0 -> ended (ops s0 j) = ended (ops s j).
Proof. intros Hl. unfold ended. by destruct (loosened_fields s s0 j Hl) as (_ & -> & _). Qed.
Definition ops_ok (s : state) : Prop := forall j, op_ok (now s) (ops s j) = true.
Lemma inv_ops_ok s : inv s -> ops_ok s.
Proof. intros Hinv j. apply Hinv. Qed.
Lemma loosened_keep s s0 j : ops_ok s -> loosened s s0 -> ended (ops s j) = true -> ops s0 j = ops s j.
Proof.
  intros Hok (_ & O & _) He. destruct (O j) as [->|[Hr _]]; [done|].
  pose proof (registered_pollable (now s) _ (Hok j) Hr) as Hp. unfold pollable, ended in *.
  destruct (o_pc (ops s j)); rewrite ?andb_false_r in Hp; done.
Qed.

Lemma effect_upd s s' i o ev : ops s' = (ops s).[i ↦ o] -> freed ev = false -> resumes ev = [] ->
  ended (ops s i) = false -> ended o = false -> effect s s' ev.
Proof.
  intros Eo Hf Hr H1 H2. apply effect_quiet; [done..| |]; intros j; rewrite Eo; upd_cases; congruence.
Qed.
Lemma effect_loosened s s0 s' ev : ops_ok s -> loosened s s0 -> ops s' = ops s0 -> freed ev = false -> resumes ev = [] -> effect s s' ev.
Proof.
  intros Hinv Hlo Eo Hf Hr. apply effect_quiet; [done..| |]; intros j; rewrite Eo; [by apply loosened_ended|by apply loosened_keep].
Qed.
Lemma effect_take s s0 s' i o ev : ops_ok s -> loosened s s0 -> ops s' = (ops s0).[i ↦ o] -> freed ev = false -> resumes ev = [] ->
  ended (ops s i) = false -> ended o = false -> effect s s' ev.
Proof.
  intros Hinv Hlo Eo Hf Hr H1 H2. apply effect_quiet; [done..| |]; intros j; rewrite Eo; upd_cases; try congruence;
    [by apply loosened_ended|by apply loosened_keep].
Qed.

(** Steps that report only on the interest list *)
Definition silent (ev : list event) : Prop := freed ev = false /\ resumes ev = [].
Lemma silent_app a b : silent a -> silent b -> silent (a ++ b).
Proof.
  unfold silent, freed, resumes. rewrite existsb_app, omap_app. intros [-> ->] [-> ->]. done.
Qed.
Lemma silent_steals s i fd : silent (steals s i fd).
Proof. unfold steals. by destruct (existsb _ _). Qed.
Lemma silent_unwatch s i : silent (snd (unwatch s i)).
Proof. unfold unwatch. destruct (o_fd (ops s i)); [apply silent_steals|done]. Qed.
Lemma silent_read s i : ended (ops s i) = false -> silent (read_pi s i).
Proof. unfold read_pi, ended. by destruct (o_pc (ops s i)). Qed.

Lemma pollable_not_ended o : pollable o = true -> ended o = false.
Proof. unfold pollable, ended. by destruct (o_pc o); rewrite ?andb_false_r. Qed.

Lemma silent_next_event s x : item_ok (ops s) x = true -> silent (snd (next_event s x)).
Proof.
  destruct x as [| | |i st]; try done. intros [Hp%pollable_not_ended _]%andb_true_iff. pose proof (silent_read s i Hp) as Hr. unfold next_event.
  assert (silent (snd (match o_token (ops s i) with
    | Some c => (unwatch_fd s c, read_pi s i ++ steals s i c) | None => (s, read_pi s i) end))) as Hm
    by (destruct (o_token (ops s i)); [apply silent_app; [done|apply silent_steals]|done]).
  destruct st; try exact Hm. pose proof (silent_unwatch (fire s i) i) as Hu. destruct (unwatch (fire s i) i). by apply silent_app.
Qed.

Lemma loosened_items s s' b : loosened s s' -> forallb (item_ok (ops s)) b = true -> forallb (item_ok (ops s')) b = true.
Proof.
  intros Hl. apply items_ext. intros j. unfold pollable, is_poll. by destruct (loosened_fields s s' j Hl) as (-> & -> & _).
Qed.

Lemma silent_next_events b : forall s, forallb (item_ok (ops s)) b = true -> silent (snd (next_events s b)).
Proof.
  induction b as [|x b IH]; [done|]. intros s [Hx Hb]%andb_true_iff. cbn. pose proof (loosened_next_event s x) as Hl.
  pose proof (silent_next_event s x Hx) as H1. destruct (next_event s x) as [s1 ev1]. specialize (IH s1 (loosened_items _ _ _ Hl Hb)).
  destruct (next_events s1 b). by apply silent_app.
Qed.

Lemma process_event_effect s i st : ops_ok s -> pollable (ops s i) = true ->
  effect s (fst (process_event_execute s i st)) (snd (process_event_execute s i st)).
Proof.
  intros Hinv Hp%pollable_not_ended. unfold process_event_execute. pose proof (silent_read s i Hp) as Hr.
  destruct (m_processed (ops s i)); cbn; [apply effect_quiet; try apply Hr; done|].
  pose proof (loosened_unwatch s i) as Hlo. pose proof (silent_unwatch s i) as Hu. destruct (unwatch s i) as [s0 ev0]. cbn in *.
  destruct (silent_app _ _ Hr Hu). rewrite <- (loosened_ended s s0 i Hlo) in Hp.
  apply (effect_take s s0 _ i (mk_op (o_kind (ops s0 i)) (o_pc (ops s0 i)) (o_tp (ops s0 i)) (m_timer_pos (ops s0 i)) true st
    (o_registered (ops s0 i)) AtSpin)); try done; [by destruct (m_timer_pos (ops s0 i))|by rewrite <- (loosened_ended s s0)].
Qed.

Lemma process_timeout_effect s i : ops_ok s -> ended (ops s i) = false ->
  effect s (fst (process_timeout_one s i)) (snd (process_timeout_one s i)).
Proof.
  intros Hinv Hp. unfold process_timeout_one. pose proof (silent_read s i Hp) as Hr.
  destruct (m_processed (ops s i)); cbn; [apply effect_quiet; try apply Hr; done|].
  pose proof (loosened_unwatch s i) as Hlo. pose proof (silent_unwatch s i) as Hu. destruct (unwatch s i) as [s0 ev0]. cbn in *.
  assert (silent (if trigger_armed s0 i then [EvTriggerLeft i] else [])) as Ht by (by destruct (trigger_armed s0 i)).
  destruct (silent_app _ _ Hr (silent_app _ _ Hu Ht)). rewrite <- (loosened_ended s s0 i Hlo) in Hp.
  eapply (effect_take s s0 _ i); try done. by rewrite <- (loosened_ended s s0).
Qed.

(** [effect] looks at the operations only. *)
Lemma effect_ops s1 s2 s' ev : ops s1 = ops s2 -> effect s1 s' ev -> effect s2 s' ev.
Proof. intros E [F1 F2 F3 F4]. rewrite E in *. by split. Qed.

Lemma start_effect s k p s' ev : start s k p = Some (s', ev) -> p <> PResumed -> inv s -> effect s s' ev.
Proof.
  unfold start. destruct (m_size s <? u64_max); [|done]. intros [= <- <-] Hp Hinv.
  eapply (effect_upd s _ (next s)); [reflexivity|done..| |].
  - unfold ended. by rewrite (i_fresh s Hinv).
  - unfold ended. cbn. by destruct p.
Qed.

Lemma watch_effect s i ok s' ev : watch s i ok = (s', ev) -> o_pc (ops s i) = PWatch -> effect s s' ev.
Proof.
  unfold watch. set (reg := ok && _). intros [= <- <-] Hpc. eapply (effect_upd s _ i); [reflexivity|..]; unfold ended; cbn; rewrite ?Hpc; try done;
    by destruct reg, (m_processed (ops s i)), (o_token (ops s i)).
Qed.

Lemma exec_op_effect s i s' ev : exec_op s i = Some (s', ev) -> effect s s' ev.
Proof.
  unfold exec_op, await_suspend. intros He. destruct (o_pc (ops s i)) eqn:Hpc; try done.
  3: { apply (inj Some) in He. by apply (watch_effect s i true). }
  3: { apply (inj Some) in He. unfold watch_trigger in He.
       destruct (o_token (ops s i)) as [c|]; [destruct (in_interest s c)|]; injection He as <- <-;
         (eapply (effect_upd s _ i); [reflexivity|..]; unfold ended; cbn; rewrite ?Hpc; try done);
         by destruct (m_processed (ops s i)), (reported (m_recent_events s) i). }
  all: injection He as <- <-; (eapply (effect_upd s _ i); [reflexivity|..]; unfold ended; cbn; rewrite ?Hpc; try done);
    try (by destruct (loop s)); by destruct (o_kind (ops s i)).
Qed.

Lemma expired_not_ended s i e : inv s -> poll_infos s = i :: e -> ended (ops s i) = false.
Proof.
  intros Hinv Hi. destruct (i_linked s Hinv i) as [A1 _ _ _ _ _]. destruct (expired_head s i e Hinv Hi) as (Hpl & _).
  unfold op_ok, ended in *. rewrite Hpl in A1. by destruct (o_pc (ops s i)), (o_kind (ops s i)).
Qed.

Lemma read_pi_nil s i : ended (ops s i) = false -> read_pi s i = [].
Proof. unfold read_pi, ended. by destruct (o_pc (ops s i)). Qed.

Lemma loop_effect s s' ev : exec_loop s = Some (s', ev) -> inv s -> effect s s' ev.
Proof.
  unfold exec_loop, process_timeout_execute, process_scheduled_execute_inline, flush. intros He Hinv. pose proof (i_items s Hinv) as Hit.
  assert (forall s1, ops s1 = ops s -> effect s s1 []) as Hext by (intros s1 E; apply effect_quiet; by rewrite ?E).
  destruct (loop s) as [| | |i|t| |i| |first| | | |n|n|] eqn:Hl; try done.
  - destruct (m_recent_events s) as [|x b] eqn:Hb.
    + destruct (m_handles_to_resume s); injection He as <- <-; by apply Hext.
    + cbn in Hit. apply andb_true_iff in Hit as [Hx _]. destruct x as [| | |i st]; try (injection He as <- <-; by apply Hext).
      cbn in Hx. apply andb_true_iff in Hx as [Hp _]. apply (inj Some) in He.
      apply (effect_ops (set_loop s LItems b (poll_infos s) (m_handles_to_resume s))); [done|].
      pose proof (process_event_effect (set_loop s LItems b (poll_infos s) (m_handles_to_resume s)) i st (inv_ops_ok s Hinv) Hp) as Hef.
      by rewrite He in Hef.
  - destruct (o_pc (ops s i)) eqn:Hpc; try done. injection He as <- <-.
    eapply (effect_upd s _ i); [reflexivity|done..| |]; unfold ended; cbn; by rewrite ?Hpc.
  - destruct (pop_expired t (m_timed_events s)) as [e r] eqn:Hpop. injection He as <- <-.
    pose proof (pop_inv s t Hinv Hl) as Hinv'. rewrite Hpop in Hinv'. apply effect_quiet; try done; cbn.
    + intros i. by destruct (decide (i ∈ e)).
    + intros i Hend. destruct (decide (i ∈ e)) as [Hin|]; [|done]. destruct (i_linked _ Hinv' i) as [A1 _ _ _ _ _]. cbn in A1.
      rewrite decide_True in A1 by done. unfold op_ok, ended in *. cbn in A1.
      by destruct (o_pc (ops s i)), (o_kind (ops s i)).
  - destruct (poll_infos s) as [|i e] eqn:Hi; [injection He as <- <-; by apply Hext|].
    pose proof (expired_not_ended s i e Hinv Hi) as Hne. apply (inj Some) in He.
    pose proof (process_timeout_effect (set_loop s LExpired (m_recent_events s) e (m_handles_to_resume s)) i (inv_ops_ok s Hinv) Hne) as Hef.
    rewrite He in Hef. revert Hef. by apply effect_ops.
  - destruct (o_pc (ops s i)) eqn:Hpc; try done. injection He as <- <-.
    eapply (effect_upd s _ i); [reflexivity|done..| |]; unfold ended; cbn; by rewrite ?Hpc.
  - injection He as <- <-. by apply Hext.
  - injection He as <- <-. by apply Hext.
  - destruct (4 <=? pipe s)%nat; injection He as <- <-; by apply Hext.
  - injection He as <- <-. by apply Hext.
  - injection He as <- <-. pose proof (pop_all_inv s Hinv Hl) as Hinv'. apply effect_quiet; try done; cbn.
    + intros i. by destruct (decide (i ∈ rev (m_scheduled_ops s))).
    + intros i Hend. destruct (decide (i ∈ rev (m_scheduled_ops s))) as [Hin|]; [|done].
      destruct (i_linked _ Hinv' i) as [A1 _ _ _ _ _]. cbn in A1. rewrite decide_True in A1 by done.
      unfold op_ok, ended in *. cbn in A1. by destruct (o_pc (ops s i)), (o_kind (ops s i)).
  - destruct (m_handles_to_resume s) as [|i h] eqn:Hh; injection He as <- <-; [by apply Hext|].
    destruct (flush_inv s n i h Hinv Hl Hh) as (_ & Hpc & Hst). split; cbn; try done.
    + intros j. unfold ended. destruct (decide (j = i)) as [->|Hne]; cbn;
        [by rewrite upd_eq, Hpc|by rewrite upd_ne, Nat.add_0_r by done].
    + intros j Hend. upd_cases; [|done]. unfold ended in Hend. by rewrite Hpc in Hend.
    + intros j st t [= -> -> ->]%list_elem_of_singleton. rewrite upd_eq. exact Hst.
  - injection He as <- <-. by apply Hext.
Qed.

Lemma step_effect l s s' ev : exec l s = Some (s', ev) -> inv s -> trig_ok s -> effect s s' ev.
Proof.
  intros He Hinv Htr. assert (forall s1 ev, ops s1 = ops s -> freed ev = false -> resumes ev = [] -> effect s s1 ev) as Hext
    by (intros s1 ev1 E ? ?; apply effect_quiet; by rewrite ?E).
  destruct l; cbn in He.
  - injection He as <- <-. by apply Hext.
  - by apply (start_effect _ _ _ _ _ He).
  - unfold resume in He. destruct (m_shutdown_requested s); [injection He as <- <-; by apply Hext|]. by apply (start_effect _ _ _ _ _ He).
  - unfold yield_for_internal in He. destruct (amount <=? 0); by apply (start_effect _ _ _ _ _ He).
  - unfold yield_until in He. destruct (time <=? now s); by apply (start_effect _ _ _ _ _ He).
  - unfold poll in He. destruct (0 <? timeout_ms); by apply (start_effect _ _ _ _ _ He).
  - unfold spawn_detached in He. destruct (m_size s <? u64_max); [|done]. injection He as <- <-. by apply Hext.
  - unfold spawn_resume in He. destruct (spawning (spawns s)); [done|].
    destruct (m_shutdown_requested s); [injection He as <- <-; by apply Hext|].
    destruct (schedule s) as [[s1 ev1]|] eqn:Hs; [|done]. injection He as <- <-.
    destruct (start_effect _ _ _ _ _ Hs) as [F1 F2 F3 F4]; [done..|]. by split.
  - unfold detached_done in He. destruct (o_pc (ops s i)); try done. destruct (decide (i ∈ detached (spawns s))); [|done].
    injection He as <- <-. by apply Hext.
  - destruct (o_pc (ops s i)) eqn:Hpc; try done. apply (inj Some) in He. by apply (watch_effect s i false).
  - by apply (exec_op_effect _ _ _ _ He).
  - unfold exec_trigger, read_this in He. destruct (decide (i ∈ triggering s)); [|done]. injection He as <- <-.
    by apply Hext; destruct (o_pc (ops s i)).
  - unfold exec_write, read_this in He. destruct (decide (i ∈ writing s)); [|done]. injection He as <- <-.
    by apply Hext; destruct (o_pc (ops s i)).
  - unfold exec_check in He. destruct (loop s); try done.
    destruct (m_shutdown_requested s && _); injection He as <- <-; by apply Hext.
  - apply epoll_split in He as (Hl & Hb & _ & a & e & s3 & Hn & _ & _ & ->).
    match type of Hn with _ = next_events ?x _ => set (s2 := x) in * end.
    pose proof (loosened_next_events batch s2) as (_ & O & _). pose proof (silent_next_events batch s2 (reportable_items s _ Hinv Htr Hb)) as [F1 F2].
    rewrite <- Hn in F1, F2, O. apply (effect_loosened s (set_triggers (set_ops s (ops s3)) (triggers s))); [by apply inv_ops_ok| |done..].
    split_and!; [done|exact O|done].
  - by apply (loop_effect _ _ _ He).
  - injection He as <- <-. by apply Hext.
Qed.

(** Without a registration left over everything above holds along the whole run. *)
Definition run_ok (s : state) (tr : list event) : Prop :=
  (inv s /\ trig_ok s) /\ freed tr = false /\ (forall i, occ i (resumes tr) = b2n (ended (ops s i))) /\
  (forall i st t, EvResume i st t ∈ tr -> on_time (ops s i) st t).

Lemma left_over_app a b : left_over (a ++ b) = left_over a || left_over b.
Proof. apply existsb_app. Qed.

Lemma resumes_elem i st t tr : EvResume i st t ∈ tr -> i ∈ resumes tr.
Proof. intros H. apply list_elem_of_omap. by exists (EvResume i st t). Qed.

Lemma run_ok_reach s tr : reach exec init s tr -> left_over tr = false -> run_ok s tr.
Proof.
  revert s tr. apply (reach_inv exec (fun s tr => left_over tr = false -> run_ok s tr)).
  - intros _. split; [split; [apply sch_init_inv|intros c i; cbn; no_nil]|]. split_and!; [done|done|no_nil].
  - intros s tr l s' ev IH He Hlate. rewrite left_over_app in Hlate. apply orb_false_iff in Hlate as [Hl1 Hl2].
    destruct (IH Hl1) as ([Hinv Htr] & Hf & Hc & Ht). destruct (step_effect l s s' ev He Hinv Htr) as [F1 F2 F3 F4].
    split; [split; [by apply (step_inv l s s' ev)|by apply (step_trig l s s' ev)]|]. split_and!.
    + unfold freed in *. rewrite existsb_app. apply orb_false_iff. by split.
    + intros i. unfold resumes. rewrite omap_app, occ_app. fold (resumes tr) (resumes ev). rewrite F2, Hc. done.
    + intros i st t [Hin|Hin]%elem_of_app; [|by apply F4]. rewrite F3; [by apply Ht|].
      apply resumes_elem, occ_elem in Hin. rewrite Hc in Hin. by destruct (ended (ops s i)).
Qed.


(** ** The schedule pipe *)

Definition is_sched (x : item) : bool := match x with ISchedule => true | _ => false end.
Definition sched_items (b : list item) : nat := length (List.filter is_sched b).
#[local] Arguments sched_items : simpl never.
Definition draining (p : lpc) : bool := match p with LDrain | LReset => true | _ => false end.

(** The trigger flag is up exactly while one notification is under way, and the pipe holds
    at most one int. *)
Definition signals (s : state) : nat :=
  (length (writing s) + b2n (edge s) + sched_items (m_recent_events s) + b2n (draining (loop s)))%nat.
Definition readable (s : state) : nat :=
  (b2n (edge s) + sched_items (m_recent_events s) + b2n (match loop s with LDrain => true | _ => false end))%nat.
Record pipe_ok (s : state) : Prop := {
  q_signal : signals s = b2n (m_schedule_pipe_triggered s);
  q_pipe : pipe s = readable s;
  q_wake : m_scheduled_ops s <> [] -> m_schedule_pipe_triggered s = true \/ triggering s <> [] \/ loop s = LPopAll
}.

Lemma pipe_same s s' : writing s' = writing s -> edge s' = edge s -> pipe s' = pipe s ->
  m_schedule_pipe_triggered s' = m_schedule_pipe_triggered s -> triggering s' = triggering s -> m_scheduled_ops s' = m_scheduled_ops s ->
  sched_items (m_recent_events s') = sched_items (m_recent_events s) ->
  match loop s, loop s' with
  | LPopAll, _ | _, LPopAll | LDrain, _ | _, LDrain | LReset, _ | _, LReset => False
  | _, _ => True
  end \/ loop s' = loop s -> pipe_ok s -> pipe_ok s'.
Proof.
  intros E1 E2 E3 E4 E5 E6 E7 El [Q1 Q2 Q3]. unfold signals, readable in *.
  split; unfold signals, readable; rewrite ?E1, ?E2, ?E3, ?E4, ?E5, ?E6, ?E7.
  - rewrite <- Q1. do 2 f_equal. destruct El as [El| ->]; [|done]. by destruct (loop s), (loop s').
  - rewrite Q2. do 2 f_equal. destruct El as [El| ->]; [|done]. by destruct (loop s), (loop s').
  - intros Hne. destruct (Q3 Hne) as [?|[?|Hl]]; [auto..|]. destruct El as [El| ->]; [|auto]. by rewrite Hl in El.
Qed.

Lemma remove_first_length i l : i ∈ l -> S (length (remove_first i l)) = length l.
Proof.
  induction l as [|x l IH]; cbn; [by intros ?%elem_of_nil|]. intros Hin. destruct (decide (x = i)) as [->|Hne]; [done|].
  cbn. rewrite IH; [done|]. apply elem_of_cons in Hin as [->|?]; [|done]. by destruct Hne.
Qed.

Lemma pipe_loosened s s' : loosened s s' -> pipe_ok s -> pipe_ok s'.
Proof. intros (E & _). rewrite E. apply pipe_same; cbn; auto. Qed.

Lemma pipe_event s i st : loop s = LItems -> pipe_ok s -> pipe_ok (fst (process_event_execute s i st)).
Proof.
  intros Hl Hq. unfold process_event_execute. destruct (m_processed (ops s i)); [done|]. pose proof (loosened_unwatch s i) as Hlo.
  destruct (unwatch s i) as [s0 ev0]. destruct (loosened_lists _ _ Hlo) as (El & _). apply (pipe_loosened _ _ Hlo) in Hq. cbn [fst] in *.
  destruct (m_timer_pos (ops s0 i)); apply (pipe_same s0); cbn; rewrite ?El, ?Hl; auto.
Qed.

Lemma pipe_timeout s i : loop s = LExpired -> pipe_ok s -> pipe_ok (fst (process_timeout_one s i)).
Proof.
  intros Hl Hq. unfold process_timeout_one. destruct (m_processed (ops s i)); [done|]. pose proof (loosened_unwatch s i) as Hlo.
  destruct (unwatch s i) as [s0 ev0]. destruct (loosened_lists _ _ Hlo) as (El & _). apply (pipe_loosened _ _ Hlo) in Hq. cbn [fst] in *.
  apply (pipe_same s0); cbn; rewrite ?El, ?Hl; auto.
Qed.

Lemma loop_pipe s s' ev : exec_loop s = Some (s', ev) -> pipe_ok s -> pipe_ok s'.
Proof.
  unfold exec_loop, process_timeout_execute, process_scheduled_execute_inline, flush. intros He Hq. destruct (loop s) as [| | |i|t| |i| |first| | | |n|n|] eqn:Hl; try done.
  - destruct (m_recent_events s) as [|x b] eqn:Hb.
    + destruct (m_handles_to_resume s); injection He as <- <-; apply (pipe_same s); cbn; rewrite ?Hl, ?Hb; auto.
    + destruct x as [| | |i st].
      2: { injection He as <- <-. destruct Hq as [Q1 Q2 Q3]. unfold signals, readable, sched_items in *. rewrite Hl, Hb in Q1, Q2. cbn in Q1, Q2.
           split; unfold signals, readable, sched_items; cbn; [lia|lia|]. intros Hne. destruct (Q3 Hne) as [?|[?|?]]; [auto..|congruence]. }
      3: { apply (inj Some), (f_equal fst) in He. cbn [fst] in He. subst s'. apply pipe_event; [done|].
           apply (pipe_same s); cbn; rewrite ?Hl, ?Hb; auto. }
      all: injection He as <- <-; apply (pipe_same s); cbn; rewrite ?Hl, ?Hb; auto.
  - destruct (o_pc (ops s i)); try done. injection He as <- <-. apply (pipe_same s); cbn; rewrite ?Hl; auto.
  - destruct (pop_expired t (m_timed_events s)). injection He as <- <-. apply (pipe_same s); cbn; rewrite ?Hl; auto.
  - destruct (poll_infos s) as [|i e]; [injection He as <- <-; apply (pipe_same s); cbn; rewrite ?Hl; auto|].
    apply (inj Some), (f_equal fst) in He. cbn [fst] in He. subst s'. apply pipe_timeout; [done|].
    apply (pipe_same s); cbn; rewrite ?Hl; auto.
  - destruct (o_pc (ops s i)); try done. injection He as <- <-. apply (pipe_same s); cbn; rewrite ?Hl; auto.
  - injection He as <- <-. apply (pipe_same s); cbn; rewrite ?Hl; auto.
  - injection He as <- <-. apply (pipe_same s); cbn; rewrite ?Hl; auto.
  - destruct Hq as [Q1 Q2 Q3]. unfold signals, readable in *. rewrite Hl in Q1, Q2. cbn in Q1, Q2.
    assert (pipe s <= 1)%nat by (destruct (m_schedule_pipe_triggered s); cbn in *; lia).
    destruct (Nat.leb_spec 4 (pipe s)); [lia|]. injection He as <- <-.
    split; unfold signals, readable; cbn; [lia|destruct (m_schedule_pipe_triggered s); cbn in *; lia|].
    intros Hne. destruct (Q3 Hne) as [?|[?|?]]; [auto..|congruence].
  - destruct Hq as [Q1 Q2 Q3]. unfold signals, readable in *. rewrite Hl in Q1, Q2. cbn in Q1, Q2. injection He as <- <-.
    split; unfold signals, readable; cbn; [destruct (m_schedule_pipe_triggered s); cbn in *; lia|lia|auto].
  - destruct Hq as [Q1 Q2 Q3]. unfold signals, readable in *. rewrite Hl in Q1, Q2. cbn in Q1, Q2. injection He as <- <-.
    split; unfold signals, readable; cbn; [lia|lia|done].
  - destruct (m_handles_to_resume s); injection He as <- <-; apply (pipe_same s); cbn; rewrite ?Hl; auto.
  - injection He as <- <-. apply (pipe_same s); cbn; rewrite ?Hl; auto.
Qed.

Lemma start_pipe s k p s' ev : start s k p = Some (s', ev) -> pipe_ok s -> pipe_ok s'.
Proof. unfold start. destruct (m_size s <? u64_max); [|done]. intros [= <- <-]. apply pipe_same; auto. Qed.

Lemma step_pipe l s s' ev : exec l s = Some (s', ev) -> shape s = true -> pipe_ok s -> pipe_ok s'.
Proof.
  intros He Hsh Hq. destruct l; cbn in He.
  - injection He as <- <-. apply (pipe_same s); cbn; auto.
  - by apply (start_pipe _ _ _ _ _ He).
  - unfold resume in He. destruct (m_shutdown_requested s); [by injection He as <- <-|]. by apply (start_pipe _ _ _ _ _ He).
  - unfold yield_for_internal in He. destruct (amount <=? 0); by apply (start_pipe _ _ _ _ _ He).
  - unfold yield_until in He. destruct (time <=? now s); by apply (start_pipe _ _ _ _ _ He).
  - unfold poll in He. destruct (0 <? timeout_ms); by apply (start_pipe _ _ _ _ _ He).
  - unfold spawn_detached in He. destruct (m_size s <? u64_max); [|done]. injection He as <- <-. apply (pipe_same s); cbn; auto.
  - unfold spawn_resume in He. destruct (spawning (spawns s)); [done|].
    destruct (m_shutdown_requested s); [injection He as <- <-; apply (pipe_same s); cbn; auto|].
    destruct (schedule s) as [[s1 ev1]|] eqn:Hs; [|done]. injection He as <- <-. apply (start_pipe _ _ _ _ _ Hs) in Hq.
    apply (pipe_same s1); cbn; auto.
  - unfold detached_done in He. destruct (o_pc (ops s i)); try done. destruct (decide (i ∈ detached (spawns s))); [|done].
    injection He as <- <-. apply (pipe_same s); cbn; auto.
  - destruct (o_pc (ops s i)) eqn:Hpc; try done. apply (inj Some) in He. injection He as <- <-. apply (pipe_same s); cbn; auto.
  - unfold exec_op, await_suspend in He. destruct (o_pc (ops s i)); try done.
    4: { apply (inj Some) in He. unfold watch_trigger in He.
         destruct (o_token (ops s i)) as [c|]; [destruct (in_interest s c)|]; injection He as <- <-; apply (pipe_same s); cbn; auto. }
    all: injection He as <- <-; try (apply (pipe_same s); cbn; auto; done).
    destruct Hq as [Q1 Q2 Q3]. split; cbn; auto.
  - unfold exec_trigger in He. destruct (decide (i ∈ triggering s)); [|done]. injection He as <- <-.
    destruct Hq as [Q1 Q2 Q3]. unfold signals, readable in *. split; unfold signals, readable; cbn; auto.
    destruct (m_schedule_pipe_triggered s); cbn in *; lia.
  - unfold exec_write in He. destruct (decide (i ∈ writing s)) as [Hi|]; [|done]. injection He as <- <-.
    destruct Hq as [Q1 Q2 Q3]. unfold signals, readable in *. apply remove_first_length in Hi.
    split; unfold signals, readable; cbn; auto; destruct (edge s), (m_schedule_pipe_triggered s); cbn in *; lia.
  - unfold exec_check in He. destruct (loop s) eqn:Hl; try done.
    destruct (m_shutdown_requested s && _); injection He as <- <-; apply (pipe_same s); cbn; rewrite ?Hl; auto.
  - apply epoll_split in He as (Hl & Hrep & Hon & a & e & s3 & Hn & _ & -> & ->).
    match type of Hn with _ = next_events ?x _ => pose proof (loosened_next_events batch x) as (E3 & _) end.
    rewrite <- Hn in E3. cbn [fst] in E3. clear Hn. rewrite E3. clear E3. unfold shape in Hsh. rewrite Hl in Hsh.
    destruct (m_recent_events s) eqn:Hm; [|done]. destruct Hq as [Q1 Q2 Q3]. unfold signals, readable in *. rewrite Hl, Hm in Q1, Q2. change (sched_items []) with 0%nat in *. cbn in Q1, Q2.
    unfold once in Hon. apply Nat.leb_le in Hon. fold is_sched in Hon. change (sched_items batch <= 1)%nat in Hon.
    assert ((if has ISchedule batch then false else edge s) = false /\ sched_items batch = 1%nat /\ edge s = true \/
            (if has ISchedule batch then false else edge s) = edge s /\ sched_items batch = 0%nat) as Hh.
    { clear -Hrep Hon. destruct (has ISchedule batch) eqn:Hhas.
      - left. unfold has in Hhas. apply existsb_exists in Hhas as (x & Hx & Hsx). destruct x; try done.
        rewrite forallb_forall in Hrep. specialize (Hrep _ Hx). cbn in Hrep. split_and!; try done.
        assert (In ISchedule (List.filter is_sched batch)) as Hf by (by apply filter_In).
        unfold sched_items in *. destruct (List.filter is_sched batch); cbn in *; [done|lia].
      - right. split; [done|]. unfold sched_items. induction batch as [|x b IH]; [done|]. cbn in *.
        apply andb_true_iff in Hrep as [_ Hrep]. apply orb_false_iff in Hhas as [Hx Hhas].
        destruct x; cbn in *; try done; apply IH; try done; unfold sched_items in *; cbn in *; lia. }
    split; unfold signals, readable; cbn.
    + destruct Hh as [(-> & -> & Hh)|[-> ->]]; [rewrite Hh in Q1|]; cbn in *; lia.
    + destruct Hh as [(-> & -> & Hh)|[-> ->]]; [rewrite Hh in Q2|]; cbn in *; lia.
    + intros Hne. destruct (Q3 Hne) as [?|[?|?]]; [auto..|congruence].
  - by apply (loop_pipe _ _ _ He).
  - injection He as <- <-. apply (pipe_same s); cbn; auto.
Qed.

(** ** The timer *)

Definition timing (p : lpc) : bool := match p with LPop _ | LExpired | LSpinTimeout _ | LRead => true | _ => false end.

(** The timerfd is armed for the earliest timer, or the loop is on its way to arm it. *)
Definition timer_ok (s : state) : Prop :=
  match loop s with LArm first => first = m_timed_events s | _ => True end /\
  (armed_for (now s) (m_timed_events s) (armed s) \/ has ITimer (m_recent_events s) = true \/ timing (loop s) = true \/
   exists first, loop s = LArm first).

Definition timer_race (tr : list event) : bool :=
  existsb (fun e => match e with EvTimerRace _ => true | _ => false end) tr.

Lemma timer_same s s' : now s <= now s' -> m_timed_events s' = m_timed_events s -> armed s' = armed s ->
  (has ITimer (m_recent_events s) = true -> has ITimer (m_recent_events s') = true) ->
  loop s' = loop s \/ timing (loop s) = false /\ (forall l, loop s <> LArm l) /\ (forall l, loop s' <> LArm l) \/
    timing (loop s') = true ->
  timer_ok s -> timer_ok s'.
Proof.
  intros Hn Et Ea Hb Hl [T1 T2]. unfold timer_ok. rewrite Et, Ea. destruct Hl as [El|[(Hl & Hna & Hnb)|Hl]].
  - rewrite El. split; [done|]. destruct T2 as [T2|[T2|T2]]; [left; by apply (armed_later (now s))|auto..].
  - split; [destruct (loop s'); try done; by destruct (Hnb first)|].
    destruct T2 as [T2|[T2|[T2|[l T2]]]]; [left; by apply (armed_later (now s))|auto|congruence|by destruct (Hna l)].
  - split; [by destruct (loop s')|auto].
Qed.

Lemma timer_loosened s s' : loosened s s' -> timer_ok s -> timer_ok s'.
Proof. intros (E & _). rewrite E. apply timer_same; cbn; auto. lia. Qed.

Lemma timer_event s i st : loop s = LItems -> timer_ok s -> timer_ok (fst (process_event_execute s i st)).
Proof.
  intros Hl Hq. unfold process_event_execute. destruct (m_processed (ops s i)); [done|]. pose proof (loosened_unwatch s i) as Hlo.
  destruct (unwatch s i) as [s0 ev0]. destruct (loosened_lists _ _ Hlo) as (El & _). apply (timer_loosened _ _ Hlo) in Hq. cbn [fst] in *.
  destruct (m_timer_pos (ops s0 i)); [|apply (timer_same s0); cbn; rewrite ?El, ?Hl; try done; right; left; done].
  destruct Hq as [_ T2]. rewrite El, Hl in T2. split; cbn; [done|].
  destruct T2 as [T2|[T2|[T2|[l T2]]]]; try done; [left; by apply remove_armed|auto].
Qed.

Lemma loop_timer s s' ev : exec_loop s = Some (s', ev) -> timer_ok s -> timer_ok s'.
Proof.
  unfold exec_loop, process_timeout_execute, process_scheduled_execute_inline, flush. intros He Hq. destruct (loop s) as [| | |i|t| |i| |first| | | |n|n|] eqn:Hl; try done.
  - destruct (m_recent_events s) as [|x b] eqn:Hb.
    + destruct (m_handles_to_resume s); injection He as <- <-; apply (timer_same s); cbn; rewrite ?Hl, ?Hb; try done; right; left; done.
    + destruct x as [| | |i st].
      * injection He as <- <-. split; cbn; auto.
      * injection He as <- <-. apply (timer_same s); cbn; rewrite ?Hl, ?Hb; try done. right; left; done.
      * injection He as <- <-. apply (timer_same s); cbn; rewrite ?Hl, ?Hb; try done. right; left; done.
      * apply (inj Some), (f_equal fst) in He. cbn [fst] in He. subst s'. apply timer_event; [done|].
        apply (timer_same s); cbn; rewrite ?Hl, ?Hb; try done. right; left; done.
  - destruct (o_pc (ops s i)); try done. injection He as <- <-. apply (timer_same s); cbn; rewrite ?Hl; try done. right; left; done.
  - destruct (pop_expired t (m_timed_events s)). injection He as <- <-. split; cbn; auto.
  - destruct (poll_infos s) as [|i e]; [injection He as <- <-; split; cbn; auto|].
    apply (inj Some), (f_equal fst) in He. cbn [fst] in He. subst s'. unfold process_timeout_one.
    destruct (m_processed _); [split; cbn; auto|]. destruct (unwatch _ i). split; cbn; auto.
  - destruct (o_pc (ops s i)); try done. injection He as <- <-. split; cbn; auto.
  - injection He as <- <-. split; cbn; [done|]. eauto.
  - injection He as <- <-. destruct Hq as [T1 _]. rewrite Hl in T1. subst first. split; cbn; [done|]. left. apply update_timeout_armed.
  - destruct (4 <=? pipe s)%nat; injection He as <- <-; apply (timer_same s); cbn; rewrite ?Hl; try done; [by left|right; left; done].
  - injection He as <- <-. apply (timer_same s); cbn; rewrite ?Hl; try done. right; left; done.
  - injection He as <- <-. apply (timer_same s); cbn; rewrite ?Hl; try done. right; left; done.
  - destruct (m_handles_to_resume s); injection He as <- <-; apply (timer_same s); cbn; rewrite ?Hl; try done; right; left; done.
  - injection He as <- <-. apply (timer_same s); cbn; rewrite ?Hl; try done. right; left; done.
Qed.

Lemma start_timer s k p s' ev : start s k p = Some (s', ev) -> timer_ok s -> timer_ok s'.
Proof. unfold start. destruct (m_size s <? u64_max); [|done]. intros [= <- <-]. apply timer_same; auto. done. Qed.

Lemma step_timer l s s' ev : exec l s = Some (s', ev) -> timer_race ev = false -> inv s -> timer_ok s -> timer_ok s'.
Proof.
  intros He Hrace Hinv Hq. destruct l; cbn in He.
  - injection He as <- <-. apply (timer_same s); cbn; auto. lia.
  - by apply (start_timer _ _ _ _ _ He).
  - unfold resume in He. destruct (m_shutdown_requested s); [by injection He as <- <-|]. by apply (start_timer _ _ _ _ _ He).
  - unfold yield_for_internal in He. destruct (amount <=? 0); by apply (start_timer _ _ _ _ _ He).
  - unfold yield_until in He. destruct (time <=? now s); by apply (start_timer _ _ _ _ _ He).
  - unfold poll in He. destruct (0 <? timeout_ms); by apply (start_timer _ _ _ _ _ He).
  - unfold spawn_detached in He. destruct (m_size s <? u64_max); [|done]. injection He as <- <-. by apply (timer_same s); cbn; auto.
  - unfold spawn_resume in He. destruct (spawning (spawns s)); [done|].
    destruct (m_shutdown_requested s); [injection He as <- <-; by apply (timer_same s); cbn; auto|].
    destruct (schedule s) as [[s1 ev1]|] eqn:Hs; [|done]. injection He as <- <-. apply (start_timer _ _ _ _ _ Hs) in Hq.
    by apply (timer_same s1); cbn; auto.
  - unfold detached_done in He. destruct (o_pc (ops s i)); try done. destruct (decide (i ∈ detached (spawns s))); [|done].
    injection He as <- <-. by apply (timer_same s); cbn; auto.
  - destruct (o_pc (ops s i)) eqn:Hpc; try done. apply (inj Some) in He. injection He as <- <-. by apply (timer_same s); cbn; auto.
  - unfold exec_op, await_suspend in He. destruct (o_pc (ops s i)) eqn:Hpc; try done.
    4: { apply (inj Some) in He. unfold watch_trigger in He.
         destruct (o_token (ops s i)) as [c|]; [destruct (in_interest s c)|]; injection He as <- <-; apply (timer_same s); cbn; auto; done. }
    all: injection He as <- <-; try (apply (timer_same s); cbn; auto; done).
    assert (occ i (map snd (m_timed_events s)) = 0%nat) as Hocc.
    { destruct (i_linked s Hinv i) as [A1 A2 _ _ _ _]. rewrite A2. unfold op_ok in A1. rewrite Hpc in A1.
      unfold at_none, at_place in *. by destruct (o_kind (ops s i)), (o_place (ops s i)). }
    destruct Hq as [T1 T2]. split; cbn; [by destruct (loop s)|]. destruct T2 as [T2|[T2|T2]]; auto. left. by apply add_armed.
  - unfold exec_trigger in He. destruct (decide (i ∈ triggering s)); [|done]. injection He as <- <-. apply (timer_same s); cbn; auto. done.
  - unfold exec_write in He. destruct (decide (i ∈ writing s)); [|done]. injection He as <- <-. apply (timer_same s); cbn; auto. done.
  - unfold exec_check in He. destruct (loop s) eqn:Hl; try done.
    destruct (m_shutdown_requested s && _); injection He as <- <-; apply (timer_same s); cbn; rewrite ?Hl; auto; done.
  - apply epoll_split in He as (Hl & _ & _ & a & e & s3 & Hn & -> & _ & ->).
    match type of Hn with _ = next_events ?x _ => pose proof (loosened_next_events batch x) as (E3 & _) end.
    rewrite <- Hn in E3. cbn [fst] in E3. clear Hn. rewrite E3. clear E3. destruct Hq as [_ T2]. pose proof (i_shape s Hinv) as Hsh. unfold shape in Hsh. rewrite Hl in Hsh, T2.
    destruct (m_recent_events s); [|done]. split; cbn -[has]; [done|]. destruct (has ITimer batch); [auto|].
    destruct T2 as [T2|[T2|[T2|[l T2]]]]; [by left|done..].
  - by apply (loop_timer _ _ _ He).
  - injection He as <- <-. apply (timer_same s); cbn; auto. done.
Qed.

(** ** The descriptors *)

(** EPOLL_CTL_ADD failed, or EPOLL_CTL_DEL removed the descriptor of another poll. *)
Definition unwatched (tr : list event) : bool :=
  existsb (fun e => match e with EvWatchFailed _ | EvUnwatchedOther _ => true | _ => false end) tr.
Lemma unwatched_app a b : unwatched (a ++ b) = unwatched a || unwatched b.
Proof. apply existsb_app. Qed.

(** A poll past its watch() that is not processed is registered, or reported already. *)
Definition reg_ok (s : state) : Prop := forall i, pollable (ops s i) = true -> m_processed (ops s i) = false ->
  o_registered (ops s i) = true \/ reported (m_recent_events s) i = true.

Lemma reg_keep s s' : reg_ok s ->
  (forall i, pollable (ops s' i) = true -> m_processed (ops s' i) = false ->
     pollable (ops s i) = true /\ m_processed (ops s i) = false /\
     (o_registered (ops s i) = true -> o_registered (ops s' i) = true) /\
     (reported (m_recent_events s) i = true -> reported (m_recent_events s') i = true)) -> reg_ok s'.
Proof. intros Hr H i Hp Hm. destruct (H i Hp Hm) as (Hp' & Hm' & H1 & H2). destruct (Hr i Hp' Hm'); auto. Qed.

Lemma reg_same s s' : reg_ok s -> ops s' = ops s -> m_recent_events s' = m_recent_events s -> reg_ok s'.
Proof. intros Hr E1 E2. apply (reg_keep s); [done|]. rewrite E1, E2. auto. Qed.

Lemma reg_upd s s' i o : reg_ok s -> ops s' = (ops s).[i ↦ o] -> m_recent_events s' = m_recent_events s ->
  m_processed o = m_processed (ops s i) -> o_registered o = o_registered (ops s i) -> (pollable o = true -> pollable (ops s i) = true) -> reg_ok s'.
Proof. intros Hr E1 E2 H1 H2 H3. apply (reg_keep s); [done|]. intros j. rewrite E1, E2. upd_cases; [|auto]. rewrite H1, H2. auto. Qed.

Lemma steals_none s i fd j : unwatched (steals s i fd) = false -> (j < next s)%nat -> j <> i -> registered_as fd (ops s j) = false.
Proof.
  unfold steals. destruct (existsb _ _) eqn:He; [done|]. intros _ Hj Hne. destruct (registered_as fd (ops s j)) eqn:Hr; [|done].
  enough (existsb (fun j => negb (j =? i)%nat && registered_as fd (ops s j)) (seq 0 (next s)) = true) by congruence.
  apply existsb_exists. exists j. split; [apply in_seq; lia|]. rewrite Hr, andb_true_r. by destruct (Nat.eqb_spec j i).
Qed.

Lemma unwatch_others s i j : unwatched (snd (unwatch s i)) = false -> (j < next s)%nat -> j <> i -> ops (fst (unwatch s i)) j = ops s j.
Proof.
  unfold unwatch. destruct (o_fd (ops s i)) as [fd|]; [|done]. cbn. intros Hs Hj Hne. unfold clear. by rewrite (steals_none s i fd j).
Qed.

Lemma next_event_others s x j : unwatched (snd (next_event s x)) = false -> (j < next s)%nat -> reported [x] j = false ->
  ops (fst (next_event s x)) j = ops s j.
Proof.
  destruct x as [| | |i st]; try done. cbn -[next_event]. rewrite orb_false_r. intros Hu Hj Hne%Nat.eqb_neq. unfold next_event in *.
  destruct st; try (destruct (o_token (ops s i)) as [c|]; [|done]; cbn in *; rewrite unwatched_app in Hu; apply orb_false_iff in Hu as [_ Hu];
    unfold clear; by rewrite (steals_none s i c j)).
  pose proof (unwatch_others (fire s i) i j) as H. destruct (unwatch (fire s i) i). cbn in *. rewrite unwatched_app in Hu.
  apply orb_false_iff in Hu as [_ Hu]. auto.
Qed.

Lemma next_events_others b : forall s j, unwatched (snd (next_events s b)) = false -> (j < next s)%nat -> reported b j = false ->
  ops (fst (next_events s b)) j = ops s j.
Proof.
  induction b as [|x b IH]; [done|]. intros s j Hu Hj Hb. unfold reported in Hb. cbn [existsb] in Hb. apply orb_false_iff in Hb as [Hx Hb].
  cbn in *. pose proof (next_event_others s x j) as H1. pose proof (loosened_next_event s x) as Hl. destruct (next_event s x) as [s1 ev1].
  specialize (IH s1 j). destruct (next_events s1 b) as [s2 ev2]. cbn [fst snd] in *. rewrite unwatched_app in Hu.
  apply orb_false_iff in Hu as [Hu1 Hu2]. destruct (loosened_lists _ _ Hl) as (_ & _ & _ & _ & _ & _ & Ex & _).
  rewrite IH, H1; try done; [|lia]. cbn. by rewrite Hx.
Qed.

Lemma pollable_started s i : inv s -> pollable (ops s i) = true -> (i < next s)%nat.
Proof.
  intros Hinv Hp. destruct (decide (i < next s)%nat); [done|]. unfold pollable in Hp. rewrite (i_fresh s Hinv), andb_false_r in Hp by lia. done.
Qed.

Lemma reg_watch s i ok s' ev : watch s i ok = (s', ev) -> unwatched ev = false -> reg_ok s -> reg_ok s'.
Proof.
  unfold watch. set (reg := ok && _). intros [= <- <-] Hu Hr j. cbn. upd_cases; [|by apply Hr]. cbn. intros _ _. left. by destruct reg.
Qed.

Lemma reg_op s i s' ev : exec_op s i = Some (s', ev) -> unwatched ev = false -> inv s -> reg_ok s -> reg_ok s'.
Proof.
  unfold exec_op, await_suspend. intros He Hu Hinv Hr. pose proof (i_linked s Hinv i) as [A1 _ _ _ _ _]. unfold op_ok in A1. destruct (o_pc (ops s i)) eqn:Hpc; try done.
  3: { apply (inj Some) in He. by apply (reg_watch s i true s' ev). }
  3: { apply (inj Some) in He. unfold watch_trigger in He.
       destruct (o_token (ops s i)) as [c|]; [destruct (in_interest s c)|]; injection He as <- <-;
         (eapply (reg_upd s _ i); [done|reflexivity|done..|]; unfold pollable; cbn; by rewrite Hpc). }
  all: injection He as <- <-.
  - eapply (reg_upd s _ i); [done|reflexivity|done..|]. unfold pollable, is_poll. cbn. by destruct (o_kind (ops s i)).
  - eapply (reg_upd s _ i); [done|reflexivity|done..|]. unfold pollable, is_poll. cbn. by destruct (o_kind (ops s i)).
  - eapply (reg_upd s _ i); [done|reflexivity|done..|]. unfold pollable. cbn. by rewrite Hpc.
Qed.

Lemma reg_epoll s b s' ev : exec_epoll s b = Some (s', ev) -> unwatched ev = false -> inv s -> reg_ok s -> reg_ok s'.
Proof.
  intros (Hl & _ & _ & a & e & s3 & Hn & _ & _ & ->)%epoll_split Hu Hinv Hr.
  match type of Hn with _ = next_events ?x _ => set (s2 := x) in * end.
  pose proof (loosened_next_events b s2) as Hlo. pose proof (next_events_others b s2) as Hoth. rewrite <- Hn in Hlo, Hoth. cbn [fst snd] in *.
  intros i. destruct (loosened_fields s2 s3 i Hlo) as (F1 & F2 & _ & _ & F5 & _). cbn. unfold pollable, is_poll. rewrite F1, F2, F5. intros Hp Hm.
  destruct (reported b i) eqn:Hb; [auto|left]. rewrite Hoth; [|done|by apply (pollable_started s)|done].
  pose proof (i_shape s Hinv) as Hs. unfold shape in Hs. rewrite Hl in Hs. destruct (Hr i Hp Hm) as [Hreg|Hreg]; [done|].
  destruct (m_recent_events s); [done|by destruct (poll_infos s)].
Qed.

Lemma reg_take s s' i o : inv s -> unwatched (snd (unwatch s i)) = false -> ops s' = (ops (fst (unwatch s i))).[i ↦ o] -> m_processed o = true ->
  (forall j, j <> i -> reported (m_recent_events s) j = true -> reported (m_recent_events s') j = true) -> reg_ok s -> reg_ok s'.
Proof.
  intros Hinv Hu Eo Hm Hb Hr j. rewrite Eo. destruct (decide (j = i)) as [->|Hne]; [rewrite upd_eq; congruence|]. rewrite upd_ne by done. intros Hp Hm'.
  pose proof (loosened_fields s _ j (loosened_unwatch s i)) as (F1 & F2 & _ & _ & F5 & _). unfold pollable, is_poll in Hp. rewrite F1, F2 in Hp.
  rewrite F5 in Hm'. rewrite unwatch_others by (by try apply (pollable_started s)). destruct (Hr j Hp Hm'); auto.
Qed.

Lemma unwatch_set_loop_snd s p b e h i : snd (unwatch (set_loop s p b e h) i) = snd (unwatch s i).
Proof. unfold unwatch. cbn. by destruct (o_fd (ops s i)). Qed.

Lemma reg_event s i st b s1 : m_recent_events s = IPoll i st :: b -> s1 = set_loop s LItems b (poll_infos s) (m_handles_to_resume s) -> inv s ->
  unwatched (snd (process_event_execute s1 i st)) = false -> reg_ok s -> reg_ok (fst (process_event_execute s1 i st)).
Proof.
  intros Hb -> Hinv Hu Hr. unfold process_event_execute in *. cbn [ops set_loop] in *.
  assert (forall j, j <> i -> reported (m_recent_events s) j = true -> reported b j = true) as Hrep.
  { intros j Hne. rewrite Hb. cbn. by destruct (Nat.eqb_spec i j). }
  destruct (m_processed (ops s i)) eqn:Hm; cbn [fst].
  - intros j Hp Hm'. cbn in *. destruct (decide (j = i)) as [->|Hne]; [congruence|]. destruct (Hr j Hp Hm'); [auto|right; by apply Hrep].
  - pose proof (unwatch_set_loop s LItems b (poll_infos s) (m_handles_to_resume s) i) as Eu.
    pose proof (unwatch_set_loop_snd s LItems b (poll_infos s) (m_handles_to_resume s) i) as Ev.
    destruct (unwatch (set_loop s LItems b (poll_infos s) (m_handles_to_resume s)) i) as [u ev0]. cbn [fst snd] in *. subst u ev0.
    rewrite unwatched_app in Hu. apply orb_false_iff in Hu as [_ Hu]. cbn [ops set_loop]. set (o := mk_op _ _ _ _ true st _ AtSpin).
    apply (reg_take s _ i o); try done; [by destruct (m_timer_pos _)|]. by destruct (m_timer_pos _).
Qed.

Lemma reg_timeout s i e s1 : s1 = set_loop s LExpired (m_recent_events s) e (m_handles_to_resume s) -> inv s ->
  unwatched (snd (process_timeout_one s1 i)) = false -> reg_ok s -> reg_ok (fst (process_timeout_one s1 i)).
Proof.
  intros -> Hinv Hu Hr. unfold process_timeout_one in *. cbn [ops set_loop] in *. destruct (m_processed (ops s i)) eqn:Hm; [by apply (reg_same s)|].
  pose proof (unwatch_set_loop s LExpired (m_recent_events s) e (m_handles_to_resume s) i) as Eu.
  pose proof (unwatch_set_loop_snd s LExpired (m_recent_events s) e (m_handles_to_resume s) i) as Ev.
  destruct (unwatch (set_loop s LExpired (m_recent_events s) e (m_handles_to_resume s)) i) as [u ev0]. cbn [fst snd] in *. subst u ev0.
  rewrite !unwatched_app in Hu. apply orb_false_iff in Hu as [_ [Hu _]%orb_false_iff]. cbn [ops set_loop].
  by eapply (reg_take s _ i).
Qed.

Lemma reg_loop s s' ev : exec_loop s = Some (s', ev) -> unwatched ev = false -> inv s -> reg_ok s -> reg_ok s'.
Proof.
  unfold exec_loop, process_timeout_execute, process_scheduled_execute_inline, flush. intros He Hu Hinv Hr.
  assert (forall s1, ops s1 = ops s -> m_recent_events s1 = m_recent_events s -> reg_ok s1) as Hext by (intros; by apply (reg_same s)).
  destruct (loop s) as [| | |i|t| |i| |first| | | |n|n|] eqn:Hl; try done.
  - destruct (m_recent_events s) as [|x b] eqn:Hb; [destruct (m_handles_to_resume s); injection He as <- <-; by apply Hext|].
    destruct x as [| | |i st]; try (injection He as <- <-; apply (reg_keep s); [done|]; cbn; rewrite Hb; auto).
    apply (inj Some) in He. pose proof (reg_event s i st b _ Hb eq_refl Hinv) as H. rewrite He in H. auto.
  - destruct (o_pc (ops s i)) eqn:Hpc; try done. injection He as <- <-. by eapply (reg_upd s _ i); [done|reflexivity|..].
  - destruct (pop_expired t (m_timed_events s)) as [e r]. injection He as <- <-. apply (reg_keep s); [done|]. cbn. intros i.
    by destruct (decide (i ∈ e)).
  - destruct (poll_infos s) as [|i e]; [injection He as <- <-; by apply Hext|]. apply (inj Some) in He.
    pose proof (reg_timeout s i e _ eq_refl Hinv) as H. rewrite He in H. auto.
  - destruct (o_pc (ops s i)) eqn:Hpc; try done. injection He as <- <-. eapply (reg_upd s _ i); [done|reflexivity|done..|].
    unfold pollable. cbn. by rewrite Hpc.
  - injection He as <- <-. by apply Hext.
  - injection He as <- <-. by apply Hext.
  - destruct (4 <=? pipe s)%nat; injection He as <- <-; by apply Hext.
  - injection He as <- <-. by apply Hext.
  - injection He as <- <-. apply (reg_keep s); [done|]. cbn. intros i. by destruct (decide _).
  - destruct (m_handles_to_resume s) as [|i h] eqn:Hh; injection He as <- <-; [by apply Hext|].
    eapply (reg_upd s _ i); [done|reflexivity|done..|]. unfold pollable. cbn. by rewrite andb_false_r.
  - injection He as <- <-. by apply Hext.
Qed.

Lemma reg_start s k p s' ev : start s k p = Some (s', ev) -> match p with PTrigger | PSuspend | PWaiting => False | _ => True end ->
  reg_ok s -> reg_ok s'.
Proof.
  unfold start. destruct (m_size s <? u64_max); [|done]. intros [= <- <-] Hp Hr i. cbn. upd_cases; [|by apply Hr].
  unfold pollable. cbn. destruct p; rewrite ?andb_false_r; done.
Qed.

Lemma step_reg l s s' ev : exec l s = Some (s', ev) -> unwatched ev = false -> inv s -> reg_ok s -> reg_ok s'.
Proof.
  intros He Hu Hinv Hr. assert (forall s1, ops s1 = ops s -> m_recent_events s1 = m_recent_events s -> reg_ok s1) as Hext by (intros; by apply (reg_same s)).
  destruct l; cbn in He.
  - injection He as <- <-. by apply Hext.
  - by apply (reg_start _ _ _ _ _ He).
  - unfold resume in He. destruct (m_shutdown_requested s); [injection He as <- <-; by apply Hext|]. by apply (reg_start _ _ _ _ _ He).
  - unfold yield_for_internal in He. destruct (amount <=? 0); by apply (reg_start _ _ _ _ _ He).
  - unfold yield_until in He. destruct (time <=? now s); by apply (reg_start _ _ _ _ _ He).
  - unfold poll in He. by apply (reg_start _ _ _ _ _ He); destruct (0 <? timeout_ms).
  - unfold spawn_detached in He. destruct (m_size s <? u64_max); [|done]. injection He as <- <-. by apply Hext.
  - unfold spawn_resume in He. destruct (spawning (spawns s)); [done|].
    destruct (m_shutdown_requested s); [injection He as <- <-; by apply Hext|].
    destruct (schedule s) as [[s1 ev1]|] eqn:Hs; [|done]. injection He as <- <-. by apply (reg_start _ _ _ _ _ Hs) in Hr.
  - unfold detached_done in He. destruct (o_pc (ops s i)); try done. destruct (decide (i ∈ detached (spawns s))); [|done].
    injection He as <- <-. by apply Hext.
  - destruct (o_pc (ops s i)) eqn:Hpc; try done. apply (inj Some) in He. by apply (reg_watch s i false s' ev).
  - by apply (reg_op _ _ _ _ He).
  - unfold exec_trigger in He. destruct (decide (i ∈ triggering s)); [|done]. injection He as <- <-. by apply Hext.
  - unfold exec_write in He. destruct (decide (i ∈ writing s)); [|done]. injection He as <- <-. by apply Hext.
  - unfold exec_check in He. destruct (loop s); try done. destruct (m_shutdown_requested s && _); injection He as <- <-; by apply Hext.
  - by apply (reg_epoll _ _ _ _ He).
  - by apply (reg_loop _ _ _ He).
  - injection He as <- <-. by apply Hext.
Qed.

Lemma timer_race_app a b : timer_race (a ++ b) = timer_race a || timer_race b.
Proof. apply existsb_app. Qed.

Lemma wake_reach s tr : reach exec init s tr -> left_over tr = false ->
  pipe_ok s /\ (timer_race tr = false -> timer_ok s) /\ (unwatched tr = false -> reg_ok s).
Proof.
  intros Hr. induction Hr as [|s tr l s' ev Hr IH He].
  - intros _. split; [by split|]. split; [|by intros _ i]. intros _. split; cbn; auto.
  - intros Hlate. rewrite left_over_app in Hlate. apply orb_false_iff in Hlate as [Hl1 Hl2]. destruct (IH Hl1) as (Hp & Ht & Hg).
    destruct (run_ok_reach s tr Hr Hl1) as ([Hinv _] & _). split_and!.
    + apply (step_pipe l s s' ev); [done|apply Hinv|done].
    + rewrite timer_race_app. intros [Hr1 Hr2]%orb_false_iff. apply (step_timer l s s' ev); auto.
    + rewrite unwatched_app. intros [Hr1 Hr2]%orb_false_iff. apply (step_reg l s s' ev); auto.
Qed.

Lemma in_timed s i : inv s -> o_place (ops s i) = AtPending -> has_tp (ops s i) = true ->
  exists tp, (tp, i) ∈ m_timed_events s /\ o_tp (ops s i) = Some tp.
Proof.
  intros Hinv Hp Ht. destruct (i_linked s Hinv i) as [_ A2 _ _ _ _]. unfold at_place in A2. rewrite Hp, Ht in A2. cbn in A2.
  assert (i ∈ map snd (m_timed_events s)) as Hin by (apply occ_elem; by rewrite A2).
  apply list_elem_of_In, in_map_iff in Hin as ([tp q] & Hq & Hin%list_elem_of_In). cbn in Hq. subst q.
  exists tp. split; [done|by apply Hinv].
Qed.


(** ** m_size *)

Definition live (o : op) : nat := match o_pc o with PNone | PResumed => 0%nat | _ => 1%nat end.
Definition flushed (p : lpc) : nat := match p with LFlush n | LSub n => n | _ => 0%nat end.
(** The detached tasks that have not ended, with those about to be resumed and the refused ones. *)
Definition unfinished (x : spawn_state) : nat := (spawning x + length (detached x) + leaked x)%nat.
Definition total (s : state) : nat :=
  (sum_below (fun i => live (ops s i)) (next s) + flushed (loop s) + unfinished (spawns s))%nat.
Record size_ok (s : state) : Prop := {
  z_size : m_size s = Z.of_nat (total s);
  z_max : m_size s <= u64_max;
  z_started i : (i < next s)%nat -> o_pc (ops s i) <> PNone
}.

Lemma size_same s s' : m_size s' = m_size s -> next s' = next s -> flushed (loop s') = flushed (loop s) -> spawns s' = spawns s ->
  (forall i, live (ops s' i) = live (ops s i) /\ (o_pc (ops s' i) = PNone -> o_pc (ops s i) = PNone)) -> size_ok s -> size_ok s'.
Proof.
  intros E1 E2 E3 E5 E4 [Z1 Z2 Z3]. split; rewrite ?E1, ?E2; try done.
  - rewrite Z1. unfold total. rewrite E2, E3, E5. do 3 f_equal. apply sum_ext. intros i _. symmetry. apply E4.
  - intros i Hi Hn. apply (Z3 i Hi). by apply E4.
Qed.

Lemma size_loosened s s' : loosened s s' -> size_ok s -> size_ok s'.
Proof.
  intros Hl. pose proof (fun i => loosened_fields s s' i Hl) as F. destruct Hl as (E & _). rewrite E. apply size_same; try done.
  intros i. destruct (F i) as (_ & Hpc & _). unfold live. cbn. by rewrite Hpc.
Qed.

Lemma size_upd s s' i o : m_size s' = m_size s -> next s' = next s -> flushed (loop s') = flushed (loop s) -> spawns s' = spawns s ->
  ops s' = (ops s).[i ↦ o] -> live o = 1%nat -> live (ops s i) = 1%nat -> size_ok s -> size_ok s'.
Proof.
  intros E1 E2 E3 E0 E4 E5 E6. apply size_same; try done. intros j. rewrite E4. unfold live in *. upd_cases; [|done].
  split; [congruence|]. intros Hn. by rewrite Hn in E5.
Qed.

Lemma start_size s k p s' ev : start s k p = Some (s', ev) -> p <> PNone -> p <> PResumed -> inv s -> size_ok s -> size_ok s'.
Proof.
  unfold start. destruct (Z.ltb_spec (m_size s) u64_max); [|done]. intros [= <- <-] Hp1 Hp2 Hinv [Z1 Z2 Z3].
  assert (u64 (m_size s + 1) = m_size s + 1) as Eu by (apply u64_small; lia).
  split; cbn; rewrite ?Eu.
  - rewrite Z1. unfold total. cbn. rewrite upd_eq. unfold live at 2. cbn.
    match goal with |- context [sum_below ?g (next s)] =>
      rewrite (sum_ext g (fun i => live (ops s i))) by (intros i Hi; rewrite upd_ne; [done|lia]) end.
    destruct p; try done; lia.
  - lia.
  - intros i Hi. upd_cases; [done|]. apply Z3. lia.
Qed.

Lemma size_event s i st : loop s = LItems -> size_ok s -> size_ok (fst (process_event_execute s i st)).
Proof.
  intros Hl Hz. unfold process_event_execute. destruct (m_processed (ops s i)); [done|]. pose proof (loosened_unwatch s i) as Hlo.
  destruct (unwatch s i) as [s0 ev0]. destruct (loosened_lists _ _ Hlo) as (El & _). apply (size_loosened _ _ Hlo) in Hz. cbn [fst] in *.
  destruct (m_timer_pos (ops s0 i)); apply (size_same s0); cbn; rewrite ?El, ?Hl; try done; intros j; unfold live; upd_cases; done.
Qed.

Lemma size_timeout s i : loop s = LExpired -> size_ok s -> size_ok (fst (process_timeout_one s i)).
Proof.
  intros Hl Hz. unfold process_timeout_one. destruct (m_processed (ops s i)); [done|]. pose proof (loosened_unwatch s i) as Hlo.
  destruct (unwatch s i) as [s0 ev0]. destruct (loosened_lists _ _ Hlo) as (El & _). apply (size_loosened _ _ Hlo) in Hz. cbn [fst] in *.
  apply (size_same s0); cbn; rewrite ?El, ?Hl; try done. intros j; unfold live; upd_cases; done.
Qed.

Lemma loop_size s s' ev : exec_loop s = Some (s', ev) -> inv s -> size_ok s -> size_ok s'.
Proof.
  unfold exec_loop, process_timeout_execute, process_scheduled_execute_inline, flush. intros He Hinv Hz. destruct (loop s) as [| | |i|t| |i| |first| | | |n|n|] eqn:Hl; try done.
  - destruct (m_recent_events s) as [|x b] eqn:Hb.
    + destruct (m_handles_to_resume s); injection He as <- <-; apply (size_same s); cbn; rewrite ?Hl; done.
    + destruct x as [| | |i st]; try (injection He as <- <-; apply (size_same s); cbn; rewrite ?Hl; done).
      apply (inj Some), (f_equal fst) in He. cbn [fst] in He. subst s'. apply size_event; [done|].
      apply (size_same s); cbn; rewrite ?Hl; done.
  - destruct (o_pc (ops s i)) eqn:Hpc; try done. injection He as <- <-. apply (size_same s); cbn; rewrite ?Hl; try done.
    intros j; unfold live; upd_cases; done.
  - destruct (pop_expired t (m_timed_events s)) as [e r]. injection He as <- <-. apply (size_same s); cbn; rewrite ?Hl; try done.
    intros j; unfold live; by destruct (decide (j ∈ e)).
  - destruct (poll_infos s) as [|i e]; [injection He as <- <-; apply (size_same s); cbn; rewrite ?Hl; done|].
    apply (inj Some), (f_equal fst) in He. cbn [fst] in He. subst s'. apply size_timeout; [done|].
    apply (size_same s); cbn; rewrite ?Hl; done.
  - destruct (o_pc (ops s i)) eqn:Hpc; try done. injection He as <- <-. apply (size_same s); cbn; rewrite ?Hl; try done.
    intros j; unfold live; upd_cases; cbn; by rewrite ?Hpc.
  - injection He as <- <-. apply (size_same s); cbn; rewrite ?Hl; done.
  - injection He as <- <-. apply (size_same s); cbn; rewrite ?Hl; done.
  - destruct (4 <=? pipe s)%nat; injection He as <- <-; apply (size_same s); cbn; rewrite ?Hl; done.
  - injection He as <- <-. apply (size_same s); cbn; rewrite ?Hl; done.
  - injection He as <- <-. apply (size_same s); cbn; rewrite ?Hl; try done. intros j; unfold live. by destruct (decide _).
  - destruct (m_handles_to_resume s) as [|i h] eqn:Hh; injection He as <- <-; [apply (size_same s); cbn; rewrite ?Hl; done|].
    destruct (flush_inv s n i h Hinv Hl Hh) as (_ & Hpc & _). destruct Hz as [Z1 Z2 Z3]. split; cbn; [|done|].
    + rewrite Z1. unfold total. cbn. rewrite Hl. cbn.
      assert (i < next s)%nat as Hi by (destruct (decide (i < next s)%nat); [done|]; rewrite (i_fresh s Hinv) in Hpc by lia; done).
      pose proof (sum_move live (ops s) i (o_at (ops s i) PResumed AtDone) (next s) Hi) as Hs. unfold live at 2 4 in Hs. rewrite Hpc in Hs.
      cbn in Hs. lia.
    + intros j Hj. upd_cases; [done|by apply Z3].
  - injection He as <- <-. destruct Hz as [Z1 Z2 Z3]. unfold total in Z1. rewrite Hl in Z1. cbn in Z1.
    assert (u64 (m_size s + - Z.of_nat n) = m_size s + - Z.of_nat n) as Eu by (apply u64_small; lia).
    split; cbn; rewrite ?Eu; [|lia|done]. unfold total. cbn. rewrite Z1. lia.
Qed.

Lemma size_watch s i ok s' ev : watch s i ok = (s', ev) -> o_pc (ops s i) = PWatch -> size_ok s -> size_ok s'.
Proof.
  unfold watch. intros [= <- <-] Hpc Hz. eapply (size_upd s _ i); [..|done]; [done|done|done|done|reflexivity|..]; unfold live; cbn; rewrite ?Hpc; try done.
  by destruct (o_token (ops s i)).
Qed.

Lemma size_spawned s k p s1 ev x : start s k p = Some (s1, ev) -> p <> PNone -> p <> PResumed -> inv s -> size_ok s ->
  unfinished x = unfinished (spawns s) -> size_ok (set_spawns s1 x).
Proof.
  intros Hs H1 H2 Hinv Hz Hx. destruct (start_size _ _ _ _ _ Hs H1 H2 Hinv Hz) as [Z1 Z2 Z3]. split; try done. cbn.
  rewrite Z1. unfold total. cbn. rewrite Hx. unfold start in Hs. destruct (m_size s <? u64_max); [|done]. by injection Hs as <- <-.
Qed.

Lemma step_size l s s' ev : exec l s = Some (s', ev) -> inv s -> size_ok s -> size_ok s'.
Proof.
  intros He Hinv Hz. destruct l; cbn in He.
  - injection He as <- <-. apply (size_same s); done.
  - by apply (start_size _ _ _ _ _ He).
  - unfold resume in He. destruct (m_shutdown_requested s); [by injection He as <- <-|]. by apply (start_size _ _ _ _ _ He).
  - unfold yield_for_internal in He. destruct (amount <=? 0); by apply (start_size _ _ _ _ _ He).
  - unfold yield_until in He. destruct (time <=? now s); by apply (start_size _ _ _ _ _ He).
  - unfold poll in He. destruct (0 <? timeout_ms); by apply (start_size _ _ _ _ _ He).
  - unfold spawn_detached in He. destruct (Z.ltb_spec (m_size s) u64_max); [|done]. injection He as <- <-. destruct Hz as [Z1 Z2 Z3].
    assert (u64 (m_size s + 1) = m_size s + 1) as Eu by (apply u64_small; lia).
    split; cbn; rewrite ?Eu; [|lia|done]. rewrite Z1. unfold total, unfinished. cbn. lia.
  - unfold spawn_resume in He. destruct (spawning (spawns s)) as [|n] eqn:Hn; [done|].
    destruct (m_shutdown_requested s).
    + injection He as <- <-. destruct Hz as [Z1 Z2 Z3]. split; cbn; try done. rewrite Z1. unfold total, unfinished. cbn. rewrite Hn. lia.
    + destruct (schedule s) as [[s1 ev1]|] eqn:Hs; [|done]. injection He as <- <-.
      apply (size_spawned _ _ _ _ _ _ Hs); [done..|]. unfold unfinished. cbn. rewrite Hn. lia.
  - unfold detached_done in He. destruct (o_pc (ops s i)); try done. destruct (decide (i ∈ detached (spawns s))) as [Hi%remove_first_length|]; [|done].
    injection He as <- <-. destruct Hz as [Z1 Z2 Z3]. unfold total, unfinished in Z1.
    assert (u64 (m_size s + -1) = m_size s + -1) as Eu by (apply u64_small; lia).
    split; cbn; rewrite ?Eu; [|lia|done]. rewrite Z1. unfold total, unfinished. cbn. lia.
  - destruct (o_pc (ops s i)) eqn:Hpc; try done. apply (inj Some) in He. by apply (size_watch s i false s' ev).
  - unfold exec_op, await_suspend in He. destruct (o_pc (ops s i)) eqn:Hpc; try done.
    3: { apply (inj Some) in He. by apply (size_watch s i true s' ev). }
    3: { apply (inj Some) in He. unfold watch_trigger in He.
         destruct (o_token (ops s i)) as [c|]; [destruct (in_interest s c)|]; injection He as <- <-;
           (eapply (size_upd s _ i); [..|done]; [done|done|done|done|reflexivity|..]; unfold live; cbn; by rewrite ?Hpc). }
    all: injection He as <- <-;
      (eapply (size_upd s _ i); [..|done]; [done|done|done|done|reflexivity|..]; unfold live; cbn; rewrite ?Hpc; try done).
    by destruct (o_kind (ops s i)).
  - unfold exec_trigger in He. destruct (decide (i ∈ triggering s)); [|done]. injection He as <- <-. by apply (size_same s).
  - unfold exec_write in He. destruct (decide (i ∈ writing s)); [|done]. injection He as <- <-. by apply (size_same s).
  - unfold exec_check in He. destruct (loop s) eqn:Hl; try done.
    destruct (m_shutdown_requested s && _); injection He as <- <-; apply (size_same s); cbn; rewrite ?Hl; done.
  - apply epoll_split in He as (Hl & _ & _ & a & e & s3 & Hn & _ & _ & ->).
    match type of Hn with _ = next_events ?x _ => set (s2 := x) in * end. pose proof (loosened_next_events batch s2) as Hlo. rewrite <- Hn in Hlo.
    assert (size_ok s2) as Hz2 by (apply (size_same s); cbn; rewrite ?Hl; done). apply (size_loosened _ _ Hlo) in Hz2.
    destruct (loosened_lists _ _ Hlo) as (El & _). cbn [fst] in El. apply (size_same s3); cbn; try done. rewrite El. cbn. by rewrite Hl.
  - by apply (loop_size _ _ _ He).
  - injection He as <- <-. by apply (size_same s).
Qed.

Lemma size_reach s tr : reach exec init s tr -> left_over tr = false -> size_ok s.
Proof.
  intros Hr. induction Hr as [|s tr l s' ev Hr IH He].
  - intros _. split; cbn; try done. intros i Hi. lia.
  - intros Hlate. rewrite left_over_app in Hlate. apply orb_false_iff in Hlate as [Hl1 _].
    destruct (run_ok_reach s tr Hr Hl1) as ([Hinv _] & _). apply (step_size l s s' ev); auto.
Qed.


(** ** Runs *)

(** Evaluates a schedule and a test of the state and the trace it ends in. *)
Lemma run_check ls (P : state -> list event -> bool) :
  match run exec ls init with Some (s, tr) => P s tr | None => false end = true ->
  exists s tr, reach exec init s tr /\ P s tr = true.
Proof.
  destruct (run exec ls init) as [[s tr]|] eqn:Hrun; [|done]. intros H. exists s, tr. split; [|done].
  exact (run_reach _ _ _ _ _ Hrun).
Qed.

Definition event_eqb (a b : event) : bool :=
  match a, b with
  | EvResume i st t, EvResume j st' t' => (i =? j)%nat && bool_decide (st = st') && (t =? t')
  | EvUseAfterFree i, EvUseAfterFree j | EvScheduleUseAfterFree i, EvScheduleUseAfterFree j
  | EvLateWatch i, EvLateWatch j | EvTriggerLeft i, EvTriggerLeft j | EvWatchFailed i, EvWatchFailed j => (i =? j)%nat
  | _, _ => false
  end.
Definition occurs (e : event) (tr : list event) : bool := existsb (event_eqb e) tr.

Lemma occurs_elem e tr : occurs e tr = true -> e ∈ tr.
Proof.
  intros (x & Hx & He)%existsb_exists. apply list_elem_of_In in Hx. enough (e = x) by (by subst).
  destruct e, x; try done; cbn in He; repeat (apply andb_true_iff in He as [He ?]);
    repeat match goal with
    | H : (_ =? _)%nat = true |- _ => apply Nat.eqb_eq in H
    | H : (_ =? _) = true |- _ => apply Z.eqb_eq in H
    | H : bool_decide _ = true |- _ => apply bool_decide_eq_true in H
    end; by subst.
Qed.

Definition waiting (s : state) (i : nat) : bool := match o_pc (ops s i) with PWaiting => true | _ => false end.
Lemma waiting_pc s i : waiting s i = true -> o_pc (ops s i) = PWaiting.
Proof. unfold waiting. by destruct (o_pc (ops s i)). Qed.

(** A poll with a stop token whose event and timeout are reported by the same epoll_wait, and
    a detached task; then shutdown. *)
Definition both_schedule : list label :=
  [LPoll 5 (Some 6%nat) 1; LOp 0; LOp 0; LOp 0; LOp 0; LSpawn; LSpawnResume; LOp 1; LTrigger 1; LWrite 1; LTick 2000000; LCheck 0;
   LEpoll [IPoll 0 read; ITimer; ISchedule]] ++ repeat LLoop 16 ++ [LDetachedDone 1; LShutdown].




(** process_timeout_execute calls update_timeout without m_timed_events_mutex: it can
    read an empty map, then a coroutine adds a timer and arms the timerfd, then the loop
    disarms it.  The coroutine sleeps on although its time has come: the map is not empty
    and no passing of time makes the timer fire. *)
Theorem update_timeout_race_loses_timer :
  exists s tr, reach exec init s tr /\ left_over tr = false /\
    loop s = LWait /\ o_pc (ops s 1) = PWaiting /\ m_timed_events s = [(15, 1%nat)] /\ armed s = None /\
    forall d s', exec (LTick d) s = Some (s', []) -> reportable s' ITimer = false.
Proof.
  destruct (run_check
    ([LYieldFor 10; LOp 0; LOp 0; LTick 10; LCheck 0; LEpoll [ITimer]] ++ repeat LLoop 6 ++
     [LYieldFor 5; LOp 1; LOp 1] ++ repeat LLoop 5 ++ [LCheck 0])
    (fun s tr => negb (left_over tr) && match loop s with LWait => true | _ => false end && waiting s 1 &&
       bool_decide (m_timed_events s = [(15, 1%nat)]) && bool_decide (armed s = None)))
    as (s & tr & Hrun & [[[[Hl Hlp]%andb_true_iff Hw%waiting_pc]%andb_true_iff Ht%bool_decide_eq_true]%andb_true_iff
                          Ha%bool_decide_eq_true]%andb_true_iff);
    [vm_compute; reflexivity|].
  apply negb_true_iff in Hl. exists s, tr. split; [exact Hrun|]. split; [done|].
  split; [by destruct (loop s)|]. split_and!; [done..|]. intros d s' [= <-]. cbn. by rewrite Ha.
Qed.

(** A poll with a timeout adds its timer before it watches its descriptor: when the timer
    expires in between, the descriptor is registered after the loop has already removed it;
    the poll ends with a timeout, the registration stays, and the next event on the
    descriptor makes the loop read the poll_info of the finished coroutine. *)
Theorem late_watch_use_after_free :
  exists s tr, reach exec init s tr /\ EvLateWatch 0 ∈ tr /\ EvResume 0 timeout 1000000 ∈ tr /\ EvUseAfterFree 0 ∈ tr.
Proof.
  destruct (run_check
    ([LPoll 5 None 1; LOp 0; LTick 1000000; LCheck 0; LEpoll [ITimer]; LLoop; LLoop; LLoop; LOp 0; LOp 0] ++
     repeat LLoop 8 ++ [LCheck 0; LEpoll [IPoll 0 read]; LLoop])
    (fun s tr => occurs (EvLateWatch 0) tr && occurs (EvResume 0 timeout 1000000) tr && occurs (EvUseAfterFree 0) tr))
    as (s & tr & Hrun & [[H1%occurs_elem H2%occurs_elem]%andb_true_iff H3%occurs_elem]%andb_true_iff);
    [vm_compute; reflexivity|].
  exists s, tr. split; [exact Hrun|done].
Qed.

(** process_timeout_execute removes the descriptor of a poll that timed out, but not its
    cancellation trigger: when the stop token fires after the coroutine is gone, next_events
    reads its poll_info. *)
Theorem cancel_trigger_use_after_free :
  exists s tr, reach exec init s tr /\ EvTriggerLeft 0 ∈ tr /\ EvResume 0 timeout 1000000 ∈ tr /\ EvUseAfterFree 0 ∈ tr.
Proof.
  destruct (run_check
    ([LPoll 5 (Some 6%nat) 1; LOp 0; LOp 0; LOp 0; LOp 0; LTick 1000000; LCheck 0; LEpoll [ITimer]] ++
     repeat LLoop 11 ++ [LCheck 0; LEpoll [IPoll 0 cancelled]])
    (fun s tr => occurs (EvTriggerLeft 0) tr && occurs (EvResume 0 timeout 1000000) tr && occurs (EvUseAfterFree 0) tr))
    as (s & tr & Hrun & [[H1%occurs_elem H2%occurs_elem]%andb_true_iff H3%occurs_elem]%andb_true_iff);
    [vm_compute; reflexivity|].
  exists s, tr. split; [exact Hrun|done].
Qed.

(** The result of EPOLL_CTL_ADD is dropped: the second poll of a descriptor that is being
    polled is not registered, watch() says it was, and the coroutine waits for a report that
    can not come (nor can its timeout, as it has none). *)
Theorem second_poll_is_never_reported :
  exists s tr, reach exec init s tr /\ left_over tr = false /\ EvWatchFailed 1 ∈ tr /\ o_pc (ops s 1) = PWaiting /\
    (forall st, reportable s (IPoll 1 st) = false) /\ forall tp, (tp, 1%nat) ∉ m_timed_events s.
Proof.
  destruct (run_check [LPoll 5 None 0; LOp 0; LOp 0; LPoll 5 None 0; LOp 1; LOp 1; LCheck 0]
    (fun s tr => negb (left_over tr) && occurs (EvWatchFailed 1) tr && waiting s 1 && negb (o_registered (ops s 1)) &&
       negb (trigger_armed s 1) && bool_decide (m_timed_events s = [])))
    as (s & tr & Hrun & [[[[[H1 H2%occurs_elem]%andb_true_iff H3%waiting_pc]%andb_true_iff H4]%andb_true_iff H5]%andb_true_iff
                          H6%bool_decide_eq_true]%andb_true_iff);
    [vm_compute; reflexivity|]. apply negb_true_iff in H1, H4, H5.
  exists s, tr. split; [exact Hrun|]. split_and!; try done.
  - intros st. cbn. by destruct st.
  - intros tp. rewrite H6. by intros ?%elem_of_nil.
Qed.

(** spawn_detached counts the task before resume() refuses it, and nothing takes the count
    back: with every operation over and shutdown requested, size() is not zero and the
    dedicated thread does not leave its loop. *)
Theorem refused_detached_task_blocks_exit :
  exists s tr, reach exec init s tr /\ next s = 0%nat /\ m_shutdown_requested s = true /\ leaked (spawns s) = 1%nat /\
    m_size s = 1 /\ forall k s', exec (LCheck k) s <> Some (s', [EvExit]).
Proof.
  destruct (run_check [LShutdown; LSpawn; LSpawnResume]
    (fun s tr => bool_decide (next s = 0%nat) && m_shutdown_requested s && bool_decide (leaked (spawns s) = 1%nat) && bool_decide (m_size s = 1)))
    as (s & tr & Hrun & [[[H1%bool_decide_eq_true H2]%andb_true_iff H3%bool_decide_eq_true]%andb_true_iff H4%bool_decide_eq_true]%andb_true_iff);
    [vm_compute; reflexivity|].
  exists s, tr. split; [exact Hrun|]. split_and!; try done. intros k s'. cbn. unfold exec_check. destruct (loop s); try done.
  rewrite H4. destruct (Z.leb_spec (1 + Z.of_nat k) 0); [lia|]. by rewrite andb_false_r.
Qed.

(** schedule_operation::await_suspend goes on using the operation after publishing it:
    when another coroutine has already triggered the pipe, the event loop can resume the
    first one, whose operation is then gone (or deleted, for resume(handle)), before it
    reads m_scheduler. *)
Theorem schedule_operation_use_after_free :
  exists s tr, reach exec init s tr /\ left_over tr = false /\ EvResume 0 error 0 ∈ tr /\ EvScheduleUseAfterFree 0 ∈ tr.
Proof.
  destruct (run_check
    ([LSchedule; LOp 0; LSchedule; LOp 1; LTrigger 1; LWrite 1; LCheck 0; LEpoll [ISchedule]] ++
     repeat LLoop 6 ++ [LTrigger 0])
    (fun s tr => negb (left_over tr) && occurs (EvResume 0 error 0) tr && occurs (EvScheduleUseAfterFree 0) tr))
    as (s & tr & Hrun & [[H1 H2%occurs_elem]%andb_true_iff H3%occurs_elem]%andb_true_iff);
    [vm_compute; reflexivity|]. apply negb_true_iff in H1.
  exists s, tr. split; [exact Hrun|done].
Qed.
End Scheduler.
