(* ===== verification/SchedulerPool.v ===== *)
(** * A scheduler on a thread pool (execution_strategy_t::process_tasks_on_thread_pool of
    include/coro/scheduler.hpp and src/scheduler.cpp, over src/thread_pool.cpp)

    Coroutines are resumed by the workers of the pool; those that poll or yield are counted
    in m_size of the scheduler, those that are queued or running in m_size of the pool, and
    size() is the sum of the two.  What a coroutine waits for is [Scheduler]'s affair, how
    the pool queues [ThreadPool]'s; here it is the two counters and the way of a coroutine
    between the two components, in every interleaving of the workers, the event loop and
    coroutines and callers on other threads.  Each atomic access of
    thread_pool::resume(handle) is a step of its own; resume(handles) queues its coroutines in
    one critical section. *)
From stdpp Require Import base list relations option numbers.
From Stdlib Require Import ZArith Lia.
From S2P Require Import Prelude.

Module SchedulerPool.
Local Open Scope Z_scope.

(** Who calls thread_pool::resume(handle) *)
Inductive caller :=
| Awaits                            (* schedule_operation::await_suspend, of the coroutine itself *)
| Handle                            (* scheduler::resume(handle) *)
| Wrapper.                          (* ... of spawn_detached, for its wrapper task *)

(** Where a coroutine is.  [w]: its thread is a worker of the pool, inside handle.resume(). *)
Inductive place :=
| PNone
| PElsewhere                        (* not with the scheduler: new, or run by another thread, or waiting for something else *)
| PSpawned                          (* spawn_detached has counted it, before resume() *)
| PEnter (w : bool) (k : caller)    (* in thread_pool::resume: before m_size.fetch_add(1) *)
| PAdded (w : bool) (k : caller)    (* ... before m_shutdown_requested.load() *)
| PPassed (w : bool) (k : caller)   (* ... before schedule_impl *)
| PRefused (w : bool) (k : caller)  (* ... before m_size.fetch_sub(1) *)
| PQueued                           (* in m_queue of the pool *)
| PRunning                          (* a worker is inside handle.resume() *)
| PPolling (w : bool)               (* the coroutine has added itself to m_size (poll, yield) *)
| PWaiting                          (* suspended: registered with the event loop *)
| PCollected                        (* in m_handles_to_resume *)
| PDone
| PLost                             (* suspended, with nobody to resume it *)
| PRejected.                        (* a wrapper task that was refused *)

Record coroutine := mk_co { c_place : place; c_detached : bool }.

(** The event loop. *)
Inductive lpc :=
| LIdle                             (* at the condition of the loop; outside process_events *)
| LCheck (loaded : Z)               (* ... between m_size.load() and m_thread_pool->size() *)
| LRun                              (* in process_events_execute, before the pool's resume *)
| LEnq (n : nat) (hs : list nat)    (* in m_thread_pool->resume(m_handles_to_resume): counted, hs to be queued under the mutex *)
| LSub (n : nat).                   (* before m_size.fetch_sub *)

Record state := mk_state {
  m_size : Z;                       (* of the scheduler *)
  p_size : Z;                       (* of the pool *)
  m_shutdown_requested : bool;
  p_shutdown : bool;                (* of the pool *)
  p_joined : bool;                  (* its workers have left *)
  io_thread : bool;                 (* the dedicated thread is in its loop: m_io_processing is its own *)
  cos : nat -> coroutine;
  next : nat;
  unsub : nat;                      (* workers between resume() and m_size.fetch_sub(1) *)
  m_handles_to_resume : list nat;
  loop : lpc
}.

(** make_unique(opts): with thread_strategy_t::spawn or ::manual *)
Definition init (spawn : bool) : state := mk_state 0 0 false false false spawn (fun _ => mk_co PNone false) 0 0 [] LIdle.

Inductive label :=
| New                               (* a coroutine comes into being *)
| Schedule (i : nat)                (* co_await schedule(), on a worker or elsewhere *)
| Resume (h : option nat)           (* resume(handle): its test of the scheduler's flag; None: null or done *)
| Spawn                             (* spawn_detached(task): m_size.fetch_add(1) *)
| SpawnResume (i : nat)             (* ... and resume(wrapper_task.handle()) *)
| PoolResume (i : nat)              (* the next step of thread_pool::resume *)
| Take (i : nat)                    (* a worker takes it off the queue *)
| Poll (i : nat)                    (* poll, yield_for, yield_until, on a worker or elsewhere: m_size.fetch_add(1) *)
| Suspend (i : nat)                 (* ... and await_suspend *)
| Leave (i : nat)                   (* it suspends for something that is not the scheduler's *)
| Finish (i : nat)
| WorkerSub                         (* m_size.fetch_sub(1) of the pool *)
| Collect (i : nat)                 (* its event or timeout: m_handles_to_resume.emplace_back *)
| Loop                              (* the event loop's next step *)
| Manual                            (* process_events() *)
| Shutdown                          (* m_shutdown_requested.exchange(true) *)
| PoolShutdown                      (* m_io_thread.join(), then m_thread_pool->shutdown(): the flag *)
| PoolJoin.                         (* ... and the workers are joined *)

Inductive event :=
| EvRefused                         (* resume() or spawn_detached() returns false *)
| EvResumed                         (* resume() or spawn_detached() returns true *)
| EvLost (i : nat)
| EvExit.                           (* the dedicated thread leaves *)

Definition set_co (s : state) (i : nat) (c : coroutine) (dm dp : Z) (un : nat) (hs : list nat) : state :=
  mk_state (m_size s + dm) (p_size s + dp) (m_shutdown_requested s) (p_shutdown s) (p_joined s) (io_thread s) ((cos s).[i ↦ c]) (next s) un hs
    (loop s).
Definition set_loop (s : state) (dm dp : Z) (p : lpc) (hs : list nat) : state :=
  mk_state (m_size s + dm) (p_size s + dp) (m_shutdown_requested s) (p_shutdown s) (p_joined s) (io_thread s) (cos s) (next s) (unsub s) hs p.

(** A new coroutine *)
Definition arrive (s : state) (c : coroutine) (dm : Z) : state :=
  mk_state (m_size s + dm) (p_size s) (m_shutdown_requested s) (p_shutdown s) (p_joined s) (io_thread s) ((cos s).[next s ↦ c]) (S (next s))
    (unsub s) (m_handles_to_resume s) (loop s).

(** Coroutine [i] moves to [p], the counters change by [dm] and [dp]; with [w] its worker
    returns from handle.resume(). *)
Definition b2n (b : bool) : nat := if b then 1%nat else 0%nat.
Definition move (s : state) (i : nat) (p : place) (dm dp : Z) (w : bool) : state :=
  set_co s i (mk_co p (c_detached (cos s i))) dm dp (unsub s + b2n w) (m_handles_to_resume s).

(** schedule_operation::await_suspend calls the pool's resume and drops its result *)
Definition schedule (s : state) (i : nat) : option (state * list event) :=
  match c_place (cos s i) with
  | PElsewhere => Some (move s i (PEnter false Awaits) 0 0 false, [])
  | PRunning => Some (move s i (PEnter true Awaits) 0 0 false, [])
  | _ => None
  end.
(** scheduler::resume(handle), up to the pool's *)
Definition resume (h : option nat) (s : state) : option (state * list event) :=
  match h with
  | None => Some (s, [EvRefused])
  | Some i =>
      match c_place (cos s i) with
      | PElsewhere => if m_shutdown_requested s then Some (s, [EvRefused]) else Some (move s i (PEnter false Handle) 0 0 false, [])
      | _ => None
      end
  end.
(** spawn_detached(task): m_size is incremented first and only its last act decrements it *)
Definition spawn_detached (s : state) : state := arrive s (mk_co PSpawned true) 1.
Definition spawn_resume (s : state) (i : nat) : option (state * list event) :=
  match c_place (cos s i) with
  | PSpawned => if m_shutdown_requested s then Some (move s i PRejected 0 0 false, [EvRefused])
                else Some (move s i (PEnter false Wrapper) 0 0 false, [])
  | _ => None
  end.

(** thread_pool::resume(handle): m_size.fetch_add(1); m_shutdown_requested.load(); then
    m_size.fetch_sub(1) and false, or schedule_impl(handle) and true *)
Definition pool_resume (s : state) (i : nat) : option (state * list event) :=
  match c_place (cos s i) with
  | PEnter w k => Some (move s i (PAdded w k) 0 1 false, [])
  | PAdded w k => Some (move s i (if p_shutdown s then PRefused w k else PPassed w k) 0 0 false, [])
  | PPassed w k => Some (move s i PQueued 0 0 w, match k with Awaits => [] | _ => [EvResumed] end)
  | PRefused w Awaits => Some (move s i PLost 0 (-1) w, [EvLost i])
  | PRefused w Handle => Some (move s i PElsewhere 0 (-1) w, [EvRefused])
  | PRefused w Wrapper => Some (move s i PRejected 0 (-1) w, [EvRefused])
  | _ => None
  end.

(** resume(handles), one call of resume(handle) per handle, undisturbed: the number of those
    that returned true *)
Definition resume_call (h : option nat) (s : state) : option (state * list event) :=
  match resume h s, h with
  | Some (s1, []), Some i => run (fun _ s => pool_resume s i) [(); (); ()] s1
  | r, _ => r
  end.
Fixpoint resume_range (handles : list (option nat)) (s : state) : option (state * list event * nat) :=
  match handles with
  | [] => Some (s, [], 0%nat)
  | h :: handles =>
      match resume_call h s with
      | Some (s1, ev1) =>
          match resume_range handles s1 with
          | Some (s2, ev2, total) => Some (s2, ev1 ++ ev2, match ev1 with [EvResumed] => S total | _ => total end)
          | None => None
          end
      | None => None
      end
  end.

(** A worker of the pool with the coroutine it runs, and coroutines on other threads *)
Definition exec_worker (s : state) (l : label) : option (state * list event) :=
  match l with
  | Take i =>
      match c_place (cos s i) with
      | PQueued => if p_joined s then None else Some (move s i PRunning 0 0 false, [])
      | _ => None
      end
  | Poll i =>
      match c_place (cos s i) with
      | PRunning => Some (move s i (PPolling true) 1 0 false, [])
      | PElsewhere => Some (move s i (PPolling false) 1 0 false, [])
      | _ => None
      end
  | Suspend i =>
      match c_place (cos s i) with
      | PPolling w => Some (move s i PWaiting 0 0 w, [])
      | _ => None
      end
  | Leave i =>
      match c_place (cos s i) with
      | PRunning => Some (move s i PElsewhere 0 0 true, [])
      | _ => None
      end
  | Finish i =>                     (* the final suspend of a detached one: m_size.fetch_sub(1) *)
      let dm := if c_detached (cos s i) then -1 else 0 in
      match c_place (cos s i) with
      | PRunning => Some (move s i PDone dm 0 true, [])
      | PElsewhere => Some (move s i PDone dm 0 false, [])
      | _ => None
      end
  | WorkerSub =>
      match unsub s with
      | S n => Some (mk_state (m_size s) (p_size s - 1) (m_shutdown_requested s) (p_shutdown s) (p_joined s) (io_thread s) (cos s) (next s) n
                       (m_handles_to_resume s) (loop s), [])
      | O => None
      end
  | _ => None
  end.

(** size(): the second load of the two, with what the first one gave *)
Definition size (loaded : Z) (s : state) : Z := loaded + p_size s.

(** The critical section of resume(handles): the handles go to m_queue *)
Definition queue_one (n : nat) (s : state) (i : nat) (hs : list nat) : state :=
  set_loop (move s i PQueued 0 0 false) 0 0 (LEnq n hs) (m_handles_to_resume s).
Fixpoint queue_all (n : nat) (hs : list nat) (s : state) : state :=
  match hs with
  | [] => set_loop s 0 0 (LSub n) (m_handles_to_resume s)
  | i :: hs => queue_all n hs (queue_one n s i hs)
  end.

(** process_events_dedicated_thread and the end of process_events_execute *)
Definition exec_loop (s : state) : option (state * list event) :=
  match loop s with
  | LIdle =>
      if negb (io_thread s) then None
      else if m_shutdown_requested s then Some (set_loop s 0 0 (LCheck (m_size s)) (m_handles_to_resume s), [])
      else Some (set_loop s 0 0 LRun (m_handles_to_resume s), [])
  | LCheck loaded =>
      if 0 <? size loaded s then Some (set_loop s 0 0 LRun (m_handles_to_resume s), [])
      else Some (mk_state (m_size s) (p_size s) (m_shutdown_requested s) (p_shutdown s) (p_joined s) false (cos s) (next s) (unsub s)
                   (m_handles_to_resume s) LIdle, [EvExit])
  | LRun =>
      match m_handles_to_resume s with
      | [] => Some (set_loop s 0 0 LIdle [], [])
      | hs => Some (set_loop s 0 (Z.of_nat (length hs)) (LEnq (length hs) hs) [], [])
      end
  | LEnq n hs => Some (queue_all n hs s, [])
  | LSub n => Some (set_loop s (- Z.of_nat n) 0 LIdle (m_handles_to_resume s), [])
  end.

(** All workers are done: nothing is queued, and none is inside handle.resume() or behind it. *)
Definition on_worker (c : coroutine) : bool :=
  match c_place c with PEnter w _ | PAdded w _ | PPassed w _ | PRefused w _ | PPolling w => w | PRunning => true | _ => false end.
Definition drained (s : state) : bool :=
  forallb (fun i => negb (on_worker (cos s i)) && match c_place (cos s i) with PQueued => false | _ => true end) (seq 0 (next s)) &&
  (unsub s =? 0)%nat.

Definition exec (l : label) (s : state) : option (state * list event) :=
  match l with
  | New => Some (arrive s (mk_co PElsewhere false) 0, [])
  | Schedule i => schedule s i
  | Resume h => resume h s
  | Spawn => Some (spawn_detached s, [])
  | SpawnResume i => spawn_resume s i
  | PoolResume i => pool_resume s i
  | Collect i =>
      match loop s, c_place (cos s i) with
      | LRun, PWaiting =>
          Some (set_co s i (mk_co PCollected (c_detached (cos s i))) 0 0 (unsub s) (m_handles_to_resume s ++ [i]), [])
      | _, _ => None
      end
  | Loop => exec_loop s
  | Manual =>                       (* compare_exchange of m_io_processing *)
      match loop s, io_thread s with
      | LIdle, false => Some (set_loop s 0 0 LRun (m_handles_to_resume s), [])
      | _, _ => None
      end
  | Shutdown => Some (mk_state (m_size s) (p_size s) true (p_shutdown s) (p_joined s) (io_thread s) (cos s) (next s) (unsub s) (m_handles_to_resume s) (loop s), [])
  | PoolShutdown =>
      if m_shutdown_requested s && negb (io_thread s) then
        Some (mk_state (m_size s) (p_size s) true true (p_joined s) (io_thread s) (cos s) (next s) (unsub s) (m_handles_to_resume s) (loop s), [])
      else None
  | PoolJoin =>
      if p_shutdown s && drained s then
        Some (mk_state (m_size s) (p_size s) (m_shutdown_requested s) true true (io_thread s) (cos s) (next s) (unsub s) (m_handles_to_resume s) (loop s), [])
      else None
  | _ => exec_worker s l
  end.

(** ** The two counters *)

Definition w_m (c : coroutine) : nat :=
  (match c_place c with PPolling _ | PWaiting | PCollected => 1 | _ => 0 end) +
  (if c_detached c then match c_place c with PNone | PDone => 0 | _ => 1 end else 0).
Definition w_p (c : coroutine) : nat :=
  b2n (on_worker c) + match c_place c with PAdded _ _ | PPassed _ _ | PRefused _ _ | PQueued => 1 | _ => 0 end.
Definition sum (w : coroutine -> nat) (s : state) : Z := Z.of_nat (sum_below (fun i => w (cos s i)) (next s)).

Definition extra_m (p : lpc) : Z := match p with LEnq n hs => Z.of_nat n - Z.of_nat (length hs) | LSub n => Z.of_nat n | _ => 0 end.
Definition extra_p (p : lpc) : Z := match p with LEnq _ hs => Z.of_nat (length hs) | _ => 0 end.

(** The handles the event loop holds. *)
Definition held (s : state) : list nat := match loop s with LEnq _ hs => hs | _ => m_handles_to_resume s end.

Record inv (s : state) : Prop := {
  i_m : m_size s = sum w_m s + extra_m (loop s);
  i_p : p_size s = sum w_p s + extra_p (loop s) + Z.of_nat (unsub s);
  i_next : forall i, (next s <= i)%nat -> c_place (cos s i) = PNone;
  i_held : forall i, occ i (held s) = match c_place (cos s i) with PCollected => 1%nat | _ => 0%nat end;
  i_enq : match loop s with LEnq n hs => (length hs <= n)%nat /\ m_handles_to_resume s = [] | _ => True end
}.

Lemma init_inv_pool b : inv (init b).
Proof. by constructor. Qed.

(** A coroutine moves. *)
Lemma sum_upd w s i c : (i < next s)%nat ->
  Z.of_nat (sum_below (fun j => w ((cos s).[i ↦ c] j)) (next s)) = sum w s + Z.of_nat (w c) - Z.of_nat (w (cos s i)).
Proof. intros Hi. pose proof (sum_move w (cos s) i c (next s) Hi). unfold sum. lia. Qed.

Lemma known s i : inv s -> c_place (cos s i) <> PNone -> (i < next s)%nat.
Proof. intros I H. destruct (decide (i < next s)%nat); [done|]. by rewrite (i_next s I i) in H by lia. Qed.

(** A step of one coroutine: the change of the counters is that of the weights. *)
Lemma schedulerpool_inv_move s i p dm dp w : inv s -> c_place (cos s i) <> PNone -> p <> PNone ->
  let c := mk_co p (c_detached (cos s i)) in
  dm = Z.of_nat (w_m c) - Z.of_nat (w_m (cos s i)) ->
  Z.of_nat (b2n w) + Z.of_nat (w_p c) = Z.of_nat (w_p (cos s i)) + dp ->
  c_place (cos s i) <> PCollected -> p <> PCollected -> inv (move s i p dm dp w).
Proof.
  intros I Hk Hp c Hdm Hdp Hc Hc'. pose proof (known s i I Hk) as Hi. destruct I as [M P N H E].
  constructor; cbn -[sum_below].
  - unfold sum at 1. cbn -[sum_below]. fold c. rewrite (sum_upd w_m s i c Hi), M, Hdm. lia.
  - unfold sum at 1. cbn -[sum_below]. fold c. rewrite (sum_upd w_p s i c Hi), P. lia.
  - intros j Hj. rewrite upd_ne by lia. auto.
  - intros j. unfold held in *. cbn. rewrite H. upd_cases; [|done]. cbn. by destruct (c_place (cos s i)), p.
  - done.
Qed.

Lemma inv_arrive s d p dm : inv s -> p <> PCollected -> p <> PNone ->
  dm = Z.of_nat (w_m (mk_co p d)) -> w_p (mk_co p d) = 0%nat -> inv (arrive s (mk_co p d) dm).
Proof.
  intros [M P N H E] Hp Hp' Hm Hd. pose proof (N (next s) ltac:(done)) as Hn.
  assert (forall w, sum_below (fun i => w ((cos s).[next s ↦ mk_co p d] i)) (next s) = sum_below (fun i => w (cos s i)) (next s)) as Hs.
  { intros w. apply sum_ext. intros i Hi. rewrite upd_ne; [done|lia]. }
  constructor; cbn -[sum_below]; try done.
  - unfold sum. cbn -[w_m]. rewrite upd_eq, Hs, M, Hm. unfold sum. lia.
  - unfold sum. cbn -[w_p]. rewrite upd_eq, Hs, P, Hd. unfold sum. lia.
  - intros i Hi. rewrite upd_ne by lia. apply N. lia.
  - intros i. unfold held in *. cbn. rewrite H. upd_cases; [|done]. rewrite Hn. cbn. by destruct p.
Qed.

Lemma schedulerpool_inv_collect s i : inv s -> loop s = LRun -> c_place (cos s i) = PWaiting ->
  inv (set_co s i (mk_co PCollected (c_detached (cos s i))) 0 0 (unsub s) (m_handles_to_resume s ++ [i])).
Proof.
  intros I Hl Hw. pose proof (known s i I ltac:(by rewrite Hw)) as Hi. destruct I as [M P N H E]. rewrite Hl in *.
  constructor; cbn -[sum_below]; rewrite ?Hl; try done.
  - unfold sum at 1. cbn -[sum_below]. rewrite (sum_upd w_m s i _ Hi), M. destruct (cos s i) as [q d]. cbn in Hw |- *. subst q. destruct d; cbn; lia.
  - unfold sum at 1. cbn -[sum_below]. rewrite (sum_upd w_p s i _ Hi), P. destruct (cos s i) as [q d]. cbn in Hw |- *. subst q. cbn. lia.
  - intros j Hj. rewrite upd_ne by lia. auto.
  - intros j. unfold held in *. cbn. rewrite Hl in *. rewrite occ_app, H. cbn. upd_cases.
    + by rewrite Hw.
    + by destruct (c_place (cos s j)).
Qed.

(** The loop hands its coroutines to the pool. *)
Lemma inv_queue_one s n i hs : inv s -> loop s = LEnq n (i :: hs) -> inv (queue_one n s i hs).
Proof.
  intros I Hl. destruct I as [M P N H E] eqn:EI. clear EI. unfold held in H. rewrite Hl in *.
  assert (c_place (cos s i) = PCollected) as Hc.
  { specialize (H i). cbn in H. rewrite decide_True in H by done. by destruct (c_place (cos s i)). }
  pose proof (known s i I ltac:(by rewrite Hc)) as Hi. constructor; cbn -[sum_below].
  - unfold sum at 1. cbn -[sum_below]. rewrite (sum_upd w_m s i _ Hi), M. destruct (cos s i) as [q d]. cbn in Hc |- *. subst q. destruct d; cbn; lia.
  - unfold sum at 1. cbn -[sum_below]. rewrite (sum_upd w_p s i _ Hi), P. destruct (cos s i) as [q d]. cbn in Hc |- *. subst q. cbn. lia.
  - intros j Hj. rewrite upd_ne by lia. auto.
  - intros j. unfold held. cbn. specialize (H j). cbn in H. upd_cases.
    + rewrite ?decide_True, Hc in H by done. cbn. lia.
    + rewrite ?decide_False in H by done. lia.
  - cbn in E. split; [lia|]. apply E.
Qed.

Lemma inv_queue_all n hs : forall s, inv s -> loop s = LEnq n hs -> inv (queue_all n hs s).
Proof.
  induction hs as [|i hs IH]; intros s I Hl; cbn.
  - destruct I as [M P N H E]. unfold held in H. rewrite Hl in *. destruct E as [_ E]. rewrite E in *.
    constructor; unfold held, sum in *; cbn in *; auto; lia.
  - apply IH; [by apply inv_queue_one|done].
Qed.

Lemma inv_loop s s' ev : inv s -> exec_loop s = Some (s', ev) -> inv s'.
Proof.
  intros I. unfold exec_loop. pose proof I as [M P N H E]. unfold held in H. destruct (loop s) as [|loaded| |n hs|n] eqn:Hl; try done.
  - repeat case_match; try done; intros [= <- <-]; constructor; cbn; unfold held, sum in *; cbn in *; auto; lia.
  - case_match; intros [= <- <-]; constructor; cbn; unfold held, sum in *; cbn in *; auto; lia.
  - destruct (m_handles_to_resume s) as [|h hs] eqn:Hh; intros [= <- <-]; constructor; unfold held, sum in *; cbn in *; auto; lia.
  - intros [= <- <-]. by apply inv_queue_all.
  - intros [= <- <-]. constructor; unfold held, sum in *; cbn in *; auto; lia.
Qed.

(** A step of a coroutine that is at a known place. *)
Ltac co_step Hc :=
  apply schedulerpool_inv_move; rewrite ?Hc; try done; unfold w_m, w_p, on_worker; cbn; rewrite ?Hc;
  repeat match goal with |- context [c_detached ?c] => destruct (c_detached c) | w : bool |- _ => destruct w end; cbn; lia.

Lemma inv_pool_resume s i s' ev : inv s -> pool_resume s i = Some (s', ev) -> inv s'.
Proof.
  intros I. unfold pool_resume. destruct (c_place (cos s i)) as [| | |w k|w k|w k|w k| | |w| | | | |] eqn:Hc; try done.
  - intros [= <- <-]. co_step Hc.
  - destruct (p_shutdown s); intros [= <- <-]; co_step Hc.
  - intros [= <- <-]. co_step Hc.
  - destruct k; intros [= <- <-]; co_step Hc.
Qed.

Lemma inv_exec l s s' ev : inv s -> exec l s = Some (s', ev) -> inv s'.
Proof.
  intros I He.
  destruct l as [|i|[i|]| |i|i|i|i|i|i|i| |i| | | | |]; cbn in He; unfold schedule, spawn_resume in He.
  - injection He as <- <-. by apply inv_arrive.
  - destruct (c_place (cos s i)) eqn:Hc; try done; injection He as <- <-; co_step Hc.
  - destruct (c_place (cos s i)) eqn:Hc; try done. destruct (m_shutdown_requested s); injection He as <- <-; [done|co_step Hc].
  - by injection He as <- <-.
  - injection He as <- <-. by apply inv_arrive.
  - destruct (c_place (cos s i)) eqn:Hc; try done. destruct (m_shutdown_requested s); injection He as <- <-; co_step Hc.
  - by eapply inv_pool_resume.
  - destruct (c_place (cos s i)) eqn:Hc; try done. destruct (p_joined s); [done|]. injection He as <- <-. co_step Hc.
  - destruct (c_place (cos s i)) eqn:Hc; try done; injection He as <- <-; co_step Hc.
  - destruct (c_place (cos s i)) as [| | | | | | | | |w| | | | |] eqn:Hc; try done; injection He as <- <-; co_step Hc.
  - destruct (c_place (cos s i)) eqn:Hc; try done; injection He as <- <-; co_step Hc.
  - destruct (c_place (cos s i)) eqn:Hc; try done; injection He as <- <-; co_step Hc.
  - destruct (unsub s) as [|n] eqn:Hu; [done|]. injection He as <- <-. destruct I as [M P N H E].
    constructor; cbn; unfold sum, held in *; cbn; auto; lia.
  - destruct (loop s) eqn:Hl; try done. destruct (c_place (cos s i)) eqn:Hc; try done. injection He as <- <-. by apply schedulerpool_inv_collect.
  - by eapply inv_loop.
  - destruct (loop s) eqn:Hl; try done. destruct (io_thread s); [done|]. injection He as <- <-. destruct I as [M P N H E].
    constructor; cbn; unfold held, sum in *; rewrite ?Hl in *; cbn in *; auto; lia.
  - injection He as <- <-. destruct I as [M P N H E]. by constructor.
  - destruct (_ && _); [|done]. injection He as <- <-. destruct I as [M P N H E]. by constructor.
  - destruct (_ && _); [|done]. injection He as <- <-. destruct I as [M P N H E]. by constructor.
Qed.

(** A coroutine the scheduler or the pool has counted and still has to run. *)
Definition in_flight (c : coroutine) : bool :=
  match c_place c with PNone | PElsewhere | PEnter false _ | PSpawned | PDone | PLost | PRejected => false | _ => true end.

Lemma in_flight_counted c : in_flight c = true -> (1 <= w_m c + w_p c)%nat.
Proof. unfold in_flight, w_m, w_p, on_worker. destruct (c_place c) as [| | |[]|[]|[]|[]| | |[]| | | | |]; cbn; try done; intros _; lia. Qed.

(** ... and a detached task from its first count to its end. *)
Definition unfinished (c : coroutine) : bool := c_detached c && match c_place c with PNone | PDone => false | _ => true end.

Lemma unfinished_counted c : unfinished c = true -> (1 <= w_m c)%nat.
Proof. unfold unfinished, w_m. destruct (c_detached c); [|done]. destruct (c_place c); cbn; try done; intros _; lia. Qed.

Lemma inv_none_in_flight s i : inv s -> sum w_m s + sum w_p s = 0 -> in_flight (cos s i) = false /\ unfinished (cos s i) = false.
Proof.
  intros I H. destruct (decide (i < next s)%nat) as [Hi|Hi].
  - unfold sum in H. pose proof (sum_pos (fun j => w_m (cos s j)) (next s) i Hi). pose proof (sum_pos (fun j => w_p (cos s j)) (next s) i Hi). cbn in *.
    split; apply not_true_iff_false; [intros Hf%in_flight_counted|intros Hf%unfinished_counted]; lia.
  - unfold in_flight, unfinished. rewrite (i_next s I i) by lia. by rewrite andb_false_r.
Qed.


(** A coroutine is scheduled, polls, is found ready, queued and finishes; then the thread ends. *)
Definition one_poll : list label :=
  [New; Schedule 0; PoolResume 0; PoolResume 0; PoolResume 0; Take 0; Poll 0; Suspend 0; WorkerSub; Loop; Collect 0; Loop; Loop;
   Take 0; Loop; Finish 0; WorkerSub; Shutdown; Loop; Loop; PoolShutdown; PoolJoin].

Example one_poll_runs :
  option_map (fun '(s, tr) => (c_place (cos s 0), m_size s, p_size s, tr)) (run exec one_poll (init true)) = Some (PDone, 0, 0, [EvExit]).
Proof. reflexivity. Qed.


(** resume(handles), called undisturbed with distinct handles: its result is the number of
    coroutines the pool has got, all that are neither null nor done, or none after a
    shutdown, and the pool has counted those. *)
Definition open (s : state) : bool := negb (m_shutdown_requested s || p_shutdown s).

Lemma resume_call_ok s i : c_place (cos s i) = PElsewhere -> exists s',
  resume_call (Some i) s = Some (s', [if open s then EvResumed else EvRefused]) /\
  p_size s' = p_size s + Z.of_nat (b2n (open s)) /\ open s' = open s /\ forall j, j <> i -> cos s' j = cos s j.
Proof.
  intros Hc. unfold resume_call, resume, open. rewrite Hc. destruct (m_shutdown_requested s) eqn:Hm; cbn.
  - exists s. split_and!; [done|lia|by rewrite Hm|done].
  - unfold pool_resume at 1. cbn. rewrite upd_eq. cbn. unfold pool_resume at 1. cbn. rewrite !upd_eq. cbn.
    destruct (p_shutdown s) eqn:Hp; cbn; unfold pool_resume; cbn; rewrite !upd_eq; cbn; (eexists; split_and!; [reflexivity|cbn; lia|cbn; by rewrite Hm, Hp|]);
      cbn; intros j Hj; by rewrite !upd_ne by done.
Qed.

Lemma resume_range_counts handles : forall s, NoDup (omap id handles) -> (forall i, Some i ∈ handles -> c_place (cos s i) = PElsewhere) ->
  exists s' ev total, resume_range handles s = Some (s', ev, total) /\ length ev = length handles /\
    p_size s' = p_size s + Z.of_nat total /\ total = if open s then length (omap id handles) else 0%nat.
Proof.
  induction handles as [|[i|] hs IH]; intros s Hnd He.
  - exists s, [], 0%nat. split_and!; [done|done|lia|by destruct (open s)].
  - cbn in Hnd. apply list.NoDup_cons in Hnd as [Hni Hnd].
    destruct (resume_call_ok s i) as (s1 & Hc & Hp & Ho & Hoth); [apply He; left|].
    destruct (IH s1 Hnd) as (s2 & ev2 & t & Hr & Hl & Hp2 & Ht).
    { intros j Hj. rewrite Hoth; [apply He; by right|]. intros ->. apply Hni. apply list_elem_of_omap. by exists (Some i). }
    cbn [resume_range]. rewrite Hc, Hr. eexists _, _, _. split; [reflexivity|]. rewrite Ho in Ht. cbn. rewrite Hl, Hp2, Hp. destruct (open s); cbn; split_and!; (done || lia).
  - destruct (IH s Hnd) as (s2 & ev2 & t & Hr & Hl & Hp2 & Ht); [intros j Hj; apply He; by right|].
    cbn. rewrite Hr. eexists _, _, _. split; [reflexivity|]. cbn. rewrite Hl. by split_and!.
Qed.

(** size() reads the two counters one after the other.  A coroutine that starts to poll in
    between is in neither of the two values: the dedicated thread leaves although the
    coroutine waits for it. *)
Theorem pool_scheduler_size_race :
  exists s tr,
    run exec [New; Schedule 0; PoolResume 0; PoolResume 0; PoolResume 0; Take 0; Shutdown; Loop; Poll 0; Suspend 0; WorkerSub; Loop;
              PoolShutdown; PoolJoin] (init true) = Some (s, tr) /\
    EvExit ∈ tr /\ io_thread s = false /\ p_joined s = true /\ c_place (cos s 0) = PWaiting /\ m_size s + p_size s = 1.
Proof. do 2 eexists. split; [vm_compute; reflexivity|]. split_and!; try done. set_solver. Qed.

(** thread_pool::resume(handle) tests the flag before it queues: when shutdown() comes in
    between, the workers find the queue empty and leave, and resume() returns true for a
    coroutine that nobody will run. *)
Theorem pool_resume_after_join :
  exists s tr,
    run exec [New; Resume (Some 0%nat); PoolResume 0; PoolResume 0; Shutdown; PoolShutdown; PoolJoin; PoolResume 0] (init false) = Some (s, tr) /\
    tr = [EvResumed] /\ p_joined s = true /\ c_place (cos s 0) = PQueued /\ p_size s = 1 /\ exec (Take 0) s = None.
Proof. do 2 eexists. split; [vm_compute; reflexivity|]. by split_and!. Qed.

(** Without a dedicated thread shutdown() does not wait for what polls: the pool's workers
    leave, and process_events() afterwards queues the coroutine where nobody takes it. *)
Theorem pool_scheduler_manual_shutdown_strands :
  exists s tr,
    run exec [New; Poll 0; Suspend 0; Shutdown; PoolShutdown; PoolJoin; Manual; Collect 0; Loop; Loop; Loop] (init false) = Some (s, tr) /\
    tr = [] /\ p_joined s = true /\ c_place (cos s 0) = PQueued /\ p_size s = 1 /\ loop s = LIdle.
Proof. do 2 eexists. split; [vm_compute; reflexivity|]. by split_and!. Qed.

(** schedule() drops the pool's refusal: the coroutine that awaits it stays suspended, and a
    detached task counts for ever - so does one whose spawn_detached() has returned false. *)
Theorem pool_scheduler_refusals :
  (exists s tr, run exec [Spawn; SpawnResume 0; PoolResume 0; PoolResume 0; PoolResume 0; Take 0; Shutdown; PoolShutdown; Schedule 0;
                          PoolResume 0; PoolResume 0; PoolResume 0; WorkerSub; PoolJoin] (init false) = Some (s, tr) /\
     tr = [EvResumed; EvLost 0] /\ c_place (cos s 0) = PLost /\ m_size s = 1) /\
  (exists s tr, run exec [Shutdown; Spawn; SpawnResume 0] (init false) = Some (s, tr) /\ tr = [EvRefused] /\
     c_place (cos s 0) = PRejected /\ m_size s = 1).
Proof. split; do 2 eexists; (split; [vm_compute; reflexivity|]); by split_and!. Qed.
End SchedulerPool.
