(* ===== verification/SchedulerSetup.v ===== *)
(** * The construction and the destruction of a scheduler (src/scheduler.cpp,
    src/detail/timer_handle.cpp, the dispatch of process_events_execute)

    Three descriptors are registered for as long as the scheduler lives, each with a pointer
    of its own by which the event loop knows whose event it got. *)
From stdpp Require Import base list option numbers.
From Stdlib Require Import ZArith Lia.
From S2P Require Import Prelude IoNotifier Fd.

Module SchedulerSetup.
Import Poll Udata IoNotifier.
Local Open Scope Z_scope.

Section setup.
Context {epoll : Epoll}.
Variables timer_fd shutdown_read_fd schedule_read_fd : nat.
Variables m_timer_ptr m_shutdown_ptr m_schedule_ptr : Z.

(** timer_handle(ptr, notifier): the result of watch is dropped *)
Definition timer_handle (s : ep) : ep := fst (watch_fd s timer_fd op_read m_timer_ptr true false).

(** scheduler(opts): [None] when it throws *)
Definition scheduler_ctor (s : ep) : option ep :=
  let s1 := timer_handle s in
  let '(s2, ok) := watch_fd s1 shutdown_read_fd op_read m_shutdown_ptr true false in
  if negb ok then None
  else
    let '(s3, ok) := watch_fd s2 schedule_read_fd op_read m_schedule_ptr true false in
    if negb ok then None else Some s3.

(** process_events_execute: who gets an event *)
Inductive handler := process_timeout | process_scheduled | nothing_to_do | process_event (poll_info : Z).
Definition dispatch (handle_ptr : Z) : handler :=
  if handle_ptr =? m_timer_ptr then process_timeout
  else if handle_ptr =? m_schedule_ptr then process_scheduled
  else if handle_ptr =? m_shutdown_ptr then nothing_to_do
  else process_event handle_ptr.

(** The pointer next_events hands to the loop for an event of [fd]. *)
Definition handle_of (s : ep) (fd : nat) : option Z :=
  match ep_lookup s fd with Some (_, u) => Some (snd (decode_udata u)) | None => None end.

Hypothesis fds_distinct : NoDup [timer_fd; shutdown_read_fd; schedule_read_fd].
Hypothesis ptrs_distinct : NoDup [m_timer_ptr; m_shutdown_ptr; m_schedule_ptr].
Hypothesis ptrs_fit : Forall (fun p => 0 <= p < 2 ^ 48) [m_timer_ptr; m_shutdown_ptr; m_schedule_ptr].

Definition keep_events : Z := Z.lor (Z.lor (op_bits op_read) EPOLLRDHUP) EPOLLET.

Lemma watch_keep s fd ptr : ep_lookup s fd = None ->
  snd (watch_fd s fd op_read ptr true false) = true /\
  forall g, ep_lookup (fst (watch_fd s fd op_read ptr true false)) g =
    if decide (g = fd) then Some (keep_events, encode_udata true false ptr) else ep_lookup s g.
Proof. intros H. unfold watch_fd. cbn [negb]. by apply ep_add_new. Qed.

Lemma handle_fits s fd ev p : ep_lookup s fd = Some (ev, encode_udata true false p) -> 0 <= p < 2 ^ 48 -> handle_of s fd = Some p.
Proof. intros H Hp. unfold handle_of. rewrite H, decode_encode. cbn [snd]. by rewrite Z.mod_small. Qed.

(** On a fresh epoll instance the construction succeeds: exactly the timer and the read ends
    of the two pipes are registered, for good and edge-triggered, and the event of each of
    them goes to its handler; every other pointer is taken for that of a poll_info. *)
Theorem scheduler_setup_dispatches :
  exists s, scheduler_ctor ep_empty = Some s /\
    (forall fd, ep_lookup s fd <> None <-> fd ∈ [timer_fd; shutdown_read_fd; schedule_read_fd]) /\
    option_map dispatch (handle_of s timer_fd) = Some process_timeout /\
    option_map dispatch (handle_of s schedule_read_fd) = Some process_scheduled /\
    option_map dispatch (handle_of s shutdown_read_fd) = Some nothing_to_do /\
    (forall p, p ∉ [m_timer_ptr; m_shutdown_ptr; m_schedule_ptr] -> dispatch p = process_event p).
Proof.
  rewrite !list.NoDup_cons, !not_elem_of_cons in fds_distinct. rewrite !list.NoDup_cons, !not_elem_of_cons in ptrs_distinct.
  destruct fds_distinct as ((F1 & F2 & _) & (F3 & _) & _). destruct ptrs_distinct as ((P1 & P2 & _) & (P3 & _) & _).
  rewrite !list.Forall_cons in ptrs_fit. destruct ptrs_fit as (B1 & B2 & B3 & _).
  unfold scheduler_ctor, timer_handle.
  destruct (watch_keep ep_empty timer_fd m_timer_ptr (ep_lookup_empty _)) as [_ L1].
  set (s1 := fst (watch_fd ep_empty timer_fd op_read m_timer_ptr true false)) in *.
  destruct (watch_keep s1 shutdown_read_fd m_shutdown_ptr) as [O2 L2]; [rewrite L1, decide_False by done; apply ep_lookup_empty|].
  destruct (watch_fd s1 shutdown_read_fd op_read m_shutdown_ptr true false) as [s2 ok2]. cbn [fst snd] in O2, L2. subst ok2. cbn [negb].
  destruct (watch_keep s2 schedule_read_fd m_schedule_ptr) as [O3 L3];
    [rewrite L2, decide_False, L1, decide_False by done; apply ep_lookup_empty|].
  destruct (watch_fd s2 schedule_read_fd op_read m_schedule_ptr true false) as [s3 ok3]. cbn [fst snd] in O3, L3. subst ok3. cbn [negb].
  assert (forall fd, ep_lookup s3 fd = if decide (fd = schedule_read_fd) then Some (keep_events, encode_udata true false m_schedule_ptr)
    else if decide (fd = shutdown_read_fd) then Some (keep_events, encode_udata true false m_shutdown_ptr)
    else if decide (fd = timer_fd) then Some (keep_events, encode_udata true false m_timer_ptr) else None) as L.
  { intros fd. rewrite L3, L2, L1, ep_lookup_empty. done. }
  exists s3. split; [done|]. split.
  { intros fd. rewrite L, !elem_of_cons. repeat case_decide; subst; split; intros; auto; try done.
    destruct H2 as [?|[?|[?|H2]]]; try done. by apply elem_of_nil in H2. }
  rewrite (handle_fits s3 timer_fd keep_events m_timer_ptr), (handle_fits s3 schedule_read_fd keep_events m_schedule_ptr),
    (handle_fits s3 shutdown_read_fd keep_events m_shutdown_ptr); try done;
    try (rewrite L; repeat first [rewrite decide_True by done | rewrite decide_False by done]; done).
  unfold dispatch. cbn. rewrite !Z.eqb_refl. split; [done|]. split; [|split].
  - by rewrite (proj2 (Z.eqb_neq _ _)) by congruence.
  - by rewrite !(proj2 (Z.eqb_neq _ _)) by congruence.
  - intros p. rewrite !not_elem_of_cons. intros (N1 & N2 & N3 & _). by rewrite !(proj2 (Z.eqb_neq _ _)) by done.
Qed.
End setup.

(** ~scheduler, after the threads have been joined: the two pipes are closed, then the
    members are destroyed - the pipes once more and the notifier with its epoll descriptor;
    timer_handle has no destructor. *)
Definition scheduler_dtor (epoll : Z) (shutdown_pipe schedule_pipe : Pipe.fds) : list Z :=
  let '(c1, p1) := Pipe.close shutdown_pipe in
  let '(c2, p2) := Pipe.close schedule_pipe in
  c1 ++ c2 ++ fst (Pipe.close p2) ++ fst (Pipe.close p1) ++ [epoll].

(** The descriptors of the pipes and of epoll are closed, each once; that of the timer is
    not: every scheduler that is destroyed leaves a timerfd open. *)
Theorem scheduler_leaks_timerfd timer epoll a b c d :
  NoDup [timer; epoll; a; b; c; d] -> Forall (fun fd => 0 <= fd) [timer; epoll; a; b; c; d] ->
  scheduler_dtor epoll (a, b) (c, d) = [a; b; c; d; epoll] /\ timer ∉ scheduler_dtor epoll (a, b) (c, d).
Proof.
  intros Hn Hf. rewrite !list.Forall_cons in Hf. destruct Hf as (? & ? & ? & ? & ? & ? & _).
  assert (scheduler_dtor epoll (a, b) (c, d) = [a; b; c; d; epoll]) as ->.
  { unfold scheduler_dtor, Pipe.close. cbn. by rewrite !(proj2 (Z.eqb_neq _ _)) by lia. }
  split; [done|]. apply list.NoDup_cons in Hn as [Hn _]. rewrite !not_elem_of_cons in *. tauto.
Qed.

Lemma scheduler_leaks_timerfd_witness :
  scheduler_dtor 3 (5, 6) (7, 8) = [5; 6; 7; 8; 3] /\ 4 ∉ scheduler_dtor 3 (5, 6) (7, 8).
Proof.
  apply (scheduler_leaks_timerfd 4 3 5 6 7 8); [apply (bool_decide_unpack _); vm_compute; exact I|].
  apply (bool_decide_unpack _); vm_compute; exact I.
Defined.

Section witnesses.
#[local] Existing Instance epoll_map.
Lemma scheduler_setup_dispatches_witness :
  exists s, scheduler_ctor 4 5 7 0x1000 0x1004 0x1008 ep_empty = Some s /\
    option_map (dispatch 0x1000 0x1004 0x1008) (handle_of s 7) = Some process_scheduled.
Proof.
  destruct (scheduler_setup_dispatches 4 5 7 0x1000 0x1004 0x1008) as (s & H1 & _ & _ & H2 & _).
  - apply (bool_decide_unpack _). vm_compute. exact I.
  - apply (bool_decide_unpack _). vm_compute. exact I.
  - repeat (apply list.Forall_cons; split; [lia|]). apply Forall_nil.
  - exists s. split; [exact H1|exact H2].
Defined.
End witnesses.
End SchedulerSetup.
