(* ===== verification/NetIo.v ===== *)
(** * TCP and UDP (include/coro/net/tcp/client.hpp, src/net/tcp/client.cpp,
    include/coro/net/tcp/server.hpp, include/coro/net/udp/peer.hpp,
    include/coro/net/connect.hpp, src/net/connect.cpp)

    The operations as functions of the state of the operating system, of which the classes
    [Stream], [Datagram] and [Listener] state what is documented of recv(2), send(2),
    recvfrom(2), sendto(2), accept(2) and connect(2), and of scheduler::poll.  The bytes a
    peer will send, and those accepted from us, are the ghost functions [inbox] and
    [outbox].  A coroutine that awaits poll() is suspended meanwhile, so the operations of
    one client are sequential, as the code demands of its callers; a poll without a timeout
    need never return, and then neither does the operation ([Waits]). *)
From stdpp Require Import base list option numbers strings.
From Stdlib Require Import ZArith Lia.
From S2P Require Import Prelude IoNotifier Net.

(** ** The shape all operations share: try if ready, else poll and try again *)
Section readiness.
Context {K A : Type}.

(** [call]: the system call; [again]: its result is EAGAIN; [poll]: the poll, [None] when it
    never returns; [fail]: the result for a poll that did not report [want].  The result is
    the new state, the new readiness flag and what is returned. *)
Definition try_then_poll (call : K -> K * A) (again : A -> bool) (poll : K -> option (K * Poll.poll_status))
    (want : Poll.poll_status) (fail : Poll.poll_status -> A) (ready : bool) (k : K) : answer (K * bool * A) :=
  let slow k :=
    match poll k with
    | None => Waits
    | Some (k1, st) =>
        if bool_decide (st = want) then let '(k2, r) := call k1 in Answer (k2, true, r) else Answer (k1, false, fail st)
    end in
  if ready then
    let '(k1, r) := call k in if again r then slow k1 else Answer (k1, true, r)
  else slow k.

(** At most one call has an effect: either the poll failed and nothing happened, or the
    result is that of a call made in the state as it was found. *)
Lemma try_then_poll_spec {B} (abs : K -> B) (R : B -> A -> B -> Prop) (P : Poll.poll_status -> Prop) call again poll want fail ready k k' f r :
  (forall k, R (abs k) (snd (call k)) (abs (fst (call k)))) ->
  (forall k, again (snd (call k)) = true -> abs (fst (call k)) = abs k) ->
  (forall k k1 st, poll k = Some (k1, st) -> abs k1 = abs k /\ P st) ->
  try_then_poll call again poll want fail ready k = Answer (k', f, r) ->
  R (abs k) r (abs k') \/ (exists st, st <> want /\ P st /\ r = fail st /\ abs k' = abs k).
Proof.
  intros Hc Ha Hp. unfold try_then_poll.
  assert (forall k0, abs k0 = abs k ->
    match poll k0 with
    | None => Waits
    | Some (k1, st) =>
        if bool_decide (st = want) then let '(k2, r) := call k1 in Answer (k2, true, r) else Answer (k1, false, fail st)
    end = Answer (k', f, r) ->
    R (abs k) r (abs k') \/ (exists st, st <> want /\ P st /\ r = fail st /\ abs k' = abs k)) as Hslow.
  { intros k0 E0. destruct (poll k0) as [[k1 st]|] eqn:Hk; [|done]. destruct (Hp k0 k1 st Hk) as [Hp0 HP0]. case_bool_decide as Hst.
    - pose proof (Hc k1) as Hc1. destruct (call k1) as [k2 r2]. intros [= <- <- <-]. cbn in Hc1. left. by rewrite <- E0, <- Hp0.
    - intros [= <- <- <-]. right. exists st. split_and!; [done..|]. by rewrite Hp0. }
  destruct ready; [|by apply Hslow]. pose proof (Hc k) as Hc0. pose proof (Ha k) as Ha0.
  destruct (call k) as [k1 r1]. cbn in *. destruct (again r1); [by apply Hslow; auto|].
  intros [= <- <- <-]. by left.
Qed.

(** It returns, or its poll does not. *)
Lemma try_then_poll_answers call again poll want fail ready k :
  (exists k' f r, try_then_poll call again poll want fail ready k = Answer (k', f, r)) \/
  try_then_poll call again poll want fail ready k = Waits /\ exists k0, poll k0 = None.
Proof.
  unfold try_then_poll.
  assert (forall k0, (exists k' f r,
    match poll k0 with
    | None => Waits
    | Some (k1, st) =>
        if bool_decide (st = want) then let '(k2, r) := call k1 in Answer (k2, true, r) else Answer (k1, false, fail st)
    end = Answer (k', f, r)) \/
    match poll k0 with
    | None => Waits
    | Some (k1, st) =>
        if bool_decide (st = want) then let '(k2, r) := call k1 in Answer (k2, true, r) else Answer (k1, false, fail st)
    end = Waits /\ exists k0, poll k0 = None) as Hslow.
  { intros k0. destruct (poll k0) as [[k1 st]|] eqn:Hk; [left|right; by eauto].
    case_bool_decide; [|by eauto]. destruct (call k1). eauto. }
  destruct ready; [|apply Hslow]. destruct (call k) as [k1 r]. destruct (again r); [apply Hslow|left; eauto].
Qed.
End readiness.

(** ** TCP client *)
Module Tcp.
Import IoStatus.

Inductive recv_result := RBytes (b : list Z) | REof | RErr (errno : Z).

(** A connected stream socket and the scheduler. *)
Class Stream := {
  K : Type;
  k_recv : K -> nat -> K * recv_result;
  k_send : K -> list Z -> K * (nat + Z);              (* bytes sent, or errno *)
  k_poll : K -> Poll.poll_op -> Z -> option (K * Poll.poll_status);  (* None: never returns *)
  k_now : K -> K * Z;                                  (* steady_clock, in milliseconds *)
  inbox : K -> list Z;                                 (* what the peer's stream still holds *)
  outbox : K -> list Z;                                (* what has been accepted for sending *)
  recv_stream k n :
    match snd (k_recv k n) with
    | RBytes b => inbox k = b ++ inbox (fst (k_recv k n)) /\ 0 < length b <= n
    | _ => inbox (fst (k_recv k n)) = inbox k
    end /\ outbox (fst (k_recv k n)) = outbox k;
  send_stream k b :
    match snd (k_send k b) with
    | inl n => n <= length b /\ (b <> [] -> 0 < n) /\ outbox (fst (k_send k b)) = outbox k ++ take n b
    | inr _ => outbox (fst (k_send k b)) = outbox k
    end /\ inbox (fst (k_send k b)) = inbox k;
  poll_stream k op t k' st : k_poll k op t = Some (k', st) -> inbox k' = inbox k /\ outbox k' = outbox k;
  poll_asked k op t k' st : k_poll k op t = Some (k', st) ->
    (op = Poll.op_read -> st <> Poll.write) /\ (op = Poll.op_write -> st <> Poll.read);
  poll_returns k op t : (0 < t)%Z -> k_poll k op t <> None;          (* at the latest with a timeout *)
  now_stream k : inbox (fst (k_now k)) = inbox k /\ outbox (fst (k_now k)) = outbox k;
  errno_nonzero_recv k n e : snd (k_recv k n) = RErr e -> e <> 0%Z;
  errno_nonzero_send k b e : snd (k_send k b) = inr e -> e <> 0%Z
}.

Section client.
Context `{!Stream}.

(** The readiness flags of a client. *)
Record client := mk_client { m_is_read_ready : bool; m_is_write_ready : bool }.
Definition new_client : client := mk_client false false.

(** recv(buffer), for a buffer of [n] bytes: the bytes received stand for the span *)
Definition recv (k : K) (n : nat) : K * (io_status * list Z) :=
  let '(k1, r) := k_recv k n in
  (k1, match r with
       | RBytes b => (of_kind ok, b)
       | REof => (of_kind closed, [])
       | RErr e => (make_io_status_from_native e, [])
       end).

(** send(buffer): the status and the unsent rest *)
Definition send (k : K) (b : list Z) : K * (io_status * list Z) :=
  let '(k1, r) := k_send k b in
  (k1, match r with inl n => (of_kind ok, drop n b) | inr e => (make_io_status_from_native e, b) end).

Definition read_some_impl (k : K) (c : client) (n : nat) (timeout : Z) : answer (K * client * (io_status * list Z)) :=
  then_do
    (try_then_poll (fun k => recv k n) (fun r => try_again (fst r)) (fun k => k_poll k Poll.op_read timeout) Poll.read
      (fun st => (make_io_status_from_poll_status st, [])) (m_is_read_ready c) k)
    (fun '(k1, f, r) => Answer (k1, mk_client f (m_is_write_ready c), r)).

Definition write_some_impl (k : K) (c : client) (b : list Z) (timeout : Z) : answer (K * client * (io_status * list Z)) :=
  then_do
    (try_then_poll (fun k => send k b) (fun r => try_again (fst r)) (fun k => k_poll k Poll.op_write timeout) Poll.write
      (fun st => (make_io_status_from_poll_status st, b)) (m_is_write_ready c) k)
    (fun '(k1, f, r) => Answer (k1, mk_client (m_is_read_ready c) f, r)).

(** The computation of remaining_timeout; [None]: the time is up *)
Definition remaining_timeout (timeout elapsed : Z) : option Z :=
  if (0 <? timeout)%Z then if (timeout <=? elapsed)%Z then None else Some (timeout - elapsed)%Z else Some 0%Z.

(** read_exact_impl: the loop, [got] being the filled prefix of the buffer. *)
Fixpoint read_loop (fuel : nat) (k : K) (c : client) (n : nat) (got : list Z) (start timeout : Z)
  : answer (K * client * (io_status * list Z)) :=
  if decide (n = length got) then Answer (k, c, (of_kind ok, got))
  else
    match fuel with
    | 0 => OutOfFuel
    | S fuel =>
        let '(k0, t) := if (0 <? timeout)%Z then k_now k else (k, start) in
        match remaining_timeout timeout (t - start) with
        | None => Answer (k0, c, (of_kind IoStatus.timeout, got))
        | Some rt =>
            then_do (read_some_impl k0 c (n - length got) rt) (fun '(k1, c1, (status, read)) =>
              if negb (is_ok status) then Answer (k1, c1, (status, got ++ read))
              else read_loop fuel k1 c1 n (got ++ read) start timeout)
        end
    end.
Definition read_exact_impl (fuel : nat) (k : K) (c : client) (n : nat) (timeout : Z) :=
  let '(k0, start) := k_now k in read_loop fuel k0 c n [] start timeout.

(** write_all_impl *)
Fixpoint write_loop (fuel : nat) (k : K) (c : client) (remaining : list Z) (start timeout : Z)
  : answer (K * client * (io_status * list Z)) :=
  match remaining with
  | [] => Answer (k, c, (of_kind ok, []))
  | _ =>
      match fuel with
      | 0 => OutOfFuel
      | S fuel =>
          let '(k0, t) := if (0 <? timeout)%Z then k_now k else (k, start) in
          match remaining_timeout timeout (t - start) with
          | None => Answer (k0, c, (of_kind IoStatus.timeout, remaining))
          | Some rt =>
              then_do (write_some_impl k0 c remaining rt) (fun '(k1, c1, (status, unsent)) =>
                if negb (is_ok status) then Answer (k1, c1, (status, unsent))
                else write_loop fuel k1 c1 unsent start timeout)
          end
      end
  end.
Definition write_all_impl (fuel : nat) (k : K) (c : client) (b : list Z) (timeout : Z) :=
  let '(k0, start) := k_now k in write_loop fuel k0 c b start timeout.

(** What read_some and read_exact return for a buffer of elements of [size] bytes: the
    status, the bytes at the start of the buffer, and the number of elements of the span,
    which is made from the number of bytes: span<element_type>{data, buf.size()}. *)
Definition as_elements (r : answer (K * client * (io_status * list Z)))
  : answer (K * client * (io_status * list Z * nat)) :=
  then_do r (fun '(k, c, (status, buf)) => Answer (k, c, (status, buf, length buf))).

(** read_some, read_exact (for a buffer of [count] elements of [size] bytes), write_some,
    write_all (whose elements are bytes): an empty buffer is done at once *)
Definition read_some (k : K) (c : client) (size count : nat) (timeout : Z) :=
  if decide (count = 0) then Answer (k, c, (of_kind ok, [], 0)) else as_elements (read_some_impl k c (count * size) timeout).
Definition read_exact (fuel : nat) (k : K) (c : client) (size count : nat) (timeout : Z) :=
  if decide (count = 0) then Answer (k, c, (of_kind ok, [], 0)) else as_elements (read_exact_impl fuel k c (count * size) timeout).
Definition write_some (k : K) (c : client) (b : list Z) (timeout : Z) :=
  match b with [] => Answer (k, c, (of_kind ok, [])) | _ => write_some_impl k c b timeout end.
Definition write_all (fuel : nat) (k : K) (c : client) (b : list Z) (timeout : Z) :=
  match b with [] => Answer (k, c, (of_kind ok, [])) | _ => write_all_impl fuel k c b timeout end.

(** ** Correctness *)

(** A status that is not ok comes without bytes. *)
Definition read_ok (n : nat) (r : io_status * list Z) : Prop :=
  if is_ok (fst r) then 0 < length (snd r) <= n else snd r = [].

Lemma native_not_ok e : e <> 0%Z -> is_ok (make_io_status_from_native e) = false.
Proof.
  intros He. destruct (is_ok (make_io_status_from_native e)) eqn:E; [|done]. by apply (native_kinds e) in E.
Qed.
Lemma poll_not_ok st : st <> Poll.read -> st <> Poll.write -> is_ok (make_io_status_from_poll_status st) = false.
Proof. by destruct st. Qed.

Lemma recv_spec k n : 
  let r := recv k n in
  inbox k = snd (snd r) ++ inbox (fst r) /\ outbox (fst r) = outbox k /\ read_ok n (snd r).
Proof.
  intros r. subst r. unfold recv, read_ok. destruct (recv_stream k n) as [H1 H2]. pose proof (errno_nonzero_recv k n) as He.
  destruct (k_recv k n) as [k1 [b| |e]]; cbn in *.
  - destruct H1 as [H1 H3]. done.
  - by rewrite H1.
  - rewrite native_not_ok by (by apply He). by rewrite H1.
Qed.

Lemma send_spec k b :
  let r := send k b in
  inbox (fst r) = inbox k /\ (exists sent, b = sent ++ snd (snd r) /\ outbox (fst r) = outbox k ++ sent /\
    if is_ok (fst (snd r)) then b <> [] -> sent <> [] else sent = []).
Proof.
  intros r. subst r. unfold send. destruct (send_stream k b) as [H1 H2]. pose proof (errno_nonzero_send k b) as He.
  destruct (k_send k b) as [k1 [m|e]]; cbn in *.
  - destruct H1 as (H1 & H3 & H4). split; [done|]. exists (take m b). split_and!; [by rewrite take_drop|done|].
    intros Hb Ht. specialize (H3 Hb). apply (f_equal length) in Ht. rewrite length_take in Ht. cbn in Ht. lia.
  - split; [done|]. exists []. rewrite native_not_ok by (by apply He). by rewrite app_nil_r.
Qed.

Lemma read_some_spec k c n t k' c' status b : read_some_impl k c n t = Answer (k', c', (status, b)) ->
  inbox k = b ++ inbox k' /\ outbox k' = outbox k /\ read_ok n (status, b).
Proof.
  unfold read_some_impl. destruct (try_then_poll _ _ _ _ _ _ k) as [[[k1 f] r]| |] eqn:E; [|done..]. intros [= <- <- ->].
  eapply (try_then_poll_spec (fun k => (inbox k, outbox k))
    (fun a r a' => fst a = snd r ++ fst a' /\ snd a' = snd a /\ read_ok n r)
    (fun st => st <> Poll.write)) in E.
  - destruct E as [E|(st & Hne & Hne' & [= -> ->] & [= -> ->])]; [done|]. split_and!; [done..|]. unfold read_ok. cbn. by destruct st.
  - intros k0. apply recv_spec.
  - intros k0 Ha. destruct (recv_spec k0 n) as (H1 & H2 & H3). unfold read_ok in H3.
    destruct (recv k0 n) as [k2 [st b0]]. cbn in *. assert (is_ok st = false) as Hok.
    { unfold try_again, is_ok in *. by destruct (type st). }
    rewrite Hok in H3. subst b0. cbn in H1. by rewrite H1, H2.
  - intros k0 k2 st Hp. destruct (poll_stream _ _ _ _ _ Hp) as [-> ->]. split; [done|]. by apply (poll_asked _ _ _ _ _ Hp).
Qed.

(** Only a poll without a timeout can wait for ever. *)
Lemma read_some_answers k c n t : 
  (exists k' c' status b, read_some_impl k c n t = Answer (k', c', (status, b))) \/ read_some_impl k c n t = Waits /\ (t <= 0)%Z.
Proof.
  unfold read_some_impl.
  destruct (try_then_poll_answers (fun k => recv k n) (fun r => try_again (fst r)) (fun k => k_poll k Poll.op_read t) Poll.read
    (fun st => (make_io_status_from_poll_status st, [])) (m_is_read_ready c) k) as [(k' & f & [st b] & ->)|[-> [k0 Hk]]]; [left; cbn; by eauto|].
  right. split; [done|]. destruct (Z.le_gt_cases t 0) as [|Ht]; [done|]. by destruct (poll_returns k0 Poll.op_read t Ht).
Qed.
Lemma write_some_answers k c b t :
  (exists k' c' status rest, write_some_impl k c b t = Answer (k', c', (status, rest))) \/ write_some_impl k c b t = Waits /\ (t <= 0)%Z.
Proof.
  unfold write_some_impl.
  destruct (try_then_poll_answers (fun k => send k b) (fun r => try_again (fst r)) (fun k => k_poll k Poll.op_write t) Poll.write
    (fun st => (make_io_status_from_poll_status st, b)) (m_is_write_ready c) k) as [(k' & f & [st r] & ->)|[-> [k0 Hk]]]; [left; cbn; by eauto|].
  right. split; [done|]. destruct (Z.le_gt_cases t 0) as [|Ht]; [done|]. by destruct (poll_returns k0 Poll.op_write t Ht).
Qed.

Lemma write_some_spec k c b t k' c' status rest : write_some_impl k c b t = Answer (k', c', (status, rest)) ->
  inbox k' = inbox k /\ (exists sent, b = sent ++ rest /\ outbox k' = outbox k ++ sent /\
    if is_ok status then b <> [] -> sent <> [] else sent = []).
Proof.
  unfold write_some_impl. destruct (try_then_poll _ _ _ _ _ _ k) as [[[k1 f] r]| |] eqn:E; [|done..]. intros [= <- <- ->].
  eapply (try_then_poll_spec (fun k => (inbox k, outbox k))
    (fun a r a' => fst a' = fst a /\ (exists sent, b = sent ++ snd r /\ snd a' = snd a ++ sent /\
       if is_ok (fst r) then b <> [] -> sent <> [] else sent = []))
    (fun st => st <> Poll.read)) in E.
  - destruct E as [E|(st & Hne & Hne' & [= -> ->] & [= -> ->])]; [done|]. split; [done|]. exists [].
    rewrite app_nil_r. split_and!; [done..|]. by destruct st.
  - intros k0. apply send_spec.
  - intros k0 Ha. destruct (send_spec k0 b) as (H1 & sent & H2 & H3 & H4).
    destruct (send k0 b) as [k2 [st b0]]. cbn in *. assert (is_ok st = false) as Hok.
    { unfold try_again, is_ok in *. by destruct (type st). }
    rewrite Hok in H4. subst sent. rewrite app_nil_r in H3. by rewrite H1, H3.
  - intros k0 k2 st Hp. destruct (poll_stream _ _ _ _ _ Hp) as [-> ->]. split; [done|]. by apply (poll_asked _ _ _ _ _ Hp).
Qed.

(** With a timeout every wait is bounded: it never becomes the 0 that means forever. *)
Lemma remaining_timeout_positive timeout elapsed rt :
  remaining_timeout timeout elapsed = Some rt -> (0 < rt)%Z \/ (timeout <= 0)%Z.
Proof.
  unfold remaining_timeout. destruct (Z.ltb_spec 0 timeout); [|lia].
  destruct (Z.leb_spec timeout elapsed); [done|]. intros [= <-]. lia.
Qed.

Lemma now_if (b : bool) k start : let k0 := fst (if b then k_now k else (k, start)) in inbox k0 = inbox k /\ outbox k0 = outbox k.
Proof. destruct b; [apply now_stream|done]. Qed.

Lemma read_loop_spec fuel k c n got start timeout : length got <= n -> n - length got <= fuel ->
  (exists k' c' status got', read_loop fuel k c n got start timeout = Answer (k', c', (status, got ++ got')) /\
    inbox k = got' ++ inbox k' /\ outbox k' = outbox k /\ length got + length got' <= n /\
    (is_ok status = true <-> length got + length got' = n)) \/
  read_loop fuel k c n got start timeout = Waits /\ (timeout <= 0)%Z.
Proof.
  revert k c got. induction fuel as [|fuel IH]; intros k c got Hg Hf; cbn.
  - rewrite decide_True by lia. left. exists k, c, (of_kind ok), []. rewrite app_nil_r. split_and!; [done..|cbn; lia|cbn; split; [lia|done]].
  - destruct (decide (n = length got)) as [He|Hne].
    { left. exists k, c, (of_kind ok), []. rewrite app_nil_r. split_and!; [done..|cbn; lia|cbn; split; [lia|done]]. }
    destruct (now_if (0 <? timeout)%Z k start) as [N1 N2]. destruct (if (0 <? timeout)%Z then k_now k else (k, start)) as [k0 t]. cbn in N1, N2.
    destruct (remaining_timeout timeout (t - start)) as [rt|] eqn:Hrt.
    2: { left. exists k0, c, (of_kind IoStatus.timeout), []. rewrite app_nil_r. split_and!; [done|by rewrite N1|done|cbn; lia|cbn; split; [done|lia]]. }
    destruct (read_some_answers k0 c (n - length got) rt) as [(k1 & c1 & status & read & Hr)|[-> Hw]].
    2: { right. split; [done|]. destruct (remaining_timeout_positive _ _ _ Hrt); [lia|done]. }
    destruct (read_some_spec _ _ _ _ _ _ _ _ Hr) as (H1 & H2 & H3). unfold read_ok in H3. cbn in H3. rewrite Hr. cbn.
    destruct (is_ok status) eqn:Hok; cbn.
    + destruct (IH k1 c1 (got ++ read)) as [(k' & c' & st & got' & E & I1 & I2 & I3 & I4)|Hw]; [rewrite length_app; lia..| |by right].
      left. exists k', c', st, (read ++ got'). rewrite <- app_assoc in E. rewrite !length_app in *. split_and!; [done| | |lia|].
      * by rewrite <- N1, H1, I1, app_assoc.
      * by rewrite I2, H2.
      * rewrite I4. lia.
    + subst read. left. exists k1, c1, status, []. split_and!; [done| | |cbn; lia|].
      * by rewrite <- N1, H1.
      * by rewrite H2.
      * rewrite Hok. cbn. split; [done|lia].
Qed.

Lemma write_loop_spec fuel k c b start timeout : length b <= fuel ->
  (exists k' c' status sent rest, write_loop fuel k c b start timeout = Answer (k', c', (status, rest)) /\
    b = sent ++ rest /\ outbox k' = outbox k ++ sent /\ inbox k' = inbox k /\ (is_ok status = true <-> rest = [])) \/
  write_loop fuel k c b start timeout = Waits /\ (timeout <= 0)%Z.
Proof.
  revert k c b. induction fuel as [|fuel IH]; intros k c b Hf.
  - destruct b; [|cbn in Hf; lia]. left. exists k, c, (of_kind ok), [], []. rewrite !app_nil_r. by split_and!.
  - destruct b as [|x b']; [left; exists k, c, (of_kind ok), [], []; rewrite !app_nil_r; by split_and!|]. set (b := x :: b') in *. cbn [write_loop]. unfold b at 1 3.
    destruct (now_if (0 <? timeout)%Z k start) as [N1 N2]. destruct (if (0 <? timeout)%Z then k_now k else (k, start)) as [k0 t]. cbn in N1, N2.
    destruct (remaining_timeout timeout (t - start)) as [rt|] eqn:Hrt.
    2: { left. exists k0, c, (of_kind IoStatus.timeout), [], b. rewrite app_nil_r, N1, N2. by split_and!. }
    destruct (write_some_answers k0 c b rt) as [(k1 & c1 & status & rest & Hr)|[-> Hw]].
    2: { right. split; [done|]. destruct (remaining_timeout_positive _ _ _ Hrt); [lia|done]. }
    destruct (write_some_spec _ _ _ _ _ _ _ _ Hr) as (H1 & sent & H2 & H3 & H4). rewrite Hr. cbn [then_do].
    destruct (is_ok status) eqn:Hok; cbn [negb].
    + destruct (IH k1 c1 rest) as [(k' & c' & st & sent' & rest' & E & I1 & I2 & I3 & I4)|Hw]; [| |by right].
      { specialize (H4 ltac:(done)). apply (f_equal length) in H2. rewrite length_app in H2.
        assert (0 < length sent) by (destruct sent; [done|cbn; lia]). lia. }
      left. exists k', c', st, (sent ++ sent'), rest'. split_and!; [done| | | |done].
      * by rewrite H2, I1, app_assoc.
      * by rewrite I2, H3, N2, app_assoc.
      * by rewrite I3, H1.
    + subst sent. left. exists k1, c1, status, [], rest. rewrite app_nil_r in *. split_and!; [done|done|by rewrite H3|by rewrite H1|].
      rewrite Hok. split; [done|]. by intros ->.
Qed.

(** What read_exact does with a buffer of [count] elements of [size] bytes. *)
Lemma read_exact_spec k c size count timeout :
  (exists k' c' status got, read_exact (count * size) k c size count timeout = Answer (k', c', (status, got, length got)) /\
    inbox k = got ++ inbox k' /\ outbox k' = outbox k /\ length got <= count * size /\
    (is_ok status = true <-> length got = count * size)) \/
  read_exact (count * size) k c size count timeout = Waits /\ (timeout <= 0)%Z.
Proof.
  unfold read_exact, read_exact_impl. destruct (decide (count = 0)) as [->|Hn].
  - left. exists k, c, (of_kind ok), []. by split_and!.
  - destruct (now_stream k) as [N1 N2]. destruct (k_now k) as [k0 start]. cbn in N1, N2.
    destruct (read_loop_spec (count * size) k0 c (count * size) [] start timeout)
      as [(k' & c' & status & got & E & H1 & H2 & H3 & H4)|[E Hw]]; [cbn; lia..| |]; rewrite E; [left|by right].
    exists k', c', status, got. rewrite <- N1, <- N2. cbn. split_and!; done.
Qed.

(** [C31] read_exact into a buffer of [n] bytes returns, within as many rounds as bytes were
    asked for, whenever it is given a timeout; without one (timeout 0, which means for ever)
    it may only stay suspended in a poll that never returns.  When it returns, what it
    returns are the next bytes of the peer's stream: none is lost, repeated or reordered,
    whatever mixture of short reads, EAGAIN, errors, timeouts and end of file occurs; the
    span covers exactly them; the status is ok exactly when the whole buffer was filled, and
    with any other status the bytes that did arrive are returned and the rest is still to be
    read.  (The elements of the buffer are bytes; for larger ones see
    [read_exact_span_overruns].) *)
Theorem read_exact_reads_the_stream k c n timeout :
  (exists k' c' status got span, read_exact n k c 1 n timeout = Answer (k', c', (status, got, span)) /\
    inbox k = got ++ inbox k' /\ outbox k' = outbox k /\ length got <= n /\ span = length got /\
    (is_ok status = true <-> length got = n)) \/
  read_exact n k c 1 n timeout = Waits /\ (timeout <= 0)%Z.
Proof.
  pose proof (read_exact_spec k c 1 n timeout) as Hx. rewrite Nat.mul_1_r in Hx.
  destruct Hx as [(k' & c' & status & got & E & H1 & H2 & H3 & H4)|Hx]; [left|by right].
  exists k', c', status, got, (length got). by split_and!.
Qed.

(** The span that read_exact (and read_some) return is made from a number of bytes as if it
    were a number of elements: with elements of more than one byte, which write_some and
    write_all refuse to compile with and the reads do not, the span of a buffer that was
    filled reaches beyond it. *)
Theorem read_exact_span_overruns k c size count timeout k' c' status got span :
  1 < size -> 0 < count -> read_exact (count * size) k c size count timeout = Answer (k', c', (status, got, span)) ->
  is_ok status = true -> count < span.
Proof.
  intros Hs Hc E Hok. destruct (read_exact_spec k c size count timeout) as [(k1 & c1 & st & got' & E' & _ & _ & _ & H4)|[E' _]];
    rewrite E' in E; [|done]. injection E as _ _ -> -> <-. apply H4 in Hok. rewrite Hok. nia.
Qed.

(** write_all returns, within as many rounds as there are bytes, whenever it is given a
    timeout, and hands the operating system a prefix of the buffer, in order and once:
    buffer = sent ++ rest, the rest is what it returns, and the status is ok exactly when
    nothing is left. *)
Theorem write_all_sends_a_prefix k c b timeout :
  (exists k' c' status sent rest, write_all (length b) k c b timeout = Answer (k', c', (status, rest)) /\
    b = sent ++ rest /\ outbox k' = outbox k ++ sent /\ inbox k' = inbox k /\ (is_ok status = true <-> rest = [])) \/
  write_all (length b) k c b timeout = Waits /\ (timeout <= 0)%Z.
Proof.
  unfold write_all, write_all_impl. destruct b as [|x b].
  - left. exists k, c, (of_kind ok), [], []. rewrite !app_nil_r. by split_and!.
  - destruct (now_stream k) as [N1 N2]. destruct (k_now k) as [k0 start]. cbn in N1, N2. rewrite <- N1, <- N2.
    by apply write_loop_spec.
Qed.
End client.

(** *** connect() *)
Inductive connect_status := connected | invalid_ip_address | timed_out | conn_error.
Definition connect_to_string (s : connect_status) : string :=
  match s with
  | connected => "connected" | invalid_ip_address => "invalid_ip_address" | timed_out => "timeout" | conn_error => "error"
  end.

Definition EINPROGRESS : Z := 115.

(** client::connect with the answers of the system: [cret], 0 or the errno of ::connect;
    [pstatus], of the poll for write; [so_error], of getsockopt.  The result is the status,
    the new m_connect_status and whether ::connect was called. *)
Definition connect (m_connect_status : option connect_status) (cret : option Z) (pstatus : Poll.poll_status) (so_error : Z)
  : connect_status * option connect_status * bool :=
  match m_connect_status with
  | Some s => (s, m_connect_status, false)
  | None =>
      let s :=
        match cret with
        | None => connected
        | Some errno =>
            if (errno =? EAGAIN)%Z || (errno =? EINPROGRESS)%Z then
              match pstatus with
              | Poll.write => if (so_error =? 0)%Z then connected else conn_error
              | Poll.timeout => timed_out
              | _ => conn_error
              end
            else conn_error
        end in
      (s, Some s, true)
  end.

(** The first call decides; later ones return the same and do not touch the socket. *)
Lemma connect_once cret ps so cret' ps' so' :
  let '(s, m, called) := connect None cret ps so in
  called = true /\ connect m cret' ps' so' = (s, m, false).
Proof. by unfold connect. Qed.
Lemma connect_connected cret ps so : fst (fst (connect None cret ps so)) = connected <->
  cret = None \/ (exists e, cret = Some e /\ (e = EAGAIN \/ e = EINPROGRESS) /\ ps = Poll.write /\ so = 0%Z).
Proof.
  unfold connect. cbn. destruct cret as [e|]; [|by split; auto].
  destruct (Z.eqb_spec e EAGAIN), (Z.eqb_spec e EINPROGRESS), ps, (Z.eqb_spec so 0); cbn; naive_solver.
Qed.
Lemma connect_to_string_inj a b : connect_to_string a = connect_to_string b -> a = b.
Proof. by destruct a, b. Qed.

(** *** A stream, for evaluation: two bytes at a time, every other call would block, and after
    its bytes the peer is silent (a poll then times out, or never returns) *)
Record toy := mk_toy { toy_in : list Z; toy_out : list Z; toy_ready : bool; toy_clock : Z }.
Definition toy_recv (k : toy) (n : nat) : toy * recv_result :=
  if toy_ready k then
    match toy_in k with
    | [] => (k, REof)
    | b => match n with
           | 0 => (k, RErr EAGAIN)
           | _ => (mk_toy (drop (Nat.min n 2) b) (toy_out k) false (toy_clock k), RBytes (take (Nat.min n 2) b))
           end
    end
  else (k, RErr EAGAIN).
Definition toy_send (k : toy) (b : list Z) : toy * (nat + Z) :=
  if toy_ready k then (mk_toy (toy_in k) (toy_out k ++ take (Nat.min (length b) 2) b) false (toy_clock k), inl (Nat.min (length b) 2))
  else (k, inr EAGAIN).
Definition toy_poll (k : toy) (op : Poll.poll_op) (t : Z) : option (toy * Poll.poll_status) :=
  match op, toy_in k with
  | Poll.op_write, _ => Some (mk_toy (toy_in k) (toy_out k) true (toy_clock k + 1)%Z, Poll.write)
  | _, _ :: _ => Some (mk_toy (toy_in k) (toy_out k) true (toy_clock k + 1)%Z, Poll.read)
  | _, [] => if (0 <? t)%Z then Some (mk_toy [] (toy_out k) false (toy_clock k + t)%Z, Poll.timeout) else None
  end.
#[export] Instance toy_stream : Stream.
Proof.
  refine {| K := toy; k_recv := toy_recv; k_send := toy_send;
    k_poll := toy_poll;
    k_now := fun k => (k, toy_clock k); inbox := toy_in; outbox := toy_out |}.
  - intros k n. unfold toy_recv. destruct (toy_ready k); [|done]. destruct (toy_in k) as [|x l] eqn:Hi; [done|].
    destruct n as [|n]; [done|]. split; [|done]. cbn [snd fst toy_in]. split; [by rewrite take_drop|].
    rewrite length_take. cbn. lia.
  - intros k b. unfold toy_send. destruct (toy_ready k); [|done]. cbn [fst snd toy_in toy_out]. split; [|done].
    split_and!; [lia| |done]. destruct b; [done|]. intros _. cbn. lia.
  - intros k op t k' st. unfold toy_poll. destruct op, (toy_in k) eqn:Hi; repeat case_match; intros [= <- <-]; cbn; by rewrite ?Hi.
  - intros k op t k' st. unfold toy_poll. destruct op, (toy_in k); repeat case_match; intros [= <- <-]; done.
  - intros k op t Ht. unfold toy_poll. apply Z.ltb_lt in Ht. rewrite Ht. by destruct op, (toy_in k).
  - done.
  - intros k n e. unfold toy_recv. destruct (toy_ready k); [destruct (toy_in k), n; try done|]; by intros [= <-].
  - intros k b e. unfold toy_send. destruct (toy_ready k); [done|]. by intros [= <-].
Defined.

Example read_exact_example :
  option_map snd (answered (read_exact 3 (mk_toy [1; 2; 3; 4]%Z [] false 0) new_client 1 3 100)) = Some (of_kind ok, [1; 2; 3]%Z, 3).
Proof. reflexivity. Qed.
Example read_exact_timeout_example :
  option_map snd (answered (read_exact 9 (mk_toy [1; 2; 3]%Z [] false 0) new_client 1 9 100)) =
  Some (of_kind IoStatus.timeout, [1; 2; 3]%Z, 3).
Proof. reflexivity. Qed.
Example read_exact_waits_example : read_exact 9 (mk_toy [1; 2; 3]%Z [] false 0) new_client 1 9 0 = Waits.
Proof. reflexivity. Qed.

Lemma read_exact_reads_the_stream_witness :
  let k := mk_toy [1; 2; 3; 4]%Z [] false 0 in
  exists k' c' status got span, read_exact 3 k new_client 1 3 100 = Answer (k', c', (status, got, span)) /\ [1; 2; 3; 4]%Z = got ++ toy_in k'.
Proof.
  intros k. destruct (@read_exact_reads_the_stream toy_stream k new_client 3 100%Z)
    as [(k' & c' & status & got & span & E & H & _)|[_ H]]; [|lia].
  exists k', c', status, got, span. split; [exact E|exact H].
Defined.

Lemma read_exact_span_overruns_witness :
  option_map snd (answered (read_exact 4 (mk_toy [1; 2; 3; 4]%Z [] false 0) new_client 4 1 100)) = Some (of_kind ok, [1; 2; 3; 4]%Z, 4) /\ 1 < 4.
Proof.
  destruct (@read_exact toy_stream 4 (mk_toy [1; 2; 3; 4]%Z [] false 0) new_client 4 1 100) as [[[k' c'] [[st got] span]]| |] eqn:E;
    [|vm_compute in E; discriminate..].
  assert (1 < span) as H.
  { apply (@read_exact_span_overruns toy_stream (mk_toy [1; 2; 3; 4]%Z [] false 0) new_client 4 1 100%Z k' c' st got span);
      [lia..|exact E|vm_compute in E; by injection E as _ _ <- _ _]. }
  vm_compute in E. injection E as <- <- <- <- <-. split; [reflexivity|exact H].
Defined.

Lemma write_all_sends_a_prefix_witness :
  let k := mk_toy [] [] false 0 in
  exists k' c' status sent rest, write_all 3 k new_client [7; 8; 9]%Z 100 = Answer (k', c', (status, rest)) /\ toy_out k' = sent.
Proof.
  intros k. destruct (@write_all_sends_a_prefix toy_stream k new_client [7; 8; 9]%Z 100%Z)
    as [(k' & c' & status & sent & rest & E & _ & H & _)|[_ H]]; [|lia].
  exists k', c', status, sent, rest. split; [exact E|exact H].
Defined.
End Tcp.

(** ** UDP peer *)
Module Udp.
Import IoStatus SocketAddress.

(** A datagram socket: recvfrom takes the next datagram, cut to the buffer; sendto hands
    over a whole one or nothing. *)
Class Datagram := {
  DK : Type;
  d_sendto : DK -> socket_address -> list Z -> DK * option Z;                    (* errno *)
  d_recvfrom : DK -> nat -> DK * (socket_address * list Z + Z);
  d_poll : DK -> Poll.poll_op -> Z -> option (DK * Poll.poll_status);            (* None: never returns *)
  d_in : DK -> list (socket_address * list Z);
  d_out : DK -> list (socket_address * list Z);
  sendto_whole k a b :
    d_out (fst (d_sendto k a b)) = d_out k ++ (match snd (d_sendto k a b) with None => [(a, b)] | Some _ => [] end) /\
    d_in (fst (d_sendto k a b)) = d_in k;
  recvfrom_next k n :
    match snd (d_recvfrom k n) with
    | inl (a, b) => exists d, d_in k = (a, d) :: d_in (fst (d_recvfrom k n)) /\ b = take n d
    | inr _ => d_in (fst (d_recvfrom k n)) = d_in k
    end /\ d_out (fst (d_recvfrom k n)) = d_out k;
  d_poll_quiet k op t k' st : d_poll k op t = Some (k', st) -> d_in k' = d_in k /\ d_out k' = d_out k;
  d_poll_asked k op t k' st : d_poll k op t = Some (k', st) ->
    (op = Poll.op_read -> st <> Poll.write) /\ (op = Poll.op_write -> st <> Poll.read);
  d_poll_returns k op t : (0 < t)%Z -> d_poll k op t <> None;
  d_errno_recv k n e : snd (d_recvfrom k n) = inr e -> e <> 0%Z;
  d_errno_send k a b e : snd (d_sendto k a b) = Some e -> e <> 0%Z
}.

Section peer.
Context `{!Datagram}.

Record peer := mk_peer { m_bound : bool; m_is_read_ready : bool; m_is_write_ready : bool }.
(** peer(scheduler, domain) and peer(scheduler, endpoint) *)
Definition new_peer : peer := mk_peer false false true.
Definition bound_peer : peer := mk_peer true false true.

Definition sendto (k : DK) (a : socket_address) (b : list Z) : DK * io_status :=
  let '(k1, e) := d_sendto k a b in
  (k1, match e with None => of_kind ok | Some e => make_io_status_from_native e end).

Definition recvfrom (k : DK) (n : nat) : DK * (io_status * socket_address * list Z) :=
  let '(k1, r) := d_recvfrom k n in
  (k1, match r with
       | inl (a, b) => (of_kind ok, a, b)
       | inr e => (make_io_status_from_native e, make_uninitialised, [])
       end).

Definition write_to (k : DK) (p : peer) (a : socket_address) (b : list Z) (timeout : Z) : answer (DK * peer * io_status) :=
  match b with
  | [] => Answer (k, p, of_kind ok)
  | _ =>
      then_do
        (try_then_poll (fun k => sendto k a b) try_again (fun k => d_poll k Poll.op_write timeout) Poll.write
          make_io_status_from_poll_status (m_is_write_ready p) k)
        (fun '(k1, f, r) => Answer (k1, mk_peer (m_bound p) (m_is_read_ready p) f, r))
  end.

Definition read_from (k : DK) (p : peer) (n : nat) (timeout : Z) : answer (DK * peer * (io_status * socket_address * list Z)) :=
  if negb (m_bound p) then Answer (k, p, (of_kind udp_not_bound, make_uninitialised, []))
  else if decide (n = 0) then Answer (k, p, (of_kind ok, make_uninitialised, []))
  else
    then_do
      (try_then_poll (fun k => recvfrom k n) (fun r => try_again (fst (fst r))) (fun k => d_poll k Poll.op_read timeout) Poll.read
        (fun st => (make_io_status_from_poll_status st, make_uninitialised, [])) (m_is_read_ready p) k)
      (fun '(k1, f, r) => Answer (k1, mk_peer (m_bound p) f (m_is_write_ready p), r)).

Lemma try_again_not_ok st : try_again st = true -> is_ok st = false.
Proof. unfold try_again, is_ok. by destruct (type st). Qed.

Lemma sendto_spec k a b :
  d_out (fst (sendto k a b)) = d_out k ++ (if is_ok (snd (sendto k a b)) then [(a, b)] else []) /\
  d_in (fst (sendto k a b)) = d_in k.
Proof.
  unfold sendto. destruct (sendto_whole k a b) as [H1 H2]. pose proof (d_errno_send k a b) as He.
  destruct (d_sendto k a b) as [k1 [e|]]; cbn in *; [|done]. rewrite Tcp.native_not_ok by (by apply He). done.
Qed.

Lemma recvfrom_spec k n :
  let '(k1, (st, a, b)) := recvfrom k n in
  (if is_ok st then exists d, d_in k = (a, d) :: d_in k1 /\ b = take n d else d_in k1 = d_in k /\ b = []) /\ d_out k1 = d_out k.
Proof.
  unfold recvfrom. destruct (recvfrom_next k n) as [H1 H2]. pose proof (d_errno_recv k n) as He.
  destruct (d_recvfrom k n) as [k1 [[a b]|e]]; cbn in *; [done|]. rewrite Tcp.native_not_ok by (by apply He). done.
Qed.

(** A poll that was given a timeout returns. *)
Lemma waits_untimed op t : (exists k, d_poll k op t = None) -> (t <= 0)%Z.
Proof. intros [k Hk]. destruct (Z.le_gt_cases t 0) as [|Ht]; [done|]. by destruct (d_poll_returns k op t Ht). Qed.

(** A UDP peer keeps datagrams whole: when write_to returns it has handed over exactly the
    given datagram, with status ok, or nothing; when read_from on a bound peer with a
    non-empty buffer returns, its status is ok exactly when it took the next datagram off
    the socket, with its sender and its first bytes, and it has taken nothing otherwise; on
    a peer that is not bound it says so and touches nothing; both return if they are given a
    timeout. *)
Theorem udp_datagrams_whole k p a b n timeout :
  b <> [] -> 0 < n ->
  match write_to k p a b timeout with
  | Answer (k', p', st) => d_out k' = d_out k ++ (if is_ok st then [(a, b)] else []) /\ d_in k' = d_in k
  | Waits => (timeout <= 0)%Z
  | OutOfFuel => False
  end /\
  match read_from k p n timeout with
  | Answer (k', p', (st, from, got)) =>
      d_out k' = d_out k /\
      (if is_ok st then exists d, d_in k = (from, d) :: d_in k' /\ got = take n d else d_in k' = d_in k /\ got = []) /\
      (m_bound p = false -> st = of_kind udp_not_bound /\ k' = k)
  | Waits => (timeout <= 0)%Z
  | OutOfFuel => False
  end.
Proof.
  intros Hb Hn. split.
  - unfold write_to. destruct b as [|x b]; [done|]. set (dg := x :: b) in *.
    destruct (try_then_poll_answers (fun k => sendto k a dg) try_again (fun k => d_poll k Poll.op_write timeout) Poll.write
      make_io_status_from_poll_status (m_is_write_ready p) k) as [(k1 & f & r & E)|[E Hw]]; rewrite E; cbn [then_do];
      [|by apply (waits_untimed Poll.op_write)].
    eapply (try_then_poll_spec (fun k => (d_in k, d_out k)) (fun s r s' => snd s' = snd s ++ (if is_ok r then [(a, dg)] else []) /\ fst s' = fst s)
      (fun st => st <> Poll.read)) in E.
    + destruct E as [E|(st & Hne & Hne' & -> & [= -> ->])]; [done|]. split; [|done].
      destruct st; try done; by rewrite app_nil_r.
    + intros k0. apply sendto_spec.
    + intros k0 Ha%try_again_not_ok. destruct (sendto_spec k0 a dg) as [H1 H2]. rewrite Ha, app_nil_r in H1. by rewrite H1, H2.
    + intros k0 k2 st Hp. destruct (d_poll_quiet _ _ _ _ _ Hp) as [-> ->]. split; [done|]. by apply (d_poll_asked _ _ _ _ _ Hp).
  - unfold read_from. destruct (m_bound p) eqn:Hbd; cbn [negb]; [|done]. rewrite decide_False by lia.
    destruct (try_then_poll_answers (fun k => recvfrom k n) (fun r => try_again (fst (fst r))) (fun k => d_poll k Poll.op_read timeout) Poll.read
        (fun st => (make_io_status_from_poll_status st, make_uninitialised, [])) (m_is_read_ready p) k)
      as [(k1 & f & [[st from] got] & E)|[E Hw]]; rewrite E; cbn [then_do]; [|by apply (waits_untimed Poll.op_read)].
    eapply (try_then_poll_spec (fun k => (d_in k, d_out k)) (fun s r s' => snd s' = snd s /\
        (if is_ok (fst (fst r)) then exists d, fst s = (snd (fst r), d) :: fst s' /\ snd r = take n d else fst s' = fst s /\ snd r = []))
      (fun st => st <> Poll.write)) in E.
    + destruct E as [[E1 E2]|(st' & Hne & Hne' & [= -> -> ->] & [= -> ->])]; [done|]. split_and!; [done| |done]. by destruct st'.
    + intros k0. pose proof (recvfrom_spec k0 n) as Hr. destruct (recvfrom k0 n) as [k2 [[st0 a0] b0]]. destruct Hr as [H1 H2]. done.
    + intros k0 Ha%try_again_not_ok. pose proof (recvfrom_spec k0 n) as Hr. destruct (recvfrom k0 n) as [k2 [[st0 a0] b0]]. cbn in *.
      rewrite Ha in Hr. destruct Hr as [[H1 _] H2]. by rewrite H1, H2.
    + intros k0 k2 st0 Hp. destruct (d_poll_quiet _ _ _ _ _ Hp) as [-> ->]. split; [done|]. by apply (d_poll_asked _ _ _ _ _ Hp).
Qed.
End peer.

(** *** A datagram socket, for evaluation *)
Record toy := mk_toy { toy_in : list (socket_address * list Z); toy_out : list (socket_address * list Z) }.
#[export] Instance toy_datagram : Datagram.
Proof.
  refine {| DK := toy;
    d_sendto := fun k a b => (mk_toy (toy_in k) (toy_out k ++ [(a, b)]), None);
    d_recvfrom := fun k n => match toy_in k with [] => (k, inr EAGAIN) | (a, d) :: l => (mk_toy l (toy_out k), inl (a, take n d)) end;
    d_poll := fun k op t =>
      match op, toy_in k with
      | Poll.op_write, _ => Some (k, Poll.write)
      | _, _ :: _ => Some (k, Poll.read)
      | _, [] => if (0 <? t)%Z then Some (k, Poll.timeout) else None
      end;
    d_in := toy_in; d_out := toy_out |}.
  - done.
  - intros k n. destruct (toy_in k) as [|[a d] l] eqn:Hi; cbn; rewrite ?Hi; [done|]. split; [|done]. eauto.
  - intros k op t k' st. destruct op, (toy_in k) eqn:Hi; repeat case_match; intros [= <- <-]; cbn; by rewrite ?Hi.
  - intros k op t k' st. destruct op, (toy_in k); repeat case_match; intros [= <- <-]; done.
  - intros k op t Ht. apply Z.ltb_lt in Ht. rewrite Ht. by destruct op, (toy_in k).
  - intros k n e. destruct (toy_in k) as [|[a d] l]; [by intros [= <-]|done].
  - done.
Defined.

Lemma udp_datagrams_whole_witness :
  let a := SocketAddress.make (IpAddress.mk_ip ipv4 (replicate 16 0%Z)) 53 in
  let k : DK := mk_toy [(a, [1; 2; 3]%Z)] [] in
  match write_to k bound_peer a [9]%Z 0 with
  | Answer (k', _, st) => d_out k' = d_out k ++ (if is_ok st then [(a, [9]%Z)] else []) /\ d_in k' = d_in k
  | Waits => (0 <= 0)%Z
  | OutOfFuel => False
  end.
Proof. intros a k. exact (proj1 (udp_datagrams_whole k bound_peer a [9]%Z 2 0 ltac:(done) ltac:(lia))). Defined.

Example read_from_example :
  let a := SocketAddress.make (IpAddress.mk_ip ipv4 (replicate 16 0%Z)) 53 in
  let k : DK := mk_toy [(a, [1; 2; 3]%Z)] [] in
  option_map (fun '(k', _, (_, _, got)) => (d_in k', got)) (answered (read_from k bound_peer 2 0)) = Some ([], [1; 2]%Z).
Proof. reflexivity. Qed.
End Udp.

(** ** TCP server *)
Module Server.
Import IoStatus SocketAddress.

(** A listening socket: accept takes the next connection of the backlog. *)
Class Listener := {
  LK : Type;
  l_accept : LK -> LK * (nat * socket_address + Z);
  l_poll : LK -> Z -> option (LK * Poll.poll_status);                            (* None: never returns *)
  backlog : LK -> list (nat * socket_address);
  accept_next k :
    match snd (l_accept k) with
    | inl c => backlog k = c :: backlog (fst (l_accept k))
    | inr _ => backlog (fst (l_accept k)) = backlog k
    end;
  l_poll_quiet k t k' st : l_poll k t = Some (k', st) -> backlog k' = backlog k
}.

Section server.
Context `{!Listener}.

(** accept_now and accept: a connection (descriptor and endpoint), or the status *)
Definition accept_now (k : LK) : LK * (nat * socket_address + io_status) :=
  let '(k1, r) := l_accept k in
  (k1, match r with inl c => inl c | inr e => inr (make_io_status_from_native e) end).

Definition accept (k : LK) (m_is_read_ready : bool) (timeout : Z) : answer (LK * bool * (nat * socket_address + io_status)) :=
  try_then_poll accept_now (fun r => match r with inl _ => false | inr st => try_again st end)
    (fun k => l_poll k timeout) Poll.read (fun st => inr (make_io_status_from_poll_status st)) m_is_read_ready k.

(** accept() hands out the next connection of the backlog, or none and leaves them all. *)
Lemma accept_in_order k ready timeout k' f r : accept k ready timeout = Answer (k', f, r) ->
  match r with inl c => backlog k = c :: backlog k' | inr _ => backlog k' = backlog k end.
Proof.
  intros E. eapply (try_then_poll_spec backlog
    (fun b r b' => match r with inl c => b = c :: b' | inr _ => b' = b end) (fun _ => True)) in E.
  - destruct E as [E|(st & _ & _ & -> & E)]; done.
  - intros k0. unfold accept_now. pose proof (accept_next k0) as Hn. by destruct (l_accept k0) as [k1 [c|e]].
  - intros k0. unfold accept_now. pose proof (accept_next k0) as Hn. by destruct (l_accept k0) as [k1 [c|e]].
  - intros k0 k2 st Hp. split; [by apply (l_poll_quiet _ _ _ _ Hp)|done].
Qed.
End server.
End Server.
