(* ===== verification/NetObjects.v ===== *)
(** * tcp::client, tcp::server and udp::peer as objects (src/net/tcp/client.cpp,
    src/net/tcp/server.cpp, src/net/udp/peer.cpp)

    Their constructors, copies, moves, assignments and destructors, over the sockets of
    [Fd.Socket]: an operation on an object is the operations its socket member goes through,
    which are the events of the transition system, and a change of the other members. *)
From stdpp Require Import base list relations option numbers.
From Stdlib Require Import ZArith Lia.
From S2P Require Import Prelude Task Fd NetIo.

Module NetObjects.
Import Ownership.
Import Tcp (connect_status, connected).

Inductive kind := KClient | KServer | KPeer.

#[export] Instance net_kind_eq_dec : EqDecision kind.
Proof. solve_decision. Defined.

(** The members that are not the socket; [m_scheduler]: it is not null *)
Record object := mk_object {
  kind_of : kind;
  m_scheduler : bool;
  m_connect_status : option connect_status;   (* of a client *)
  m_bound : bool;                             (* of a peer *)
  m_is_read_ready : bool;
  m_is_write_ready : bool
}.

(** The constructors; [None]: they throw, with the socket already there *)
Definition new_client (scheduler : bool) : option object :=
  if negb scheduler then None else Some (mk_object KClient scheduler None false false false).
Definition accepted_client (scheduler : bool) : object := mk_object KClient scheduler (Some connected) false false false.
Definition new_server (scheduler : bool) : option object :=
  if negb scheduler then None else Some (mk_object KServer scheduler None false false false).
Definition new_peer (scheduler bound : bool) : option object :=
  if negb scheduler then None else Some (mk_object KPeer scheduler None bound false true).

(** client(const client&), client(client&&) and the assignments.  The flags of readiness are
    left to the member initialisers, or as they were. *)
Definition client_copy (o : object) : object := mk_object KClient (m_scheduler o) (m_connect_status o) false false false.
Definition client_move (o : object) : object * object :=
  (mk_object KClient (m_scheduler o) (m_connect_status o) false false false,
   mk_object KClient (m_scheduler o) None (m_bound o) (m_is_read_ready o) (m_is_write_ready o)).
Definition client_copy_assign (self o : object) : object :=
  mk_object KClient (m_scheduler o) (m_connect_status o) (m_bound self) (m_is_read_ready self) (m_is_write_ready self).
Definition client_move_assign (self o : object) : object * object :=
  (mk_object KClient (m_scheduler o) (m_connect_status o) (m_bound self) (m_is_read_ready self) (m_is_write_ready self),
   mk_object KClient false None (m_bound o) (m_is_read_ready o) (m_is_write_ready o)).

(** server(server&&) and its assignment *)
Definition server_move (o : object) : object * object :=
  (mk_object KServer (m_scheduler o) None false false false,
   mk_object KServer false None (m_bound o) (m_is_read_ready o) (m_is_write_ready o)).
Definition server_move_assign (self o : object) : object * object :=
  (mk_object KServer (m_scheduler o) None (m_bound self) (m_is_read_ready self) (m_is_write_ready self),
   mk_object KServer false None (m_bound o) (m_is_read_ready o) (m_is_write_ready o)).

(** peer(peer&&), the assignments, and the defaulted copy *)
Definition peer_copy (o : object) : object := o.
Definition peer_move (o : object) : object * object :=
  (mk_object KPeer (m_scheduler o) None (m_bound o) false true,
   mk_object KPeer false None (m_bound o) (m_is_read_ready o) (m_is_write_ready o)).
Definition peer_move_assign (self o : object) : object * object :=
  (mk_object KPeer (m_scheduler o) None (m_bound o) (m_is_read_ready self) (m_is_write_ready self),
   mk_object KPeer false None (m_bound o) (m_is_read_ready o) (m_is_write_ready o)).
Definition peer_copy_assign (self o : object) : object :=
  mk_object KPeer (m_scheduler o) None (m_bound o) (m_is_read_ready self) (m_is_write_ready self).

(** By class; [None]: a deleted function *)
Definition make (k : kind) (scheduler bound : bool) : option object :=
  match k with KClient => new_client scheduler | KServer => new_server scheduler | KPeer => new_peer scheduler bound end.
Definition copy (o : object) : option object :=
  match kind_of o with KClient => Some (client_copy o) | KServer => None | KPeer => Some (peer_copy o) end.
Definition move (o : object) : object * object :=
  match kind_of o with KClient => client_move o | KServer => server_move o | KPeer => peer_move o end.
Definition copy_assign (self o : object) : option object :=
  match kind_of o with KClient => Some (client_copy_assign self o) | KServer => None | KPeer => Some (peer_copy_assign self o) end.
Definition move_assign (self o : object) : object * object :=
  match kind_of o with
  | KClient => client_move_assign self o | KServer => server_move_assign self o | KPeer => peer_move_assign self o
  end.

Record state := mk_state { socks : Ownership.state; objs : nat -> option object }.
Definition init : state := mk_state Ownership.init (fun _ => None).

Inductive label :=
| New (x : nat) (k : kind) (scheduler bound : bool)
| Accept (x y : nat)                       (* server y accepts a client x *)
| Copy (x y : nat) (dup : bool)            (* [dup]: the duplication of the descriptor succeeds *)
| Move (x y : nat)
| CopyAssign (x y : nat) (dup : bool)
| MoveAssign (x y : nat)
| Destroy (x : nat).

(** The socket operations of a step, and the members afterwards *)
Definition apply (s : state) (ops : list Socket.op) (objs : nat -> option object) : option (state * list Socket.op) :=
  match Socket.run ops (socks s) with Some k => Some (mk_state k objs, ops) | None => None end.

Definition exec (l : label) (s : state) : option (state * list Socket.op) :=
  match l with
  | New x k scheduler bound =>
      match objs s x with
      | Some _ => None
      | None =>
          match make k scheduler bound with
          | Some o => apply s [Socket.SMake x] ((objs s).[x ↦ Some o])
          | None => apply s [Socket.SMake x; Socket.SDtor x] (objs s)
          end
      end
  | Accept x y =>
      match objs s x, objs s y, obj (socks s) y with
      | None, Some o, Some (Some _) =>     (* ::accept has succeeded on an open descriptor *)
          if decide (kind_of o = KServer)
          then apply s [Socket.SMake x] ((objs s).[x ↦ Some (accepted_client (m_scheduler o))]) else None
      | _, _, _ => None
      end
  | Copy x y dup =>
      match objs s x, objs s y with
      | None, Some o => match copy o with Some o' => apply s [Socket.SCopy x y dup] ((objs s).[x ↦ Some o']) | None => None end
      | _, _ => None
      end
  | Move x y =>
      match objs s x, objs s y with
      | None, Some o => apply s [Socket.SMove x y] ((objs s).[y ↦ Some (snd (move o))].[x ↦ Some (fst (move o))])
      | _, _ => None
      end
  | CopyAssign x y dup =>
      match objs s x, objs s y with
      | Some self, Some o =>
          if decide (x = y) then Some (s, [])
          else if decide (kind_of self = kind_of o) then
            match copy_assign self o with Some o' => apply s [Socket.SCopyAssign x y dup] ((objs s).[x ↦ Some o']) | None => None end
          else None
      | _, _ => None
      end
  | MoveAssign x y =>
      match objs s x, objs s y with
      | Some self, Some o =>
          if decide (x = y) then Some (s, [])
          else if decide (kind_of self = kind_of o) then
            apply s [Socket.SMoveAssign x y] ((objs s).[y ↦ Some (snd (move_assign self o))].[x ↦ Some (fst (move_assign self o))])
          else None
      | _, _ => None
      end
  | Destroy x =>
      match objs s x with
      | Some _ => apply s [Socket.SDtor x] ((objs s).[x ↦ None])
      | None => None
      end
  end.

(** ** Correctness *)

(** An object is there exactly when its socket is, and has a scheduler when the socket has a
    descriptor: what polls is never without one. *)
Record net_inv (s : state) : Prop := {
  ni_live : forall x, objs s x = None <-> obj (socks s) x = None;
  ni_sched : forall x c o, owns (socks s) x c -> objs s x = Some o -> m_scheduler o = true
}.

Lemma net_init : net_inv init.
Proof. by constructor. Qed.

(** What the members say about the scheduler. *)
Lemma move_scheduler o : m_scheduler (fst (move o)) = m_scheduler o.
Proof. unfold move. by destruct (kind_of o). Qed.
Lemma move_assign_scheduler self o : m_scheduler (fst (move_assign self o)) = m_scheduler o.
Proof. unfold move_assign. by destruct (kind_of o). Qed.
Lemma copy_scheduler o o' : copy o = Some o' -> m_scheduler o' = m_scheduler o.
Proof. unfold copy. destruct (kind_of o); intros [= <-]; done. Qed.
Lemma copy_assign_scheduler self o o' : copy_assign self o = Some o' -> m_scheduler o' = m_scheduler o.
Proof. unfold copy_assign. destruct (kind_of o); intros [= <-]; done. Qed.
Lemma make_scheduler k sch b o : make k sch b = Some o -> m_scheduler o = true.
Proof. destruct k, sch; by intros [= <-]. Qed.

(** A step of one object: its socket and its members change, the others stay. *)
Lemma net_inv_set s k x o : net_inv s ->
  (forall z, z <> x -> obj k z = obj (socks s) z) -> obj k x <> None ->
  (forall c, obj k x = Some (Some c) -> m_scheduler o = true) -> net_inv (mk_state k ((objs s).[x ↦ Some o])).
Proof.
  intros [Hl Hs] Hz Hx Ho. constructor; cbn.
  - intros z. upd_cases; [done|]. by rewrite Hz.
  - intros z c o'. unfold owns. upd_cases; [intros ? [= <-]; by eapply Ho|]. rewrite Hz by done. apply Hs.
Qed.

(** A step that takes the socket of [y] to [x]. *)
Lemma net_inv_take s k x y h o o1 o2 : net_inv s -> x <> y -> objs s y = Some o -> m_scheduler o1 = m_scheduler o ->
  obj (socks s) y = Some h -> obj k = (obj (socks s)).[y ↦ Some None].[x ↦ Some h] ->
  net_inv (mk_state k ((objs s).[y ↦ Some o2].[x ↦ Some o1])).
Proof.
  intros [Hl Hs] Hne Ho H1 Hy Hk. constructor; cbn; rewrite ?Hk.
  - intros z. unfold upd. by repeat case_decide.
  - intros z c o'. unfold owns. rewrite Hk. unfold upd. repeat case_decide; [|done|apply Hs].
    intros [= ->] [= <-]. rewrite H1. by apply (Hs y c).
Qed.

(** The step is its socket operations and the new members. *)
Lemma apply_inv s ops f s' ops' : apply s ops f = Some (s', ops') -> Socket.run ops (socks s) = Some (socks s') /\ ops' = ops /\ objs s' = f.
Proof. unfold apply. destruct (Socket.run ops (socks s)) eqn:E; [|done]. by intros [= <- <-]. Qed.

(** The copies of a socket: the target is there, with a descriptor only if the source has one. *)
Lemma dup_obj k x h d : obj (Socket.dup_into k x h d) x <> None /\
  (forall z, z <> x -> obj (Socket.dup_into k x h d) z = obj k z) /\
  (forall c, obj (Socket.dup_into k x h d) x = Some (Some c) -> h <> None).
Proof.
  unfold Socket.dup_into. destruct h as [c|]; [destruct d|]; cbn; rewrite upd_eq; (split; [done|]); split; try done; intros; by rewrite upd_ne.
Qed.

Lemma net_step_inv l s s' ops : net_inv s -> exec l s = Some (s', ops) -> net_inv s'.
Proof.
  intros I. pose proof I as [Hl Hs]. destruct s' as [k f].
  destruct l as [x kd sch b|x y|x y d|x y|x y d|x y|x]; cbn -[apply move move_assign].
  - destruct (objs s x) eqn:Hx; [done|]. pose proof (proj1 (Hl x) Hx) as Hox.
    destruct (make kd sch b) as [o|] eqn:Hm; intros (Hr & _ & Hf)%apply_inv; cbn in Hr, Hf; subst f; rewrite Hox in Hr; cbn in Hr.
    + injection Hr as <-. apply net_inv_set; cbn; rewrite ?upd_eq; try done; [intros; by rewrite upd_ne|]. intros c _. by eapply make_scheduler.
    + rewrite upd_eq in Hr. cbn in Hr. injection Hr as <-. constructor; cbn.
      * intros z. unfold upd. repeat case_decide; subst; [by rewrite Hx|apply Hl].
      * intros z c o. unfold owns. cbn. unfold upd. repeat case_decide; [done|apply Hs].
  - destruct (objs s x) eqn:Hx; [done|]. pose proof (proj1 (Hl x) Hx) as Hox. destruct (objs s y) as [o|] eqn:Hy; [|done].
    destruct (obj (socks s) y) as [[e|]|] eqn:Hoy; try done. case_decide as Hk; [|done]. intros (Hr & _ & Hf)%apply_inv. cbn in Hr, Hf. subst f. rewrite Hox in Hr. injection Hr as <-.
    apply net_inv_set; cbn; rewrite ?upd_eq; try done; [intros; by rewrite upd_ne|].
    intros c _. cbn. by apply (Hs y e).
  - destruct (objs s x) eqn:Hx; [done|]. pose proof (proj1 (Hl x) Hx) as Hox. destruct (objs s y) as [o|] eqn:Hy; [|done].
    destruct (copy o) as [o'|] eqn:Hc; [|done]. intros (Hr & _ & Hf)%apply_inv. cbn in Hr, Hf. subst f. rewrite Hox in Hr.
    destruct (obj (socks s) y) as [h|] eqn:Hoy; [|done]. injection Hr as <-. destruct (dup_obj (socks s) x h d) as (H1 & H2 & H3).
    apply net_inv_set; try done. intros c Hco. rewrite (copy_scheduler _ _ Hc). destruct h as [e|]; [|by apply H3 in Hco].
    by apply (Hs y e).
  - destruct (objs s x) eqn:Hx; [done|]. pose proof (proj1 (Hl x) Hx) as Hox. destruct (objs s y) as [o|] eqn:Hy; [|done].
    intros (Hr & _ & Hf)%apply_inv. cbn -[move] in Hr, Hf. subst f. rewrite Hox in Hr. destruct (obj (socks s) y) as [h|] eqn:Hoy; [|done].
    injection Hr as <-. eapply (net_inv_take _ _ _ _ h o); [done|congruence|done|apply move_scheduler|done|done].
  - destruct (objs s x) as [self|] eqn:Hx; [|done]. destruct (objs s y) as [o|] eqn:Hy; [|done]. case_decide; [by intros [= <- <-]|].
    case_decide; [|done]. destruct (copy_assign self o) as [o'|] eqn:Hc; [|done]. intros (Hr & _ & Hf)%apply_inv. cbn in Hr, Hf. subst f.
    destruct (obj (socks s) x) as [hx|] eqn:Hox; [|done]. unfold Socket.copy_assign in Hr.
    assert (forall z, z <> x -> obj (Socket.close (socks s) x hx) z = obj (socks s) z) as Hcl.
    { intros z Hz. unfold Socket.close, destroy. destruct hx; cbn; [by rewrite upd_ne|done]. }
    rewrite Hcl in Hr by done. destruct (obj (socks s) y) as [hy|] eqn:Hoy; [|done]. injection Hr as <-.
    destruct (dup_obj (Socket.close (socks s) x hx) x hy d) as (H1 & H2 & H3). apply net_inv_set; try done.
    + intros z Hz. rewrite H2, Hcl by done. done.
    + intros c Hco. rewrite (copy_assign_scheduler _ _ _ Hc). destruct hy as [e|]; [|by apply H3 in Hco]. by apply (Hs y e).
  - destruct (objs s x) as [self|] eqn:Hx; [|done]. destruct (objs s y) as [o|] eqn:Hy; [|done]. case_decide as Hne; [by intros [= <- <-]|].
    case_decide; [|done]. intros (Hr & _ & Hf)%apply_inv. cbn -[move_assign] in Hr, Hf. subst f.
    destruct (obj (socks s) x) as [hx|] eqn:Hox; [|done]. destruct (obj (socks s) y) as [h|] eqn:Hoy; [|done].
    injection Hr as <-. unfold sync_wait_move_assign. rewrite decide_False by done.
    eapply (net_inv_take _ _ _ _ h o); [done|done|done|apply move_assign_scheduler|done|done].
  - destruct (objs s x) as [self|] eqn:Hx; [|done]. intros (Hr & _ & Hf)%apply_inv. cbn in Hr, Hf. subst f.
    destruct (obj (socks s) x) as [hx|] eqn:Hox; [|done]. injection Hr as <-. constructor; cbn.
    + intros z. destruct hx; cbn; unfold upd; by repeat case_decide.
    + intros z c o. unfold owns. cbn. destruct hx; cbn; unfold upd; repeat case_decide; try done; apply Hs.
Qed.

Lemma net_step_socks l s s' ops : exec l s = Some (s', ops) -> Socket.run ops (socks s) = Some (socks s').
Proof.
  destruct l as [x kd sch b|x y|x y d|x y|x y d|x y|x]; cbn -[apply move move_assign]; repeat case_match; try done;
    solve [by intros (? & -> & _)%apply_inv | by intros [= <- <-]].
Qed.

Lemma socket_run_app l1 l2 s : Socket.run (l1 ++ l2) s = match Socket.run l1 s with Some s' => Socket.run l2 s' | None => None end.
Proof. revert s. induction l1 as [|o l1 IH]; intros s; cbn; [done|]. by destruct (Socket.exec o s). Qed.

Lemma net_reach s tr : reach exec init s tr -> net_inv s /\ Socket.run tr Ownership.init = Some (socks s).
Proof.
  revert s tr. apply (reach_inv exec (fun s tr => net_inv s /\ Socket.run tr Ownership.init = Some (socks s))).
  - split; [apply net_init|done].
  - intros s tr l s' ev [Hi Hr] He. split; [by eapply net_step_inv|]. rewrite socket_run_app, Hr. by eapply net_step_socks.
Qed.

(** [C37] Clients, servers and peers handle their descriptors as sockets do: whatever is done with
    them is a sequence of socket operations, so no descriptor is closed twice and none is
    used by two objects or after it was closed; if no open object is overwritten by a move
    assignment, every descriptor is closed exactly once when the objects are gone.  An object
    that has a descriptor has a scheduler to poll it with. *)
Theorem net_objects_own_their_descriptors s tr :
  reach exec init s tr ->
  Socket.run tr Ownership.init = Some (socks s) /\ NoDup (destroyed (socks s)) /\
  (forall x c, owns (socks s) x c -> c ∉ destroyed (socks s) /\ exists o, objs s x = Some o /\ m_scheduler o = true) /\
  (forall x y c, owns (socks s) x c -> owns (socks s) y c -> x = y) /\
  (Socket.all_harmless tr Ownership.init = true -> (forall x, objs s x = None) ->
     forall c, c < fresh (socks s) -> occ c (destroyed (socks s)) = 1).
Proof.
  intros Hr. destruct (net_reach s tr Hr) as [[Hl Hs] Hrun]. destruct init_inv as [Hs0 Hk0].
  destruct (Socket.run_ok _ _ _ Hrun Hs0) as [[A B C D] Hk]. split_and!; [done|done| |done|].
  - intros x c Hx. split; [by destruct (A x c Hx)|]. destruct (objs s x) as [o|] eqn:Ho; [|apply Hl in Ho; unfold owns in Hx; congruence].
    exists o. split; [done|]. by apply (Hs x c).
  - intros Hh Hgone c Hc. destruct (Hk Hh Hk0 c Hc) as [Hin|[x Hx]]; [by apply occ_nodup|].
    pose proof (proj1 (Hl x) (Hgone x)). unfold owns in Hx. congruence.
Qed.

(** A server accepts a client, which is copied and moved; all of it is destroyed. *)
Definition life : list label :=
  [New 0 KServer true false; Accept 1 0; Copy 2 1 true; Move 3 1; CopyAssign 1 3 true; New 5 KPeer false true;
   Destroy 0; Destroy 1; Destroy 2; Destroy 3].

Lemma net_objects_own_their_descriptors_witness :
  exists s tr, Prelude.run exec life init = Some (s, tr) /\ fresh (socks s) = 5 /\ NoDup (destroyed (socks s)).
Proof.
  destruct (Prelude.run exec life init) as [[s tr]|] eqn:E; [|vm_compute in E; discriminate].
  exists s, tr. split; [reflexivity|]. split; [vm_compute in E; injection E as <- _; reflexivity|].
  exact (proj1 (proj2 (net_objects_own_their_descriptors s tr (run_reach _ _ _ _ _ E)))).
Defined.

(** A move assignment over a client that has a socket leaks the descriptor. *)
Theorem net_move_assign_leaks :
  exists s tr, Prelude.run exec [New 0 KClient true false; New 1 KClient true false; MoveAssign 0 1; Destroy 0; Destroy 1] init = Some (s, tr) /\
    fresh (socks s) = 2 /\ destroyed (socks s) = [1].
Proof. do 2 eexists. split; [vm_compute; reflexivity|]. done. Qed.

(** After a move construction the client it was made from still has its scheduler, after a
    move assignment it has none. *)
Lemma client_moves_differ self o : kind_of o = KClient ->
  m_scheduler (snd (move o)) = m_scheduler o /\ m_scheduler (snd (move_assign self o)) = false.
Proof. intros Hk. unfold move, move_assign. by rewrite Hk. Qed.
End NetObjects.
