(* ===== verification/Tls.v ===== *)
(** * TLS (include/coro/net/tls/client.hpp, src/net/tls/client.cpp,
    include/coro/net/tls/server.hpp, src/net/tls/server.cpp, src/net/tls/context.cpp,
    recv_status, send_status and connection_status of the same directories)

    [TlsStatus] has the enumerations, [TlsClient] the client over an interface of OpenSSL, of the
    socket and of scheduler::poll (the class [Ssl]), [TlsServer] and [TlsContext] the rest.  The
    loops of recv, send, the handshake and the shutdown go on for as long as OpenSSL asks
    for more, so they have fuel; that they end, and that they do not, is proved about them.
    A poll without a timeout need never return, and then neither does the operation
    ([Waits]). *)
From stdpp Require Import base list option numbers sets strings.
From Stdlib Require Import ZArith Lia.
From S2P Require Import Prelude IoNotifier.

Module TlsStatus.
Local Open Scope Z_scope.

(** The results of SSL_get_error, <openssl/ssl.h> *)
Definition SSL_ERROR_NONE : Z := 0.
Definition SSL_ERROR_SSL : Z := 1.
Definition SSL_ERROR_WANT_READ : Z := 2.
Definition SSL_ERROR_WANT_WRITE : Z := 3.
Definition SSL_ERROR_WANT_X509_LOOKUP : Z := 4.
Definition SSL_ERROR_SYSCALL : Z := 5.
Definition SSL_ERROR_ZERO_RETURN : Z := 6.
Definition SSL_ERROR_WANT_CONNECT : Z := 7.
Definition SSL_ERROR_WANT_ACCEPT : Z := 8.

(** recv_status : int64_t; a value need not be an enumerator, an error code of OpenSSL is
    cast to it. *)
Inductive recv_status :=
| ok | buffer_is_empty | timeout | cancelled | closed | error | want_read | want_write | want_connect | want_accept
| want_x509_lookup | error_syscall.
Definition recv_value (s : recv_status) : Z :=
  match s with
  | ok => SSL_ERROR_NONE
  | buffer_is_empty => -3
  | timeout => -4
  | cancelled => -5
  | closed => SSL_ERROR_ZERO_RETURN
  | error => SSL_ERROR_SSL
  | want_read => SSL_ERROR_WANT_READ
  | want_write => SSL_ERROR_WANT_WRITE
  | want_connect => SSL_ERROR_WANT_CONNECT
  | want_accept => SSL_ERROR_WANT_ACCEPT
  | want_x509_lookup => SSL_ERROR_WANT_X509_LOOKUP
  | error_syscall => SSL_ERROR_SYSCALL
  end.

(** send_status has the same enumerators with the same values. *)
Definition send_value (s : recv_status) : Z :=
  match s with
  | ok => SSL_ERROR_NONE
  | buffer_is_empty => -3
  | timeout => -4
  | cancelled => -5
  | closed => SSL_ERROR_ZERO_RETURN
  | error => SSL_ERROR_SSL
  | want_read => SSL_ERROR_WANT_READ
  | want_write => SSL_ERROR_WANT_WRITE
  | want_connect => SSL_ERROR_WANT_CONNECT
  | want_accept => SSL_ERROR_WANT_ACCEPT
  | want_x509_lookup => SSL_ERROR_WANT_X509_LOOKUP
  | error_syscall => SSL_ERROR_SYSCALL
  end.

(** to_string: the switch over the value, in the order of its cases *)
Definition recv_to_string (v : Z) : string :=
  if v =? recv_value ok then "ok" else if v =? recv_value buffer_is_empty then "buffer_is_empty"
  else if v =? recv_value timeout then "timeout" else if v =? recv_value closed then "closed"
  else if v =? recv_value error then "error" else if v =? recv_value cancelled then "cancelled"
  else if v =? recv_value want_read then "want_read" else if v =? recv_value want_write then "want_write"
  else if v =? recv_value want_connect then "want_connect" else if v =? recv_value want_accept then "want_accept"
  else if v =? recv_value want_x509_lookup then "want_x509_lookup"
  else if v =? recv_value error_syscall then "error_syscall" else "unknown".
Definition send_to_string (v : Z) : string :=
  if v =? send_value ok then "ok" else if v =? send_value buffer_is_empty then "buffer_is_empty"
  else if v =? send_value timeout then "timeout" else if v =? send_value closed then "closed"
  else if v =? send_value error then "error" else if v =? send_value cancelled then "cancelled"
  else if v =? send_value want_read then "want_read" else if v =? send_value want_write then "want_write"
  else if v =? send_value want_connect then "want_connect" else if v =? send_value want_accept then "want_accept"
  else if v =? send_value want_x509_lookup then "want_x509_lookup"
  else if v =? send_value error_syscall then "error_syscall" else "unknown".

Inductive connection_status :=
| connected | not_connected | context_required | resource_allocation_failed | set_fd_failure | handshake_failed
| conn_timeout | poll_error | unexpected_close | invalid_ip_address | conn_error.
Definition connection_to_string (s : connection_status) : string :=
  match s with
  | connected => "connected" | not_connected => "not_connected" | context_required => "context_required"
  | resource_allocation_failed => "resource_allocation_failed" | set_fd_failure => "set_fd_failure"
  | handshake_failed => "handshake_failed" | conn_timeout => "timeout" | poll_error => "poll_error"
  | unexpected_close => "unexpected_close" | invalid_ip_address => "invalid_ip_address" | conn_error => "error"
  end.

(** The enumerators are distinct values, so the switch reaches the name of each, the names
    tell them apart, and every other value - the newer error codes of OpenSSL among them -
    is unknown. *)
Lemma recv_value_inj a b : recv_value a = recv_value b -> a = b.
Proof. by destruct a, b. Qed.
Lemma recv_to_string_inj a b : recv_to_string (recv_value a) = recv_to_string (recv_value b) -> a = b.
Proof. by destruct a, b. Qed.
Lemma recv_to_string_unknown v : recv_to_string v = "unknown" <-> forall s, v <> recv_value s.
Proof.
  split.
  - intros H s ->. by destruct s.
  - intros H. unfold recv_to_string.
    repeat match goal with |- context [v =? recv_value ?s] => rewrite (proj2 (Z.eqb_neq v (recv_value s)) (H s)) end. done.
Qed.
Lemma send_is_recv v : send_to_string v = recv_to_string v.
Proof. done. Qed.
Lemma connection_to_string_inj a b : connection_to_string a = connection_to_string b -> a = b.
Proof. by destruct a, b. Qed.
End TlsStatus.

Module TlsClient.
Import TlsStatus.
Local Open Scope Z_scope.

(** A connection: the SSL object, the socket below it, the scheduler and the clock.  A
    failed call comes with what SSL_get_error says about it. *)
Class Ssl := {
  conn : Type;
  ssl_new : conn -> conn * bool;                                   (* SSL_new: not null *)
  ssl_set_fd : conn -> conn * bool;                                (* SSL_set_fd: not 0 *)
  ssl_set_state : conn -> bool -> conn;                            (* true: SSL_set_accept_state *)
  ssl_connect : conn -> conn * option Z;                           (* None: 1 *)
  ssl_read_ex : conn -> nat -> conn * (list Z + Z);
  ssl_write_ex : conn -> list Z -> conn * (nat + Z);
  ssl_shutdown : conn -> conn * (Z * Z);                           (* the result, the error *)
  ssl_poll : conn -> Poll.poll_op -> Z -> option (conn * Poll.poll_status);  (* None: never returns *)
  ssl_now : conn -> conn * Z;                                      (* steady_clock, nanoseconds *)
  sys_connect : conn -> conn * option Z;                           (* None: 0, or errno *)
  so_error : conn -> conn * Z;
  plain_in : conn -> list Z;                                       (* plaintext still to be read *)
  plain_out : conn -> list Z;                                      (* plaintext accepted *)
  read_plain c n :
    match snd (ssl_read_ex c n) with
    | inl b => plain_in c = b ++ plain_in (fst (ssl_read_ex c n)) /\ (0 < length b <= n)%nat
    | inr e => plain_in (fst (ssl_read_ex c n)) = plain_in c /\ e <> SSL_ERROR_NONE
    end /\ plain_out (fst (ssl_read_ex c n)) = plain_out c;
  write_plain c b :
    match snd (ssl_write_ex c b) with
    | inl n => (n <= length b)%nat /\ (b <> [] -> (0 < n)%nat) /\ plain_out (fst (ssl_write_ex c b)) = plain_out c ++ take n b
    | inr e => plain_out (fst (ssl_write_ex c b)) = plain_out c /\ e <> SSL_ERROR_NONE
    end /\ plain_in (fst (ssl_write_ex c b)) = plain_in c;
  poll_plain c op t c' st : ssl_poll c op t = Some (c', st) -> plain_in c' = plain_in c /\ plain_out c' = plain_out c;
  poll_returns c op t : 0 < t -> ssl_poll c op t <> None;          (* at the latest with a timeout *)
  now_plain c : plain_in (fst (ssl_now c)) = plain_in c /\ plain_out (fst (ssl_now c)) = plain_out c
}.

Section client.
Context {ssl : Ssl}.

(** ** recv and send *)

(** The local variables of the two loops; [l_timeout] is the parameter timeout, which the
    loops count down. *)
Record loop := mk_loop {
  l_op : Poll.poll_op;
  l_timeout : option Z;             (* milliseconds *)
  l_first : bool;
  l_start : Z;
  l_stop : Z
}.

Definition ns_per_ms : Z := 1000000.

(** The head of the loops: the time used so far; [None]: it is used up *)
Definition deadline (c : conn) (l : loop) : conn * option loop :=
  match l_timeout l with
  | None => (c, Some l)
  | Some t =>
      let t' := if l_first l then t else t - Z.quot (l_stop l - l_start l) ns_per_ms in
      if negb (l_first l) && (t' <=? 0) then (c, None)
      else let '(c1, now) := ssl_now c in (c1, Some (mk_loop (l_op l) (Some t') false now (l_stop l)))
  end.

Definition set_stop (c : conn) (l : loop) : conn * loop :=
  match l_timeout l with
  | None => (c, l)
  | Some _ => let '(c1, now) := ssl_now c in (c1, mk_loop (l_op l) (l_timeout l) (l_first l) (l_start l) now)
  end.
Definition set_op (l : loop) (op : Poll.poll_op) : loop :=
  mk_loop op (l_timeout l) (l_first l) (l_start l) (l_stop l).

(** One round of the while (true) of recv ([want] is poll_status::read) and send
    ([want] is poll_status::write): the next local variables, or the status and the result. *)
Definition io_round {A} (want : Poll.poll_status) (call : conn -> conn * (A + Z)) (c : conn) (l : loop)
  : answer (conn * (loop + (Z * option A))) :=
  match deadline c l with
  | (c1, None) => Answer (c1, inr (recv_value timeout, None))
  | (c1, Some l1) =>
      match ssl_poll c1 (l_op l1) (default 0 (l_timeout l1)) with
      | None => Waits
      | Some (c2, pstatus) =>
          match pstatus with
          | Poll.read | Poll.write =>
              if bool_decide (pstatus = want) then
                let '(c3, r) := call c2 in
                let '(c4, l2) := set_stop c3 l1 in
                match r with
                | inl a => Answer (c4, inr (recv_value ok, Some a))
                | inr err =>
                    if err =? SSL_ERROR_WANT_READ then Answer (c4, inl (set_op l2 Poll.op_read))
                    else if err =? SSL_ERROR_WANT_WRITE then Answer (c4, inl (set_op l2 Poll.op_write))
                    else Answer (c4, inr (err, None))
                end
              else Answer (c2, inl l1)
          | Poll.timeout => Answer (c2, inr (recv_value timeout, None))
          | Poll.error => Answer (c2, inr (recv_value error, None))
          | Poll.closed => Answer (c2, inr (recv_value closed, None))
          | Poll.cancelled => Answer (c2, inr (recv_value cancelled, None))
          end
      end
  end.

(** The loop *)
Fixpoint io_loop {A} (fuel : nat) (want : Poll.poll_status) (call : conn -> conn * (A + Z)) (c : conn) (l : loop)
  : answer (conn * (Z * option A)) :=
  match fuel with
  | 0%nat => OutOfFuel
  | S fuel =>
      then_do (io_round want call c l) (fun '(c1, r) =>
        match r with inl l1 => io_loop fuel want call c1 l1 | inr x => Answer (c1, x) end)
  end.

(** recv(buffer, timeout), for a buffer of [n] bytes: the status and the bytes of the span *)
Definition recv (fuel : nat) (c : conn) (n : nat) (timeout : option Z) : answer (conn * (Z * list Z)) :=
  if decide (n = 0%nat) then Answer (c, (recv_value buffer_is_empty, []))
  else
    then_do (io_loop fuel Poll.read (fun c => ssl_read_ex c n) c (mk_loop Poll.op_read timeout true 0 0))
      (fun '(c1, (status, b)) => Answer (c1, (status, default [] b))).

(** send(buffer, timeout): the status and the span of the unsent bytes *)
Definition send (fuel : nat) (c : conn) (b : list Z) (timeout : option Z) : answer (conn * (Z * list Z)) :=
  match b with
  | [] => Answer (c, (send_value buffer_is_empty, []))
  | _ =>
      then_do (io_loop fuel Poll.write (fun c => ssl_write_ex c b) c (mk_loop Poll.op_write timeout true 0 0))
        (fun '(c1, (status, sent)) => Answer (c1, (status, match sent with Some n => drop n b | None => [] end)))
  end.

(** *** What a round does to the plaintext *)

Definition same_plain (c c' : conn) : Prop := plain_in c' = plain_in c /\ plain_out c' = plain_out c.

Lemma same_refl c : same_plain c c.
Proof. done. Qed.
Lemma same_trans a b c : same_plain a b -> same_plain b c -> same_plain a c.
Proof. intros [H1 H2] [H3 H4]. split; congruence. Qed.

Lemma deadline_plain c l : same_plain c (fst (deadline c l)).
Proof.
  unfold deadline. destruct (l_timeout l); [|apply same_refl]. case_match; [apply same_refl|].
  pose proof (now_plain c) as Hn. by destruct (ssl_now c).
Qed.
Lemma set_stop_plain c l : same_plain c (fst (set_stop c l)).
Proof. unfold set_stop. destruct (l_timeout l); [|done]. pose proof (now_plain c) as Hn. by destruct (ssl_now c). Qed.

(** A call whose failures leave the plaintext alone, the success of which is [P]. *)
Section loop.
Context {A : Type} (want : Poll.poll_status) (call : conn -> conn * (A + Z)) (P : conn -> A -> conn -> Prop).
Hypothesis call_ok : forall c,
  match snd (call c) with inl a => P c a (fst (call c)) | inr e => same_plain c (fst (call c)) /\ e <> SSL_ERROR_NONE end.
Hypothesis P_same : forall c c1 a c2 c3, same_plain c c1 -> P c1 a c2 -> same_plain c2 c3 -> P c a c3.

Definition round_ok (c : conn) (r : Z * option A) (c' : conn) : Prop :=
  match snd r with
  | Some a => fst r = recv_value ok /\ P c a c'
  | None => fst r <> recv_value ok /\ same_plain c c'
  end.

Lemma round_spec c l c' r : io_round want call c l = Answer (c', r) ->
  match r with inl _ => same_plain c c' | inr x => round_ok c x c' end.
Proof.
  unfold io_round. pose proof (deadline_plain c l) as D. destruct (deadline c l) as [c1 [l1|]]; [|by intros [= <- <-]].
  cbn in D. destruct (ssl_poll c1 (l_op l1) (default 0 (l_timeout l1))) as [[c2 st]|] eqn:Q; [|done]. apply poll_plain in Q.
  assert (same_plain c c2) as D2 by (by eapply same_trans).
  assert (forall c' r, (if bool_decide (st = want) then
            let '(c3, r) := call c2 in
            let '(c4, l2) := set_stop c3 l1 in
            match r with
            | inl a => Answer (c4, inr (recv_value ok, Some a))
            | inr err =>
                if err =? SSL_ERROR_WANT_READ then Answer (c4, inl (set_op l2 Poll.op_read))
                else if err =? SSL_ERROR_WANT_WRITE then Answer (c4, inl (set_op l2 Poll.op_write))
                else Answer (c4, inr (err, None))
            end
          else Answer (c2, inl l1)) = Answer (c', r) ->
      match r with inl _ => same_plain c c' | inr x => round_ok c x c' end) as Hcall.
  { clear c' r. intros c' r. case_bool_decide; [|by intros [= <- <-]].
    pose proof (call_ok c2) as C. destruct (call c2) as [c3 r3]. cbn in C. pose proof (set_stop_plain c3 l1) as T.
    destruct (set_stop c3 l1) as [c4 l2]. cbn in T. destruct r3 as [a|err].
    - intros [= <- <-]. split; [done|]. by eapply P_same.
    - destruct C as [C Hne]. assert (same_plain c c4) by (eapply same_trans; [exact D2|]; eapply same_trans; done).
      repeat case_match; intros [= <- <-]; try done. }
  destruct st; [by apply Hcall|by apply Hcall|intros [= <- <-]; by split..].
Qed.

Lemma io_loop_spec fuel c l c' r : io_loop fuel want call c l = Answer (c', r) -> round_ok c r c'.
Proof.
  revert c l. induction fuel as [|fuel IH]; intros c l; cbn; [done|].
  destruct (io_round want call c l) as [[c1 [l1|x]]| |] eqn:E; try done; apply round_spec in E; cbn.
  - intros Hl%IH. unfold round_ok in *. destruct (snd r); destruct Hl as [H1 H2]; (split; [done|]).
    + eapply P_same; [done..|apply same_refl].
    + by eapply same_trans.
  - by intros [= <- <-].
Qed.

(** *** Only a poll without a timeout waits for ever; the loops never give one to a caller
    that gave them a timeout *)
Definition untimed (t : option Z) : Prop := match t with None => True | Some t => t <= 0 end.

Lemma deadline_timeout c l c1 l1 : deadline c l = (c1, Some l1) ->
  (untimed (l_timeout l1) -> untimed (l_timeout l)) /\ (0 < default 0 (l_timeout l1) \/ untimed (l_timeout l)).
Proof.
  unfold deadline, untimed. destruct (l_timeout l) as [t|] eqn:Ht; [|intros [= <- <-]; rewrite Ht; auto].
  destruct (l_first l); cbn.
  - destruct (ssl_now c). intros [= <- <-]. cbn. split_and!; auto; lia.
  - case_match eqn:Hle; [done|]. destruct (ssl_now c). intros [= <- <-]. cbn. apply Z.leb_gt in Hle. split_and!; auto; lia.
Qed.

Lemma round_waits c l : io_round want call c l = Waits -> untimed (l_timeout l).
Proof.
  unfold io_round. destruct (deadline c l) as [c1 [l1|]] eqn:D; [|done]. apply deadline_timeout in D as [D1 D2].
  destruct (ssl_poll c1 (l_op l1) (default 0 (l_timeout l1))) as [[c2 st]|] eqn:Q.
  - destruct (call c2) as [c3 r]. destruct (set_stop c3 l1). repeat case_match; done.
  - intros _. destruct D2 as [D2|D2]; [|done]. by apply poll_returns in Q.
Qed.
Lemma round_timeout c l c' l' : io_round want call c l = Answer (c', inl l') -> untimed (l_timeout l') -> untimed (l_timeout l).
Proof.
  unfold io_round. destruct (deadline c l) as [c1 [l1|]] eqn:D; [|done]. apply deadline_timeout in D as [D1 _].
  destruct (ssl_poll c1 (l_op l1) (default 0 (l_timeout l1))) as [[c2 st]|]; [|done].
  destruct (call c2) as [c3 r]. assert (l_timeout (snd (set_stop c3 l1)) = l_timeout l1) as E.
  { unfold set_stop. destruct (l_timeout l1) eqn:Et; [|done]. by destruct (ssl_now c3). }
  destruct (set_stop c3 l1) as [c4 l2]. cbn in E. intros Hr Hu. apply D1.
  repeat case_match; simplify_eq; cbn in Hu; congruence.
Qed.
Lemma io_loop_waits fuel c l : io_loop fuel want call c l = Waits -> untimed (l_timeout l).
Proof.
  revert c l. induction fuel as [|fuel IH]; intros c l; cbn; [done|].
  destruct (io_round want call c l) as [[c1 [l1|x]]| |] eqn:E; cbn; try done.
  - intros Hl%IH. by eapply round_timeout.
  - intros _. by eapply round_waits.
Qed.

(** *** The loop ends when OpenSSL asks only finitely often, and only for the direction the
    caller polls for *)
Variable op : Poll.poll_op.
Variable wants : Z.
Variable patience : conn -> nat.
Hypothesis patience_poll : forall c o t c' st, ssl_poll c o t = Some (c', st) -> (patience c' <= patience c)%nat.
Hypothesis patience_now : forall c, (patience (fst (ssl_now c)) <= patience c)%nat.
Hypothesis call_wants : forall c e, snd (call c) = inr e -> e = SSL_ERROR_WANT_READ \/ e = SSL_ERROR_WANT_WRITE ->
  e = wants /\ (patience (fst (call c)) < patience c)%nat.
Hypothesis wants_op : forall l, set_op l (if wants =? SSL_ERROR_WANT_READ then Poll.op_read else Poll.op_write) = set_op l op.
Hypothesis poll_asked : forall c t c' st, ssl_poll c op t = Some (c', st) -> st = Poll.read \/ st = Poll.write -> st = want.

Lemma deadline_patience c l : (patience (fst (deadline c l)) <= patience c)%nat.
Proof.
  unfold deadline. destruct (l_timeout l); [|cbn; lia]. destruct (negb (l_first l) && _); [cbn; lia|].
  pose proof (patience_now c) as Hn. by destruct (ssl_now c).
Qed.
Lemma deadline_op c l l1 : snd (deadline c l) = Some l1 -> l_op l1 = l_op l.
Proof. unfold deadline. destruct (l_timeout l); [|by intros [= <-]]. destruct (negb (l_first l) && _); [done|]. destruct (ssl_now c). by intros [= <-]. Qed.
Lemma set_stop_patience c l : (patience (fst (set_stop c l)) <= patience c)%nat.
Proof. unfold set_stop. destruct (l_timeout l); [|cbn; lia]. pose proof (patience_now c) as Hn. by destruct (ssl_now c). Qed.

Lemma round_progress c l c' l' : l_op l = op -> io_round want call c l = Answer (c', inl l') ->
  l_op l' = op /\ (patience c' < patience c)%nat.
Proof.
  intros Hop. unfold io_round. pose proof (deadline_patience c l) as D. pose proof (deadline_op c l) as Do.
  destruct (deadline c l) as [c1 [l1|]]; [|done]. cbn in D, Do. specialize (Do l1 eq_refl).
  rewrite Do, Hop. destruct (ssl_poll c1 op (default 0 (l_timeout l1))) as [[c2 st]|] eqn:Hpoll; [|done].
  pose proof (patience_poll _ _ _ _ _ Hpoll) as Q. pose proof (poll_asked _ _ _ _ Hpoll) as Hw.
  destruct st; try done; (rewrite bool_decide_eq_true_2 by auto);
    (pose proof (call_wants c2) as C; destruct (call c2) as [c3 r3]; cbn in C;
     pose proof (set_stop_patience c3 l1) as T; destruct (set_stop c3 l1) as [c4 l2]; cbn in T;
     destruct r3 as [a|err]; [done|]; pose proof (wants_op l2) as W;
     destruct (Z.eqb_spec err SSL_ERROR_WANT_READ) as [->|];
       [|destruct (Z.eqb_spec err SSL_ERROR_WANT_WRITE) as [->|]; [|done]];
     (destruct (C _ eq_refl ltac:(auto)) as [Hwt Hlt]; rewrite <- Hwt in W; cbn in W;
      intros [= <- <-]; split; [by apply (f_equal l_op) in W|lia])).
Qed.

Lemma io_loop_ends fuel c l : l_op l = op -> (patience c < fuel)%nat -> io_loop fuel want call c l <> OutOfFuel.
Proof.
  revert c l. induction fuel as [|fuel IH]; intros c l Hop Hf; [lia|]. cbn.
  destruct (io_round want call c l) as [[c1 [l1|x]]| |] eqn:E; try done; cbn.
  - destruct (round_progress c l c1 l1 Hop E) as [Hop' Hlt]. apply IH; [done|lia].
  - revert E. unfold io_round. destruct (deadline c l) as [c1 [l1|]]; [|done].
    destruct (ssl_poll c1 _ _) as [[c2 st]|]; [|done]. destruct (call c2) as [c3 r], (set_stop c3 l1). repeat case_match; done.
Qed.
End loop.

(** *** recv and send *)

Definition read_spec (n : nat) (c : conn) (b : list Z) (c' : conn) : Prop :=
  plain_in c = b ++ plain_in c' /\ plain_out c' = plain_out c /\ (0 < length b <= n)%nat.
Definition write_spec (b : list Z) (c : conn) (m : nat) (c' : conn) : Prop :=
  plain_out c' = plain_out c ++ take m b /\ plain_in c' = plain_in c /\ (m <= length b)%nat /\ (b <> [] -> (0 < m)%nat).

Lemma read_call_ok n c :
  match snd (ssl_read_ex c n) with
  | inl b => read_spec n c b (fst (ssl_read_ex c n))
  | inr e => same_plain c (fst (ssl_read_ex c n)) /\ e <> SSL_ERROR_NONE
  end.
Proof. destruct (read_plain c n) as [H1 H2]. unfold read_spec, same_plain. destruct (snd (ssl_read_ex c n)); destruct H1; auto. Qed.
Lemma write_call_ok b c :
  match snd (ssl_write_ex c b) with
  | inl m => write_spec b c m (fst (ssl_write_ex c b))
  | inr e => same_plain c (fst (ssl_write_ex c b)) /\ e <> SSL_ERROR_NONE
  end.
Proof.
  destruct (write_plain c b) as [H1 H2]. unfold write_spec, same_plain.
  destruct (snd (ssl_write_ex c b)); [destruct H1 as (? & ? & ?)|destruct H1]; auto.
Qed.
Lemma read_spec_same n c c1 b c2 c3 : same_plain c c1 -> read_spec n c1 b c2 -> same_plain c2 c3 -> read_spec n c b c3.
Proof. unfold same_plain, read_spec. intros [E1 E2] (H1 & H2 & H3) [E3 E4]. rewrite <- E1, E3, E4, H1, H2. auto. Qed.
Lemma write_spec_same b c c1 m c2 c3 : same_plain c c1 -> write_spec b c1 m c2 -> same_plain c2 c3 -> write_spec b c m c3.
Proof. unfold same_plain, write_spec. intros [E1 E2] (H1 & H2 & H3) [E3 E4]. rewrite E3, E4, H1, H2, E1, E2. auto. Qed.

(** Whatever recv returns, it is the next plaintext, and bytes come with ok only. *)
Lemma recv_any fuel c n timeout c' st b : (0 < n)%nat -> recv fuel c n timeout = Answer (c', (st, b)) ->
  plain_in c = b ++ plain_in c' /\ plain_out c' = plain_out c /\ (length b <= n)%nat /\ (st = recv_value ok <-> b <> []).
Proof.
  intros Hn. unfold recv. rewrite decide_False by lia. destruct (io_loop _ _ _ c _) as [[c1 [st1 r]]| |] eqn:E; [|done..].
  intros [= <- <- <-]. apply (io_loop_spec _ _ (read_spec n) (read_call_ok n) (read_spec_same n)) in E.
  destruct r as [b|]; destruct E as [E1 E2]; cbn in *.
  - destruct E2 as (H1 & H2 & H3). split_and!; [done..|lia|]. split; [|done]. intros _ ->. cbn in H3. lia.
  - destruct E2 as [H1 H2]. rewrite H1. split_and!; [done..|lia|]. by split.
Qed.

Lemma send_any fuel c b timeout c' st rest : b <> [] -> send fuel c b timeout = Answer (c', (st, rest)) ->
  plain_in c' = plain_in c /\
  if decide (st = send_value ok) then exists sent, b = sent ++ rest /\ sent <> [] /\ plain_out c' = plain_out c ++ sent
  else rest = [] /\ plain_out c' = plain_out c.
Proof.
  intros Hb. destruct b as [|x b]; [done|]. set (buf := x :: b) in *. unfold send. subst buf. cbv beta iota.
  set (buf := x :: b) in *. destruct (io_loop _ _ _ c _) as [[c1 [st1 r]]| |] eqn:E; [|done..].
  apply (io_loop_spec _ _ (write_spec buf) (write_call_ok buf) (write_spec_same buf)) in E.
  destruct r as [m|]; destruct E as [E1 E2]; cbn in *; intros [= <- <- <-].
  - destruct E2 as (H1 & H2 & H3 & H4). split; [done|]. rewrite decide_True by done. exists (take m buf).
    split_and!; [by rewrite take_drop| |done]. specialize (H4 Hb). intros Ht%(f_equal length). rewrite length_take in Ht. cbn in Ht. lia.
  - destruct E2 as [H1 H2]. split; [done|]. by rewrite decide_False.
Qed.

(** A read that is asked to write: SSL_read_ex wants a write (a renegotiation, a key
    update), so recv polls for write; the poll reports write, which recv answers with
    [continue] - and polls for write again, without ever calling SSL_read_ex. *)
Lemma write_spin {A} fuel (call : conn -> conn * (A + Z)) c l :
  (forall c, exists c', ssl_poll c Poll.op_write 0 = Some (c', Poll.write)) -> l_op l = Poll.op_write -> l_timeout l = None ->
  io_loop fuel Poll.read call c l = OutOfFuel.
Proof.
  intros Hp Ho Ht. revert c. induction fuel as [|fuel IH]; intros c; cbn; [done|].
  unfold io_round, deadline. rewrite Ht, Ho. cbn. rewrite ?Ht. cbn. destruct (Hp c) as [c1 ->]. cbn. apply IH.
Qed.
Lemma read_spin {A} fuel (call : conn -> conn * (A + Z)) c l :
  (forall c, exists c', ssl_poll c Poll.op_read 0 = Some (c', Poll.read)) -> l_op l = Poll.op_read -> l_timeout l = None ->
  io_loop fuel Poll.write call c l = OutOfFuel.
Proof.
  intros Hp Ho Ht. revert c. induction fuel as [|fuel IH]; intros c; cbn; [done|].
  unfold io_round, deadline. rewrite Ht, Ho. cbn. rewrite ?Ht. cbn. destruct (Hp c) as [c1 ->]. cbn. apply IH.
Qed.

(** recv (without a timeout, as by default) never returns once SSL_read_ex has wanted to
    write and the socket stays writable: no number of rounds is enough. *)
Theorem tls_recv_want_write_livelock c n c1 c2 :
  (0 < n)%nat -> ssl_poll c Poll.op_read 0 = Some (c1, Poll.read) ->
  ssl_read_ex c1 n = (c2, inr SSL_ERROR_WANT_WRITE) ->
  (forall c, exists c', ssl_poll c Poll.op_write 0 = Some (c', Poll.write)) ->
  forall fuel, recv fuel c n None = OutOfFuel.
Proof.
  intros Hn Hp Hr Hw fuel. unfold recv. rewrite decide_False by lia. destruct fuel as [|fuel]; cbn; [done|].
  unfold io_round, deadline. cbn. rewrite Hp. cbn. rewrite bool_decide_eq_true_2 by done. rewrite Hr. cbn. by rewrite write_spin.
Qed.

(** send has the mirror image of it: a write that wants to read, on a readable socket. *)
Theorem tls_send_want_read_livelock c b c1 c2 :
  b <> [] -> ssl_poll c Poll.op_write 0 = Some (c1, Poll.write) ->
  ssl_write_ex c1 b = (c2, inr SSL_ERROR_WANT_READ) ->
  (forall c, exists c', ssl_poll c Poll.op_read 0 = Some (c', Poll.read)) ->
  forall fuel, send fuel c b None = OutOfFuel.
Proof.
  intros Hb Hp Hr Hw fuel. destruct b as [|x b]; [done|]. unfold send. destruct fuel as [|fuel]; cbn -[ssl_write_ex]; [done|].
  unfold io_round, deadline. cbn. rewrite Hp. cbn. rewrite bool_decide_eq_true_2 by done. rewrite Hr. cbn. by rewrite read_spin.
Qed.

(** recv polls the socket before it asks OpenSSL: what OpenSSL has already decrypted (the
    rest of a record larger than the previous buffer) is not returned while the peer is
    silent, although SSL_read_ex would return it at once. *)
Theorem tls_recv_ignores_buffered c n c' b :
  (0 < n)%nat -> ssl_read_ex c n = (c', inl b) -> ssl_poll c Poll.op_read 0 = None ->
  (0 < length b <= n)%nat /\ forall fuel, recv (S fuel) c n None = Waits.
Proof.
  intros Hn Hr Hp. split.
  - destruct (read_plain c n) as [H1 _]. rewrite Hr in H1. cbn in H1. tauto.
  - intros fuel. unfold recv. rewrite decide_False by lia. cbn. unfold io_round, deadline. cbn. by rewrite Hp.
Qed.

Section patient.
Variable patience : conn -> nat.
Hypothesis patience_poll : forall c o t c' st, ssl_poll c o t = Some (c', st) -> (patience c' <= patience c)%nat.
Hypothesis patience_now : forall c, (patience (fst (ssl_now c)) <= patience c)%nat.

(** [C34] With an OpenSSL that wants to read only finitely often (a record arrives in finitely
    many pieces) and never wants to write during a read, recv with a positive timeout
    returns; without one (no timeout, or one of 0) it returns unless one of the polls it
    makes, before every SSL_read_ex, never does.  What it returns is the next plaintext of
    the connection, at most the buffer's size, with ok, or no bytes with another status. *)
Theorem tls_recv_reads_the_stream c n timeout :
  (forall c n e, snd (ssl_read_ex c n) = inr e -> e <> SSL_ERROR_WANT_WRITE /\
     (e = SSL_ERROR_WANT_READ -> (patience (fst (ssl_read_ex c n)) < patience c)%nat)) ->
  (forall c t c' st, ssl_poll c Poll.op_read t = Some (c', st) -> st <> Poll.write) ->
  (0 < n)%nat ->
  (exists c' st b, recv (S (patience c)) c n timeout = Answer (c', (st, b)) /\
    plain_in c = b ++ plain_in c' /\ plain_out c' = plain_out c /\ (length b <= n)%nat /\ (st = recv_value ok <-> b <> [])) \/
  recv (S (patience c)) c n timeout = Waits /\ untimed timeout.
Proof.
  intros Hw Hp Hn.
  assert (io_loop (S (patience c)) Poll.read (fun c => ssl_read_ex c n) c (mk_loop Poll.op_read timeout true 0 0) <> OutOfFuel) as He.
  { apply (io_loop_ends Poll.read (fun c => ssl_read_ex c n) Poll.op_read SSL_ERROR_WANT_READ patience); try done; [..|lia].
    - intros c0 e He Hor. destruct (Hw c0 n e He) as [Hne Hd]. destruct Hor as [->|]; [|done]. auto.
    - intros c0 t c' st Hpoll [H1|H1]; [done|]. by apply Hp in Hpoll. }
  pose proof (io_loop_waits Poll.read (fun c => ssl_read_ex c n) (S (patience c)) c (mk_loop Poll.op_read timeout true 0 0)) as Hwait.
  pose proof (recv_any (S (patience c)) c n timeout) as Hany. unfold recv in *. rewrite decide_False in * by lia.
  destruct (io_loop _ _ _ c _) as [[c' [st r]]| |]; [left|right; auto|done].
  exists c', st, (default [] r). split; [done|]. by apply Hany.
Qed.

(** The same for send: the status is ok and the span is the unsent rest, or nothing was
    sent (and the span is empty as well). *)
Theorem tls_send_writes_the_stream c b timeout :
  (forall c b e, snd (ssl_write_ex c b) = inr e -> e <> SSL_ERROR_WANT_READ /\
     (e = SSL_ERROR_WANT_WRITE -> (patience (fst (ssl_write_ex c b)) < patience c)%nat)) ->
  (forall c t c' st, ssl_poll c Poll.op_write t = Some (c', st) -> st <> Poll.read) ->
  b <> [] ->
  (exists c' st rest, send (S (patience c)) c b timeout = Answer (c', (st, rest)) /\ plain_in c' = plain_in c /\
    if decide (st = send_value ok) then exists sent, b = sent ++ rest /\ sent <> [] /\ plain_out c' = plain_out c ++ sent
    else rest = [] /\ plain_out c' = plain_out c) \/
  send (S (patience c)) c b timeout = Waits /\ untimed timeout.
Proof.
  intros Hw Hp Hb.
  assert (io_loop (S (patience c)) Poll.write (fun c => ssl_write_ex c b) c (mk_loop Poll.op_write timeout true 0 0) <> OutOfFuel) as He.
  { apply (io_loop_ends Poll.write (fun c => ssl_write_ex c b) Poll.op_write SSL_ERROR_WANT_WRITE patience); try done; [..|lia].
    - intros c0 e He Hor. destruct (Hw c0 b e He) as [Hne Hd]. destruct Hor as [?| ->]; [done|]. auto.
    - intros c0 t c' st Hpoll [H1|H1]; [by apply Hp in Hpoll|done]. }
  pose proof (io_loop_waits Poll.write (fun c => ssl_write_ex c b) (S (patience c)) c (mk_loop Poll.op_write timeout true 0 0)) as Hwait.
  pose proof (send_any (S (patience c)) c b timeout) as Hany. destruct b as [|x b]; [done|]. unfold send in *.
  destruct (io_loop _ _ _ c _) as [[c' [st r]]| |]; [left|right; auto|done].
  eexists c', st, _. split; [done|]. by apply Hany.
Qed.
End patient.
(** ** Connecting, the handshake, shutting down *)

Inductive tls_connection_type := type_connect | type_accept.

(** [m_tls_ptr]: the pointer is not null *)
Record tls_info := mk_info {
  m_tls_connection_type : tls_connection_type;
  m_tls_ptr : bool;
  m_tls_error : bool;
  m_tls_connection_status : option connection_status
}.
Definition new_info (t : tls_connection_type) : tls_info := mk_info t false false None.

(** tls_info(tls_info&&), which operator= repeats: what the new one gets and what is left.
    A moved-from optional keeps its value. *)
Definition info_move (other : tls_info) : tls_info * tls_info :=
  (other, mk_info type_connect false false (m_tls_connection_status other)).

(** The members; the socket is that of [Fd], [m_tls_ctx] and [m_scheduler] tell null. *)
Record client := mk_client {
  m_scheduler : bool;
  m_tls_ctx : bool;
  m_connect_status : option connection_status;
  m_tls_info : tls_info;
  m_shutdown : bool
}.

(** client(scheduler, tls_ctx, endpoint); [None]: it throws *)
Definition make_client (scheduler tls_ctx : bool) : option client :=
  if negb scheduler then None else if negb tls_ctx then None
  else Some (mk_client scheduler tls_ctx None (new_info type_connect) false).
(** client(scheduler, tls_ctx, socket, endpoint), of the server *)
Definition accepted_client (scheduler tls_ctx : bool) : client :=
  mk_client scheduler tls_ctx (Some connected) (new_info type_accept) false.

(** client(client&&): m_shutdown is not moved *)
Definition client_move (other : client) : client * client :=
  let '(info, rest) := info_move (m_tls_info other) in
  (mk_client (m_scheduler other) (m_tls_ctx other) (m_connect_status other) info false,
   mk_client false false None rest (m_shutdown other)).
(** operator=(client&&) of another object *)
Definition client_move_assign (self other : client) : client * client :=
  let '(info, rest) := info_move (m_tls_info other) in
  (mk_client (m_scheduler other) (m_tls_ctx other) (m_connect_status other) info (m_shutdown self),
   mk_client false false None rest (m_shutdown other)).

Definition set_info (cl : client) (i : tls_info) : client :=
  mk_client (m_scheduler cl) (m_tls_ctx cl) (m_connect_status cl) i (m_shutdown cl).
Definition set_ptr (cl : client) (b : bool) : client :=
  let i := m_tls_info cl in
  set_info cl (mk_info (m_tls_connection_type i) b (m_tls_error i) (m_tls_connection_status i)).

(** What an error of SSL_connect and SSL_shutdown asks to poll for *)
Definition wanted (err : Z) : option Poll.poll_op :=
  if err =? SSL_ERROR_WANT_WRITE then Some Poll.op_write
  else if err =? SSL_ERROR_WANT_READ then Some Poll.op_read else None.

(** handshake: the loop around SSL_connect *)
Fixpoint handshake_loop (fuel : nat) (c : conn) (timeout : Z) : answer (conn * connection_status) :=
  let '(c1, r) := ssl_connect c in
  match r with
  | None => Answer (c1, connected)
  | Some err =>
      match wanted err with
      | None => Answer (c1, handshake_failed)
      | Some op =>
          match ssl_poll c1 op timeout with
          | None => Waits
          | Some (c2, Poll.timeout) => Answer (c2, conn_timeout)
          | Some (c2, Poll.error) => Answer (c2, poll_error)
          | Some (c2, Poll.closed) => Answer (c2, unexpected_close)
          | Some (c2, Poll.cancelled) => Answer (c2, unexpected_close)
          | Some (c2, _) => match fuel with 0%nat => OutOfFuel | S fuel => handshake_loop fuel c2 timeout end
          end
      end
  end.

Definition handshake (fuel : nat) (c : conn) (cl : client) (timeout : Z) : answer (conn * client * connection_status) :=
  let '(c1, got) := ssl_new c in
  let cl1 := set_ptr cl got in
  if negb got then Answer (c1, cl1, resource_allocation_failed)
  else
    let '(c2, r) := ssl_set_fd c1 in
    if negb r then Answer (c2, cl1, set_fd_failure)
    else
      let c3 := ssl_set_state c2 (match m_tls_connection_type (m_tls_info cl1) with type_connect => false | type_accept => true end) in
      then_do (handshake_loop fuel c3 timeout) (fun '(c4, s) => Answer (c4, cl1, s)).

(** The lambda return_value of connect *)
Definition return_value (r : answer (conn * client * connection_status)) : answer (conn * client * connection_status) :=
  then_do r (fun '(c, cl, s) => Answer (c, mk_client (m_scheduler cl) (m_tls_ctx cl) (Some s) (m_tls_info cl) (m_shutdown cl), s)).

Definition EAGAIN : Z := 11.
Definition EINPROGRESS : Z := 115.

Definition connect (fuel : nat) (c : conn) (cl : client) (timeout : Z) : answer (conn * client * connection_status) :=
  match m_connect_status cl with
  | Some s => Answer (c, cl, s)
  | None =>
      if negb (m_tls_ctx cl) then Answer (c, cl, context_required)
      else
        let '(c1, cret) := sys_connect c in
        match cret with
        | None => return_value (handshake fuel c1 cl timeout)
        | Some errno =>
            if (errno =? EAGAIN) || (errno =? EINPROGRESS) then
              match ssl_poll c1 Poll.op_write timeout with
              | None => Waits
              | Some (c2, Poll.write) =>
                  let '(c3, result) := so_error c2 in
                  if result =? 0 then return_value (handshake fuel c3 cl timeout) else return_value (Answer (c3, cl, conn_error))
              | Some (c2, Poll.timeout) => return_value (Answer (c2, cl, conn_timeout))
              | Some (c2, _) => return_value (Answer (c2, cl, conn_error))
              end
            else return_value (Answer (c1, cl, conn_error))
        end
  end.

(** tls_shutdown_and_free *)
Fixpoint tls_shutdown_and_free (fuel : nat) (c : conn) (timeout : Z) : answer conn :=
  let '(c1, (r, err)) := ssl_shutdown c in
  if r =? 1 then Answer c1
  else if r =? 0 then
    match wanted err with
    | None => Answer c1
    | Some op =>
        match ssl_poll c1 op timeout with
        | None => Waits
        | Some (c2, (Poll.timeout | Poll.error | Poll.closed | Poll.cancelled)) => Answer c2
        | Some (c2, _) => match fuel with 0%nat => OutOfFuel | S fuel => tls_shutdown_and_free fuel c2 timeout end
        end
    end
  else Answer c1.

(** shutdown(timeout) *)
Definition shutdown (fuel : nat) (c : conn) (cl : client) (timeout : Z) : answer (conn * client) :=
  if m_shutdown cl then Answer (c, cl)
  else
    let cl1 := mk_client (m_scheduler cl) (m_tls_ctx cl) (m_connect_status cl) (m_tls_info cl) true in
    if m_tls_ptr (m_tls_info cl) && negb (m_tls_error (m_tls_info cl)) then
      then_do (tls_shutdown_and_free fuel c timeout) (fun c1 => Answer (c1, cl1))
    else Answer (c, cl1).
(** shutdown(), with the default of 30 seconds *)
Definition shutdown_default (fuel : nat) (c : conn) (cl : client) : answer (conn * client) := shutdown fuel c cl 30000.
(** ~client() *)
Definition destroy (fuel : nat) (c : conn) (cl : client) : answer conn :=
  if m_shutdown cl then Answer c else then_do (shutdown fuel c cl 30000) (fun '(c1, _) => Answer c1).

(** *** Correctness *)

(** [m_connect_status] after a handshake is what it was. *)
Lemma handshake_client fuel c cl t c' cl' s : handshake fuel c cl t = Answer (c', cl', s) ->
  m_connect_status cl' = m_connect_status cl /\ m_tls_ctx cl' = m_tls_ctx cl /\ m_shutdown cl' = m_shutdown cl.
Proof.
  unfold handshake. destruct (ssl_new c) as [c1 got]. destruct (negb got); [by intros [= <- <- <-]|].
  destruct (ssl_set_fd c1) as [c2 r]. destruct (negb r); [by intros [= <- <- <-]|].
  destruct (handshake_loop _ _ _) as [[c4 s4]| |]; [|done..]. by intros [= <- <- <-].
Qed.

Lemma return_value_status r c cl s : return_value r = Answer (c, cl, s) -> m_connect_status cl = Some s.
Proof. destruct r as [[[c0 cl0] s0]| |]; [|done..]. by intros [= <- <- <-]. Qed.

(** The first connect decides: with a context its status is kept and every later call
    returns it and touches nothing. *)
Theorem tls_connect_once fuel c cl t c' cl' s :
  m_tls_ctx cl = true -> connect fuel c cl t = Answer (c', cl', s) ->
  m_connect_status cl' = Some s /\ forall fuel2 c2 t2, connect fuel2 c2 cl' t2 = Answer (c2, cl', s).
Proof.
  intros Hctx Hc. assert (m_connect_status cl' = Some s) as Hs.
  { revert Hc. unfold connect. destruct (m_connect_status cl) as [s0|] eqn:E; [by intros [= <- <- <-]|]. rewrite Hctx. cbn [negb].
    destruct (sys_connect c) as [c1 [errno|]]; [|apply return_value_status].
    case_match; [|apply return_value_status]. destruct (ssl_poll c1 Poll.op_write t) as [[c2 st]|]; [|done].
    destruct st; try apply return_value_status. destruct (so_error c2) as [c3 e]. case_match; apply return_value_status. }
  split; [done|]. intros. unfold connect. by rewrite Hs.
Qed.

(** shutdown runs SSL_shutdown at most once per client: afterwards neither shutdown nor the
    destructor touch the connection. *)
Theorem tls_shutdown_once fuel c cl t c' cl' :
  shutdown fuel c cl t = Answer (c', cl') ->
  m_shutdown cl' = true /\
  (forall fuel2 c2 t2, shutdown fuel2 c2 cl' t2 = Answer (c2, cl')) /\ (forall fuel2 c2, destroy fuel2 c2 cl' = Answer c2).
Proof.
  intros Hs. assert (m_shutdown cl' = true) as Hm.
  { revert Hs. unfold shutdown. destruct (m_shutdown cl) eqn:E; [by intros [= <- <-]|]. destruct (_ && _).
    - destruct (tls_shutdown_and_free _ _ _); [|done..]. by intros [= <- <-].
    - by intros [= <- <-]. }
  split; [done|]. unfold shutdown, destroy. by rewrite Hm.
Qed.

(** A client that was shut down and then assigned a new connection does not shut that one
    down any more: m_shutdown stays with the object. *)
Theorem tls_move_assign_skips_shutdown self other :
  m_shutdown self = true ->
  let self' := fst (client_move_assign self other) in
  m_tls_ptr (m_tls_info self') = m_tls_ptr (m_tls_info other) /\
  (forall fuel c t, shutdown fuel c self' t = Answer (c, self')) /\ (forall fuel c, destroy fuel c self' = Answer c).
Proof. intros Hm self'. subst self'. unfold client_move_assign, shutdown, destroy. cbn. rewrite Hm. auto. Qed.

(** The handshake and the shutdown end when OpenSSL asks finitely often: with enough fuel
    they return, unless a poll without a timeout does not. *)
Class Patient (patience : conn -> nat) : Prop := {
  patient_poll c o t c' st : ssl_poll c o t = Some (c', st) -> (patience c' <= patience c)%nat;
  patient_new c : (patience (fst (ssl_new c)) <= patience c)%nat;
  patient_set_fd c : (patience (fst (ssl_set_fd c)) <= patience c)%nat;
  patient_set_state c b : (patience (ssl_set_state c b) <= patience c)%nat;
  patient_sys_connect c : (patience (fst (sys_connect c)) <= patience c)%nat;
  patient_so_error c : (patience (fst (so_error c)) <= patience c)%nat;
  patient_connect c e : snd (ssl_connect c) = Some e -> wanted e <> None -> (patience (fst (ssl_connect c)) < patience c)%nat;
  patient_shutdown c e : snd (ssl_shutdown c) = (0, e) -> wanted e <> None -> (patience (fst (ssl_shutdown c)) < patience c)%nat
}.

(** [m] returns, or it waits in a poll that was given no timeout. *)
Definition ends {A} (t : Z) (m : answer A) : Prop := match m with Answer _ => True | Waits => t <= 0 | OutOfFuel => False end.

Lemma ends_then {A B} t (m : answer A) (f : A -> answer B) : ends t m -> (forall a, ends t (f a)) -> ends t (then_do m f).
Proof. by destruct m; cbn. Qed.
Lemma poll_ends c op t : ssl_poll c op t = None -> t <= 0.
Proof. intros H. destruct (Z.le_gt_cases t 0) as [|Ht]; [done|]. by destruct (poll_returns c op t Ht). Qed.

Section patient_connect.
Context (patience : conn -> nat) {pat : Patient patience}.

Lemma handshake_loop_ends fuel c t : (patience c <= fuel)%nat -> ends t (handshake_loop fuel c t).
Proof.
  revert c. induction fuel as [|fuel IH]; intros c Hf; cbn; pose proof (patient_connect c) as Hc;
    (destruct (ssl_connect c) as [c1 [err|]]; [|done]); cbn in Hc; specialize (Hc err eq_refl);
    (destruct (wanted err) as [op|]; [|done]); specialize (Hc ltac:(done));
    (destruct (ssl_poll c1 op t) as [[c2 st]|] eqn:Hp; [|by apply poll_ends in Hp]); apply patient_poll in Hp;
    destruct st; cbn; auto; try lia; apply IH; lia.
Qed.

Lemma shutdown_loop_ends fuel c t : (patience c <= fuel)%nat -> ends t (tls_shutdown_and_free fuel c t).
Proof.
  revert c. induction fuel as [|fuel IH]; intros c Hf; cbn; pose proof (patient_shutdown c) as Hc;
    destruct (ssl_shutdown c) as [c1 [r err]]; cbn in Hc; (destruct (Z.eqb_spec r 1); [done|]);
    (destruct (Z.eqb_spec r 0) as [->|]; [|done]); specialize (Hc err eq_refl);
    (destruct (wanted err) as [op|]; [|done]); specialize (Hc ltac:(done));
    (destruct (ssl_poll c1 op t) as [[c2 st]|] eqn:Hp; [|by apply poll_ends in Hp]); apply patient_poll in Hp;
    destruct st; cbn; auto; try lia; apply IH; lia.
Qed.

Lemma handshake_ends fuel c cl t : (patience c <= fuel)%nat -> ends t (handshake fuel c cl t).
Proof.
  intros Hf. unfold handshake. pose proof (patient_new c) as H1. destruct (ssl_new c) as [c1 got]. cbn in H1.
  destruct (negb got); [done|]. pose proof (patient_set_fd c1) as H2. destruct (ssl_set_fd c1) as [c2 r]. cbn in H2.
  destruct (negb r); [done|]. apply ends_then; [|by intros []]. apply handshake_loop_ends. etrans; [apply patient_set_state|]. lia.
Qed.

Lemma connect_ends fuel c cl t : (patience c <= fuel)%nat -> ends t (connect fuel c cl t).
Proof.
  intros Hf. assert (forall r, ends t r -> ends t (return_value r)) as Hrv by (intros r Hr; apply ends_then; [done|by intros [[]]]).
  unfold connect. destruct (m_connect_status cl); [done|]. destruct (negb (m_tls_ctx cl)); [done|].
  pose proof (patient_sys_connect c) as H1. destruct (sys_connect c) as [c1 [errno|]]; cbn in H1; [|apply Hrv, handshake_ends; lia].
  destruct (_ || _); [|done]. destruct (ssl_poll c1 Poll.op_write t) as [[c2 st]|] eqn:Hp; [|by apply poll_ends in Hp].
  apply patient_poll in Hp. destruct st; try done. pose proof (patient_so_error c2) as H2. destruct (so_error c2) as [c3 e]. cbn in H2.
  destruct (e =? 0); [apply Hrv, handshake_ends; lia|done].
Qed.

Lemma shutdown_ends fuel c cl t : (patience c <= fuel)%nat -> ends t (shutdown fuel c cl t).
Proof.
  intros Hf. unfold shutdown. destruct (m_shutdown cl); [done|]. destruct (_ && _); [|done].
  apply ends_then; [by apply shutdown_loop_ends|done].
Qed.
End patient_connect.

(** ** server::accept *)

(** The result of handshake is dropped ("user must check result"). *)
Definition accept (fuel : nat) (c : conn) (scheduler tls_ctx : bool) (timeout : Z) : answer (conn * client) :=
  then_do (handshake fuel c (accepted_client scheduler tls_ctx) timeout) (fun '(c1, cl, _) => Answer (c1, cl)).

(** The client accept returns says it is connected, also when its handshake has failed,
    and keeps no trace of the failure. *)
Theorem tls_accept_hides_handshake_failure fuel c sch ctx t c' cl s :
  handshake fuel c (accepted_client sch ctx) t = Answer (c', cl, s) ->
  accept fuel c sch ctx t = Answer (c', cl) /\
  (forall fuel2 c2 t2, connect fuel2 c2 cl t2 = Answer (c2, cl, connected)) /\
  m_tls_error (m_tls_info cl) = false /\ m_tls_connection_status (m_tls_info cl) = None.
Proof.
  intros H. unfold accept. rewrite H. split; [done|]. pose proof (handshake_client _ _ _ _ _ _ _ H) as (H1 & _ & _).
  split; [intros; unfold connect; by rewrite H1|].
  revert H. unfold handshake. destruct (ssl_new c) as [c1 got]. destruct (negb got); [by intros [= <- <- <-]|].
  destruct (ssl_set_fd c1) as [c2 r]. destruct (negb r); [by intros [= <- <- <-]|].
  destruct (handshake_loop _ _ _) as [[c4 s4]| |]; [|done..]. by intros [= <- <- <-].
Qed.
(** *** The type invariant of a client *)

(** An SSL object comes with its context and with a decided connection; an accepted client
    counts as connected; the error flag and the connection status inside tls_info are never
    set by anybody. *)
Definition client_wf (cl : client) : Prop :=
  (m_tls_ptr (m_tls_info cl) = true -> m_tls_ctx cl = true /\ m_connect_status cl <> None) /\
  (m_tls_connection_type (m_tls_info cl) = type_accept -> m_connect_status cl = Some connected) /\
  m_tls_error (m_tls_info cl) = false /\ m_tls_connection_status (m_tls_info cl) = None.

Lemma handshake_info fuel c cl t c' cl' s : handshake fuel c cl t = Answer (c', cl', s) -> exists b, cl' = set_ptr cl b.
Proof.
  unfold handshake. destruct (ssl_new c) as [c1 got]. destruct (negb got); [intros [= <- <- <-]; eauto|].
  destruct (ssl_set_fd c1) as [c2 r]. destruct (negb r); [intros [= <- <- <-]; eauto|].
  destruct (handshake_loop _ _ _) as [[c4 s4]| |]; [|done..]. intros [= <- <- <-]. eauto.
Qed.

(** A call of connect that is not cut short ends with its status in the client, whose SSL
    object may have changed. *)
Lemma return_value_wf r cl c' cl' s :
  client_wf cl -> m_tls_ctx cl = true -> m_connect_status cl = None ->
  (forall c1 cl1 s1, r = Answer (c1, cl1, s1) -> cl1 = cl \/ exists b, cl1 = set_ptr cl b) ->
  return_value r = Answer (c', cl', s) -> client_wf cl'.
Proof.
  intros (H1 & H2 & H3 & H4) Hctx Hn Hr. destruct r as [[[c1 cl1] s1]| |]; [|done..]. intros [= <- <- <-].
  assert (m_tls_connection_type (m_tls_info cl) <> type_accept) as Ht by (intros E; specialize (H2 E); congruence).
  destruct (Hr _ _ _ eq_refl) as [->|[b ->]]; split_and!; cbn; auto; try done; by destruct (m_tls_connection_type (m_tls_info cl)).
Qed.

Lemma connect_wf fuel c cl t c' cl' s : client_wf cl -> connect fuel c cl t = Answer (c', cl', s) -> client_wf cl'.
Proof.
  intros Hw. unfold connect. destruct (m_connect_status cl) as [s0|] eqn:En; [by intros [= <- <- <-]|].
  destruct (m_tls_ctx cl) eqn:Hctx; cbn [negb]; [|by intros [= <- <- <-]].
  assert (forall r c1 cl1 s1, (forall c1 cl1 s1, r = Answer (c1, cl1, s1) -> cl1 = cl \/ exists b, cl1 = set_ptr cl b) ->
    return_value r = Answer (c1, cl1, s1) -> client_wf cl1) as Hrv by (intros ???? ?; by eapply return_value_wf).
  destruct (sys_connect c) as [c1 [errno|]]; [|apply Hrv; intros ????; right; by eapply handshake_info].
  case_match; [|apply Hrv; intros ??? [= <- <- <-]; auto]. destruct (ssl_poll c1 Poll.op_write t) as [[c2 []]|]; try done;
    try (apply Hrv; intros ??? [= <- <- <-]; auto). destruct (so_error c2) as [c3 e].
  case_match; [apply Hrv; intros ????; right; by eapply handshake_info|apply Hrv; intros ??? [= <- <- <-]; auto].
Qed.

(** [C33] The type invariant of a client: an SSL object comes with a context and a decided
    connection, an accepted client counts as connected, and the error members of tls_info
    are never set.  The constructors establish it, connect, shutdown and the accept of a
    server that has a context (its constructor demands one) preserve it whenever they
    return, and they do return - with an OpenSSL that asks finitely often and enough fuel -
    unless they wait in a poll without a timeout; moving leaves two clients that satisfy it,
    the one moved from without an SSL object, so that its destructor does nothing. *)
Theorem tls_client_well_formed patience {pat : Patient patience} cl other :
  client_wf cl -> client_wf other ->
  (forall a b cl', make_client a b = Some cl' -> client_wf cl') /\
  (forall fuel c t c' cl' s, connect fuel c cl t = Answer (c', cl', s) -> client_wf cl') /\
  (forall fuel c t c' cl', shutdown fuel c cl t = Answer (c', cl') -> client_wf cl') /\
  (forall fuel c sch t c' cl', accept fuel c sch true t = Answer (c', cl') -> client_wf cl') /\
  (forall fuel c sch t, (patience c <= fuel)%nat ->
     ends t (connect fuel c cl t) /\ ends t (shutdown fuel c cl t) /\ ends t (accept fuel c sch true t)) /\
  client_wf (fst (client_move cl)) /\ client_wf (snd (client_move cl)) /\
  client_wf (fst (client_move_assign other cl)) /\ client_wf (snd (client_move_assign other cl)) /\
  (forall fuel c, destroy fuel c (snd (client_move cl)) = Answer c).
Proof.
  intros Hw Ho. pose proof Hw as (H1 & H2 & H3 & H4). split_and!; try (by cbn; split_and!; auto; intros).
  - intros a b cl'. unfold make_client. destruct a, b; cbn; try done. intros [= <-]. by split_and!.
  - intros fuel c t c' cl' s. by apply connect_wf.
  - intros fuel c t c' cl'. unfold shutdown. destruct (m_shutdown cl); [by intros [= <- <-]|].
    destruct (_ && _); [|by intros [= <- <-]]. destruct (tls_shutdown_and_free _ _ _); [|done..]. by intros [= <- <-].
  - intros fuel c sch t c' cl'. unfold accept. destruct (handshake _ _ _ _) as [[[c1 cl1] s1]| |] eqn:Eh; [|done..].
    intros [= <- <-]. destruct (handshake_info _ _ _ _ _ _ _ Eh) as [b ->]. by split_and!.
  - intros fuel c sch t Hf. split_and!; [by apply (connect_ends patience)|by apply (shutdown_ends patience)|].
    apply ends_then; [by apply (handshake_ends patience)|by intros [[]]].
  - intros fuel c. unfold destroy, shutdown. cbn. by destruct (m_shutdown cl).
Qed.
End client.

(** *** A connection, for evaluation: the errors of [script] come before any success, and
    [stuck] for ever; each poll takes [tick] nanoseconds *)
Record toy := mk_toy {
  toy_in : list Z; toy_out : list Z; script : list Z; stuck : option Z; clock : Z; tick : Z; failures : list Z
}.
Definition with_script (k : toy) (s : list Z) : toy :=
  mk_toy (toy_in k) (toy_out k) s (stuck k) (clock k) (tick k) (failures k).
Definition not_none (e : Z) : Z := if e =? 0 then SSL_ERROR_SSL else e.
Definition toy_ask (k : toy) : option (toy * Z) :=
  match script k with
  | e :: s => Some (with_script k s, not_none e)
  | [] => match stuck k with Some e => Some (k, not_none e) | None => None end
  end.
Definition toy_read (k : toy) (n : nat) : toy * (list Z + Z) :=
  match toy_ask k with
  | Some (k1, e) => (k1, inr e)
  | None =>
      match toy_in k, n with
      | [], _ | _, 0%nat => (k, inr SSL_ERROR_ZERO_RETURN)
      | b, _ => (mk_toy (drop (Nat.min n 2) b) (toy_out k) [] (stuck k) (clock k) (tick k) (failures k), inl (take (Nat.min n 2) b))
      end
  end.
Definition toy_write (k : toy) (b : list Z) : toy * (nat + Z) :=
  match toy_ask k with
  | Some (k1, e) => (k1, inr e)
  | None => (mk_toy (toy_in k) (toy_out k ++ b) [] (stuck k) (clock k) (tick k) (failures k), inl (length b))
  end.
Definition toy_connect (k : toy) : toy * option Z :=
  match failures k with
  | [] => (k, None)
  | e :: f => (mk_toy (toy_in k) (toy_out k) (script k) (stuck k) (clock k) (tick k) f, Some e)
  end.

Lemma not_none_ne e : not_none e <> SSL_ERROR_NONE.
Proof. unfold not_none. by destruct (Z.eqb_spec e 0). Qed.
Lemma toy_ask_same k k1 e : toy_ask k = Some (k1, e) ->
  toy_in k1 = toy_in k /\ toy_out k1 = toy_out k /\ e <> SSL_ERROR_NONE.
Proof.
  unfold toy_ask. destruct (script k) as [|x l]; [destruct (stuck k); [|done]|]; intros [= <- <-]; by split_and!; try apply not_none_ne.
Qed.

#[export] Instance toy_ssl : Ssl.
Proof.
  refine {| conn := toy; ssl_new := fun k => (k, true); ssl_set_fd := fun k => (k, true); ssl_set_state := fun k _ => k;
    ssl_connect := toy_connect; ssl_read_ex := toy_read; ssl_write_ex := toy_write; ssl_shutdown := fun k => (k, (1, 0));
    ssl_poll := fun k op _ => Some (mk_toy (toy_in k) (toy_out k) (script k) (stuck k) (clock k + tick k) (tick k) (failures k),
                               match op with Poll.op_write => Poll.write | _ => Poll.read end);
    ssl_now := fun k => (k, clock k); sys_connect := fun k => (k, None); so_error := fun k => (k, 0);
    plain_in := toy_in; plain_out := toy_out |}.
  - intros k n. unfold toy_read. destruct (toy_ask k) as [[k1 e]|] eqn:E.
    + apply toy_ask_same in E as (E1 & E2 & E3). done.
    + destruct (toy_in k) as [|x l] eqn:Hi; [cbn; by rewrite Hi|]. destruct n as [|n]; [cbn; by rewrite Hi|]. cbn [fst snd toy_in toy_out].
      split; [|done]. split; [by rewrite take_drop|]. rewrite length_take. cbn. lia.
  - intros k b. unfold toy_write. destruct (toy_ask k) as [[k1 e]|] eqn:E.
    + apply toy_ask_same in E as (E1 & E2 & E3). done.
    + cbn. rewrite take_ge by done. split_and!; try done. destruct b; [done|]. cbn. lia.
  - by intros k op t k' st [= <- <-].
  - done.
  - done.
Defined.

Lemma toy_ask_shorter k k1 e : stuck k = None -> toy_ask k = Some (k1, e) -> (length (script k1) < length (script k))%nat.
Proof. intros Hs. unfold toy_ask. destruct (script k); [by rewrite Hs|]. intros [= <- _]. cbn. lia. Qed.

Section witnesses.
Definition two_wants : @conn toy_ssl := mk_toy [5; 6; 7] [] [SSL_ERROR_WANT_READ; SSL_ERROR_WANT_READ] None 0 10 [].
Definition renegotiates : @conn toy_ssl := mk_toy [5; 6; 7] [] [SSL_ERROR_WANT_WRITE] None 0 10 [].

Example recv_example : option_map snd (answered (recv (ssl := toy_ssl) 3 two_wants 2 (Some 5))) = Some (0, [5; 6]).
Proof. reflexivity. Qed.

Lemma tls_recv_want_write_livelock_witness : forall fuel, recv (ssl := toy_ssl) fuel renegotiates 4 None = OutOfFuel.
Proof. refine (tls_recv_want_write_livelock (ssl := toy_ssl) renegotiates 4 _ _ ltac:(lia) eq_refl eq_refl _). intros c. eexists. reflexivity. Defined.

(** The toy connection asks as often as [failures] says. *)
#[local] Instance toy_patient : Patient (ssl := toy_ssl) (fun k : toy => length (failures k)).
Proof.
  split; try done.
  - by intros c o t c' st [= <- <-].
  - intros c e. cbn. unfold toy_connect. destruct (failures c); [done|]. cbn. lia.
Qed.

Lemma tls_client_well_formed_witness :
  exists cl' c' s, connect (ssl := toy_ssl) 5 two_wants (mk_client true true None (new_info type_connect) false) 10 = Answer (c', cl', s) /\
    m_tls_ptr (m_tls_info cl') = true /\ client_wf cl'.
Proof.
  destruct (connect (ssl := toy_ssl) 5 two_wants (mk_client true true None (new_info type_connect) false) 10) as [[[c' cl'] s]| |] eqn:E;
    [|vm_compute in E; discriminate..].
  exists cl', c', s. split; [reflexivity|]. split; [vm_compute in E; injection E as _ <- _; reflexivity|].
  refine (proj1 (proj2 (tls_client_well_formed (ssl := toy_ssl) (fun k : toy => length (failures k)) (mk_client true true None (new_info type_connect) false) (accepted_client true true) _ _)) _ _ _ _ _ _ E);
    cbv; auto 10; repeat split; congruence.
Defined.

Lemma tls_connect_once_witness :
  exists c' cl', connect (ssl := toy_ssl) 1 two_wants (mk_client true true None (new_info type_connect) false) 0 = Answer (c', cl', connected) /\
    m_connect_status cl' = Some connected.
Proof.
  destruct (connect (ssl := toy_ssl) 1 two_wants (mk_client true true None (new_info type_connect) false) 0) as [[[c' cl'] s]| |] eqn:E;
    [|vm_compute in E; discriminate..].
  pose proof (proj1 (tls_connect_once 1 two_wants (mk_client true true None (new_info type_connect) false) 0 c' cl' s eq_refl E)) as H. vm_compute in E. injection E as <- <- <-.
  do 2 eexists. split; [reflexivity|exact H].
Defined.

Lemma tls_shutdown_once_witness :
  exists c' cl', shutdown (ssl := toy_ssl) 1 two_wants (mk_client true true None (mk_info type_connect true false None) false) 0 = Answer (c', cl') /\
    m_shutdown cl' = true.
Proof.
  destruct (shutdown (ssl := toy_ssl) 1 two_wants (mk_client true true None (mk_info type_connect true false None) false) 0) as [[c' cl']| |] eqn:E;
    [|vm_compute in E; discriminate..].
  exists c', cl'. split; [reflexivity|]. exact (proj1 (tls_shutdown_once 1 _ _ 0 c' cl' E)).
Defined.

(** A certificate that is refused: SSL_connect fails, connect() says connected. *)
Lemma tls_accept_hides_handshake_failure_witness :
  let c : @conn toy_ssl := mk_toy [] [] [] None 0 10 [SSL_ERROR_SSL] in
  exists c' cl, handshake 1 c (accepted_client true true) 30000 = Answer (c', cl, handshake_failed) /\
    forall fuel2 c2 t2, connect fuel2 c2 cl t2 = Answer (c2, cl, connected).
Proof.
  intros c. destruct (handshake 1 c (accepted_client true true) 30000) as [[[c' cl] s]| |] eqn:E; [|vm_compute in E; discriminate..].
  pose proof (proj1 (proj2 (tls_accept_hides_handshake_failure 1 c true true 30000 c' cl s E))) as H.
  vm_compute in E. injection E as <- <- <-. do 2 eexists. split; [reflexivity|exact H].
Defined.
End witnesses.

(** The time used is rounded down to whole milliseconds in every round: a peer whose bytes
    arrive more than once per millisecond, without completing a record, keeps recv from
    ever timing out. *)
Theorem tls_recv_timeout_drifts fuel k :
  stuck k = Some SSL_ERROR_WANT_READ -> script k = [] -> 0 <= tick k < ns_per_ms ->
  recv fuel (k : conn) 1 (Some 1) = OutOfFuel.
Proof.
  intros Hs Hq Ht. unfold recv. rewrite decide_False by lia.
  assert (forall fuel (k : conn) l, stuck k = Some SSL_ERROR_WANT_READ -> script k = [] -> 0 <= tick k < ns_per_ms ->
    l_op l = Poll.op_read -> l_timeout l = Some 1 -> (l_first l = true \/ 0 <= l_stop l - l_start l < ns_per_ms) ->
    io_loop fuel Poll.read (fun c => ssl_read_ex c 1) k l = OutOfFuel) as Hloop.
  { clear. intros fuel. induction fuel as [|fuel IH]; intros k l Hs Hq Ht Ho Hto Hf; [done|]. cbn -[ssl_read_ex].
    unfold io_round, deadline. rewrite Hto.
    assert ((if l_first l then 1 else 1 - Z.quot (l_stop l - l_start l) ns_per_ms) = 1) as E1.
    { destruct Hf as [->|Hf]; [done|]. rewrite Z.quot_small by done. by destruct (l_first l). }
    rewrite E1. replace (negb (l_first l) && (1 <=? 0)) with false by (by destruct (l_first l)).
    cbn -[ssl_read_ex toy_read]. rewrite Ho. cbn -[ssl_read_ex toy_read]. rewrite bool_decide_eq_true_2 by done.
    unfold ssl_read_ex, toy_ssl, toy_read, toy_ask. cbn. rewrite Hq, Hs. cbn.
    apply IH; cbn; auto. right. lia. }
  rewrite Hloop; auto.
Qed.
(** *** A connection that asks for [asks] more pieces before each success; nothing more comes
    from the peer when it is [silent] *)
Record piecewise := mk_piecewise { p_in : list Z; p_out : list Z; asks : nat; p_clock : Z; silent : bool }.
Definition p_read (k : piecewise) (n : nat) : piecewise * (list Z + Z) :=
  match asks k with
  | S a => (mk_piecewise (p_in k) (p_out k) a (p_clock k) (silent k), inr SSL_ERROR_WANT_READ)
  | 0%nat =>
      match p_in k, n with
      | [], _ | _, 0%nat => (k, inr SSL_ERROR_ZERO_RETURN)
      | b, _ => (mk_piecewise (drop n b) (p_out k) 0 (p_clock k) (silent k), inl (take n b))
      end
  end.
Definition p_write (k : piecewise) (b : list Z) : piecewise * (nat + Z) :=
  match asks k with
  | S a => (mk_piecewise (p_in k) (p_out k) a (p_clock k) (silent k), inr SSL_ERROR_WANT_WRITE)
  | 0%nat => (mk_piecewise (p_in k) (p_out k ++ b) 0 (p_clock k) (silent k), inl (length b))
  end.
Definition p_poll (k : piecewise) (op : Poll.poll_op) (t : Z) : option (piecewise * Poll.poll_status) :=
  let later := mk_piecewise (p_in k) (p_out k) (asks k) (p_clock k + ns_per_ms) (silent k) in
  match op with
  | Poll.op_write => Some (later, Poll.write)
  | _ => if silent k then if 0 <? t then Some (later, Poll.timeout) else None else Some (later, Poll.read)
  end.
Lemma p_poll_same k op t k' st : p_poll k op t = Some (k', st) -> p_in k' = p_in k /\ p_out k' = p_out k /\ asks k' = asks k.
Proof. unfold p_poll. destruct op, (silent k), (0 <? t); by intros [= <- _]. Qed.
#[export] Instance piecewise_ssl : Ssl | 100.
Proof.
  refine {| conn := piecewise; ssl_new := fun k => (k, true); ssl_set_fd := fun k => (k, true); ssl_set_state := fun k _ => k;
    ssl_connect := fun k => (k, None); ssl_read_ex := p_read; ssl_write_ex := p_write; ssl_shutdown := fun k => (k, (1, 0));
    ssl_poll := p_poll;
    ssl_now := fun k => (k, p_clock k); sys_connect := fun k => (k, None); so_error := fun k => (k, 0);
    plain_in := p_in; plain_out := p_out |}.
  - intros k n. unfold p_read. destruct (asks k); [|done].
    destruct (p_in k) as [|x l] eqn:Hi; [cbn; by rewrite Hi|]. destruct n as [|n]; [cbn; by rewrite Hi|]. cbn [fst snd p_in p_out].
    split; [|done]. split; [by rewrite take_drop|]. rewrite length_take. cbn. lia.
  - intros k b. unfold p_write. destruct (asks k); [|done]. cbn. rewrite take_ge by done. split_and!; try done. destruct b; [done|]. cbn. lia.
  - intros k op t k' st (H1 & H2 & _)%p_poll_same. done.
  - intros k op t Ht. unfold p_poll. apply Z.ltb_lt in Ht. rewrite Ht. by destruct op, (silent k).
  - done.
Defined.

Lemma tls_recv_reads_the_stream_witness :
  exists c' st b, recv (ssl := piecewise_ssl) 3 (mk_piecewise [5; 6; 7] [] 2 0 false) 2 (Some 50) = Answer (c', (st, b)) /\ [5; 6; 7] = b ++ p_in c'.
Proof.
  destruct (tls_recv_reads_the_stream (ssl := piecewise_ssl) asks) with (c := mk_piecewise [5; 6; 7] [] 2 0 false) (n := 2%nat) (timeout := Some 50)
    as [(c' & st & b & H1 & H2 & _)|[_ H]]; [..|exists c', st, b; split; [exact H1|exact H2]|cbv in H; congruence].
  - intros c o t c' st (_ & _ & H)%p_poll_same. rewrite H. lia.
  - done.
  - intros c n e. cbn. unfold p_read. destruct (asks c) as [|a] eqn:E; cbn.
    + destruct (p_in c), n; intros H; try discriminate H; injection H as <-; (split; [done|intros H; discriminate H]).
    + intros H. injection H as <-. split; [done|]. intros _. lia.
  - intros c t c' st. cbn. destruct (silent c), (0 <? t); by intros [= _ <-].
  - lia.
Defined.

Lemma tls_send_writes_the_stream_witness :
  exists c' st rest, send (ssl := piecewise_ssl) 3 (mk_piecewise [] [] 2 0 false) [8; 9] (Some 50) = Answer (c', (st, rest)) /\ p_in c' = [].
Proof.
  destruct (tls_send_writes_the_stream (ssl := piecewise_ssl) asks) with (c := mk_piecewise [] [] 2 0 false) (b := [8; 9]) (timeout := Some 50)
    as [(c' & st & rest & H1 & H2 & _)|[_ H]]; [..|exists c', st, rest; split; [exact H1|exact H2]|cbv in H; congruence].
  - intros c o t c' st (_ & _ & H)%p_poll_same. rewrite H. lia.
  - done.
  - intros c b e. cbn. unfold p_write. destruct (asks c) as [|a] eqn:E; cbn; [done|].
    intros H. injection H as <-. split; [done|]. intros _. lia.
  - intros c t c' st. cbn. by intros [= _ <-].
  - done.
Defined.

(** The rest of a record is in OpenSSL, the peer is silent. *)
Lemma tls_recv_ignores_buffered_witness :
  ssl_read_ex (Ssl := piecewise_ssl) (mk_piecewise [7] [] 0 0 true) 4 = (mk_piecewise [] [] 0 0 true, inl [7]) /\
  forall fuel, recv (ssl := piecewise_ssl) (S fuel) (mk_piecewise [7] [] 0 0 true) 4 None = Waits.
Proof.
  split; [reflexivity|].
  exact (proj2 (tls_recv_ignores_buffered (ssl := piecewise_ssl) (mk_piecewise [7] [] 0 0 true) 4 _ [7] ltac:(lia) eq_refl eq_refl)).
Defined.
End TlsClient.

Module TlsContext.

(** context(verify_peer) and context(certificate, ..., private_key, ...): [g_tls_context_count]
    counts the constructions; [ctx_new] is what SSL_CTX_new returns, the others the results of
    loading the certificate, the private key, and of checking them against each other. *)
Inductive verify_peer_t := yes | no.
Inductive error := no_context | bad_certificate | bad_private_key | mismatch.

(** The SSL_CTX calls made, in their order. *)
Inductive call :=
| init_ssl | ctx_new | set_options | set_verify_peer | set_min_tls1_2 | use_certificate | use_private_key | check_private_key | ctx_free.

Definition new_context (count : Z) (verify_peer : verify_peer_t) (ok : bool) : Z * list call * option error :=
  let calls := (if (count =? 0)%Z then [init_ssl] else []) ++ [ctx_new] in
  if negb ok then (u64 (count + 1), calls, Some no_context)
  else (u64 (count + 1), calls ++ [set_options] ++ (match verify_peer with yes => [set_verify_peer] | no => [] end) ++ [set_min_tls1_2], None).

(** The delegating constructor: once the first one has returned the object exists, so an
    exception runs ~context() *)
Definition new_context_with (count : Z) (verify_peer : verify_peer_t) (ok cert key match_ : bool) : Z * list call * option error :=
  let '(n, calls, e) := new_context count verify_peer ok in
  match e with
  | Some _ => (n, calls, e)
  | None =>
      if negb cert then (n, calls ++ [use_certificate; ctx_free], Some bad_certificate)
      else if negb key then (n, calls ++ [use_certificate; use_private_key; ctx_free], Some bad_private_key)
      else if negb match_ then (n, calls ++ [use_certificate; use_private_key; check_private_key; ctx_free], Some mismatch)
      else (n, calls ++ [use_certificate; use_private_key; check_private_key], None)
  end.

(** A context that fails to be constructed leaves no SSL_CTX behind: the one created is
    freed exactly once; one that is constructed has its minimum version and its key
    checked, and verifies the peer exactly when asked to. *)
Lemma context_released count verify ok cert key match_ :
  let '(_, calls, e) := new_context_with count verify ok cert key match_ in
  match e with
  | None => ctx_free ∉ calls /\
            set_min_tls1_2 ∈ calls /\ check_private_key ∈ calls /\ (set_verify_peer ∈ calls <-> verify = yes)
  | Some no_context => ok = false /\ ctx_free ∉ calls
  | Some _ => ok = true /\ last calls = Some ctx_free
  end.
Proof.
  unfold new_context_with, new_context.
  destruct (count =? 0)%Z, verify, ok, cert, key, match_; cbn; split_and!; try done; set_solver.
Qed.
End TlsContext.

(** ** tls::server as an object *)

Module TlsServer.

(** [m_scheduler], [m_tls_ctx]: not null; [m_accept_socket]: its descriptor, if it has one;
    [m_cancel_trigger]: which pipe its stop source is *)
Record server := mk_server {
  m_scheduler : bool;
  m_tls_ctx : bool;
  m_accept_socket : option nat;
  m_cancel_trigger : nat
}.

(** server(scheduler, tls_ctx, endpoint, opts): the accept socket [fd] is made before the
    tests.  The server or, when it throws, nothing; and the descriptors that are closed. *)
Definition new_server (scheduler tls_ctx : bool) (fd trigger : nat) : option server * list nat :=
  if negb scheduler then (None, [fd])
  else if negb tls_ctx then (None, [fd])
  else (Some (mk_server scheduler tls_ctx (Some fd) trigger), []).

(** server(server&&): the new one has a stop source of its own *)
Definition server_move (fresh : nat) (other : server) : server * server :=
  (mk_server (m_scheduler other) (m_tls_ctx other) (m_accept_socket other) fresh,
   mk_server false false None (m_cancel_trigger other)).

(** operator=(server&&) of another object; socket::operator= drops the descriptor it had *)
Definition server_move_assign (self other : server) : server * server :=
  (mk_server (m_scheduler other) (m_tls_ctx other) (m_accept_socket other) (m_cancel_trigger self),
   mk_server false false None (m_cancel_trigger other)).

(** poll(): the descriptor and the token it waits with; [None]: a null scheduler is used *)
Definition poll (sv : server) : option (option nat * nat) :=
  if m_scheduler sv then Some (m_accept_socket sv, m_cancel_trigger sv) else None.
(** shutdown(): the stop source that is signalled, the descriptor that is shut down *)
Definition shutdown (sv : server) : nat * option nat := (m_cancel_trigger sv, m_accept_socket sv).

(** A server with a socket has a scheduler and a context. *)
Definition server_wf (sv : server) : Prop :=
  m_accept_socket sv <> None -> m_scheduler sv = true /\ m_tls_ctx sv = true.

(** The type invariant of tls::server: the constructor establishes it or closes the socket it
    has made, the moves keep it for both objects and leave one owner of the descriptor. *)
Theorem tls_server_well_formed sch ctx fd trigger fresh sv self :
  (match new_server sch ctx fd trigger with
   | (Some s, closed) => server_wf s /\ closed = []
   | (None, closed) => closed = [fd] /\ sch && ctx = false
   end) /\
  (server_wf sv -> server_wf (fst (server_move fresh sv)) /\ server_wf (snd (server_move fresh sv)) /\
    m_accept_socket (fst (server_move fresh sv)) = m_accept_socket sv /\
    m_accept_socket (snd (server_move fresh sv)) = None) /\
  (server_wf sv -> server_wf (fst (server_move_assign self sv)) /\ server_wf (snd (server_move_assign self sv)) /\
    m_accept_socket (fst (server_move_assign self sv)) = m_accept_socket sv /\
    m_accept_socket (snd (server_move_assign self sv)) = None).
Proof.
  unfold server_wf, new_server. split; [by destruct sch, ctx|]. split; intros H; split_and!; try done.
Qed.

(** The stop source does not move: a poll that is under way when its server is moved is not
    cancelled by the shutdown() of the server that has the socket now (which shuts the
    descriptor down all the same), only by that of the one that was moved from. *)
Theorem tls_server_move_keeps_trigger fresh sv fd t :
  poll sv = Some (Some fd, t) -> fresh <> t ->
  snd (shutdown (fst (server_move fresh sv))) = Some fd /\
  fst (shutdown (fst (server_move fresh sv))) <> t /\ shutdown (snd (server_move fresh sv)) = (t, None).
Proof. unfold poll. intros H Hne. destruct (m_scheduler sv); [|done]. cbn in *. injection H as H1 <-. by rewrite H1. Qed.

Lemma tls_server_move_keeps_trigger_witness :
  let sv := mk_server true true (Some 5) 1 in
  fst (shutdown (fst (server_move 2 sv))) <> 1.
Proof.
  exact (proj1 (proj2 (tls_server_move_keeps_trigger 2 (mk_server true true (Some 5) 1) 5 1 eq_refl
    (fun H : 2 = 1 => ltac:(discriminate H))))).
Defined.
End TlsServer.
