(* ===== verification/Dns.v ===== *)
(** * The DNS resolver (include/coro/net/dns/resolver.hpp)

    A driver of c-ares, whose calls into the resolver are labels: [DnsResult] is the
    callback that ends a lookup and host_by_name around it, [DnsPoll] the bookkeeping of the
    sockets c-ares wants polled, one detached task per socket, and [AresLibrary] the count
    that decides when the library is initialised and cleaned up. *)
From stdpp Require Import base list relations option numbers gmap sets.
From Stdlib Require Import ZArith Lia.
From S2P Require Import Prelude IoNotifier AwaiterList Event EventClient Net.

Module DnsResult.
Import IpAddress.

Inductive status := complete | error.

(** An ares_addrinfo_node: its family with the bytes of sin_addr or sin6_addr *)
Inductive node := node_inet (sin_addr : list Z) | node_inet6 (sin6_addr : list Z) | node_other (ai_family : Z).
Definition node_wf (n : node) : Prop :=
  match n with
  | node_inet b => length b = ipv4_len /\ Forall is_byte b
  | node_inet6 b => length b = ipv6_len /\ Forall is_byte b
  | node_other _ => True
  end.

Record result := mk_result {
  m_pending_dns_requests : Z;       (* uint64_t *)
  m_status : status;
  m_ip_addresses : list ip_address
}.

Definition ARES_SUCCESS : Z := 0.

(** The body of the loop over the nodes; [None]: the constructor of ip_address throws *)
Definition add_node (ips : list ip_address) (n : node) : option (list ip_address) :=
  match n with
  | node_inet b => match make b ipv4 with Some a => Some (ips ++ [a]) | None => None end
  | node_inet6 b => match make b ipv6 with Some a => Some (ips ++ [a]) | None => None end
  | node_other _ => Some ips
  end.
Fixpoint add_nodes (ips : list ip_address) (l : list node) : option (list ip_address) :=
  match l with
  | [] => Some ips
  | n :: l => match add_node ips n with Some ips' => add_nodes ips' l | None => None end
  end.

(** ares_dns_callback: the result, whether addr_info was freed and whether the event is set *)
Definition ares_dns_callback (r : result) (ares_status : Z) (addr_info : option (list node)) : option (result * bool * bool) :=
  let pending := u64 (m_pending_dns_requests r - 1) in
  match addr_info with
  | Some nodes =>
      if (ares_status =? ARES_SUCCESS)%Z then
        match add_nodes (m_ip_addresses r) nodes with
        | Some ips => Some (mk_result pending complete ips, true, (pending =? 0)%Z)
        | None => None
        end
      else Some (mk_result pending error (m_ip_addresses r), false, (pending =? 0)%Z)
  | None => Some (mk_result pending error (m_ip_addresses r), false, (pending =? 0)%Z)
  end.

(** The addresses of an answer: those of the two families, in the order of the answer. *)
Definition address_of (n : node) : option ip_address :=
  match n with
  | node_inet b => Some (mk_ip ipv4 (fill b))
  | node_inet6 b => Some (mk_ip ipv6 (fill b))
  | node_other _ => None
  end.

Lemma add_node_spec ips n : node_wf n -> add_node ips n = Some (ips ++ option_list (address_of n)).
Proof.
  intros Hn. destruct n as [b|b|f]; cbn in *; [..|by rewrite app_nil_r]; destruct Hn as [Hl _];
    rewrite make_spec, Hl; done.
Qed.
Lemma add_nodes_spec l ips : Forall node_wf l -> add_nodes ips l = Some (ips ++ omap address_of l).
Proof.
  intros Hl. revert ips. induction Hl as [|n l Hn _ IH]; intros ips; cbn; [by rewrite app_nil_r|].
  rewrite add_node_spec by done. rewrite IH. destruct (address_of n); cbn; by rewrite <- ?app_assoc.
Qed.
Lemma address_wf n a : node_wf n -> address_of n = Some a -> wf a.
Proof. destruct n as [b|b|f]; cbn; [..|done]; intros [Hl Hb] [= <-]; by apply fill_wf. Qed.
Lemma addresses_wf l : Forall node_wf l -> Forall wf (omap address_of l).
Proof.
  induction 1 as [|n l Hn _ IH]; cbn; [done|]. destruct (address_of n) eqn:E; [|done].
  constructor; [by eapply address_wf|done].
Qed.

(** What the callback leaves in a fresh result. *)
Definition answer (ares_status : Z) (addr_info : option (list node)) : result :=
  match addr_info with
  | Some nodes => if (ares_status =? ARES_SUCCESS)%Z then mk_result 0 complete (omap address_of nodes) else mk_result 0 error []
  | None => mk_result 0 error []
  end.
Definition fresh : result := mk_result 1 complete [].

Lemma callback_answer st info : (forall l, info = Some l -> Forall node_wf l) ->
  exists freed, ares_dns_callback fresh st info = Some (answer st info, freed, true) /\
    (freed = true <-> m_status (answer st info) = complete).
Proof.
  intros Hw. unfold ares_dns_callback, answer. destruct info as [l|]; [|exists false; done].
  destruct (st =? ARES_SUCCESS)%Z; [|exists false; done]. cbn [m_ip_addresses fresh]. rewrite add_nodes_spec by auto. exists true. done.
Qed.

(** ** host_by_name: the result, the event and the two that meet there, the awaiting
    coroutine (agent 0 of the event) and the thread c-ares calls back on (agent 1), which
    hands the coroutine to the executor ([EventExecutor]) that resumes it *)

Record state := mk_state {
  res : result;
  resume_event : Event.state;
  answered : option (Z * option (list node))   (* history: what c-ares said *)
}.
Inductive label :=
| Answer (ares_status : Z) (addr_info : option (list node))
| Await                                        (* co_await resume_event *)
| Ev (t : nat) (spurious : bool).              (* a step of the await or of the set() *)

Definition host_by_name : state := mk_state fresh (Event.make false) None.

Definition lift (s : state) (r : option (Event.state * list Event.event)) : option (state * list Event.event) :=
  match r with Some (e, ev) => Some (mk_state (res s) e (answered s), ev) | None => None end.

(** c-ares calls back once; an addr_info of its making has well-formed nodes. *)
Definition exec (l : label) (s : state) : option (state * list Event.event) :=
  match l with
  | Answer st info =>
      match answered s, ares_dns_callback (res s) st info with
      | None, Some (r, _, set) =>
          let s1 := mk_state r (resume_event s) (Some (st, info)) in
          if set then lift s1 (Event.exec 2 (Event.Call 1 (Event.Set_ Event.lifo)) (resume_event s)) else Some (s1, [])
      | _, _ => None
      end
  | Await => lift s (Event.exec 2 (Event.Call 0 Event.Await) (resume_event s))
  | Ev t sp => lift s (Event.exec 2 (Event.Step t sp) (resume_event s))
  end.

Definition answer_wf (l : label) : Prop :=
  match l with Answer _ (Some nodes) => Forall node_wf nodes | _ => True end.

(** The coroutine has passed the co_await. *)
Definition passes (ev : Event.event) : bool :=
  match ev with Event.EvContinue _ | Event.EvResume _ _ => true | _ => false end.

Definition ok (s : state) (tr : list Event.event) : Prop :=
  match answered s with
  | None => res s = fresh /\ EventClient.closed (resume_event s) /\ existsb passes tr = false
  | Some (st, info) => res s = answer st info /\ forall l, info = Some l -> Forall node_wf l
  end.

Lemma suspends_no_pass ev : EventClient.only_suspends ev -> existsb passes ev = false.
Proof. induction 1 as [|e ev He _ IH]; [done|]. cbn. rewrite IH. by destruct e. Qed.

Lemma event_ok s tr l s' ev : ok s tr -> (forall t p, l <> Event.Call t (Event.Set_ p)) ->
  lift s (Event.exec 2 l (resume_event s)) = Some (s', ev) -> ok s' (tr ++ ev).
Proof.
  intros Hok Hl. unfold lift. destruct (Event.exec 2 l (resume_event s)) as [[e ev']|] eqn:E; [|done].
  intros [= <- <-]. unfold ok in *. cbn. destruct (answered s) as [[st info]|]; [done|].
  destruct Hok as (H1 & H2 & H3). destruct (EventClient.closed_step 2 l _ _ _ H2 E Hl) as [H4 H5].
  split_and!; [done..|]. by rewrite existsb_app, H3, suspends_no_pass.
Qed.

Lemma step_ok l s tr s' ev : ok s tr -> answer_wf l -> exec l s = Some (s', ev) -> ok s' (tr ++ ev).
Proof.
  intros Hok Hw. destruct l as [st info| |t sp]; [|by apply event_ok|by apply event_ok]. cbn -[ares_dns_callback Event.exec].
  unfold ok in Hok. destruct (answered s); [done|]. destruct Hok as (H1 & _ & _).
  assert (forall l, info = Some l -> Forall node_wf l) as Hi by (by intros l ->).
  destruct (callback_answer st info Hi) as (freed & Hc & _). rewrite H1, Hc. unfold lift.
  match goal with |- context [Event.exec 2 ?l ?e] => destruct (Event.exec 2 l e) as [[e' ev']|] end; [|done].
  by intros [= <- <-].
Qed.

Lemma dns_run_ok ls s tr s' ev : ok s tr -> Forall answer_wf ls -> run exec ls s = Some (s', ev) -> ok s' (tr ++ ev).
Proof.
  revert s tr ev. induction ls as [|l ls IH]; intros s tr ev Hok Hw; cbn; [intros [= <- <-]; by rewrite app_nil_r|].
  inversion_clear Hw as [|? ? Hl Hls]. destruct (exec l s) as [[s1 e1]|] eqn:E1; [|done].
  destruct (run exec ls s1) as [[s2 e2]|] eqn:E2; [|done]. intros [= <- <-]. rewrite app_assoc.
  eapply IH; [by eapply step_ok|done|done].
Qed.

(** [C35] host_by_name does not go on before c-ares has answered, and when it does the result it
    returns is the answer: the addresses of both families in their order, each well formed
    and of its length, or an error and none. *)
Theorem dns_lookup_returns_the_answer ls s tr :
  Forall answer_wf ls -> run exec ls host_by_name = Some (s, tr) -> existsb passes tr = true ->
  exists st info, answered s = Some (st, info) /\ res s = answer st info /\ Forall wf (m_ip_addresses (res s)) /\
    (m_status (res s) = complete <-> st = ARES_SUCCESS /\ info <> None).
Proof.
  intros Hw Hr Hp. assert (ok host_by_name []) as H0.
  { split_and!; [done| |done]. split; [discriminate|]. by intros t []. }
  pose proof (dns_run_ok ls host_by_name [] s tr H0 Hw Hr) as Hok. cbn in Hok. unfold ok in Hok.
  destruct (answered s) as [[st info]|] eqn:Ha; [|destruct Hok as (_ & _ & H); congruence].
  destruct Hok as [Hok Hi]. exists st, info. rewrite Hok. split_and!; [done..| |].
  - unfold answer. destruct info as [l|]; [|done]. destruct (st =? ARES_SUCCESS)%Z; [|done]. cbn.
    by apply addresses_wf, Hi.
  - unfold answer. destruct info as [l|]; [|by split; [|intros []]].
    destruct (Z.eqb_spec st ARES_SUCCESS); cbn; split; try done; by intros [].
Qed.

(** The coroutine awaits, c-ares answers with one address of each family and one of none,
    and set() resumes the coroutine. *)
Definition lookup : list label :=
  [Await; Ev 0 false; Ev 0 false; Ev 0 false;
   Answer 0 (Some [node_inet [127; 0; 0; 1]%Z; node_other 1; node_inet6 (replicate 15 0%Z ++ [1%Z])]);
   Ev 1 false; Ev 1 false; Ev 1 false].

Lemma dns_lookup_returns_the_answer_witness :
  exists s tr, run exec lookup host_by_name = Some (s, tr) /\ existsb passes tr = true /\
    exists st info, answered s = Some (st, info) /\ res s = answer st info.
Proof.
  destruct (run exec lookup host_by_name) as [[s tr]|] eqn:E; [|vm_compute in E; discriminate].
  exists s, tr. split; [reflexivity|]. assert (existsb passes tr = true) as Hp by (vm_compute in E; injection E as _ <-; reflexivity).
  split; [exact Hp|]. destruct (dns_lookup_returns_the_answer lookup s tr) as (st & info & H1 & H2 & _); [|exact E|exact Hp|eauto].
  repeat (apply Forall_cons; split); try apply Forall_nil; try exact I; cbn; (split; [reflexivity|]);
    repeat (apply Forall_cons; split; [unfold is_byte; lia|]); try apply Forall_nil; exact I.
Defined.
End DnsResult.

Module DnsPoll.
Import Poll.

(** ** The sockets of a channel

    make_poll_task(fd) is a detached task that polls its socket for as long as the map
    m_active_sockets has it; c-ares adds, changes and removes entries through
    ares_socket_state_callback. *)

Inductive tpc :=
| TNone
| TTest                             (* while (m_active_sockets.contains(fd)) *)
| TPolling (ops : poll_op)          (* co_await m_executor->poll(fd, ops, m_timeout) *)
| TDone.

Record state := mk_state {
  m_active_sockets : gmap nat poll_op;
  tfd : nat -> nat;                 (* the parameter fd of each task *)
  pcs : nat -> tpc;
  next : nat;                       (* how many tasks there have been *)
  alive : bool                      (* the resolver has not been destroyed *)
}.
Definition init : state := mk_state ∅ (fun _ => 0) (fun _ => TNone) 0 true.

Inductive label :=
| Callback (fd : nat) (readable writable : bool) (accepted : bool)   (* [accepted]: by spawn_detached *)
| Run (t : nat)
| Polled (t : nat) (st : poll_status)
| Destroy.

Inductive event :=
| EvSpawn (t fd : nat)
| EvRefused (fd : nat)
| EvReuse (fd : nat)                (* a socket is added while a task for that descriptor is still there *)
| EvPoll (t fd : nat) (ops : poll_op)
| EvProcess (read_fd write_fd : option nat)    (* ares_process_fd, None is ARES_SOCKET_BAD *)
| EvUseAfterFree (t : nat).

Definition live (p : tpc) : bool := match p with TTest | TPolling _ => true | _ => false end.
Definition busy (s : state) (fd : nat) : bool :=
  existsb (fun t => live (pcs s t) && bool_decide (tfd s t = fd)) (seq 0 (next s)).

Definition set_active (s : state) (m : gmap nat poll_op) : state := mk_state m (tfd s) (pcs s) (next s) (alive s).
Definition set_pc (s : state) (t : nat) (p : tpc) : state :=
  mk_state (m_active_sockets s) (tfd s) ((pcs s).[t ↦ p]) (next s) (alive s).

(** static_cast<poll_op>(ops), for the bits of the two flags; [None]: no bit *)
Definition of_bits (ops : Z) : option poll_op :=
  if (ops =? op_bits op_read)%Z then Some op_read
  else if (ops =? op_bits op_write)%Z then Some op_write
  else if (ops =? op_bits op_read_write)%Z then Some op_read_write else None.
Definition ops_of (readable writable : bool) : Z :=
  Z.lor (if readable then op_bits op_read else 0%Z) (if writable then op_bits op_write else 0%Z).

Definition spawn (s : state) (fd : nat) (accepted : bool) : state * list event :=
  if accepted then
    (mk_state (m_active_sockets s) ((tfd s).[next s ↦ fd]) ((pcs s).[next s ↦ TTest]) (S (next s)) (alive s), [EvSpawn (next s) fd])
  else (s, [EvRefused fd]).

Definition ares_socket_state_callback (s : state) (fd : nat) (readable writable accepted : bool) : state * list event :=
  match of_bits (ops_of readable writable) with
  | Some poll_ops =>                (* insert_or_assign *)
      let s1 := set_active s (<[fd := poll_ops]> (m_active_sockets s)) in
      match m_active_sockets s !! fd with
      | Some _ => (s1, [])
      | None => let '(s2, ev) := spawn s1 fd accepted in (s2, (if busy s fd then [EvReuse fd] else []) ++ ev)
      end
  | None => (set_active s (delete fd (m_active_sockets s)), [])
  end.

(** make_poll_task: the test and the start of a poll, and what follows it.  After the
    resolver is gone both touch freed memory. *)
Definition make_poll_task_test (s : state) (t : nat) : option (state * list event) :=
  match pcs s t with
  | TTest =>
      if negb (alive s) then Some (set_pc s t TDone, [EvUseAfterFree t])
      else
        match m_active_sockets s !! tfd s t with
        | Some ops => Some (set_pc s t (TPolling ops), [EvPoll t (tfd s t) ops])
        | None => Some (set_pc s t TDone, [])
        end
  | _ => None
  end.
Definition make_poll_task_polled (s : state) (t : nat) (st : poll_status) : option (state * list event) :=
  match pcs s t with
  | TPolling _ =>
      let fd := tfd s t in
      let s1 := set_pc s t TTest in
      if negb (alive s) then Some (set_pc s t TDone, [EvUseAfterFree t])
      else
        match st with
        | read => Some (s1, [EvProcess (Some fd) None])
        | write => Some (s1, [EvProcess None (Some fd)])
        | timeout => Some (s1, [EvProcess None None])
        | closed | error | cancelled => Some (set_active s1 (delete fd (m_active_sockets s1)), [])
        end
  | _ => None
  end.

(** ~resolver: ares_destroy closes its sockets, with a callback for each, and the map goes *)
Definition destroy (s : state) : state := mk_state ∅ (tfd s) (pcs s) (next s) false.

Definition exec (l : label) (s : state) : option (state * list event) :=
  match l with
  | Callback fd r w a => if alive s then Some (ares_socket_state_callback s fd r w a) else None
  | Run t => make_poll_task_test s t
  | Polled t st => make_poll_task_polled s t st
  | Destroy => if alive s then Some (destroy s, []) else None
  end.

(** The flags become the poll operation that has exactly them. *)
Lemma ops_of_bits r w : of_bits (ops_of r w) =
  if r then Some (if w then op_read_write else op_read) else if w then Some op_write else None.
Proof. by destruct r, w. Qed.

(** ** One poll task per socket *)

Record inv (s : state) : Prop := {
  i_next : forall t, next s <= t -> pcs s t = TNone;
  i_task : forall fd, m_active_sockets s !! fd <> None -> exists t, live (pcs s t) = true /\ tfd s t = fd;
  i_one : forall t u, live (pcs s t) = true -> live (pcs s u) = true -> tfd s t = tfd s u -> t = u
}.

Definition clean (tr : list event) : Prop := (forall fd, EvReuse fd ∉ tr) /\ forall fd, EvRefused fd ∉ tr.

Lemma dns_init_inv : inv init.
Proof. constructor; cbn; [done|intros fd; by rewrite lookup_empty|done]. Qed.

Lemma live_bound s t : inv s -> live (pcs s t) = true -> t < next s.
Proof. intros I Ht. destruct (decide (t < next s)); [done|]. rewrite (i_next s I t) in Ht; [done|lia]. Qed.

Lemma busy_false s fd t : inv s -> busy s fd = false -> live (pcs s t) = true -> tfd s t <> fd.
Proof.
  intros I Hb Ht Hfd. pose proof (live_bound s t I Ht) as Hlt.
  assert (busy s fd = true); [|congruence]. apply existsb_exists. exists t. rewrite Ht, bool_decide_eq_true_2 by done.
  split; [|done]. apply in_seq. lia.
Qed.

(** Fewer active sockets, the same tasks. *)
Lemma inv_shrink s m : inv s -> (forall fd, m !! fd <> None -> m_active_sockets s !! fd <> None) -> inv (set_active s m).
Proof. intros [I1 I2 I3] Hm. constructor; cbn; auto. Qed.

Lemma inv_stay s t p : inv s -> live (pcs s t) = true -> live p = true -> inv (set_pc s t p).
Proof.
  intros I Ht Hp. pose proof (live_bound s t I Ht) as Hlt. destruct I as [I1 I2 I3].
  assert (forall u, live ((pcs s).[t ↦ p] u) = live (pcs s u)) as E by (intros u; upd_cases; congruence).
  constructor; cbn.
  - intros u Hu. rewrite upd_ne by lia. auto.
  - intros fd Hfd. destruct (I2 fd Hfd) as (u & Hu & Hf). exists u. by rewrite E.
  - intros u v. rewrite !E. apply I3.
Qed.

Lemma inv_end s t : inv s -> live (pcs s t) = true -> m_active_sockets s !! tfd s t = None -> inv (set_pc s t TDone).
Proof.
  intros I Ht Hn. pose proof (live_bound s t I Ht) as Hlt. destruct I as [I1 I2 I3]. constructor; cbn.
  - intros u Hu. rewrite upd_ne by lia. auto.
  - intros fd Hfd. destruct (I2 fd Hfd) as (u & Hu & Hf). exists u. rewrite upd_ne; [done|]. intros ->. congruence.
  - intros u v. upd_cases; try done. apply I3.
Qed.

Lemma inv_spawn s fd op : inv s -> busy s fd = false ->
  inv (fst (spawn (set_active s (<[fd := op]> (m_active_sockets s))) fd true)).
Proof.
  intros I Hb. pose proof (busy_false s fd) as Hbf. pose proof (live_bound s) as Hlb. pose proof I as [I1 I2 I3]. constructor; cbn.
  - intros t Ht. rewrite upd_ne by lia. apply I1. lia.
  - intros g Hg. destruct (decide (g = fd)) as [->|Hne].
    + exists (next s). by rewrite !upd_eq.
    + rewrite lookup_insert_ne in Hg by done. destruct (I2 g Hg) as (t & Ht & Hf). exists t.
      specialize (Hlb t I Ht). by rewrite !upd_ne by lia.
  - intros t u. destruct (decide (t = next s)) as [->|], (decide (u = next s)) as [->|]; rewrite ?upd_eq, ?upd_ne by done; try done.
    + intros _ Hu Hf. by destruct (Hbf u I Hb Hu).
    + intros Ht _ Hf. by destruct (Hbf t I Hb Ht).
    + apply I3.
Qed.

Lemma callback_inv s fd r w a s' ev : inv s -> clean ev -> ares_socket_state_callback s fd r w a = (s', ev) -> inv s'.
Proof.
  intros I Hc. unfold ares_socket_state_callback. destruct (of_bits (ops_of r w)) as [op|].
  - destruct (m_active_sockets s !! fd) as [old|] eqn:Hl.
    + intros [= <- <-]. apply inv_shrink; [done|]. intros g. destruct (decide (g = fd)) as [->|]; [by rewrite Hl|by rewrite lookup_insert_ne].
    + destruct (spawn _ fd a) as [s2 ev2] eqn:Hs. intros [= <- <-]. destruct Hc as [H1 H2].
      destruct (busy s fd) eqn:Hb; [destruct (H1 fd); set_solver|]. destruct a.
      * pose proof (inv_spawn s fd op I Hb) as Hi. by rewrite Hs in Hi.
      * injection Hs as <- <-. destruct (H2 fd). set_solver.
  - intros [= <- <-]. apply inv_shrink; [done|]. intros g Hg ?. destruct (decide (g = fd)) as [->|];
      [by rewrite lookup_delete_eq in Hg|by rewrite lookup_delete_ne in Hg].
Qed.

Lemma delete_shrink (m : gmap nat poll_op) fd g : delete fd m !! g <> None -> m !! g <> None.
Proof. destruct (decide (g = fd)) as [->|]; [by rewrite lookup_delete_eq|by rewrite lookup_delete_ne]. Qed.

Lemma task_inv s l s' ev : inv s -> alive s = true ->
  (exists t, l = Run t) \/ (exists t st, l = Polled t st) -> exec l s = Some (s', ev) ->
  inv s' /\ alive s' = true /\ forall t, EvUseAfterFree t ∉ ev.
Proof.
  intros I Ha [[t ->]|(t & st & ->)]; cbn.
  - unfold make_poll_task_test. destruct (pcs s t) eqn:Ht; try done. rewrite Ha. cbn.
    destruct (m_active_sockets s !! tfd s t) eqn:Hl; intros [= <- <-]; (split_and!; [|done|set_solver]).
    + apply inv_stay; by rewrite ?Ht.
    + apply inv_end; by rewrite ?Ht.
  - unfold make_poll_task_polled. destruct (pcs s t) eqn:Ht; try done. rewrite Ha. cbn.
    assert (inv (set_pc s t TTest)) as I' by (apply inv_stay; by rewrite ?Ht).
    destruct st; intros [= <- <-]; (split_and!; [|done|set_solver]); try done; apply inv_shrink; try done; apply delete_shrink.
Qed.

Lemma clean_app a b : clean (a ++ b) -> clean a /\ clean b.
Proof. unfold clean. set_solver. Qed.

Lemma reach_inv_dns s tr : reach exec init s tr ->
  clean tr -> alive s = true -> inv s /\ forall t, EvUseAfterFree t ∉ tr.
Proof.
  revert s tr. apply (reach_inv exec (fun s tr => clean tr -> alive s = true -> inv s /\ forall t, EvUseAfterFree t ∉ tr)).
  - intros _ _. split; [apply dns_init_inv|set_solver].
  - intros s tr l s' ev IH He Hc Ha. apply clean_app in Hc as [Hc1 Hc2].
    assert (alive s = true) as Hs.
    { destruct l; cbn in He; unfold make_poll_task_test, make_poll_task_polled in He; destruct (alive s) eqn:E; try done;
        exec_inv; congruence. }
    destruct (IH Hc1 Hs) as [I U]. assert (inv s' /\ forall t, EvUseAfterFree t ∉ ev) as [I' U'].
    { destruct l as [fd r w a|t|t st|]; [| | |cbn in He; rewrite Hs in He; simplify_eq].
      - cbn in He. rewrite Hs in He. injection He as He. split; [by eapply callback_inv|]. intros t Ht. revert He.
        unfold ares_socket_state_callback, spawn. repeat case_match; intros [= <- <-]; set_solver.
      - destruct (task_inv s (Run t) s' ev I Hs ltac:(eauto) He) as (? & _ & ?). done.
      - destruct (task_inv s (Polled t st) s' ev I Hs ltac:(eauto) He) as (? & _ & ?). done. }
    split; [done|]. set_solver.
Qed.

(** While the resolver lives, and as long as no socket number comes back before the task of
    its predecessor has ended and the executor takes the tasks, every socket c-ares wants
    polled has exactly one poll task, and no task touches freed memory. *)
Theorem dns_one_poll_task_per_socket s tr :
  reach exec init s tr -> alive s = true -> (forall fd, EvReuse fd ∉ tr) -> (forall fd, EvRefused fd ∉ tr) ->
  (forall fd, m_active_sockets s !! fd <> None -> exists t, live (pcs s t) = true /\ tfd s t = fd) /\
  (forall t u, live (pcs s t) = true -> live (pcs s u) = true -> tfd s t = tfd s u -> t = u) /\
  (forall t, EvUseAfterFree t ∉ tr).
Proof.
  intros Hr Ha H1 H2. destruct (reach_inv_dns s tr Hr (conj H1 H2) Ha) as [[_ I2 I3] U]. auto.
Qed.

(** c-ares closes a socket and opens one with the same number (a retry after a timeout)
    while the task is still in poll(): the map has no entry, so a second task is spawned,
    and both poll the same descriptor. *)
Theorem dns_reused_socket_polled_twice :
  exists ls s tr, run exec ls init = Some (s, tr) /\ pcs s 0 = TPolling op_read /\ pcs s 1 = TPolling op_read /\ tfd s 0 = tfd s 1.
Proof.
  exists [Callback 5 true false true; Run 0; Callback 5 false false true; Callback 5 true false true; Run 1].
  do 2 eexists. split; [vm_compute; reflexivity|]. by split_and!.
Qed.

(** A resolver that is destroyed while a poll task is suspended: the task reads the map of
    the freed resolver when it is resumed. *)
Theorem dns_destroyed_resolver_use_after_free :
  exists ls s tr, run exec ls init = Some (s, tr) /\ EvUseAfterFree 0 ∈ tr.
Proof.
  exists [Callback 5 true false true; Run 0; Destroy; Polled 0 read]. do 2 eexists. split; [vm_compute; reflexivity|]. set_solver.
Qed.

Lemma dns_one_poll_task_per_socket_witness :
  exists s tr, run exec [Callback 5 true false true; Run 0; Callback 6 true true true; Run 1; Polled 0 timeout] init = Some (s, tr) /\
    forall t u, live (pcs s t) = true -> live (pcs s u) = true -> tfd s t = tfd s u -> t = u.
Proof.
  destruct (run exec [Callback 5 true false true; Run 0; Callback 6 true true true; Run 1; Polled 0 timeout] init) as [[s tr]|] eqn:E;
    [|vm_compute in E; discriminate].
  exists s, tr. split; [reflexivity|]. refine (proj1 (proj2 (dns_one_poll_task_per_socket s tr (run_reach _ _ _ _ _ E) _ _ _)));
    vm_compute in E; injection E as <- <-; [reflexivity|intros fd; set_solver..].
Defined.
End DnsPoll.

Module AresLibrary.
Local Open Scope Z_scope.

(** detail::m_ares_count under detail::m_ares_mutex: the constructor and the destructor of
    resolver.  [lib] is whether the library is initialised, [leaked] how many constructors
    threw after they had counted themselves. *)
Record state := mk_state { m_ares_count : Z; lib : bool; resolvers : nat; leaked : nat }.
Definition init : state := mk_state 0 false 0 0.

Inductive label :=
| New (executor lib_ok channel_ok : bool)   (* not null; the results of c-ares *)
| Delete.
Inductive event := EvInit | EvCleanup | EvThrow.

(** resolver(executor, timeout) *)
Definition new_resolver (s : state) (executor lib_ok channel_ok : bool) : state * list event :=
  if negb executor then (s, [EvThrow])
  else if (m_ares_count s =? 0) && negb lib_ok then (s, [EvThrow])
  else
    let ev := if m_ares_count s =? 0 then [EvInit] else [] in
    let s1 := mk_state (u64 (m_ares_count s + 1)) true (resolvers s) (leaked s) in
    if channel_ok then (mk_state (m_ares_count s1) (lib s1) (S (resolvers s1)) (leaked s1), ev)
    else (mk_state (m_ares_count s1) (lib s1) (resolvers s1) (S (leaked s1)), ev ++ [EvThrow]).

(** ~resolver *)
Definition delete_resolver (s : state) : state * list event :=
  let n := u64 (m_ares_count s - 1) in
  if n =? 0 then (mk_state n false (pred (resolvers s)) (leaked s), [EvCleanup])
  else (mk_state n (lib s) (pred (resolvers s)) (leaked s), []).

Definition exec (l : label) (s : state) : option (state * list event) :=
  match l with
  | New e a c => if (Z.of_nat (resolvers s + leaked s) <? u64_max) then Some (new_resolver s e a c) else None
  | Delete => match resolvers s with O => None | S _ => Some (delete_resolver s) end
  end.

(** The count is that of the resolvers and of the constructors that threw; the library is
    initialised exactly while it is positive: always when a resolver is there, and - unless
    a constructor has thrown after counting itself - only then. *)
Theorem ares_library_lifetime s tr :
  reach exec init s tr ->
  m_ares_count s = Z.of_nat (resolvers s + leaked s) /\ (lib s = true <-> 0 < m_ares_count s) /\
  (leaked s = 0%nat -> lib s = true <-> (0 < resolvers s)%nat).
Proof.
  intros Hr. assert (m_ares_count s = Z.of_nat (resolvers s + leaked s) /\ (lib s = true <-> 0 < m_ares_count s) /\
    Z.of_nat (resolvers s + leaked s) <= u64_max) as (H1 & H2 & _).
  { revert s tr Hr. apply (reach_state_inv exec (fun s => m_ares_count s = Z.of_nat (resolvers s + leaked s) /\
      (lib s = true <-> 0 < m_ares_count s) /\ Z.of_nat (resolvers s + leaked s) <= u64_max)); [by cbn|].
    intros s [e a c|] s' ev (I1 & I2 & I3); cbn.
    - destruct (Z.ltb_spec (Z.of_nat (resolvers s + leaked s)) u64_max) as [Hlt|]; [|done]. intros [= H].
      unfold new_resolver in H. destruct (negb e); [by injection H as <- <-|]. case_match; [by injection H as <- <-|].
      rewrite I1, u64_small in H by lia. destruct c; injection H as <- <-; cbn; (split_and!; [lia| |lia]); (split; [lia|done]).
    - destruct (resolvers s) as [|r] eqn:Er; [done|]. intros [= H]. unfold delete_resolver in H.
      rewrite I1, Er, u64_small in H by (unfold u64_max in *; lia).
      destruct (Z.eqb_spec (Z.of_nat (S r + leaked s) - 1) 0); injection H as <- <-; cbn; (split_and!; [lia| |lia]).
      + split; [done|lia].
      + split; [lia|]. intros _. apply I2. lia. }
  split_and!; [done..|]. intros Hl. rewrite H2, H1, Hl. lia.
Qed.

(** A channel that cannot be created leaves the count one too high: the library is never
    cleaned up again. *)
Theorem ares_count_leaks :
  exists s tr, run exec [New true true false; New true true true; Delete] init = Some (s, tr) /\
    resolvers s = 0%nat /\ lib s = true /\ EvCleanup ∉ tr.
Proof. do 2 eexists. split; [vm_compute; reflexivity|]. split_and!; try done. set_solver. Qed.

Lemma ares_library_lifetime_witness :
  exists s tr, run exec [New true true true; New true true true; Delete] init = Some (s, tr) /\ lib s = true.
Proof.
  destruct (run exec [New true true true; New true true true; Delete] init) as [[s tr]|] eqn:E; [|vm_compute in E; discriminate].
  exists s, tr. split; [reflexivity|]. destruct (ares_library_lifetime s tr (run_reach _ _ _ _ _ E)) as (_ & H & _).
  apply H. vm_compute in E. injection E as <- _. reflexivity.
Defined.
End AresLibrary.
