(* ===== verification/ConditionVariable.v ===== *)
(** * coro::condition_variable (include/coro/condition_variable.hpp,
    src/condition_variable.cpp)

    [ConditionVariable]: wait(lock), wait(lock, predicate) and
    wait(lock, stop_token, predicate) with notify_one, notify_all and notify_all on an
    executor, in any interleaving.  The mutex of the lock is its specification (an owner;
    Mutex.v shows that coro::mutex meets it).  Of the awaiter list, push and pop_all are
    one step (AwaiterList.v shows that they take effect at their compare-exchange); pop,
    which several notify_one calls may run at once, is the code's load of the head, read of
    its m_next and compare-exchange, and a pop that goes wrong because another consumer
    took the waiter in between (the ABA of AwaiterList.v) shows as [EvStale].  A coroutine
    that resumes a waiter has locked the mutex for it, so the ownership passes to the
    waiter.

    [WaitFor]: the contest between the notification and the timeout of wait_for and
    wait_until, in the controller task of one such wait. *)
From stdpp Require Import base list relations option numbers.
From Stdlib Require Import ZArith Lia.
From S2P Require Import Prelude.

Module ConditionVariable.

Section cv.
Variables N M : nat.              (* coroutines that lock and wait; notifiers *)

Inductive wait_kind := WPlain | WPredicate | WStopToken.
Inductive wpc :=
| WIdle
| WHeld                           (* holds the lock *)
| WPushed (k : wait_kind)         (* await_suspend: pushed, before m_mutex->unlock() *)
| WSuspended (k : wait_kind).

(** A notifier.  [one]: notify_one, whose loop ends with the first waiter it finds; [rest]:
    the waiters notify_all still has to notify. *)
Inductive npc :=
| NIdle
| NPop                                            (* awaiter_list_pop: before the load *)
| NNextPtr (h : nat)                              (* ... before the read of h->m_next *)
| NCas (h : nat) (nx : option nat)                (* ... before the compare-exchange from h to nx *)
| NStale                                          (* ... which used a pointer that is not h's any more *)
| NNext (rest : list nat)                         (* notify_all: the loop *)
| NLock (one : bool) (i : nat) (rest : list nat)  (* on_notify: before m_mutex->lock() *)
| NEval (one : bool) (i : nat) (rest : list nat)  (* ... holding it, before the predicate *)
| NUnlock (one : bool) (i : nat) (rest : list nat)(* ... before m_mutex->unlock() *)
| NPush (one : bool) (i : nat) (rest : list nat). (* not_ready: before awaiter_list_push *)

Inductive owner := OWaiter (i : nat) | ONotifier (j : nat).

Record state := mk_state {
  m_mutex : option owner;
  m_awaiters : list nat;          (* newest first *)
  wpcs : nat -> wpc;
  npcs : nat -> npc;
  predicate : nat -> bool;        (* what each waiter's predicate returns now *)
  stop_requested : nat -> bool;
  spawned : list nat;             (* notify tasks handed to an executor, not started *)
  m_next : nat -> option nat;     (* awaiter_base::m_next, as the last push wrote it *)
  overlap : bool                  (* history: waiters were taken off m_awaiters while another
                                     notify_one was between its load and its compare-exchange *)
}.

Definition init : state :=
  mk_state None [] (fun _ => WIdle) (fun _ => NIdle) (fun _ => false) (fun _ => false) [] (fun _ => None) false.

Inductive label :=
| LLock (i : nat)
| LUnlock (i : nat)
| LSet (i k : nat) (b : bool)     (* coroutine i, holding the lock, changes what k waits for *)
| LRequestStop (k : nat)
| LWait (i : nat) (k : wait_kind)
| LSuspend (i : nat)              (* the unlock() of await_suspend *)
| LNotifyOne (j : nat)
| LNotifyAll (j : nat)
| LNotifyAllExecutor
| LStart (j : nat)                (* an executor runs a spawned notify task *)
| LNotifier (j : nat).

Inductive event :=
| EvWait (i : nat)                (* suspends *)
| EvReady (i : nat)               (* the predicate held at once *)
| EvResume (i : nat)
| EvNotified (j : nat)            (* notify_one / notify_all has completed *)
| EvStale (j : nat).              (* a pop reads m_next of a waiter that has been resumed, or
                                     installs a next pointer that is not the head's *)

Definition set_w (s : state) (i : nat) (p : wpc) (o : option owner) : state :=
  mk_state o (m_awaiters s) ((wpcs s).[i ↦ p]) (npcs s) (predicate s) (stop_requested s) (spawned s) (m_next s) (overlap s).
Definition set_n (s : state) (j : nat) (p : npc) (o : option owner) (l : list nat) : state :=
  mk_state o l (wpcs s) ((npcs s).[j ↦ p]) (predicate s) (stop_requested s) (spawned s) (m_next s) (overlap s).

(** awaiter_list_push writes the waiter's m_next *)
Definition link (s : state) (i : nat) : state :=
  mk_state (m_mutex s) (m_awaiters s) (wpcs s) (npcs s) (predicate s) (stop_requested s) (spawned s)
    ((m_next s).[i ↦ head (m_awaiters s)]) (overlap s).

(** A notifier between the load and the compare-exchange of awaiter_list_pop *)
Definition mid_pop (p : npc) : bool := match p with NNextPtr _ | NCas _ _ => true | _ => false end.
(** [taker] (no notifier: a coroutine in notify_all(executor)) takes waiters off the list *)
Definition take (s : state) (taker : option nat) : state :=
  mk_state (m_mutex s) (m_awaiters s) (wpcs s) (npcs s) (predicate s) (stop_requested s) (spawned s) (m_next s)
    (overlap s || existsb (fun j => bool_decide (Some j <> taker) && mid_pop (npcs s j)) (seq 0 M)).

(** await_ready *)
Definition await_ready (s : state) (i : nat) (k : wait_kind) : bool :=
  match k with WPlain => false | WPredicate | WStopToken => predicate s i end.

(** co_await wait(...): await_ready, then await_suspend up to the unlock *)
Definition wait (s : state) (i : nat) (k : wait_kind) : option (state * list event) :=
  match wpcs s i with
  | WHeld =>
      if await_ready s i k then Some (s, [EvReady i])
      else
        let s1 := link s i in
        Some (mk_state (m_mutex s1) (i :: m_awaiters s1) ((wpcs s1).[i ↦ WPushed k]) (npcs s1) (predicate s1) (stop_requested s1)
                (spawned s1) (m_next s1) (overlap s1), [EvWait i])
  | _ => None
  end.

(** The test of on_notify, holding the lock *)
Definition on_notify_ready (s : state) (i : nat) (k : wait_kind) : bool :=
  match k with
  | WPlain => true
  | WPredicate => predicate s i
  | WStopToken => predicate s i || stop_requested s i
  end.

(** After on_notify returned: notify_one is done, notify_all goes on *)
Definition finish (one : bool) (rest : list nat) : npc := if one then NIdle else NNext rest.
Definition done_event (j : nat) (one : bool) : list event := if one then [EvNotified j] else [].

(** The resumed waiter owns the lock when the notifier that resumes it had locked it for
    it; without that the lock stays as it is. *)
Definition hand_over (o : option owner) (j i : nat) : option owner :=
  match o with Some (ONotifier x) => if decide (x = j) then Some (OWaiter i) else o | _ => o end.

(** on_notify: lock, test, resume or unlock *)
Definition on_notify (s : state) (j : nat) (p : npc) : option (state * list event) :=
  match p with
  | NLock one i rest =>
      match m_mutex s with
      | None => Some (set_n s j (NEval one i rest) (Some (ONotifier j)) (m_awaiters s), [])
      | Some _ => None
      end
  | NEval one i rest =>
      match wpcs s i with
      | WPushed k | WSuspended k =>
          if on_notify_ready s i k then
            (* m_awaiting_coroutine.resume(): the waiter owns the lock *)
            Some (set_w (set_n s j (finish one rest) (m_mutex s) (m_awaiters s)) i WHeld (hand_over (m_mutex s) j i),
                  EvResume i :: done_event j one)
          else Some (set_n s j (NUnlock one i rest) (m_mutex s) (m_awaiters s), [])
      | _ => None
      end
  | NUnlock one i rest => Some (set_n s j (NPush one i rest) None (m_awaiters s), [])
  | _ => None
  end.

(** An executor starts make_notify_all_executor_individual_task for the next waiter: on_notify,
    and the waiter is pushed again when it was not ready, as in notify_one. *)
Definition start_individual_task (s : state) (j : nat) : option (state * list event) :=
  match npcs s j, spawned s with
  | NIdle, i :: l =>
      Some (mk_state (m_mutex s) (m_awaiters s) (wpcs s) ((npcs s).[j ↦ NLock true i []]) (predicate s) (stop_requested s) l
              (m_next s) (overlap s), [])
  | _, _ => None
  end.

(** awaiter_list_pop with the head as it was last seen: nobody to notify, or on to its m_next *)
Definition pop_head (s : state) (j : nat) : state * list event :=
  match m_awaiters s with
  | [] => (set_n s j NIdle (m_mutex s) (m_awaiters s), [EvNotified j])
  | h :: _ => (set_n s j (NNextPtr h) (m_mutex s) (m_awaiters s), [])
  end.

(** waiter->m_next, in the awaiter of a coroutine that must not have been resumed *)
Definition pop_next (s : state) (j h : nat) : state * list event :=
  match wpcs s h with
  | WPushed _ | WSuspended _ => (set_n s j (NCas h (m_next s h)) (m_mutex s) (m_awaiters s), [])
  | _ => (set_n s j NStale (m_mutex s) (m_awaiters s), [EvStale j])
  end.

(** list.compare_exchange_weak(waiter, waiter->m_next): a failure loads the head again *)
Definition pop_cas (s : state) (j h : nat) (nx : option nat) : state * list event :=
  match m_awaiters s with
  | h' :: l =>
      if decide (h' = h) then
        if decide (nx = head l) then (set_n (take s (Some j)) j (NLock true h []) (m_mutex s) l, [])
        else (set_n s j NStale (m_mutex s) (m_awaiters s), [EvStale j])
      else pop_head s j
  | [] => pop_head s j
  end.

(** notify_one, notify_all and the on_notify of the waiter they are at *)
Definition exec_notifier (s : state) (j : nat) : option (state * list event) :=
  match npcs s j with
  | NIdle | NStale => None
  | NPop => Some (pop_head s j)
  | NNextPtr h => Some (pop_next s j h)
  | NCas h nx => Some (pop_cas s j h nx)
  | NNext [] => Some (set_n s j NIdle (m_mutex s) (m_awaiters s), [EvNotified j])
  | NNext (i :: l) => Some (set_n s j (NLock false i l) (m_mutex s) (m_awaiters s), [])
  | NLock _ _ _ as p | NEval _ _ _ as p | NUnlock _ _ _ as p => on_notify s j p
  | NPush one i rest => Some (set_n (link s i) j (finish one rest) (m_mutex s) (i :: m_awaiters s), done_event j one)
  end.

Definition exec (l : label) (s : state) : option (state * list event) :=
  match l with
  | LLock i =>
      if decide (i < N) then
        match wpcs s i, m_mutex s with
        | WIdle, None => Some (set_w s i WHeld (Some (OWaiter i)), [])
        | _, _ => None
        end
      else None
  | LUnlock i =>
      match wpcs s i with WHeld => Some (set_w s i WIdle None, []) | _ => None end
  | LSet i k b =>
      match wpcs s i with
      | WHeld => Some (mk_state (m_mutex s) (m_awaiters s) (wpcs s) (npcs s) ((predicate s).[k ↦ b]) (stop_requested s) (spawned s)
                        (m_next s) (overlap s), [])
      | _ => None
      end
  | LRequestStop k =>
      Some (mk_state (m_mutex s) (m_awaiters s) (wpcs s) (npcs s) (predicate s) ((stop_requested s).[k ↦ true]) (spawned s)
              (m_next s) (overlap s), [])
  | LWait i k => wait s i k
  | LSuspend i => match wpcs s i with WPushed k => Some (set_w s i (WSuspended k) None, []) | _ => None end
  | LNotifyOne j =>
      if decide (j < M) then match npcs s j with NIdle => Some (set_n s j NPop (m_mutex s) (m_awaiters s), []) | _ => None end else None
  | LNotifyAll j =>               (* awaiter_list_pop_all *)
      if decide (j < M) then match npcs s j with NIdle => Some (set_n (take s (Some j)) j (NNext (m_awaiters s)) (m_mutex s) [], []) | _ => None end else None
  | LNotifyAllExecutor =>
      let s1 := take s None in
      Some (mk_state (m_mutex s1) [] (wpcs s1) (npcs s1) (predicate s1) (stop_requested s1) (spawned s1 ++ m_awaiters s1)
              (m_next s1) (overlap s1), [])
  | LStart j =>
      if decide (j < M) then start_individual_task s j else None
  | LNotifier j => exec_notifier s j
  end.

(** ** Invariants *)

Definition waiting (p : wpc) : bool := match p with WPushed _ | WSuspended _ => true | _ => false end.
Definition b2n (b : bool) : nat := if b then 1 else 0.

(** The waiters in a notifier's hands. *)
Definition held (p : npc) : list nat :=
  match p with
  | NIdle | NPop | NNextPtr _ | NCas _ _ | NStale => []
  | NNext rest => rest
  | NLock _ i rest | NEval _ i rest | NUnlock _ i rest | NPush _ i rest => i :: rest
  end.
Definition total (s : state) (i : nat) : nat :=
  occ i (m_awaiters s) + occ i (spawned s) + sum_below (fun j => occ i (held (npcs s j))) M.

Record inv (s : state) : Prop := {
  i_total i : total s i = b2n (waiting (wpcs s i));
  i_owner_w i : m_mutex s = Some (OWaiter i) <-> match wpcs s i with WHeld | WPushed _ => True | _ => False end;
  i_owner_n j : m_mutex s = Some (ONotifier j) <-> match npcs s j with NEval _ _ _ | NUnlock _ _ _ => True | _ => False end;
  i_idle j : M <= j -> npcs s j = NIdle
}.

Lemma sum_zero f n : (forall i, i < n -> f i = 0) -> sum_below f n = 0.
Proof. induction n as [|n IH]; intros H; cbn; [done|]. rewrite H, IH by (intros; try apply H; lia). done. Qed.

Lemma total_move s j p i : j < M ->
  sum_below (fun x => occ i (held ((npcs s).[j ↦ p] x))) M + occ i (held (npcs s j)) =
  sum_below (fun x => occ i (held (npcs s x))) M + occ i (held p).
Proof. intros Hj. exact (sum_move (fun q => occ i (held q)) (npcs s) j p M Hj). Qed.

Lemma cv_init_inv : inv init.
Proof.
  split; cbn; try done. intros i. unfold total. cbn. by rewrite sum_zero.
Qed.

Lemma inv_data s f g nx ov : inv s -> inv (mk_state (m_mutex s) (m_awaiters s) (wpcs s) (npcs s) f g (spawned s) nx ov).
Proof. by intros [H1 H2 H3 H4]. Qed.

Lemma active_lt s j : inv s -> npcs s j <> NIdle -> j < M.
Proof. intros Hi Hj. destruct (decide (j < M)); [done|]. destruct Hj. apply Hi. lia. Qed.

(** A notifier moves, taking waiters off the list or putting them back. *)
Lemma inv_notifier s j p o l : inv s -> j < M ->
  (forall i, occ i l + occ i (held p) = occ i (m_awaiters s) + occ i (held (npcs s j))) ->
  (forall i, o = Some (OWaiter i) <-> m_mutex s = Some (OWaiter i)) ->
  (forall x, o = Some (ONotifier x) <-> if decide (x = j) then match p with NEval _ _ _ | NUnlock _ _ _ => True | _ => False end
                                         else m_mutex s = Some (ONotifier x)) ->
  inv (set_n s j p o l).
Proof.
  intros [H1 H2 H3 H4] Hj Hocc How Hon. split; cbn.
  - intros i. rewrite <- (H1 i). unfold total. cbn. pose proof (total_move s j p i Hj). specialize (Hocc i). lia.
  - intros i. rewrite How. apply H2.
  - intros x. rewrite Hon. destruct (decide (x = j)) as [->|Hne]; [by rewrite upd_eq|rewrite upd_ne by done; apply H3].
  - intros x Hx. upd_cases; [lia|by apply H4].
Qed.

(** ... without touching the lock. *)
Definition locking (p : npc) : Prop := match p with NEval _ _ _ | NUnlock _ _ _ => True | _ => False end.
Lemma cv_inv_move s j p l : inv s -> j < M ->
  (forall i, occ i l + occ i (held p) = occ i (m_awaiters s) + occ i (held (npcs s j))) ->
  (locking p <-> locking (npcs s j)) -> inv (set_n s j p (m_mutex s) l).
Proof.
  intros Hinv Hj Hocc Hl. apply inv_notifier; try done. intros x. destruct (decide (x = j)) as [->|]; [|done].
  pose proof (i_owner_n s Hinv j) as H. unfold locking in Hl. tauto.
Qed.

Lemma owner_free s : inv s -> m_mutex s = None ->
  (forall i, wpcs s i <> WHeld /\ forall k, wpcs s i <> WPushed k) /\
  (forall j, match npcs s j with NEval _ _ _ | NUnlock _ _ _ => False | _ => True end).
Proof.
  intros [H1 H2 H3 H4] Ho. split.
  - intros i. specialize (H2 i). rewrite Ho in H2. destruct (wpcs s i); (split; [|intros ?]); try done; by destruct H2 as [_ H2]; discriminate H2.
  - intros j. specialize (H3 j). rewrite Ho in H3. destruct (npcs s j); try done; by destruct H3 as [_ H3]; discriminate H3.
Qed.

(** A coroutine locks, unlocks or suspends. *)
Lemma inv_waiter s i p o : inv s -> waiting p = waiting (wpcs s i) ->
  (forall x, o = Some (OWaiter x) <-> if decide (x = i) then match p with WHeld | WPushed _ => True | _ => False end
                                       else m_mutex s = Some (OWaiter x)) ->
  (forall j, o = Some (ONotifier j) <-> m_mutex s = Some (ONotifier j)) -> inv (set_w s i p o).
Proof.
  intros [H1 H2 H3 H4] Hw How Hon. split; cbn; [| | |done].
  - intros x. etrans; [exact (H1 x)|]. upd_cases; by rewrite ?Hw.
  - intros x. rewrite How. destruct (decide (x = i)) as [->|Hne]; [by rewrite upd_eq|rewrite upd_ne by done; apply H2].
  - intros x. rewrite Hon. apply H3.
Qed.

Lemma held_waiting s j i : inv s -> j < M -> 0 < occ i (held (npcs s j)) -> waiting (wpcs s i) = true.
Proof.
  intros Hinv Hj Ho. pose proof (i_total s Hinv i) as Ht. unfold total in Ht.
  pose proof (sum_pos (fun x => occ i (held (npcs s x))) M j Hj) as Hs. cbn in Hs. destruct (waiting (wpcs s i)); [done|]. cbn in Ht. lia.
Qed.

(** The waiter a notifier evaluates for has unlocked: it is suspended. *)
Lemma eval_suspended s j one i rest : inv s -> npcs s j = NEval one i rest -> exists k, wpcs s i = WSuspended k.
Proof.
  intros Hinv Hp. assert (j < M) as Hj by (apply (active_lt s); [done|by rewrite Hp]).
  pose proof (held_waiting s j i Hinv Hj) as Hw. rewrite Hp in Hw. cbn in Hw. rewrite decide_True in Hw by done. specialize (Hw ltac:(lia)).
  destruct (wpcs s i) as [| |k|k] eqn:Hi; try done; [|eauto].
  pose proof (proj2 (i_owner_w s Hinv i)) as Ho. rewrite Hi in Ho. specialize (Ho I).
  pose proof (proj2 (i_owner_n s Hinv j)) as Hn. rewrite Hp in Hn. specialize (Hn I). congruence.
Qed.

Lemma resume_inv s j one i rest k : inv s -> npcs s j = NEval one i rest -> wpcs s i = WSuspended k ->
  inv (set_w (set_n s j (finish one rest) (m_mutex s) (m_awaiters s)) i WHeld (hand_over (m_mutex s) j i)) \/ (one = true /\ rest <> []).
Proof.
  intros Hinv Hp Hi. destruct (decide (one = true /\ rest <> [])) as [|Hok]; [by right|left].
  assert (j < M) as Hj by (apply (active_lt s); [done|by rewrite Hp]). pose proof Hinv as [H1 H2 H3 H4].
  assert (m_mutex s = Some (ONotifier j)) as Ho by (apply H3; by rewrite Hp).
  assert (held (finish one rest) = rest) as Hh.
  { unfold finish. destruct one; [|done]. destruct rest; [done|]. destruct Hok. by split. }
  rewrite Ho. cbn [hand_over]. rewrite decide_True by done. split; cbn.
  - intros x. unfold total. cbn. pose proof (total_move s j (finish one rest) x Hj) as Hm. rewrite Hh, Hp in Hm. cbn in Hm.
    specialize (H1 x). unfold total in H1. destruct (decide (x = i)) as [->|Hne]; [rewrite upd_eq, Hi in *|rewrite upd_ne by done]; cbn in *; lia.
  - intros x. destruct (decide (x = i)) as [->|Hne]; [by rewrite upd_eq|]. rewrite upd_ne by done. rewrite <- H2, Ho. split; congruence.
  - intros x. destruct (decide (x = j)) as [->|Hne].
    + rewrite upd_eq. unfold finish. destruct one; split; congruence || done.
    + rewrite upd_ne by done. rewrite <- H3, Ho. split; congruence.
  - intros x Hx. upd_cases; [lia|by apply H4].
Qed.

(** notify_one has one waiter at a time. *)
Definition one_ok (p : npc) : bool :=
  match p with
  | NLock true _ (_ :: _) | NEval true _ (_ :: _) | NUnlock true _ (_ :: _) | NPush true _ (_ :: _) => false
  | _ => true
  end.
Definition all_one (s : state) : Prop := forall j, one_ok (npcs s j) = true.

(** The three steps of awaiter_list_pop. *)
Lemma cv_pop_inv s j : inv s -> all_one s -> j < M -> held (npcs s j) = [] -> ~ locking (npcs s j) ->
  (inv (fst (pop_head s j)) /\ all_one (fst (pop_head s j))) /\
  (forall h, inv (fst (pop_next s j h)) /\ all_one (fst (pop_next s j h))) /\
  (forall h nx, inv (fst (pop_cas s j h nx)) /\ all_one (fst (pop_cas s j h nx))).
Proof.
  intros Hinv Hone Hj Hh Hl.
  assert (forall p, one_ok p = true -> all_one (set_n s j p (m_mutex s) (m_awaiters s))) as Ho by (intros p Hp x; cbn; by upd_cases).
  assert (forall p, held p = [] -> ~ locking p -> inv (set_n s j p (m_mutex s) (m_awaiters s))) as Hm.
  { intros p Hp Hn. apply cv_inv_move; [done..| |tauto]. intros x. by rewrite Hp, Hh. }
  assert (inv (fst (pop_head s j)) /\ all_one (fst (pop_head s j))) as Hd.
  { unfold pop_head. destruct (m_awaiters s); (split; [apply Hm; tauto|by apply Ho]). }
  split; [done|]. split.
  - intros h. unfold pop_next. destruct (wpcs s h); (split; [apply Hm; tauto|by apply Ho]).
  - intros h nx. unfold pop_cas. destruct (m_awaiters s) as [|h' l] eqn:Ha; [done|]. rewrite <- Ha in *.
    destruct (decide (h' = h)) as [->|]; [|done]. destruct (decide (nx = head l)).
    + split; [|intros x; cbn; upd_cases; done]. apply (cv_inv_move (take s (Some j))); [by apply inv_data|done| |done].
      intros x. cbn [take m_awaiters npcs]. rewrite Ha, Hh. cbn. lia.
    + split; [apply Hm; tauto|by apply Ho].
Qed.

Lemma notifier_inv s j s' ev : exec_notifier s j = Some (s', ev) -> inv s -> all_one s -> inv s' /\ all_one s'.
Proof.
  unfold exec_notifier, on_notify. intros He Hinv Hone.
  destruct (npcs s j) as [| |h|h nx| |[|i l]|one i rest|one i rest|one i rest|one i rest] eqn:Hp; try done.
  all: assert (j < M) as Hj by (apply (active_lt s); [done|by rewrite Hp]).
  all: pose proof (Hone j) as Hoj; rewrite Hp in Hoj; cbn in Hoj.
  1-3: destruct (cv_pop_inv s j Hinv Hone Hj) as (P1 & P2 & P3); [by rewrite Hp|by rewrite Hp; intros []|].
  - injection He as He. by rewrite He in P1.
  - injection He as He. specialize (P2 h). by rewrite He in P2.
  - injection He as He. specialize (P3 h nx). by rewrite He in P3.
  - injection He as <- <-. split; [|intros x; cbn; upd_cases; done]. apply cv_inv_move; rewrite ?Hp; done.
  - injection He as <- <-. split; [|intros x; cbn; upd_cases; done]. apply cv_inv_move; rewrite ?Hp; done.
  - destruct (m_mutex s) eqn:Ho; [done|]. injection He as <- <-. split; [|intros x; cbn; upd_cases; done]. apply inv_notifier; try done.
    + intros x. by rewrite Hp.
    + intros x. rewrite Ho. split; congruence.
    + intros x. rewrite Ho. destruct (decide (x = j)) as [->|]; split; congruence || done.
  - destruct (eval_suspended s j one i rest Hinv Hp) as [k Hk]. rewrite Hk in He. destruct (on_notify_ready s i k); injection He as <- <-.
    + split; [|intros x; cbn; upd_cases; [by destruct one|done]].
      destruct (resume_inv s j one i rest k Hinv Hp Hk) as [H|[-> Hr]]; [done|]. by destruct rest.
    + split; [|intros x; cbn; upd_cases; done]. apply cv_inv_move; rewrite ?Hp; done.
  - injection He as <- <-. pose proof (proj2 (i_owner_n s Hinv j)) as Ho. rewrite Hp in Ho. specialize (Ho I).
    split; [|intros x; cbn; upd_cases; done]. apply inv_notifier; try done.
    + intros x. by rewrite Hp.
    + intros x. rewrite Ho. split; congruence.
    + intros x. rewrite Ho. destruct (decide (x = j)) as [->|]; split; congruence || done.
  - injection He as <- <-. split; [|intros x; cbn; upd_cases; [by destruct one|done]].
    apply (cv_inv_move (link s i)); [by apply inv_data|done| |].
    + intros x. cbn [link m_awaiters npcs]. rewrite Hp. unfold finish. destruct one; [|cbn; lia]. destruct rest; [|done]. cbn. lia.
    + cbn. rewrite Hp. unfold finish. by destruct one.
Qed.

Lemma cv_step_inv l s s' ev : exec l s = Some (s', ev) -> inv s -> all_one s -> inv s' /\ all_one s'.
Proof.
  intros He Hinv Hone. destruct l as [i|i|i k b|k|i k|i|j|j| |j|j]; cbn in He.
  - destruct (decide (i < N)); [|done]. destruct (wpcs s i) eqn:Hi; try done. destruct (m_mutex s) eqn:Ho; [done|]. injection He as <- <-.
    split; [|done]. apply inv_waiter; rewrite ?Hi; try done.
    + intros x. rewrite Ho. destruct (decide (x = i)) as [->|]; split; congruence || done.
    + intros x. rewrite Ho. split; congruence.
  - destruct (wpcs s i) eqn:Hi; try done. injection He as <- <-. split; [|done].
    pose proof (proj2 (i_owner_w s Hinv i)) as Ho. rewrite Hi in Ho. specialize (Ho I). apply inv_waiter; rewrite ?Hi; try done.
    + intros x. rewrite Ho. destruct (decide (x = i)) as [->|]; split; congruence || done.
    + intros x. rewrite Ho. split; congruence.
  - destruct (wpcs s i); try done. injection He as <- <-. split; [by apply inv_data|done].
  - injection He as <- <-. split; [by apply inv_data|done].
  - unfold wait in He. destruct (wpcs s i) eqn:Hi; try done. destruct (await_ready s i k); injection He as <- <-; [done|]. split; [|done].
    destruct Hinv as [H1 H2 H3 H4]. split; cbn; [|..|done|done].
    + intros x. unfold total. cbn. specialize (H1 x). unfold total in H1.
      destruct (decide (x = i)) as [->|Hne]; [rewrite upd_eq, Hi in *|rewrite upd_ne by done]; cbn in *; lia.
    + intros x. rewrite H2. destruct (decide (x = i)) as [->|Hne]; [by rewrite upd_eq, Hi|by rewrite upd_ne].
  - destruct (wpcs s i) as [| |k|k] eqn:Hi; try done. injection He as <- <-. split; [|done].
    pose proof (proj2 (i_owner_w s Hinv i)) as Ho. rewrite Hi in Ho. specialize (Ho I). apply inv_waiter; rewrite ?Hi; try done.
    + intros x. rewrite Ho. destruct (decide (x = i)) as [->|]; split; congruence || done.
    + intros x. rewrite Ho. split; congruence.
  - destruct (decide (j < M)); [|done]. destruct (npcs s j) eqn:Hp; try done. injection He as <- <-.
    split; [|intros x; cbn; upd_cases; done]. apply cv_inv_move; rewrite ?Hp; done.
  - destruct (decide (j < M)); [|done]. destruct (npcs s j) eqn:Hp; try done. injection He as <- <-.
    split; [|intros x; cbn; upd_cases; done]. apply (cv_inv_move (take s (Some j))); [by apply inv_data|done| |]; cbn; rewrite Hp; [|done].
    intros x. cbn. lia.
  - injection He as <- <-. split; [|done]. destruct Hinv as [H1 H2 H3 H4]. split; cbn; try done.
    intros x. specialize (H1 x). unfold total in *. cbn. rewrite occ_app. lia.
  - destruct (decide (j < M)) as [Hj|]; [|done]. unfold start_individual_task in He. destruct (npcs s j) eqn:Hp; try done. destruct (spawned s) as [|i l] eqn:Hs; [done|].
    injection He as <- <-. split; [|intros x; cbn; upd_cases; done]. destruct Hinv as [H1 H2 H3 H4]. split; cbn; try done.
    + intros x. specialize (H1 x). unfold total in *. cbn. pose proof (total_move s j (NLock true i []) x Hj) as Hm.
      rewrite Hp in Hm. rewrite Hs in H1. cbn in *. lia.
    + intros x. destruct (decide (x = j)) as [->|]; [rewrite upd_eq|by rewrite upd_ne]. rewrite H3, Hp. done.
    + intros x Hx. upd_cases; [lia|by apply H4].
  - by apply (notifier_inv s j s' ev).
Qed.

(** ** The trace: waits and resumptions alternate *)
Definition waits_of (tr : list event) : list nat := omap (fun e => match e with EvWait i => Some i | _ => None end) tr.
Definition resumes_of (tr : list event) : list nat := omap (fun e => match e with EvResume i => Some i | _ => None end) tr.

Lemma step_count l s s' ev i : exec l s = Some (s', ev) -> inv s ->
  b2n (waiting (wpcs s' i)) + occ i (resumes_of ev) = b2n (waiting (wpcs s i)) + occ i (waits_of ev).
Proof.
  intros He Hinv. destruct l as [x|x|x k b|k|x k|x|j|j| |j|j]; cbn in He.
  11: { unfold exec_notifier, on_notify in He.
    destruct (npcs s j) as [| |h|h nx| |[|y l]|one y rest|one y rest|one y rest|one y rest] eqn:Hp; try done; try (injection He as <- <-; done).
    1-3: unfold pop_cas, pop_next, pop_head in He; repeat case_match; by injection He as <- <-.
    - destruct (m_mutex s); [done|]. by injection He as <- <-.
    - destruct (eval_suspended s j one y rest Hinv Hp) as [k Hk]. rewrite Hk in He. destruct (on_notify_ready s y k); injection He as <- <-; [|done].
      cbn. destruct (decide (i = y)) as [->|Hne]; [rewrite upd_eq, Hk|rewrite upd_ne by done]; destruct one; cbn; lia.
    - injection He as <- <-. by destruct one. }
  all: try unfold start_individual_task in He; repeat case_match; simplify_eq/=; try lia; try (upd_cases; rewrite ?H, ?H0; cbn; lia).
  unfold wait in He. destruct (wpcs s x) eqn:Hx; try done. destruct (await_ready s x k); injection He as <- <-; [cbn; lia|]. cbn.
  destruct (decide (i = x)) as [->|Hne]; [rewrite upd_eq, Hx|rewrite upd_ne by done]; cbn; lia.
Qed.

Lemma cv_reach s tr : reach exec init s tr ->
  inv s /\ all_one s /\ forall i, occ i (waits_of tr) = occ i (resumes_of tr) + b2n (waiting (wpcs s i)).
Proof.
  revert s tr. apply (reach_inv exec (fun s tr => inv s /\ all_one s /\
    forall i, occ i (waits_of tr) = occ i (resumes_of tr) + b2n (waiting (wpcs s i)))).
  - split; [apply cv_init_inv|]. by split.
  - intros s tr l s' ev (Hinv & Hone & Hc) He. destruct (cv_step_inv l s s' ev He Hinv Hone) as [H1 H2]. split; [done|]. split; [done|].
    intros i. unfold waits_of, resumes_of. rewrite !omap_app, !occ_app. fold (waits_of tr) (waits_of ev) (resumes_of tr) (resumes_of ev).
    pose proof (step_count l s s' ev i He Hinv). specialize (Hc i). lia.
Qed.

(** ** Pops that do not overlap are not stale *)
Definition stale_of (tr : list event) : list nat := omap (fun e => match e with EvStale j => Some j | _ => None end) tr.

(** The m_next of a listed waiter is the waiter after it. *)
Fixpoint linked (nx : nat -> option nat) (l : list nat) : Prop :=
  match l with [] => True | h :: l' => nx h = head l' /\ linked nx l' end.

Lemma linked_push nx i l x : linked nx l -> occ i l = 0 -> linked (nx.[i ↦ x]) l.
Proof.
  induction l as [|h l IH]; cbn; [done|]. intros [Hh Hl] Ho. destruct (decide (i = h)) as [->|]; [lia|].
  rewrite upd_ne by done. auto.
Qed.

Definition pop_ok (s : state) : Prop :=
  forall j, match npcs s j with
            | NNextPtr h => 0 < occ h (m_awaiters s)
            | NCas h nx => 0 < occ h (m_awaiters s) /\ nx = m_next s h
            | _ => True
            end.
Definition list_ok (s : state) : Prop := linked (m_next s) (m_awaiters s) /\ (overlap s = false -> pop_ok s).

(** A step that leaves the list alone and starts no pop. *)
Lemma list_ok_same s s' : list_ok s -> m_next s' = m_next s -> m_awaiters s' = m_awaiters s -> overlap s' = overlap s ->
  (forall j, mid_pop (npcs s' j) = true -> npcs s' j = npcs s j) -> list_ok s'.
Proof.
  intros [H1 H2] E1 E2 E3 E4. split; [by rewrite E1, E2|]. rewrite E3. intros Ho j. specialize (H2 Ho j). specialize (E4 j).
  destruct (npcs s' j) eqn:Hj; try done; cbn in E4; rewrite <- E4 in H2 by done; by rewrite ?E1, E2.
Qed.

(** A waiter that is in no list is pushed. *)
Lemma list_ok_push s s' i : list_ok s -> occ i (m_awaiters s) = 0 -> m_next s' = (m_next s).[i ↦ head (m_awaiters s)] ->
  m_awaiters s' = i :: m_awaiters s -> overlap s' = overlap s ->
  (forall j, mid_pop (npcs s' j) = true -> npcs s' j = npcs s j) -> list_ok s'.
Proof.
  intros [H1 H2] Ho E1 E2 E3 E4. split.
  - rewrite E1, E2. cbn. rewrite upd_eq. split; [done|]. by apply linked_push.
  - rewrite E3. intros Hov j. specialize (H2 Hov j). specialize (E4 j). rewrite E1, E2.
    destruct (npcs s' j) eqn:Hj; try done; cbn in E4; rewrite <- E4 in H2 by done; cbn; [lia|].
    destruct H2 as [H2 ->]. split; [lia|]. rewrite upd_ne; [done|]. intros ->. lia.
Qed.

(** Waiters are taken off the list. *)
Lemma list_ok_take s s' t : list_ok s -> (forall j, M <= j -> npcs s j = NIdle) -> m_next s' = m_next s ->
  linked (m_next s) (m_awaiters s') -> overlap s' = overlap (take s t) ->
  (forall j, mid_pop (npcs s' j) = true -> npcs s' j = npcs s j /\ Some j <> t) -> list_ok s'.
Proof.
  intros [H1 H2] Hidle E1 Hl E3 E4. split; [by rewrite E1|]. rewrite E3. cbn. intros [Hov Hex]%orb_false_iff j.
  specialize (E4 j). destruct (mid_pop (npcs s' j)) eqn:Hm; [exfalso|by destruct (npcs s' j)]. destruct E4 as [E4 Hne]; [done|].
  assert (j < M) as Hj. { destruct (decide (j < M)); [done|]. rewrite E4, Hidle in Hm by lia. done. }
  enough (existsb (fun j => bool_decide (Some j <> t) && mid_pop (npcs s j)) (seq 0 M) = true) by congruence.
  apply existsb_exists. exists j. split; [apply in_seq; lia|]. rewrite bool_decide_eq_true_2 by done. by rewrite <- E4.
Qed.

Lemma npcs_mid s j p x : mid_pop p = false -> mid_pop ((npcs s).[j ↦ p] x) = true -> (npcs s).[j ↦ p] x = npcs s x /\ Some x <> Some j.
Proof. intros Hp. upd_cases; [by rewrite Hp|]. intros _. split; congruence. Qed.

(** awaiter_list_pop: while nobody else takes waiters off the list, its pointers are good. *)
Lemma pop_head_ok s j : list_ok s -> list_ok (fst (pop_head s j)) /\ stale_of (snd (pop_head s j)) = [].
Proof.
  intros Hok. unfold pop_head. assert (forall h, head (m_awaiters s) = Some h -> 0 < occ h (m_awaiters s)) as Hh.
  { intros h Hh. destruct (m_awaiters s); [done|]. injection Hh as ->. cbn. rewrite decide_True by done. lia. }
  destruct (m_awaiters s) as [|h l] eqn:Ha; cbn [fst snd]; (split; [|done]).
  - apply (list_ok_same s); try done. intros x Hx. cbn in *. by apply (npcs_mid s j NIdle).
  - destruct Hok as [H1 H2]. rewrite <- Ha in Hh. rewrite <- Ha. split; [done|]. cbn. intros Ho x. specialize (H2 Ho x). cbn.
    upd_cases; [|done]. apply Hh. by rewrite Ha.
Qed.

Lemma pop_next_ok s j h : inv s -> list_ok s -> npcs s j = NNextPtr h ->
  list_ok (fst (pop_next s j h)) /\ (overlap s = false -> stale_of (snd (pop_next s j h)) = []).
Proof.
  intros Hinv Hok Hp. pose proof Hok as [H1 H2].
  assert (overlap s = false -> waiting (wpcs s h) = true) as Hw.
  { intros Ho. specialize (H2 Ho j). rewrite Hp in H2. pose proof (i_total s Hinv h) as Ht. unfold total in Ht.
    destruct (waiting (wpcs s h)); [done|]. cbn in Ht. lia. }
  assert (list_ok (set_n s j NStale (m_mutex s) (m_awaiters s))) as Hs.
  { apply (list_ok_same s); try done. intros x Hx. cbn in *. by apply (npcs_mid s j NStale). }
  assert (list_ok (set_n s j (NCas h (m_next s h)) (m_mutex s) (m_awaiters s))) as Hc.
  { split; [done|]. cbn. intros Ho x. cbn. pose proof (H2 Ho x) as Hx. upd_cases; [|done]. rewrite Hp in Hx. done. }
  unfold pop_next. destruct (wpcs s h); (split; [done|]); intros Ho; try done; by specialize (Hw Ho).
Qed.

Lemma pop_cas_ok s j h nx : inv s -> list_ok s -> npcs s j = NCas h nx ->
  list_ok (fst (pop_cas s j h nx)) /\ (overlap s = false -> stale_of (snd (pop_cas s j h nx)) = []).
Proof.
  intros Hinv Hok Hp. pose proof Hok as [H1 H2]. destruct (pop_head_ok s j Hok) as [P1 P2].
  unfold pop_cas. destruct (m_awaiters s) as [|h' l] eqn:Ha; [done|]. destruct (decide (h' = h)) as [->|]; [|done].
  cbn in H1. destruct H1 as [Hn Hl]. destruct (decide (nx = head l)) as [->|Hne]; (split; [|try done]).
  - apply (list_ok_take s _ (Some j)); try done; [apply Hinv|]. intros x Hx. cbn in *. by apply (npcs_mid s j (NLock true h [])).
  - rewrite <- Ha in *. apply (list_ok_same s); try done. intros x Hx. cbn in *. by apply (npcs_mid s j NStale).
  - intros Ho. specialize (H2 Ho j). rewrite Hp in H2. destruct H2 as [_ ->]. congruence.
Qed.

Lemma list_ok_notifier s j s' ev : exec_notifier s j = Some (s', ev) -> inv s -> list_ok s ->
  list_ok s' /\ (overlap s = false -> stale_of ev = []).
Proof.
  unfold exec_notifier, on_notify. intros He Hinv Hok.
  assert (forall p q o, mid_pop q = false -> list_ok (set_w (set_n s j q o (m_awaiters s)) p WHeld o)) as Hres.
  { intros p q o Hq. apply (list_ok_same s); try done. intros x Hx. cbn in *. by apply (npcs_mid s j q). }
  assert (forall q o, mid_pop q = false -> list_ok (set_n s j q o (m_awaiters s))) as Hm.
  { intros q o Hq. apply (list_ok_same s); try done. intros x Hx. cbn in *. by apply (npcs_mid s j q). }
  destruct (npcs s j) as [| |h|h nx| |[|i l]|one i rest|one i rest|one i rest|one i rest] eqn:Hp; try done;
    try (injection He as <- <-; split; [by apply Hm|done]).
  - injection He as He. pose proof (pop_head_ok s j Hok) as H. rewrite He in H. cbn in H. split; [apply H|intros _; apply H].
  - injection He as He. pose proof (pop_next_ok s j h Hinv Hok Hp) as H. by rewrite He in H.
  - injection He as He. pose proof (pop_cas_ok s j h nx Hinv Hok Hp) as H. by rewrite He in H.
  - destruct (m_mutex s); [done|]. injection He as <- <-. split; [by apply Hm|done].
  - destruct (eval_suspended s j one i rest Hinv Hp) as [k Hk]. rewrite Hk in He. destruct (on_notify_ready s i k); injection He as <- <-.
    + split; [|by destruct one]. apply (list_ok_same s); try done. intros x Hx. cbn in *. apply (npcs_mid s j (finish one rest)); [|done].
      by destruct one.
    + split; [by apply Hm|done].
  - injection He as <- <-. split; [|by destruct one]. apply (list_ok_push s _ i); try done.
    + assert (j < M) as Hj by (apply (active_lt s); [done|by rewrite Hp]).
      pose proof (i_total s Hinv i) as Ht. unfold total in Ht. pose proof (total_move s j NIdle i Hj) as Hm'. rewrite Hp in Hm'. cbn in Hm'.
      rewrite decide_True in Hm' by done. destruct (waiting (wpcs s i)); cbn in Ht; lia.
    + intros x Hx. cbn in *. apply (npcs_mid s j (finish one rest)); [by destruct one|done].
Qed.

Lemma list_ok_step l s s' ev : exec l s = Some (s', ev) -> inv s -> list_ok s -> list_ok s' /\ (overlap s = false -> stale_of ev = []).
Proof.
  intros He Hinv Hok. destruct l as [i|i|i k b|k|i k|i|j|j| |j|j]; cbn in He; [..|by apply (list_ok_notifier s j s' ev)];
    try unfold wait, start_individual_task in He; repeat case_match; simplify_eq; (split; [|done]);
    try (apply (list_ok_same s); [done..|]; intros x Hx; cbn in *; first [done|apply npcs_mid in Hx; [by destruct Hx|done]]); try done.
  - apply (list_ok_push s _ i); try done. pose proof (i_total s Hinv i) as Ht. unfold total in Ht.
    match goal with H : wpcs s i = WHeld |- _ => rewrite H in Ht end. cbn in Ht. lia.
  - apply (list_ok_take s _ (Some j)); try done; [apply Hinv|]. intros x Hx. cbn in *. by apply (npcs_mid s j (NNext (m_awaiters s))).
  - apply (list_ok_take s _ None); try done. apply Hinv.
Qed.

Lemma overlap_mono l s s' ev : exec l s = Some (s', ev) -> overlap s = true -> overlap s' = true.
Proof.
  intros He Ho. destruct l as [i|i|i k b|k|i k|i|j|j| |j|j]; cbn in He;
    try unfold wait, start_individual_task in He; try unfold exec_notifier, on_notify, pop_cas, pop_next, pop_head in He;
    repeat case_match; simplify_eq; cbn; rewrite ?Ho; done.
Qed.

Lemma cv_reach_list s tr : reach exec init s tr -> list_ok s /\ (overlap s = false -> stale_of tr = []).
Proof.
  intros Hr. enough ((inv s /\ all_one s) /\ list_ok s /\ (overlap s = false -> stale_of tr = [])) by tauto. revert s tr Hr.
  apply (reach_inv exec (fun s tr => (inv s /\ all_one s) /\ list_ok s /\ (overlap s = false -> stale_of tr = []))).
  - split; [by split; [apply cv_init_inv|]|]. by split.
  - intros s tr l s' ev ([Hinv Hone] & Hok & Hst) He. split; [by apply (cv_step_inv l s s' ev)|].
    destruct (list_ok_step l s s' ev He Hinv Hok) as [Hok' Hev]. split; [done|]. intros Ho.
    assert (overlap s = false) as Ho'. { destruct (overlap s) eqn:E; [|done]. by rewrite (overlap_mono l s s' ev He E) in Ho. }
    unfold stale_of. rewrite omap_app. fold (stale_of tr) (stale_of ev). by rewrite Hst, Hev.
Qed.

(** [C16] As long as no pop of the awaiter list has used a stale next pointer, every wait
    that suspends is resumed at most once, and never forgotten: a suspended waiter is in
    m_awaiters, waiting to be started on an executor, or in the hands of exactly one
    notifier, and one that is not suspended is nowhere; at most one coroutine is inside the
    lock, a resumed waiter among them; and when a waiter is resumed the notifier holds its
    lock, which becomes the waiter's, and at that moment its predicate is true, or it waits
    without a predicate, or with a stop token whose stop was requested.  A pop is stale
    only if somebody took waiters off the list while another notify_one was between the
    load and the compare-exchange of its awaiter_list_pop. *)
Theorem condition_variable_resumes_once s tr :
  reach exec init s tr ->
  (overlap s = false -> stale_of tr = []) /\
  (stale_of tr = [] ->
   (forall i, occ i (waits_of tr) = occ i (resumes_of tr) + b2n (waiting (wpcs s i))) /\
   (forall i, total s i = b2n (waiting (wpcs s i))) /\
   (forall i i', match wpcs s i, wpcs s i' with (WHeld | WPushed _), (WHeld | WPushed _) => i = i' | _, _ => True end) /\
   (forall j s' i ev, exec (LNotifier j) s = Some (s', EvResume i :: ev) ->
      m_mutex s = Some (ONotifier j) /\ m_mutex s' = Some (OWaiter i) /\ wpcs s' i = WHeld /\
      (exists k, wpcs s i = WSuspended k /\
         (k = WPlain \/ predicate s i = true \/ k = WStopToken /\ stop_requested s i = true)))).
Proof.
  intros Hr. destruct (cv_reach s tr Hr) as (Hinv & Hone & Hc). split; [by apply cv_reach_list|]. intros _.
  split_and!; [done|apply Hinv| |].
  - intros i i'. pose proof (proj2 (i_owner_w s Hinv i)) as H1. pose proof (proj2 (i_owner_w s Hinv i')) as H2.
    destruct (wpcs s i), (wpcs s i'); try done; specialize (H1 I); specialize (H2 I); congruence.
  - intros j s' i ev He. cbn in He. unfold exec_notifier, on_notify in He.
    destruct (npcs s j) as [| |h|h nx| |[|y l]|one y rest|one y rest|one y rest|one y rest] eqn:Hp; try done.
    1-3: unfold pop_cas, pop_next, pop_head in He; by repeat case_match.
    + by destruct (m_mutex s).
    + destruct (eval_suspended s j one y rest Hinv Hp) as [k Hk]. rewrite Hk in He. destruct (on_notify_ready s y k) eqn:Hrd; [|done].
      assert (m_mutex s = Some (ONotifier j)) as Ho by (apply Hinv; by rewrite Hp).
      injection He as <- <- <-. cbn. rewrite upd_eq, Ho. cbn. rewrite decide_True by done. split_and!; [done..|].
      exists k. split; [done|]. destruct k; cbn in Hrd; auto. apply orb_true_iff in Hrd as [|]; auto.
    + by destruct one.
Qed.

End cv.

(** A waiter whose predicate becomes true and who is notified. *)
Lemma condition_variable_resumes_once_witness :
  exists s tr, reach (exec 2 1) init s tr /\ occ 0 (waits_of tr) = occ 0 (resumes_of tr) + b2n (waiting (wpcs s 0)) /\ resumes_of tr = [0].
Proof.
  destruct (run (exec 2 1) [LLock 0; LWait 0 WPredicate; LSuspend 0; LLock 1; LSet 1 0 true; LUnlock 1; LNotifyOne 0; LNotifier 0; LNotifier 0; LNotifier 0; LNotifier 0; LNotifier 0] init)
    as [[s tr]|] eqn:Hrun; [|vm_compute in Hrun; discriminate].
  exists s, tr. split; [exact (run_reach _ _ _ _ _ Hrun)|].
  destruct (condition_variable_resumes_once 2 1 s tr (run_reach _ _ _ _ _ Hrun)) as [H1 H2].
  assert (stale_of tr = []) as Hs by (apply H1; vm_compute in Hrun; by injection Hrun as <- _).
  split; [exact (proj1 (H2 Hs) 0)|]. vm_compute in Hrun. by injection Hrun as _ <-.
Defined.

(** The restriction is needed: while one notify_one holds the head and its next pointer,
    others take both waiters off, resume the second and put the first back; the
    compare-exchange then succeeds with the stale pointer, which would make the resumed
    waiter the head of the list (the notifier stops there, at [EvStale]). *)
Theorem condition_variable_stale_pop :
  exists s tr, reach (exec 3 3) init s tr /\ stale_of tr = [0] /\ resumes_of tr = [0] /\ m_awaiters s = [1].
Proof.
  destruct (run (exec 3 3)
    ([LLock 0; LWait 0 WPlain; LSuspend 0; LLock 1; LWait 1 WPredicate; LSuspend 1] ++
     [LNotifyOne 0; LNotifier 0; LNotifier 0] ++
     [LNotifyOne 1; LNotifier 1; LNotifier 1; LNotifier 1] ++
     [LNotifyOne 2; LNotifier 2; LNotifier 2; LNotifier 2; LNotifier 2; LNotifier 2; LUnlock 0] ++
     [LNotifier 1; LNotifier 1; LNotifier 1; LNotifier 1; LNotifier 0]) init)
    as [[s tr]|] eqn:Hrun; [|vm_compute in Hrun; discriminate].
  exists s, tr. split; [exact (run_reach _ _ _ _ _ Hrun)|]. vm_compute in Hrun. by injection Hrun as <- <-.
Qed.

(** [C18] A notification can be lost: notify_one takes a waiter whose predicate is false off the
    list and puts it back only after releasing the lock.  A coroutine that makes the
    predicate true in between, under the lock, and then calls notify_one finds the list
    empty, and its call returns without having notified anybody: the waiter stays suspended
    with its predicate true, all notifiers having returned. *)
Theorem condition_variable_lost_wakeup :
  exists s tr s' tr', reach (exec 2 2) init s tr /\
    waiting (wpcs s 0) = true /\ predicate s 0 = true /\ m_mutex s = None /\ npcs s 1 = NIdle /\
    run (exec 2 2) [LNotifyOne 1; LNotifier 1; LNotifier 0] s = Some (s', tr') /\
    EvNotified 1 ∈ tr' /\ (forall j, npcs s' j = NIdle) /\ waiting (wpcs s' 0) = true /\ predicate s' 0 = true /\ resumes_of tr' = [].
Proof.
  destruct (run (exec 2 2) [LLock 0; LWait 0 WPredicate; LSuspend 0; LNotifyOne 0; LNotifier 0; LNotifier 0; LNotifier 0; LNotifier 0; LNotifier 0;
                            LNotifier 0; LLock 1; LSet 1 0 true; LUnlock 1] init)
    as [[s tr]|] eqn:Hrun; [|vm_compute in Hrun; discriminate].
  destruct (run (exec 2 2) [LNotifyOne 1; LNotifier 1; LNotifier 0] s) as [[s' tr']|] eqn:Hrun2;
    [|vm_compute in Hrun; injection Hrun as <- <-; vm_compute in Hrun2; discriminate].
  exists s, tr, s', tr'. split; [exact (run_reach _ _ _ _ _ Hrun)|].
  vm_compute in Hrun. injection Hrun as <- <-. vm_compute in Hrun2. injection Hrun2 as <- <-.
  split_and!; try done; [repeat (by left || right)|]. intros [|[|j]]; done.
Qed.
End ConditionVariable.

Module WaitFor.

Inductive cv_status := no_timeout | timeout.

(** awaiter_with_wait_hook::on_notify, run by whoever has the hook *)
Inductive hpc :=
| HListed                         (* in m_awaiters *)
| HEvent                          (* before m_event_mutex.scoped_lock() *)
| HCheck                          (* before the load of m_awaiter_completed *)
| HDeadUnlock                     (* timed out already: before event_lock.unlock() *)
| HDeadSet                        (* ... before m_notify_callback.set() *)
| HMutex                          (* before waiter_mutex->lock() *)
| HEval                           (* before the predicate *)
| HUnlock                         (* ready, completed: before event_lock.unlock() *)
| HSet                            (* ... before m_notify_callback.set() *)
| HNotReady                       (* before waiter_mutex->unlock() *)
| HRelease                        (* the end of event_lock, then back into m_awaiters *)
| HGone.

(** make_timeout_task *)
Inductive tpc :=
| TSleep                          (* schedule_after *)
| TEvent                          (* before m_event_mutex.scoped_lock() *)
| TCas                            (* before the compare-exchange on m_awaiter_completed *)
| TUnlock                         (* won: before lock.unlock() *)
| TMutex                          (* ... before m_mutex->lock() *)
| TEval                           (* ... before the predicate and the resume *)
| TDone.

Inductive holder := MFree | MNotify | MTimeout | MWaiter | MOther.

Record state := mk_state {
  hook : hpc;
  tmo : tpc;
  event_mutex : option bool;      (* Some true: held by the notification, Some false: by the timeout *)
  m_mutex : holder;
  m_awaiter_completed : bool;
  m_status : option cv_status;
  callback_done : bool;           (* make_on_notify_callback_task has returned *)
  resumed : bool;                 (* the caller of wait_for was resumed: its awaiter is gone *)
  predicate : bool;
  stop_requested : bool
}.

(** wait_for has been called: the hook is pushed, the lock about to be free. *)
Definition init : state := mk_state HListed TSleep None MFree false None false false false false.

Inductive label := LNotify (has_predicate : bool) | LTimeout (has_predicate : bool) | LPredicate (b : bool) | LRequestStop | LOther | LWaiter.
Inductive event :=
| EvResume (st : cv_status) (result : bool)   (* m_awaiting_coroutine.resume() *)
| EvUseAfterFree.                             (* m_status is read after the caller was resumed *)

Definition set_hook (s : state) (h : hpc) (e : option bool) (m : holder) : state :=
  mk_state h (tmo s) e m (m_awaiter_completed s) (m_status s) (callback_done s) (resumed s) (predicate s) (stop_requested s).
Definition set_tmo (s : state) (t : tpc) (e : option bool) (m : holder) : state :=
  mk_state (hook s) t e m (m_awaiter_completed s) (m_status s) (callback_done s) (resumed s) (predicate s) (stop_requested s).

(** The resumed caller owns the lock when the task that resumes it had locked it for it;
    without that the lock stays as it is: free, or somebody else's. *)
Definition hand_over (locked_by m : holder) : holder :=
  match locked_by, m with MNotify, MNotify | MTimeout, MTimeout => MWaiter | _, _ => m end.

(** make_on_notify_callback_task, resumed by m_notify_callback.set() *)
Definition notify_callback (s : state) : state * list event :=
  let ev := if resumed s then [EvUseAfterFree] else [] in
  match m_status s with
  | Some no_timeout =>
      (mk_state (hook s) (tmo s) (event_mutex s) (hand_over MNotify (m_mutex s)) (m_awaiter_completed s) (m_status s) true true (predicate s) (stop_requested s),
       ev ++ [EvResume no_timeout (predicate s)])
  | _ =>
      (mk_state (hook s) (tmo s) (event_mutex s) (m_mutex s) (m_awaiter_completed s) (m_status s) true (resumed s) (predicate s) (stop_requested s), ev)
  end.

(** awaiter_with_wait_hook::on_notify *)
Definition on_notify (s : state) (has_predicate : bool) : option (state * list event) :=
  match hook s with
  | HListed => Some (set_hook s HEvent (event_mutex s) (m_mutex s), [])         (* popped *)
  | HEvent => match event_mutex s with None => Some (set_hook s HCheck (Some true) (m_mutex s), []) | _ => None end
  | HCheck => Some (set_hook s (if m_awaiter_completed s then HDeadUnlock else HMutex) (event_mutex s) (m_mutex s), [])
  | HDeadUnlock => Some (set_hook s HDeadSet None (m_mutex s), [])
  | HDeadSet => Some (notify_callback (set_hook s HGone (event_mutex s) (m_mutex s)))
  | HMutex => match m_mutex s with MFree => Some (set_hook s HEval (event_mutex s) MNotify, []) | _ => None end
  | HEval =>
      if negb has_predicate || predicate s || stop_requested s then
        Some (mk_state HUnlock (tmo s) (event_mutex s) (m_mutex s) true (Some no_timeout) (callback_done s) (resumed s) (predicate s)
                (stop_requested s), [])
      else Some (set_hook s HNotReady (event_mutex s) (m_mutex s), [])
  | HUnlock => Some (set_hook s HSet None (m_mutex s), [])
  | HSet => Some (notify_callback (set_hook s HGone (event_mutex s) (m_mutex s)))
  | HNotReady => Some (set_hook s HRelease (event_mutex s) MFree, [])
  | HRelease => Some (set_hook s HListed None (m_mutex s), [])
  | HGone => None
  end.

(** make_timeout_task *)
Definition timeout_task (s : state) (has_predicate : bool) : option (state * list event) :=
  match tmo s with
  | TSleep => Some (set_tmo s TEvent (event_mutex s) (m_mutex s), [])
  | TEvent => match event_mutex s with None => Some (set_tmo s TCas (Some false) (m_mutex s), []) | _ => None end
  | TCas =>
      if m_awaiter_completed s then Some (set_tmo s TDone None (m_mutex s), [])   (* ~scoped_lock *)
      else
        Some (mk_state (hook s) TUnlock (event_mutex s) (m_mutex s) true (Some timeout) (callback_done s) (resumed s) (predicate s)
                (stop_requested s), [])
  | TUnlock => Some (set_tmo s TMutex None (m_mutex s), [])
  | TMutex => match m_mutex s with MFree => Some (set_tmo s TEval (event_mutex s) MTimeout, []) | _ => None end
  | TEval =>
      Some (mk_state (hook s) TDone (event_mutex s) (hand_over MTimeout (m_mutex s)) (m_awaiter_completed s) (m_status s) (callback_done s) true (predicate s)
              (stop_requested s), [EvResume timeout (if has_predicate then predicate s else true)])
  | TDone => None
  end.

Definition exec (l : label) (s : state) : option (state * list event) :=
  match l with
  | LNotify hp => on_notify s hp
  | LTimeout hp => timeout_task s hp
  | LPredicate b =>               (* somebody else, holding the lock *)
      match m_mutex s with
      | MOther => Some (mk_state (hook s) (tmo s) (event_mutex s) (m_mutex s) (m_awaiter_completed s) (m_status s) (callback_done s)
                          (resumed s) b (stop_requested s), [])
      | _ => None
      end
  | LRequestStop =>
      Some (mk_state (hook s) (tmo s) (event_mutex s) (m_mutex s) (m_awaiter_completed s) (m_status s) (callback_done s) (resumed s)
              (predicate s) true, [])
  | LOther =>                     (* another coroutine locks or unlocks *)
      match m_mutex s with
      | MFree => Some (set_hook s (hook s) (event_mutex s) MOther, [])
      | MOther => Some (set_hook s (hook s) (event_mutex s) MFree, [])
      | _ => None
      end
  | LWaiter =>                    (* the resumed caller unlocks *)
      match m_mutex s with MWaiter => Some (set_hook s (hook s) (event_mutex s) MFree, []) | _ => None end
  end.

(** ** Invariant *)
Definition ev_of (h : hpc) (t : tpc) : option bool :=
  match h with
  | HCheck | HDeadUnlock | HMutex | HEval | HUnlock | HNotReady | HRelease => Some true
  | _ => match t with TCas | TUnlock => Some false | _ => None end
  end.
(** Who has won, by the program counters. *)
Definition winner_ok (s : state) : bool :=
  match m_status s with
  | None =>
      negb (resumed s) && match hook s with HUnlock | HSet | HDeadUnlock | HDeadSet | HGone => false | _ => true end &&
      match tmo s with TUnlock | TMutex | TEval | TDone => false | _ => true end
  | Some no_timeout =>
      match hook s with HUnlock | HSet => negb (resumed s) | HGone => resumed s | _ => false end &&
      match tmo s with TUnlock | TMutex | TEval => false | _ => true end
  | Some timeout =>
      match hook s with HUnlock | HSet | HMutex | HEval | HNotReady | HRelease => false | _ => true end &&
      match tmo s with TUnlock | TMutex | TEval => negb (resumed s) | TDone => resumed s | _ => false end
  end.
Definition locks_ok (s : state) : bool :=
  match hook s with HEval | HUnlock | HSet | HNotReady => match m_mutex s with MNotify => true | _ => false end
                  | _ => match m_mutex s with MNotify => false | _ => true end end &&
  match tmo s with TEval => match m_mutex s with MTimeout => true | _ => false end
                 | _ => match m_mutex s with MTimeout => false | _ => true end end &&
  match m_mutex s with MWaiter => resumed s | _ => true end &&
  match hook s, tmo s with
  | (HCheck | HDeadUnlock | HMutex | HEval | HUnlock | HNotReady | HRelease), (TCas | TUnlock) => false
  | _, _ => true
  end.
Record inv (s : state) : Prop := {
  i_event : event_mutex s = ev_of (hook s) (tmo s);
  i_winner : winner_ok s = true;
  i_locks : locks_ok s = true;
  i_completed : m_awaiter_completed s = match m_status s with Some _ => true | None => false end;
  i_callback : callback_done s = match hook s with HGone => true | _ => false end
}.

Lemma wf_init_inv : inv init.
Proof. by split. Qed.

Lemma wf_step_inv l s s' ev : exec l s = Some (s', ev) -> inv s -> inv s'.
Proof.
  destruct s as [h t e m c st cb r p sp]. intros He [H1 H2 H3 H4 H5]. cbn in H1, H4, H5. subst e c cb.
  unfold winner_ok, locks_ok in *. cbn in *.
  destruct l as [hp|hp|b| | |]; cbn in He; unfold on_notify, timeout_task, notify_callback in He; cbn in He.
  - destruct h, t; cbn in He; try done; destruct m; try done; destruct st as [[]|]; try done; destruct r; try done; cbn in He;
      try (injection He as <- <-; by split);
      destruct (negb hp || p || sp); injection He as <- <-; by split.
  - destruct t, h; cbn in He; try done; destruct m; try done; destruct st as [[]|]; try done; destruct r; try done; cbn in He;
      injection He as <- <-; by split.
  - destruct m; try done. injection He as <- <-. by split.
  - injection He as <- <-. by split.
  - destruct m; try done; injection He as <- <-; split; cbn; try done; unfold locks_ok; cbn; destruct h, t; done.
  - destruct m; try done; injection He as <- <-; split; cbn; try done; unfold locks_ok; cbn; destruct h, t, r; done.
Qed.

Definition resumes_of (tr : list event) : list cv_status := omap (fun e => match e with EvResume st _ => Some st | _ => None end) tr.

Lemma wf_step_resume l s s' ev : exec l s = Some (s', ev) -> inv s ->
  length (resumes_of ev) + (if resumed s then 1 else 0) = (if resumed s' then 1 else 0) /\
  (forall st, st ∈ resumes_of ev -> m_status s' = Some st /\ m_mutex s' = MWaiter) /\
  (m_status s <> None -> m_status s' = m_status s).
Proof.
  destruct s as [h t e m c st cb r p sp]. intros He [H1 H2 H3 H4 H5]. cbn in H1, H4, H5. subst e c cb. unfold winner_ok, locks_ok in *. cbn in *.
  destruct l as [hp|hp|b| | |]; cbn in He; unfold on_notify, timeout_task, notify_callback in He; cbn in He.
  - destruct h; cbn in He; try done; destruct st as [[]|]; try done; destruct r; try done; cbn in He;
      repeat case_match; simplify_eq/=; (split; [done|]); (split; [|done]); try (by intros ? ?%elem_of_nil).
    all: intros st ->%list_elem_of_singleton; done.
  - destruct t; cbn in He; try done; destruct st as [[]|]; try done; destruct r; try done; try (destruct h; done); cbn in He;
      repeat case_match; simplify_eq/=; (split; [done|]); (split; [|done]); try (by intros ? ?%elem_of_nil).
    all: intros st ->%list_elem_of_singleton; done.
  - destruct m; try done. injection He as <- <-. cbn. split; [done|]. split; [by intros ? ?%elem_of_nil|done].
  - injection He as <- <-. cbn. split; [done|]. split; [by intros ? ?%elem_of_nil|done].
  - destruct m; try done; injection He as <- <-; cbn; (split; [done|]); (split; [by intros ? ?%elem_of_nil|done]).
  - destruct m; try done; injection He as <- <-; cbn; (split; [done|]); (split; [by intros ? ?%elem_of_nil|done]).
Qed.

Lemma wait_for_reach s tr : reach exec init s tr ->
  inv s /\ length (resumes_of tr) = (if resumed s then 1 else 0) /\ (forall st, st ∈ resumes_of tr -> m_status s = Some st).
Proof.
  revert s tr. apply (reach_inv exec (fun s tr => inv s /\ length (resumes_of tr) = (if resumed s then 1 else 0) /\
    (forall st, st ∈ resumes_of tr -> m_status s = Some st))).
  - split; [apply wf_init_inv|]. split; [done|]. by intros ? ?%elem_of_nil.
  - intros s tr l s' ev (Hinv & Hl & Hst) He. destruct (wf_step_resume l s s' ev He Hinv) as (H1 & H2 & H3).
    split; [by apply (wf_step_inv l s s' ev)|]. unfold resumes_of. rewrite omap_app, length_app. fold (resumes_of tr) (resumes_of ev).
    split; [lia|]. intros st [Hin|Hin]%elem_of_app; [|by apply H2]. rewrite H3; [by apply Hst|]. by rewrite (Hst st Hin).
Qed.



(** After a timeout the hook is still in m_awaiters; the next notification wakes
    make_on_notify_callback_task, which reads m_status of the awaiter - of a caller that was
    resumed and has gone on. *)
Theorem wait_for_callback_use_after_free :
  exists s tr, reach exec init s tr /\ resumes_of tr = [timeout] /\ EvUseAfterFree ∈ tr.
Proof.
  destruct (run exec (repeat (LTimeout false) 6 ++ repeat (LNotify false) 5) init) as [[s tr]|] eqn:Hrun; [|vm_compute in Hrun; discriminate].
  exists s, tr. split; [exact (run_reach _ _ _ _ _ Hrun)|]. vm_compute in Hrun. injection Hrun as _ <-.
  split; [done|]. apply list_elem_of_In. cbn. auto.
Qed.
End WaitFor.
