(* ===== verification/ConditionVariableWait.v ===== *)
(** * The calls wait_for and wait_until (include/coro/condition_variable.hpp)

    The three forms of each call - without predicate, with a predicate, with a predicate and
    a stop token - around the contest of [WaitFor]: the time to wait, await_ready,
    await_suspend, await_resume, and what the call returns. *)
From stdpp Require Import base list relations option numbers.
From Stdlib Require Import ZArith Lia.
From S2P Require Import Prelude ConditionVariable.

Module WaitCalls.
Import WaitFor.
Local Open Scope Z_scope.

Inductive kind := plain | with_predicate | with_stop_token.
Definition has_predicate (k : kind) : bool := match k with plain => false | _ => true end.

(** What the call returns: std::cv_status or bool *)
Inductive result := RStatus (st : cv_status) | RBool (b : bool).

(** The members of awaiter_with_wait that the calls set; nanoseconds *)
Record awaiter := mk_awaiter { m_kind : kind; m_wait_for : Z }.

Definition wait_for (k : kind) (amount : Z) : awaiter := mk_awaiter k amount.
Definition wait_until (k : kind) (now time : Z) : awaiter := mk_awaiter k (if now <? time then time - now else 1).

(** await_ready: whether the call is over at once, m_status and m_predicate_result.
    [p] is what the predicate returns, [stop] whether a stop was requested. *)
Definition await_ready (k : kind) (p stop : bool) : bool * option cv_status * bool :=
  match k with
  | plain => (false, None, false)
  | with_predicate => (p, None, p)
  | with_stop_token => (p, if p && stop then Some no_timeout else None, p)
  end.

(** await_resume; [None]: m_status.value() of a status that is not there *)
Definition await_resume (k : kind) (status : option cv_status) (predicate_result : bool) : option result :=
  match k with
  | plain => match status with Some st => Some (RStatus st) | None => None end
  | _ => Some (RBool predicate_result)
  end.

(** await_suspend: the controller task has pushed the hook and released the lock. *)
Definition await_suspend (stop : bool) : state := mk_state HListed TSleep None MFree false None false false false stop.

(** co_await of the awaiter: a result at once, or the contest *)
Definition co_await (k : kind) (p stop : bool) : option result + state :=
  let '(ready, status, r) := await_ready k p stop in
  if ready then inl (await_resume k status r) else inr (await_suspend stop).

(** The contest of a call of kind [k]: both tasks know whether there is a predicate, and a
    stop can be requested only of a call that has a token. *)
Definition exec_kind (k : kind) (l : label) (s : state) : option (state * list event) :=
  match l with
  | LNotify b | LTimeout b => if eqb b (has_predicate k) then exec l s else None
  | LRequestStop => match k with with_stop_token => exec l s | _ => None end
  | _ => exec l s
  end.

(** A notification that has completed the wait had a reason to. *)
Definition reason (k : kind) (s : state) : Prop :=
  match hook s with
  | HUnlock | HSet => has_predicate k = true -> predicate s = true \/ stop_requested s = true
  | _ => True
  end.
Definition call_inv (k : kind) (s : state) : Prop :=
  inv s /\ reason k s /\ (k <> with_stop_token -> stop_requested s = false).

Lemma exec_kind_exec k l s s' ev : exec_kind k l s = Some (s', ev) -> exec l s = Some (s', ev).
Proof. destruct l as [b|b|b| | |], k; cbn -[on_notify timeout_task]; try done; by destruct b. Qed.

Lemma call_inv_suspend k stop : (k <> with_stop_token -> stop = false) -> call_inv k (await_suspend stop).
Proof. intros H. split; [by split|]. by split. Qed.

Lemma call_inv_step k l s s' ev : call_inv k s -> exec_kind k l s = Some (s', ev) -> call_inv k s'.
Proof.
  intros (Hi & Hr & Hs) Hk. pose proof (exec_kind_exec _ _ _ _ _ Hk) as He.
  split; [by eapply wf_step_inv|]. destruct Hi as [_ _ Hl _ _]. unfold reason, locks_ok in *.
  destruct s as [h t e m c st cb r p sp]. cbn in *.
  destruct l as [hp|hp|b| | |]; cbn in Hk.
  - destruct (eqb hp (has_predicate k)) eqn:Hb; [|done]. apply eqb_prop in Hb. subst hp.
    clear Hl He. unfold on_notify, notify_callback in Hk. destruct h; cbn in Hk; repeat case_match; simplify_eq/=; split; try done;
      intros Hp; rewrite Hp in *; cbn in *; by apply orb_true_iff.
  - destruct (eqb hp (has_predicate k)); [|done]. clear Hl He. unfold timeout_task in Hk. destruct t; cbn in Hk; repeat case_match; simplify_eq/=; done.
  - destruct m; try done. injection Hk as <- <-. cbn. split; [|done]. by destruct h.
  - destruct k; try done. injection Hk as <- <-. cbn. split; [|done]. destruct h; auto.
  - destruct m; try done; by injection Hk as <- <-.
  - destruct m; try done; by injection Hk as <- <-.
Qed.

(** The events of a step are at most a use after free and a resumption. *)
Ltac resume_in Hin :=
  repeat (apply elem_of_cons in Hin as [Hin|Hin]; [simplify_eq/=|]); try (by apply elem_of_nil in Hin); auto.

(** A resumption hands over the lock and, with a predicate, its value under that lock. *)
Lemma call_resume k l s s' ev st r : call_inv k s -> exec_kind k l s = Some (s', ev) -> EvResume st r ∈ ev ->
  m_mutex s' = MWaiter /\ m_status s' = Some st /\ (has_predicate k = true -> r = predicate s') /\
  (st = no_timeout -> has_predicate k = true -> predicate s' = true \/ stop_requested s' = true).
Proof.
  intros (Hi & Hr & Hs) Hk Hin. pose proof (exec_kind_exec _ _ _ _ _ Hk) as He.
  destruct (wf_step_resume l s s' ev He Hi) as (_ & H2 & _).
  destruct (H2 st) as [H3 H4]; [apply list_elem_of_omap; exists (EvResume st r); by split|]. split; [done|]. split; [done|].
  clear H2 He H3 H4. unfold reason in *. destruct s as [h t e m c st0 cb r0 p sp]. cbn in *.
  destruct l as [hp|hp|b| | |]; cbn in Hk.
  - destruct (eqb hp (has_predicate k)) eqn:Hb; [|done]. apply eqb_prop in Hb. subst hp. unfold on_notify, notify_callback in Hk.
    destruct h; cbn in Hk; repeat case_match; simplify_eq/=; resume_in Hin;
      by (exfalso; destruct Hi as [_ Hw _ _ _]).
  - destruct (eqb hp (has_predicate k)) eqn:Hb; [|done]. apply eqb_prop in Hb. subst hp. unfold timeout_task in Hk.
    clear Hr Hi. destruct t; cbn in Hk; repeat case_match; simplify_eq/=; resume_in Hin; by split.
  - destruct m; try done. injection Hk as <- <-. by apply elem_of_nil in Hin.
  - destruct k; try done. injection Hk as <- <-. by apply elem_of_nil in Hin.
  - destruct m; try done; injection Hk as <- <-; by apply elem_of_nil in Hin.
  - destruct m; try done; injection Hk as <- <-; by apply elem_of_nil in Hin.
Qed.

(** What wait_for and wait_until return.  A call whose predicate holds returns true without
    giving up its lock; any other one suspends, and whoever resumes it - with the lock - lets
    it return: the status of the one that has won, or the value of the predicate under the
    lock, which a notification only leaves false when a stop was requested.  The status is
    there whenever it is asked for. *)
Theorem wait_call_returns k p stop s tr :
  (k <> with_stop_token -> stop = false) ->
  match co_await k p stop with
  | inl r => has_predicate k = true /\ p = true /\ r = Some (RBool true)
  | inr s0 =>
      reach (exec_kind k) s0 s tr -> forall l s' ev st r, exec_kind k l s = Some (s', ev) -> EvResume st r ∈ ev ->
        m_mutex s' = MWaiter /\
        await_resume k (m_status s') r = Some (if has_predicate k then RBool (predicate s') else RStatus st) /\
        (has_predicate k = true -> st = no_timeout -> predicate s' = true \/ k = with_stop_token /\ stop_requested s' = true)
  end.
Proof.
  intros Hstop. destruct (co_await k p stop) as [r|s0] eqn:Hc.
  - unfold co_await in Hc. destruct k, p; cbn in Hc; simplify_eq; auto.
  - assert (s0 = await_suspend stop) as -> by (unfold co_await in Hc; destruct k, p; cbn in Hc; congruence). intros Hr.
    assert (call_inv k s) as Hi.
    { revert s tr Hr. apply reach_state_inv; [by apply call_inv_suspend|]. intros; by eapply call_inv_step. }
    intros l s' ev st r Hk Hin. destruct (call_resume k l s s' ev st r Hi Hk Hin) as (H1 & H2 & H3 & H4).
    destruct (call_inv_step k l s s' ev Hi Hk) as (_ & _ & Hns). split; [done|]. split.
    + unfold await_resume. rewrite H2. destruct k; cbn in *; [done|by rewrite H3..].
    + intros Hp Hst. destruct (H4 Hst Hp) as [?|Hsp]; [by left|]. destruct k; [done|by rewrite Hns in Hsp|by right].
Qed.

(** wait_until waits a positive time, so that the timeout always comes from a timer: the
    time that is left, or a nanosecond when there is none. *)
Lemma wait_until_amount k now time :
  0 < m_wait_for (wait_until k now time) /\ (now < time -> now + m_wait_for (wait_until k now time) = time).
Proof. unfold wait_until. cbn. destruct (Z.ltb_spec now time); lia. Qed.

(** A call with a predicate that times out while the predicate is false. *)
Definition times_out : list label := repeat (LTimeout true) 5.

Lemma wait_call_returns_witness :
  exists s tr s', run (exec_kind with_predicate) times_out (await_suspend false) = Some (s, tr) /\
    exec_kind with_predicate (LTimeout true) s = Some (s', [EvResume timeout false]) /\
    m_mutex s' = MWaiter /\ await_resume with_predicate (m_status s') false = Some (RBool false).
Proof.
  destruct (run (exec_kind with_predicate) times_out (await_suspend false)) as [[s tr]|] eqn:E; [|vm_compute in E; discriminate].
  destruct (exec_kind with_predicate (LTimeout true) s) as [[s' ev]|] eqn:E2; [|vm_compute in E; injection E as <- _; vm_compute in E2; discriminate].
  assert (ev = [EvResume timeout false] /\ predicate s' = false) as [-> Hp].
  { vm_compute in E. injection E as <- _. vm_compute in E2. injection E2 as <- <-. split; reflexivity. }
  exists s, tr, s'. split; [reflexivity|]. split; [exact E2|].
  destruct (wait_call_returns with_predicate false false s tr (fun _ => eq_refl) (run_reach _ _ _ _ _ E) _ _ _ timeout false E2) as (H1 & H2 & _);
    [set_solver|]. split; [exact H1|]. rewrite H2, Hp. reflexivity.
Defined.

(** A stop that is requested before the call does not end it: await_ready looks at the token
    only when the predicate already holds. *)
Lemma stop_requested_still_waits : co_await with_stop_token false true = inr (await_suspend true).
Proof. done. Qed.
End WaitCalls.
