(* ===== verification/Expected.v ===== *)
(** * tl::expected

    include/coro/detail/tl_expected.hpp, which include/coro/expected.hpp takes when the
    standard library has no std::expected.

    [Lifetime] is the memory the class manages: the union of a value and an error whose
    members live and die explicitly, a temporary, and an oracle that decides which of the
    special members of [T] and [E] throw (one that is declared not to throw never does).  A
    computation returns, throws, calls std::terminate (an exception that leaves a noexcept
    function) or is undefined: it reads, assigns or destroys a member that is not alive.
    Placing a member over a live one that needs its destructor is a leak and is counted.
    An assignment to a dead member of a trivially destructible type is taken to write its
    storage, which is what compilers make of it.

    [Storage], [Operations] and [Members] translate the class, [VoidOperations] the
    specialisation for [void]; [Combinators] holds and_then, map, map_error and or_else over
    callbacks with effects, [Comparison] the operators.  The special members of [T] and [E],
    and the traits the overloads are chosen by, are the class [CType]. *)
From S2P Require Import Prelude.
From stdpp Require Import base list option.

(** What tl::expected uses of an element type: its traits, the value a moved-from object is
    left with, and the value an object is left with when an assignment to it throws. *)
Class CType (A : Type) := {
  trivially_destructible : bool;
  trivially_copy_constructible : bool;
  trivially_move_constructible : bool;
  trivially_copy_assignable : bool;
  trivially_move_assignable : bool;
  nothrow_copy_constructible : bool;
  nothrow_move_constructible : bool;
  nothrow_copy_assignable : bool;
  nothrow_move_assignable : bool;
  moved : A -> A;
  torn : A -> A
}.
Arguments trivially_destructible A {_}.
Arguments trivially_copy_constructible A {_}.
Arguments trivially_move_constructible A {_}.
Arguments trivially_copy_assignable A {_}.
Arguments trivially_move_assignable A {_}.
Arguments nothrow_copy_constructible A {_}.
Arguments nothrow_move_constructible A {_}.
Arguments nothrow_copy_assignable A {_}.
Arguments nothrow_move_assignable A {_}.

(** A trivial move leaves its source as it was. *)
Class CTypeLaws (A : Type) {cA : CType A} : Prop := {
  trivial_move_ctor_keeps : trivially_move_constructible A = true -> forall a : A, moved a = a;
  trivial_move_asg_keeps : trivially_move_assignable A = true -> forall a : A, moved a = a
}.

(** The contract: a value or an error. *)
Inductive exp (T E : Type) :=
| Val (v : T)
| Unex (e : E).
Arguments Val {T E} v.
Arguments Unex {T E} e.

(** ** The memory an expected lives in *)

Module Lifetime.

Inductive slot (T E : Type) :=
| Dead
| LVal (v : T)
| LErr (e : E).
Arguments Dead {T E}.
Arguments LVal {T E} v.
Arguments LErr {T E} e.

(** The union and m_has_val. *)
Record obj (T E : Type) := Obj {
  live : slot T E;
  m_has_val : bool
}.
Arguments Obj {T E} live m_has_val.
Arguments live {T E} o : rename.
Arguments m_has_val {T E} o : rename.

(** The object a member function is called on, its argument, and the local of the call. *)
Inductive loc := This | Rhs | Tmp.

Record mem (T E : Type) := Mem {
  at_this : obj T E;
  at_rhs : obj T E;
  at_tmp : obj T E;
  oracle : list bool;
  leaked : nat
}.
Arguments Mem {T E} at_this at_rhs at_tmp oracle leaked.
Arguments at_this {T E} m : rename.
Arguments at_rhs {T E} m : rename.
Arguments at_tmp {T E} m : rename.
Arguments oracle {T E} m : rename.
Arguments leaked {T E} m : rename.

Inductive exn (E : Type) :=
| ExUser
| BadExpectedAccess (e : E).
Arguments ExUser {E}.
Arguments BadExpectedAccess {E} e.

Inductive res (T E A : Type) :=
| Ret (a : A) (s : mem T E)
| Throw (x : exn E) (s : mem T E)
| Terminate
| Undefined.
Arguments Ret {T E A} a s.
Arguments Throw {T E A} x s.
Arguments Terminate {T E A}.
Arguments Undefined {T E A}.

Section Monad.
Context {T E : Type}.

Definition M (A : Type) : Type := mem T E -> res T E A.

Definition ret {A} (a : A) : M A := fun s => Ret a s.

Definition bind {A B} (m : M A) (k : A -> M B) : M B := fun s =>
  match m s with
  | Ret a s' => k a s'
  | Throw x s' => Throw x s'
  | Terminate => Terminate
  | Undefined => Undefined
  end.

Definition throw {A} (x : exn E) : M A := fun s => Throw x s.
Definition terminate {A} : M A := fun _ => Terminate.
Definition undefined {A} : M A := fun _ => Undefined.

(** A noexcept function: an exception that would leave it ends the program. *)
Definition noexcept_if {A} (b : bool) (m : M A) : M A := fun s =>
  match m s with
  | Throw x s' => if b then Terminate else Throw x s'
  | r => r
  end.

(** try { m } catch (...) { h; throw; } *)
Definition on_throw {A} (m : M A) (h : M unit) : M A := fun s =>
  match m s with
  | Throw x s' => bind h (fun _ => throw x) s'
  | r => r
  end.

(** A local with a destructor: it runs when the scope is left, normally or not. *)
Definition scoped {A} (m : M A) (d : M unit) : M A := fun s =>
  match m s with
  | Ret a s' => bind d (fun _ => ret a) s'
  | Throw x s' => bind d (fun _ => throw x) s'
  | r => r
  end.

Definition get (l : loc) (s : mem T E) : obj T E :=
  match l with This => at_this s | Rhs => at_rhs s | Tmp => at_tmp s end.

Definition set (l : loc) (o : obj T E) (s : mem T E) : mem T E :=
  match l with
  | This => Mem o (at_rhs s) (at_tmp s) (oracle s) (leaked s)
  | Rhs => Mem (at_this s) o (at_tmp s) (oracle s) (leaked s)
  | Tmp => Mem (at_this s) (at_rhs s) o (oracle s) (leaked s)
  end.

Definition set_slot (l : loc) (x : slot T E) (s : mem T E) : mem T E :=
  set l (Obj x (m_has_val (get l s))) s.

Definition has_value (l : loc) : M bool := fun s => Ret (m_has_val (get l s)) s.

Definition set_has_val (l : loc) (b : bool) : M unit := fun s =>
  Ret tt (set l (Obj (live (get l s)) b) s).

(** A call that throws unless it is declared not to; [f] is what it leaves behind when
    it throws. *)
Definition may_throw (nothrow : bool) (f : mem T E -> mem T E) : M unit := fun s =>
  if nothrow then Ret tt s else
  match oracle s with
  | [] => Ret tt s
  | b :: o =>
      let s' := Mem (at_this s) (at_rhs s) (at_tmp s) o (leaked s) in
      if b then Throw ExUser (f s') else Ret tt s'
  end.
End Monad.
Arguments M : clear implicits.

Declare Scope expected_scope.
Notation "x <- m ;; k" := (bind m (fun x => k))
  (at level 100, m at next level, right associativity) : expected_scope.
Notation "m ;; k" := (bind m (fun _ => k)) (at level 100, k at level 200, right associativity) : expected_scope.
Notation "'ifm' m 'then' a 'else' b" := (bind m (fun c : bool => if c then a else b))
  (at level 200, m at level 100, a at level 200, b at level 200) : expected_scope.
Open Scope expected_scope.

(** ** The members of the union: m_val and m_unexpect.
    unexpected<E> wraps an [E] and has the special members of [E]. *)
Record member (T E A : Type) := Member {
  inj : A -> slot T E;
  prj : slot T E -> option A;
  mtype : CType A
}.
Arguments Member {T E A} inj prj mtype.
Arguments inj {T E A} m a : rename.
Arguments prj {T E A} m s : rename.
Arguments mtype {T E A} m : rename.

Section Primitives.
Context {T E : Type} {tT : CType T} {tE : CType E}.

Definition val : member T E T :=
  Member LVal (fun s => match s with LVal v => Some v | _ => None end) tT.
Definition err : member T E E :=
  Member LErr (fun s => match s with LErr e => Some e | _ => None end) tE.

(** Placement new: what lives there is not destroyed. *)
Definition place (l : loc) (x : slot T E) : M T E unit := fun s =>
  let lost := match live (get l s) with
              | Dead => 0
              | LVal _ => if trivially_destructible T then 0 else 1
              | LErr _ => if trivially_destructible E then 0 else 1
              end in
  let s' := set_slot l x s in
  Ret tt (Mem (at_this s') (at_rhs s') (at_tmp s') (oracle s') (lost + leaked s')).

Context {A : Type} (V : member T E A).

Definition read (l : loc) : M T E A := fun s =>
  match prj V (live (get l s)) with Some a => Ret a s | None => Undefined end.

Definition write (l : loc) (a : A) : M T E unit := fun s => Ret tt (set_slot l (inj V a) s).

(** An explicit destructor call. *)
Definition destroy (l : loc) : M T E unit := fun s =>
  match prj V (live (get l s)) with
  | Some _ => Ret tt (set_slot l Dead s)
  | None => Undefined
  end.

(** Construction from arguments that make the value [a]. *)
Definition ctor_from (l : loc) (nothrow : bool) (a : A) : M T E unit :=
  may_throw nothrow id;; place l (inj V a).

Definition ctor_copy (l src : loc) : M T E unit :=
  a <- read src;;
  may_throw (@nothrow_copy_constructible A (mtype V)) id;;
  place l (inj V a).

Definition ctor_move (l src : loc) : M T E unit :=
  a <- read src;;
  may_throw (@nothrow_move_constructible A (mtype V)) (set_slot src (inj V (@torn A (mtype V) a)));;
  place l (inj V a);;
  write src (@moved A (mtype V) a).

(** Assignment of [a] to the member; [f] is what else is left behind when it throws. *)
Definition asg_from (f : mem T E -> mem T E) (l : loc) (nothrow : bool) (a : A) : M T E unit := fun s =>
  match live (get l s), prj V (live (get l s)) with
  | _, Some old =>
      (may_throw nothrow (fun s => set_slot l (inj V (@torn A (mtype V) old)) (f s));; write l a) s
  | Dead, None =>
      if @trivially_destructible A (mtype V)
      then (may_throw nothrow f;; write l a) s else Undefined
  | _, None => Undefined
  end.

Definition asg_copy (l src : loc) : M T E unit :=
  a <- read src;; asg_from id l (@nothrow_copy_assignable A (mtype V)) a.

Definition asg_move (l src : loc) : M T E unit :=
  a <- read src;;
  asg_from (set_slot src (inj V (@torn A (mtype V) a))) l (@nothrow_move_assignable A (mtype V)) a;;
  write src (@moved A (mtype V) a).

(** std::swap of two members. *)
Definition std_swap (l r : loc) : M T E unit :=
  ctor_move Tmp l;;
  scoped (asg_move l r;; asg_move r Tmp) (destroy Tmp).
End Primitives.

End Lifetime.

Import Lifetime.

(** ** Storage: construction and destruction, one specialisation per pair of traits *)

Module Storage.

(** The constructors and the destructor of expected_storage_base.  [nothrow] and the value
    stand for the arguments that are forwarded to [T] or [E]. *)
Record storage_ops (T E : Type) := StorageOps {
  st_default : loc -> bool -> T -> M T E unit;
  st_no_init : loc -> M T E unit;
  st_in_place : loc -> bool -> T -> M T E unit;
  st_unexpect : loc -> bool -> E -> M T E unit;
  st_dtor : loc -> M T E unit
}.
Arguments StorageOps {T E} st_default st_no_init st_in_place st_unexpect st_dtor.
Arguments st_default {T E} s l nothrow v : rename.
Arguments st_no_init {T E} s l : rename.
Arguments st_in_place {T E} s l nothrow v : rename.
Arguments st_unexpect {T E} s l nothrow e : rename.
Arguments st_dtor {T E} s l : rename.

Section Specialisations.
Context {T E : Type} {tT : CType T} {tE : CType E}.

Definition storage_nontrivial : storage_ops T E := {|
  st_default l nothrow v := ctor_from val l nothrow v;; set_has_val l true;
  st_no_init l := place l Dead;; set_has_val l false;
  st_in_place l nothrow v := ctor_from val l nothrow v;; set_has_val l true;
  st_unexpect l nothrow e := ctor_from err l nothrow e;; set_has_val l false;
  st_dtor l := ifm has_value l then destroy val l else destroy err l
|}.

Definition storage_trivial : storage_ops T E := {|
  st_default l nothrow v := ctor_from val l nothrow v;; set_has_val l true;
  st_no_init l := place l Dead;; set_has_val l false;
  st_in_place l nothrow v := ctor_from val l nothrow v;; set_has_val l true;
  st_unexpect l nothrow e := ctor_from err l nothrow e;; set_has_val l false;
  st_dtor l := ret tt
|}.

Definition storage_t_trivial : storage_ops T E := {|
  st_default l nothrow v := ctor_from val l nothrow v;; set_has_val l true;
  st_no_init l := place l Dead;; set_has_val l false;
  st_in_place l nothrow v := ctor_from val l nothrow v;; set_has_val l true;
  st_unexpect l nothrow e := ctor_from err l nothrow e;; set_has_val l false;
  st_dtor l := ifm has_value l then ret tt else destroy err l
|}.

Definition storage_e_trivial : storage_ops T E := {|
  st_default l nothrow v := ctor_from val l nothrow v;; set_has_val l true;
  st_no_init l := place l Dead;; set_has_val l false;
  st_in_place l nothrow v := ctor_from val l nothrow v;; set_has_val l true;
  st_unexpect l nothrow e := ctor_from err l nothrow e;; set_has_val l false;
  st_dtor l := ifm has_value l then destroy val l else ret tt
|}.

(** [void]: only the flag says that there is a value. *)
Definition storage_void_trivial : storage_ops T E := {|
  st_default l _ _ := place l Dead;; set_has_val l true;
  st_no_init l := place l Dead;; set_has_val l false;
  st_in_place l _ _ := place l Dead;; set_has_val l true;
  st_unexpect l nothrow e := ctor_from err l nothrow e;; set_has_val l false;
  st_dtor l := ret tt
|}.

Definition storage_void_nontrivial : storage_ops T E := {|
  st_default l _ _ := place l Dead;; set_has_val l true;
  st_no_init l := place l Dead;; set_has_val l false;
  st_in_place l _ _ := place l Dead;; set_has_val l true;
  st_unexpect l nothrow e := ctor_from err l nothrow e;; set_has_val l false;
  st_dtor l := ifm has_value l then ret tt else destroy err l
|}.

Definition expected_storage_base : storage_ops T E :=
  match trivially_destructible T, trivially_destructible E with
  | false, false => storage_nontrivial
  | true, true => storage_trivial
  | true, false => storage_t_trivial
  | false, true => storage_e_trivial
  end.

Definition void_storage_base : storage_ops T E :=
  if trivially_destructible E then storage_void_trivial else storage_void_nontrivial.
End Specialisations.

End Storage.

(** ** expected_operations_base and the bases that add copies and moves *)

Module Operations.
Import Storage.

(** A member function for const& and one for &&. *)
Inductive cat := ByCopy | ByMove.

Section Operations.
Context {T E : Type} {tT : CType T} {tE : CType E}.

Definition ctor (c : cat) {A} (V : member T E A) (l r : loc) : M T E unit :=
  match c with ByCopy => ctor_copy V l r | ByMove => ctor_move V l r end.

Definition asg (c : cat) {A} (V : member T E A) (l r : loc) : M T E unit :=
  match c with ByCopy => asg_copy V l r | ByMove => asg_move V l r end.

(** [init] is the placement new with the forwarded arguments. *)
Definition construct (l : loc) (init : M T E unit) : M T E unit :=
  noexcept_if true (init;; set_has_val l true).

Definition construct_with (c : cat) (l r : loc) : M T E unit :=
  noexcept_if true (ctor c val l r;; set_has_val l true).

Definition construct_error (l : loc) (init : M T E unit) : M T E unit :=
  noexcept_if true (init;; set_has_val l false).

Definition destroy_val (l : loc) : M T E unit := destroy val l.

Definition assign_common (c : cat) (l r : loc) : M T E unit :=
  ifm has_value l then
    ifm has_value r then asg c val l r
    else (destroy_val l;; construct_error l (ctor c err l r))
  else
    ifm has_value r then ret tt
    else asg c err l r.

(** The guard the overloads of assign share: !m_has_val && rhs.m_has_val. *)
Definition rhs_only (l r : loc) : M T E bool :=
  ifm has_value l then ret false else has_value r.

Definition assign_copy_nothrow (l r : loc) : M T E unit :=
  noexcept_if true
    (ifm rhs_only l r
     then (destroy err l;; construct l (ctor_copy val l r))
     else assign_common ByCopy l r).

Definition assign_copy_tmp (l r : loc) : M T E unit :=
  noexcept_if true
    (ifm rhs_only l r
     then (ctor_copy val Tmp r;;
           scoped (destroy err l;; construct l (ctor_move val l Tmp)) (destroy val Tmp))
     else assign_common ByCopy l r).

Definition assign_copy_backup (l r : loc) : M T E unit :=
  ifm rhs_only l r
  then (ctor_move err Tmp l;;
        scoped (destroy err l;;
                on_throw (construct l (ctor_copy val l r)) (asg_move err l Tmp))
               (destroy err Tmp))
  else assign_common ByCopy l r.

Definition assign_copy (l r : loc) : M T E unit :=
  if nothrow_copy_constructible T then assign_copy_nothrow l r
  else if nothrow_move_constructible T then assign_copy_tmp l r
  else assign_copy_backup l r.

Definition assign_move_nothrow (l r : loc) : M T E unit :=
  noexcept_if true
    (ifm rhs_only l r
     then (destroy err l;; construct l (ctor_move val l r))
     else assign_common ByMove l r).

Definition assign_move_backup (l r : loc) : M T E unit :=
  ifm rhs_only l r
  then (ctor_move err Tmp l;;
        scoped (destroy err l;;
                on_throw (construct l (ctor_move val l r)) (asg_move err l Tmp))
               (destroy err Tmp))
  else assign_common ByMove l r.

Definition assign_move (l r : loc) : M T E unit :=
  if nothrow_move_constructible T then assign_move_nothrow l r
  else assign_move_backup l r.

(** The trivial special members copy the representation. *)
Definition bitwise (l r : loc) : M T E unit := fun s => Ret tt (set l (get r s) s).

Definition copy_ctor_nontrivial (l r : loc) : M T E unit :=
  st_no_init expected_storage_base l;;
  ifm has_value r then construct_with ByCopy l r
  else construct_error l (ctor_copy err l r).

Definition copy_ctor (l r : loc) : M T E unit :=
  if trivially_copy_constructible T && trivially_copy_constructible E
  then bitwise l r else copy_ctor_nontrivial l r.

Definition move_ctor_nontrivial (l r : loc) : M T E unit :=
  noexcept_if (nothrow_move_constructible T)
    (st_no_init expected_storage_base l;;
     ifm has_value r then construct_with ByMove l r
     else construct_error l (ctor_move err l r)).

Definition move_ctor (l r : loc) : M T E unit :=
  if trivially_move_constructible T && trivially_move_constructible E
  then bitwise l r else move_ctor_nontrivial l r.

Definition copy_asg_trivial : bool :=
  trivially_copy_assignable T && trivially_copy_constructible T && trivially_destructible T &&
  trivially_copy_assignable E && trivially_copy_constructible E && trivially_destructible E.

Definition move_asg_trivial : bool :=
  trivially_destructible T && trivially_move_constructible T && trivially_move_assignable T &&
  trivially_destructible E && trivially_move_constructible E && trivially_move_assignable E.

Definition copy_asg (l r : loc) : M T E unit :=
  if copy_asg_trivial then bitwise l r else assign_copy l r.

Definition move_asg (l r : loc) : M T E unit :=
  if move_asg_trivial then bitwise l r
  else noexcept_if (nothrow_move_constructible T && nothrow_move_assignable T)
         (assign_move l r).
End Operations.

End Operations.

(** ** expected<void, E> *)

Module VoidOperations.
Import Operations.

Section VoidOperations.
Context {T E : Type} {tT : CType T} {tE : CType E}.

Definition void_construct (l : loc) : M T E unit := set_has_val l true.

Definition void_construct_error (l : loc) (init : M T E unit) : M T E unit :=
  noexcept_if true (init;; set_has_val l false).

Definition void_assign (c : cat) (l r : loc) : M T E unit :=
  noexcept_if true
    (ifm has_value l then
       ifm has_value r then ret tt
       else void_construct_error l (ctor c err l r)
     else
       ifm has_value r then (destroy err l;; void_construct l)
       else asg c err l r).

Definition void_swap_only_one (l r : loc) : M T E unit :=
  noexcept_if (nothrow_move_constructible E)
    (ctor_move err l r;;
     destroy err r;;
     bl <- has_value l;; br <- has_value r;; set_has_val l br;; set_has_val r bl).
End VoidOperations.

End VoidOperations.

(** ** The members of expected *)

Module Members.
Import Storage Operations.

Section Members.
Context {T E : Type} {tT : CType T} {tE : CType E}.

(** expected(const expected<U, G>&) and expected(expected<U, G>&&): the storage is first
    default-constructed, with [dflt] the value T{}; [x] holds what *rhs or rhs.error()
    convert to, and [nothrow] says whether the conversion can throw. *)
Definition converting_ctor (l : loc) (nothrow_dflt : bool) (dflt : T)
    (nothrow : bool) (x : exp T E) : M T E unit :=
  st_default expected_storage_base l nothrow_dflt dflt;;
  match x with
  | Val v => construct l (ctor_from val l nothrow v)
  | Unex e => construct_error l (ctor_from err l nothrow e)
  end.

Definition in_place_ctor (l : loc) (nothrow : bool) (v : T) : M T E unit :=
  st_in_place expected_storage_base l nothrow v.

Definition unexpect_ctor (l : loc) (nothrow : bool) (e : E) : M T E unit :=
  st_unexpect expected_storage_base l nothrow e.

(** expected(const unexpected<G>&) and expected(unexpected<G>&&). *)
Definition unexpected_ctor (c : cat) (l : loc) (nothrow : bool) (e : E) : M T E unit :=
  noexcept_if (match c with ByCopy => false | ByMove => nothrow end)
    (st_unexpect expected_storage_base l nothrow e).

(** expected(U&&) delegates to the constructor in place. *)
Definition value_ctor (l : loc) (nothrow : bool) (v : T) : M T E unit :=
  in_place_ctor l nothrow v.

Definition dtor (l : loc) : M T E unit := st_dtor expected_storage_base l.

(** operator=(U&&) for a [T] that is constructed from [U] without throwing. *)
Definition assign_value_nothrow (l : loc) (nothrow_asg : bool) (v : T) : M T E unit :=
  ifm has_value l then asg_from val id l nothrow_asg v
  else (destroy err l;; ctor_from val l true v;; set_has_val l true).

Definition assign_value_backup (l : loc) (nothrow_asg : bool) (v : T) : M T E unit :=
  ifm has_value l then asg_from val id l nothrow_asg v
  else (ctor_move err Tmp l;;
        scoped (destroy err l;;
                on_throw (ctor_from val l false v;; set_has_val l true) (asg_move err l Tmp))
               (destroy err Tmp)).

Definition assign_value (l : loc) (nothrow nothrow_asg : bool) (v : T) : M T E unit :=
  if nothrow then assign_value_nothrow l nothrow_asg v
  else assign_value_backup l nothrow_asg v.

(** operator=(const unexpected<G>&), for an [E] that is copied without throwing. *)
Definition assign_unexpected_copy (l : loc) (e : E) : M T E unit :=
  ifm has_value l
  then (destroy_val l;; ctor_from err l (nothrow_copy_constructible E) e;; set_has_val l false)
  else asg_from err id l (nothrow_copy_assignable E) e.

Definition assign_unexpected_move (l : loc) (e : E) : M T E unit :=
  noexcept_if true
    (ifm has_value l
     then (destroy_val l;; ctor_from err l (nothrow_move_constructible E) e;; set_has_val l false)
     else asg_from err id l (nothrow_move_assignable E) e).

Definition emplace_nothrow (l : loc) (v : T) : M T E unit :=
  (ifm has_value l then destroy val l else (destroy err l;; set_has_val l true));;
  ctor_from val l true v.

Definition emplace_backup (l : loc) (v : T) : M T E unit :=
  ifm has_value l then (destroy val l;; ctor_from val l false v)
  else (ctor_move err Tmp l;;
        scoped (destroy err l;;
                on_throw (ctor_from val l false v;; set_has_val l true) (asg_move err l Tmp))
               (destroy err Tmp)).

Definition emplace (l : loc) (nothrow : bool) (v : T) : M T E unit :=
  if nothrow then emplace_nothrow l v else emplace_backup l v.

(** The overloads for an initializer list. *)
Definition emplace_list_nothrow (l : loc) (v : T) : M T E unit :=
  ifm has_value l
  then (ctor_from val Tmp true v;; scoped (asg_move val l Tmp) (destroy val Tmp))
  else (destroy err l;; ctor_from val l true v;; set_has_val l true).

Definition emplace_list_backup (l : loc) (v : T) : M T E unit :=
  ifm has_value l
  then (ctor_from val Tmp false v;; scoped (asg_move val l Tmp) (destroy val Tmp))
  else (ctor_move err Tmp l;;
        scoped (destroy err l;;
                on_throw (ctor_from val l false v;; set_has_val l true) (asg_move err l Tmp))
               (destroy err Tmp)).

Definition emplace_list (l : loc) (nothrow : bool) (v : T) : M T E unit :=
  if nothrow then emplace_list_nothrow l v else emplace_list_backup l v.

Definition swap_has_val (l r : loc) : M T E unit :=
  bl <- has_value l;; br <- has_value r;; set_has_val l br;; set_has_val r bl.

Definition swap_one_nothrow (l r : loc) : M T E unit :=
  noexcept_if true
    (ctor_move val Tmp l;;
     scoped (destroy val l;; ctor_move err l r;; destroy err r;;
             ctor_move val r Tmp;; swap_has_val l r)
            (destroy val Tmp)).

Definition swap_one_e_throws (l r : loc) : M T E unit :=
  ctor_move val Tmp l;;
  scoped (destroy val l;;
          on_throw (ctor_move err l r;; destroy err r;;
                    ctor_move val r Tmp;; swap_has_val l r)
                   (asg_move val l Tmp))
         (destroy val Tmp).

Definition swap_one_t_throws (l r : loc) : M T E unit :=
  ctor_move err Tmp r;;
  scoped (destroy err r;;
          on_throw (ctor_move val r l;; destroy val l;;
                    ctor_move err l Tmp;; swap_has_val l r)
                   (asg_move err r Tmp))
         (destroy err Tmp).

(** swap_where_only_one_has_value: the overload for two members that both may throw when
    they are moved does not exist. *)
Definition swap_where_only_one_has_value (l r : loc) : M T E unit :=
  match nothrow_move_constructible T, nothrow_move_constructible E with
  | true, true => swap_one_nothrow l r
  | true, false => swap_one_e_throws l r
  | false, true => swap_one_t_throws l r
  | false, false => undefined
  end.

Definition swap_where_both_have_value (l r : loc) : M T E unit := std_swap val l r.

Definition swap_noexcept : bool :=
  nothrow_move_constructible T && nothrow_move_assignable T &&
  nothrow_move_constructible E && nothrow_move_assignable E.

(** One entry of swap; [self] is the call rhs.swap( *this). *)
Definition swap_body (self : loc -> loc -> M T E unit) (l r : loc) : M T E unit :=
  noexcept_if swap_noexcept
    (bl <- has_value l;; br <- has_value r;;
     if bl && br then swap_where_both_have_value l r
     else if negb bl && br then self r l
     else if bl then swap_where_only_one_has_value l r
     else std_swap err l r).

Fixpoint swap_fuel (n : nat) (l r : loc) : M T E unit :=
  match n with
  | 0 => undefined
  | S n' => swap_body (swap_fuel n') l r
  end.

Definition swap : loc -> loc -> M T E unit := swap_fuel 2.

(** operator* and error(): TL_ASSERT is assert. *)
Definition operator_star (ndebug : bool) (l : loc) : M T E T :=
  ifm has_value l then read val l
  else (if ndebug then read val l else terminate).

Definition error (ndebug : bool) (l : loc) : M T E E :=
  ifm has_value l then (if ndebug then read err l else terminate)
  else read err l.

(** value(): the error is copied, or moved when the object is an rvalue, into the argument
    of bad_expected_access, from there into its member and with it into the exception. *)
Definition value (c : cat) (l : loc) : M T E T :=
  ifm has_value l then read val l
  else (e <- read err l;;
        match c with
        | ByCopy => may_throw (nothrow_copy_constructible E) id
        | ByMove => may_throw (nothrow_move_constructible E) (set_slot l (LErr (torn e)));;
                    write err l (moved e)
        end;;
        may_throw (nothrow_move_constructible E) id;;
        may_throw (nothrow_move_constructible E) id;;
        throw (BadExpectedAccess e)).

(** value_or: the result is a copy of the value, or moved out of it. *)
Definition value_or (c : cat) (ndebug : bool) (l : loc) (nothrow_conv : bool) (d : T) : M T E T :=
  ifm has_value l
  then (v <- operator_star ndebug l;;
        match c with
        | ByCopy => may_throw (nothrow_copy_constructible T) id;; ret v
        | ByMove => may_throw (nothrow_move_constructible T) (set_slot l (LVal (torn v)));;
                    write val l (moved v);; ret v
        end)
  else (may_throw nothrow_conv id;; ret d).
End Members.

End Members.

(** ** and_then, map, map_error, or_else *)

Module Combinators.
Import Operations.

Section Callbacks.
Context {S X : Type}.

(** A callback: it has effects on a state [S] and may throw an [X]. *)
Definition CB (A : Type) : Type := S -> (A + X) * S.

Definition cret {A} (a : A) : CB A := fun s => (inl a, s).
Definition cbind {A B} (m : CB A) (k : A -> CB B) : CB B := fun s =>
  match m s with
  | (inl a, s') => k a s'
  | (inr x, s') => (inr x, s')
  end.

(** The copy constructor (for an lvalue) and the move constructor (for an rvalue) of a
    type: the new object and what is left in the source. *)
Class Forward (A : Type) := fwd : cat -> A -> CB (A * A).

(** A copy or a move has the value of its source, no effect and no exception; a copy leaves
    the source alone.  tl::expected does not ask for this: it is the hypothesis of the laws
    of the combinators, not of the combinators. *)
Class Regular (A : Type) {fA : Forward A} := {
  left_behind : A -> A;
  fwd_copy : forall (a : A), fwd ByCopy a = cret (a, a);
  fwd_move : forall (a : A), fwd ByMove a = cret (a, left_behind a)
}.
End Callbacks.
Arguments CB : clear implicits.
Arguments Forward : clear implicits.
Arguments Regular S X A {fA}.

#[global] Instance cb_ret {S X} : MRet (CB S X) := fun A a => cret a.
#[global] Instance cb_bind {S X} : MBind (CB S X) := fun A B k m => cbind m k.

Section Impl.
Context {S X : Type} {T U E G : Type}.
Context {fT : Forward S X T} {fU : Forward S X U} {fE : Forward S X E} {fG : Forward S X G}.

(** A callback takes a reference to what the object holds: it returns its result and what
    it leaves there.  The second component of a combinator is the object it was called
    on, afterwards. *)
Definition and_then_impl (c : cat) (x : exp T E) (f : T -> CB S X (exp U E * T))
    : CB S X (exp U E * exp T E) :=
  match x with
  | Val v => '(r, v') ← f v; mret (r, Val v')
  | Unex e => '(e1, e0) ← fwd c e; mret (Unex e1, Unex e0)
  end.

Definition and_then_impl_void (c : cat) (x : exp unit E) (f : CB S X (exp U E))
    : CB S X (exp U E * exp unit E) :=
  match x with
  | Val _ => r ← f; mret (r, x)
  | Unex e => '(e1, e0) ← fwd c e; mret (Unex e1, Unex e0)
  end.

Definition expected_map_impl (c : cat) (x : exp T E) (f : T -> CB S X (U * T))
    : CB S X (exp U E * exp T E) :=
  match x with
  | Val v => '(u, v') ← f v; '(u1, _) ← fwd ByMove u; mret (Val u1, Val v')
  | Unex e => '(e1, e0) ← fwd c e; mret (Unex e1, Unex e0)
  end.

Definition expected_map_impl_ret_void (c : cat) (x : exp T E) (f : T -> CB S X (unit * T))
    : CB S X (exp unit E * exp T E) :=
  match x with
  | Val v => '(_, v') ← f v; mret (Val tt, Val v')
  | Unex e => '(e1, e0) ← fwd c e; mret (Unex e1, Unex e0)
  end.

Definition expected_map_impl_void (c : cat) (x : exp unit E) (f : CB S X U)
    : CB S X (exp U E * exp unit E) :=
  match x with
  | Val _ => u ← f; '(u1, _) ← fwd ByMove u; mret (Val u1, x)
  | Unex e => '(e1, e0) ← fwd c e; mret (Unex e1, Unex e0)
  end.

Definition expected_map_impl_void_void (c : cat) (x : exp unit E) (f : CB S X unit)
    : CB S X (exp unit E * exp unit E) :=
  match x with
  | Val _ => _ ← f; mret (Val tt, x)
  | Unex e => '(e1, e0) ← fwd c e; mret (Unex e1, Unex e0)
  end.

Definition map_error_impl (c : cat) (x : exp T E) (f : E -> CB S X (G * E))
    : CB S X (exp T G * exp T E) :=
  match x with
  | Val v => '(v1, v0) ← fwd c v; mret (Val v1, Val v0)
  | Unex e => '(g, e') ← f e; '(g1, _) ← fwd ByMove g; mret (Unex g1, Unex e')
  end.

(** The callback returns void: the new error is a monostate. *)
Definition map_error_impl_ret_void (c : cat) (x : exp T E) (f : E -> CB S X (unit * E))
    : CB S X (exp T unit * exp T E) :=
  match x with
  | Val v => '(v1, v0) ← fwd c v; mret (Val v1, Val v0)
  | Unex e => '(_, e') ← f e; mret (Unex tt, Unex e')
  end.

Definition map_error_impl_void (x : exp unit E) (f : E -> CB S X (G * E))
    : CB S X (exp unit G * exp unit E) :=
  match x with
  | Val _ => mret (Val tt, x)
  | Unex e => '(g, e') ← f e; '(g1, _) ← fwd ByMove g; mret (Unex g1, Unex e')
  end.

Definition map_error_impl_void_void (x : exp unit E) (f : E -> CB S X (unit * E))
    : CB S X (exp unit unit * exp unit E) :=
  match x with
  | Val _ => mret (Val tt, x)
  | Unex e => '(_, e') ← f e; mret (Unex tt, Unex e')
  end.

(** std::forward<Exp>(exp) as the result: a copy or a move of the whole object. *)
Definition forward_exp (c : cat) (x : exp T E) : CB S X (exp T E * exp T E) :=
  match x with
  | Val v => '(v1, v0) ← fwd c v; mret (Val v1, Val v0)
  | Unex e => '(e1, e0) ← fwd c e; mret (Unex e1, Unex e0)
  end.

Definition or_else_impl (c : cat) (x : exp T E) (f : E -> CB S X (exp T E * E))
    : CB S X (exp T E * exp T E) :=
  match x with
  | Val _ => forward_exp c x
  | Unex e => '(r, e') ← f e; mret (r, Unex e')
  end.

(** The callback returns void: the error that it leaves is forwarded. *)
Definition or_else_impl_ret_void (c : cat) (x : exp T E) (f : E -> CB S X (unit * E))
    : CB S X (exp T E * exp T E) :=
  match x with
  | Val _ => forward_exp c x
  | Unex e => '(_, e') ← f e; forward_exp c (Unex e')
  end.

(** The four overloads of each member: what std::forward makes of *this.  A const
    rvalue is copied. *)
Inductive overload := Ref | RvalueRef | ConstRef | ConstRvalueRef.

Definition forwards (o : overload) : cat :=
  match o with RvalueRef => ByMove | _ => ByCopy end.

Definition expected_and_then (o : overload) (x : exp T E) (f : T -> CB S X (exp U E * T)) :=
  and_then_impl (forwards o) x f.
Definition expected_map (o : overload) (x : exp T E) (f : T -> CB S X (U * T)) :=
  expected_map_impl (forwards o) x f.
Definition expected_transform (o : overload) (x : exp T E) (f : T -> CB S X (U * T)) :=
  expected_map_impl (forwards o) x f.
Definition expected_map_error (o : overload) (x : exp T E) (f : E -> CB S X (G * E)) :=
  map_error_impl (forwards o) x f.
Definition expected_transform_error (o : overload) (x : exp T E) (f : E -> CB S X (G * E)) :=
  map_error_impl (forwards o) x f.
Definition expected_or_else (o : overload) (x : exp T E) (f : E -> CB S X (exp T E * E)) :=
  or_else_impl (forwards o) x f.
End Impl.

(** What a combinator returns, without the object it was called on. *)
Definition result {S X A B} (m : CB S X (A * B)) : CB S X A := '(a, _) ← m; cret a.

Lemma cbind_assoc {S X A B C} (m : CB S X A) (f : A -> CB S X B) (g : B -> CB S X C) s :
  cbind (cbind m f) g s = cbind m (fun a => cbind (f a) g) s.
Proof. unfold cbind. by destruct (m s) as [[] ?]. Qed.

Section Laws.
Context {S X : Type} {T U W E G : Type}.
Context {fT : Forward S X T} {fU : Forward S X U} {fE : Forward S X E} {fG : Forward S X G}.
Context {rT : Regular S X T} {rU : Regular S X U} {rE : Regular S X E} {rG : Regular S X G}.

Lemma result_and_then c (x : exp T E) (f : T -> CB S X (exp U E * T)) s :
  result (and_then_impl c x f) s =
  match x with Val v => result (f v) s | Unex e => cret (Unex e) s end.
Proof.
  destruct x as [v|e]; unfold result, and_then_impl.
  - unfold mbind, mret, cb_bind, cb_ret, cbind, cret. by destruct (f v s) as [[[]|] ?].
  - destruct c; by rewrite ?fwd_copy, ?fwd_move.
Qed.

Lemma result_map c (x : exp T E) (f : T -> CB S X (U * T)) s :
  result (expected_map_impl c x f) s =
  match x with
  | Val v => cbind (f v) (fun '(u, _) => cret (Val u)) s
  | Unex e => cret (Unex e) s
  end.
Proof.
  destruct x as [v|e]; unfold result, expected_map_impl.
  - unfold mbind, mret, cb_bind, cb_ret, cbind, cret. destruct (f v s) as [[[]|] ?]; [|done]. by rewrite fwd_move.
  - destruct c; by rewrite ?fwd_copy, ?fwd_move.
Qed.

(** map is and_then with a callback that wraps its result. *)
Lemma map_and_then c (x : exp T E) (f : T -> CB S X (U * T)) s :
  result (expected_map_impl c x f) s =
  result (and_then_impl c x (fun v => '(u, v') ← f v; mret (Val u, v'))) s.
Proof.
  rewrite result_map, result_and_then. destruct x; [|done].
  unfold result, mbind, mret, cb_bind, cb_ret, cbind, cret. by destruct (f v s) as [[[]|] ?].
Qed.

(** On an error and_then calls nothing; on a value map_error and or_else call nothing. *)
Lemma and_then_short_circuit c e (f g : T -> CB S X (exp U E * T)) :
  and_then_impl c (Unex e) f = and_then_impl c (Unex e) g.
Proof. done. Qed.

Lemma result_or_else c (x : exp T E) (f : E -> CB S X (exp T E * E)) s :
  result (or_else_impl c x f) s =
  match x with Val v => cret (Val v) s | Unex e => result (f e) s end.
Proof.
  destruct x as [v|e]; unfold result, or_else_impl, forward_exp.
  - destruct c; by rewrite ?fwd_copy, ?fwd_move.
  - unfold mbind, mret, cb_bind, cb_ret, cbind, cret. by destruct (f e s) as [[[]|] ?].
Qed.

Lemma result_map_error c (x : exp T E) (f : E -> CB S X (G * E)) s :
  result (map_error_impl c x f) s =
  match x with
  | Val v => cret (Val v) s
  | Unex e => cbind (f e) (fun '(g, _) => cret (Unex g)) s
  end.
Proof.
  destruct x as [v|e]; unfold result, map_error_impl.
  - destruct c; by rewrite ?fwd_copy, ?fwd_move.
  - unfold mbind, mret, cb_bind, cb_ret, cbind, cret. destruct (f e s) as [[[]|] ?]; [|done]. by rewrite fwd_move.
Qed.
End Laws.

(** A chain of two combinators on [x]: on the side that is passed through everything is
    forwarded, on the other the first callback is left to run. *)
Ltac cb_chain x :=
  destruct x; unfold result, expected_map_impl, or_else_impl, forward_exp, and_then_impl,
    mbind, mret, cb_bind, cb_ret, cbind, cret in *;
  try solve [repeat match goal with o : overload |- _ => destruct o end; cbn;
    rewrite ?fwd_copy, ?fwd_move; cbn; rewrite ?fwd_copy, ?fwd_move; done].

Section MonadLaws.
Context {S X : Type} {T U W E : Type}.
Context {fT : Forward S X T} {fU : Forward S X U} {fW : Forward S X W} {fE : Forward S X E}.
Context {rT : Regular S X T} {rU : Regular S X U} {rW : Regular S X W} {rE : Regular S X E}.

(** [C40] For element types that are regular - their copies and moves neither throw nor have
    effects, a copy or a move has the value of its source, and a copy leaves its source
    alone - and_then is the bind of a monad whose unit is the construction from a value, map
    is its functor and or_else the bind on the side of the errors; the callbacks may have
    any effects and throw, and the laws hold on lvalues and rvalues alike: in a chain of
    calls the callbacks run in the same order and as often as in the nested form, and a
    chain stops at the first error (at the first value, for or_else). *)
Theorem combinators_monad (o o' : overload) (x : exp T E) (v : T) (e : E)
    (f : T -> CB S X (exp U E * T)) (g : U -> CB S X (exp W E * U)) (h : T -> CB S X (U * T))
    (h' : U -> CB S X (W * U)) (k k' : E -> CB S X (exp T E * E)) (s : S) :
  result (expected_and_then o (Val v) f) s = result (f v) s /\
  result (expected_and_then o x (fun v => cret (Val v, v))) s = cret x s /\
  cbind (result (expected_and_then o x f)) (fun y => result (expected_and_then o' y g)) s =
    result (expected_and_then o x (fun v => cbind (f v) (fun '(y, v') =>
      cbind (result (expected_and_then o' y g)) (fun z => cret (z, v'))))) s /\
  result (expected_map o x h) s =
    result (expected_and_then o x (fun v => cbind (h v) (fun '(u, v') => cret (Val u, v')))) s /\
  cbind (result (expected_map o x h)) (fun y => result (expected_map o' y h')) s =
    result (expected_map o x (fun v => cbind (h v) (fun '(u, v') =>
      cbind (h' u) (fun '(w, _) => cret (w, v'))))) s /\
  result (expected_or_else o (Unex e) k) s = result (k e) s /\
  cbind (result (expected_or_else o x k)) (fun y => result (expected_or_else o' y k')) s =
    result (expected_or_else o x (fun e => cbind (k e) (fun '(y, e') =>
      cbind (result (expected_or_else o' y k')) (fun z => cret (z, e'))))) s.
Proof.
  unfold expected_and_then, expected_map, expected_or_else.
  split_and!; [by rewrite result_and_then| | |apply map_and_then| |by rewrite result_or_else|].
  - rewrite result_and_then. by destruct x.
  - cb_chain x. destruct (f v0 s) as [[[y ?]|] s1]; [|done].
    destruct y as [u|e2]; [by destruct (g u s1) as [[[]|]]|].
    by destruct (fwd (forwards o') e2 s1) as [[[]|]].
  - cb_chain x. destruct (h v0 s) as [[[u ?]|] s1]; [|done]. rewrite fwd_move. cbn.
    destruct (h' u s1) as [[[w ?]|] s2]; [|done]. by rewrite !fwd_move.
  - cb_chain x. destruct (k e0 s) as [[[y ?]|] s1]; [|done].
    destruct y as [u|e2]; [|by destruct (k' e2 s1) as [[[]|]]].
    by destruct (fwd (forwards o') u s1) as [[[]|]].
Qed.
End MonadLaws.

(** Numbers that are copied and moved without effects or exceptions. *)
#[local] Instance plain_forward : Forward nat unit nat := fun _ a => cret (a, a).
#[local] Instance plain_regular : Regular nat unit nat :=
  {| left_behind a := a; fwd_copy a := eq_refl; fwd_move a := eq_refl |}.

(** Callbacks that count their calls: the chain and its nested form count two. *)
Lemma combinators_monad_witness :
  let f := fun v : nat => fun n : nat => (inl (Val (v + 1), v), S n) : (exp nat nat * nat + unit) * nat in
  cbind (result (expected_and_then Ref (Val 1) f)) (fun y => result (expected_and_then RvalueRef y f)) 0 =
    (inl (Val 3), 2) /\
  result (expected_and_then Ref (Val 1) (fun v => cbind (f v) (fun '(y, v') =>
    cbind (result (expected_and_then RvalueRef y f)) (fun z => cret (z, v'))))) 0 = (inl (Val 3), 2).
Proof.
  set (f := fun v : nat => fun n : nat => (inl (Val (v + 1), v), S n) : (exp nat nat * nat + unit) * nat).
  destruct (combinators_monad Ref RvalueRef (Val 1) 1 7 f f (fun v => cret (v, v)) (fun v => cret (v, v))
    (fun e => cret (Unex e, e)) (fun e => cret (Unex e, e)) 0) as (_ & _ & H & _).
  split; [reflexivity|]. exact (eq_trans (eq_sym H) eq_refl).
Defined.

(** The laws need it: with an error type that counts its copies, a chain of two and_then on
    an error copies it twice and the nested form once. *)
Module CountingCopies.
#[local] Instance counting_forward : Forward nat unit nat := fun c a n =>
  (inl (a, a), match c with ByCopy => S n | ByMove => n end).

Theorem and_then_counts_copies :
  let f := fun v : nat => cret (Val v, v) : CB nat unit (exp nat nat * nat) in
  cbind (result (expected_and_then Ref (Unex 7) f)) (fun y => result (expected_and_then Ref y f)) 0 = (inl (Unex 7), 2) /\
  result (expected_and_then Ref (Unex 7) (fun v => cbind (f v) (fun '(y, v') =>
    cbind (result (expected_and_then Ref y f)) (fun z => cret (z, v'))))) 0 = (inl (Unex 7), 1).
Proof. split; reflexivity. Qed.
End CountingCopies.

End Combinators.

(** ** The comparison operators *)

Module Comparison.

Section Comparison.
(** == and != of the element types are separate operators. *)
Context {T U E F : Type}.
Variables (eqT neT : T -> U -> bool) (eqE neE : E -> F -> bool).

Definition exp_has_value {A B : Type} (x : exp A B) : bool :=
  match x with Val _ => true | Unex _ => false end.

Definition eq_expected (lhs : exp T E) (rhs : exp U F) : bool :=
  match lhs, rhs with
  | Unex e, Unex f => eqE e f
  | Val v, Val u => eqT v u
  | _, _ => false
  end.

Definition ne_expected (lhs : exp T E) (rhs : exp U F) : bool :=
  match lhs, rhs with
  | Unex e, Unex f => neE e f
  | Val v, Val u => neT v u
  | _, _ => true
  end.

Definition eq_expected_void (lhs : exp unit E) (rhs : exp unit F) : bool :=
  match lhs, rhs with
  | Unex e, Unex f => eqE e f
  | Val _, Val _ => true
  | _, _ => false
  end.

Definition ne_expected_void (lhs : exp unit E) (rhs : exp unit F) : bool :=
  match lhs, rhs with
  | Unex e, Unex f => eqE e f
  | Val _, Val _ => false
  | _, _ => true
  end.

Definition eq_value (x : exp T E) (v : U) : bool :=
  match x with Val t => eqT t v | Unex _ => false end.
Definition ne_value (x : exp T E) (v : U) : bool :=
  match x with Val t => neT t v | Unex _ => true end.
Definition eq_unexpected (x : exp T E) (e : F) : bool :=
  match x with Val _ => false | Unex e' => eqE e' e end.
Definition ne_unexpected (x : exp T E) (e : F) : bool :=
  match x with Val _ => true | Unex e' => neE e' e end.

Hypothesis ne_T : forall t u, neT t u = negb (eqT t u).
Hypothesis ne_E : forall e f, neE e f = negb (eqE e f).

(** != is the negation of == ... *)
Lemma ne_expected_negb lhs rhs : ne_expected lhs rhs = negb (eq_expected lhs rhs).
Proof. destruct lhs, rhs; cbn; auto. Qed.

Lemma ne_value_negb x v : ne_value x v = negb (eq_value x v).
Proof. destruct x; cbn; auto. Qed.

Lemma ne_unexpected_negb x e : ne_unexpected x e = negb (eq_unexpected x e).
Proof. destruct x; cbn; auto. Qed.

(** ... except for expected<void, E>: of two errors both operators say the same. *)
Lemma ne_expected_void_of_errors e f :
  ne_expected_void (Unex e) (Unex f) = eq_expected_void (Unex e) (Unex f).
Proof. done. Qed.

Lemma ne_expected_void_negb lhs rhs :
  ne_expected_void lhs rhs = negb (eq_expected_void lhs rhs) <->
  exp_has_value lhs || exp_has_value rhs = true.
Proof. destruct lhs as [[]|e], rhs as [[]|f]; cbn; try done. by destruct (eqE e f). Qed.
End Comparison.

End Comparison.
