(* ===== verification/ExpectedContract.v ===== *)
(** * tl::expected against its contract

    The memory model and the operations are those of Expected.v.  [abs] reads an object as a
    value or an error; [wp] is a calculus of postconditions for what returns and what throws,
    run by [wp_run].  When nothing throws, every program over two objects refines the
    contract and leaks nothing ([expected_life]); when something throws, objects whose error
    type is plain (an enumeration, as in the library) keep their invariant
    ([exception_safe], [into_error_strong]).  The last section holds the cases in which the
    code does not keep its promise. *)
From S2P Require Import Prelude Expected.
From stdpp Require Import base list option.
Import Lifetime.

(** ** Assignment, swap and emplace against the contract *)

Module Contract.
Import Storage Operations Members.

Section Contract.
Context {T E : Type} {tT : CType T} {tE : CType E}.

(** The abstraction: what the flag says lives, and nothing else does. *)
Definition abs (o : obj T E) : option (exp T E) :=
  match m_has_val o, live o with
  | true, LVal v => Some (Val v)
  | false, LErr e => Some (Unex e)
  | _, _ => None
  end.

Definition holds (o : obj T E) (x : exp T E) : Prop := abs o = Some x.

Definition is_val (x : exp T E) : bool := match x with Val _ => true | Unex _ => false end.

Definition moved_exp (x : exp T E) : exp T E :=
  match x with Val v => Val (moved v) | Unex e => Unex (moved e) end.

Definition torn_exp (x : exp T E) : exp T E :=
  match x with Val v => Val (torn v) | Unex e => Unex (torn e) end.

(** Some call throws. *)
Definition may_fail (s : mem T E) : Prop := existsb (fun b => b) (oracle s) = true.

(** No undefined behaviour; the program ends only when something throws. *)
Definition outcome {A} (s : mem T E) (r : res T E A)
    (ok : A -> mem T E -> Prop) (thrown : exn E -> mem T E -> Prop) : Prop :=
  match r with
  | Ret a s' => ok a s'
  | Throw x s' => may_fail s /\ thrown x s'
  | Terminate => may_fail s
  | Undefined => False
  end.

(** Two expected objects, no temporary alive, [k] objects leaked so far. *)
Definition pair_of (x y : exp T E) (k : nat) (s : mem T E) : Prop :=
  holds (at_this s) x /\ holds (at_rhs s) y /\ live (at_tmp s) = Dead /\ leaked s = k.

Lemma holds_inv o x : holds o x ->
  o = match x with Val v => Obj (LVal v) true | Unex e => Obj (LErr e) false end.
Proof. destruct o as [[] []], x; unfold holds, abs; cbn; naive_solver. Qed.

Lemma pair_of_inv x y k s : pair_of x y k s -> exists b o,
  s = Mem (match x with Val v => Obj (LVal v) true | Unex e => Obj (LErr e) false end)
          (match y with Val v => Obj (LVal v) true | Unex e => Obj (LErr e) false end)
          (Obj Dead b) o k.
Proof.
  intros (Hx & Hy & Ht & Hk). destruct s as [t r [tl th] o k']. cbn in *. subst.
  apply holds_inv in Hx, Hy. subst. eauto.
Qed.
End Contract.

(** ** A calculus for computations

    [wp m Q X D s]: [m] from [s] is not undefined; when it returns [Q] holds, when it throws
    [X], when it ends the program [D]. *)

Section Wp.
Context {T E : Type} {tT : CType T} {tE : CType E}.
Implicit Types (s : mem T E) (D : Prop).

Definition wp {A} (m : M T E A) (Q : A -> mem T E -> Prop) (X : exn E -> mem T E -> Prop) D s : Prop :=
  match m s with
  | Ret a s' => Q a s'
  | Throw x s' => X x s'
  | Terminate => D
  | Undefined => False
  end.

Lemma wp_prim {A} (m : M T E A) a s' Q X D s : m s = Ret a s' -> Q a s' -> wp m Q X D s.
Proof. unfold wp. by intros ->. Qed.

Lemma wp_bind {A B} (m : M T E A) (k : A -> M T E B) Q X D s :
  wp m (fun a => wp (k a) Q X D) X D s -> wp (bind m k) Q X D s.
Proof. unfold wp, bind. by destruct (m s). Qed.

Lemma wp_throw {A} x (Q : A -> mem T E -> Prop) X D s : X x s -> wp (throw x : M T E A) Q X D s.
Proof. done. Qed.

Lemma wp_noexcept {A} (b : bool) (m : M T E A) Q X D s :
  wp m Q (fun x s' => if b then D else X x s') D s -> wp (noexcept_if b m) Q X D s.
Proof. unfold wp, noexcept_if. destruct (m s); try done. by destruct b. Qed.

Lemma wp_on_throw {A} (m : M T E A) (h : M T E unit) Q X D s :
  wp m Q (fun x => wp h (fun _ => X x) X D) D s -> wp (on_throw m h) Q X D s.
Proof. unfold wp, on_throw, bind, throw. destruct (m s); try done. by destruct (h _). Qed.

Lemma wp_scoped {A} (m : M T E A) (d : M T E unit) Q X D s :
  wp m (fun a => wp d (fun _ => Q a) X D) (fun x => wp d (fun _ => X x) X D) D s ->
  wp (scoped m d) Q X D s.
Proof. unfold wp, scoped, bind, throw, ret. destruct (m s) as [? s'|? s'| |]; try done; by destruct (d s'). Qed.

Lemma wp_may_throw_nothrow f Q X D s : Q tt s -> wp (may_throw true f) Q X D s.
Proof. done. Qed.

Lemma wp_may_throw f Q X D t r p o k :
  (o = [] -> Q tt (Mem t r p [] k)) ->
  (forall o', o = false :: o' -> Q tt (Mem t r p o' k)) ->
  (forall o', o = true :: o' -> X ExUser (f (Mem t r p o' k))) ->
  wp (may_throw false f) Q X D (Mem t r p o k).
Proof. intros H1 H2 H3. unfold wp, may_throw. cbn. destruct o as [|[] o']; cbn; auto. Qed.

(** Where nothing throws the traits do not matter. *)
Definition quiet (o : list bool) : Prop := existsb (fun b => b) o = false.

Lemma wp_may_throw_quiet f nt Q X D t r p o k : quiet o ->
  (forall o', quiet o' -> Q tt (Mem t r p o' k)) -> wp (may_throw nt f) Q X D (Mem t r p o k).
Proof.
  intros Hq HQ. unfold wp, may_throw. destruct nt; [auto|]. cbn.
  destruct o as [|[] o']; [auto|done|]. apply HQ. done.
Qed.

Lemma wp_asg_live {A} (V : member T E A) f l nt a old Q X D s :
  prj V (live (get l s)) = Some old ->
  wp (may_throw nt (fun s => set_slot l (inj V (@torn A (mtype V) old)) (f s));; write V l a) Q X D s ->
  wp (asg_from V f l nt a) Q X D s.
Proof. unfold wp, asg_from. intros ->. by destruct (live (get l s)). Qed.

Lemma wp_asg_dead {A} (V : member T E A) f l nt a Q X D s :
  live (get l s) = Dead -> prj V Dead = None -> @trivially_destructible A (mtype V) = true ->
  wp (may_throw nt f;; write V l a) Q X D s -> wp (asg_from V f l nt a) Q X D s.
Proof. unfold wp, asg_from. by intros -> -> ->. Qed.

Lemma wp_outcome {A} (m : M T E A) ok thrown s :
  wp m ok (fun x s' => may_fail s /\ thrown x s') (may_fail s) s -> outcome s (m s) ok thrown.
Proof. done. Qed.

Lemma wp_returns {A} (m : M T E A) ok s :
  wp m ok (fun _ _ => False) False s -> exists a s', m s = Ret a s' /\ ok a s'.
Proof. unfold wp. destruct (m s); naive_solver. Qed.
End Wp.

(** What the calculus looks through. *)
#[export] Hint Unfold ctor_from ctor_copy ctor_move asg_copy asg_move std_swap ctor asg construct
  construct_with construct_error destroy_val assign_common rhs_only
  assign_copy_nothrow assign_copy_tmp assign_copy_backup assign_copy
  assign_move_nothrow assign_move_backup assign_move
  copy_ctor_nontrivial copy_ctor move_ctor_nontrivial move_ctor copy_asg move_asg
  assign_value_nothrow assign_value_backup assign_value
  assign_unexpected_copy assign_unexpected_move
  emplace_nothrow emplace_backup emplace emplace_list_nothrow emplace_list_backup emplace_list
  swap_has_val swap_one_nothrow swap_one_e_throws swap_one_t_throws
  swap_where_only_one_has_value swap_where_both_have_value swap_noexcept swap_body swap_fuel swap
  operator_star error value value_or in_place_ctor unexpect_ctor unexpected_ctor value_ctor dtor
  expected_storage_base storage_nontrivial storage_trivial storage_t_trivial storage_e_trivial
  VoidOperations.void_construct VoidOperations.void_construct_error
  VoidOperations.void_assign VoidOperations.void_swap_only_one : tl_expected.

(** One step: a rule for the head of the computation, a case on a trait or on the oracle.
    A trait that has been decided is not decided again. *)
Ltac decide_bool b :=
  match goal with
  | H : b = _ |- _ => rewrite H
  | _ => destruct b eqn:?
  end.
Ltac wp_step :=
  lazymatch goal with
  | H : quiet ?o |- wp (may_throw _ _) _ _ _ (Mem _ _ _ ?o _) =>
      apply (wp_may_throw_quiet _ _ _ _ _ _ _ _ _ _ H); clear H; intros ? H
  | |- wp (bind _ _) _ _ _ _ => apply wp_bind
  | |- wp (noexcept_if _ _) _ _ _ _ => apply wp_noexcept
  | |- wp (on_throw _ _) _ _ _ _ => apply wp_on_throw
  | |- wp (scoped _ _) _ _ _ _ => apply wp_scoped
  | |- wp (throw _) _ _ _ _ => apply wp_throw
  | |- wp (may_throw true _) _ _ _ _ => apply wp_may_throw_nothrow
  | |- wp (may_throw false _) _ _ _ _ => apply wp_may_throw; [intros ->|intros ? ->..]
  | |- wp (may_throw ?b _) _ _ _ _ => cbn [mtype val err]; lazymatch goal with |- wp (may_throw ?c _) _ _ _ _ => decide_bool c end
  | |- wp (asg_from _ _ _ _ _) _ _ _ _ =>
      first [eapply wp_asg_live; [reflexivity|] | eapply wp_asg_dead; [reflexivity|reflexivity|eassumption || reflexivity|]]
  | |- wp (if ?b then _ else _) _ _ _ _ => decide_bool b
  | |- wp (match ?b with _ => _ end) _ _ _ _ => decide_bool b
  | |- wp ?m _ _ _ _ =>
      first [ progress (autounfold with tl_expected)
            | progress (cbn [st_default st_no_init st_in_place st_unexpect st_dtor])
            | eapply wp_prim;
                [unfold read, write, destroy, place, has_value, set_has_val, bitwise, ret, set_slot, set, get;
                 cbn; reflexivity|]
            | match m with context [match ?b with true => _ | false => _ end] => decide_bool b end ]
  end; cbn beta iota.
Ltac wp_run := repeat wp_step; try (repeat split; done).

(** ** Programs over two objects *)

Section Programs.
Context {T E : Type} {tT : CType T} {tE : CType E}.
Implicit Types (s : mem T E) (x y : exp T E).

Inductive side := L | R.

Definition at_side (a : side) : loc := match a with L => This | R => Rhs end.

(** Every operation that changes an expected, with the traits its overload is chosen by. *)
Inductive op :=
| OpCopy (a b : side)
| OpMove (a b : side)
| OpSwap (a b : side)
| OpValue (a : side) (nothrow nothrow_asg : bool) (v : T)
| OpUnexCopy (a : side) (e : E)
| OpUnexMove (a : side) (e : E)
| OpEmplace (a : side) (nothrow : bool) (v : T)
| OpEmplaceList (a : side) (nothrow : bool) (v : T).

Definition exec_op (o : op) : M T E unit :=
  match o with
  | OpCopy a b => copy_asg (at_side a) (at_side b)
  | OpMove a b => move_asg (at_side a) (at_side b)
  | OpSwap a b => swap (at_side a) (at_side b)
  | OpValue a nt nta v => assign_value (at_side a) nt nta v
  | OpUnexCopy a e => assign_unexpected_copy (at_side a) e
  | OpUnexMove a e => assign_unexpected_move (at_side a) e
  | OpEmplace a nt v => emplace (at_side a) nt v
  | OpEmplaceList a nt v => emplace_list (at_side a) nt v
  end.

(** The contract of the operations, on two values of [exp]. *)
Definition sel (a : side) (p : exp T E * exp T E) : exp T E :=
  match a with L => p.1 | R => p.2 end.
Definition put (a : side) (x : exp T E) (p : exp T E * exp T E) : exp T E * exp T E :=
  match a with L => (x, p.2) | R => (p.1, x) end.

Definition spec_op (o : op) (p : exp T E * exp T E) : exp T E * exp T E :=
  match o with
  | OpCopy a b => put a (sel b p) p
  | OpMove a b => put b (moved_exp (sel b p)) (put a (sel b p) p)
  | OpSwap a b => put b (sel a p) (put a (sel b p) p)
  | OpValue a _ _ v => put a (Val v) p
  | OpUnexCopy a e => put a (Unex e) p
  | OpUnexMove a e => put a (Unex e) p
  | OpEmplace a _ v => put a (Val v) p
  | OpEmplaceList a _ v => put a (Val v) p
  end.

Fixpoint exec_ops (os : list op) : M T E unit :=
  match os with
  | [] => ret tt
  | o :: os' => exec_op o;; exec_ops os'
  end.

Definition spec_ops (os : list op) (p : exp T E * exp T E) : exp T E * exp T E :=
  fold_left (fun p o => spec_op o p) os p.

(** Construction of one object from a value or from an error. *)
Definition make (l : loc) (nothrow : bool) (x : exp T E) : M T E unit :=
  match x with
  | Val v => in_place_ctor l nothrow v
  | Unex e => unexpect_ctor l nothrow e
  end.

(** Two objects from their construction to the end of their scope. *)
Definition life (nx ny : bool) (x y : exp T E) (os : list op) : M T E unit :=
  make This nx x;; make Rhs ny y;; exec_ops os;; dtor Rhs;; dtor This.

(** Storage before anything is constructed in it. *)
Definition fresh (o : list bool) : mem T E :=
  Mem (Obj Dead false) (Obj Dead false) (Obj Dead false) o 0.

(** An object that is gone without its destructor. *)
Definition undestroyed (o : obj T E) : bool :=
  match live o with
  | Dead => false
  | LVal _ => negb (trivially_destructible T)
  | LErr _ => negb (trivially_destructible E)
  end.
End Programs.
Arguments op : clear implicits.

#[export] Hint Unfold exec_op make : tl_expected.

Lemma move_asg_trivial_moved {T E} {tT : CType T} {tE : CType E} {lT : CTypeLaws T}
    {lE : CTypeLaws E} (x : exp T E) : move_asg_trivial (T := T) (E := E) = true -> moved_exp x = x.
Proof.
  unfold move_asg_trivial. rewrite !andb_true_iff. intros Ht. split_and_all.
  destruct x; cbn; f_equal; by apply trivial_move_asg_keeps.
Qed.

(** Closes what is left of a move assignment that copies the representation. *)
Ltac trivial_moves :=
  match goal with H : move_asg_trivial = true |- _ =>
    repeat split; try done; unfold holds; cbn; f_equal; symmetry;
    (exact (move_asg_trivial_moved (Val _) H) || exact (move_asg_trivial_moved (Unex _) H)) end.

Section Theorems.
Context {T E : Type} {tT : CType T} {tE : CType E}.
Implicit Types (s : mem T E) (x y : exp T E).

Lemma assign_copy_contract s x y k : pair_of x y k s ->
  outcome s (assign_copy This Rhs s) (fun _ => pair_of y y k)
    (fun _ => pair_of (torn_exp x) y k).
Proof.
  intros Hp. apply pair_of_inv in Hp as (b & o & ->). apply wp_outcome. destruct x, y; wp_run.
Qed.

Lemma assign_move_contract s x y k : pair_of x y k s ->
  outcome s (assign_move This Rhs s) (fun _ => pair_of y (moved_exp y) k)
    (fun _ s' => pair_of (torn_exp x) y k s' \/ pair_of (torn_exp x) (torn_exp y) k s').
Proof.
  intros Hp. apply pair_of_inv in Hp as (b & o & ->). apply wp_outcome. destruct x, y; wp_run.
  all: split; [done|]; (left; repeat split; done) || (right; repeat split; done).
Qed.

Context {lT : CTypeLaws T} {lE : CTypeLaws E}.

(** The constraint on the element types under which swap() takes part in overload
    resolution; no other operation has it. *)
Definition is_swap (o : op T E) : bool := match o with OpSwap _ _ => true | _ => false end.
Definition swap_constraint (os : list (op T E)) : Prop :=
  existsb is_swap os = true -> nothrow_move_constructible T || nothrow_move_constructible E = true.

(** When nothing throws an operation does what its contract says. *)
Lemma exec_op_quiet o s p k : swap_constraint [o] -> quiet (oracle s) -> pair_of p.1 p.2 k s ->
  exists u s', exec_op o s = Ret u s' /\ quiet (oracle s') /\
    pair_of (spec_op o p).1 (spec_op o p).2 k s'.
Proof.
  intros Hsw Hq Hp. apply pair_of_inv in Hp as (b & l & ->). destruct p as [x y]. cbn [fst snd oracle] in *.
  unfold swap_constraint in Hsw. cbn in Hsw. apply wp_returns. destruct o as [[] []|[] []|[] []|[]|[]|[]|[]|[]]; try (specialize (Hsw eq_refl)); destruct x, y; wp_run;
    try congruence.
  all: split; [done|trivial_moves].
Qed.

Lemma exec_ops_quiet os s p k : swap_constraint os -> quiet (oracle s) -> pair_of p.1 p.2 k s ->
  exists s', exec_ops os s = Ret tt s' /\ pair_of (spec_ops os p).1 (spec_ops os p).2 k s'.
Proof.
  revert s p. induction os as [|o os IH]; intros s p Hsw Hq Hp; [by exists s|]. unfold swap_constraint in *. cbn in Hsw.
  destruct (exec_op_quiet o s p k) as (u & s1 & H1 & Hq1 & Hp1); [|done..|].
  { intros Ho. apply Hsw. cbn in Ho. by rewrite orb_false_r in Ho; rewrite Ho. }
  destruct (IH s1 (spec_op o p)) as (s2 & H2 & Hp2); [|done..|].
  { intros Ho. apply Hsw. by rewrite Ho, orb_true_r. }
  exists s2. split; [|done]. cbn. unfold bind. by rewrite H1.
Qed.

Lemma make_quiet nx ny x y o : quiet o ->
  exists u s, (make This nx x;; make Rhs ny y) (fresh o) = Ret u s /\ quiet (oracle s) /\ pair_of x y 0 s.
Proof. intros Hq. apply wp_returns. unfold fresh. destruct x, y; wp_run. Qed.

Lemma dtor_quiet s x y k : pair_of x y k s -> exists u s',
  (dtor Rhs;; dtor This) s = Ret u s' /\ leaked s' = k /\
  undestroyed (at_this s') = false /\ undestroyed (at_rhs s') = false /\
  undestroyed (at_tmp s') = false.
Proof.
  intros Hp. apply pair_of_inv in Hp as (b & l & ->). apply wp_returns. unfold undestroyed.
  destruct x, y; wp_run; cbn.
  all: repeat match goal with H : trivially_destructible _ = _ |- _ => rewrite H end; done.
Qed.

Lemma bind_assoc {A' B' C'} (m : M T E A') (f : A' -> M T E B') (g : B' -> M T E C') s :
  bind (bind m f) g s = bind m (fun a => bind (f a) g) s.
Proof. unfold bind. by destruct (m s). Qed.

(** [C38] Two expected objects of any two object types (not void), and whatever sequence of copy
    and move assignments (to themselves too), swaps, assignments of values and errors and
    emplacements they go through (a sequence with a swap needs the constraint that swap()
    has: one of the types is nothrow move constructible): if nothing throws the run is defined, before the
    destructors the two objects hold what the contract says, and in the end every value
    and error that was constructed has been destroyed exactly once. *)
Theorem expected_life nx ny x y os o : swap_constraint os -> quiet o ->
  exists s s', (make This nx x;; make Rhs ny y;; exec_ops os) (fresh o) = Ret tt s /\
    pair_of (spec_ops os (x, y)).1 (spec_ops os (x, y)).2 0 s /\
    life nx ny x y os (fresh o) = Ret tt s' /\ leaked s' = 0 /\
    undestroyed (at_this s') = false /\ undestroyed (at_rhs s') = false /\
    undestroyed (at_tmp s') = false.
Proof.
  intros Hsw Hq. destruct (make_quiet nx ny x y o Hq) as (u & s1 & H1 & Hq1 & Hp1).
  destruct (exec_ops_quiet os s1 (x, y) 0 Hsw Hq1 Hp1) as (s2 & H2 & Hp2).
  destruct (dtor_quiet s2 _ _ _ Hp2) as ([] & s3 & H3 & Hl).
  assert (forall k : M T E unit, (make This nx x;; make Rhs ny y;; k) (fresh o) = k s1) as Hmk.
  { intros k. rewrite <- (bind_assoc (make This nx x)). unfold bind at 1. by rewrite H1. }
  exists s2, s3. rewrite Hmk. split; [done|]. split; [done|]. split; [|done].
  unfold life. rewrite Hmk. unfold bind at 1. by rewrite H2.
Qed.
End Theorems.

(** ** Exceptions *)

(** An error type such as the enumerations the library uses as errors. *)
Class PlainType (X : Type) {cX : CType X} : Prop := {
  plain_dtor : trivially_destructible X = true;
  plain_copy_ctor : nothrow_copy_constructible X = true;
  plain_move_ctor : nothrow_move_constructible X = true;
  plain_copy_asg : nothrow_copy_assignable X = true;
  plain_move_asg : nothrow_move_assignable X = true
}.

Section Exceptions.
Context {T E : Type} {tT : CType T} {tE : CType E}.
Context {lT : CTypeLaws T} {lE : CTypeLaws E} {pE : PlainType E}.
Implicit Types (s : mem T E) (x y : exp T E).

(** emplace(args...) over a value, with a constructor that may throw. *)
Definition emplaces_over_value (o : op T E) (p : exp T E * exp T E) : bool :=
  match o with OpEmplace a false _ => is_val (sel a p) | _ => false end.

(** [C39] Exceptions, for an error type that is an enumeration as in the library and any
    type of values: whatever throws where, no operation is undefined, none leaks, and one
    that throws leaves both objects with what they held a value or an error of (an emplace
    over a value apart, below); one that returns has done what the contract says. *)
Theorem exception_safe o s p k : emplaces_over_value o p = false -> pair_of p.1 p.2 k s ->
  outcome s (exec_op o s)
    (fun _ => pair_of (spec_op o p).1 (spec_op o p).2 k)
    (fun _ s' => exists q, is_val q.1 = is_val p.1 /\ is_val q.2 = is_val p.2 /\ pair_of q.1 q.2 k s').
Proof.
  intros Hne Hp. apply pair_of_inv in Hp as (b & l & ->). destruct p as [x y]. cbn [fst snd] in *.
  destruct pE as [Hd Hcc Hmc Hca Hma]. apply wp_outcome.
  destruct o as [[] []|[] []|[] []|[] []|[]|[]|[] []|[] []], x, y; try discriminate Hne; clear Hne; wp_run.
  all: try (split; [done|]; eexists (_, _); cbn; repeat split; done).
  all: trivial_moves.
Qed.

(** The strong guarantee, into an object that holds an error: the value is there, or the
    error still is. *)
Lemma into_error_strong (o : op T E) s e y k v nt nta :
  o = OpValue L nt nta v \/ o = OpEmplace L nt v \/ o = OpEmplaceList L nt v ->
  pair_of (Unex e) y k s ->
  outcome s (exec_op o s) (fun _ => pair_of (Val v) y k) (fun _ => pair_of (Unex e) y k).
Proof.
  intros Ho Hp. apply pair_of_inv in Hp as (b & l & ->). destruct pE as [Hd Hcc Hmc Hca Hma].
  apply wp_outcome. destruct Ho as [->|[->| ->]], nt, y; wp_run.
Qed.
End Exceptions.

(** ** What a throwing constructor does to the other cases *)

Section Divergences.
Context {T E : Type} {tT : CType T} {tE : CType E}.
Implicit Types (s : mem T E) (x y : exp T E).

(** A program that assigns a value to an error, when the copy throws, ends in
    std::terminate although the overload catches the exception: construct is noexcept. *)
Lemma assign_copy_throw_terminates s e v k o :
  nothrow_copy_constructible T = false -> nothrow_move_constructible E = true ->
  pair_of (Unex e) (Val v) k s -> oracle s = true :: o ->
  assign_copy This Rhs s = Terminate.
Proof.
  intros Hc He Hp Ho. apply pair_of_inv in Hp as (b & l & ->). cbn in Ho. subst l.
  unfold assign_copy. rewrite Hc. destruct (nothrow_move_constructible T).
  - cbv -[nothrow_copy_constructible]. by rewrite Hc.
  - cbv -[nothrow_copy_constructible nothrow_move_constructible]. by rewrite He, Hc.
Qed.

(** emplace over a value: when the constructor throws the flag still says that there is a
    value; the destructor of the object is then undefined. *)
Lemma emplace_throw_valueless s v y k o v' :
  pair_of (Val v) y k s -> oracle s = true :: o -> trivially_destructible T = false ->
  exists s', emplace This false v' s = Throw ExUser s' /\
    m_has_val (at_this s') = true /\ live (at_this s') = Dead /\ dtor This s' = Undefined.
Proof.
  intros Hp Ho Ht. apply pair_of_inv in Hp as (b & l & ->). cbn in Ho. subst l.
  eexists. split; [reflexivity|]. split; [done|]. split; [done|].
  unfold dtor, Storage.expected_storage_base. rewrite Ht.
  by destruct (trivially_destructible E).
Qed.

(** Assigning a value to an object that holds an error whose type has a destructor: when
    the constructor throws the handler assigns to the error that was just destroyed. *)
Lemma assign_value_throw_undefined s e y k o v :
  pair_of (Unex e) y k s -> oracle s = true :: o ->
  nothrow_move_constructible E = true -> trivially_destructible E = false ->
  assign_value This false false v s = Undefined.
Proof.
  intros Hp Ho Hm Ht. apply pair_of_inv in Hp as (b & l & ->). cbn in Ho. subst l.
  cbv -[nothrow_move_constructible trivially_destructible]. by rewrite Hm, Ht.
Qed.

(** The converting constructors construct over the value the storage starts with. *)
Lemma converting_ctor_leaks nd d x : trivially_destructible T = false ->
  exists s', converting_ctor This nd d true x (fresh []) = Ret tt s' /\
    holds (at_this s') x /\ leaked s' = 1.
Proof.
  intros Ht. unfold converting_ctor, expected_storage_base. rewrite Ht.
  destruct x, nd, (trivially_destructible E); (eexists; split; [cbn; rewrite Ht; reflexivity|done]).
Qed.
End Divergences.

(** ** Constructors, observers, expected<void, E> *)

Section Observers.
Context {T E : Type} {tT : CType T} {tE : CType E}.
Implicit Types (s : mem T E) (x y : exp T E).

(** What the observers answer when nothing throws: value() throws the error it finds, the
    unchecked accessors end in an assertion where there is nothing to return, and
    value_or() moves the value out of an rvalue only. *)
Lemma observers_contract s x y k nd nc d : pair_of x y k s -> quiet (oracle s) ->
  match x with
  | Val v =>
      (forall c, value c This s = Ret v s) /\ operator_star nd This s = Ret v s /\
      error false This s = Terminate /\
      wp (value_or ByCopy nd This nc d) (fun r s' => r = v /\ pair_of x y k s') (fun _ _ => False) False s /\
      wp (value_or ByMove nd This nc d) (fun r s' => r = v /\ pair_of (Val (moved v)) y k s')
        (fun _ _ => False) False s
  | Unex e =>
      error nd This s = Ret e s /\ operator_star false This s = Terminate /\
      wp (value ByCopy This) (fun _ _ => False)
        (fun ex s' => ex = BadExpectedAccess e /\ pair_of x y k s') False s /\
      wp (value ByMove This) (fun _ _ => False)
        (fun ex s' => ex = BadExpectedAccess e /\ pair_of (Unex (moved e)) y k s') False s /\
      (forall c, wp (value_or c nd This nc d) (fun r s' => r = d /\ pair_of x y k s')
         (fun _ _ => False) False s)
  end.
Proof.
  intros Hp Hq. apply pair_of_inv in Hp as (b & o & ->). cbn in Hq.
  destruct x, y; split_and!; try done; intros; wp_run.
Qed.

(** The copy constructor, into storage where nothing lives; it never throws: construct
    and construct_error are noexcept. *)
Lemma copy_ctor_contract s y k : live (at_this s) = Dead -> holds (at_rhs s) y ->
  live (at_tmp s) = Dead -> leaked s = k ->
  outcome s (copy_ctor This Rhs s) (fun _ => pair_of y y k) (fun _ _ => False).
Proof.
  destruct s as [[tl th] r [pl ph] o k']. cbn. intros -> Hy -> ->. apply holds_inv in Hy as ->.
  apply wp_outcome. destruct y; wp_run.
Qed.

Lemma move_ctor_contract {lT : CTypeLaws T} {lE : CTypeLaws E} s y k :
  live (at_this s) = Dead -> holds (at_rhs s) y -> live (at_tmp s) = Dead -> leaked s = k ->
  outcome s (move_ctor This Rhs s) (fun _ => pair_of y (moved_exp y) k) (fun _ _ => False).
Proof.
  destruct s as [[tl th] r [pl ph] o k']. cbn. intros -> Hy -> ->. apply holds_inv in Hy as ->.
  apply wp_outcome. destruct y; wp_run.
  all: match goal with H : _ && _ = true |- _ => apply andb_true_iff in H as [??] end.
  all: repeat split; unfold holds; cbn; by rewrite trivial_move_ctor_keeps.
Qed.

(** expected<void, E>: an error lives exactly when the flag is down. *)
Definition holds_void (o : obj T E) (x : exp unit E) : Prop :=
  match x with
  | Val _ => o = Obj Dead true
  | Unex e => o = Obj (LErr e) false
  end.

Definition moved_void (c : cat) (x : exp unit E) : exp unit E :=
  match c, x with ByMove, Unex e => Unex (moved e) | _, _ => x end.

Lemma void_assign_contract c s (x y : exp unit E) : holds_void (at_this s) x -> holds_void (at_rhs s) y ->
  outcome s (VoidOperations.void_assign c This Rhs s)
    (fun _ s' => holds_void (at_this s') y /\ holds_void (at_rhs s') (moved_void c y) /\ leaked s' = leaked s)
    (fun _ _ => False).
Proof.
  destruct s as [t r p o k]. cbn. intros Hx Hy. apply wp_outcome.
  destruct x as [[]|e], y as [[]|e']; cbn in Hx, Hy; subst; destruct c; wp_run.
Qed.

Lemma void_swap_contract s e : holds_void (at_this s) (Val tt) -> holds_void (at_rhs s) (Unex e) ->
  outcome s (VoidOperations.void_swap_only_one This Rhs s)
    (fun _ s' => holds_void (at_this s') (Unex e) /\ holds_void (at_rhs s') (Val tt) /\ leaked s' = leaked s)
    (fun _ s' => holds_void (at_this s') (Val tt) /\ holds_void (at_rhs s') (Unex (torn e)) /\
       leaked s' = leaked s).
Proof. destruct s as [t r p o k]. cbn. intros -> ->. apply wp_outcome. wp_run. Qed.
End Observers.

(** ** Concrete element types *)

Module Instances.

(** A string-like value: it has a destructor, copying it may throw, moving it may not. *)
#[export] Instance string_type : CType nat := {|
  trivially_destructible := false;
  trivially_copy_constructible := false;
  trivially_move_constructible := false;
  trivially_copy_assignable := false;
  trivially_move_assignable := false;
  nothrow_copy_constructible := false;
  nothrow_move_constructible := true;
  nothrow_copy_assignable := false;
  nothrow_move_assignable := true;
  moved _ := 0;
  torn _ := 0
|}.

(** An enumeration. *)
#[export] Instance enum_type : CType bool := {|
  trivially_destructible := true;
  trivially_copy_constructible := true;
  trivially_move_constructible := true;
  trivially_copy_assignable := true;
  trivially_move_assignable := true;
  nothrow_copy_constructible := true;
  nothrow_move_constructible := true;
  nothrow_copy_assignable := true;
  nothrow_move_assignable := true;
  moved b := b;
  torn b := b
|}.

#[export] Instance string_laws : CTypeLaws nat.
Proof. by split. Qed.
#[export] Instance enum_laws : CTypeLaws bool.
Proof. by split. Qed.
#[export] Instance enum_plain : PlainType bool.
Proof. by split. Qed.

Definition example_ops : list (op nat bool) :=
  [OpValue L false false 3; OpCopy R L; OpUnexCopy L true; OpSwap L R; OpMove R L].

Example example_ops_value :
  spec_ops example_ops (Unex false, Val 5) = (Val 0, Val 3) /\
  (exists s, life false false (Unex false) (Val 5) example_ops (fresh []) = Ret tt s) /\
  exec_op (OpValue L false false 3 : op nat bool)
    (Mem (Obj (LErr true) false) (Obj (LVal 5) true) (Obj Dead false) [true] 0) =
    Throw ExUser (Mem (Obj (LErr true) false) (Obj (LVal 5) true) (Obj Dead false) [] 0).
Proof. split; [reflexivity|]. split; [eexists; vm_compute; reflexivity|vm_compute; reflexivity]. Qed.

Lemma expected_life_witness : exists s s',
  (make This false (Unex false : exp nat bool);; make Rhs false (Val 5 : exp nat bool);; exec_ops example_ops) (fresh []) = Ret tt s /\
  pair_of (Val 0) (Val 3) 0 s /\
  life false false (Unex false : exp nat bool) (Val 5) example_ops (fresh []) = Ret tt s' /\ leaked s' = 0 /\
  undestroyed (at_this s') = false /\ undestroyed (at_rhs s') = false /\
  undestroyed (at_tmp s') = false.
Proof.
  refine (expected_life (T := nat) (E := bool) false false (Unex false) (Val 5) example_ops [] _ eq_refl).
  intros _. reflexivity.
Defined.

Lemma exception_safe_witness :
  let s := Mem (Obj (LErr true) false) (Obj (LVal 5) true) (Obj Dead false) [true] 0 in
  outcome s (exec_op (OpValue L false false 3 : op nat bool) s)
    (fun _ => pair_of (Val 3) (Val 5) 0)
    (fun _ s' => exists q : exp nat bool * exp nat bool,
       is_val q.1 = false /\ is_val q.2 = true /\ pair_of q.1 q.2 0 s').
Proof.
  exact (exception_safe (T := nat) (E := bool) (OpValue L false false 3 : op nat bool)
    (Mem (Obj (LErr true) false) (Obj (LVal 5) true) (Obj Dead false) [true] 0)
    (Unex true, Val 5) 0 eq_refl
    (conj eq_refl (conj eq_refl (conj eq_refl eq_refl)))).
Defined.

End Instances.
End Contract.
