(* ===== verification/Executors.v ===== *)
(** * How executors are obtained and driven

    - [DefaultExecutor]: coro::default_executor (src/default_executor.cpp), the process-wide
      thread pool and scheduler that the first caller creates;
    - [ProcessEvents]: who runs scheduler::process_events_execute (src/scheduler.cpp,
      process_events_manual, process_events_dedicated_thread and make_unique);
    - [ScheduleTimeout]: scheduler::schedule(task, timeout) and its overload with a stop
      source (include/coro/scheduler.hpp), on top of the when_any machine. *)
From stdpp Require Import base list relations option numbers.
From Stdlib Require Import ZArith Lia.
From S2P Require Import Prelude WhenAny.

Module DefaultExecutor.

(** executor() and io_executor() are the same code over variables of their own, with the
    options of a thread pool and of a scheduler; a state has one of the two sets.  [O] are the
    options, and an instance is the number of the construction that made it with the
    options it was given. *)
Section default_executor.
Context {O : Type}.
Variable default_options : O.

Inductive pc :=
| Idle
| Exchange                        (* before s_default_executor_init.exchange(true) *)
| Make                            (* make_unique(s_default_executor_options) *)
| Store                           (* before s_default_executor_ptr.store *)
| Load.                           (* the loop while the pointer is null *)

Record state := mk_state {
  options : O;                    (* s_default_executor_options *)
  init : bool;                    (* s_default_executor_init *)
  object : option (nat * O);      (* s_default_executor *)
  ptr : option (nat * O);         (* s_default_executor_ptr *)
  made : nat;                     (* how many constructions have been completed *)
  pcs : nat -> pc
}.

Inductive label :=
| SetOptions (o : O)              (* set_executor_options *)
| Call (t : nat)                  (* executor() *)
| Step (t : nat)
| Throw (t : nat).                (* make_unique throws: a thread cannot be started, no memory *)

Inductive event :=
| EvMade (t : nat) (x : nat * O)
| EvThrow (t : nat)
| EvReturn (t : nat) (x : option (nat * O)).   (* the reference, with what it holds at the return *)

Definition start : state := mk_state default_options false None None 0 (fun _ => Idle).

Definition set_pc (s : state) (t : nat) (p : pc) : state :=
  mk_state (options s) (init s) (object s) (ptr s) (made s) ((pcs s).[t ↦ p]).

Definition set_executor_options (s : state) (o : O) : state :=
  mk_state o (init s) (object s) (ptr s) (made s) (pcs s).

Definition executor (s : state) (t : nat) : option (state * list event) :=
  match pcs s t with
  | Idle => None
  | Exchange =>
      Some (mk_state (options s) true (object s) (ptr s) (made s) ((pcs s).[t ↦ if init s then Load else Make]), [])
  | Make =>
      let x := (made s, options s) in
      Some (mk_state (options s) (init s) (Some x) (ptr s) (S (made s)) ((pcs s).[t ↦ Store]), [EvMade t x])
  | Store => Some (mk_state (options s) (init s) (object s) (object s) (made s) ((pcs s).[t ↦ Load]), [])
  | Load =>
      match ptr s with
      | None => Some (s, [])
      | Some _ => Some (set_pc s t Idle, [EvReturn t (object s)])
      end
  end.

(** io_executor(), on the s_default_io_executor_* variables *)
Definition io_executor (s : state) (t : nat) : option (state * list event) := executor s t.

Definition exec (l : label) (s : state) : option (state * list event) :=
  match l with
  | SetOptions o => Some (set_executor_options s o, [])
  | Call t => match pcs s t with Idle => Some (set_pc s t Exchange, []) | _ => None end
  | Step t => executor s t
  | Throw t => match pcs s t with Make => Some (set_pc s t Idle, [EvThrow t]) | _ => None end
  end.

(** ** Invariant: where the one construction is *)

Definition creating (p : pc) : bool := match p with Make | Store => true | _ => false end.
Definition is_throw (e : event) : bool := match e with EvThrow _ => true | _ => false end.
Definition threw (tr : list event) : bool := existsb is_throw tr.

Inductive phase (s : state) (tr : list event) : Prop :=
| Fresh : init s = false -> (forall t, creating (pcs s t) = false) -> (forall t, pcs s t <> Load) ->
    object s = None -> ptr s = None -> made s = 0 -> tr = [] -> phase s tr
| Making t : init s = true -> pcs s t = Make -> (forall u, u <> t -> creating (pcs s u) = false) ->
    object s = None -> ptr s = None -> made s = 0 -> tr = [] -> phase s tr
| Storing t x : init s = true -> pcs s t = Store -> (forall u, u <> t -> creating (pcs s u) = false) ->
    object s = Some x -> ptr s = None -> made s = 1 -> tr = [EvMade t x] -> phase s tr
| Ready t x tr' : init s = true -> (forall u, creating (pcs s u) = false) ->
    object s = Some x -> ptr s = Some x -> made s = 1 -> tr = EvMade t x :: tr' ->
    (forall e, e ∈ tr' -> exists u, e = EvReturn u (Some x)) -> phase s tr
| Broken t : init s = true -> (forall u, creating (pcs s u) = false) ->
    object s = None -> ptr s = None -> made s = 0 -> tr = [EvThrow t] -> phase s tr.

Lemma creating_upd f t p u : creating (f t) = false -> creating p = false ->
  (forall v, v <> u -> creating (f v) = false) -> forall v, v <> u -> creating (f.[t ↦ p] v) = false.
Proof. intros. upd_cases; auto. Qed.

Lemma creating_upd_all f t p : creating p = false -> (forall v, v <> t -> creating (f v) = false) ->
  forall v, creating (f.[t ↦ p] v) = false.
Proof. intros. upd_cases; auto. Qed.

(** A step of a thread that is not constructing, and does not start to, keeps the phase. *)
Lemma phase_set_pc s tr t p : phase s tr -> creating (pcs s t) = false -> creating p = false ->
  (init s = true \/ p <> Load) -> phase (set_pc s t p) tr.
Proof.
  intros P Hc Hp Hl. destruct P as [I C L ?? ?|u I Hu C ????|u x I Hu C ????|u x tr' I C ?????|u I C ????].
  - apply Fresh; cbn; try done; intros v; upd_cases; auto. intros ->. by destruct Hl; [congruence|].
  - apply (Making _ _ u); cbn; try done; [|by apply creating_upd].
    rewrite upd_ne; [done|]. intros ->. by rewrite Hu in Hc.
  - apply (Storing _ _ u x); cbn; try done; [|by apply creating_upd].
    rewrite upd_ne; [done|]. intros ->. by rewrite Hu in Hc.
  - apply (Ready _ _ u x tr'); cbn; try done. intros v. upd_cases; auto.
  - apply (Broken _ _ u); cbn; try done. intros v. upd_cases; auto.
Qed.

Lemma creator_unique s t u : creating (pcs s t) = true -> (forall v, v <> u -> creating (pcs s v) = false) -> t = u.
Proof. intros H C. destruct (decide (t = u)) as [|Hne]; [done|]. by rewrite (C t Hne) in H. Qed.

Lemma step_phase s tr t s' ev : phase s tr -> executor s t = Some (s', ev) -> phase s' (tr ++ ev).
Proof.
  intros P H. unfold executor in H. destruct (pcs s t) eqn:Ht; [done|..]; simplify_eq/=; rewrite ?app_nil_r.
  - (* Exchange *) destruct (init s) eqn:Hi.
    + rewrite <- Hi. apply (phase_set_pc s tr t Load); rewrite ?Ht; auto.
    + destruct P as [I C L|u I|u x I|u x tr' I|u I]; try congruence.
      apply (Making _ _ t); cbn; rewrite ?upd_eq; try done. intros u Hu. by rewrite upd_ne.
  - (* Make *) destruct P as [I C|u I Hu C|u x I Hu C|u x tr' I C|u I C];
      try (specialize (C t); by rewrite Ht in C).
    + assert (t = u) as -> by (apply (creator_unique s); [by rewrite Ht|done]). subst.
      apply (Storing _ _ u (made s, options s)); cbn; rewrite ?upd_eq; try done; [|congruence].
      intros v Hv. rewrite upd_ne; auto.
    + assert (t = u) as -> by (apply (creator_unique s); [by rewrite Ht|done]). congruence.
  - (* Store *) destruct P as [I C|u I Hu C|u x I Hu C|u x tr' I C|u I C];
      try (specialize (C t); by rewrite Ht in C).
    + assert (t = u) as -> by (apply (creator_unique s); [by rewrite Ht|done]). congruence.
    + assert (t = u) as -> by (apply (creator_unique s); [by rewrite Ht|done]). subst.
      apply (Ready _ _ u x []); cbn; try done; [by apply creating_upd_all|no_nil].
  - (* Load *) destruct (ptr s) as [y|] eqn:Hp; simplify_eq/=; rewrite ?app_nil_r; [|done].
    destruct P as [I C|u I|u x I|u x tr' I C|u I]; try congruence. subst.
    apply (Ready _ _ u x (tr' ++ [EvReturn t (object s)])); cbn; try done.
    + intros v. upd_cases; auto.
    + intros e [?|He]%elem_of_app; [auto|]. apply list_elem_of_singleton in He. subst. exists t. congruence.
Qed.

Lemma reach_phase s tr : reach exec start s tr -> phase s tr.
Proof.
  revert s tr. apply reach_inv.
  - by apply Fresh.
  - intros s tr [o|t|t|t] s' ev P H; cbn in H.
    + simplify_eq. rewrite app_nil_r. destruct P; [eapply Fresh|eapply Making|eapply Storing|eapply Ready|eapply Broken]; eauto.
    + destruct (pcs s t) eqn:Ht; simplify_eq. rewrite app_nil_r. apply phase_set_pc; rewrite ?Ht; auto.
    + eauto using step_phase.
    + destruct (pcs s t) eqn:Ht; simplify_eq. destruct P as [I C|u I Hu C|u x I Hu C|u x tr' I C|u I C];
        try (specialize (C t); by rewrite Ht in C);
        (assert (t = u) as -> by (apply (creator_unique s); [by rewrite Ht|done])); [|congruence]. subst.
      apply (Broken _ _ u); cbn; try done. by apply creating_upd_all.
Qed.

(** The executor is constructed at most once, and every call returns that instance. *)
Theorem default_executor_one_instance s tr :
  reach exec start s tr ->
  (forall t, ~ exists x, EvReturn t x ∈ tr) \/
  exists t x tr', tr = EvMade t x :: tr' /\ forall e, e ∈ tr' -> exists u, e = EvReturn u (Some x).
Proof.
  intros P%reach_phase. destruct P as [| | |t x tr' ?????? H|]; subst; [left..|right; eauto|left]; intros u [y Hy]; set_solver.
Qed.

(** A caller that waits for the pointer waits for a thread that is about to store it,
    unless the construction threw. *)
Theorem default_executor_progress s tr t :
  reach exec start s tr -> pcs s t = Load -> threw tr = false ->
  (exists s', executor s t = Some (s', [EvReturn t (object s)]) /\ object s <> None) \/
  exists u, creating (pcs s u) = true.
Proof.
  intros P%reach_phase Ht Hn. unfold executor. rewrite Ht.
  destruct P as [?? L|u ? Hu|u x ? Hu|u x tr' ?? Ho Hp|]; subst; [by destruct (L t)|right; exists u; by rewrite Hu..| |done].
  left. rewrite Hp. eexists. split; [done|]. by rewrite Ho.
Qed.

(** When the construction throws, the flag stays set and no call ever returns: not those
    that wait already, and not the later ones. *)
Theorem default_executor_throw_hangs s tr :
  reach exec start s tr -> threw tr = true -> init s = true /\ object s = None /\ forall t x, EvReturn t x ∉ tr.
Proof.
  intros P%reach_phase Hn. destruct P as [| | |t x tr' ?????? H|]; subst; try done.
  - exfalso. unfold threw in Hn. cbn in Hn. apply existsb_exists in Hn as (e & He & Hn).
    destruct (H e) as [u ->]; [by apply list_elem_of_In|done].
  - split_and!; [done..|]. set_solver.
Qed.
End default_executor.

Section witnesses.
Definition two_callers : list (label (O := nat)) :=
  [SetOptions 7; Call 0; Call 1; Step 1; Step 0; Step 0; Step 1; Step 0; Step 1; Step 1; Step 0].
Definition failing : list (label (O := nat)) := [Call 0; Step 0; Throw 0; Call 0; Step 0; Step 0; Step 0].

Example two_callers_trace : option_map snd (run exec two_callers (start 3)) =
  Some [EvMade 1 (0, 7); EvReturn 1 (Some (0, 7)); EvReturn 0 (Some (0, 7))].
Proof. reflexivity. Qed.

Lemma default_executor_one_instance_witness :
  exists s tr, run exec two_callers (start 3) = Some (s, tr) /\
    ((forall t, ~ exists x, EvReturn t x ∈ tr) \/
     exists t x tr', tr = EvMade t x :: tr' /\ forall e, e ∈ tr' -> exists u, e = EvReturn u (Some x)).
Proof.
  destruct (run exec two_callers (start 3)) as [[s tr]|] eqn:Hrun; [|vm_compute in Hrun; discriminate].
  exists s, tr. split; [reflexivity|]. apply (default_executor_one_instance 3 s tr). exact (run_reach _ _ _ _ _ Hrun).
Defined.

Lemma default_executor_throw_hangs_witness :
  exists s tr, run exec failing (start 3) = Some (s, tr) /\ init s = true /\ object s = None /\ forall t x, EvReturn t x ∉ tr.
Proof.
  destruct (run exec failing (start 3)) as [[s tr]|] eqn:Hrun; [|vm_compute in Hrun; discriminate].
  exists s, tr. split; [reflexivity|]. apply (default_executor_throw_hangs 3 s tr); [exact (run_reach _ _ _ _ _ Hrun)|].
  vm_compute in Hrun. injection Hrun as _ <-. reflexivity.
Defined.
End witnesses.
End DefaultExecutor.

Module ProcessEvents.

(** A call of process_events (process_events_manual) on a user thread. *)
Inductive mpc := MIdle | MTest | MExecute | MReset.
(** The dedicated thread: there is none, before m_io_processing.exchange(true), at the
    condition of its loop, in process_events_execute, before the exchange(false), gone. *)
Inductive dpc := DNone | DStart | DCheck | DExecute | DReset | DGone.

Record state := mk_state { m_io_processing : bool; manual : nat -> mpc; dedicated : dpc }.

Inductive thread_strategy_t := spawn | manual_.

(** make_unique *)
Definition make_unique (strategy : thread_strategy_t) : state :=
  mk_state false (fun _ => MIdle) (match strategy with spawn => DStart | manual_ => DNone end).

Inductive label :=
| Call (t : nat)                  (* process_events() *)
| Step (t : nat)
| Dedicated (more : bool).        (* [more]: !m_shutdown_requested || size() > 0 *)

Inductive event := EvReturn (t : nat).

Definition process_events_manual (s : state) (t : nat) : option (state * list event) :=
  match manual s t with
  | MIdle => None
  | MTest =>                      (* compare_exchange_strong(false, true) *)
      if m_io_processing s then Some (mk_state true ((manual s).[t ↦ MIdle]) (dedicated s), [EvReturn t])
      else Some (mk_state true ((manual s).[t ↦ MExecute]) (dedicated s), [])
  | MExecute => Some (mk_state (m_io_processing s) ((manual s).[t ↦ MReset]) (dedicated s), [])
  | MReset => Some (mk_state false ((manual s).[t ↦ MIdle]) (dedicated s), [EvReturn t])
  end.

Definition process_events_dedicated_thread (s : state) (more : bool) : option (state * list event) :=
  match dedicated s with
  | DNone | DGone => None
  | DStart => Some (mk_state true (manual s) DCheck, [])
  | DCheck => Some (mk_state (m_io_processing s) (manual s) (if more then DExecute else DReset), [])
  | DExecute => Some (mk_state (m_io_processing s) (manual s) DCheck, [])
  | DReset => Some (mk_state false (manual s) DGone, [])
  end.

Definition exec (l : label) (s : state) : option (state * list event) :=
  match l with
  | Call t => match manual s t with MIdle => Some (mk_state (m_io_processing s) ((manual s).[t ↦ MTest]) (dedicated s), []) | _ => None end
  | Step t => process_events_manual s t
  | Dedicated more => process_events_dedicated_thread s more
  end.

(** Who holds m_io_processing. *)
Definition inside (p : mpc) : bool := match p with MExecute | MReset => true | _ => false end.
Definition d_inside (p : dpc) : bool := match p with DCheck | DExecute | DReset => true | _ => false end.

(** The flag is set exactly while somebody is inside, and there is one at most. *)
Record guarded (s : state) : Prop := {
  g_flag : m_io_processing s = true <-> (d_inside (dedicated s) = true \/ exists t, inside (manual s t) = true);
  g_one : forall t u, inside (manual s t) = true -> inside (manual s u) = true -> t = u;
  g_dedicated : forall t, inside (manual s t) = true -> d_inside (dedicated s) = false
}.

Lemma inside_outside s t : guarded s -> m_io_processing s = false -> inside (manual s t) = false.
Proof.
  intros [F _ _] Hf. destruct (inside (manual s t)) eqn:E; [|done]. rewrite (proj2 F) in Hf by eauto. done.
Qed.

Lemma guarded_same s t p : guarded s -> inside p = inside (manual s t) ->
  guarded (mk_state (m_io_processing s) ((manual s).[t ↦ p]) (dedicated s)).
Proof.
  intros [F O D] Hp.
  assert (forall u, inside ((manual s).[t ↦ p] u) = inside (manual s u)) as Hsame by (intros u; upd_cases; auto).
  constructor; cbn.
  - rewrite F. by setoid_rewrite Hsame.
  - intros u v. rewrite !Hsame. apply O.
  - intros u. rewrite Hsame. apply D.
Qed.

Lemma guarded_enter s t : guarded s -> m_io_processing s = false ->
  guarded (mk_state true ((manual s).[t ↦ MExecute]) (dedicated s)).
Proof.
  intros G Hf. pose proof (fun t => inside_outside s t G Hf) as N. destruct G as [F O D]. constructor; cbn.
  - split; [|done]. right. exists t. by rewrite upd_eq.
  - intros u v. upd_cases; rewrite ?N; done.
  - intros _ _. destruct (d_inside (dedicated s)) eqn:Hd; [|done]. rewrite (proj2 F) in Hf; auto.
Qed.

Lemma guarded_leave s t : guarded s -> inside (manual s t) = true ->
  guarded (mk_state false ((manual s).[t ↦ MIdle]) (dedicated s)).
Proof.
  intros [F O D] Ht.
  assert (forall u, inside ((manual s).[t ↦ MIdle] u) = false) as N.
  { intros u. upd_cases; [done|]. destruct (inside (manual s u)) eqn:E; [|done]. by destruct (O u t E Ht). }
  constructor; cbn; [|intros u v; by rewrite N..|intros u; by rewrite N].
  split; [done|]. intros [H|[u H]]; [by rewrite (D t Ht) in H|by rewrite N in H].
Qed.

Lemma manual_guarded s t s' ev : guarded s -> process_events_manual s t = Some (s', ev) -> guarded s'.
Proof.
  intros G H. unfold process_events_manual in H. destruct (manual s t) eqn:Ht; [done|..].
  - destruct (m_io_processing s) eqn:Hf; simplify_eq; [rewrite <- Hf; apply guarded_same; by rewrite ?Ht|by apply guarded_enter].
  - simplify_eq. apply guarded_same; by rewrite ?Ht.
  - simplify_eq. apply guarded_leave; by rewrite ?Ht.
Qed.

(** The dedicated thread keeps the discipline once it is past its first exchange. *)
Lemma dedicated_guarded s b s' ev : guarded s -> dedicated s <> DStart ->
  process_events_dedicated_thread s b = Some (s', ev) -> guarded s'.
Proof.
  intros [F O D] Hd H. unfold process_events_dedicated_thread in H. destruct (dedicated s) eqn:E; simplify_eq.
  - destruct b; constructor; cbn in *; auto.
  - constructor; cbn in *; auto.
  - assert (forall t, inside (manual s t) = false) as N.
    { intros t. destruct (inside (manual s t)) eqn:Ht; [|done]. by apply D in Ht. }
    constructor; cbn; [|intros t u; by rewrite N..|done]. split; [done|]. intros [?|[t Ht]]; [done|by rewrite N in Ht].
Qed.

Lemma guarded_init strategy : guarded (make_unique strategy).
Proof. constructor; cbn; [|done..]. split; [done|]. intros [?|[t ?]]; [by destruct strategy|done]. Qed.

Lemma guarded_step l s s' ev : guarded s -> dedicated s <> DStart -> exec l s = Some (s', ev) ->
  guarded s' /\ dedicated s' <> DStart.
Proof.
  intros G Hd H. destruct l as [t|t|b]; cbn in H.
  - destruct (manual s t) eqn:Ht; simplify_eq. split; [|done]. apply guarded_same; by rewrite ?Ht.
  - split; [by eapply manual_guarded|]. unfold process_events_manual in H. exec_inv.
  - split; [by eapply dedicated_guarded|]. unfold process_events_dedicated_thread in H. destruct (dedicated s), b; simplify_eq; done.
Qed.

(** With thread_strategy_t::manual at most one thread is in process_events_execute,
    however many call process_events. *)
Theorem manual_event_loop_exclusive s tr t u :
  reach exec (make_unique manual_) s tr ->
  manual s t = MExecute -> manual s u = MExecute -> t = u.
Proof.
  intros Hr Ht Hu. assert (guarded s /\ dedicated s <> DStart) as [G _].
  { revert s tr Hr Ht Hu. intros s tr Hr _ _. revert s tr Hr. apply reach_state_inv; [by split; [apply guarded_init|]|].
    intros s l s' ev [G Hd]. by apply guarded_step. }
  apply (g_one s G); [by rewrite Ht|by rewrite Hu].
Qed.

(** With thread_strategy_t::spawn the same holds from the first exchange of the dedicated
    thread on, when it found the flag clear: nobody else then runs the event loop while
    the thread lives. *)
Theorem dedicated_event_loop_exclusive s0 s1 s tr0 tr t b ev :
  reach exec (make_unique spawn) s0 tr0 -> dedicated s0 = DStart -> (forall u, inside (manual s0 u) = false) ->
  exec (Dedicated b) s0 = Some (s1, ev) -> reach exec s1 s tr ->
  dedicated s = DExecute -> manual s t <> MExecute.
Proof.
  intros _ Hd N H Hr Hs Ht. cbn in H. unfold process_events_dedicated_thread in H. rewrite Hd in H. simplify_eq.
  assert (guarded s /\ dedicated s <> DStart) as [G _].
  { clear Hs Ht. revert s tr Hr. apply reach_state_inv; [|intros s l s' ev [G Hd']; by apply guarded_step].
    split; [|done]. constructor; cbn; [|intros x y; by rewrite N..|intros x; by rewrite N]. split; auto. }
  pose proof (g_dedicated s G t) as D. rewrite Ht, Hs in D. by specialize (D eq_refl).
Qed.

(** The first exchange does not look at the flag: a process_events() that is under way when
    the dedicated thread starts runs the event loop together with it. *)
Theorem dedicated_start_race :
  exists ls s tr, run exec ls (make_unique spawn) = Some (s, tr) /\ manual s 0 = MExecute /\ dedicated s = DExecute.
Proof. exists [Call 0; Step 0; Dedicated true; Dedicated true]. do 2 eexists. by split. Qed.

Section witnesses.
Lemma manual_event_loop_exclusive_witness :
  exists s tr, run exec [Call 0; Call 1; Step 0; Step 1] (make_unique manual_) = Some (s, tr) /\
    forall u, manual s u = MExecute -> 0 = u.
Proof.
  destruct (run exec [Call 0; Call 1; Step 0; Step 1] (make_unique manual_)) as [[s tr]|] eqn:Hrun; [|vm_compute in Hrun; discriminate].
  exists s, tr. split; [reflexivity|]. intros u Hu. refine (manual_event_loop_exclusive s tr 0 u _ _ Hu);
    [exact (run_reach _ _ _ _ _ Hrun)|]. vm_compute in Hrun. injection Hrun as <- _. reflexivity.
Defined.
End witnesses.
End ProcessEvents.

Module ScheduleTimeout.
Local Open Scope Z_scope.

(** schedule(task, timeout); the overload with a std::stop_source is [has_stop]. *)
Section schedule_timeout.
Context {R E : Type}.               (* the task's result, an exception *)
Variable has_stop : bool.

Inductive timeout_status := no_timeout | timeout.

(** std::variant<return_type, timeout_status> *)
Inductive variant := VTask (r : R) | VTimeout (t : timeout_status).

(** std::max(duration_cast<milliseconds>(timeout), 0ms), of a duration in nanoseconds *)
Definition timeout_ms (timeout_ns : Z) : Z := Z.max (Z.quot timeout_ns 1000000) 0.

(** The end of schedule: an expected<return_type, timeout_status> *)
Definition to_expected (v : variant) : R + timeout_status :=
  match v with VTask r => inl r | VTimeout t => inr t end.

(** make_timeout_task, once schedule_after has resumed it *)
Definition make_timeout_task : variant := VTimeout timeout.

Inductive path :=
| Plain                             (* co_await schedule(std::move(task)) *)
| Any (s : WhenAny.state (V := variant) (E := E))   (* co_await when_any(task, make_timeout_task(timeout_ms)) *)
| Done.

Inductive label :=
| LPlain (r : R + E)                (* schedule(task) is done *)
| LAny (l : WhenAny.label (V := variant) (E := E)).

Inductive event :=
| EvAny (e : WhenAny.event (V := variant))
| EvReturn (x : R + timeout_status)
| EvThrow (e : E).

Definition schedule (timeout_ns : Z) : path :=
  if timeout_ms timeout_ns =? 0 then Plain else Any WhenAny.init.

(** Awaitable 0 is the task, awaitable 1 the timeout task. *)
Definition typed (l : WhenAny.label (V := variant) (E := E)) : bool :=
  match l with
  | WhenAny.LOutcome 0 (inl (VTask _)) | WhenAny.LOutcome 0 (inr _) => true
  | WhenAny.LOutcome 1 (inl (VTimeout timeout)) => true
  | WhenAny.LOutcome _ _ => false
  | _ => true
  end.

Definition returns (ev : list (WhenAny.event (V := variant))) : option variant :=
  head (omap (fun e => match e with WhenAny.EvReturn _ v => Some v | _ => None end) ev).

Definition exec (l : label) (p : path) : option (path * list event) :=
  match p, l with
  | Plain, LPlain (inl r) => Some (Done, [EvReturn (inl r)])
  | Plain, LPlain (inr e) => Some (Done, [EvThrow e])
  | Any s, LAny l =>
      if typed l then
        match WhenAny.exec 2 has_stop l s with
        | Some (s', ev) =>
            Some (Any s', map EvAny ev ++ match returns ev with Some v => [EvReturn (to_expected v)] | None => [] end)
        | None => None
        end
      else None
  | _, _ => None
  end.

(** A duration below a millisecond is no timeout at all, as zero and negative ones are. *)
Lemma sub_millisecond ns : timeout_ms ns = 0 <-> ns < 1000000.
Proof.
  unfold timeout_ms. destruct (Z.le_gt_cases 0 ns).
  - rewrite Z.quot_div_nonneg by lia. pose proof (Z.div_pos ns 1000000). rewrite Z.max_l by lia.
    split; [intros ?%Z.div_small_iff; lia|intros; apply Z.div_small; lia].
  - pose proof (Z.quot_le_mono ns 0 1000000 ltac:(lia) ltac:(lia)) as Q. rewrite Z.quot_0_l in Q by lia. lia.
Qed.

(** ** What schedule returns *)

Definition results (tr : list event) : list (R + timeout_status) :=
  omap (fun e => match e with EvReturn x => Some x | _ => None end) tr.
Definition any_results (tr : list (WhenAny.event (V := variant))) : list variant :=
  omap (fun e => match e with WhenAny.EvReturn _ v => Some v | _ => None end) tr.
Definition no_throw (tr : list event) : Prop := forall e, EvThrow e ∉ tr.

(** Each awaitable ends with a value of its own type. *)
Definition typed_outcomes (s : WhenAny.state (V := variant) (E := E)) : Prop :=
  forall i v, WhenAny.outcomes s i = Some (inl v) ->
    match i with 0%nat => exists r, v = VTask r | 1%nat => v = make_timeout_task | _ => False end.

Lemma any_outcomes l (s s' : WhenAny.state (V := variant) (E := E)) ev : WhenAny.exec 2 has_stop l s = Some (s', ev) ->
  WhenAny.outcomes s' = WhenAny.outcomes s \/
  exists i r, l = WhenAny.LOutcome i r /\ WhenAny.outcomes s' = (WhenAny.outcomes s).[i ↦ Some r].
Proof.
  intros H. destruct l; cbn in H; exec_inv; try (by left);
    unfold WhenAny.start, WhenAny.compare_exchange, WhenAny.store, WhenAny.set_notify, WhenAny.outcome in *; exec_inv;
    try (by left); right; eauto.
Qed.

Lemma any_one_event l (s s' : WhenAny.state (V := variant) (E := E)) ev : WhenAny.exec 2 has_stop l s = Some (s', ev) -> (length ev <= 1)%nat.
Proof.
  intros H. destruct l; cbn in H; unfold WhenAny.compare_exchange, WhenAny.store, WhenAny.set_notify in H;
    exec_inv; cbn; lia.
Qed.

Lemma typed_step l s s' ev : typed l = true -> WhenAny.exec 2 has_stop l s = Some (s', ev) ->
  typed_outcomes s -> typed_outcomes s'.
Proof.
  intros Ht H T. destruct (any_outcomes l s s' ev H) as [Ho|(i & r & -> & Ho)]; intros j v; rewrite Ho; [apply T|].
  destruct (decide (j = i)) as [->|]; [|rewrite upd_ne by done; apply T]. rewrite upd_eq. intros [= ->].
  destruct i as [|[|i]], v as [r|[]]; try done. eauto.
Qed.

Lemma results_step ev : (length ev <= 1)%nat ->
  results (map EvAny ev ++ match returns ev with Some v => [EvReturn (to_expected v)] | None => [] end) =
  map to_expected (any_results ev).
Proof. intros H. destruct ev as [|e [|e' ev]]; [done| |cbn in H; lia]. by destruct e. Qed.

Lemma no_throw_any (ev : list (WhenAny.event (V := variant))) o e :
  EvThrow e ∉ map EvAny ev ++ match o with Some v => [EvReturn (to_expected v)] | None => [] end.
Proof.
  intros [(x & Hx & _)%list_elem_of_In%in_map_iff|H]%elem_of_app; [done|]. destruct o; set_solver.
Qed.

Lemma results_app a b : results (a ++ b) = results a ++ results b.
Proof. apply omap_app. Qed.
Lemma any_results_app a b : any_results (a ++ b) = any_results a ++ any_results b.
Proof. apply omap_app. Qed.

Definition sim (p : path) (tr : list event) : Prop :=
  no_throw tr /\ exists s tr0, p = Any s /\ reach (WhenAny.exec 2 has_stop) WhenAny.init s tr0 /\
    typed_outcomes s /\ results tr = map to_expected (any_results tr0).

Lemma reach_sim ns p tr : 1000000 <= ns -> reach exec (schedule ns) p tr -> sim p tr.
Proof.
  intros Hns. revert p tr. apply reach_inv.
  - split; [intros e; set_solver|]. exists WhenAny.init, []. unfold schedule.
    destruct (Z.eqb_spec (timeout_ms ns) 0) as [H|_]; [apply sub_millisecond in H; lia|].
    split_and!; [done|constructor|by intros i v|done].
  - intros p tr l p' ev (N & s & tr0 & -> & Hr & T & Hx) H. destruct l as [|l]; [done|]. cbn in H.
    destruct (typed l) eqn:Ht; [|done]. destruct (WhenAny.exec 2 has_stop l s) as [[s' ev']|] eqn:He; [|done].
    injection H as <- <-. split.
    + intros e [?|?]%elem_of_app; [by eapply N|by eapply no_throw_any].
    + exists s', (tr0 ++ ev'). split_and!; [done|by eapply reach_step|by eapply typed_step|].
      rewrite results_app, any_results_app, map_app, Hx, results_step; [done|by eapply any_one_event].
Qed.

(** The awaitables that came too late return nothing. *)
Lemma any_results_main tr : any_results (WhenAny.main_events tr) = any_results tr.
Proof. unfold any_results, WhenAny.main_events. induction tr as [|[] tr IH]; cbn; auto; by rewrite IH. Qed.

(** What when_any has returned, if anything: the result of one of its awaitables, once. *)
Lemma any_results_outcome (s : WhenAny.state (V := variant) (E := E)) tr : reach (WhenAny.exec 2 has_stop) WhenAny.init s tr ->
  any_results tr = [] \/ exists i v, any_results tr = [v] /\ WhenAny.outcomes s i = Some (inl v).
Proof.
  intros Hr. destruct (WhenAny.wy_reach_ok 2 has_stop s tr Hr) as (I & Hm & _). rewrite <- any_results_main, Hm. unfold WhenAny.history.
  pose proof (WhenAny.i_win 2 s I) as W. unfold WhenAny.winner_ok in W.
  destruct (WhenAny.won s) as [[i v]|]; [|by left]. destruct W as (_ & W & _).
  destruct has_stop, (WhenAny.main s); cbn; auto; right; eauto.
Qed.

(** [C32] With a timeout of a millisecond or more, schedule returns at most once: the task's
    result, which the task has returned, or [timeout], after the timeout task has ended. *)
Theorem schedule_timeout_returns ns p tr :
  1000000 <= ns -> reach exec (schedule ns) p tr ->
  exists s, p = Any s /\ (results tr = [] \/
    (exists r, results tr = [inl r] /\ WhenAny.outcomes s 0 = Some (inl (VTask r))) \/
    (results tr = [inr timeout] /\ WhenAny.outcomes s 1 = Some (inl make_timeout_task))).
Proof.
  intros Hns Hr. destruct (reach_sim ns p tr Hns Hr) as (_ & s & tr0 & -> & Hr0 & T & Hx). exists s. split; [done|].
  destruct (any_results_outcome s tr0 Hr0) as [H|(i & v & H & Ho)]; rewrite Hx, H; [by left|right].
  pose proof (T i v Ho) as Ht. destruct i as [|[|i]]; [destruct Ht as [r ->]; left; eauto|subst; by right|done].
Qed.

(** A task that throws: the exception reaches nobody, all that schedule can return is
    [timeout]. *)
Theorem schedule_timeout_swallows_exception ns p tr s e :
  1000000 <= ns -> reach exec (schedule ns) p tr -> p = Any s -> WhenAny.outcomes s 0 = Some (inr e) ->
  no_throw tr /\ (results tr = [] \/ results tr = [inr timeout]).
Proof.
  intros Hns Hr -> He. destruct (reach_sim ns _ tr Hns Hr) as (N & s' & tr0 & [= <-] & Hr0 & T & Hx). split; [done|].
  destruct (any_results_outcome s tr0 Hr0) as [H|(i & v & H & Ho)]; rewrite Hx, H; [by left|right].
  pose proof (T i v Ho) as Ht. destruct i as [|[|i]]; [congruence|by subst|done].
Qed.
End schedule_timeout.

Section witnesses.
Import WhenAny.
(** The task throws, then its timeout expires. *)
Definition throws : list (ScheduleTimeout.label (R := nat) (E := nat)) :=
  map LAny [LStart; LOutcome 0 (inr 9%nat); LStart; LSuspend; LStart; LAwait; LOutcome 1 (inl make_timeout_task);
            LCas 1; LStore 1; LSet 1; LStop; LReturn].

Lemma schedule_timeout_returns_witness :
  exists p tr, run (ScheduleTimeout.exec false) throws (schedule 5000000) = Some (p, tr) /\ results tr = [inr timeout] /\
    exists s, p = Any s /\ (results tr = [] \/
      (exists r, results tr = [inl r] /\ WhenAny.outcomes s 0 = Some (inl (VTask r))) \/
      (results tr = [inr timeout] /\ WhenAny.outcomes s 1 = Some (inl make_timeout_task))).
Proof.
  destruct (run (ScheduleTimeout.exec false) throws (schedule 5000000)) as [[p tr]|] eqn:Hrun; [|vm_compute in Hrun; discriminate].
  exists p, tr. split; [reflexivity|]. split.
  - vm_compute in Hrun. injection Hrun as _ <-. reflexivity.
  - apply (schedule_timeout_returns false 5000000 p tr); [lia|exact (run_reach _ _ _ _ _ Hrun)].
Defined.

Lemma schedule_timeout_swallows_exception_witness :
  exists p tr, run (ScheduleTimeout.exec false) throws (schedule 5000000) = Some (p, tr) /\
    no_throw tr /\ (results tr = [] \/ results tr = [inr timeout]).
Proof.
  destruct (run (ScheduleTimeout.exec false) throws (schedule 5000000)) as [[p tr]|] eqn:Hrun; [|vm_compute in Hrun; discriminate].
  exists p, tr. split; [reflexivity|]. pose proof Hrun as H. vm_compute in H. injection H as Hp _.
  refine (schedule_timeout_swallows_exception false 5000000 p tr _ 9%nat _ _ (eq_sym Hp) _);
    [lia|exact (run_reach _ _ _ _ _ Hrun)|reflexivity].
Defined.
End witnesses.
End ScheduleTimeout.
